(* ===== verification/_CoqProject ===== *)
-Q . S2P
Prelude.v
Orders.v
RateIndex.v
PriceFeed.v
OrderBook.v
IndexInvariant.v
BookInvariant.v
BookOps.v
BookQueries.v
Fills.v
DirectMatching.v
ThreeEdgeCycle.v
CycleProofs.v
Engine.v
BookTheorems.v
MatchingTheorems.v
Select.v
SwapEta.v
Types.v
Db.v
Migrations.v
Ingest.v
Matcher.v
MatcherProofs.v
MatcherTheorems.v
Liveness.v
Clearing.v
Executor.v
ExecutorTheorems.v
Protocol.v
Router.v
RouterProofs.v
RouterTheorems.v
LpClient.v
LpTheorems.v
Prices.v
PriceApi.v
Admin.v
Pipeline.v
Mirror.v
TxRequest.v
Solver.v
SolverProofs.v
SolverTheorems.v
Restart.v
Config.v
Startup.v
System.v
Channels.v
ChannelsTheorems.v
Process.v
ApiServer.v
MockPrice.v
MirrorDaemon.v
Observability.v
Binary.v
Diagnostics.v
E2e.v
E2eTheorems.v
Scenario.v
