(* ===== verification/Prelude.v ===== *)
(** * Verification of the PSWAP solver

    The repository is an order-matching solver for PSWAP notes on the Miden network
    (crates/solver), the SDK external liquidity providers connect with (crates/lp-sdk), the
    data of the settlement script (crates/consume-script) and test doubles.  Ingest reads
    notes from the chain, stores them and forwards orders; the matcher keeps an order book,
    matches it on every tick and hands what is left to DEXes over the router; the executor
    turns matched batches into transactions and moves the stored orders through their
    statuses; the admin and price APIs read and write beside them.

    ** The files and what they model

    Matching (crates/solver/src/matching):
    - Orders: [types.rs], orders, rate keys and the fill arithmetic at u64 width;
    - RateIndex, OrderBook: [order_book.rs], the price-time index and every method;
    - IndexInvariant, BookInvariant, BookOps, BookQueries, Fills: the invariant of the book,
      its preservation by every operation and the meaning of every query;
    - PriceFeed: [price_feed.rs] and the snapshot feed of [price/price.rs], as a class;
    - DirectMatching, ThreeEdgeCycle, Engine: [direct_matching.rs], [three_edge_cycle.rs],
      [engine.rs]; CycleProofs the proofs of the second;
    - BookTheorems, MatchingTheorems: the theorems of this part.

    The pipeline (crates/solver/src):
    - Types ([types.rs], [order.rs]), Db ([db/]), Migrations ([init_db] and
      crates/solver/migrations), Ingest ([ingest/]), Matcher with MatcherProofs, MatcherTheorems,
      Liveness and Clearing ([matcher/]), Executor with ExecutorTheorems ([executor/]), TxRequest ([build_tx_request] and crates/consume-script);
    - Select ([router/select.rs]), SwapEta ([swap_eta.rs]), Prices ([price/], the
      clients behind the class [PriceClient]), PriceApi ([price_api.rs], the precision of [config.rs], [readyz] of [obs.rs]), Admin ([admin/]),
      Pipeline ([pipeline.rs]: boot, subscriptions and the relay);
    - Solver, SolverProofs, SolverTheorems: ingest, matcher and executor over the shared
      database and the channels of [pipeline.rs], as a step relation over every interleaving;
    - Restart: the same with crashes and restarts; System: the same with the router as a fourth
      task; Channels with ChannelsTheorems: the same with the bounded channels of
      [create_channels], message by message;
    - Config ([config.rs] and what [start.rs] makes of it), Startup ([start.rs] and the bodies of
      the threads), Process (the running process: main thread, services and threads around
      one cancellation token), ApiServer (the layers of the price server), Observability
      ([obs.rs] and the loop of [run_ingest]), Diagnostics (the report on a rejected batch),
      Binary ([src/main.rs], [src/client_factory.rs]).

    External liquidity: Protocol (lp-sdk [protocol.rs]), Router with RouterProofs and
    RouterTheorems ([router/server.rs]), LpClient with LpTheorems (lp-sdk [client.rs]).
    Test services: Mirror (counter-orders and submission) and MirrorDaemon (configuration,
    command line and tick loop) of crates/mock-mirror, MockPrice (crates/mock-price).
    End-to-end driver: E2e with E2eTheorems (crates/e2e), as interaction trees over the calls of
    the client, and Scenario, its orders on their way through ingest, matcher and executor.

    ** How code becomes definitions

    Structs are records, enums inductive types, and each method is one function from state
    to state, with the early returns and error paths of the code.  Hash maps and sets are
    [gmap] and [gset]; where the code iterates over one, the order is the class [HashIter],
    so a theorem holds for every order.  The triangular heap is the class [CycleHeap].
    Machine integers are [Z] with wrap-around, saturation and casts written out below.
    Failures of the environment (connections, channels, replies, clocks) are inputs.  Tasks
    that share state (router connections, the solver's threads) are interleavings of atomic
    steps, each of them what the code does under one lock or in one message.

    What is not in the repository is a class of parameters: [Miden] (notes and their
    serialization), [PswapLaws] (what executing a PSWAP note pays), [Codec] (field
    encodings of the wire protocol), [Floats] (prices), [Json], [Probability], [E2eText] (the
    texts of the driver), the network of the driver (a handler of its calls), and the
    hexadecimal codec of ids.
    What is relied on is a named hypothesis ([id_roundtrip], [note_roundtrip],
    [pswap_amounts_u64], ...), and [demo_miden] and the codecs of Protocol are instances on
    which every theorem with such a hypothesis is applied.

    ** What the theorems show

    - The solver as a whole: in every interleaving, failures included, an order is in at
      most one place (channel, book, batch, settled), so no note is in two batches or settled
      twice; in an undisturbed run none is lost; without the triangular phase no batch that
      reaches the executor is insolvent; whenever the solver stops, the next start brings every
      open order back with its terms.  With the router attached the solver moves as it does
      alone with some well-formed quotes, and every frame a DEX is sent decodes to a stored
      note it quoted for, with the whole fill.  With bounded channels it moves as it does with
      unbounded ones, and below 15 003 stored orders every task that waits for a slot gets one.
    - Book: one invariant ties index, counters, adjacency, parking and balances to the
      orders under every operation; the queries give price-time priority.
    - Matching: both phases terminate and exhaust what they may match; fills stay within
      terms; the direct phase never owes a token; the triangular phase can, and the executor
      then rejects the batch.
    - Matcher: its reachable states are consistent and every tick returns; every value of a
      tick is within its machine width; batches and hand-overs are disjoint; a tick that finds
      two crossing orders at known prices sends a batch.
    - Executor: a batch is rejected exactly when it owes a token, every outcome moves
      exactly the rows it should, submissions are bounded.
    - Database and ingest: rows are durable, also across the migrations of every version, and
      orders are forwarded once and recoverable.
    - Router and LP client: registry invariant over interleavings, exact delivery, bounds of
      quote validity and reconnect delay, the event stream refines its protocol automaton,
      and messages round-trip.
    - APIs: the batch price endpoint agrees with the single one, the estimate is sound for the
      live book, the price server keeps to its limit of concurrent requests, the symbol cache
      is what a restart would load, all pairs are subscribed.
    - Process: start-up leaves no thread behind once the threads can be created; in every
      interleaving of main thread, services and threads a shutdown completes within a bound
      and returns only when every thread has ended, without polling a handle twice; the
      router admits exactly the configured tokens, a loaded configuration is valid.
    - Test services: every transaction of the mirror is accounted for over a whole run; a
      price set at the mock service is the one the solver's next poll publishes.
    - End-to-end driver: on a network that works [load] returns and posts exactly the pairs it
      announces, waiting for a transaction ends exactly when the network decides it, and the
      orders it posts are matched, prepared and leave the spread of every pair.

    Some theorems exhibit behaviour that the comments of the code rule out: insolvent
    triangular batches and the orders they strand, early release of a re-parked note, a
    consumed order that stays in the book, a nullified order that becomes active again,
    snapshots published out of order, more connections than the limit, a half counter that
    cannot match, orders sent twice when hydration races with the first sync, iterations
    dropped by a shutdown, threads left running when a later one cannot be created,
    refusals that caches may keep, a good sync that readiness does not see, a matcher and an
    executor that wait for each other's channel, in the mock price service lost updates and a
    feed stalled by a price that is not a number, and, in the end-to-end driver, a run that
    succeeds without settling anything and a gain shown when a balance could not be read.

    ** Fuel

    Only the loops of the engine take fuel: [length l + 2] suffices for direct matching on a
    book with visible orders [l], [three_edge_fuel] for the triangular phase; both are proved
    to suffice, and more fuel never changes a result ([run_mono], [tick_mono]).  The
    submission loops recurse on the retries that are left; the loop of the driver that has no
    bound is an [iter] of interaction trees.

    ** Not modelled

    Sockets, HTTP and CORS, TOML and JSON, SQL and its connections, tracing, metrics, signals and
    what is printed on a terminal, and the Miden client: libraries, whose outcomes are inputs of
    the model.  The MASM script and the transaction VM belong to Miden.  In Solver, Restart and
    System an ingest iteration is one step; Channels takes it apart into its writes and sends
    and shows that this adds nothing.  The hydration of the matcher is one step, and its race
    with the first sync is a theorem of its own.  The configuration of the binary crate
    ([src/config.rs]) is an earlier version that nothing loads. *)

From stdpp Require Export base gmap sets list strings sorting.
From Stdlib Require Export ZArith Lia.

#[global] Open Scope Z_scope.

(** ** Identifiers *)

(** A token is named by the account id of its faucet, an order by the id of its note
    and an external DEX by a connection number; the program only compares, hashes and
    stores them, so each is a number. *)
Abbreviation TokenId := N (only parsing).
Abbreviation OrderId := N (only parsing).
Abbreviation DexId := N (only parsing).
Abbreviation Pair := (N * N)%type (only parsing).

(** ** Machine integers *)

(** An unsigned machine integer is an integer in its range; the casts and the overflow
    behaviours the source uses are written out. *)
Definition two32 : Z := 4294967296.
Definition two64 : Z := 18446744073709551616.
Definition two128 : Z := 340282366920938463463374607431768211456.

Definition is_u64 (x : Z) : Prop := 0 <= x < two64.

(** [x as u64] from a wider type and [u64] addition that wraps; the same at 32 bits. *)
Definition wrap64 (x : Z) : Z := x mod two64.
Definition wrap32 (x : Z) : Z := x mod two32.

(** [saturating_sub], [saturating_add], [saturating_mul] and [checked_mul]. *)
Definition sat_sub (x y : Z) : Z := Z.max 0 (x - y).
Definition sat_add64 (x y : Z) : Z := Z.min (two64 - 1) (x + y).
Definition sat_add128 (x y : Z) : Z := Z.min (two128 - 1) (x + y).
Definition sat_mul128 (x y : Z) : Z := Z.min (two128 - 1) (x * y).
Definition checked_mul128 (x y : Z) : option Z :=
  if x * y <? two128 then Some (x * y) else None.

Declare Scope solver_scope.
Delimit Scope solver_scope with solver.
Notation "x ∸ y" := (sat_sub x y) (at level 50, left associativity) : solver_scope.
#[global] Open Scope solver_scope.

(** ** Iteration order of hash containers *)

(** A [HashSet] or [HashMap] is iterated in an order the standard library leaves open
    and that may differ from one iteration to the next.  A model that iterates one takes
    the order from an instance of this class; the first argument tells the iterations
    apart.  The theorems hold for every instance. *)
Class HashIter := {
  hash_iter : ∀ {A : Type} `{Countable A}, N → gset A → list A;
  hash_iter_perm : ∀ {A : Type} `{Countable A} (n : N) (s : gset A),
    hash_iter n s ≡ₚ elements s;
}.

(** The instance used to evaluate the model on concrete inputs. *)
Definition elements_iter : HashIter :=
  {| hash_iter := λ A _ _ _ s, elements s; hash_iter_perm := λ A _ _ n s, reflexivity _ |}.

(** ** Sums over finite maps *)

(** [msum f m] adds [f] over the values of [m]. *)
Definition msum {K V : Type} `{Countable K} (f : V → Z) (m : gmap K V) : Z :=
  map_fold (λ _ v acc, f v + acc) 0 m.

(** ** Removing one element *)

(** [VecDeque::remove] at the position of the first occurrence. *)
Fixpoint remove_first (x : N) (l : list N) : list N :=
  match l with
  | [] => []
  | y :: r => if decide (y = x) then r else y :: remove_first x r
  end.

(** ** Tactics *)

(** Goals about machine integers: the widths are unfolded and [lia] closes them. *)
Ltac u64 :=
  unfold is_u64, sat_sub, sat_add64, sat_add128, sat_mul128, two32, two64, two128 in *; lia.

(** Case analysis on every test the goal or a hypothesis is stuck on. *)
Ltac cases := repeat (case_match || case_decide); simplify_eq/=.

Create HintDb solver discriminated.

(** ** Lemmas on machine integers *)

Lemma wrap64_small x : is_u64 x → wrap64 x = x.
Proof. intros H. apply Z.mod_small, H. Qed.

Lemma wrap64_range x : is_u64 (wrap64 x).
Proof. apply Z.mod_pos_bound. done. Qed.

Lemma wrap64_le x : 0 <= x → wrap64 x <= x.
Proof. intros. apply Z.mod_le; [done | unfold two64; lia]. Qed.

Lemma wrap32_small x : 0 <= x < two32 → wrap32 x = x.
Proof. intros. by apply Z.mod_small. Qed.

Lemma wrap32_range x : 0 <= wrap32 x < two32.
Proof. apply Z.mod_pos_bound. done. Qed.

(** Products of two [u64]s fit in [u128]: the source's [as u128] products are exact. *)
Lemma mul_u64_fits x y : is_u64 x → is_u64 y → 0 <= x * y < two128.
Proof. unfold is_u64, two64, two128. nia. Qed.

(** Floor division is superadditive: filling in two parts never releases more than
    filling at once. *)
Lemma div_add_superadd a b c : 0 < c → a / c + b / c <= (a + b) / c.
Proof.
  intros Hc. apply Z.div_le_lower_bound; [done|].
  pose proof (Z.mul_div_le a c Hc). pose proof (Z.mul_div_le b c Hc). lia.
Qed.

Lemma div_ge_iff a b c : 0 < c → b <= a / c ↔ b * c <= a.
Proof.
  intros Hc. split; intros H.
  - pose proof (Z.mul_div_le a c Hc). nia.
  - apply Z.div_le_lower_bound; lia.
Qed.

#[export] Hint Resolve wrap64_range : solver.

(** ** Lemmas on finite maps *)

Section msum.
Context {K V : Type} `{Countable K} (f : V → Z).

Lemma msum_empty : msum f (∅ : gmap K V) = 0.
Proof. apply map_fold_empty. Qed.

Lemma msum_insert_new (m : gmap K V) k v :
  m !! k = None → msum f (<[k:=v]> m) = f v + msum f m.
Proof. intros Hk. unfold msum. rewrite map_fold_insert_L; [done | intros; lia | done]. Qed.

Lemma msum_delete (m : gmap K V) k v :
  m !! k = Some v → msum f m = f v + msum f (delete k m).
Proof.
  intros Hk. rewrite <-(insert_delete_id m k v Hk) at 1.
  by rewrite msum_insert_new by apply lookup_delete_eq.
Qed.

Lemma msum_insert (m : gmap K V) k v v' :
  m !! k = Some v → msum f (<[k:=v']> m) = msum f m - f v + f v'.
Proof.
  intros Hk. rewrite <-insert_delete_eq, msum_insert_new by apply lookup_delete_eq.
  rewrite (msum_delete m k v Hk). lia.
Qed.

Lemma msum_nonneg (m : gmap K V) :
  (∀ k v, m !! k = Some v → 0 <= f v) → 0 <= msum f m.
Proof.
  induction m as [|k v m Hk IH] using map_ind; intros Hf.
  - by rewrite msum_empty.
  - rewrite msum_insert_new by done.
    assert (0 <= f v) by (apply (Hf k); by simplify_map_eq).
    assert (0 <= msum f m); [|lia].
    apply IH. intros k' v' Hk'. apply (Hf k'). rewrite lookup_insert_ne; [done|].
    intros ->. congruence.
Qed.

Lemma msum_ext (g : V → Z) (m : gmap K V) :
  (∀ k v, m !! k = Some v → f v = g v) → msum f m = msum g m.
Proof.
  induction m as [|k v m Hk IH] using map_ind; intros Hfg; [done|].
  unfold msum. rewrite !map_fold_insert_L by (done || (intros; lia)).
  f_equal; [apply (Hfg k); by simplify_map_eq|].
  apply IH. intros k' v' Hk'. apply (Hfg k'). rewrite lookup_insert_ne; [done|].
  intros ->. congruence.
Qed.

(** A sum whose terms vanish outside a list of keys is the sum along the list. *)
Lemma msum_support (m : gmap K V) (ks : list K) :
  NoDup ks → (∀ k v, m !! k = Some v → k ∉ ks → f v = 0) →
  msum f m = foldr (λ k acc, from_option f 0 (m !! k) + acc) 0 ks.
Proof.
  intros Hnd. revert m. induction Hnd as [|k ks Hk Hnd IH]; intros m Hz; simpl.
  - rewrite (msum_ext (λ _, 0)) by (intros; eapply Hz; [done|apply not_elem_of_nil]).
    clear Hz. induction m as [|k v m Hk IH] using map_ind; [apply map_fold_empty|].
    unfold msum in *. rewrite map_fold_insert_L by (done || (intros; lia)). done.
  - assert (foldr (λ k acc, from_option f 0 (m !! k) + acc) 0 ks =
      foldr (λ k' acc, from_option f 0 (delete k m !! k') + acc) 0 ks) as ->.
    { clear IH Hz Hnd. induction ks as [|k' ks IH]; simpl; [done|]. apply not_elem_of_cons in Hk as [? ?].
      by rewrite lookup_delete_ne, IH. }
    rewrite <-IH.
    + destruct (m !! k) as [v|] eqn:Hm; simpl; [by rewrite (msum_delete m k v)|by rewrite delete_id].
    + intros k' v [Hne Hv]%lookup_delete_Some Hk'. apply (Hz k' v Hv). set_solver.
Qed.
End msum.

(** ** Lemmas on lists *)

Lemma elem_of_remove_first x y l :
  NoDup l → y ∈ remove_first x l ↔ y ∈ l ∧ y ≠ x.
Proof.
  induction 1 as [|z l Hz Hl IH]; simpl; [set_solver|].
  case_decide; subst; [set_solver|]. rewrite !elem_of_cons, IH. set_solver.
Qed.

Lemma remove_first_not_elem x l : x ∉ l → remove_first x l = l.
Proof.
  induction l as [|z l IH]; simpl; [done|]. rewrite not_elem_of_cons. intros [? ?].
  rewrite decide_False by done. by rewrite IH.
Qed.

Lemma NoDup_remove_first x l : NoDup l → NoDup (remove_first x l).
Proof.
  induction 1 as [|z l Hz Hl IH]; simpl; [constructor|].
  case_decide; [done|]. constructor; [|done].
  rewrite elem_of_remove_first by done. tauto.
Qed.

Lemma length_remove_first x l :
  x ∈ l → S (length (remove_first x l)) = length l.
Proof.
  induction l as [|z l IH]; simpl; [set_solver|]. rewrite elem_of_cons. intros Hx.
  case_decide; [done|]. simpl. rewrite IH; [done|]. naive_solver.
Qed.

Lemma remove_first_app_l x l k : x ∈ l → remove_first x (l ++ k) = remove_first x l ++ k.
Proof.
  induction l as [|z l IH]; simpl; [set_solver|]. rewrite elem_of_cons. intros Hx.
  case_decide; [done|]. simpl. rewrite IH; [done|]. naive_solver.
Qed.

Lemma remove_first_app_r x l k : x ∉ l → remove_first x (l ++ k) = l ++ remove_first x k.
Proof.
  induction l as [|z l IH]; simpl; [done|]. rewrite not_elem_of_cons. intros [? ?].
  rewrite decide_False by done. by rewrite IH.
Qed.

Lemma remove_first_app_not_r x l k :
  x ∉ k → remove_first x (l ++ k) = remove_first x l ++ k.
Proof.
  intros Hk. destruct (decide (x ∈ l)); [by apply remove_first_app_l|].
  by rewrite remove_first_app_r, !remove_first_not_elem.
Qed.

Lemma filter_none {A} (P : A → Prop) `{!∀ x, Decision (P x)} (l : list A) :
  (∀ x, x ∈ l → ¬ P x) → filter P l = [].
Proof.
  induction l as [|x l IH]; intros Hl; [done|]. rewrite filter_cons_False by (apply Hl; set_solver).
  apply IH. intros y Hy. apply Hl. set_solver.
Qed.

Lemma filter_all {A} (P : A → Prop) `{!∀ x, Decision (P x)} (l : list A) :
  (∀ x, x ∈ l → P x) → filter P l = l.
Proof.
  induction l as [|x l IH]; intros Hl; [done|]. rewrite filter_cons_True by (apply Hl; set_solver).
  rewrite IH; [done|]. intros y Hy. apply Hl. set_solver.
Qed.

(** Dropping one of distinct elements. *)
Lemma length_filter_drop {A} `{EqDecision A} (P : A → Prop) `{∀ x, Decision (P x)} x (l : list A) :
  NoDup l → x ∈ l → (∀ y, y ∈ l → P y ↔ y ≠ x) → S (length (filter P l)) = length l.
Proof.
  intros Hnd Hx HP. apply list_elem_of_split in Hx as (l1 & l2 & ->).
  apply NoDup_app in Hnd as (_ & Hd & [Hx2 _]%NoDup_cons).
  rewrite filter_app, filter_cons_False by (rewrite (HP x) by set_solver; tauto).
  assert (∀ k : list A, (∀ y, y ∈ k → y ∈ l1 ++ x :: l2 ∧ y ≠ x) → filter P k = k) as Hall.
  { intros k Hk. apply filter_all. intros y [Hy ?]%Hk. by apply HP. }
  rewrite !Hall, !length_app; simpl; [lia|set_solver|].
  intros y Hy. split; [set_solver|]. intros ->. specialize (Hd x Hy). set_solver.
Qed.

(** A list taken apart by two tests of which every element passes exactly one. *)
Lemma length_filter_split {A} (P Q : A → Prop) `{!∀ x, Decision (P x), !∀ x, Decision (Q x)} (l : list A) :
  (∀ x, x ∈ l → (P x ∧ ¬ Q x) ∨ (¬ P x ∧ Q x)) → length l = (length (filter P l) + length (filter Q l))%nat.
Proof.
  induction l as [|x l IH]; intros Hx; [done|]. rewrite !filter_cons. specialize (IH ltac:(intros; apply Hx; by right)).
  destruct (Hx x ltac:(by left)) as [[? ?]|[? ?]]; repeat case_decide; try done; simpl; lia.
Qed.

Lemma filter_ext_in {A} (P Q : A → Prop) `{!∀ x, Decision (P x), !∀ x, Decision (Q x)} (l : list A) :
  (∀ x, x ∈ l → P x ↔ Q x) → filter P l = filter Q l.
Proof.
  induction l as [|x l IH]; intros Hl; [done|]. rewrite !filter_cons, IH by set_solver.
  assert (P x ↔ Q x) by (apply Hl; set_solver). repeat case_decide; tauto.
Qed.

Lemma remove_first_filter x l : NoDup l → remove_first x l = filter (λ y, y ≠ x) l.
Proof.
  induction 1 as [|z l Hz Hl IH]; simpl; [done|]. rewrite filter_cons.
  destruct (decide (z = x)) as [->|]; [|by rewrite decide_True, IH by done].
  rewrite decide_False by tauto. rewrite <-IH. by rewrite remove_first_not_elem.
Qed.

(** Distinct keys of a map are at most as many as its entries. *)
Lemma NoDup_keys_length {K A} `{Countable K} (m : gmap K A) (l : list K) :
  NoDup l → (∀ k, k ∈ l → is_Some (m !! k)) → (length l <= size m)%nat.
Proof.
  intros Hnd Hl. rewrite <-size_dom, <-(size_list_to_set (C := gset K) l Hnd).
  apply subseteq_size. intros k. rewrite elem_of_list_to_set, elem_of_dom. apply Hl.
Qed.

(** A set built from a list has at most as many elements. *)
Lemma size_list_to_set_le {A} `{Countable A} (l : list A) :
  (size (list_to_set l : gset A) <= length l)%nat.
Proof.
  induction l as [|x l IH]; [done|]; cbn [list_to_set length].
  destruct (decide (x ∈ (list_to_set l : gset A))).
  - replace ({[x]} ∪ list_to_set l : gset A) with (list_to_set l : gset A) by set_solver. lia.
  - rewrite size_union, size_singleton by set_solver. lia.
Qed.

Lemma StronglySorted_select {A} (R : A → A → Prop) (P : A → Prop) `{!∀ x, Decision (P x)} (l : list A) :
  StronglySorted R l → StronglySorted R (filter P l).
Proof.
  induction 1 as [|x l Hl IH Hx]; [constructor|]. rewrite filter_cons. case_decide; [|done].
  constructor; [done|]. rewrite Forall_forall in *. intros y [_ Hy]%list_elem_of_filter. auto.
Qed.

(** Among elements with distinct keys, the one found under a key is the one with it. *)
Lemma head_filter_key {A K} `{EqDecision K} (f : A → K) (l : list A) (x : A) :
  NoDup (f <$> l) → x ∈ l → head (filter (λ y, f y = f x) l) = Some x.
Proof.
  induction l as [|y l IH]; intros Hnd; [by intros ?%not_elem_of_nil|].
  apply NoDup_cons in Hnd as [Hy Hnd]. rewrite filter_cons. intros [->|Hx]%elem_of_cons.
  - by rewrite decide_True.
  - rewrite decide_False; [by apply IH|]. intros He. apply Hy. rewrite He. by apply list_elem_of_fmap_2.
Qed.

(** ** Sublists and permutations *)

Lemma NoDup_sub {A} (l k : list A) : NoDup k → l ⊆+ k → NoDup l.
Proof. intros Hk (r & Hr)%submseteq_Permutation. rewrite Hr in Hk. by apply NoDup_app in Hk as [? _]. Qed.

Lemma filter_sublist_mono {A} (P : A → Prop) `{!∀ x, Decision (P x)} (l k : list A) :
  l `sublist_of` k → filter P l `sublist_of` filter P k.
Proof.
  induction 1 as [|x l k _ IH|x l k _ IH]; [done|..]; rewrite ?filter_cons; case_decide; [by apply sublist_skip|done|by apply sublist_cons|done].
Qed.

Lemma omap_length {A B} (f : A → option B) (l : list A) : (length (omap f l) <= length l)%nat.
Proof. induction l as [|x l IH]; [done|]. simpl. destruct (f x); simpl; unfold omap in IH; lia. Qed.

Lemma zip_fst_sublist {A B} (l : list A) (k : list B) : (zip l k).*1 `sublist_of` l.
Proof. revert k. induction l as [|x l IH]; intros [|y k]; simpl; [done..|apply sublist_nil_l|]. by apply sublist_skip. Qed.

(** Permutations of concatenations: the first list is moved to the front of the other side. *)
Ltac perm_app :=
  rewrite <-?app_assoc, ?app_nil_l, ?app_nil_r;
  lazymatch goal with
  | |- ?l ≡ₚ ?l => reflexivity
  | |- ?a ++ _ ≡ₚ ?a ++ _ => apply Permutation_app_head; perm_app
  | |- ?a ++ _ ≡ₚ _ => first [rewrite (Permutation_app_swap_app _ a)|rewrite (Permutation_app_comm _ a)]; perm_app
  end.
