(* ===== verification/Orders.v ===== *)
(** * Orders, rate keys and the fill arithmetic (crates/solver/src/matching/types.rs)

    [Order], [RateKey], [MatchResult] and the operations of [impl Order] at [u64] width:
    the release of a fill, its ceiling inverse, filling, and the two-order match
    [match_with].  The lemmas give the exact arithmetic of a fill and the accounting of a
    match that the order book and the matching phases build on.

    Division by a zero [requested] or [offered] panics in the source and is [0] here;
    [order_wf] excludes it, [Order::from_note] (Types.v) establishes it and every
    operation of the book keeps it. *)

From S2P Require Import Prelude.

(** ** Data *)

(** Key of the rate index: rate = requested / offered, lower is more generous. *)
Record RateKey := mk_rate_key { rk_requested : Z; rk_offered : Z }.

#[export] Instance rate_key_eq_dec : EqDecision RateKey.
Proof. solve_decision. Defined.

(** [Ord for RateKey]: exact comparison by cross-multiplication in [u128]. *)
Definition rate_cmp (k1 k2 : RateKey) : comparison :=
  rk_requested k1 * rk_offered k2 ?= rk_requested k2 * rk_offered k1.

(** [PartialEq for RateKey]: cross-multiplied equality. *)
Definition rate_eqb (k1 k2 : RateKey) : bool :=
  rk_requested k1 * rk_offered k2 =? rk_requested k2 * rk_offered k1.

(** An order of the book; [offered] and [requested] never change. *)
Record Order := mk_order {
  oid : OrderId;
  offered_token : TokenId;
  requested_token : TokenId;
  offered : Z;
  requested : Z;
  requested_remaining : Z;
}.

#[export] Instance order_eq_dec : EqDecision Order.
Proof. solve_decision. Defined.

Record MatchResult := mk_match_result {
  surplus_offered : Z;
  surplus_requested : Z;
}.

(** Top of book of one directed pair. *)
Record BestLevel := mk_best_level { bl_rate : RateKey; bl_volume : Z }.

(** The directed pair an order rests in. *)
Definition pair_of (o : Order) : Pair := (offered_token o, requested_token o).

(** The assignment to the one mutable field. *)
Definition set_remaining (o : Order) (r : Z) : Order :=
  mk_order (oid o) (offered_token o) (requested_token o) (offered o) (requested o) r.

(** ** Operations *)

(** [calculate_output_amount]: [((offered_total as u128 * fill as u128) /
    requested_total as u128) as u64]. *)
Definition calculate_output_amount (offered_total requested_total fill_amount : Z) : Z :=
  wrap64 (offered_total * fill_amount / requested_total).

Definition rate_key (o : Order) : RateKey := mk_rate_key (requested o) (offered o).

Definition is_active (o : Order) : bool := 0 <? requested_remaining o.

Definition is_completely_filled (o : Order) : bool := requested_remaining o =? 0.

Definition requested_filled (o : Order) : Z := requested o - requested_remaining o.

Definition offered_for (o : Order) (requested_fill : Z) : Z :=
  calculate_output_amount (offered o) (requested o) requested_fill.

Definition requested_for (o : Order) (offered_amount : Z) : Z :=
  calculate_output_amount (requested o) (offered o) offered_amount.

(** Ceiling inverse of [offered_for]: truncate, then correct a one-unit miss. *)
Definition min_fill_for_release (o : Order) (target : Z) : Z :=
  if target =? 0 then 0
  else if offered o <=? target then requested o
  else
    let fill := Z.min (wrap64 (target * requested o / offered o)) (requested o) in
    if target <=? offered_for o fill then fill
    else Z.min (fill + 1) (requested o).

Definition offered_remaining (o : Order) : Z := offered_for o (requested_remaining o).

(** [fill] caps the amount at what remains and returns the offered amount released. *)
Definition fill (o : Order) (amount : Z) : Order * Z :=
  let amount := Z.min amount (requested_remaining o) in
  (set_remaining o (requested_remaining o - amount), offered_for o amount).

Definition full_fill (o : Order) : Order * Z :=
  (set_remaining o 0, offered_remaining o).

Definition is_profitable_with (self other : Order) : bool :=
  requested self * requested other <? offered self * offered other.

(** [match_with] mutates both orders in place, also on some of the [None] exits: the
    result carries the two orders as the call leaves them. *)
Definition match_with (self other : Order) : option MatchResult * Order * Order :=
  if negb (is_active self) || negb (is_active other) then (None, self, other)
  else if negb (is_profitable_with self other) then (None, self, other)
  else
    let self_sends := Z.min (offered_remaining self) (requested_remaining other) in
    if self_sends =? 0 then (None, self, other)
    else
      let '(other', other_releases) := fill other self_sends in
      if other_releases =? 0 then (None, self, other')
      else
        let self_receives := Z.min other_releases (requested_remaining self) in
        let '(self', self_releases) := fill self self_receives in
        if self_releases <? self_sends then (None, self', other')
        else (Some (mk_match_result (self_releases ∸ self_sends)
                                    (other_releases ∸ self_receives)), self', other').

(** ** Well-formedness *)

Definition rate_wf (k : RateKey) : Prop :=
  0 < rk_requested k < two64 ∧ 0 < rk_offered k < two64.

Definition order_wf (o : Order) : Prop :=
  0 < offered o < two64 ∧ 0 < requested o < two64 ∧
  0 <= requested_remaining o <= requested o.

(** ** The rate order *)

Definition rate_lt (k1 k2 : RateKey) : Prop := rate_cmp k1 k2 = Lt.
Definition rate_eq (k1 k2 : RateKey) : Prop := rate_cmp k1 k2 = Eq.
Definition rate_le (k1 k2 : RateKey) : Prop := rate_cmp k1 k2 ≠ Gt.

#[export] Instance comparison_eq_dec : EqDecision comparison.
Proof. solve_decision. Defined.
#[export] Instance rate_lt_dec k1 k2 : Decision (rate_lt k1 k2) := decide (rate_cmp k1 k2 = Lt).
#[export] Instance rate_eq_dec k1 k2 : Decision (rate_eq k1 k2) := decide (rate_cmp k1 k2 = Eq).
#[export] Instance rate_le_dec k1 k2 : Decision (rate_le k1 k2) := decide (rate_cmp k1 k2 ≠ Gt).

Lemma rate_cmp_spec k1 k2 :
  match rate_cmp k1 k2 with
  | Lt => rk_requested k1 * rk_offered k2 < rk_requested k2 * rk_offered k1
  | Eq => rk_requested k1 * rk_offered k2 = rk_requested k2 * rk_offered k1
  | Gt => rk_requested k2 * rk_offered k1 < rk_requested k1 * rk_offered k2
  end.
Proof.
  unfold rate_cmp. destruct (Z.compare_spec (rk_requested k1 * rk_offered k2)
    (rk_requested k2 * rk_offered k1)); lia.
Qed.

Lemma rate_cmp_flip k1 k2 : rate_cmp k2 k1 = CompOpp (rate_cmp k1 k2).
Proof. unfold rate_cmp. apply Z.compare_antisym. Qed.

Lemma rate_eqb_cmp k1 k2 : rate_eqb k1 k2 = true ↔ rate_cmp k1 k2 = Eq.
Proof. unfold rate_eqb, rate_cmp. rewrite Z.eqb_eq, Z.compare_eq_iff. done. Qed.

(** The inequality form of the comparison, on which the order lemmas reduce to
    multiplication by a positive denominator. *)
Lemma rate_le_iff k1 k2 :
  rate_le k1 k2 ↔ rk_requested k1 * rk_offered k2 <= rk_requested k2 * rk_offered k1.
Proof.
  unfold rate_le. pose proof (rate_cmp_spec k1 k2). destruct (rate_cmp k1 k2); split; try done; lia.
Qed.

Lemma rate_lt_iff k1 k2 :
  rate_lt k1 k2 ↔ rk_requested k1 * rk_offered k2 < rk_requested k2 * rk_offered k1.
Proof.
  unfold rate_lt. pose proof (rate_cmp_spec k1 k2). destruct (rate_cmp k1 k2); split; try done; lia.
Qed.

Lemma rate_eq_iff k1 k2 :
  rate_eq k1 k2 ↔ rk_requested k1 * rk_offered k2 = rk_requested k2 * rk_offered k1.
Proof.
  unfold rate_eq. pose proof (rate_cmp_spec k1 k2). destruct (rate_cmp k1 k2); split; try done; lia.
Qed.

Lemma cross_le_trans a b c x y z :
  0 < b → 0 < y → a * y <= x * b → x * z <= c * y → 0 < z → a * z <= c * b.
Proof. intros Hb Hy H1 H2 Hz. apply (Z.mul_le_mono_pos_r _ _ y Hy). nia. Qed.

Lemma cross_lt_trans a b c x y z :
  0 < b → 0 < y → a * y < x * b → x * z <= c * y → 0 < z → a * z < c * b.
Proof. intros Hb Hy H1 H2 Hz. apply (Z.mul_lt_mono_pos_r y _ _ Hy). nia. Qed.

Lemma rate_le_trans k1 k2 k3 :
  rate_wf k1 → rate_wf k2 → rate_wf k3 → rate_le k1 k2 → rate_le k2 k3 → rate_le k1 k3.
Proof.
  rewrite !rate_le_iff. intros [? ?] [? ?] [? ?] ? ?.
  eapply (cross_le_trans _ _ _ _ (rk_offered k2)); eauto; lia.
Qed.

Lemma rate_lt_le_trans k1 k2 k3 :
  rate_wf k1 → rate_wf k2 → rate_wf k3 → rate_lt k1 k2 → rate_le k2 k3 → rate_lt k1 k3.
Proof.
  rewrite !rate_lt_iff, rate_le_iff. intros [? ?] [? ?] [? ?] ? ?.
  eapply (cross_lt_trans _ _ _ _ (rk_offered k2)); eauto; lia.
Qed.

Lemma rate_lt_le k1 k2 : rate_lt k1 k2 → rate_le k1 k2.
Proof. rewrite rate_lt_iff, rate_le_iff. lia. Qed.

Lemma rate_eq_le k1 k2 : rate_eq k1 k2 → rate_le k1 k2.
Proof. rewrite rate_eq_iff, rate_le_iff. lia. Qed.

Lemma rate_eq_sym k1 k2 : rate_eq k1 k2 → rate_eq k2 k1.
Proof. rewrite !rate_eq_iff. lia. Qed.

Lemma rate_eq_trans k1 k2 k3 :
  rate_wf k1 → rate_wf k2 → rate_wf k3 → rate_eq k1 k2 → rate_eq k2 k3 → rate_eq k1 k3.
Proof. rewrite !rate_eq_iff. intros [? ?] [? ?] [? ?] ? ?. nia. Qed.

Lemma rate_le_refl k : rate_le k k.
Proof. rewrite rate_le_iff. lia. Qed.

Lemma rate_not_lt_le k1 k2 : ¬ rate_lt k1 k2 ↔ rate_le k2 k1.
Proof. rewrite rate_lt_iff, rate_le_iff. lia. Qed.

Lemma rate_le_lt_trans k1 k2 k3 :
  rate_wf k1 → rate_wf k2 → rate_wf k3 → rate_le k1 k2 → rate_lt k2 k3 → rate_lt k1 k3.
Proof.
  intros ? ? ? H12 H23. destruct (decide (rate_lt k1 k3)) as [|H31%rate_not_lt_le]; [done|].
  exfalso. apply (rate_not_lt_le k2 k3); [|done]. by apply (rate_le_trans _ k1).
Qed.

#[export] Hint Resolve rate_lt_le rate_eq_le rate_eq_sym rate_le_refl : solver.

Lemma rate_key_wf o : order_wf o → rate_wf (rate_key o).
Proof. intros (? & ? & ?). done. Qed.

#[export] Hint Resolve rate_key_wf : solver.

(** ** Fill arithmetic *)

Lemma is_active_spec o : order_wf o → is_active o = negb (is_completely_filled o).
Proof.
  intros (_ & _ & ?). unfold is_active, is_completely_filled.
  destruct (Z.ltb_spec 0 (requested_remaining o)), (Z.eqb_spec (requested_remaining o) 0);
    simpl; lia.
Qed.

Lemma set_remaining_wf o r :
  order_wf o → 0 <= r <= requested o → order_wf (set_remaining o r).
Proof. intros (? & ? & ?) ?. done. Qed.

Lemma requested_filled_range o :
  order_wf o → 0 <= requested_filled o <= requested o.
Proof. intros (? & ? & ?). unfold requested_filled. lia. Qed.

(** Within the order's size the [as u64] cast of [calculate_output_amount] is exact and
    the release never exceeds the offer. *)
Lemma offered_for_exact o f :
  order_wf o → 0 <= f <= requested o →
  offered_for o f = offered o * f / requested o ∧ 0 <= offered_for o f <= offered o.
Proof.
  intros (Ho & Hr & _) Hf. unfold offered_for, calculate_output_amount.
  assert (0 <= offered o * f / requested o) by (apply Z.div_pos; nia).
  assert (offered o * f / requested o <= offered o)
    by (apply Z.div_le_upper_bound; nia).
  rewrite wrap64_small by u64. done.
Qed.

Lemma offered_for_full o : order_wf o → offered_for o (requested o) = offered o.
Proof.
  intros H. destruct (offered_for_exact o (requested o) H) as [-> _].
  - destruct H as (_ & ? & _). lia.
  - destruct H as (_ & ? & _). apply Z.div_mul. lia.
Qed.

Lemma offered_for_zero o : order_wf o → offered_for o 0 = 0.
Proof.
  intros H. pose proof H as (_ & ? & _). destruct (offered_for_exact o 0 H) as [-> _]; [lia|].
  by rewrite Z.mul_0_r, Z.div_0_l by lia.
Qed.

Lemma offered_for_mono o f g :
  order_wf o → 0 <= f <= g → g <= requested o → offered_for o f <= offered_for o g.
Proof.
  intros H ? ?. destruct (offered_for_exact o f H) as [-> _]; [lia|].
  destruct (offered_for_exact o g H) as [-> _]; [lia|].
  destruct H as (? & ? & _). apply Z.div_le_mono; nia.
Qed.

(** Filling in two parts releases at most what filling their sum releases. *)
Lemma offered_for_superadd o f g :
  order_wf o → 0 <= f → 0 <= g → f + g <= requested o →
  offered_for o f + offered_for o g <= offered_for o (f + g).
Proof.
  intros H ? ? ?. destruct (offered_for_exact o f H) as [-> _]; [lia|].
  destruct (offered_for_exact o g H) as [-> _]; [lia|].
  destruct (offered_for_exact o (f + g) H) as [-> _]; [lia|].
  destruct H as (? & ? & _). rewrite Z.mul_add_distr_l. apply div_add_superadd. lia.
Qed.

(** When a part [f] of [r] already releases all that [r] releases, the rest releases
    nothing. *)
Lemma offered_for_rest_zero o f r :
  order_wf o → 0 <= f <= r → r <= requested o → offered_for o r <= offered_for o f →
  offered_for o (r - f) = 0.
Proof.
  intros H ? ? Hle. pose proof (offered_for_superadd o f (r - f) H) as Hs.
  replace (f + (r - f)) with r in Hs by lia.
  pose proof (offered_for_exact o (r - f) H ltac:(lia)). lia.
Qed.

Lemma offered_for_ge_iff o f t :
  order_wf o → 0 <= f <= requested o →
  t <= offered_for o f ↔ t * requested o <= offered o * f.
Proof.
  intros H ?. destruct (offered_for_exact o f H) as [-> _]; [done|].
  apply div_ge_iff. destruct H as (_ & ? & _). lia.
Qed.

(** The arithmetic core of [min_fill_for_release]: the least [f] with [t * r <= o * f]
    is the quotient or its successor. *)
Lemma ceil_of_quotient o r t f :
  0 < o → 0 <= t * r → t * r <= o * f → t * r / o <= f.
Proof. intros ? ? ?. apply Z.div_le_upper_bound; lia. Qed.

Lemma ceil_succ o r t : 0 < o → t * r <= o * (t * r / o + 1).
Proof. intros ?. pose proof (Z.mul_succ_div_gt (t * r) o). lia. Qed.

(** On a target below the offer the code's [min] and its cast do nothing. *)
Lemma min_fill_inner o t :
  order_wf o → 0 < t < offered o →
  Z.min (wrap64 (t * requested o / offered o)) (requested o) = t * requested o / offered o
  ∧ 0 <= t * requested o / offered o < requested o.
Proof.
  intros (? & ? & ?) ?.
  assert (0 <= t * requested o / offered o) by (apply Z.div_pos; nia).
  assert (t * requested o / offered o < requested o) by (apply Z.div_lt_upper_bound; nia).
  rewrite wrap64_small by u64. lia.
Qed.

(** [min_fill_for_release] is the least fill that releases the target. *)
Lemma min_fill_least o t :
  order_wf o → 0 <= t <= offered o →
  let m := min_fill_for_release o t in
  0 <= m <= requested o ∧ t <= offered_for o m ∧
  ∀ f, 0 <= f <= requested o → t <= offered_for o f → m <= f.
Proof.
  intros H Ht. pose proof H as (? & ? & ?). unfold min_fill_for_release.
  destruct (Z.eqb_spec t 0) as [->|Ht0].
  { rewrite offered_for_zero by done. split_and!; try lia. }
  destruct (Z.leb_spec (offered o) t).
  { assert (t = offered o) as -> by lia. rewrite offered_for_full by done.
    split_and!; try lia. intros f ? Hf. apply (offered_for_ge_iff o f) in Hf; [|done..]. nia. }
  destruct (min_fill_inner o t H ltac:(lia)) as [-> Hq].
  assert (Hlow : ∀ f, 0 <= f <= requested o → t <= offered_for o f → t * requested o / offered o <= f).
  { intros f ? Hf. apply (offered_for_ge_iff o f) in Hf; [|done..]. apply ceil_of_quotient; nia. }
  destruct (Z.leb_spec t (offered_for o (t * requested o / offered o))) as [Hle|Hgt].
  { split_and!; try lia. auto. }
  rewrite Z.min_l by lia. split_and!; try lia.
  - apply offered_for_ge_iff; [done|lia|]. apply ceil_succ. lia.
  - intros f ? Hf. destruct (decide (f = t * requested o / offered o)) as [->|]; [lia|].
    specialize (Hlow f ltac:(lia) Hf). lia.
Qed.

Lemma fill_wf o a : order_wf o → 0 <= a → order_wf (fill o a).1.
Proof. intros H ?. apply set_remaining_wf; [done|]. destruct H as (_ & _ & ?). lia. Qed.

(** ** The accounting of a match *)

(** What a successful [match_with] did: [sends] of [self]'s offered token went to
    [other], [receives] of [other]'s offered token went to [self], and the reported
    surpluses are exactly what each release leaves after the other side is paid. *)
Record match_ok (a b a' b' : Order) (r : MatchResult) (sends receives : Z) : Prop := {
  mo_sends : 0 < sends <= requested_remaining b;
  mo_receives : 0 < receives <= requested_remaining a;
  mo_a : a' = set_remaining a (requested_remaining a - receives);
  mo_b : b' = set_remaining b (requested_remaining b - sends);
  mo_surplus_a : offered_for a receives = sends + surplus_offered r;
  mo_surplus_b : offered_for b sends = receives + surplus_requested r;
  mo_nonneg : 0 <= surplus_offered r ∧ 0 <= surplus_requested r;
  mo_progress : requested_remaining b' = 0 ∨ offered_remaining a' = 0;
}.

Lemma match_with_ok a b a' b' r :
  order_wf a → order_wf b → match_with a b = (Some r, a', b') →
  ∃ sends receives, match_ok a b a' b' r sends receives.
Proof.
  intros Ha Hb. unfold match_with.
  destruct (negb (is_active a) || negb (is_active b)) eqn:Hact; [by intros|].
  destruct (negb (is_profitable_with a b)); [by intros|].
  apply orb_false_iff in Hact as [Hacta Hactb]. apply negb_false_iff, Z.ltb_lt in Hacta, Hactb.
  set (s := Z.min _ _). destruct (Z.eqb_spec s 0) as [|Hs]; [by intros|]. simpl.
  pose proof Ha as (? & ? & ?). pose proof Hb as (? & ? & ?).
  assert (0 <= offered_remaining a) by (apply offered_for_exact; auto).
  assert (Z.min s (requested_remaining b) = s) as -> by lia.
  destruct (Z.eqb_spec (offered_for b s) 0) as [|Hrel]; [by intros|].
  destruct (offered_for_exact b s Hb) as [_ Hrb]; [lia|].
  set (v := Z.min (offered_for b s) (requested_remaining a)).
  assert (Z.min v (requested_remaining a) = v) as -> by lia.
  destruct (Z.ltb_spec (offered_for a v) s) as [|Hge]; [by intros|].
  intros [= <- <- <-]. exists s, v.
  split; simpl; unfold sat_sub; try done; try lia.
  destruct (decide (s = requested_remaining b)); [left; lia | right].
  unfold offered_remaining. simpl.
  apply (offered_for_rest_zero a v (requested_remaining a)); [done|lia..|].
  change (offered_remaining a <= offered_for a v). lia.
Qed.
