(* ===== verification/RateIndex.v ===== *)
(** * The rate index of one pair (crates/solver/src/matching/order_book.rs)

    The book keeps, per directed pair, a [BTreeMap<RateKey, VecDeque<OrderId>>].  Here it
    is the list of its entries in key order; [btree_push_back], [btree_remove] and
    [btree_best] are the three ways the book touches it.  The specification of the
    structure is price-time priority: its ids, read in order, are the stable sort by
    rate ([rate_sort]) of the ids in the order they arrived. *)

From S2P Require Import Prelude.
From S2P Require Import Orders.

Abbreviation BTree := (list (RateKey * list N)) (only parsing).

(** ** Operations *)

(** [btree.entry(key).or_default().push_back(id)]: an entry whose key compares equal is
    reused with the key it was created with. *)
Fixpoint btree_push_back (key : RateKey) (id : OrderId) (t : BTree) : BTree :=
  match t with
  | [] => [(key, [id])]
  | (k, ids) :: r =>
    match rate_cmp key k with
    | Lt => (key, [id]) :: (k, ids) :: r
    | Eq => (k, ids ++ [id]) :: r
    | Gt => (k, ids) :: btree_push_back key id r
    end
  end.

(** The removal in [remove_from_index]: find the entry of the key, delete the first
    occurrence of the id, drop the entry if that leaves it empty. *)
Fixpoint btree_remove (key : RateKey) (id : OrderId) (t : BTree) : BTree :=
  match t with
  | [] => []
  | (k, ids) :: r =>
    match rate_cmp key k with
    | Lt => (k, ids) :: r
    | Eq => match remove_first id ids with [] => r | ids' => (k, ids') :: r end
    | Gt => (k, ids) :: btree_remove key id r
    end
  end.

(** The inner loop of [best_order]: pop inactive ids off the front of a deque. *)
Fixpoint drop_inactive (active : OrderId → bool) (ids : list OrderId) : list OrderId :=
  match ids with
  | [] => []
  | i :: r => if active i then i :: r else drop_inactive active r
  end.

(** The outer loop of [best_order]: drop entries that become empty, stop at the first
    live id. *)
Fixpoint btree_best (active : OrderId → bool) (t : BTree) : BTree * option OrderId :=
  match t with
  | [] => ([], None)
  | (k, ids) :: r =>
    match drop_inactive active ids with
    | [] => btree_best active r
    | i :: ids' => ((k, i :: ids') :: r, Some i)
    end
  end.

(** [btree.values().flat_map(|ids| ids.iter())] *)
Definition btree_ids (t : BTree) : list OrderId := concat (snd <$> t).

(** ** Lemmas on the operations *)

Lemma btree_ids_cons k ids t : btree_ids ((k, ids) :: t) = ids ++ btree_ids t.
Proof. done. Qed.

Lemma elem_of_btree_ids x t : x ∈ btree_ids t ↔ ∃ e, e ∈ t ∧ x ∈ e.2.
Proof.
  induction t as [|[k ids] t IH]; [set_solver|].
  rewrite btree_ids_cons, elem_of_app, IH. set_solver.
Qed.

Lemma btree_push_back_keys key id t e :
  e ∈ btree_push_back key id t → e.1 = key ∨ ∃ e', e' ∈ t ∧ e.1 = e'.1.
Proof.
  induction t as [|[k ids] t IH]; simpl; [set_solver|].
  destruct (rate_cmp key k); rewrite !elem_of_cons.
  - intros [->|?]; right; [exists (k, ids) | exists e]; set_solver.
  - intros [->|[->|?]]; [by left | right; exists (k, ids) | right; exists e]; set_solver.
  - intros [->|[?|(e' & ? & ?)]%IH]; [right; exists (k, ids); set_solver | by left |].
    right. exists e'. set_solver.
Qed.

Lemma btree_remove_keys key id t e :
  e ∈ btree_remove key id t → ∃ e', e' ∈ t ∧ e.1 = e'.1.
Proof.
  induction t as [|[k ids] t IH]; simpl; [set_solver|]. destruct (rate_cmp key k).
  - destruct (remove_first id ids); [set_solver|].
    rewrite elem_of_cons. intros [->|?]; [exists (k, ids) | exists e]; set_solver.
  - intros ?. by exists e.
  - rewrite elem_of_cons. intros [->|(e' & ? & ?)%IH]; [exists (k, ids) | exists e']; set_solver.
Qed.

Lemma btree_NoDup_entry t e : NoDup (btree_ids t) → e ∈ t → NoDup e.2.
Proof.
  induction t as [|[k ids] t IH]; [set_solver|]. rewrite btree_ids_cons.
  intros (? & _ & ?)%NoDup_app [->|?]%elem_of_cons; auto.
Qed.

Lemma drop_inactive_all active ids :
  (∀ x, x ∈ ids → active x = true) → drop_inactive active ids = ids.
Proof. destruct ids as [|i ids]; simpl; [done|]. intros H. by rewrite H by set_solver. Qed.

(** In general pruning only drops inactive ids, and finds the first active one. *)
Lemma drop_inactive_filter active ids :
  filter (λ x, active x = true) (drop_inactive active ids) = filter (λ x, active x = true) ids.
Proof.
  induction ids as [|i ids IH]; simpl; [done|]. destruct (active i) eqn:E; [done|].
  rewrite filter_cons_False by congruence. done.
Qed.

Lemma btree_best_spec active t :
  (btree_best active t).2 = head (filter (λ x, active x = true) (btree_ids t)) ∧
  filter (λ x, active x = true) (btree_ids (btree_best active t).1) =
  filter (λ x, active x = true) (btree_ids t).
Proof.
  induction t as [|[k ids] t [IH1 IH2]]; [done|]. simpl.
  rewrite !btree_ids_cons, filter_app, <-(drop_inactive_filter active ids).
  destruct (drop_inactive active ids) as [|i ids'] eqn:E; simpl; [done|].
  assert (active i = true) as Hi.
  { clear -E. induction ids as [|j ids IH]; simpl in E; [done|].
    destruct (active j) eqn:Ej; [by simplify_eq | auto]. }
  rewrite !btree_ids_cons, filter_app, filter_cons_True by done. done.
Qed.

(** ** Specification: stable sort by rate *)

Section spec.
(** The rate of an id. *)
Variable kf : OrderId → RateKey.

(** Insert after every id whose rate is not higher. *)
Fixpoint rate_insert (id : OrderId) (l : list OrderId) : list OrderId :=
  match l with
  | [] => [id]
  | x :: r =>
    match rate_cmp (kf id) (kf x) with
    | Lt => id :: x :: r
    | _ => x :: rate_insert id r
    end
  end.

(** Stable sort by rate of the ids in arrival order. *)
Definition rate_sort (l : list OrderId) : list OrderId :=
  foldl (λ acc id, rate_insert id acc) [] l.

Definition rates_wf (l : list OrderId) : Prop := ∀ x, x ∈ l → rate_wf (kf x).
Definition sorted_by_rate (l : list OrderId) : Prop :=
  StronglySorted (λ x y, rate_le (kf x) (kf y)) l.

(** Well-formed index: keys strictly increasing, no empty deque, every id under a key
    that compares equal to its rate. *)
Definition entry_ok (e : RateKey * list OrderId) : Prop :=
  e.2 ≠ [] ∧ rate_wf e.1 ∧ ∀ x, x ∈ e.2 → rate_eq e.1 (kf x) ∧ rate_wf (kf x).
Definition btree_ok (t : BTree) : Prop :=
  StronglySorted (λ e1 e2, rate_lt e1.1 e2.1) t ∧ Forall entry_ok t.

(** *** The insertion *)

Lemma rate_insert_skip id l1 l2 :
  (∀ x, x ∈ l1 → ¬ rate_lt (kf id) (kf x)) →
  rate_insert id (l1 ++ l2) = l1 ++ rate_insert id l2.
Proof.
  induction l1 as [|x l1 IH]; simpl; [done|]. intros Hx.
  destruct (rate_cmp (kf id) (kf x)) eqn:E;
    try (rewrite IH; [done|]; intros y Hy; apply Hx; set_solver).
  exfalso. apply (Hx x); [set_solver|done].
Qed.

Lemma rate_insert_front id l :
  (∀ x, x ∈ l → rate_lt (kf id) (kf x)) → rate_insert id l = id :: l.
Proof.
  destruct l as [|x l]; simpl; [done|]. intros Hx.
  rewrite (Hx x) by set_solver. done.
Qed.

Lemma rate_insert_perm id l : rate_insert id l ≡ₚ id :: l.
Proof.
  induction l as [|x l IH]; simpl; [done|].
  destruct (rate_cmp (kf id) (kf x)); rewrite ?IH; [constructor | done | constructor].
Qed.

Lemma elem_of_rate_insert id x l : x ∈ rate_insert id l ↔ x = id ∨ x ∈ l.
Proof. by rewrite rate_insert_perm, elem_of_cons. Qed.

Lemma rate_insert_sorted id l :
  rate_wf (kf id) → rates_wf l → sorted_by_rate l → sorted_by_rate (rate_insert id l).
Proof.
  intros Hid Hwf Hs. induction Hs as [|x l Hs IH Hx]; simpl; [repeat constructor|].
  rewrite Forall_forall in Hx.
  assert (rates_wf l) as Hwfl by (intros y Hy; apply Hwf; set_solver).
  assert (rate_wf (kf x)) as Hwfx by (apply Hwf; set_solver).
  assert (rate_lt (kf id) (kf x) → sorted_by_rate (id :: x :: l)) as Hlt.
  { intros Hlt. constructor; [constructor; [done|by apply Forall_forall]|].
    apply Forall_forall. intros y [->|Hy]%elem_of_cons; [auto with solver|].
    eauto using rate_le_trans with solver. }
  assert (¬ rate_lt (kf id) (kf x) → sorted_by_rate (x :: rate_insert id l)) as Hge.
  { intros Hge%rate_not_lt_le. constructor; [by apply IH|]. apply Forall_forall.
    intros y [->|Hy]%elem_of_rate_insert; [done|auto]. }
  destruct (rate_cmp (kf id) (kf x)) eqn:E; try (apply Hge; unfold rate_lt; congruence).
  by apply Hlt.
Qed.

(** Ids of equal rate keep their order; the new one comes last. *)
Lemma rate_insert_filter k id l :
  rate_wf k → rate_wf (kf id) → rates_wf l → sorted_by_rate l →
  filter (λ x, rate_eq k (kf x)) (rate_insert id l) =
  filter (λ x, rate_eq k (kf x)) l ++ (if decide (rate_eq k (kf id)) then [id] else []).
Proof.
  intros Hk Hid Hwf Hs. induction Hs as [|x l Hs IH Hx]; simpl.
  { by rewrite filter_cons, filter_nil. }
  rewrite Forall_forall in Hx.
  assert (rates_wf l) as Hwfl by (intros y Hy; apply Hwf; set_solver).
  assert (rate_wf (kf x)) as Hwfx by (apply Hwf; set_solver).
  destruct (rate_cmp (kf id) (kf x)) eqn:E.
  1,3: rewrite !filter_cons, IH by done; repeat case_decide; done.
  rewrite filter_cons. case_decide as Heq; [|by rewrite app_nil_r].
  assert (filter (λ y, rate_eq k (kf y)) (x :: l) = []) as ->; [|done].
  apply filter_none. intros y Hy Hky.
  assert (rate_le (kf x) (kf y)) by (apply elem_of_cons in Hy as [->|?]; auto with solver).
  assert (rate_wf (kf y)) by (by apply Hwf).
  assert (rate_lt (kf id) (kf y)) as Hlt by eauto using rate_lt_le_trans.
  apply rate_not_lt_le in Hlt; [done|].
  eapply (rate_le_trans _ k); eauto with solver.
Qed.

(** *** The sort *)

Lemma rate_sort_snoc l id : rate_sort (l ++ [id]) = rate_insert id (rate_sort l).
Proof. unfold rate_sort. by rewrite foldl_snoc. Qed.

Lemma rate_sort_perm l : rate_sort l ≡ₚ l.
Proof.
  induction l as [|x l IH] using rev_ind; [done|].
  rewrite rate_sort_snoc, rate_insert_perm, IH. by rewrite (comm app l).
Qed.

Lemma elem_of_rate_sort x l : x ∈ rate_sort l ↔ x ∈ l.
Proof. by rewrite rate_sort_perm. Qed.

Lemma NoDup_rate_sort l : NoDup l → NoDup (rate_sort l).
Proof. by rewrite rate_sort_perm. Qed.

Lemma rates_wf_sort l : rates_wf l → rates_wf (rate_sort l).
Proof. intros H x. rewrite elem_of_rate_sort. apply H. Qed.

Lemma rates_wf_app l k : rates_wf (l ++ k) ↔ rates_wf l ∧ rates_wf k.
Proof. unfold rates_wf. setoid_rewrite elem_of_app. naive_solver. Qed.

Lemma rate_sort_sorted l : rates_wf l → sorted_by_rate (rate_sort l).
Proof.
  induction l as [|x l IH] using rev_ind; [constructor|]. intros [Hl Hx]%rates_wf_app.
  rewrite rate_sort_snoc. apply rate_insert_sorted; [apply Hx; set_solver| |by apply IH].
  by apply rates_wf_sort.
Qed.

(** Stability: among the ids of one rate the sort keeps the arrival order. *)
Lemma rate_sort_stable k l :
  rate_wf k → rates_wf l →
  filter (λ x, rate_eq k (kf x)) (rate_sort l) = filter (λ x, rate_eq k (kf x)) l.
Proof.
  intros Hk. induction l as [|x l IH] using rev_ind; [done|]. intros [Hl Hx]%rates_wf_app.
  rewrite rate_sort_snoc, rate_insert_filter, IH, filter_app, filter_cons, filter_nil;
    try done; [apply Hx; set_solver | by apply rates_wf_sort | by apply rate_sort_sorted].
Qed.

(** Removing an id commutes with inserting another one, and with the sort. *)
Lemma rate_insert_remove id x l :
  id ≠ x → rate_wf (kf x) → rates_wf l → sorted_by_rate l → NoDup l →
  rate_insert x (remove_first id l) = remove_first id (rate_insert x l).
Proof.
  intros Hne Hx Hwf Hs Hnd. induction Hs as [|y l Hs IH Hy]; simpl; [by rewrite decide_False|].
  rewrite Forall_forall in Hy. apply NoDup_cons in Hnd as [? Hnd].
  assert (rates_wf l) as Hwfl by (intros z Hz; apply Hwf; set_solver).
  case_decide as Hdec; subst.
  - destruct (rate_cmp (kf x) (kf id)) eqn:E; simpl; rewrite ?decide_True, ?decide_False by done;
      try done. simpl. rewrite decide_True by done.
    apply rate_insert_front. intros z Hz. apply (rate_lt_le_trans _ (kf id)); auto; apply Hwf; set_solver.
  - simpl. destruct (rate_cmp (kf x) (kf y)) eqn:E; simpl;
      rewrite ?(decide_False (P := y = id)), ?(decide_False (P := x = id)), ?IH by done; done.
Qed.

Lemma rate_sort_remove id l :
  rates_wf l → NoDup l → rate_sort (remove_first id l) = remove_first id (rate_sort l).
Proof.
  induction l as [|x l IH] using rev_ind; [done|].
  intros [Hl Hx]%rates_wf_app (Hnd & Hdis & _)%NoDup_app. rewrite rate_sort_snoc.
  assert (x ∉ l) by set_solver. destruct (decide (x = id)) as [->|Hne].
  - rewrite remove_first_app_r by done. simpl. rewrite decide_True, app_nil_r by done.
    clear IH. assert (id ∉ rate_sort l) as Hni by by rewrite elem_of_rate_sort.
    revert Hni. generalize (rate_sort l). intros k. induction k as [|y k IH]; simpl.
    { by rewrite decide_True. }
    rewrite not_elem_of_cons. intros [? ?]. specialize (IH ltac:(done)).
    destruct (rate_cmp (kf id) (kf y)); simpl;
      rewrite ?(decide_False (P := y = id)), ?(decide_True (P := id = id)), <-?IH by done; done.
  - assert (remove_first id (l ++ [x]) = remove_first id l ++ [x]) as ->.
    { destruct (decide (id ∈ l)); [by apply remove_first_app_l|].
      rewrite remove_first_app_r, (remove_first_not_elem id l) by done.
      simpl. by rewrite decide_False. }
    rewrite rate_sort_snoc, IH by done. apply rate_insert_remove; try done.
    + apply Hx. set_solver.
    + by apply rates_wf_sort.
    + by apply rate_sort_sorted.
    + by apply NoDup_rate_sort.
Qed.

(** Selecting ids commutes with the sort. *)
Lemma rate_insert_select (P : OrderId → Prop) `{!∀ x, Decision (P x)} x l :
  rate_wf (kf x) → rates_wf l → sorted_by_rate l →
  filter P (rate_insert x l) = if decide (P x) then rate_insert x (filter P l) else filter P l.
Proof.
  intros Hx Hwf Hs. induction Hs as [|y l Hs IH Hy]; simpl; [by rewrite filter_cons|].
  rewrite Forall_forall in Hy.
  assert (rates_wf l) as Hwfl by (intros z Hz; apply Hwf; set_solver).
  specialize (IH Hwfl). destruct (rate_cmp (kf x) (kf y)) eqn:E.
  1,3: rewrite !(filter_cons P y), IH; repeat case_decide; simpl; rewrite ?E; done.
  rewrite filter_cons. case_decide as HP; [|done]. symmetry. apply rate_insert_front.
  intros z [_ Hz]%list_elem_of_filter. apply elem_of_cons in Hz as [->|Hz]; [done|].
  apply (rate_lt_le_trans _ (kf y)); auto; apply Hwf; set_solver.
Qed.

Lemma rate_sort_select (P : OrderId → Prop) `{!∀ x, Decision (P x)} l :
  rates_wf l → rate_sort (filter P l) = filter P (rate_sort l).
Proof.
  induction l as [|x l IH] using rev_ind; [done|]. intros [Hl Hx]%rates_wf_app.
  rewrite rate_sort_snoc, filter_app, filter_cons, filter_nil.
  rewrite rate_insert_select, <-IH by
    (auto using rates_wf_sort, rate_sort_sorted; apply Hx; set_solver).
  case_decide; [apply rate_sort_snoc | by rewrite app_nil_r].
Qed.

(** *** The index implements the sort *)

Lemma btree_ok_cons k ids t :
  btree_ok ((k, ids) :: t) ↔
  entry_ok (k, ids) ∧ btree_ok t ∧ ∀ e, e ∈ t → rate_lt k e.1.
Proof.
  unfold btree_ok. rewrite Forall_cons. split.
  - intros [Hs [He Ht]]. apply StronglySorted_inv in Hs as [Hs Hf].
    rewrite Forall_forall in Hf. split_and!; try done.
  - intros (He & [Hs Ht] & Hf). split; [|done]. constructor; [done|]. by apply Forall_forall.
Qed.

(** Every id of the later entries has a strictly higher rate. *)
Lemma btree_later_lt k ids t x :
  btree_ok ((k, ids) :: t) → x ∈ btree_ids t → rate_wf (kf x) ∧ rate_lt k (kf x).
Proof.
  intros (He & [_ Ht] & Hk)%btree_ok_cons [e [Hin Hx]]%elem_of_btree_ids.
  rewrite Forall_forall in Ht. destruct (Ht e Hin) as (_ & Hwe & Hxe).
  destruct (Hxe x Hx) as [? ?]. split; [done|].
  destruct He as (_ & ? & _). eapply (rate_lt_le_trans _ e.1); eauto with solver.
Qed.

Lemma btree_ids_wf t : btree_ok t → rates_wf (btree_ids t).
Proof.
  intros [_ Ht] x [e [Hin Hx]]%elem_of_btree_ids. rewrite Forall_forall in Ht.
  by destruct (Ht e Hin) as (_ & _ & [_ ?]%(λ H, H x Hx)).
Qed.

Lemma btree_push_back_ids key id t :
  btree_ok t → rate_wf key → rate_eq key (kf id) → rate_wf (kf id) →
  btree_ids (btree_push_back key id t) = rate_insert id (btree_ids t).
Proof.
  intros Hok Hkey Heq Hid. induction t as [|[k ids] t IH]; [done|].
  pose proof (btree_later_lt k ids t) as Hlater.
  pose proof Hok as ((_ & Hk & Hids) & Ht & Hlt)%btree_ok_cons. simpl in Hk, Hids.
  simpl. destruct (rate_cmp key k) eqn:E; rewrite ?btree_ids_cons.
  - rewrite rate_insert_skip, rate_insert_front, <-app_assoc; [done| |].
    + intros x Hx. destruct (Hlater x Hok Hx) as [Hwx Hkx].
      eapply (rate_le_lt_trans _ key); eauto with solver.
      eapply (rate_le_lt_trans _ k); eauto with solver.
    + intros x Hx Hlt'. destruct (Hids x Hx) as [Hkx Hwx].
      apply rate_not_lt_le in Hlt'; [done|].
      eapply (rate_le_trans _ k); eauto with solver.
      eapply (rate_le_trans _ key); eauto with solver.
  - symmetry. apply rate_insert_front. intros x [Hx|Hx]%elem_of_app.
    + destruct (Hids x Hx) as [Hkx Hwx]. eapply (rate_le_lt_trans _ key); eauto with solver.
      eapply (rate_lt_le_trans _ k); eauto with solver.
    + destruct (Hlater x Hok Hx) as [Hwx Hkx]. eapply (rate_le_lt_trans _ key); eauto with solver.
      eapply (rate_lt_le_trans _ k); eauto with solver.
  - rewrite rate_insert_skip, IH; [done..|]. intros x Hx Hlt'. destruct (Hids x Hx) as [Hkx Hwx].
    apply rate_not_lt_le in Hlt'; [done|].
    assert (rate_lt k key) by (unfold rate_lt; by rewrite rate_cmp_flip, E).
    eapply (rate_le_trans _ k); eauto with solver. eapply (rate_le_trans _ key); eauto with solver.
Qed.

Lemma btree_push_back_ok key id t :
  btree_ok t → rate_wf key → rate_eq key (kf id) → rate_wf (kf id) →
  btree_ok (btree_push_back key id t).
Proof.
  intros Hok Hkey Heq Hid. assert (entry_ok (key, [id])) as Hnew.
  { split_and!; try done. intros x ->%list_elem_of_singleton. done. }
  induction t as [|[k ids] t IH]; simpl.
  { apply btree_ok_cons. split_and!; [done| |set_solver]. split; constructor. }
  pose proof Hok as (He & Ht & Hlt)%btree_ok_cons. pose proof He as (Hne & Hk & Hids).
  simpl in Hk, Hids. destruct (rate_cmp key k) eqn:E; apply btree_ok_cons.
  - split_and!; try done. split_and!; try done; simpl; [by destruct ids|].
    intros x [Hx| ->%list_elem_of_singleton]%elem_of_app; [auto|]. split; [|done].
    apply (rate_eq_trans _ key); auto with solver.
  - split_and!; try done. intros e [->|He']%elem_of_cons; [done|].
    pose proof Ht as [_ Hf]. rewrite Forall_forall in Hf. destruct (Hf e He') as (_ & ? & _).
    eapply (rate_lt_le_trans _ k); auto with solver.
  - split_and!; auto. intros e [->|(e' & ? & ->)]%btree_push_back_keys; [|auto].
    simpl. unfold rate_lt. by rewrite rate_cmp_flip, E.
Qed.

(** [btree_remove] under the key of the id deletes exactly that id. *)
Lemma btree_remove_ids key id t :
  btree_ok t → rate_wf key → rate_eq key (kf id) →
  btree_ids (btree_remove key id t) = remove_first id (btree_ids t).
Proof.
  intros Hok Hkey Heq. induction t as [|[k ids] t IH]; [done|].
  pose proof (btree_later_lt k ids t) as Hlater.
  pose proof Hok as ((_ & Hk & Hids) & Ht & Hlt)%btree_ok_cons. simpl in Hk, Hids.
  rewrite btree_ids_cons. simpl.
  assert (id ∈ ids → rate_cmp key k = Eq) as Hin.
  { intros [? ?]%Hids. apply (rate_eq_trans _ (kf id)); auto with solver. }
  assert (id ∈ btree_ids t → rate_cmp key k = Gt) as Hlate.
  { intros [? ?]%(Hlater _ Hok). rewrite rate_cmp_flip.
    cut (rate_lt k key); [by intros ->|]. apply (rate_lt_le_trans _ (kf id)); auto with solver. }
  destruct (rate_cmp key k) eqn:E.
  - rewrite remove_first_app_not_r by naive_solver.
    by destruct (remove_first id ids).
  - rewrite remove_first_not_elem; [done|]. rewrite elem_of_app. naive_solver.
  - rewrite remove_first_app_r by naive_solver. by rewrite btree_ids_cons, IH.
Qed.

Lemma btree_remove_ok key id t :
  btree_ok t → (∀ e, e ∈ t → NoDup e.2) → btree_ok (btree_remove key id t).
Proof.
  intros Hok Hnd. induction t as [|[k ids] t IH]; [done|]. simpl.
  pose proof Hok as (He & Ht & Hlt)%btree_ok_cons. pose proof He as (Hne & Hk & Hids).
  destruct (rate_cmp key k) eqn:E; [|done|].
  - destruct (remove_first id ids) as [|i ids'] eqn:Hrem; [done|].
    apply btree_ok_cons. split_and!; try done. split_and!; try done. simpl. rewrite <-Hrem.
    intros x [Hx _]%elem_of_remove_first; [by apply Hids|]. apply (Hnd (k, ids)). set_solver.
  - apply btree_ok_cons. split_and!; try done.
    + apply IH; [done|]. intros e He'. apply Hnd. set_solver.
    + intros e (e' & ? & ->)%btree_remove_keys. auto.
Qed.

(** Removing an absent id changes nothing. *)
Lemma btree_remove_absent key id t :
  btree_ok t → id ∉ btree_ids t → btree_remove key id t = t.
Proof.
  induction t as [|[k ids] t IH]; [done|]. intros ((Hne & _) & Ht & _)%btree_ok_cons.
  rewrite btree_ids_cons, not_elem_of_app. intros [? ?]. simpl.
  destruct (rate_cmp key k); [|done|by rewrite IH].
  rewrite remove_first_not_elem by done. by destruct ids.
Qed.

(** An index is empty exactly when it holds no id. *)
Lemma btree_ids_nil t : btree_ok t → btree_ids t = [] ↔ t = [].
Proof.
  intros Hok. split; [|by intros ->]. destruct t as [|[k ids] t]; [done|].
  pose proof Hok as ((? & _) & _)%btree_ok_cons. rewrite btree_ids_cons.
  by intros [? ?]%app_nil.
Qed.

(** *** The best id *)

(** On an index without inactive ids the lazy pruning does nothing. *)
Lemma btree_best_all_active active t :
  btree_ok t → (∀ x, x ∈ btree_ids t → active x = true) →
  btree_best active t = (t, head (btree_ids t)).
Proof.
  destruct t as [|[k ids] t]; [done|]. intros ((Hne & _) & _)%btree_ok_cons Hact. simpl in *.
  rewrite drop_inactive_all.
  - by destruct ids.
  - intros x Hx. apply Hact. rewrite btree_ids_cons. set_solver.
Qed.

End spec.

(** The sort only looks at the rates of the ids it sorts. *)
Lemma rate_insert_ext kf kf' id l :
  (∀ x, x ∈ id :: l → kf x = kf' x) → rate_insert kf id l = rate_insert kf' id l.
Proof.
  induction l as [|x l IH]; intros Hk; simpl; [done|].
  rewrite (Hk id), (Hk x), IH by set_solver. done.
Qed.

Lemma rate_sort_ext kf kf' l :
  (∀ x, x ∈ l → kf x = kf' x) → rate_sort kf l = rate_sort kf' l.
Proof.
  induction l as [|x l IH] using rev_ind; intros Hk; [done|].
  rewrite !rate_sort_snoc, IH by set_solver. apply rate_insert_ext.
  intros y. rewrite elem_of_cons, elem_of_rate_sort. set_solver.
Qed.

Lemma btree_ok_ext kf kf' t :
  (∀ x, x ∈ btree_ids t → kf x = kf' x) → btree_ok kf t → btree_ok kf' t.
Proof.
  intros Hk [Hs Hf]. split; [done|]. rewrite Forall_forall in Hf |- *. intros e He.
  destruct (Hf e He) as (? & ? & Hx). split_and!; try done. intros x Hin.
  rewrite <-Hk; [by apply Hx|]. apply elem_of_btree_ids. by exists e.
Qed.
