(* ===== verification/PriceFeed.v ===== *)
(** * Price feeds (crates/solver/src/matching/price_feed.rs, crates/solver/src/price/price.rs)

    The [PriceFeed] trait is a class; the matching phases are written and proved against
    it.  [WatchPriceFeed], the snapshot of a watch channel, is the instance the matcher
    uses.  Prices are whole US cents in a [u64]; a missing price makes a token
    unmatchable and is never replaced by a default. *)

From S2P Require Import Prelude.

(** The required method of the trait. *)
Class PriceFeed (F : Type) := price_cents : F → TokenId → option Z.

(** The provided method: both tokens priced and at least as much USD value offered as
    requested. *)
Definition is_order_profitable {F} `{!PriceFeed F} (feed : F)
    (offered_token : TokenId) (offered_amount : Z)
    (requested_token : TokenId) (requested_amount : Z) : bool :=
  match price_cents feed offered_token, price_cents feed requested_token with
  | Some offered_price, Some requested_price =>
    requested_amount * requested_price <=? offered_amount * offered_price
  | _, _ => false
  end.

(** [WatchPriceFeed]: a snapshot of the latest published prices. *)
Record WatchPriceFeed := mk_watch_feed { wf_prices : gmap TokenId Z }.

#[export] Instance watch_price_cents : PriceFeed WatchPriceFeed :=
  λ feed token, wf_prices feed !! token.

Definition watch_feed_new : WatchPriceFeed := mk_watch_feed ∅.

(** [WatchPriceFeed::from_watch]: copy the value the channel holds. *)
Definition watch_feed_from (channel : gmap TokenId Z) : WatchPriceFeed := mk_watch_feed channel.
