(* ===== verification/OrderBook.v ===== *)
(** * The order book (crates/solver/src/matching/order_book.rs)

    The state of the matching engine as a record and one definition per method.  A
    [HashMap] is a [gmap], a [HashSet] a [gset], a [VecDeque] a list, the per-pair
    [BTreeMap] the index of RateIndex.v.  Counters and balances are kept at their
    widths: [+=] wraps, as in a build without overflow checks. *)

From S2P Require Import Prelude.
From S2P Require Import Orders.
From S2P Require Import RateIndex.
From S2P Require Import PriceFeed.

(** ** State *)

Section book.
Context {F : Type}.

Record OrderBook := mk_book {
  orders : gmap OrderId Order;
  pair_index : gmap Pair BTree;
  user_adjacency : gmap TokenId (gset TokenId);
  incoming_adjacency : gmap TokenId (gset TokenId);
  active_pair_count : gmap Pair Z;
  parked : gmap OrderId (DexId * Z);
  park_queue : list (Z * OrderId);
  protocol_balances : gmap TokenId Z;
  tokens : gset TokenId;
  feed : F;
}.

Definition book_new (f : F) : OrderBook := mk_book ∅ ∅ ∅ ∅ ∅ ∅ [] ∅ ∅ f.

(** Assignments to single fields. *)
Definition set_orders (b : OrderBook) m : OrderBook :=
  mk_book m (pair_index b) (user_adjacency b) (incoming_adjacency b) (active_pair_count b)
    (parked b) (park_queue b) (protocol_balances b) (tokens b) (feed b).
Definition set_index (b : OrderBook) i : OrderBook :=
  mk_book (orders b) i (user_adjacency b) (incoming_adjacency b) (active_pair_count b)
    (parked b) (park_queue b) (protocol_balances b) (tokens b) (feed b).
Definition set_adjacency (b : OrderBook) u n : OrderBook :=
  mk_book (orders b) (pair_index b) u n (active_pair_count b)
    (parked b) (park_queue b) (protocol_balances b) (tokens b) (feed b).
Definition set_counts (b : OrderBook) c : OrderBook :=
  mk_book (orders b) (pair_index b) (user_adjacency b) (incoming_adjacency b) c
    (parked b) (park_queue b) (protocol_balances b) (tokens b) (feed b).
Definition set_parked (b : OrderBook) p : OrderBook :=
  mk_book (orders b) (pair_index b) (user_adjacency b) (incoming_adjacency b)
    (active_pair_count b) p (park_queue b) (protocol_balances b) (tokens b) (feed b).
Definition set_queue (b : OrderBook) q : OrderBook :=
  mk_book (orders b) (pair_index b) (user_adjacency b) (incoming_adjacency b)
    (active_pair_count b) (parked b) q (protocol_balances b) (tokens b) (feed b).
Definition set_balances (b : OrderBook) m : OrderBook :=
  mk_book (orders b) (pair_index b) (user_adjacency b) (incoming_adjacency b)
    (active_pair_count b) (parked b) (park_queue b) m (tokens b) (feed b).
Definition set_tokens (b : OrderBook) s : OrderBook :=
  mk_book (orders b) (pair_index b) (user_adjacency b) (incoming_adjacency b)
    (active_pair_count b) (parked b) (park_queue b) (protocol_balances b) s (feed b).
Definition set_feed (b : OrderBook) (f : F) : OrderBook :=
  mk_book (orders b) (pair_index b) (user_adjacency b) (incoming_adjacency b)
    (active_pair_count b) (parked b) (park_queue b) (protocol_balances b) (tokens b) f.

(** ** The index *)

(** [map.entry(a).or_default().insert(c)] *)
Definition adj_insert (a c : TokenId) (m : gmap TokenId (gset TokenId)) :=
  <[a := {[c]} ∪ default ∅ (m !! a)]> m.

(** [if let Some(s) = map.get_mut(&a) { s.remove(&c); if s.is_empty() { map.remove(&a) } }] *)
Definition adj_remove (a c : TokenId) (m : gmap TokenId (gset TokenId)) :=
  match m !! a with
  | None => m
  | Some s =>
    let s' := s ∖ {[c]} in
    if decide (s' = ∅) then delete a m else <[a := s']> m
  end.

(** [index_insert]: rate index, active counter, both adjacency maps. *)
Definition index_insert (b : OrderBook) (id : OrderId) (ot rt : TokenId) (key : RateKey) : OrderBook :=
  let b := set_index b
    (<[(ot, rt) := btree_push_back key id (default [] (pair_index b !! (ot, rt)))]> (pair_index b)) in
  let b := set_counts b
    (<[(ot, rt) := wrap32 (default 0 (active_pair_count b !! (ot, rt)) + 1)]> (active_pair_count b)) in
  set_adjacency b (adj_insert ot rt (user_adjacency b)) (adj_insert rt ot (incoming_adjacency b)).

(** [if let Some(count) = active_pair_count.get_mut(&pair) { *count = count.saturating_sub(1) }] *)
Definition count_dec (b : OrderBook) (p : Pair) : OrderBook :=
  set_counts b (alter (λ c, c ∸ 1) p (active_pair_count b)).

(** [remove_from_index]: an emptied pair leaves the index and the adjacency maps. *)
Definition remove_from_index (b : OrderBook) (p : Pair) (key : RateKey) (id : OrderId) : OrderBook :=
  match pair_index b !! p with
  | None => b
  | Some t =>
    match btree_remove key id t with
    | [] =>
      let b := set_index b (delete p (pair_index b)) in
      set_adjacency b (adj_remove p.1 p.2 (user_adjacency b)) (adj_remove p.2 p.1 (incoming_adjacency b))
    | t' => set_index b (<[p := t']> (pair_index b))
    end
  end.

(** ** Orders *)

Definition add_user_order (b : OrderBook) (note_id : OrderId) (offered_token requested_token : TokenId)
    (offered requested : Z) : OrderBook :=
  if bool_decide (is_Some (orders b !! note_id)) && negb (bool_decide (is_Some (parked b !! note_id)))
  then b
  else
    let b := set_parked b (delete note_id (parked b)) in
    let order := mk_order note_id offered_token requested_token offered requested requested in
    let b := set_orders b (<[note_id := order]> (orders b)) in
    let b := index_insert b note_id offered_token requested_token (rate_key order) in
    set_tokens b ({[requested_token]} ∪ ({[offered_token]} ∪ tokens b)).

Definition cleanup_if_filled (b : OrderBook) (order_id : OrderId) : OrderBook :=
  match orders b !! order_id with
  | None => b
  | Some order =>
    if negb (is_completely_filled order) then b
    else remove_from_index (count_dec b (pair_of order)) (pair_of order) (rate_key order) order_id
  end.

Definition remove_order (b : OrderBook) (order_id : OrderId) : OrderBook :=
  match orders b !! order_id with
  | None => b
  | Some order =>
    let b := set_orders b (delete order_id (orders b)) in
    match parked b !! order_id with
    | Some _ => set_parked b (delete order_id (parked b))
    | None =>
      let b := if is_active order then count_dec b (pair_of order) else b in
      remove_from_index b (pair_of order) (rate_key order) order_id
    end
  end.

(** ** Park / unpark *)

Definition park (b : OrderBook) (id : OrderId) (dex : DexId) (time : Z) : OrderBook :=
  if bool_decide (is_Some (parked b !! id)) then b
  else match orders b !! id with
  | None => b
  | Some order =>
    if negb (is_active order) then b
    else
      let b := remove_from_index (count_dec b (pair_of order)) (pair_of order) (rate_key order) id in
      let b := set_parked b (<[id := (dex, time)]> (parked b)) in
      set_queue b (park_queue b ++ [(time, id)])
  end.

(** [reindex] puts the existing struct back at the end of its rate's FIFO. *)
Definition reindex (b : OrderBook) (id : OrderId) : OrderBook :=
  match orders b !! id with
  | None => b
  | Some order =>
    if negb (is_active order) then b
    else index_insert b id (offered_token order) (requested_token order) (rate_key order)
  end.

Definition unpark (b : OrderBook) (id : OrderId) : OrderBook * option DexId :=
  match parked b !! id with
  | None => (b, None)
  | Some (dex, _) => (reindex (set_parked b (delete id (parked b))) id, Some dex)
  end.

(** The loop of [reactivate_parked_older_than]: pop the expired prefix of the queue. *)
Fixpoint reactivate_loop (queue : list (Z * OrderId)) (ttl time : Z) (b : OrderBook)
    : OrderBook * list (OrderId * DexId) :=
  match queue with
  | [] => (set_queue b [], [])
  | (parked_at, id) :: rest =>
    if time <? sat_add64 parked_at ttl then (set_queue b queue, [])
    else
      let '(b, unparked) := unpark (set_queue b rest) id in
      let '(b, out) := reactivate_loop rest ttl time b in
      (b, match unparked with Some dex => (id, dex) :: out | None => out end)
  end.

Definition reactivate_parked_older_than (b : OrderBook) (ttl time : Z)
    : OrderBook * list (OrderId * DexId) :=
  reactivate_loop (park_queue b) ttl time b.

Definition parked_count (b : OrderBook) : nat := size (parked b).

Definition is_parked (b : OrderBook) (id : OrderId) : bool := bool_decide (is_Some (parked b !! id)).

(** ** Queries *)

(** [orders.get(id).map_or(false, |o| o.is_active())] *)
Definition id_active (m : gmap OrderId Order) (id : OrderId) : bool :=
  match m !! id with Some o => is_active o | None => false end.

(** [best_order] prunes inactive ids as it goes, so it returns the book too. *)
Definition best_order (b : OrderBook) (offered requested : TokenId) : OrderBook * option Order :=
  match pair_index b !! (offered, requested) with
  | None => (b, None)
  | Some t =>
    let '(t', best) := btree_best (id_active (orders b)) t in
    (set_index b (<[(offered, requested) := t']> (pair_index b)),
     match best with Some id => orders b !! id | None => None end)
  end.

Definition notes_for_pair (b : OrderBook) (offered requested : TokenId) : list Order :=
  match pair_index b !! (offered, requested) with
  | None => []
  | Some t => filter (λ o, is_active o = true) (omap (λ id, orders b !! id) (btree_ids t))
  end.

Definition has_orders (b : OrderBook) (offered requested : TokenId) : bool :=
  match active_pair_count b !! (offered, requested) with
  | Some c => 0 <? c
  | None => false
  end.

(** One level of [best_level]: whether an id is active, and the summed volume. *)
Definition level_volume (m : gmap OrderId Order) (ids : list OrderId) : bool * Z :=
  foldl (λ acc id,
    match m !! id with
    | Some o => if is_active o then (true, sat_add64 acc.2 (offered_remaining o)) else acc
    | None => acc
    end) (false, 0) ids.

Fixpoint best_level_in (m : gmap OrderId Order) (t : BTree) : option (RateKey * Z) :=
  match t with
  | [] => None
  | (key, ids) :: r =>
    let '(any, volume) := level_volume m ids in
    if any : bool then Some (key, volume) else best_level_in m r
  end.

Definition best_level (b : OrderBook) (offered requested : TokenId) : option (RateKey * Z) :=
  match pair_index b !! (offered, requested) with
  | None => None
  | Some t => best_level_in (orders b) t
  end.

(** Top of book of every directed pair. *)
Definition snapshot_best_levels (b : OrderBook) : gmap Pair BestLevel :=
  map_imap (λ p _, match best_level b p.1 p.2 with
                   | Some (rate, volume) => Some (mk_best_level rate volume)
                   | None => None
                   end) (pair_index b).

Definition neighbors `{HashIter} (n : N) (b : OrderBook) (offered : TokenId) : list TokenId :=
  hash_iter n (default ∅ (user_adjacency b !! offered)).

Definition incoming_neighbors `{HashIter} (n : N) (b : OrderBook) (requested : TokenId) : list TokenId :=
  hash_iter n (default ∅ (incoming_adjacency b !! requested)).

Definition active_order_count (b : OrderBook) : Z := wrap32 (msum id (active_pair_count b)).

(** ** Balances and matching *)

Definition add_protocol_balance (b : OrderBook) (token : TokenId) (amount : Z) : OrderBook :=
  if amount =? 0 then b
  else
    let b := set_balances b
      (<[token := wrap64 (default 0 (protocol_balances b !! token) + amount)]> (protocol_balances b)) in
    set_tokens b ({[token]} ∪ tokens b).

Definition deduct_protocol_balance (b : OrderBook) (token : TokenId) (amount : Z) : OrderBook :=
  set_balances b (alter (λ bal, bal ∸ amount) token (protocol_balances b)).

(** [apply_match] works on clones and writes them back only when the match succeeds. *)
Definition apply_match (b : OrderBook) (a_id b_id : OrderId) : OrderBook * option MatchResult :=
  if decide (a_id = b_id) then (b, None)
  else match orders b !! a_id, orders b !! b_id with
  | Some order_a, Some order_b =>
    match match_with order_a order_b with
    | (Some result, order_a', order_b') =>
      let b := set_orders b (<[b_id := order_b']> (<[a_id := order_a']> (orders b))) in
      let b := add_protocol_balance b (offered_token order_a') (surplus_offered result) in
      let b := add_protocol_balance b (offered_token order_b') (surplus_requested result) in
      (cleanup_if_filled (cleanup_if_filled b a_id) b_id, Some result)
    | (None, _, _) => (b, None)
    end
  | _, _ => (b, None)
  end.
End book.

Arguments OrderBook : clear implicits.
