(* ===== verification/IndexInvariant.v ===== *)
(** * The index of the book implements price-time priority

    [index_ok] relates the rate index, the counters and the adjacency maps of the book to
    an abstract view: the list of the visible ids in the order in which they (re)joined
    the book.  Insertion appends to that list, removal deletes from it; every pair's
    index is then the stable sort by rate of the pair's part of it. *)

From S2P Require Import Prelude.
From S2P Require Import Orders.
From S2P Require Import RateIndex.
From S2P Require Import PriceFeed.
From S2P Require Import OrderBook.

(** ** The abstract view *)

(** The rate of an id (of a placeholder when the id is unknown). *)
Definition rate_of (m : gmap OrderId Order) (id : OrderId) : RateKey :=
  match m !! id with Some o => rate_key o | None => mk_rate_key 1 1 end.

(** The ids of one pair, in arrival order. *)
Definition in_pair (m : gmap OrderId Order) (p : Pair) (id : OrderId) : Prop :=
  pair_of <$> (m !! id) = Some p.
#[export] Instance in_pair_dec m p id : Decision (in_pair m p id).
Proof. unfold in_pair. apply _. Defined.
Definition pair_ids (m : gmap OrderId Order) (p : Pair) (l : list OrderId) : list OrderId :=
  filter (in_pair m p) l.

(** The index of one pair: absent when the pair has no visible id, otherwise a nonempty
    well-formed tree that lists the pair's ids by price and time. *)
Definition pair_ok (m : gmap OrderId Order) (l : list OrderId) (p : Pair) (t : option BTree) : Prop :=
  match t with
  | None => pair_ids m p l = []
  | Some t => t ≠ [] ∧ btree_ok (rate_of m) t ∧ btree_ids t = rate_sort (rate_of m) (pair_ids m p l)
  end.

Definition adj_ok (index : gmap Pair BTree) (out inc : gmap TokenId (gset TokenId)) : Prop :=
  (∀ a c, c ∈ default ∅ (out !! a) ↔ is_Some (index !! (a, c))) ∧
  (∀ a c, a ∈ default ∅ (inc !! c) ↔ is_Some (index !! (a, c))).

Record index_ok (m : gmap OrderId Order) (index : gmap Pair BTree) (counts : gmap Pair Z)
    (out inc : gmap TokenId (gset TokenId)) (l : list OrderId) : Prop := {
  ix_nodup : NoDup l;
  ix_orders : ∀ id, id ∈ l → ∃ o, m !! id = Some o ∧ order_wf o;
  ix_pair : ∀ p, pair_ok m l p (index !! p);
  ix_count : ∀ p, default 0 (counts !! p) = Z.of_nat (length (pair_ids m p l));
  ix_adj : adj_ok index out inc;
  ix_len : Z.of_nat (length l) < two32;
}.

Definition book_index {F} (m : gmap OrderId Order) (b : OrderBook F) (l : list OrderId) : Prop :=
  index_ok m (pair_index b) (active_pair_count b) (user_adjacency b) (incoming_adjacency b) l.

(** ** Lemmas on the view *)

Lemma pair_ids_snoc m p l id :
  pair_ids m p (l ++ [id]) =
  pair_ids m p l ++ (if decide (in_pair m p id) then [id] else []).
Proof. unfold pair_ids. by rewrite filter_app, filter_cons, filter_nil. Qed.

Lemma elem_of_pair_ids m p l id : id ∈ pair_ids m p l ↔ in_pair m p id ∧ id ∈ l.
Proof. apply list_elem_of_filter. Qed.

Lemma NoDup_pair_ids m p l : NoDup l → NoDup (pair_ids m p l).
Proof. apply NoDup_filter. Qed.

Lemma pair_ids_remove m p l id :
  pair_ids m p (remove_first id l) =
  if decide (in_pair m p id) then remove_first id (pair_ids m p l) else pair_ids m p l.
Proof.
  unfold pair_ids. induction l as [|x l IH]; simpl; [by case_decide|].
  destruct (decide (x = id)) as [->|Hx]; rewrite !filter_cons.
  - case_decide; [|done]. simpl. by rewrite decide_True.
  - rewrite IH. repeat case_decide; try done. simpl. by rewrite decide_False.
Qed.

Lemma in_pair_lookup m id o p : m !! id = Some o → in_pair m p id ↔ p = pair_of o.
Proof. intros H. unfold in_pair. rewrite H. simpl. naive_solver. Qed.

Lemma rate_of_lookup m id o : m !! id = Some o → rate_of m id = rate_key o.
Proof. intros H. unfold rate_of. by rewrite H. Qed.

Lemma length_pair_ids m p l : (length (pair_ids m p l) <= length l)%nat.
Proof. apply length_filter. Qed.

Lemma pair_ids_rates_wf m p l :
  (∀ id, id ∈ l → ∃ o, m !! id = Some o ∧ order_wf o) → rates_wf (rate_of m) (pair_ids m p l).
Proof.
  intros H id [_ Hid]%elem_of_pair_ids. destruct (H id Hid) as (o & Ho & Hwf).
  rewrite (rate_of_lookup m id o Ho). auto with solver.
Qed.

(** ** Adjacency *)

Lemma adj_insert_spec a c m a' c' :
  c' ∈ default ∅ (adj_insert a c m !! a') ↔ (a' = a ∧ c' = c) ∨ c' ∈ default ∅ (m !! a').
Proof.
  unfold adj_insert. destruct (decide (a' = a)) as [->|].
  - rewrite lookup_insert_eq. simpl. set_solver.
  - rewrite lookup_insert_ne by done. naive_solver.
Qed.

Lemma adj_remove_spec a c m a' c' :
  c' ∈ default ∅ (adj_remove a c m !! a') ↔ c' ∈ default ∅ (m !! a') ∧ ¬ (a' = a ∧ c' = c).
Proof.
  unfold adj_remove. destruct (m !! a) as [s|] eqn:Hs; simpl.
  - destruct (decide (a' = a)) as [->|]; case_decide.
    + rewrite lookup_delete_eq, Hs. simpl. set_solver.
    + rewrite lookup_insert_eq, Hs. simpl. set_solver.
    + rewrite lookup_delete_ne by done. naive_solver.
    + rewrite lookup_insert_ne by done. naive_solver.
  - split; [|naive_solver]. intros Hin. split; [done|]. intros [-> ->]. by rewrite Hs in Hin.
Qed.

Lemma adj_ok_insert index out inc a c t :
  adj_ok index out inc →
  adj_ok (<[(a, c) := t]> index) (adj_insert a c out) (adj_insert c a inc).
Proof.
  intros [Ho Hi]. split; intros a' c'; rewrite adj_insert_spec, ?Ho, ?Hi, lookup_insert_is_Some'.
  - split; [intros [[-> ->]|?]; auto | intros [[= -> ->]|?]; auto].
  - split; [intros [[-> ->]|?]; auto | intros [[= -> ->]|?]; auto].
Qed.

Lemma adj_ok_delete index out inc p :
  adj_ok index out inc →
  adj_ok (delete p index) (adj_remove p.1 p.2 out) (adj_remove p.2 p.1 inc).
Proof.
  destruct p as [a c]. intros [Ho Hi]. simpl.
  split; intros a' c'; rewrite adj_remove_spec, ?Ho, ?Hi, lookup_delete_is_Some; split.
  - intros [? Hne]. split; [|done]. intros [= <- <-]. by apply Hne.
  - intros [Hne ?]. split; [done|]. intros [-> ->]. by apply Hne.
  - intros [? Hne]. split; [|done]. intros [= <- <-]. by apply Hne.
  - intros [Hne ?]. split; [done|]. intros [-> ->]. by apply Hne.
Qed.

Lemma adj_ok_update index out inc p t :
  is_Some (index !! p) → adj_ok index out inc → adj_ok (<[p := t]> index) out inc.
Proof.
  intros Hp [Ho Hi]. split; intros a c; rewrite ?Ho, ?Hi, lookup_insert_is_Some';
    (split; [auto|]; intros [<-|?]; auto).
Qed.

(** ** One pair *)

(** A change elsewhere leaves a pair alone. *)
Lemma pair_ok_snoc_other m l p t id :
  ¬ in_pair m p id → pair_ok m l p t → pair_ok m (l ++ [id]) p t.
Proof. intros Hp. unfold pair_ok. by rewrite pair_ids_snoc, decide_False, app_nil_r. Qed.

Lemma pair_ok_remove_other m l p t id :
  ¬ in_pair m p id → pair_ok m l p t → pair_ok m (remove_first id l) p t.
Proof. intros Hp. unfold pair_ok. by rewrite pair_ids_remove, decide_False. Qed.

Lemma pair_ok_push m l o t id :
  pair_ok m l (pair_of o) t → m !! id = Some o → order_wf o →
  pair_ok m (l ++ [id]) (pair_of o) (Some (btree_push_back (rate_key o) id (default [] t))).
Proof.
  intros Hp Ho Hwf. unfold pair_ok.
  rewrite pair_ids_snoc, decide_True, rate_sort_snoc by (by eapply in_pair_lookup).
  assert (btree_ok (rate_of m) (default [] t) ∧
    btree_ids (default [] t) = rate_sort (rate_of m) (pair_ids m (pair_of o) l)) as [Hok <-].
  { destruct t as [t|]; simpl in *; [by destruct Hp as (_ & ? & ?)|].
    rewrite Hp. split; [split; constructor|done]. }
  assert (rate_wf (rate_key o)) by auto with solver.
  assert (rate_wf (rate_of m id)) by (by rewrite (rate_of_lookup m id o)).
  assert (rate_eq (rate_key o) (rate_of m id))
    by (rewrite (rate_of_lookup m id o Ho); apply rate_eq_iff; lia).
  split_and!; [|by apply btree_push_back_ok|by apply btree_push_back_ids].
  destruct (default [] t) as [|[k ids] r]; simpl; [done|]. by destruct (rate_cmp _ _).
Qed.

(** Removal leaves the pair's index well formed; an empty tree means no id is left. *)
Lemma pair_ok_remove m l o t id :
  NoDup l → (∀ i, i ∈ l → ∃ o, m !! i = Some o ∧ order_wf o) →
  pair_ok m l (pair_of o) (Some t) → m !! id = Some o → order_wf o →
  pair_ok m (remove_first id l) (pair_of o)
    (match btree_remove (rate_key o) id t with [] => None | t' => Some t' end).
Proof.
  intros Hnd Hord (Hne & Hok & Hids) Ho Hwf.
  assert (btree_ids (btree_remove (rate_key o) id t) =
    rate_sort (rate_of m) (pair_ids m (pair_of o) (remove_first id l))) as Heq.
  { rewrite pair_ids_remove, decide_True by (by eapply in_pair_lookup).
    rewrite rate_sort_remove, <-Hids by auto using pair_ids_rates_wf, NoDup_pair_ids.
    apply (btree_remove_ids (rate_of m)); [done|auto with solver|].
    rewrite (rate_of_lookup m id o Ho). apply rate_eq_iff. lia. }
  assert (btree_ok (rate_of m) (btree_remove (rate_key o) id t)) as Hok'.
  { apply btree_remove_ok; [done|]. intros e. apply btree_NoDup_entry. rewrite Hids.
    by apply NoDup_rate_sort, NoDup_pair_ids. }
  destruct (btree_remove (rate_key o) id t) as [|e r] eqn:Hr; simpl; [|done].
  apply Permutation_nil, Permutation_sym. rewrite <-(rate_sort_perm (rate_of m)). by rewrite <-Heq.
Qed.

(** ** The operations on the index *)

Section index.
Context {F : Type}.
Implicit Types b : OrderBook F.

Lemma index_insert_ok m b l id o :
  book_index m b l → id ∉ l → m !! id = Some o → order_wf o → Z.of_nat (S (length l)) < two32 →
  book_index m (index_insert b id (offered_token o) (requested_token o) (rate_key o)) (l ++ [id]).
Proof.
  intros [Hnd Hord Hpair Hcnt Hadj Hlen] Hid Ho Hwf Hsz. split; simpl.
  - apply NoDup_app. split_and!; [done | set_solver | apply NoDup_singleton].
  - intros x [Hx| ->%list_elem_of_singleton]%elem_of_app; eauto.
  - intros p. change (offered_token o, requested_token o) with (pair_of o).
    destruct (decide (pair_of o = p)) as [<-|Hne].
    + rewrite lookup_insert_eq. by apply pair_ok_push.
    + rewrite lookup_insert_ne by done. apply pair_ok_snoc_other; [|done].
      rewrite (in_pair_lookup m id o) by done. congruence.
  - intros p. change (offered_token o, requested_token o) with (pair_of o).
    rewrite pair_ids_snoc, length_app.
    destruct (decide (pair_of o = p)) as [<-|Hne].
    + rewrite lookup_insert_eq, decide_True by (by eapply in_pair_lookup). simpl.
      pose proof (length_pair_ids m (pair_of o) l). rewrite Hcnt, wrap32_small; lia.
    + rewrite lookup_insert_ne, decide_False, Hcnt; [simpl; lia| |done].
      rewrite (in_pair_lookup m id o) by done. congruence.
  - by apply adj_ok_insert.
  - rewrite length_app. simpl. lia.
Qed.

Lemma index_remove_ok m b l id o :
  book_index m b l → id ∈ l → m !! id = Some o →
  book_index m (remove_from_index (count_dec b (pair_of o)) (pair_of o) (rate_key o) id)
    (remove_first id l).
Proof.
  intros [Hnd Hord Hpair Hcnt Hadj Hlen] Hid Ho.
  destruct (Hord id Hid) as (o' & Ho' & Hwf). assert (o' = o) as -> by congruence.
  pose proof (length_remove_first id l Hid) as Hl.
  assert (id ∈ pair_ids m (pair_of o) l) as Hin
    by (apply elem_of_pair_ids; split; [by eapply in_pair_lookup | done]).
  pose proof (length_remove_first id _ Hin) as Hl'.
  assert (∀ p, default 0 (alter (λ c, c ∸ 1) (pair_of o) (active_pair_count b) !! p) =
    Z.of_nat (length (pair_ids m p (remove_first id l)))) as Hcnt'.
  { intros p. rewrite pair_ids_remove. specialize (Hcnt p). rewrite lookup_alter.
    case_decide as Hp.
    - rewrite (decide_True (P := in_pair m p id)) by (subst; by eapply in_pair_lookup). subst p.
      destruct (active_pair_count b !! pair_of o) as [c|]; simpl in *; unfold sat_sub; lia.
    - rewrite (decide_False (P := in_pair m p id)); [done|].
      rewrite (in_pair_lookup m id o) by done. congruence. }
  assert (∀ i, i ∈ remove_first id l → ∃ o, m !! i = Some o ∧ order_wf o) as Hord'
    by (intros i [? _]%elem_of_remove_first; auto).
  pose proof (Hpair (pair_of o)) as Hpo. unfold remove_from_index. simpl.
  destruct (pair_index b !! pair_of o) as [t|] eqn:Ht;
    [|simpl in Hpo; rewrite Hpo in Hin; set_solver].
  pose proof (pair_ok_remove m l o t id Hnd Hord Hpo Ho Hwf) as Hrem.
  assert (∀ p, pair_of o ≠ p → pair_ok m (remove_first id l) p (pair_index b !! p)) as Hoth.
  { intros p Hne. apply pair_ok_remove_other; [|done].
    rewrite (in_pair_lookup m id o) by done. congruence. }
  destruct (btree_remove (rate_key o) id t) as [|e r] eqn:Hr; split; simpl;
    auto using NoDup_remove_first; try lia.
  - intros p. destruct (decide (pair_of o = p)) as [<-|];
      [by rewrite lookup_delete_eq | rewrite lookup_delete_ne by done; auto].
  - by apply (adj_ok_delete _ _ _ (pair_of o)).
  - intros p. destruct (decide (pair_of o = p)) as [<-|];
      [by rewrite lookup_insert_eq | rewrite lookup_insert_ne by done; auto].
  - apply adj_ok_update; [by rewrite Ht | done].
Qed.

(** The view only depends on the pair and the rate of the visible orders. *)
Lemma book_index_ext m m' b l :
  (∀ id o, id ∈ l → m !! id = Some o →
     ∃ o', m' !! id = Some o' ∧ pair_of o' = pair_of o ∧ rate_key o' = rate_key o ∧ order_wf o') →
  book_index m b l → book_index m' b l.
Proof.
  intros Hext [Hnd Hord Hpair Hcnt Hadj Hlen].
  assert (∀ p, pair_ids m' p l = pair_ids m p l) as Hids.
  { intros p. apply filter_ext_in. intros id Hid.
    destruct (Hord id Hid) as (o & Ho & _), (Hext id o Hid Ho) as (o' & Ho' & Hp & _).
    unfold in_pair. rewrite Ho, Ho'. simpl. by rewrite Hp. }
  assert (∀ id, id ∈ l → rate_of m id = rate_of m' id) as Hrate.
  { intros id Hid. destruct (Hord id Hid) as (o & Ho & _), (Hext id o Hid Ho) as (o' & Ho' & _ & Hk & _).
    by rewrite (rate_of_lookup m id o), (rate_of_lookup m' id o'). }
  split; auto.
  - intros id Hid. destruct (Hord id Hid) as (o & Ho & _), (Hext id o Hid Ho) as (o' & ? & _ & _ & ?). eauto.
  - intros p. specialize (Hpair p). unfold pair_ok in *. rewrite Hids.
    assert (rate_sort (rate_of m) (pair_ids m p l) = rate_sort (rate_of m') (pair_ids m p l)) as Hs.
    { apply rate_sort_ext. intros x [_ ?]%elem_of_pair_ids. auto. }
    destruct (pair_index b !! p) as [t|]; [|done]. destruct Hpair as (? & Hok & Heq).
    rewrite <-Hs, <-Heq. split_and!; try done. eapply btree_ok_ext; [|done].
    intros x. rewrite Heq, elem_of_rate_sort, elem_of_pair_ids. intros [_ ?]. auto.
  - intros p. by rewrite Hids.
Qed.
End index.
