(* ===== verification/BookInvariant.v ===== *)
(** * The invariant of the order book

    [dirty_inv b l d] ties the whole state of a book to the list [l] of its visible ids:
    the ids of active orders that are not parked, and those of the set [d] whose fill has
    not been cleaned up yet.  [book_inv b l] is the invariant between operations ([d]
    empty).  Each operation of the book preserves it, with the list it leaves. *)

From S2P Require Import Prelude.
From S2P Require Import Orders.
From S2P Require Import RateIndex.
From S2P Require Import PriceFeed.
From S2P Require Import OrderBook.
From S2P Require Import IndexInvariant.

Section invariant.
Context {F : Type}.
Implicit Types b : OrderBook F.

Record dirty_inv b (l : list OrderId) (d : gset OrderId) : Prop := {
  bi_index : book_index (orders b) b l;
  bi_orders : ∀ id o, orders b !! id = Some o → oid o = id ∧ order_wf o;
  bi_live : ∀ id, id ∈ l ↔
    ∃ o, orders b !! id = Some o ∧ parked b !! id = None ∧ (is_active o = true ∨ id ∈ d);
  bi_parked : ∀ id dex t, parked b !! id = Some (dex, t) →
    id_active (orders b) id = true ∧ (t, id) ∈ park_queue b;
  bi_tokens : ∀ id o, orders b !! id = Some o →
    offered_token o ∈ tokens b ∧ requested_token o ∈ tokens b;
  bi_balances : ∀ t v, protocol_balances b !! t = Some v → is_u64 v;
  bi_size : Z.of_nat (size (orders b)) < two32;
}.

Definition book_inv b (l : list OrderId) : Prop := dirty_inv b l ∅.

(** The visible ids whose orders are still active: what a matching step leaves of the
    list, in the same order. *)
Definition still_active b (l : list OrderId) : list OrderId :=
  filter (λ id, id_active (orders b) id = true) l.

(** ** Reading the invariant *)

Lemma inv_live_order b l d id :
  dirty_inv b l d → id ∈ l → ∃ o, orders b !! id = Some o ∧ order_wf o ∧ oid o = id.
Proof.
  intros Hb Hid. apply (bi_live _ _ _ Hb) in Hid as (o & Ho & _).
  exists o. by destruct (bi_orders _ _ _ Hb id o Ho).
Qed.

Lemma inv_live_iff b l id :
  book_inv b l → id ∈ l ↔ ∃ o, orders b !! id = Some o ∧ parked b !! id = None ∧ is_active o = true.
Proof. intros Hb. rewrite (bi_live _ _ _ Hb). set_solver. Qed.

Lemma id_active_iff (m : gmap OrderId Order) id :
  id_active m id = true ↔ ∃ o, m !! id = Some o ∧ is_active o = true.
Proof. unfold id_active. destruct (m !! id); naive_solver. Qed.

Lemma book_new_inv (f : F) : book_inv (book_new f) [].
Proof.
  split; simpl; try (intros *; rewrite ?lookup_empty; done).
  - split; simpl; try (intros *; rewrite ?lookup_empty; done).
    + constructor.
    + set_solver.
    + split; intros a c; rewrite !lookup_empty; simpl; split; [set_solver|intros [? [=]]|set_solver|intros [? [=]]].
  - intros id. rewrite lookup_empty. set_solver.
Qed.

(** ** Index removal *)

(** Taking an id that is not visible out of the index changes nothing. *)
Lemma remove_from_index_absent m b l p key id :
  book_index m b l → id ∉ l → remove_from_index b p key id = b.
Proof.
  intros Hi Hid. unfold remove_from_index.
  destruct (pair_index b !! p) as [t|] eqn:Ht; [|done].
  pose proof (ix_pair _ _ _ _ _ _ Hi p) as Hp. rewrite Ht in Hp. destruct Hp as (Hne & Hok & Hids).
  rewrite (btree_remove_absent (rate_of m)); [|done|].
  - destruct t as [|e r]; [done|]. unfold set_index. rewrite insert_id by done. by destruct b.
  - rewrite Hids, elem_of_rate_sort, elem_of_pair_ids. tauto.
Qed.

(** Index operations leave the other fields alone. *)
Lemma remove_from_index_fields b p key id :
  let b' := remove_from_index b p key id in
  orders b' = orders b ∧ parked b' = parked b ∧ park_queue b' = park_queue b ∧
  protocol_balances b' = protocol_balances b ∧ tokens b' = tokens b ∧ feed b' = feed b.
Proof.
  unfold remove_from_index. destruct (pair_index b !! p); [|done].
  by destruct (btree_remove key id _).
Qed.

(** [dirty_inv] from its parts, for a book whose index changed. *)
Lemma dirty_inv_reindex b b' l l' d d' :
  dirty_inv b l d → book_index (orders b) b' l' →
  orders b' = orders b → parked b' = parked b → park_queue b' = park_queue b →
  protocol_balances b' = protocol_balances b → tokens b' = tokens b →
  (∀ id, id ∈ l' ↔
    ∃ o, orders b !! id = Some o ∧ parked b !! id = None ∧ (is_active o = true ∨ id ∈ d')) →
  dirty_inv b' l' d'.
Proof.
  intros [? ? ? ? ? ? ?] Hi Ho Hp Hq Hb Ht Hl. split; rewrite ?Ho, ?Hp, ?Hq, ?Hb, ?Ht; done.
Qed.

(** ** Filling and cleaning up *)

(** Writing a new remaining amount makes the id dirty. *)
Lemma fill_dirty b l d id o r :
  dirty_inv b l d → id ∈ l → orders b !! id = Some o → 0 <= r <= requested o →
  dirty_inv (set_orders b (<[id := set_remaining o r]> (orders b))) l ({[id]} ∪ d).
Proof.
  intros Hb Hid Ho Hr. pose proof Hb as [Hi Hords Hlive Hpark Htok Hbal Hsz].
  destruct (Hords id o Ho) as [Hoid Hwf]. pose proof (set_remaining_wf o r Hwf Hr) as Hwf'.
  apply Hlive in Hid as Hid'. destruct Hid' as (o' & Ho' & Hnp & _). clear o' Ho'.
  split; simpl.
  - apply (book_index_ext (orders b)); [|done]. intros id' o' Hid' Ho'.
    destruct (decide (id = id')) as [<-|].
    + simplify_eq. exists (set_remaining o r). by rewrite lookup_insert_eq.
    + exists o'. rewrite lookup_insert_ne by done. split_and!; try done. by apply (Hords id').
  - intros id' o' [[<- <-]|[? ?]]%lookup_insert_Some; [done|auto].
  - intros id'. destruct (decide (id = id')) as [<-|Hne].
    + split; [|done]. intros _. eexists. rewrite lookup_insert_eq. split_and!; try done. set_solver.
    + rewrite Hlive. split; intros (o' & Ho' & ? & ?); exists o';
        rewrite ?lookup_insert_ne in * by done; set_solver.
  - intros id' dex t Hp. destruct (Hpark id' dex t Hp) as [Hact ?]. split; [|done].
    unfold id_active. rewrite lookup_insert_ne; [done|]. congruence.
  - intros id' o' [[<- <-]|[? ?]]%lookup_insert_Some; [exact (Htok id o Ho)|eauto].
  - done.
  - rewrite map_size_insert_Some by (by eexists). done.
Qed.

(** [cleanup_if_filled] takes a dirty id that is filled out of the index. *)
Lemma cleanup_dirty b l d id :
  dirty_inv b l ({[id]} ∪ d) → id ∈ l → id ∉ d →
  dirty_inv (cleanup_if_filled b id)
    (if id_active (orders b) id then l else remove_first id l) d.
Proof.
  intros Hb Hid Hd. pose proof Hb as [Hi Hords Hlive Hpark Htok Hbal Hsz].
  destruct (inv_live_order b l _ id Hb Hid) as (o & Ho & Hwf & _).
  unfold cleanup_if_filled, id_active. rewrite Ho, <-is_active_spec by done.
  destruct (is_active o) eqn:Hact.
  - apply (dirty_inv_reindex b b l l ({[id]} ∪ d)); try done. intros id'. rewrite Hlive.
    split; intros (o' & Ho' & Hp & Ha); exists o'; split_and!; try done; [|set_solver].
    destruct Ha as [|[->%elem_of_singleton|]%elem_of_union]; [by left| |by right].
    left. congruence.
  - destruct (remove_from_index_fields (count_dec b (pair_of o)) (pair_of o) (rate_key o) id)
      as (E1 & E2 & E3 & E4 & E5 & _). simpl in *.
    apply (dirty_inv_reindex b _ l _ ({[id]} ∪ d)); try done; [by apply index_remove_ok|].
    intros id'. rewrite elem_of_remove_first by apply Hi. rewrite Hlive.
    split.
    + intros [(o' & Ho' & Hp & Ha) Hne]. exists o'. split_and!; try done.
      destruct Ha as [|[?%elem_of_singleton|]%elem_of_union]; auto; done.
    + intros (o' & Ho' & Hp & Ha). split.
      * exists o'. split_and!; try done. destruct Ha; [by left|right; by apply elem_of_union_r].
      * intros ->. destruct Ha; [congruence|done].
Qed.

Lemma cleanup_fields b id :
  let b' := cleanup_if_filled b id in
  orders b' = orders b ∧ parked b' = parked b ∧ park_queue b' = park_queue b ∧
  protocol_balances b' = protocol_balances b ∧ tokens b' = tokens b ∧ feed b' = feed b.
Proof.
  unfold cleanup_if_filled. destruct (orders b !! id) as [o|]; [|done].
  destruct (negb (is_completely_filled o)); [done|].
  apply (remove_from_index_fields (count_dec b (pair_of o))).
Qed.

Lemma still_active_live b l : book_inv b l → still_active b l = l.
Proof.
  intros Hb. apply filter_all. intros id (o & ? & _ & ?)%(inv_live_iff b l id Hb).
  apply id_active_iff. eauto.
Qed.

(** Cleaning up every dirty id restores the invariant on the ids that are still active. *)
Lemma cleanup_all_fields b ids :
  let b' := foldl cleanup_if_filled b ids in
  orders b' = orders b ∧ parked b' = parked b ∧ park_queue b' = park_queue b ∧
  protocol_balances b' = protocol_balances b ∧ tokens b' = tokens b ∧ feed b' = feed b.
Proof.
  revert b. induction ids as [|x ids IH]; intros b; simpl; [done|].
  destruct (cleanup_fields b x) as (E1 & E2 & E3 & E4 & E5 & E6).
  destruct (IH (cleanup_if_filled b x)) as (F1 & F2 & F3 & F4 & F5 & F6).
  rewrite F1, F2, F3, F4, F5, F6. done.
Qed.

Lemma cleanup_all b l ids :
  dirty_inv b l (list_to_set ids) → NoDup ids → (∀ i, i ∈ ids → i ∈ l) →
  book_inv (foldl cleanup_if_filled b ids) (still_active b l).
Proof.
  intros Hb Hnd. revert b l Hb. induction Hnd as [|x ids Hx Hnd IH]; intros b l Hb Hin; simpl.
  { by rewrite (still_active_live b l). }
  pose proof (ix_nodup _ _ _ _ _ _ (bi_index _ _ _ Hb)) as Hndl.
  assert (x ∈ l) as Hxl by (apply Hin; set_solver).
  apply cleanup_dirty in Hb; [|done|by rewrite elem_of_list_to_set].
  destruct (cleanup_fields b x) as (E1 & _).
  specialize (IH (cleanup_if_filled b x) _ Hb). unfold still_active in *. rewrite E1 in IH.
  destruct (id_active (orders b) x) eqn:Hact; [apply IH; set_solver|].
  assert (filter (λ i, id_active (orders b) i = true) (remove_first x l) =
    filter (λ i, id_active (orders b) i = true) l) as <-.
  { rewrite remove_first_filter, list_filter_filter by done. apply filter_ext_in.
    intros i _. split; [tauto|]. intros Hi. split; [done|congruence]. }
  apply IH. intros i Hi. apply elem_of_remove_first; [done|].
  split; [apply Hin; set_solver|congruence].
Qed.

(** ** Balances *)

Lemma add_balance_dirty b l d t v :
  dirty_inv b l d → dirty_inv (add_protocol_balance b t v) l d.
Proof.
  intros [Hi Hords Hlive Hpark Htok Hbal Hsz]. unfold add_protocol_balance.
  destruct (v =? 0); [done|]. split; simpl; try done.
  - intros id o Ho. specialize (Htok id o Ho). set_solver.
  - intros t' v' [[<- <-]|[? ?]]%lookup_insert_Some; [auto with solver | eauto].
Qed.

Lemma add_balance_fields b t v :
  let b' := add_protocol_balance b t v in
  orders b' = orders b ∧ parked b' = parked b ∧ park_queue b' = park_queue b ∧
  pair_index b' = pair_index b ∧ active_pair_count b' = active_pair_count b ∧ feed b' = feed b.
Proof. unfold add_protocol_balance. by destruct (v =? 0). Qed.
End invariant.
