(* ===== verification/BookOps.v ===== *)
(** * Every operation of the book preserves its invariant

    For each method of [OrderBook] that changes state, the book it leaves satisfies
    [book_inv] with the list of visible ids the method should leave: adding and unparking
    append the id, removing and parking delete it, matching drops the ids it filled. *)

From S2P Require Import Prelude.
From S2P Require Import Orders.
From S2P Require Import RateIndex.
From S2P Require Import PriceFeed.
From S2P Require Import OrderBook.
From S2P Require Import IndexInvariant.
From S2P Require Import BookInvariant.

Section ops.
Context {F : Type}.
Implicit Types b : OrderBook F.

(** ** Matching *)

(** The protocol balance of a token. *)
Definition balance b (t : TokenId) : Z := default 0 (protocol_balances b !! t).

Lemma balance_u64 b l t : book_inv b l → is_u64 (balance b t).
Proof.
  intros Hb. unfold balance. destruct (protocol_balances b !! t) eqn:E; simpl; [|u64].
  by apply (bi_balances _ _ _ Hb) in E.
Qed.

(** A credit never books more than the amount (it books less only by wrapping). *)
Lemma balance_add_le b t v t' :
  0 <= v → 0 <= balance b t →
  balance (add_protocol_balance b t v) t' <= balance b t' + (if decide (t' = t) then v else 0).
Proof.
  intros Hv Hb. unfold add_protocol_balance, balance in *. destruct (Z.eqb_spec v 0) as [->|].
  { case_decide; lia. }
  simpl. destruct (decide (t' = t)) as [->|].
  - rewrite lookup_insert_eq. simpl. apply wrap64_le. lia.
  - rewrite lookup_insert_ne by done. lia.
Qed.

(** What a successful [apply_match] did to the book. *)
Record matched b (x y : OrderId) b' (r : MatchResult) (ox oy : Order) (sends receives : Z) : Prop := {
  ma_ne : x ≠ y;
  ma_x : orders b !! x = Some ox;
  ma_y : orders b !! y = Some oy;
  ma_ok : match_ok ox oy (set_remaining ox (requested_remaining ox - receives))
            (set_remaining oy (requested_remaining oy - sends)) r sends receives;
  ma_orders : orders b' =
    <[y := set_remaining oy (requested_remaining oy - sends)]>
      (<[x := set_remaining ox (requested_remaining ox - receives)]> (orders b));
  ma_parked : parked b' = parked b;
  ma_queue : park_queue b' = park_queue b;
  ma_feed : feed b' = feed b;
  ma_balances : protocol_balances b' =
    protocol_balances (add_protocol_balance
      (add_protocol_balance b (offered_token ox) (surplus_offered r))
      (offered_token oy) (surplus_requested r));
}.

Lemma add_balance_ext b b' t v :
  protocol_balances b = protocol_balances b' →
  protocol_balances (add_protocol_balance b t v) = protocol_balances (add_protocol_balance b' t v).
Proof. intros E. unfold add_protocol_balance. destruct (v =? 0); simpl; by rewrite E. Qed.

Lemma apply_match_matched b l d x y b' r :
  dirty_inv b l d → apply_match b x y = (b', Some r) →
  ∃ ox oy sends receives, matched b x y b' r ox oy sends receives.
Proof.
  intros Hb. unfold apply_match. case_decide as Hne; [done|].
  destruct (orders b !! x) as [ox|] eqn:Hx; [|done].
  destruct (orders b !! y) as [oy|] eqn:Hy; [|done].
  destruct (match_with ox oy) as [[[res|] ox'] oy'] eqn:Hm; [|done]. intros [= <- <-].
  destruct (bi_orders _ _ _ Hb x ox Hx) as [_ Hwx], (bi_orders _ _ _ Hb y oy Hy) as [_ Hwy].
  destruct (match_with_ok ox oy ox' oy' res Hwx Hwy Hm) as (s & v & Hok).
  pose proof (mo_a _ _ _ _ _ _ _ Hok) as ->. pose proof (mo_b _ _ _ _ _ _ _ Hok) as ->.
  exists ox, oy, s, v. simpl.
  set (b1 := set_orders b _). set (b2 := add_protocol_balance b1 _ _).
  set (b3 := add_protocol_balance b2 _ _).
  destruct (cleanup_fields (cleanup_if_filled b3 x) y) as (E1 & E2 & E3 & E4 & _ & E5).
  destruct (cleanup_fields b3 x) as (F1 & F2 & F3 & F4 & _ & F5).
  destruct (add_balance_fields b2 (offered_token oy) (surplus_requested res)) as (G1 & G2 & G3 & _ & _ & G4).
  destruct (add_balance_fields b1 (offered_token ox) (surplus_offered res)) as (H1 & H2 & H3 & _ & _ & H4).
  fold b2 b3 in G1, G2, G3, G4, H1, H2, H3, H4.
  split; try done; try congruence.
  - rewrite E1, F1, G1, H1. done.
  - rewrite E2, F2, G2, H2. done.
  - rewrite E3, F3, G3, H3. done.
  - rewrite E5, F5, G4, H4. done.
  - rewrite E4, F4. by apply add_balance_ext, add_balance_ext.
Qed.

(** A match leaves the visible ids that are still active. *)
Lemma apply_match_inv b l x y b' r :
  book_inv b l → x ∈ l → y ∈ l → apply_match b x y = (b', Some r) →
  book_inv b' (still_active b' l).
Proof.
  intros Hb Hx Hy Heq. destruct (apply_match_matched b l ∅ x y b' r Hb Heq)
    as (ox & oy & s & v & [Hne Hox Hoy Hok Hord _ _ _ _]).
  pose proof (ix_nodup _ _ _ _ _ _ (bi_index _ _ _ Hb)) as Hnd.
  pose proof (bi_orders _ _ _ Hb x ox Hox) as [_ (_ & _ & ?)].
  pose proof (bi_orders _ _ _ Hb y oy Hoy) as [_ (_ & _ & ?)].
  pose proof (mo_sends _ _ _ _ _ _ _ Hok). pose proof (mo_receives _ _ _ _ _ _ _ Hok).
  unfold apply_match in Heq. rewrite decide_False, Hox, Hoy in Heq by done.
  destruct (match_with ox oy) as [[[res|] ox'] oy'] eqn:Hm; [|done].
  destruct (match_with_ok ox oy ox' oy' res) as (s' & v' & Hok'); try done.
  { by apply (bi_orders _ _ _ Hb x). } { by apply (bi_orders _ _ _ Hb y). }
  set (b1 := set_orders b _) in Heq.
  injection Heq as <- <-.
  assert (dirty_inv b1 l ({[x]} ∪ ({[y]} ∪ ∅))) as Hd.
  { pose proof (mo_a _ _ _ _ _ _ _ Hok') as ->. pose proof (mo_b _ _ _ _ _ _ _ Hok') as ->.
    pose proof (mo_sends _ _ _ _ _ _ _ Hok'). pose proof (mo_receives _ _ _ _ _ _ _ Hok').
    subst b1. rewrite insert_insert_ne by done.
    pose proof (fill_dirty b l ∅ y oy (requested_remaining oy - s') Hb Hy Hoy ltac:(lia)) as Hfy.
    apply (fill_dirty _ l _ x ox (requested_remaining ox - v')) in Hfy; [done|done| |lia].
    simpl. by rewrite lookup_insert_ne. }
  set (b3 := add_protocol_balance _ _ _) in *.
  assert (dirty_inv b3 l ({[x]} ∪ ({[y]} ∪ ∅))) as Hd3 by (by apply add_balance_dirty, add_balance_dirty).
  assert (dirty_inv b3 l (list_to_set [x; y])) as Hd4 by done.
  apply cleanup_all in Hd4; [|by apply NoDup_cons; split; [set_solver|apply NoDup_singleton]
    |set_solver].
  simpl in Hd4. unfold still_active in *.
  destruct (cleanup_all_fields b3 [x; y]) as (Eo & _). simpl in Eo. by rewrite Eo.
Qed.

(** ** Adding, removing *)

(** The view does not see changes to orders that are not visible. *)
Lemma book_index_other m m' b l :
  (∀ id, id ∈ l → m' !! id = m !! id) → book_index m b l → book_index m' b l.
Proof.
  intros Hm Hi. apply (book_index_ext m); [|done]. intros id o Hid Ho.
  destruct (ix_orders _ _ _ _ _ _ Hi id Hid) as (o' & Ho' & Hwf). exists o. rewrite Hm by done.
  split_and!; try done. congruence.
Qed.

Lemma parked_not_live b l id : book_inv b l → is_Some (parked b !! id) → id ∉ l.
Proof. intros Hb [p Hp] (o & _ & Hn & _)%(inv_live_iff b l id Hb). congruence. Qed.

Lemma unknown_not_live b l id : book_inv b l → orders b !! id = None → id ∉ l.
Proof. intros Hb Hn (o & Ho & _)%(inv_live_iff b l id Hb). congruence. Qed.

Lemma length_live b l : book_inv b l → (length l <= size (orders b))%nat.
Proof.
  intros Hb. apply NoDup_keys_length; [apply (bi_index _ _ _ Hb)|].
  intros id (o & Ho & _)%(inv_live_iff b l id Hb). by eexists.
Qed.

Definition add_result b (l : list OrderId) (id : OrderId) : list OrderId :=
  if bool_decide (is_Some (orders b !! id)) && negb (bool_decide (is_Some (parked b !! id)))
  then l else l ++ [id].

Lemma add_user_order_inv b l id ot rt off req :
  book_inv b l → 0 < off < two64 → 0 < req < two64 → Z.of_nat (S (size (orders b))) < two32 →
  book_inv (add_user_order b id ot rt off req) (add_result b l id).
Proof.
  intros Hb Hoff Hreq Hsz. pose proof Hb as [Hi Hords Hlive Hpark Htok Hbal _].
  unfold add_user_order, add_result.
  destruct (bool_decide (is_Some (orders b !! id)) && _) eqn:Hc; [done|].
  assert (id ∉ l) as Hid.
  { apply andb_false_iff in Hc as [Hc%bool_decide_eq_false|Hc%negb_false_iff%bool_decide_eq_true].
    - apply (unknown_not_live b l id Hb). by apply eq_None_not_Some.
    - by apply (parked_not_live b l id Hb). }
  set (o := mk_order id ot rt off req req).
  assert (order_wf o) as Hwf by (unfold order_wf; simpl; lia).
  assert (is_active o = true) as Hact by (apply Z.ltb_lt; simpl; lia).
  pose proof (length_live b l Hb).
  split; simpl.
  - apply (index_insert_ok (<[id:=o]> (orders b)) b l id o);
      [|done|by rewrite lookup_insert_eq|done|lia].
    apply (book_index_other (orders b)); [|done].
    intros i Hi'. rewrite lookup_insert_ne; [done|congruence].
  - intros i o' [[<- <-]|[? ?]]%lookup_insert_Some; auto.
  - intros i. rewrite elem_of_app, list_elem_of_singleton.
    destruct (decide (id = i)) as [<-|Hne].
    + rewrite lookup_insert_eq, lookup_delete_eq. split; [|by right]. intros _. exists o. auto.
    + rewrite lookup_insert_ne, lookup_delete_ne, Hlive by done. naive_solver.
  - intros i dex t [Hne Hp]%lookup_delete_Some. unfold id_active.
    rewrite lookup_insert_ne by done. by apply Hpark in Hp.
  - intros i o' [[<- <-]|[? Ho']]%lookup_insert_Some; simpl; [set_solver|].
    specialize (Htok i o' Ho'). set_solver.
  - done.
  - rewrite map_size_insert. destruct (orders b !! id); simpl; lia.
Qed.

Lemma remove_order_inv b l id :
  book_inv b l → book_inv (remove_order b id) (remove_first id l).
Proof.
  intros Hb. pose proof Hb as [Hi Hords Hlive Hpark Htok Hbal Hsz]. unfold remove_order.
  destruct (orders b !! id) as [o|] eqn:Ho;
    [|by rewrite remove_first_not_elem by (by eapply unknown_not_live)].
  assert (∀ b', book_index (orders b) b' (remove_first id l) →
    orders b' = delete id (orders b) → (∀ i, i ≠ id → parked b' !! i = parked b !! i) →
    parked b' !! id = None →
    park_queue b' = park_queue b → protocol_balances b' = protocol_balances b → tokens b' = tokens b →
    book_inv b' (remove_first id l)) as Hgen.
  { intros b' Hi' Eo Ep Epn Eq Eb Et. split; rewrite ?Eo, ?Eq, ?Eb, ?Et; try done.
    - apply (book_index_other (orders b)); [|done]. intros i [_ Hne]%elem_of_remove_first;
        [by rewrite lookup_delete_ne | apply Hi].
    - intros i o' [_ ?]%lookup_delete_Some; auto.
    - intros i. rewrite elem_of_remove_first, Hlive by apply Hi. destruct (decide (id = i)) as [<-|].
      + rewrite lookup_delete_eq. naive_solver.
      + rewrite lookup_delete_ne, Ep by done. naive_solver.
    - intros i dex t Hp. destruct (decide (i = id)) as [->|Hne]; [congruence|].
      rewrite Ep in Hp by done. unfold id_active. rewrite lookup_delete_ne by done. by apply Hpark in Hp.
    - intros i o' [_ ?]%lookup_delete_Some; eauto.
    - rewrite map_size_delete_Some by (by eexists). lia. }
  simpl. destruct (parked b !! id) as [p|] eqn:Hp.
  { assert (id ∉ l) as Hid by (eapply parked_not_live; [done|by eexists]).
    apply Hgen; simpl; try done; [by rewrite remove_first_not_elem|..].
    - intros. by rewrite lookup_delete_ne.
    - apply lookup_delete_eq. }
  set (b1 := set_orders b _).
  destruct (is_active o) eqn:Ha.
  - pose proof (remove_from_index_fields (count_dec b1 (pair_of o)) (pair_of o) (rate_key o) id)
      as (E1 & E2 & E3 & E4 & E5 & _). simpl in *.
    apply Hgen; rewrite ?E1, ?E2, ?E3, ?E4, ?E5; try done.
    apply (index_remove_ok (orders b) b1 l); [done| |done]. apply Hlive. exists o. auto.
  - assert (id ∉ l) as Hid by (intros (o' & ? & _ & [?|?])%Hlive; [congruence|set_solver]).
    rewrite (remove_from_index_absent (orders b) b1 l) by done.
    apply Hgen; simpl; try done. by rewrite remove_first_not_elem.
Qed.

(** ** Parking *)

Lemma park_inv b l id dex time :
  book_inv b l → book_inv (park b id dex time) (remove_first id l).
Proof.
  intros Hb. pose proof Hb as [Hi Hords Hlive Hpark Htok Hbal Hsz]. unfold park.
  case_bool_decide as Hp; [rewrite remove_first_not_elem; [done|by eapply parked_not_live]|].
  destruct (orders b !! id) as [o|] eqn:Ho;
    [|by rewrite remove_first_not_elem by (by eapply unknown_not_live)].
  apply eq_None_not_Some in Hp.
  destruct (is_active o) eqn:Ha; simpl.
  2: { rewrite remove_first_not_elem; [done|].
    intros (o' & ? & _ & ?)%(inv_live_iff b l id Hb). congruence. }
  assert (id ∈ l) as Hid by (apply (inv_live_iff b l id Hb); eauto).
  pose proof (remove_from_index_fields (count_dec b (pair_of o)) (pair_of o) (rate_key o) id)
    as (E1 & E2 & E3 & E4 & E5 & _). simpl in *.
  split; simpl; rewrite ?E1, ?E2, ?E3, ?E4, ?E5; try done.
  - by apply (index_remove_ok (orders b) b l).
  - intros i. rewrite elem_of_remove_first, Hlive by apply Hi. destruct (decide (id = i)) as [<-|].
    + rewrite lookup_insert_eq. naive_solver.
    + rewrite lookup_insert_ne by done. naive_solver.
  - intros i dex' t [[<- [= <- <-]]|[Hne Hpk]]%lookup_insert_Some.
    + split; [|set_solver]. apply id_active_iff. eauto.
    + apply Hpark in Hpk as [? ?]. split; [done|]. set_solver.
Qed.

(** Unparking, also from a queue that lost the entry of this id. *)
Lemma unpark_queue_inv b l id q :
  book_inv b l → is_Some (parked b !! id) →
  (∀ i dex t, i ≠ id → parked b !! i = Some (dex, t) → (t, i) ∈ q) →
  book_inv (unpark (set_queue b q) id).1 (l ++ [id]).
Proof.
  intros Hb [[dex0 t0] Hp] Hq. pose proof Hb as [Hi Hords Hlive Hpark Htok Hbal Hsz].
  unfold unpark. simpl. rewrite Hp. simpl. unfold reindex. simpl.
  destruct (Hpark id dex0 t0 Hp) as [(o & Ho & Ha)%id_active_iff _]. rewrite Ho, Ha. simpl.
  assert (id ∉ l) as Hid by (eapply parked_not_live; [done|by eexists]).
  assert (length (id :: l) <= size (orders b))%nat as Hlen.
  { apply NoDup_keys_length; [constructor; [done|apply Hi]|].
    intros i [->|(? & ? & _)%(inv_live_iff b l i Hb)]%elem_of_cons; by eexists. }
  simpl in Hlen. split; simpl; try done.
  - apply (index_insert_ok (orders b) b l id o); [done..|by apply (Hords id)|lia].
  - intros i. rewrite elem_of_app, list_elem_of_singleton.
    destruct (decide (id = i)) as [<-|Hne].
    + rewrite lookup_delete_eq. split; [|by right]. intros _. exists o. auto.
    + rewrite lookup_delete_ne, Hlive by done. naive_solver.
  - intros i dex' t [Hne Hp']%lookup_delete_Some. split; [|by eapply Hq].
    by apply Hpark in Hp' as [? _].
Qed.

Lemma set_queue_same b : set_queue b (park_queue b) = b.
Proof. by destruct b. Qed.

Lemma unpark_inv b l id :
  book_inv b l →
  book_inv (unpark b id).1 (if bool_decide (is_Some (parked b !! id)) then l ++ [id] else l).
Proof.
  intros Hb. case_bool_decide as Hp.
  - pose proof (unpark_queue_inv b l id (park_queue b) Hb Hp) as H. rewrite set_queue_same in H.
    apply H. intros i dex' t' _ Hp'. by apply (bi_parked _ _ _ Hb) in Hp' as [_ ?].
  - apply eq_None_not_Some in Hp. unfold unpark. by rewrite Hp.
Qed.

Lemma set_queue_inv b l q :
  book_inv b l → (∀ i dex t, parked b !! i = Some (dex, t) → (t, i) ∈ q) → book_inv (set_queue b q) l.
Proof.
  intros [? ? ? Hp ? ? ?] Hq. split; simpl; try done. intros i dex t Hi.
  split; [by apply Hp in Hi as [? _] | by eapply Hq].
Qed.

(** One turn of the reactivation loop. *)
Lemma reactivate_step_inv b l at_ id rest :
  book_inv b l → park_queue b = (at_, id) :: rest →
  let '(b', out) := unpark (set_queue b rest) id in
  book_inv b' (match out with Some _ => l ++ [id] | None => l end) ∧ park_queue b' = rest.
Proof.
  intros Hb Hq.
  assert (∀ i dex t, i ≠ id → parked b !! i = Some (dex, t) → (t, i) ∈ rest) as Hrest.
  { intros i dex t Hne Hp. apply (bi_parked _ _ _ Hb) in Hp as [_ Hin].
    rewrite Hq in Hin. apply elem_of_cons in Hin as [[= ? ?]|?]; done. }
  destruct (parked b !! id) as [[dex t]|] eqn:Hp.
  - pose proof (unpark_queue_inv b l id rest Hb ltac:(by eexists) Hrest) as H.
    unfold unpark in *. simpl in *. rewrite Hp in *. split; [done|].
    unfold reindex. simpl. destruct (orders b !! id) as [o|]; [|done].
    by destruct (negb (is_active o)).
  - unfold unpark. simpl. rewrite Hp. split; [|done].
    apply set_queue_inv; [done|]. intros i dex t Hi. apply (Hrest i dex t); [congruence|done].
Qed.

(** Reactivation appends the released ids in the order of the queue. *)
Lemma reactivate_loop_inv ttl time queue b l :
  book_inv b l → park_queue b = queue →
  book_inv (reactivate_loop queue ttl time b).1 (l ++ (reactivate_loop queue ttl time b).2.*1).
Proof.
  revert b l. induction queue as [|[at_ id] rest IH]; intros b l Hb Hq; simpl.
  - rewrite app_nil_r, <-Hq, set_queue_same. done.
  - destruct (time <? sat_add64 at_ ttl); [by rewrite app_nil_r, <-Hq, set_queue_same|].
    pose proof (reactivate_step_inv b l at_ id rest Hb Hq) as Hs.
    destruct (unpark (set_queue b rest) id) as [b1 out]. destruct Hs as [Hb1 Hq1].
    specialize (IH b1 _ Hb1 Hq1). destruct (reactivate_loop rest ttl time b1) as [b2 outs]. simpl in *.
    destruct out as [dex|]; simpl; [|done]. by rewrite <-app_assoc in IH.
Qed.

(** Reactivation pops the whole expired prefix: when the queue is in time order, no note
    parked for the full time is left. *)
Lemma sat_add64_mono x y z : x <= y → sat_add64 x z <= sat_add64 y z.
Proof. u64. Qed.

Lemma unpark_parked b q id : parked (unpark (set_queue b q) id).1 = delete id (parked b).
Proof.
  unfold unpark. simpl. destruct (parked b !! id) as [[dex t]|] eqn:Hp; simpl.
  - unfold reindex. simpl. destruct (orders b !! id) as [o|]; [|done]. by destruct (negb (is_active o)).
  - by rewrite delete_id.
Qed.

Lemma reactivate_loop_left ttl time queue b l :
  book_inv b l → park_queue b = queue → StronglySorted (λ x y, x.1 <= y.1) queue →
  ∀ id dex t, parked (reactivate_loop queue ttl time b).1 !! id = Some (dex, t) →
  time < sat_add64 t ttl.
Proof.
  revert b l. induction queue as [|[at_ i] rest IH]; intros b l Hb Hq Hs id dex t; simpl.
  - intros Hp. apply (bi_parked _ _ _ Hb) in Hp as [_ Hin]. rewrite Hq in Hin. by apply elem_of_nil in Hin.
  - apply StronglySorted_inv in Hs as [Hs Hle]. rewrite Forall_forall in Hle.
    destruct (Z.ltb_spec time (sat_add64 at_ ttl)) as [Hlt|Hge]; simpl.
    + intros Hp. apply (bi_parked _ _ _ Hb) in Hp as [_ Hin]. rewrite Hq in Hin.
      apply elem_of_cons in Hin as [[= -> ->]|Hin]; [done|]. apply Hle in Hin. simpl in Hin.
      pose proof (sat_add64_mono at_ t ttl Hin). lia.
    + pose proof (reactivate_step_inv b l at_ i rest Hb Hq) as Hst.
      destruct (unpark (set_queue b rest) i) as [b1 out]. destruct Hst as [Hb1 Hq1].
      specialize (IH b1 _ Hb1 Hq1 Hs id dex t).
      by destruct (reactivate_loop rest ttl time b1).
Qed.

(** Every released id was parked. *)
Lemma reactivate_loop_was_parked ttl time queue b id dex :
  (id, dex) ∈ (reactivate_loop queue ttl time b).2 → is_Some (parked b !! id).
Proof.
  revert b. induction queue as [|[at_ i] rest IH]; intros b; simpl; [by intros ?%elem_of_nil|].
  destruct (time <? sat_add64 at_ ttl); [by intros ?%elem_of_nil|].
  pose proof (unpark_parked b rest i) as Hp.
  assert ((unpark (set_queue b rest) i).2 = fst <$> (parked b !! i)) as Hout.
  { unfold unpark. simpl. by destruct (parked b !! i) as [[]|]. }
  destruct (unpark (set_queue b rest) i) as [b1 out]. simpl in *. specialize (IH b1).
  destruct (reactivate_loop rest ttl time b1) as [b2 outs]. simpl in *.
  assert ((id, dex) ∈ outs → is_Some (parked b !! id)) as Hrec.
  { intros Hin%IH. rewrite Hp in Hin. by apply lookup_delete_is_Some in Hin as [_ ?]. }
  destruct out as [d|]; [|done]. intros [[= -> ->]|?]%elem_of_cons; [|auto].
  destruct (parked b !! i); [by eexists|done].
Qed.
End ops.
