(* ===== verification/BookQueries.v ===== *)
(** * The queries of the book implement price-time priority

    Under the invariant the lazy pruning of [best_order] finds nothing to prune, and each
    query returns what the visible orders determine: the best order of a pair is the
    first of the stable sort by rate, the best level sums the orders at the best rate,
    the counters count the visible orders. *)

From S2P Require Import Prelude.
From S2P Require Import Orders.
From S2P Require Import RateIndex.
From S2P Require Import PriceFeed.
From S2P Require Import OrderBook.
From S2P Require Import IndexInvariant.
From S2P Require Import BookInvariant.
From S2P Require Import BookOps.

Section queries.
Context {F : Type}.
Implicit Types b : OrderBook F.

(** The visible ids of a pair by price, then by time. *)
Definition ranked b (l : list OrderId) (p : Pair) : list OrderId :=
  rate_sort (rate_of (orders b)) (pair_ids (orders b) p l).

(** An order is visible when it is active and not parked. *)
Definition visible b (id : OrderId) (o : Order) : Prop :=
  orders b !! id = Some o ∧ parked b !! id = None ∧ is_active o = true.

Lemma visible_live b l id o : book_inv b l → visible b id o → id ∈ l.
Proof. intros Hb Hv. apply (inv_live_iff b l id Hb). by exists o. Qed.

Lemma elem_of_ranked b l p id :
  book_inv b l → id ∈ ranked b l p ↔ ∃ o, visible b id o ∧ pair_of o = p.
Proof.
  intros Hb. unfold ranked. rewrite elem_of_rate_sort, elem_of_pair_ids, (inv_live_iff b l id Hb).
  split.
  - intros [Hp (o & Ho & ? & ?)]. exists o. split; [done|]. by apply (in_pair_lookup _ id o) in Hp.
  - intros (o & (Ho & ? & ?) & <-). split; [by apply (in_pair_lookup _ id o)|eauto].
Qed.

Lemma pair_index_ranked b l p :
  book_inv b l → btree_ids (default [] (pair_index b !! p)) = ranked b l p.
Proof.
  intros Hb. pose proof (ix_pair _ _ _ _ _ _ (bi_index _ _ _ Hb) p) as Hp. unfold pair_ok in Hp.
  unfold ranked. destruct (pair_index b !! p) as [t|]; simpl; [by destruct Hp as (_ & _ & ->)|].
  by rewrite Hp.
Qed.

Lemma ranked_active b l p id :
  book_inv b l → id ∈ ranked b l p → id_active (orders b) id = true.
Proof.
  intros Hb Hid. apply (elem_of_ranked b l p id Hb) in Hid as (o & (? & _ & ?) & _).
  apply id_active_iff. eauto.
Qed.

Lemma ranked_rates_wf b l p : book_inv b l → rates_wf (rate_of (orders b)) (pair_ids (orders b) p l).
Proof.
  intros Hb. apply pair_ids_rates_wf. intros id Hid.
  destruct (inv_live_order b l ∅ id Hb Hid) as (o & ? & ? & _). eauto.
Qed.

(** ** [best_order] *)

Lemma best_order_eq b l x y :
  book_inv b l →
  best_order b x y = (b, head (ranked b l (x, y)) ≫= λ id, orders b !! id).
Proof.
  intros Hb. pose proof (pair_index_ranked b l (x, y) Hb) as Hids. unfold best_order.
  pose proof (ix_pair _ _ _ _ _ _ (bi_index _ _ _ Hb) (x, y)) as Hp.
  destruct (pair_index b !! (x, y)) as [t|] eqn:Ht; simpl in *; [|by rewrite <-Hids].
  destruct Hp as (_ & Hok & _).
  rewrite (btree_best_all_active (rate_of (orders b))); [|done|].
  - unfold set_index. rewrite insert_id, Hids by done. destruct b. by destruct (head _).
  - intros id. rewrite Hids. by apply ranked_active.
Qed.

Lemma best_order_Some b l x y b' o :
  book_inv b l → best_order b x y = (b', Some o) →
  b' = b ∧ visible b (oid o) o ∧ pair_of o = (x, y) ∧ head (ranked b l (x, y)) = Some (oid o).
Proof.
  intros Hb. rewrite (best_order_eq b l) by done. intros [= <- Ho].
  destruct (ranked b l (x, y)) as [|id r] eqn:Hr; [done|]. simpl in Ho.
  assert (id ∈ ranked b l (x, y)) as Hin by (rewrite Hr; set_solver).
  apply (elem_of_ranked b l _ id Hb) in Hin as (o' & Hv & Hp). pose proof Hv as (Ho' & _).
  assert (o' = o) as -> by congruence. destruct (bi_orders _ _ _ Hb id o Ho) as [<- _]. done.
Qed.

Lemma best_order_None b l x y b' :
  book_inv b l → best_order b x y = (b', None) → b' = b ∧ ranked b l (x, y) = [].
Proof.
  intros Hb. rewrite (best_order_eq b l) by done. intros [= <- Ho]. split; [done|].
  destruct (ranked b l (x, y)) as [|id r] eqn:Hr; [done|]. simpl in Ho.
  assert (id ∈ ranked b l (x, y)) as Hin by (rewrite Hr; set_solver).
  apply (elem_of_ranked b l _ id Hb) in Hin as (o' & (? & _) & _). congruence.
Qed.

(** The head of the ranking has the lowest rate, and among equal rates the earliest id. *)
Lemma ranked_head_best b l p id :
  book_inv b l → head (ranked b l p) = Some id →
  ∀ id' o', visible b id' o' → pair_of o' = p →
    rate_le (rate_of (orders b) id) (rate_key o') ∧
    (rate_eq (rate_of (orders b) id) (rate_key o') →
     head (filter (λ i, rate_eq (rate_of (orders b) id) (rate_of (orders b) i))
            (pair_ids (orders b) p l)) = Some id).
Proof.
  intros Hb Hh id' o' Hv Hp. pose proof (ranked_rates_wf b l p Hb) as Hwf.
  pose proof (rate_sort_sorted _ _ Hwf) as Hs.
  assert (id' ∈ ranked b l p) as Hin by (apply (elem_of_ranked b l p id' Hb); eauto).
  pose proof Hv as (Ho' & _). rewrite <-(rate_of_lookup (orders b) id' o') by done.
  assert (rate_wf (rate_of (orders b) id)) as Hwid.
  { apply Hwf. rewrite <-(elem_of_rate_sort (rate_of (orders b))).
    unfold ranked in Hh. by apply head_Some_elem_of. }
  unfold ranked in *. destruct (rate_sort _ _) as [|i r] eqn:Hr; [done|]. simplify_eq/=.
  apply StronglySorted_inv in Hs as [_ Hf]. rewrite Forall_forall in Hf. split.
  - apply elem_of_cons in Hin as [->|?]; [auto with solver|]. by apply Hf.
  - intros _. rewrite <-rate_sort_stable, Hr by done. rewrite filter_cons_True; [done|].
    apply rate_eq_iff. lia.
Qed.

(** ** [has_orders] and [active_order_count] *)

Lemma has_orders_length b l x y :
  book_inv b l → has_orders b x y = bool_decide (ranked b l (x, y) ≠ []).
Proof.
  intros Hb. pose proof (ix_count _ _ _ _ _ _ (bi_index _ _ _ Hb) (x, y)) as Hc.
  unfold has_orders, ranked. destruct (pair_ids (orders b) (x, y) l) as [|id r] eqn:Hp.
  - simpl in *. destruct (active_pair_count b !! (x, y)) as [c|]; simpl in *; [|done]. by subst c.
  - rewrite bool_decide_eq_true_2.
    + destruct (active_pair_count b !! (x, y)) as [c|]; simpl in *; [apply Z.ltb_lt|]; lia.
    + intros Hn. apply (Permutation_nil_cons (l := r) (x := id)).
      rewrite <-Hn. by rewrite rate_sort_perm.
Qed.

Lemma has_orders_iff b l x y :
  book_inv b l → has_orders b x y = true ↔ ∃ id o, visible b id o ∧ pair_of o = (x, y).
Proof.
  intros Hb. rewrite (has_orders_length b l) by done. rewrite bool_decide_eq_true. split.
  - intros Hne. destruct (ranked b l (x, y)) as [|id r] eqn:Hr; [done|]. exists id.
    apply (elem_of_ranked b l _ id Hb). rewrite Hr. set_solver.
  - intros (id & Hv) Hn. apply (elem_of_ranked b l _ id Hb) in Hv. rewrite Hn in Hv. set_solver.
Qed.

(** A pair is indexed, and its tokens adjacent, exactly when it has visible orders. *)
Lemma has_orders_indexed b l x y :
  book_inv b l → has_orders b x y = true ↔ is_Some (pair_index b !! (x, y)).
Proof.
  intros Hb. rewrite (has_orders_length b l), bool_decide_eq_true by done.
  pose proof (pair_index_ranked b l (x, y) Hb) as Hr.
  pose proof (ix_pair _ _ _ _ _ _ (bi_index _ _ _ Hb) (x, y)) as Hp.
  destruct (pair_index b !! (x, y)) as [t|]; simpl in *.
  - destruct Hp as (Hne & Hok & _). rewrite <-Hr. split; [by eexists|].
    intros _ Hn. by apply (btree_ids_nil (rate_of (orders b)) t) in Hn.
  - rewrite <-Hr. split; [done|]. by intros [? ?].
Qed.

Lemma elem_of_neighbors `{HashIter} b l n x y :
  book_inv b l → y ∈ neighbors n b x ↔ has_orders b x y = true.
Proof.
  intros Hb. unfold neighbors. rewrite hash_iter_perm, elem_of_elements, (has_orders_indexed b l) by done.
  apply (ix_adj _ _ _ _ _ _ (bi_index _ _ _ Hb)).
Qed.

Lemma elem_of_incoming `{HashIter} b l n x y :
  book_inv b l → x ∈ incoming_neighbors n b y ↔ has_orders b x y = true.
Proof.
  intros Hb. unfold incoming_neighbors.
  rewrite hash_iter_perm, elem_of_elements, (has_orders_indexed b l) by done.
  apply (ix_adj _ _ _ _ _ _ (bi_index _ _ _ Hb)).
Qed.

Lemma has_orders_tokens b l x y :
  book_inv b l → has_orders b x y = true → x ∈ tokens b ∧ y ∈ tokens b.
Proof.
  intros Hb (id & o & (Ho & _) & Hp)%(has_orders_iff b l x y Hb).
  apply (bi_tokens _ _ _ Hb) in Ho as [? ?]. unfold pair_of in Hp. split; congruence.
Qed.

(** Per-pair counts add up to the number of ids. *)
Lemma msum_zero {K} `{Countable K} (m : gmap K Z) :
  (∀ k, default 0 (m !! k) = 0) → msum id m = 0.
Proof.
  intros Hz. rewrite (msum_ext id (λ _, 0)).
  - clear Hz. induction m as [|k v m Hk IH] using map_ind; [by rewrite msum_empty|].
    by rewrite msum_insert_new.
  - intros k v Hk. specialize (Hz k). by rewrite Hk in Hz.
Qed.

Lemma msum_counts (m : gmap OrderId Order) (l : list OrderId) (c : gmap Pair Z) :
  (∀ id, id ∈ l → is_Some (m !! id)) →
  (∀ p, default 0 (c !! p) = Z.of_nat (length (pair_ids m p l))) →
  msum id c = Z.of_nat (length l).
Proof.
  revert c. induction l as [|i l IH]; intros c Hl Hc; [by apply msum_zero|].
  destruct (Hl i) as [o Ho]; [set_solver|].
  assert (in_pair m (pair_of o) i) as Hin by (by apply (in_pair_lookup m i o)).
  pose proof (Hc (pair_of o)) as Hco. unfold pair_ids in Hco.
  rewrite filter_cons_True in Hco by done. simpl in Hco.
  destruct (c !! pair_of o) as [v|] eqn:Hv; simpl in Hco; [|lia].
  enough (msum id (<[pair_of o := v - 1]> c) = Z.of_nat (length l)) as H.
  { rewrite (msum_insert id c _ v) in H by done. unfold id in *. simpl. lia. }
  apply IH; [set_solver|]. intros p. destruct (decide (pair_of o = p)) as [<-|Hne].
  - rewrite lookup_insert_eq. simpl. unfold pair_ids. lia.
  - rewrite lookup_insert_ne, Hc by done. unfold pair_ids. rewrite filter_cons_False; [done|].
    rewrite (in_pair_lookup m i o) by done. congruence.
Qed.

Lemma active_order_count_length b l :
  book_inv b l → active_order_count b = Z.of_nat (length l).
Proof.
  intros Hb. pose proof (bi_index _ _ _ Hb) as Hi. unfold active_order_count.
  rewrite (msum_counts (orders b) l).
  - apply wrap32_small. split; [lia|apply Hi].
  - intros id Hid. destruct (inv_live_order b l ∅ id Hb Hid) as (o & ? & _). by eexists.
  - apply Hi.
Qed.

(** ** [best_level] and [notes_for_pair] *)

Definition orders_of b (ids : list OrderId) : list Order := omap (λ id, orders b !! id) ids.

Definition volume (os : list Order) : Z := foldr (λ o acc, offered_remaining o + acc) 0 os.

Lemma offered_remaining_range o : order_wf o → 0 <= offered_remaining o <= offered o.
Proof. intros Hwf. apply offered_for_exact; [done|]. by destruct Hwf as (_ & _ & ?). Qed.

Lemma volume_nonneg os : Forall order_wf os → 0 <= volume os.
Proof.
  induction 1 as [|o os Ho Hos IH]; [done|].
  pose proof (offered_remaining_range o Ho). unfold volume in *. simpl. lia.
Qed.

Lemma level_volume_eq (m : gmap OrderId Order) (ids : list OrderId) (acc : bool * Z) :
  0 <= acc.2 <= two64 - 1 →
  (∀ id, id ∈ ids → ∃ o, m !! id = Some o ∧ order_wf o ∧ is_active o = true) →
  foldl (λ acc id,
    match m !! id with
    | Some o => if is_active o then (true, sat_add64 acc.2 (offered_remaining o)) else acc
    | None => acc
    end) acc ids =
  (acc.1 || bool_decide (ids ≠ []), Z.min (two64 - 1) (acc.2 + volume (omap (λ id, m !! id) ids))).
Proof.
  revert acc. induction ids as [|i ids IH]; intros [any v] Hv Hids; simpl in *.
  { rewrite orb_false_r. f_equal. lia. }
  destruct (Hids i) as (o & Ho & Hwf & Ha); [set_solver|]. rewrite Ho, Ha.
  pose proof (offered_remaining_range o Hwf) as Hr.
  rewrite IH; [|simpl; u64|intros; apply Hids; set_solver]. simpl. rewrite orb_true_r. f_equal.
  assert (0 <= volume (omap (λ id, m !! id) ids)) as Hpos.
  { apply volume_nonneg, Forall_forall. intros p (j & Hj & Hp)%list_elem_of_omap.
    destruct (Hids j) as (p' & ? & ? & _); [set_solver|]. congruence. }
  change (list_omap N Order (λ id, m !! id) ids) with (omap (λ id, m !! id) ids).
  fold (volume (omap (λ id, m !! id) ids)). u64.
Qed.

Lemma btree_first_level kf k ids t :
  btree_ok kf ((k, ids) :: t) → filter (λ x, rate_eq k (kf x)) (btree_ids ((k, ids) :: t)) = ids.
Proof.
  intros Hok. rewrite btree_ids_cons, filter_app.
  pose proof Hok as ((_ & _ & Hids) & _ & _)%btree_ok_cons. simpl in Hids.
  rewrite filter_all by (intros x Hx; by apply Hids).
  rewrite filter_none, app_nil_r; [done|]. intros x Hx.
  destruct (btree_later_lt kf k ids t x Hok Hx) as [_ Hlt]. unfold rate_lt, rate_eq in *. congruence.
Qed.

Lemma best_level_eq b l x y :
  book_inv b l →
  match best_level b x y with
  | None => ranked b l (x, y) = []
  | Some (k, v) =>
    ∃ id, head (ranked b l (x, y)) = Some id ∧ rate_wf k ∧ rate_eq k (rate_of (orders b) id) ∧
    v = Z.min (two64 - 1) (volume (orders_of b
          (filter (λ i, rate_eq k (rate_of (orders b) i)) (pair_ids (orders b) (x, y) l))))
  end.
Proof.
  intros Hb. pose proof (pair_index_ranked b l (x, y) Hb) as Hids. unfold best_level.
  pose proof (ix_pair _ _ _ _ _ _ (bi_index _ _ _ Hb) (x, y)) as Hp.
  destruct (pair_index b !! (x, y)) as [t|] eqn:Ht; simpl in *; [|by rewrite <-Hids].
  destruct Hp as (Hne & Hok & _). destruct t as [|[k ids] t]; [done|]. simpl.
  pose proof (btree_first_level _ k ids t Hok) as Hlev.
  pose proof Hok as ((Hi & Hk & Hin) & _)%btree_ok_cons. simpl in *.
  assert (∀ id, id ∈ ids → ∃ o, orders b !! id = Some o ∧ order_wf o ∧ is_active o = true) as Hact.
  { intros id Hid. assert (id ∈ ranked b l (x, y)) as (o & (Ho & _ & ?) & _)%(elem_of_ranked b l _ id Hb).
    { rewrite <-Hids, btree_ids_cons. set_solver. }
    exists o. split_and!; try done. by apply (bi_orders _ _ _ Hb id). }
  unfold level_volume. rewrite (level_volume_eq (orders b) ids (false, 0)) by (done || (simpl; u64)).
  rewrite bool_decide_eq_true_2 by done. simpl. rewrite Hids in Hlev.
  destruct ids as [|id r]; [done|]. exists id. split_and!.
  - by rewrite <-Hids.
  - done.
  - by apply Hin; set_solver.
  - rewrite <-Hlev. unfold ranked, orders_of.
    rewrite rate_sort_stable; [done|done|by apply ranked_rates_wf].
Qed.

Lemma notes_for_pair_eq b l x y :
  book_inv b l → notes_for_pair b x y = orders_of b (ranked b l (x, y)).
Proof.
  intros Hb. rewrite <-(pair_index_ranked b l (x, y) Hb). unfold notes_for_pair, orders_of.
  destruct (pair_index b !! (x, y)) as [t|] eqn:Ht; [|done]. simpl.
  apply filter_all. intros o (id & Hid & Ho)%list_elem_of_omap.
  assert (btree_ids t = ranked b l (x, y)) as Hr by (by rewrite <-(pair_index_ranked b l), Ht).
  rewrite Hr in Hid. apply (elem_of_ranked b l _ id Hb) in Hid as (o' & (? & _ & ?) & _). congruence.
Qed.
End queries.
