(* ===== verification/Fills.v ===== *)
(** * Changes of the book that only fill orders

    Both matching phases change orders only by filling them.  [fills_to] is that
    relation; it fixes the ranking of every pair up to the ids that became inactive.
    [flow] is what the fills of a book release and pay in a token: the phases keep the
    protocol balances below it. *)

From S2P Require Import Prelude.
From S2P Require Import Orders.
From S2P Require Import RateIndex.
From S2P Require Import PriceFeed.
From S2P Require Import OrderBook.
From S2P Require Import IndexInvariant.
From S2P Require Import BookInvariant.
From S2P Require Import BookOps.
From S2P Require Import BookQueries.

(** ** Fill-only changes *)

(** Same ids and terms; no order's remaining amount grows. *)
Definition filled_from (o o' : Order) : Prop :=
  ∃ r, o' = set_remaining o r ∧ 0 <= r <= requested_remaining o.

Definition fills_to (m m' : gmap OrderId Order) : Prop :=
  ∀ id, option_Forall2 filled_from (m !! id) (m' !! id).

Lemma filled_from_refl o : order_wf o → filled_from o o.
Proof. intros (_ & _ & ?). exists (requested_remaining o). destruct o; simpl in *. split; [done|lia]. Qed.

Lemma filled_from_trans o1 o2 o3 : filled_from o1 o2 → filled_from o2 o3 → filled_from o1 o3.
Proof. intros (r & -> & ?) (r' & -> & ?). exists r'. simpl in *. split; [done|lia]. Qed.

Lemma fills_to_refl m : (∀ id o, m !! id = Some o → order_wf o) → fills_to m m.
Proof.
  intros Hwf id. destruct (m !! id) as [o|] eqn:Ho; constructor. by apply filled_from_refl, (Hwf id).
Qed.

Lemma fills_to_trans m1 m2 m3 : fills_to m1 m2 → fills_to m2 m3 → fills_to m1 m3.
Proof.
  intros H12 H23 id. specialize (H12 id). specialize (H23 id).
  destruct H12; inversion H23; simplify_eq; constructor. by eapply filled_from_trans.
Qed.

Lemma fills_to_lookup m m' id o :
  fills_to m m' → m !! id = Some o → ∃ o', m' !! id = Some o' ∧ filled_from o o'.
Proof. intros H Ho. specialize (H id). rewrite Ho in H. inversion H; simplify_eq. eauto. Qed.

Lemma fills_to_insert m id o r :
  (∀ id o, m !! id = Some o → order_wf o) → m !! id = Some o → 0 <= r <= requested_remaining o →
  fills_to m (<[id := set_remaining o r]> m).
Proof.
  intros Hwf Ho Hr i. destruct (decide (id = i)) as [<-|].
  - rewrite lookup_insert_eq, Ho. constructor. by exists r.
  - rewrite lookup_insert_ne by done. by apply fills_to_refl.
Qed.

(** An order changed over two stretches when it changed over one of them. *)
Lemma filled_from_antisym o o' : filled_from o o' → filled_from o' o → o = o'.
Proof.
  intros (r & -> & ?) (r' & E & ?). rewrite E. f_equal. simpl in *.
  apply (f_equal requested_remaining) in E. simpl in E. lia.
Qed.

Lemma fills_to_touched m1 m2 m3 id :
  fills_to m1 m2 → fills_to m2 m3 →
  m3 !! id ≠ m1 !! id ↔ m2 !! id ≠ m1 !! id ∨ m3 !! id ≠ m2 !! id.
Proof.
  intros H12 H23. specialize (H12 id). specialize (H23 id).
  destruct H12 as [o1 o2 H12|]; inversion H23 as [? o3 H23'|]; simplify_eq; [|naive_solver].
  split; [destruct (decide (o2 = o1)) as [->|]; [by right | left; congruence]|].
  intros Hne [= ->]. assert (o1 = o2) as -> by (by apply filled_from_antisym). tauto.
Qed.

(** ** The ranking after fills *)

Lemma filled_from_pair o o' : filled_from o o' → pair_of o' = pair_of o ∧ rate_key o' = rate_key o.
Proof. by intros (r & -> & _). Qed.

Lemma fills_to_in_pair m m' p id : fills_to m m' → in_pair m' p id ↔ in_pair m p id.
Proof.
  intros H. specialize (H id). unfold in_pair. inversion H as [o o' Ho|]; simpl; [|done].
  by destruct (filled_from_pair o o' Ho) as [-> _].
Qed.

Lemma fills_to_rate m m' id : fills_to m m' → rate_of m' id = rate_of m id.
Proof.
  intros H. specialize (H id). unfold rate_of. inversion H as [o o' Ho|]; simpl; [|done].
  by destruct (filled_from_pair o o' Ho) as [_ ->].
Qed.

Section fills.
Context {F : Type}.
Implicit Types b : OrderBook F.

(** Fills keep the ranking of a pair, less the ids that are no longer active. *)
Lemma ranked_fills b b' l p :
  book_inv b l → fills_to (orders b) (orders b') →
  ranked b' (still_active b' l) p = filter (λ id, id_active (orders b') id = true) (ranked b l p).
Proof.
  intros Hb Hf. unfold ranked. rewrite <-rate_sort_select by (by apply ranked_rates_wf).
  rewrite (rate_sort_ext _ (rate_of (orders b))) by (intros; by apply fills_to_rate).
  f_equal. unfold pair_ids, still_active. rewrite !list_filter_filter.
  apply filter_ext_in. intros id _. rewrite (fills_to_in_pair (orders b) (orders b')) by done. tauto.
Qed.

(** A pair none of whose orders changed keeps its ranking. *)
Lemma ranked_untouched b b' l p :
  book_inv b l → fills_to (orders b) (orders b') →
  (∀ id o, orders b !! id = Some o → pair_of o = p → orders b' !! id = Some o) →
  ranked b' (still_active b' l) p = ranked b l p.
Proof.
  intros Hb Hf Hsame. rewrite (ranked_fills b b' l p) by done. apply filter_all. intros id Hid.
  apply (elem_of_ranked b l p id Hb) in Hid as (o & (Ho & _ & Ha) & Hp).
  apply id_active_iff. eauto.
Qed.

Lemma fills_to_active m m' id :
  fills_to m m' → id_active m' id = true → id_active m id = true.
Proof.
  intros H. specialize (H id). unfold id_active. inversion H as [o o' (r & -> & Hr)|]; simpl; [|done].
  unfold is_active. simpl. rewrite !Z.ltb_lt. lia.
Qed.

Lemma still_active_trans b b' l :
  fills_to (orders b) (orders b') → still_active b' (still_active b l) = still_active b' l.
Proof.
  intros Hf. unfold still_active. rewrite list_filter_filter. apply filter_ext_in.
  intros id _. split; [tauto|]. eauto using fills_to_active.
Qed.

Lemma length_still_active b l : (length (still_active b l) <= length l)%nat.
Proof. apply length_filter. Qed.

Lemma length_still_active_lt b l id :
  id ∈ l → id_active (orders b) id = false → (length (still_active b l) < length l)%nat.
Proof.
  intros Hid Ha. unfold still_active. induction l as [|x l IH]; [set_solver|].
  rewrite filter_cons. pose proof (length_filter (λ i, id_active (orders b) i = true) l).
  apply elem_of_cons in Hid as [<-|Hid].
  - rewrite decide_False by congruence. simpl. lia.
  - specialize (IH Hid). case_decide; simpl; lia.
Qed.

Lemma orders_wf b l d id o : dirty_inv b l d → orders b !! id = Some o → order_wf o.
Proof. intros Hb Ho. by apply (bi_orders _ _ _ Hb id o). Qed.

Lemma inv_fills_refl b l d : dirty_inv b l d → fills_to (orders b) (orders b).
Proof. intros Hb. apply fills_to_refl. intros id o. by apply (orders_wf b l d). Qed.

Lemma matched_fills b l d x y b' r ox oy s v :
  dirty_inv b l d → matched b x y b' r ox oy s v → fills_to (orders b) (orders b').
Proof.
  intros Hb [Hne Hx Hy Hok Hord _ _ _ _].
  pose proof (mo_sends _ _ _ _ _ _ _ Hok). pose proof (mo_receives _ _ _ _ _ _ _ Hok).
  pose proof (orders_wf b l d x ox Hb Hx) as Hwx. pose proof (orders_wf b l d y oy Hb Hy) as Hwy.
  rewrite Hord. eapply fills_to_trans.
  - apply (fills_to_insert (orders b) x ox (requested_remaining ox - v)); [|done|lia].
    intros id o. by apply (orders_wf b l d).
  - apply fills_to_insert; [|by rewrite lookup_insert_ne|lia].
    intros id o [[<- <-]|[_ Ho]]%lookup_insert_Some; [|by eapply orders_wf].
    apply set_remaining_wf; [done|]. destruct Hwx as (_ & _ & ?). lia.
Qed.
End fills.

(** ** Flows *)

(** What an order's fills have released of a token, less what they were paid in it. *)
Definition contribution (t : TokenId) (o : Order) : Z :=
  (if decide (offered_token o = t) then offered_for o (requested_filled o) else 0) -
  (if decide (requested_token o = t) then requested_filled o else 0).

Definition flow (m : gmap OrderId Order) (t : TokenId) : Z := msum (contribution t) m.

(** Filling [v] more adds at least the release of [v], less [v]. *)
Lemma contribution_fill t o v :
  order_wf o → 0 <= v <= requested_remaining o →
  contribution t o + (if decide (offered_token o = t) then offered_for o v else 0)
    - (if decide (requested_token o = t) then v else 0)
  <= contribution t (set_remaining o (requested_remaining o - v)).
Proof.
  intros Hwf Hv. pose proof Hwf as (_ & _ & ?).
  assert (offered_for o (requested_filled o) + offered_for o v <=
    offered_for o (requested o - (requested_remaining o - v))) as Hs.
  { replace (requested o - _) with (requested_filled o + v) by (unfold requested_filled; lia).
    apply offered_for_superadd; unfold requested_filled in *; [done|lia..]. }
  unfold contribution. simpl.
  change (offered_for (set_remaining o (requested_remaining o - v))) with (offered_for o).
  unfold requested_filled in *. simpl in *. repeat case_decide; lia.
Qed.

(** A book whose orders are untouched has no flow. *)
Definition untouched (m : gmap OrderId Order) : Prop :=
  ∀ id o, m !! id = Some o → requested_remaining o = requested o.

Lemma contribution_untouched t o :
  order_wf o → requested_remaining o = requested o → contribution t o = 0.
Proof.
  intros Hwf Hr. unfold contribution, requested_filled. rewrite Hr, Z.sub_diag, offered_for_zero by done.
  repeat case_decide; lia.
Qed.

Section solvency.
Context {F : Type}.
Implicit Types b : OrderBook F.

(** The credits between two states are covered by the flows of the fills. *)
Definition covered b b' : Prop :=
  ∀ t, balance b' t - balance b t <= flow (orders b') t - flow (orders b) t.

Lemma covered_refl b : covered b b.
Proof. intros t. lia. Qed.

Lemma covered_trans b1 b2 b3 : covered b1 b2 → covered b2 b3 → covered b1 b3.
Proof. intros H1 H2 t. specialize (H1 t). specialize (H2 t). lia. Qed.

(** What a matching phase keeps, from a book and a set of filled ids to the next: the
    invariant on the ids that are still active, the terms of the orders, the parked notes
    and the feed; the set gains exactly the ids whose order changed, and these were visible. *)
Record progress (l : list OrderId) (s s' : OrderBook F * gset OrderId) : Prop := {
  pr_inv : book_inv s'.1 (still_active s'.1 l);
  pr_fills : fills_to (orders s.1) (orders s'.1);
  pr_filled : ∀ id, id ∈ s'.2 ↔ id ∈ s.2 ∨ orders s'.1 !! id ≠ orders s.1 !! id;
  pr_parked : parked s'.1 = parked s.1;
  pr_queue : park_queue s'.1 = park_queue s.1;
  pr_feed : feed s'.1 = feed s.1;
  pr_live : ∀ id, orders s'.1 !! id ≠ orders s.1 !! id → id ∈ l;
}.

Lemma progress_refl s l : book_inv s.1 l → progress l s s.
Proof.
  intros Hb. split; try done; [by rewrite still_active_live | by eapply inv_fills_refl | tauto].
Qed.

Lemma progress_trans l s1 s2 s3 :
  progress l s1 s2 → progress (still_active s2.1 l) s2 s3 → progress l s1 s3.
Proof.
  intros [H1 H2 H4 H5 H6 H7 H8] [G1 G2 G4 G5 G6 G7 G8]. split; try congruence.
  - by rewrite still_active_trans in G1.
  - by eapply fills_to_trans.
  - intros id. rewrite G4, H4, (fills_to_touched (orders s1.1) (orders s2.1) (orders s3.1)) by done. tauto.
  - intros id. rewrite (fills_to_touched (orders s1.1) (orders s2.1) (orders s3.1)) by done.
    intros [?|Hid%G8]; [auto|]. by apply list_elem_of_filter in Hid as [_ ?].
Qed.

Lemma flow_untouched b l d t : dirty_inv b l d → untouched (orders b) → flow (orders b) t = 0.
Proof.
  intros Hb Hu. unfold flow. rewrite (msum_ext _ (λ _, 0)).
  - generalize (orders b). intros m. induction m as [|k v m Hk IH] using map_ind; [by rewrite msum_empty|].
    by rewrite msum_insert_new.
  - intros id o Ho. apply contribution_untouched; [by eapply orders_wf|by eapply Hu].
Qed.

Lemma balance_nonneg b l d t : dirty_inv b l d → 0 <= balance b t.
Proof.
  intros Hb. unfold balance. destruct (protocol_balances b !! t) eqn:E; simpl; [|lia].
  apply (bi_balances _ _ _ Hb) in E. u64.
Qed.

(** A match of two orders of opposite directions is covered, in every token. *)
Lemma matched_covered b l x y b' r ox oy s v :
  book_inv b l → matched b x y b' r ox oy s v →
  offered_token ox = requested_token oy → offered_token oy = requested_token ox → covered b b'.
Proof.
  intros Hb [Hne Hx Hy Hok Hord _ _ _ Hbal] E1 E2 t.
  pose proof (mo_sends _ _ _ _ _ _ _ Hok). pose proof (mo_receives _ _ _ _ _ _ _ Hok).
  pose proof (mo_surplus_a _ _ _ _ _ _ _ Hok). pose proof (mo_surplus_b _ _ _ _ _ _ _ Hok).
  destruct (mo_nonneg _ _ _ _ _ _ _ Hok).
  pose proof (orders_wf b l ∅ x ox Hb Hx) as Hwx. pose proof (orders_wf b l ∅ y oy Hb Hy) as Hwy.
  pose proof (contribution_fill t ox v Hwx ltac:(lia)) as Cx.
  pose proof (contribution_fill t oy s Hwy ltac:(lia)) as Cy.
  unfold flow. rewrite Hord.
  rewrite (msum_insert _ _ y oy) by (by rewrite lookup_insert_ne).
  rewrite (msum_insert _ _ x ox) by done.
  pose proof (add_balance_dirty b l ∅ (offered_token ox) (surplus_offered r) Hb) as Hb1.
  pose proof (balance_add_le b (offered_token ox) (surplus_offered r) t ltac:(lia)
    (balance_nonneg b l ∅ _ Hb)) as B1.
  pose proof (balance_add_le (add_protocol_balance b (offered_token ox) (surplus_offered r))
    (offered_token oy) (surplus_requested r) t ltac:(lia) (balance_nonneg _ l ∅ _ Hb1)) as B2.
  unfold balance in *. rewrite Hbal. rewrite E1, E2 in *. repeat case_decide; subst; lia || congruence.
Qed.
End solvency.
