(* ===== verification/DirectMatching.v ===== *)
(** * Direct matching (crates/solver/src/matching/direct_matching.rs)

    The greedy two-order phase: [collect_matchable_pairs], the loop [match_user_orders]
    and [run_direct_matching].  The loop takes fuel and returns [None] when it runs out;
    [match_user_orders_returns] shows that two more than the number of visible orders is
    always enough, so the phase as the source writes it terminates.

    A run is a sequence of [direct_step]s, on which the invariant, the solvency of the
    book and the exhaustion of the pairs are proved by induction. *)

From stdpp Require Import option relations.
From S2P Require Import Prelude.
From S2P Require Import Orders.
From S2P Require Import RateIndex.
From S2P Require Import PriceFeed.
From S2P Require Import OrderBook.
From S2P Require Import IndexInvariant.
From S2P Require Import BookInvariant.
From S2P Require Import BookOps.
From S2P Require Import BookQueries.
From S2P Require Import Fills.

(** ** Operations *)

Section operations.
Context {F : Type} `{!PriceFeed F} `{HI : HashIter}.
Implicit Types b : OrderBook F.

(** The state the phase threads: the book, the filled ids and the cycle count. *)
Record Run := mk_run { run_book : OrderBook F; run_filled : gset OrderId; run_cycles : Z }.

(** Pairs with orders in both directions, each once with the smaller token first. *)
Definition matchable (b : OrderBook F) (p : Pair) : bool :=
  negb (p.2 <=? p.1)%N && (has_orders b p.1 p.2 && has_orders b p.2 p.1).

Definition collect_matchable_pairs (b : OrderBook F) : list Pair :=
  let all_tokens := hash_iter 0 (tokens b) in
  let pairs : gset Pair :=
    foldl (λ acc token_a,
      foldl (λ acc token_b,
        if matchable b (token_a, token_b) then {[(token_a, token_b)]} ∪ acc else acc)
        acc all_tokens) ∅ all_tokens in
  hash_iter 1 pairs.

(** The body of the loop; the boolean is [false] on a [break]. *)
Definition match_best (r : Run) (token_a token_b : TokenId) : Run * bool :=
  let '(b, best_a) := best_order (run_book r) token_a token_b in
  match best_a with
  | None => (mk_run b (run_filled r) (run_cycles r), false)
  | Some order_a =>
    let '(b, best_b) := best_order b token_b token_a in
    match best_b with
    | None => (mk_run b (run_filled r) (run_cycles r), false)
    | Some order_b =>
      match price_cents (feed b) token_a, price_cents (feed b) token_b with
      | Some _, Some _ =>
        let '(b, result) := apply_match b (oid order_a) (oid order_b) in
        match result with
        | None => (mk_run b (run_filled r) (run_cycles r), false)
        | Some _ =>
          (mk_run b ({[oid order_b]} ∪ ({[oid order_a]} ∪ run_filled r)) (wrap64 (run_cycles r + 1)), true)
        end
      | _, _ => (mk_run b (run_filled r) (run_cycles r), false)
      end
    end
  end.

Fixpoint match_user_orders (fuel : nat) (r : Run) (token_a token_b : TokenId) : option Run :=
  match fuel with
  | O => None
  | S fuel =>
    let '(r, again) := match_best r token_a token_b in
    if again : bool then match_user_orders fuel r token_a token_b else Some r
  end.

(** The loop over the pairs. *)
Fixpoint match_pairs (fuel : nat) (pairs : list Pair) (r : Run) : option Run :=
  match pairs with
  | [] => Some r
  | (token_a, token_b) :: rest =>
    r' ← match_user_orders fuel (mk_run (run_book r) (run_filled r) 0) token_a token_b;
    match_pairs fuel rest (mk_run (run_book r') (run_filled r') (wrap64 (run_cycles r + run_cycles r')))
  end.

Definition run_direct_matching (fuel : nat) (b : OrderBook F) (filled : gset OrderId) : option Run :=
  match_pairs fuel (collect_matchable_pairs b) (mk_run b filled 0).

(** More fuel does not change a result. *)
Lemma match_user_orders_mono fuel fuel' r ta tb r' :
  (fuel <= fuel')%nat → match_user_orders fuel r ta tb = Some r' →
  match_user_orders fuel' r ta tb = Some r'.
Proof.
  revert fuel' r. induction fuel as [|fuel IH]; intros [|fuel'] r Hle; simpl; [done..|lia|].
  destruct (match_best r ta tb) as [r1 []]; [|done]. apply IH. lia.
Qed.

Lemma match_pairs_mono fuel fuel' pairs r r' :
  (fuel <= fuel')%nat → match_pairs fuel pairs r = Some r' → match_pairs fuel' pairs r = Some r'.
Proof.
  intros Hle. revert r. induction pairs as [|[ta tb] pairs IH]; intros r; simpl; [done|].
  destruct (match_user_orders fuel _ ta tb) as [r1|] eqn:E; [|done]. simpl.
  rewrite (match_user_orders_mono _ _ _ _ _ _ Hle E). simpl. apply IH.
Qed.

Lemma run_direct_matching_mono fuel fuel' b f r :
  (fuel <= fuel')%nat → run_direct_matching fuel b f = Some r → run_direct_matching fuel' b f = Some r.
Proof. apply match_pairs_mono. Qed.
End operations.

Arguments Run : clear implicits.

(** ** A run as a sequence of steps *)

Section steps.
Context {F : Type} `{!PriceFeed F}.
Implicit Types b : OrderBook F.

Definition priced b (t : TokenId) : Prop := is_Some (price_cents (feed b) t).

(** One successful turn of the loop for the pair [p]: the best orders of the two
    directions match. *)
Inductive direct_step (p : Pair) : OrderBook F * gset OrderId → OrderBook F * gset OrderId → Prop :=
| direct_step_intro b filled ox oy b' r :
    best_order b p.1 p.2 = (b, Some ox) → best_order b p.2 p.1 = (b, Some oy) →
    priced b p.1 → priced b p.2 →
    apply_match b (oid ox) (oid oy) = (b', Some r) →
    direct_step p (b, filled) (b', {[oid oy]} ∪ ({[oid ox]} ∪ filled)).

(** What a turn gives on a book that satisfies the invariant. *)
Record turn (p : Pair) b b' l (ox oy : Order) (r : MatchResult) (s v : Z) : Prop := {
  tu_x : visible b (oid ox) ox;
  tu_y : visible b (oid oy) oy;
  tu_px : pair_of ox = p;
  tu_py : pair_of oy = (p.2, p.1);
  tu_head : head (ranked b l p) = Some (oid ox);
  tu_matched : matched b (oid ox) (oid oy) b' r ox oy s v;
  tu_inv : book_inv b' (still_active b' l);
  tu_fills : fills_to (orders b) (orders b');
}.

Lemma direct_step_applied p b f b' f' l :
  book_inv b l → direct_step p (b, f) (b', f') →
  ∃ ox oy r s v, turn p b b' l ox oy r s v ∧ f' = {[oid oy]} ∪ ({[oid ox]} ∪ f) ∧
    apply_match b (oid ox) (oid oy) = (b', Some r).
Proof.
  intros Hb Hs. inversion Hs as [b0 f0 ox oy b0' r Hx Hy _ _ Hm]; subst.
  apply (best_order_Some b l) in Hx as (_ & Hvx & Hpx & Hhx); [|done].
  apply (best_order_Some b l) in Hy as (_ & Hvy & Hpy & _); [|done].
  destruct (apply_match_matched b l ∅ _ _ _ _ Hb Hm) as (ox' & oy' & s & v & Hma).
  assert (ox' = ox) as -> by (destruct Hma as [_ ? _ _ _ _ _ _ _], Hvx; congruence).
  assert (oy' = oy) as -> by (destruct Hma as [_ _ ? _ _ _ _ _ _], Hvy; congruence).
  exists ox, oy, r, s, v. split_and!; [|done|done]. rewrite <-surjective_pairing in Hpx, Hhx. split; try done.
  - eapply (apply_match_inv b l (oid ox) (oid oy)); [done|by eapply visible_live..|done].
  - by eapply matched_fills.
Qed.

Lemma direct_step_turn p b f b' f' l :
  book_inv b l → direct_step p (b, f) (b', f') →
  ∃ ox oy r s v, turn p b b' l ox oy r s v ∧ f' = {[oid oy]} ∪ ({[oid ox]} ∪ f).
Proof.
  intros Hb Hs. destruct (direct_step_applied p b f b' f' l Hb Hs) as (ox & oy & r & s & v & Ht & Hf & _). eauto 10.
Qed.

Lemma turn_covered p b b' l ox oy r s v :
  book_inv b l → turn p b b' l ox oy r s v → covered b b'.
Proof.
  intros Hb [_ _ Hpx Hpy _ Hm _ _]. apply (matched_covered b l (oid ox) (oid oy) b' r ox oy s v); try done;
    unfold pair_of in *; destruct p; simpl in *; congruence.
Qed.

(** A step that touches one pair leaves the ranking of every other pair alone. *)
Lemma turn_ranked p b b' l ox oy r s v q :
  book_inv b l → turn p b b' l ox oy r s v → q ≠ p → q ≠ (p.2, p.1) →
  ranked b' (still_active b' l) q = ranked b l q ∧
  (∀ id o, orders b !! id = Some o → pair_of o = q → orders b' !! id = Some o).
Proof.
  intros Hb [[Hx _] [Hy _] Hpx Hpy _ Hm _ Hf] Hq Hq'.
  assert (∀ id o, orders b !! id = Some o → pair_of o = q → orders b' !! id = Some o) as Hsame.
  { intros id o Ho Hp. rewrite (ma_orders _ _ _ _ _ _ _ _ _ Hm).
    rewrite !lookup_insert_ne; [done|intros <-; congruence..]. }
  split; [|done]. by apply ranked_untouched.
Qed.

(** ** Exhausted pairs *)

(** The best orders of the two directions of a pair do not match (any more). *)
Definition exhausted b (p : Pair) : Prop :=
  ∀ ox oy, (best_order b p.1 p.2).2 = Some ox → (best_order b p.2 p.1).2 = Some oy →
    priced b p.1 → priced b p.2 → (match_with ox oy).1.1 = None.

Lemma apply_match_result b x y ox oy :
  x ≠ y → orders b !! x = Some ox → orders b !! y = Some oy →
  (apply_match b x y).2 = (match_with ox oy).1.1.
Proof.
  intros Hne Hx Hy. unfold apply_match. rewrite decide_False, Hx, Hy by done.
  by destruct (match_with ox oy) as [[[r|] ox'] oy'].
Qed.

Lemma apply_match_None b x y : (apply_match b x y).2 = None → (apply_match b x y).1 = b.
Proof. unfold apply_match. repeat case_match; done. Qed.

Lemma best_order_other b b' l l' x y :
  book_inv b l → book_inv b' l' → ranked b' l' (x, y) = ranked b l (x, y) →
  (∀ id o, orders b !! id = Some o → pair_of o = (x, y) → orders b' !! id = Some o) →
  (best_order b' x y).2 = (best_order b x y).2.
Proof.
  intros Hb Hb' Hr Hsame. rewrite (best_order_eq b l), (best_order_eq b' l'), Hr by done. simpl.
  destruct (ranked b l (x, y)) as [|id r] eqn:Hrk; [done|]. simpl.
  assert (id ∈ ranked b l (x, y)) as Hin by (rewrite Hrk; set_solver).
  apply (elem_of_ranked b l _ id Hb) in Hin as (o & (Ho & _) & Hp).
  by rewrite Ho, (Hsame id o).
Qed.

Lemma turn_exhausted p b b' l ox oy r s v q :
  book_inv b l → turn p b b' l ox oy r s v → q ≠ p → q ≠ (p.2, p.1) →
  exhausted b q → exhausted b' q.
Proof.
  intros Hb Ht Hq Hq' Hex. pose proof (tu_inv _ _ _ _ _ _ _ _ _ Ht) as Hb'.
  destruct (turn_ranked _ _ _ _ _ _ _ _ _ q Hb Ht Hq Hq') as [R1 S1].
  destruct (turn_ranked _ _ _ _ _ _ _ _ _ (q.2, q.1) Hb Ht) as [R2 S2].
  { intros <-. by destruct q. } { destruct p, q; simpl in *. congruence. }
  intros ox' oy'. rewrite (surjective_pairing q) in R1, S1.
  rewrite (best_order_other b b' l _ q.1 q.2) by done.
  rewrite (best_order_other b b' l _ q.2 q.1) by done.
  unfold priced. rewrite (ma_feed _ _ _ _ _ _ _ _ _ (tu_matched _ _ _ _ _ _ _ _ _ Ht)). apply Hex.
Qed.

(** ** One turn of the loop *)

Lemma match_best_true r p r' l :
  book_inv (run_book r) l → match_best r p.1 p.2 = (r', true) →
  direct_step p (run_book r, run_filled r) (run_book r', run_filled r') ∧
  run_cycles r' = wrap64 (run_cycles r + 1).
Proof.
  intros Hb. unfold match_best. rewrite !(best_order_eq (run_book r) l) by done.
  destruct (_ ≫= _) as [ox|] eqn:Hx; [|done]. simpl. rewrite ?(best_order_eq (run_book r) l) by done.
  destruct (head (ranked _ _ (p.2, p.1)) ≫= _) as [oy|] eqn:Hy; [|done].
  destruct (price_cents _ p.1) eqn:P1; [|done]. destruct (price_cents _ p.2) eqn:P2; [|done].
  destruct (apply_match _ _ _) as [b' [res|]] eqn:Hm; [|done]. intros [= <-]. simpl.
  split; [|done]. apply (direct_step_intro p (run_book r) (run_filled r) ox oy b' res).
  - rewrite (best_order_eq _ l) by done. by rewrite Hx.
  - rewrite (best_order_eq _ l) by done. by rewrite Hy.
  - unfold priced. rewrite P1. by eexists.
  - unfold priced. rewrite P2. by eexists.
  - done.
Qed.

Lemma match_best_false r p r' l :
  book_inv (run_book r) l → p.1 ≠ p.2 → match_best r p.1 p.2 = (r', false) →
  r' = r ∧ exhausted (run_book r) p.
Proof.
  intros Hb Hne. unfold match_best, exhausted.
  rewrite !(best_order_eq (run_book r) l) by done. simpl.
  assert (r = mk_run (run_book r) (run_filled r) (run_cycles r)) as Hr by (by destruct r).
  destruct (head (ranked (run_book r) l (p.1, p.2)) ≫= _) as [ox|] eqn:Hx; [|by intros [= <-]].
  simpl. rewrite ?(best_order_eq (run_book r) l) by done.
  destruct (head (ranked (run_book r) l (p.2, p.1)) ≫= _) as [oy|] eqn:Hy; [|by intros [= <-]].
  destruct (price_cents _ p.1) eqn:P1; [|intros [= <-]; split; [done|]; unfold priced; intros ? ? _ _ [? ?]; congruence].
  destruct (price_cents _ p.2) eqn:P2; [|intros [= <-]; split; [done|]; unfold priced; intros ? ? _ _ _ [? ?]; congruence].
  destruct (apply_match _ _ _) as [b' [res|]] eqn:Hm; [done|]. intros [= <-].
  pose proof (apply_match_None (run_book r) (oid ox) (oid oy)) as Hb'. rewrite Hm in Hb'. simpl in Hb'.
  rewrite Hb' by done. split; [done|]. intros ox' oy' [= <-] [= <-] _ _.
  assert (best_order (run_book r) p.1 p.2 = (run_book r, Some ox)) as Bx
    by (rewrite (best_order_eq _ l) by done; by rewrite Hx).
  assert (best_order (run_book r) p.2 p.1 = (run_book r, Some oy)) as By
    by (rewrite (best_order_eq _ l) by done; by rewrite Hy).
  apply (best_order_Some _ l) in Bx as (_ & (Hox & _) & Hpx & _); [|done].
  apply (best_order_Some _ l) in By as (_ & (Hoy & _) & Hpy & _); [|done].
  rewrite <-(apply_match_result (run_book r) (oid ox) (oid oy)); [by rewrite Hm| |done..].
  intros Heq. rewrite Heq in Hox. assert (ox = oy) as -> by congruence. congruence.
Qed.
End steps.

(** ** The loop *)

Section loop.
Context {F : Type} `{!PriceFeed F}.
Implicit Types b : OrderBook F.

(** Once the best order of the first direction releases nothing more, the loop ends. *)
Lemma match_best_stuck r p l id o :
  book_inv (run_book r) l → head (ranked (run_book r) l p) = Some id →
  orders (run_book r) !! id = Some o → offered_remaining o = 0 → (match_best r p.1 p.2).2 = false.
Proof.
  intros Hb Hh Ho Hz. destruct (match_best r p.1 p.2) as [r' again] eqn:Hm. simpl.
  destruct again; [|done]. exfalso. apply (match_best_true r p r' l) in Hm as [Hs _]; [|done].
  apply (direct_step_turn p _ _ _ _ l) in Hs as (ox & oy & res & s & v & Ht & _); [|done].
  destruct Ht as [(Hx & _) (Hy & _) _ _ Hh' Hma _ _]. rewrite Hh in Hh'. injection Hh' as ->.
  assert (ox = o) as -> by congruence.
  destruct Hma as [_ _ _ [Hs Hv _ _ Hsa _ [? ?] _] _ _ _ _ _].
  pose proof (orders_wf _ l ∅ _ _ Hb Ho) as Hwf. pose proof Hwf as (_ & _ & ?).
  pose proof (offered_for_mono o v (requested_remaining o) Hwf ltac:(lia) ltac:(lia)).
  unfold offered_remaining in Hz. lia.
Qed.

(** A turn either takes an id off the list or makes the next turn the last. *)
Lemma turn_progress p b b' l ox oy r s v :
  book_inv b l → turn p b b' l ox oy r s v →
  (length (still_active b' l) < length l)%nat ∨
  ∃ o', head (ranked b' (still_active b' l) p) = Some (oid ox) ∧
    orders b' !! oid ox = Some o' ∧ offered_remaining o' = 0.
Proof.
  intros Hb [Hx Hy _ _ Hh Hm _ Hf].
  pose proof (visible_live b l _ _ Hb Hx) as Hlx. pose proof (visible_live b l _ _ Hb Hy) as Hly.
  destruct Hm as [Hne _ _ Hok Hord _ _ _ _].
  assert (∀ id o, id ∈ l → orders b' !! id = Some o → requested_remaining o = 0 →
    (length (still_active b' l) < length l)%nat) as Hdrop.
  { intros id o Hid Ho Hz. apply (length_still_active_lt b' l id Hid).
    unfold id_active, is_active. by rewrite Ho, Hz. }
  set (ox' := set_remaining ox (requested_remaining ox - v)) in *.
  assert (orders b' !! oid ox = Some ox') as Hx' by (by rewrite Hord, lookup_insert_ne, lookup_insert_eq).
  destruct (mo_progress _ _ _ _ _ _ _ Hok) as [Hz|Hz].
  { left. eapply (Hdrop (oid oy)); [done| |exact Hz]. by rewrite Hord, lookup_insert_eq. }
  destruct (decide (requested_remaining ox' = 0)) as [Hz'|Hnz]; [left; eauto|].
  right. exists ox'. split_and!; try done. rewrite (ranked_fills b b' l p Hb Hf).
  destruct (ranked b l p) as [|i rk]; [done|]. simpl in Hh. simplify_eq.
  rewrite filter_cons_True; [done|]. unfold id_active. rewrite Hx'. apply Z.ltb_lt.
  pose proof (mo_receives _ _ _ _ _ _ _ Hok). simpl in *. lia.
Qed.

(** With fuel for every visible order and two more, the loop returns, having done a
    sequence of matches, and leaves the pair exhausted. *)
Lemma match_user_orders_ok fuel r l p :
  book_inv (run_book r) l → p.1 ≠ p.2 → (length l + 2 <= fuel)%nat →
  ∃ r', match_user_orders fuel r p.1 p.2 = Some r' ∧
    rtc (direct_step p) (run_book r, run_filled r) (run_book r', run_filled r') ∧
    exhausted (run_book r') p.
Proof.
  intros Hb Hp. revert r l Hb. induction fuel as [|fuel IH]; intros r l Hb Hfuel; [lia|]. simpl.
  destruct (match_best r p.1 p.2) as [r1 again] eqn:Hm. destruct again.
  2: { apply (match_best_false r p r1 l) in Hm as [-> ?]; [|done..]. exists r. by split_and!. }
  apply (match_best_true r p r1 l) in Hm as [Hs _]; [|done].
  destruct (direct_step_turn p _ _ _ _ l Hb Hs) as (ox & oy & res & s & v & Ht & _).
  pose proof (tu_inv _ _ _ _ _ _ _ _ _ Ht) as Hb1.
  destruct (turn_progress _ _ _ _ _ _ _ _ _ Hb Ht) as [Hlt|(o' & Hh & Ho' & Hz)].
  - destruct (IH r1 _ Hb1 ltac:(lia)) as (r2 & -> & Hr2 & Hex). exists r2. split_and!; try done.
    by eapply rtc_l.
  - pose proof (match_best_stuck r1 p _ _ _ Hb1 Hh Ho' Hz) as Hstop.
    destruct fuel as [|fuel]; [lia|]. simpl.
    destruct (match_best r1 p.1 p.2) as [r2 again] eqn:Hm2. simpl in Hstop. subst again.
    apply (match_best_false r1 p r2 _ Hb1 Hp) in Hm2 as [-> ?]. exists r1. split_and!; try done.
    by apply rtc_once.
Qed.

(** ** What a sequence of steps keeps *)

Lemma matched_touched b x y b' r ox oy s v id :
  matched b x y b' r ox oy s v → orders b' !! id ≠ orders b !! id ↔ id = x ∨ id = y.
Proof.
  intros [Hne Hx Hy Hok Hord _ _ _ _]. rewrite Hord.
  pose proof (mo_sends _ _ _ _ _ _ _ Hok). pose proof (mo_receives _ _ _ _ _ _ _ Hok).
  destruct (decide (id = y)) as [->|]; [|destruct (decide (id = x)) as [->|]].
  - rewrite lookup_insert_eq, Hy. split; [by right|]. intros _ [= E].
    apply (f_equal requested_remaining) in E. simpl in E. lia.
  - rewrite lookup_insert_ne, lookup_insert_eq, Hx by done. split; [by left|]. intros _ [= E].
    apply (f_equal requested_remaining) in E. simpl in E. lia.
  - rewrite !lookup_insert_ne by done. tauto.
Qed.

Lemma turn_progress_all p b b' l f ox oy r s v :
  book_inv b l → turn p b b' l ox oy r s v →
  progress l (b, f) (b', {[oid oy]} ∪ ({[oid ox]} ∪ f)).
Proof.
  intros Hb Ht. destruct Ht as [Hx Hy _ _ _ Hm ? ?]. pose proof Hm as [_ _ _ _ _ ? ? ? _]. split; simpl; try done.
  - intros id. rewrite (matched_touched _ _ _ _ _ _ _ _ _ id Hm). set_solver.
  - intros id. rewrite (matched_touched _ _ _ _ _ _ _ _ _ id Hm). intros [->| ->]; by eapply visible_live.
Qed.

Lemma direct_steps_progress p s s' l :
  rtc (direct_step p) s s' → book_inv s.1 l →
  progress l s s' ∧ covered s.1 s'.1 ∧
  ∀ q, q ≠ p → q ≠ (p.2, p.1) → exhausted s.1 q → exhausted s'.1 q.
Proof.
  intros Hs. revert l. induction Hs as [s|[b f] [b1 f1] [b2 f2] Hst Hs IH]; intros l Hb; simpl in *.
  { split_and!; [by apply progress_refl|apply covered_refl|done]. }
  destruct (direct_step_turn p _ _ _ _ l Hb Hst) as (ox & oy & r & s & v & Ht & ->).
  pose proof (turn_progress_all _ _ _ _ f _ _ _ _ _ Hb Ht) as Hp1.
  destruct (IH _ (pr_inv _ _ _ Hp1)) as (Hp2 & Hc & Hex).
  split_and!; [by eapply progress_trans|by eapply covered_trans, Hc; eapply turn_covered|].
  intros q Hq Hq' Hx. eapply Hex; [done..|]. by eapply turn_exhausted.
Qed.
End loop.

(** ** The phase *)

Section phase.
Context {F : Type} `{!PriceFeed F} `{HI : HashIter}.
Implicit Types b : OrderBook F.

(** Inserting the elements a test selects. *)
Lemma elem_of_fold_select {A B} `{Countable B} (f : A → B) (P : A → bool) (l : list A) (acc : gset B) y :
  y ∈ foldl (λ acc x, if P x then {[f x]} ∪ acc else acc) acc l ↔
  y ∈ acc ∨ ∃ x, x ∈ l ∧ P x = true ∧ y = f x.
Proof.
  revert acc. induction l as [|x l IH]; intros acc; simpl; [set_solver|]. rewrite IH.
  setoid_rewrite elem_of_cons. destruct (P x) eqn:E; rewrite ?elem_of_union, ?elem_of_singleton.
  - split; [intros [[->|?]|(z & ? & ? & ?)] | intros [?|(z & [->|?] & ? & ?)]]; eauto 6.
  - split; [intros [?|(z & ? & ? & ?)] | intros [?|(z & [->|?] & ? & ?)]]; eauto 6. congruence.
Qed.

Lemma elem_of_collect_fold b (l1 l2 : list TokenId) (acc : gset Pair) p :
  p ∈ foldl (λ acc token_a,
      foldl (λ acc token_b,
        if matchable b (token_a, token_b) then {[(token_a, token_b)]} ∪ acc else acc) acc l2) acc l1 ↔
  p ∈ acc ∨ p.1 ∈ l1 ∧ p.2 ∈ l2 ∧ matchable b p = true.
Proof.
  revert acc. induction l1 as [|x l1 IH]; intros acc; simpl; [rewrite elem_of_nil; tauto|].
  rewrite IH, (elem_of_fold_select (λ y, (x, y)) (λ y, matchable b (x, y))).
  destruct p as [p1 p2]. simpl. rewrite elem_of_cons. split.
  - intros [[?|(y & ? & ? & [= -> ->])]|?]; tauto.
  - intros [?|([->|?] & ? & ?)]; [tauto| |tauto]. left. right. eauto.
Qed.

Lemma elem_of_collect b l p :
  book_inv b l → p ∈ collect_matchable_pairs b ↔
  (p.1 < p.2)%N ∧ has_orders b p.1 p.2 = true ∧ has_orders b p.2 p.1 = true.
Proof.
  intros Hb. unfold collect_matchable_pairs.
  rewrite hash_iter_perm, elem_of_elements, elem_of_collect_fold, !hash_iter_perm, !elem_of_elements.
  unfold matchable. rewrite !andb_true_iff, negb_true_iff, N.leb_gt. split.
  - intros [?|(_ & _ & ?)]; [set_solver|tauto].
  - intros (Hlt & H1 & H2). right. split_and!; try done.
    all: by apply (has_orders_tokens b l) in H1 as [? ?].
Qed.

Lemma NoDup_collect b : NoDup (collect_matchable_pairs b).
Proof. unfold collect_matchable_pairs. rewrite hash_iter_perm. apply NoDup_elements. Qed.

(** A pair with an empty side is exhausted. *)
Lemma exhausted_empty b l p :
  book_inv b l → has_orders b p.1 p.2 && has_orders b p.2 p.1 = false → exhausted b p.
Proof.
  intros Hb Hno ox oy. rewrite !(best_order_eq b l) by done. simpl.
  rewrite !(has_orders_length b l) in Hno by done.
  apply andb_false_iff in Hno as [Hno|Hno]; apply bool_decide_eq_false, dec_stable in Hno;
    rewrite Hno; done.
Qed.

(** The loop over the pairs returns, exhausts the pairs it visits and keeps the pairs
    that were already exhausted. *)
Lemma match_pairs_ok fuel pairs r l :
  book_inv (run_book r) l → (length l + 2 <= fuel)%nat →
  (∀ p, p ∈ pairs → (p.1 < p.2)%N) → NoDup pairs →
  ∃ r', match_pairs fuel pairs r = Some r' ∧
    progress l (run_book r, run_filled r) (run_book r', run_filled r') ∧
    covered (run_book r) (run_book r') ∧
    ∀ q, (q.1 < q.2)%N → q ∈ pairs ∨ exhausted (run_book r) q → exhausted (run_book r') q.
Proof.
  revert r l. induction pairs as [|p pairs IH]; intros r l Hb Hfuel Hlt Hnd; simpl.
  { exists r. split_and!; [done|by apply progress_refl|apply covered_refl|set_solver]. }
  assert (p.1 < p.2)%N as Hp by (apply Hlt; set_solver).
  apply NoDup_cons in Hnd as [Hnotin Hnd].
  destruct (match_user_orders_ok fuel (mk_run (run_book r) (run_filled r) 0) l p)
    as (r1 & E1 & Hsteps & Hex1); [done|lia|done|].
  destruct (direct_steps_progress p _ _ l Hsteps Hb) as (Hp1 & Hc1 & Hkeep). simpl in *.
  pose proof (length_still_active (run_book r1) l).
  destruct (IH (mk_run (run_book r1) (run_filled r1) (wrap64 (run_cycles r + run_cycles r1))) _
    (pr_inv _ _ _ Hp1)) as (r2 & E2 & Hp2 & Hc2 & Hex2); [simpl; lia|intros q Hq; apply Hlt; set_solver|done|].
  destruct p as [p1 p2]. simpl in *. rewrite E1. simpl. exists r2.
  split_and!; [done|by eapply progress_trans|by eapply covered_trans|].
  intros q Hq Hor. apply Hex2; [done|].
  destruct (decide (q = (p1, p2))) as [->|Hne]; [by right|].
  destruct Hor as [[?|?]%elem_of_cons|Hx]; [done|by left|]. right. apply Hkeep; [done| |done].
  intros ->. simpl in Hq. lia.
Qed.

Lemma run_direct_matching_ok fuel b f l :
  book_inv b l → (length l + 2 <= fuel)%nat →
  ∃ r, run_direct_matching fuel b f = Some r ∧ progress l (b, f) (run_book r, run_filled r) ∧
    covered b (run_book r) ∧ ∀ p, (p.1 < p.2)%N → exhausted (run_book r) p.
Proof.
  intros Hb Hfuel. destruct (match_pairs_ok fuel (collect_matchable_pairs b) (mk_run b f 0) l)
    as (r & E & Hp & Hc & Hex); simpl; [done|done| |apply NoDup_collect|].
  { intros p Hp. by apply (elem_of_collect b l p Hb) in Hp as [? _]. }
  exists r. split_and!; [done..|]. intros p Hlt. apply Hex; [done|].
  destruct (has_orders b p.1 p.2 && has_orders b p.2 p.1) eqn:Hh.
  - left. apply andb_true_iff in Hh. by apply (elem_of_collect b l p Hb).
  - right. by eapply exhausted_empty.
Qed.
End phase.
