(* ===== verification/ThreeEdgeCycle.v ===== *)
(** * Triangular matching (crates/solver/src/matching/three_edge_cycle.rs)

    The three-order phase: enumerate the profitable triangles of the book, keep them in a
    heap by surplus, execute the best and re-evaluate the triangles it touched.

    [book.orders[&id]] panics on a missing id: the definitions that index are partial,
    with [None] for the panic, and the main loop is also [None] when its fuel runs out.
    CycleProofs.v shows that neither happens. *)

From stdpp Require Import option.
From S2P Require Import Prelude.
From S2P Require Import Orders.
From S2P Require Import RateIndex.
From S2P Require Import PriceFeed.
From S2P Require Import OrderBook.

(** ** Data *)

(** A triangle rotated so that its smallest token comes first. *)
Record Triangle := mk_triangle { tri_a : TokenId; tri_b : TokenId; tri_c : TokenId }.

#[export] Instance triangle_eq_dec : EqDecision Triangle.
Proof. solve_decision. Defined.
#[export] Instance triangle_countable : Countable Triangle.
Proof.
  apply (inj_countable' (λ t, (tri_a t, tri_b t, tri_c t)) (λ x, mk_triangle x.1.1 x.1.2 x.2)).
  by intros [].
Defined.

Definition canonical (a b c : TokenId) : Triangle :=
  if (a <=? b)%N && (a <=? c)%N then mk_triangle a b c
  else if (b <=? a)%N && (b <=? c)%N then mk_triangle b c a
  else mk_triangle c a b.

Definition triangle_pairs (t : Triangle) : list Pair :=
  [(tri_a t, tri_b t); (tri_b t, tri_c t); (tri_c t, tri_a t)].

(** Heap entry; entries are compared by their surplus alone. *)
Record CycleEntry := mk_entry {
  ce_triangle : Triangle;
  ce_ab : OrderId;
  ce_bc : OrderId;
  ce_ca : OrderId;
  ce_surplus : Z;
}.

Inductive BottleneckLeg := AB | BC | CA.

Record FillResult := mk_fills {
  fill_a : Z; fill_b : Z; fill_c : Z;
  surplus_a : Z; surplus_b : Z; surplus_c : Z;
}.

Record CycleSimulation := mk_simulation { sim_fills : FillResult; sim_surplus : Z }.

(** [std::collections::BinaryHeap]: the list is the heap's content.  [pop] returns an
    entry of maximal surplus; which one among equals, and the layout of the rest, are
    left to the instance. *)
Class CycleHeap := {
  heap_of : list CycleEntry → list CycleEntry;
  heap_push : CycleEntry → list CycleEntry → list CycleEntry;
  heap_pop : list CycleEntry → option (CycleEntry * list CycleEntry);
  heap_of_perm : ∀ l, heap_of l ≡ₚ l;
  heap_push_perm : ∀ e h, heap_push e h ≡ₚ e :: h;
  heap_pop_None : ∀ h, heap_pop h = None ↔ h = [];
  heap_pop_Some : ∀ h e h', heap_pop h = Some (e, h') →
    h ≡ₚ e :: h' ∧ ∀ e', e' ∈ h' → ce_surplus e' <= ce_surplus e;
}.

(** ** Simulation *)

(** One leg: consume the input up to the remaining capacity. *)
Definition fill_leg (o : Order) (input : Z) : Z * Z :=
  let filled := Z.min input (requested_remaining o) in (filled, offered_for o filled).

(** Fill leg 0 (the bottleneck) completely and pass each release on to the next leg. *)
Definition simulate_cycle_fills (leg0 leg1 leg2 : Order) : option ((Z * Z) * (Z * Z) * (Z * Z)) :=
  let filled_0 := requested_remaining leg0 in
  let released_0 := offered_for leg0 filled_0 in
  let '(filled_1, released_1) := fill_leg leg1 released_0 in
  let '(filled_2, released_2) := fill_leg leg2 released_1 in
  if (filled_0 =? 0) || (filled_1 =? 0) || (filled_2 =? 0) then None
  else Some ((filled_0, released_0), (filled_1, released_1), (filled_2, released_2)).

(** The per-token (released, fill) pairs, in the order of tokens A, B, C. *)
Definition simulate_legs (order_ab order_bc order_ca : Order) (bottleneck : BottleneckLeg)
    : option ((Z * Z) * (Z * Z) * (Z * Z)) :=
  match bottleneck with
  | AB =>
    '(l0, l1, l2) ← simulate_cycle_fills order_ab order_ca order_bc;
    Some ((l0.2, l1.1), (l2.2, l0.1), (l1.2, l2.1))
  | BC =>
    '(l0, l1, l2) ← simulate_cycle_fills order_bc order_ab order_ca;
    Some ((l1.2, l2.1), (l0.2, l1.1), (l2.2, l0.1))
  | CA =>
    '(l0, l1, l2) ← simulate_cycle_fills order_ca order_bc order_ab;
    Some ((l2.2, l0.1), (l1.2, l2.1), (l0.2, l1.1))
  end.

Definition simulate_cycle (order_ab order_bc order_ca : Order) (bottleneck : BottleneckLeg)
    : option FillResult :=
  '((released_a, fill_a), (released_b, fill_b), (released_c, fill_c)) ←
    simulate_legs order_ab order_bc order_ca bottleneck;
  Some (mk_fills fill_a fill_b fill_c
    (released_a ∸ fill_a) (released_b ∸ fill_b) (released_c ∸ fill_c)).

Definition find_bottleneck (usd_ab usd_bc usd_ca : Z) : BottleneckLeg :=
  if (usd_ab <=? usd_bc) && (usd_ab <=? usd_ca) then AB
  else if usd_bc <=? usd_ca then BC
  else CA.

(** The simulation of three given orders under given prices. *)
Definition simulate_orders (order_ab order_bc order_ca : Order) (price_a price_b price_c : Z)
    : option CycleSimulation :=
  let usd_ab := requested_remaining order_ab * price_b in
  let usd_bc := requested_remaining order_bc * price_c in
  let usd_ca := requested_remaining order_ca * price_a in
  let bottleneck := find_bottleneck usd_ab usd_bc usd_ca in
  let bottleneck_usd := match bottleneck with AB => usd_ab | BC => usd_bc | CA => usd_ca end in
  if bottleneck_usd =? 0 then None
  else
    fills ← simulate_cycle order_ab order_bc order_ca bottleneck;
    let surplus_usd :=
      sat_add128 (sat_add128 (sat_mul128 (surplus_a fills) price_a) (sat_mul128 (surplus_b fills) price_b))
        (sat_mul128 (surplus_c fills) price_c) in
    Some (mk_simulation fills surplus_usd).

(** The fast profitability filter: the triple products decide when both fit in 128 bits. *)
Definition unprofitable (order_ab order_bc order_ca : Order) : bool :=
  let lhs := p ← checked_mul128 (offered order_ab) (offered order_bc);
             checked_mul128 p (offered order_ca) in
  let rhs := p ← checked_mul128 (requested order_ab) (requested order_bc);
             checked_mul128 p (requested order_ca) in
  match lhs, rhs with
  | Some lhs, Some rhs => lhs <=? rhs
  | _, _ => false
  end.

Section phase.
Context {F : Type} `{!PriceFeed F} `{HI : HashIter} `{CH : CycleHeap}.
Implicit Types b : OrderBook F.

Definition simulate_full_cycle (b : OrderBook F) (id_ab id_bc id_ca : OrderId)
    : option (option CycleSimulation) :=
  order_ab ← orders b !! id_ab;
  order_bc ← orders b !! id_bc;
  order_ca ← orders b !! id_ca;
  Some
    (if negb (is_active order_ab) || negb (is_active order_bc) || negb (is_active order_ca) then None
     else match price_cents (feed b) (offered_token order_ab),
                price_cents (feed b) (requested_token order_ab),
                price_cents (feed b) (requested_token order_bc) with
     | Some price_a, Some price_b, Some price_c =>
       simulate_orders order_ab order_bc order_ca price_a price_b price_c
     | _, _, _ => None
     end).

(** ** Building entries *)

Definition build_entry (b : OrderBook F) (triangle : Triangle) (id_ab id_bc id_ca : OrderId)
    : option (option CycleEntry) :=
  order_ab ← orders b !! id_ab;
  order_bc ← orders b !! id_bc;
  order_ca ← orders b !! id_ca;
  if unprofitable order_ab order_bc order_ca then Some None
  else
    simulation ← simulate_full_cycle b id_ab id_bc id_ca;
    Some match simulation with
    | None => None
    | Some simulation =>
      if sim_surplus simulation =? 0 then None
      else Some (mk_entry triangle id_ab id_bc id_ca (sim_surplus simulation))
    end.

Definition try_build_entry (b : OrderBook F) (triangle : Triangle)
    : option (OrderBook F * option CycleEntry) :=
  let '(b, best_ab) := best_order b (tri_a triangle) (tri_b triangle) in
  match best_ab with
  | None => Some (b, None)
  | Some order_ab =>
    let '(b, best_bc) := best_order b (tri_b triangle) (tri_c triangle) in
    match best_bc with
    | None => Some (b, None)
    | Some order_bc =>
      let '(b, best_ca) := best_order b (tri_c triangle) (tri_a triangle) in
      match best_ca with
      | None => Some (b, None)
      | Some order_ca =>
        entry ← build_entry b triangle (oid order_ab) (oid order_bc) (oid order_ca);
        Some (b, entry)
      end
    end
  end.

(** The state of the enumeration. *)
Record Enum := mk_enum {
  en_book : OrderBook F;
  en_seen : gset Triangle;
  en_by_pair : gmap Pair (list Triangle);
  en_entries : list CycleEntry;
}.

(** [map.entry(pair).or_default().push(triangle)] for the three pairs. *)
Definition index_triangle (t : Triangle) (m : gmap Pair (list Triangle)) : gmap Pair (list Triangle) :=
  foldl (λ m p, <[p := default [] (m !! p) ++ [t]]> m) m (triangle_pairs t).

(** The body of the innermost loop. *)
Definition enumerate_one (token_a token_b token_c : TokenId) (e : Enum) : option Enum :=
  if (token_c =? token_a)%N || (token_c =? token_b)%N then Some e
  else if negb (has_orders (en_book e) token_c token_a) then Some e
  else
    let triangle := canonical token_a token_b token_c in
    if bool_decide (triangle ∈ en_seen e) then Some e
    else
      let seen := {[triangle]} ∪ en_seen e in
      '(b, entry) ← try_build_entry (en_book e) triangle;
      Some match entry with
      | None => mk_enum b seen (en_by_pair e) (en_entries e)
      | Some entry =>
        mk_enum b seen (index_triangle triangle (en_by_pair e)) (en_entries e ++ [entry])
      end.

(** A [for] loop whose body may panic. *)
Fixpoint for_each {A S} (l : list A) (body : A → S → option S) (s : S) : option S :=
  match l with
  | [] => Some s
  | x :: r => s ← body x s; for_each r body s
  end.

Definition enumerate_triangles (b : OrderBook F) : option Enum :=
  for_each (hash_iter 2 (tokens b)) (λ token_b e,
    let incoming := incoming_neighbors (3 + 2 * token_b) (en_book e) token_b in
    let outgoing := neighbors (4 + 2 * token_b) (en_book e) token_b in
    for_each incoming (λ token_a e,
      for_each outgoing (λ token_c e, enumerate_one token_a token_b token_c e) e) e)
    (mk_enum b ∅ ∅ []).

(** ** Execution *)

(** [if let Some(o) = book.orders.get_mut(id) { o.fill(amount) }]; [None] when missing. *)
Definition fill_order (b : OrderBook F) (id : OrderId) (amount : Z) : option (OrderBook F) :=
  o ← orders b !! id; Some (set_orders b (<[id := (fill o amount).1]> (orders b))).

(** The fills before a missing order stay in the book, as in the source. *)
Definition execute_cycle (b : OrderBook F) (entry : CycleEntry) (fills : FillResult)
    (filled : gset OrderId) : OrderBook F * gset OrderId * bool :=
  match fill_order b (ce_ab entry) (fill_b fills) with
  | None => (b, filled, false)
  | Some b =>
    match fill_order b (ce_ca entry) (fill_a fills) with
    | None => (b, filled, false)
    | Some b =>
      match fill_order b (ce_bc entry) (fill_c fills) with
      | None => (b, filled, false)
      | Some b =>
        let filled := {[ce_bc entry]} ∪ ({[ce_ca entry]} ∪ ({[ce_ab entry]} ∪ filled)) in
        let b := cleanup_if_filled b (ce_ab entry) in
        let b := cleanup_if_filled b (ce_ca entry) in
        let b := cleanup_if_filled b (ce_bc entry) in
        let b := add_protocol_balance b (tri_a (ce_triangle entry)) (surplus_a fills) in
        let b := add_protocol_balance b (tri_b (ce_triangle entry)) (surplus_b fills) in
        let b := add_protocol_balance b (tri_c (ce_triangle entry)) (surplus_c fills) in
        (b, filled, true)
      end
    end
  end.

(** The state of the main loop. *)
Record Cyc := mk_cyc {
  cy_book : OrderBook F;
  cy_filled : gset OrderId;
  cy_heap : list CycleEntry;
  cy_cycles : Z;
}.

(** Re-evaluate one triangle: push a fresh entry when there is one. *)
Definition refresh (triangle : Triangle) (s : Cyc) : option Cyc :=
  '(b, entry) ← try_build_entry (cy_book s) triangle;
  Some (mk_cyc b (cy_filled s)
    (match entry with Some e => heap_push e (cy_heap s) | None => cy_heap s end) (cy_cycles s)).

Definition affected (by_pair : gmap Pair (list Triangle)) (t : Triangle) : gset Triangle :=
  list_to_set (concat ((λ p, default [] (by_pair !! p)) <$> triangle_pairs t)).

(** The body of the [while let] loop, for a popped entry. *)
Definition cycle_turn (by_pair : gmap Pair (list Triangle)) (entry : CycleEntry) (s : Cyc) : option Cyc :=
  simulation ← simulate_full_cycle (cy_book s) (ce_ab entry) (ce_bc entry) (ce_ca entry);
  match simulation with
  | None => refresh (ce_triangle entry) s
  | Some simulation =>
    if negb (sim_surplus simulation =? ce_surplus entry) then
      Some (if 0 <? sim_surplus simulation then
        mk_cyc (cy_book s) (cy_filled s)
          (heap_push (mk_entry (ce_triangle entry) (ce_ab entry) (ce_bc entry) (ce_ca entry)
                        (sim_surplus simulation)) (cy_heap s)) (cy_cycles s)
        else s)
    else
      let '(b, filled, ok) := execute_cycle (cy_book s) entry (sim_fills simulation) (cy_filled s) in
      if negb ok then Some (mk_cyc b filled (cy_heap s) (cy_cycles s))
      else
        for_each (hash_iter (2 + Z.to_N (cy_cycles s)) (affected by_pair (ce_triangle entry))) refresh
          (mk_cyc b filled (cy_heap s) (wrap64 (cy_cycles s + 1)))
  end.

Fixpoint cycle_loop (fuel : nat) (by_pair : gmap Pair (list Triangle)) (s : Cyc) : option Cyc :=
  match fuel with
  | O => None
  | S fuel =>
    match heap_pop (cy_heap s) with
    | None => Some s
    | Some (entry, heap) =>
      s ← cycle_turn by_pair entry (mk_cyc (cy_book s) (cy_filled s) heap (cy_cycles s));
      cycle_loop fuel by_pair s
    end
  end.

Definition run_three_edge_cycle (fuel : nat) (b : OrderBook F) (filled : gset OrderId) : option Cyc :=
  e ← enumerate_triangles b;
  cycle_loop fuel (en_by_pair e)
    (mk_cyc (en_book e) filled (heap_of (en_entries e)) 0).

(** More fuel does not change a result. *)
Lemma cycle_loop_mono fuel fuel' by_pair s s' :
  (fuel <= fuel')%nat → cycle_loop fuel by_pair s = Some s' → cycle_loop fuel' by_pair s = Some s'.
Proof.
  revert fuel' s. induction fuel as [|fuel IH]; intros [|fuel'] s Hle; simpl; [done..|lia|].
  destruct (heap_pop (cy_heap s)) as [[e h]|]; [|done]. destruct (cycle_turn _ _ _) as [s1|]; [|done]. simpl.
  apply IH. lia.
Qed.

Lemma run_three_edge_cycle_mono fuel fuel' b f s :
  (fuel <= fuel')%nat → run_three_edge_cycle fuel b f = Some s → run_three_edge_cycle fuel' b f = Some s.
Proof.
  unfold run_three_edge_cycle. destruct (enumerate_triangles b); [|done]. simpl. apply cycle_loop_mono.
Qed.
End phase.

Arguments Cyc : clear implicits.
Arguments Enum : clear implicits.

(** The instance used to evaluate the model: pop the first entry of maximal surplus. *)
Fixpoint list_pop (h : list CycleEntry) : option (CycleEntry * list CycleEntry) :=
  match h with
  | [] => None
  | e :: r =>
    match list_pop r with
    | None => Some (e, [])
    | Some (m, r') => if ce_surplus m <=? ce_surplus e then Some (e, r) else Some (m, e :: r')
    end
  end.

Lemma list_pop_None h : list_pop h = None ↔ h = [].
Proof.
  destruct h as [|e r]; simpl; [done|]. split; [|done].
  destruct (list_pop r) as [[m r']|]; [|done]. by destruct (_ <=? _).
Qed.

Lemma list_pop_Some h e h' :
  list_pop h = Some (e, h') → h ≡ₚ e :: h' ∧ ∀ e', e' ∈ h' → ce_surplus e' <= ce_surplus e.
Proof.
  revert e h'. induction h as [|x r IH]; intros e h'; simpl; [done|].
  destruct (list_pop r) as [[m r']|] eqn:Hr.
  - destruct (IH m r' eq_refl) as [Hp Hm]. destruct (Z.leb_spec (ce_surplus m) (ce_surplus x));
      intros [= <- <-].
    + split; [done|]. intros e'. rewrite Hp, elem_of_cons. intros [->|?%Hm]; lia.
    + split; [rewrite Hp; constructor|]. intros e' [->|?]%elem_of_cons; [lia|auto].
  - intros [= <- <-]. apply list_pop_None in Hr as ->. split; [done|set_solver].
Qed.

Definition list_heap : CycleHeap :=
  {| heap_of := λ l, l; heap_of_perm := λ l, reflexivity _;
     heap_push := cons; heap_pop := list_pop; heap_push_perm := λ e h, reflexivity _;
     heap_pop_None := list_pop_None; heap_pop_Some := list_pop_Some |}.
