(* ===== verification/CycleProofs.v ===== *)
(** * Triangular matching: proofs

    The simulation's arithmetic, the effect of executing a cycle on the book, and the main
    loop: it neither panics nor runs forever, keeps the invariant of the book and fills
    only visible orders.  Each executed cycle fills one order completely, so there are at
    most as many as visible orders; between two executions every heap entry is popped at
    most once while stale. *)

From stdpp Require Import option relations.
From S2P Require Import Prelude.
From S2P Require Import Orders.
From S2P Require Import RateIndex.
From S2P Require Import PriceFeed.
From S2P Require Import OrderBook.
From S2P Require Import IndexInvariant.
From S2P Require Import BookInvariant.
From S2P Require Import BookOps.
From S2P Require Import BookQueries.
From S2P Require Import Fills.
From S2P Require Import ThreeEdgeCycle.

(** ** The simulation *)

(** The fills fit in the orders, the surpluses are what each release leaves, and the
    bottleneck leg is filled completely.  Starting at the bottleneck, a release covers
    the fill of the next leg and that leg's release the fill of the last one. *)
Record sim_ok (ab bc ca : Order) (leg : BottleneckLeg) (f : FillResult) : Prop := {
  so_ab : 0 < fill_b f <= requested_remaining ab;
  so_bc : 0 < fill_c f <= requested_remaining bc;
  so_ca : 0 < fill_a f <= requested_remaining ca;
  so_surplus : surplus_a f = offered_for ab (fill_b f) ∸ fill_a f ∧
    surplus_b f = offered_for bc (fill_c f) ∸ fill_b f ∧
    surplus_c f = offered_for ca (fill_a f) ∸ fill_c f;
  so_leg : match leg with
    | AB => fill_b f = requested_remaining ab ∧ fill_a f <= offered_for ab (fill_b f) ∧
            fill_c f <= offered_for ca (fill_a f)
    | BC => fill_c f = requested_remaining bc ∧ fill_b f <= offered_for bc (fill_c f) ∧
            fill_a f <= offered_for ab (fill_b f)
    | CA => fill_a f = requested_remaining ca ∧ fill_c f <= offered_for ca (fill_a f) ∧
            fill_b f <= offered_for bc (fill_c f)
    end;
}.

Lemma simulate_fills_ok o0 o1 o2 f0 r0 f1 r1 f2 r2 :
  order_wf o0 → order_wf o1 → order_wf o2 →
  simulate_cycle_fills o0 o1 o2 = Some ((f0, r0), (f1, r1), (f2, r2)) →
  f0 = requested_remaining o0 ∧ r0 = offered_for o0 f0 ∧ r1 = offered_for o1 f1 ∧
  r2 = offered_for o2 f2 ∧ 0 < f0 ∧ 0 < f1 <= requested_remaining o1 ∧
  0 < f2 <= requested_remaining o2 ∧ f1 <= r0 ∧ f2 <= r1.
Proof.
  intros H0 H1 H2. unfold simulate_cycle_fills. simpl.
  destruct (_ || _) eqn:Hz; [done|]. intros [= <- <- <- <- <- <-].
  apply orb_false_iff in Hz as [[Hz0 Hz1]%orb_false_iff Hz2].
  apply Z.eqb_neq in Hz0, Hz1, Hz2.
  pose proof H0 as (_ & _ & ?). pose proof H1 as (_ & _ & ?). pose proof H2 as (_ & _ & ?).
  assert (0 <= offered_for o0 (requested_remaining o0)) by (apply offered_for_exact; [done|lia]).
  set (f1 := Z.min _ (requested_remaining o1)) in *.
  assert (0 <= offered_for o1 f1) by (apply offered_for_exact; [done|lia]).
  split_and!; lia || done.
Qed.

Lemma simulate_cycle_ok ab bc ca leg f :
  order_wf ab → order_wf bc → order_wf ca →
  simulate_cycle ab bc ca leg = Some f → sim_ok ab bc ca leg f.
Proof.
  intros Hab Hbc Hca. unfold simulate_cycle, simulate_legs.
  destruct leg; destruct (simulate_cycle_fills _ _ _) as [[[[f0 r0] [f1 r1]] [f2 r2]]|] eqn:Hs;
    try done; apply simulate_fills_ok in Hs; try done; simpl; intros [= <-];
    destruct Hs as (-> & -> & -> & -> & ? & ? & ? & ? & ?); split; simpl; split_and?; lia || done.
Qed.

Lemma simulate_orders_ok ab bc ca pa pb pc sim :
  order_wf ab → order_wf bc → order_wf ca →
  simulate_orders ab bc ca pa pb pc = Some sim → ∃ leg, sim_ok ab bc ca leg (sim_fills sim).
Proof.
  intros Hab Hbc Hca. unfold simulate_orders. set (leg := find_bottleneck _ _ _).
  destruct (_ =? 0); [done|]. destruct (simulate_cycle ab bc ca leg) as [f|] eqn:Hf; [|done].
  intros [= <-]. exists leg. by apply simulate_cycle_ok.
Qed.

Lemma sim_ok_fills ab bc ca leg f :
  sim_ok ab bc ca leg f →
  fill_b f = requested_remaining ab ∨ fill_c f = requested_remaining bc ∨
  fill_a f = requested_remaining ca.
Proof. intros [_ _ _ _ H]. destruct leg; tauto. Qed.

(** ** Executing a cycle *)

Section execute.
Context {F : Type} `{!PriceFeed F}.
Implicit Types b : OrderBook F.

(** The three orders of an entry: visible, distinct, in the triangle's pairs. *)
Record cycle_of b (e : CycleEntry) (ab bc ca : Order) : Prop := {
  co_ab : visible b (ce_ab e) ab;
  co_bc : visible b (ce_bc e) bc;
  co_ca : visible b (ce_ca e) ca;
  co_pab : pair_of ab = (tri_a (ce_triangle e), tri_b (ce_triangle e));
  co_pbc : pair_of bc = (tri_b (ce_triangle e), tri_c (ce_triangle e));
  co_pca : pair_of ca = (tri_c (ce_triangle e), tri_a (ce_triangle e));
  co_nodup : NoDup (triangle_pairs (ce_triangle e));
}.

Lemma cycle_of_distinct b e ab bc ca :
  cycle_of b e ab bc ca → ce_ab e ≠ ce_bc e ∧ ce_ab e ≠ ce_ca e ∧ ce_bc e ≠ ce_ca e.
Proof.
  intros [[H1 _] [H2 _] [H3 _] P1 P2 P3 Hnd]. unfold triangle_pairs in Hnd.
  rewrite !NoDup_cons, !elem_of_cons in Hnd. rewrite <-P1, <-P2, <-P3 in Hnd.
  destruct Hnd as (N1 & N2 & _).
  split_and!; intros E; rewrite E in *; simplify_eq; tauto.
Qed.

Definition executed_orders b (e : CycleEntry) (ab bc ca : Order) (f : FillResult) : gmap OrderId Order :=
  <[ce_bc e := set_remaining bc (requested_remaining bc - fill_c f)]>
    (<[ce_ca e := set_remaining ca (requested_remaining ca - fill_a f)]>
      (<[ce_ab e := set_remaining ab (requested_remaining ab - fill_b f)]> (orders b))).

(** The book before the surpluses are credited. *)
Definition executed_book b (e : CycleEntry) (ab bc ca : Order) (f : FillResult) : OrderBook F :=
  foldl cleanup_if_filled (set_orders b (executed_orders b e ab bc ca f)) [ce_ab e; ce_ca e; ce_bc e].

Definition credit b (e : CycleEntry) (f : FillResult) : OrderBook F :=
  add_protocol_balance (add_protocol_balance (add_protocol_balance b
    (tri_a (ce_triangle e)) (surplus_a f)) (tri_b (ce_triangle e)) (surplus_b f))
    (tri_c (ce_triangle e)) (surplus_c f).

Lemma execute_cycle_eq b e ab bc ca leg f filled :
  cycle_of b e ab bc ca → sim_ok ab bc ca leg f →
  execute_cycle b e f filled =
  (credit (executed_book b e ab bc ca f) e f,
   {[ce_bc e]} ∪ ({[ce_ca e]} ∪ ({[ce_ab e]} ∪ filled)), true).
Proof.
  intros Hc Hs. destruct (cycle_of_distinct _ _ _ _ _ Hc) as (N1 & N2 & N3).
  destruct Hc as [[H1 _] [H2 _] [H3 _] _ _ _ _]. destruct Hs as [S1 S2 S3 _ _].
  unfold execute_cycle, fill_order. rewrite H1. simpl.
  rewrite lookup_insert_ne, H3 by done. simpl.
  rewrite !lookup_insert_ne, H2 by done. simpl.
  unfold credit, executed_book, executed_orders.
  rewrite !Z.min_l by lia. done.
Qed.

Lemma lookup_executed b e ab bc ca f :
  cycle_of b e ab bc ca →
  executed_orders b e ab bc ca f !! ce_ab e = Some (set_remaining ab (requested_remaining ab - fill_b f)) ∧
  executed_orders b e ab bc ca f !! ce_bc e = Some (set_remaining bc (requested_remaining bc - fill_c f)) ∧
  executed_orders b e ab bc ca f !! ce_ca e = Some (set_remaining ca (requested_remaining ca - fill_a f)) ∧
  ∀ id, id ≠ ce_ab e → id ≠ ce_bc e → id ≠ ce_ca e → executed_orders b e ab bc ca f !! id = orders b !! id.
Proof.
  intros Hc. destruct (cycle_of_distinct _ _ _ _ _ Hc) as (N1 & N2 & N3).
  unfold executed_orders. split_and!; intros; by simplify_map_eq.
Qed.

(** Executing keeps the invariant on the ids that are still active. *)
Lemma executed_inv b l e ab bc ca leg f :
  book_inv b l → cycle_of b e ab bc ca → sim_ok ab bc ca leg f →
  book_inv (executed_book b e ab bc ca f) (still_active (executed_book b e ab bc ca f) l).
Proof.
  intros Hb Hc Hs. destruct (cycle_of_distinct _ _ _ _ _ Hc) as (N1 & N2 & N3).
  pose proof Hc as [H1 H2 H3 _ _ _ _]. pose proof Hs as [S1 S2 S3 _ _].
  assert (∀ id o, visible b id o → requested_remaining o <= requested o) as Hrem.
  { intros id o (Ho & _). destruct (bi_orders _ _ _ Hb id o Ho) as [_ (_ & _ & ?)]. lia. }
  pose proof (Hrem _ _ H1). pose proof (Hrem _ _ H2). pose proof (Hrem _ _ H3).
  pose proof (visible_live b l _ _ Hb H1) as L1. pose proof (visible_live b l _ _ Hb H2) as L2. pose proof (visible_live b l _ _ Hb H3) as L3.
  pose proof H1 as (O1 & _). pose proof H2 as (O2 & _). pose proof H3 as (O3 & _).
  pose proof (fill_dirty b l ∅ (ce_ab e) ab (requested_remaining ab - fill_b f) Hb L1 O1 ltac:(lia)) as D1.
  apply (fill_dirty _ l _ (ce_ca e) ca (requested_remaining ca - fill_a f)) in D1;
    [|done|simpl; by rewrite lookup_insert_ne|lia].
  apply (fill_dirty _ l _ (ce_bc e) bc (requested_remaining bc - fill_c f)) in D1;
    [|done|simpl; by rewrite !lookup_insert_ne|lia]. simpl in D1.
  destruct (cleanup_all_fields (set_orders b (executed_orders b e ab bc ca f))
    [ce_ab e; ce_ca e; ce_bc e]) as (E1 & _).
  unfold executed_book. unfold still_active at 1. rewrite E1.
  apply (cleanup_all (set_orders b (executed_orders b e ab bc ca f)) l).
  - replace (list_to_set [ce_ab e; ce_ca e; ce_bc e] : gset OrderId)
      with ({[ce_bc e]} ∪ ({[ce_ca e]} ∪ ({[ce_ab e]} ∪ ∅)) : gset OrderId) by set_solver. exact D1.
  - repeat (apply NoDup_cons; split; [rewrite ?elem_of_cons, elem_of_nil; intuition congruence|]).
    apply NoDup_nil_2.
  - intros i. rewrite !elem_of_cons, elem_of_nil. intros [->|[->|[->|[]]]]; done.
Qed.
End execute.

(** ** Steps of the phase *)

Section steps.
Context {F : Type} `{!PriceFeed F}.
Implicit Types b : OrderBook F.

(** One executed cycle: its orders are visible, the simulation on the current book gives
    the surplus it was queued with, and that surplus is not zero. *)
Inductive cycle_step : OrderBook F * gset OrderId → OrderBook F * gset OrderId → Prop :=
| cycle_step_intro b filled e ab bc ca sim b' filled' :
    cycle_of b e ab bc ca →
    simulate_full_cycle b (ce_ab e) (ce_bc e) (ce_ca e) = Some (Some sim) →
    sim_surplus sim = ce_surplus e → ce_surplus e ≠ 0 →
    execute_cycle b e (sim_fills sim) filled = (b', filled', true) →
    cycle_step (b, filled) (b', filled').

Lemma simulate_full_ok b l d e ab bc ca sim :
  dirty_inv b l d → cycle_of b e ab bc ca →
  simulate_full_cycle b (ce_ab e) (ce_bc e) (ce_ca e) = Some (Some sim) →
  ∃ leg, sim_ok ab bc ca leg (sim_fills sim).
Proof.
  intros Hb [(H1 & _ & A1) (H2 & _ & A2) (H3 & _ & A3) _ _ _ _]. unfold simulate_full_cycle.
  rewrite H1, H2, H3. simpl. rewrite A1, A2, A3. simpl. repeat case_match; try done. intros [= ?].
  eapply simulate_orders_ok; [by eapply orders_wf..|done].
Qed.

Lemma credit_fields b e f :
  orders (credit b e f) = orders b ∧ parked (credit b e f) = parked b ∧
  park_queue (credit b e f) = park_queue b ∧ feed (credit b e f) = feed b.
Proof.
  unfold credit.
  repeat match goal with |- context [add_protocol_balance ?x ?t ?v] =>
    destruct (add_balance_fields x t v) as (-> & -> & -> & _ & _ & ->) end. done.
Qed.

Lemma executed_fields b e ab bc ca f :
  orders (executed_book b e ab bc ca f) = executed_orders b e ab bc ca f ∧
  parked (executed_book b e ab bc ca f) = parked b ∧
  park_queue (executed_book b e ab bc ca f) = park_queue b ∧
  protocol_balances (executed_book b e ab bc ca f) = protocol_balances b ∧
  feed (executed_book b e ab bc ca f) = feed b.
Proof.
  unfold executed_book.
  by destruct (cleanup_all_fields (set_orders b (executed_orders b e ab bc ca f))
    [ce_ab e; ce_ca e; ce_bc e]) as (-> & -> & -> & -> & _ & ->).
Qed.

Lemma executed_fills b l d e ab bc ca leg f :
  dirty_inv b l d → cycle_of b e ab bc ca → sim_ok ab bc ca leg f →
  fills_to (orders b) (executed_orders b e ab bc ca f).
Proof.
  intros Hb Hc [S1 S2 S3 _ _] id. pose proof Hc as [[O1 _] [O2 _] [O3 _] _ _ _ _].
  destruct (lookup_executed b e ab bc ca f Hc) as (E1 & E2 & E3 & E4).
  destruct (decide (id = ce_ab e)) as [->|]; [rewrite O1, E1|].
  { constructor. eexists. split; [done|lia]. }
  destruct (decide (id = ce_bc e)) as [->|]; [rewrite O2, E2|].
  { constructor. eexists. split; [done|lia]. }
  destruct (decide (id = ce_ca e)) as [->|]; [rewrite O3, E3|].
  { constructor. eexists. split; [done|lia]. }
  rewrite E4 by done. by eapply inv_fills_refl.
Qed.

Lemma executed_touched b e ab bc ca leg f id :
  cycle_of b e ab bc ca → sim_ok ab bc ca leg f →
  executed_orders b e ab bc ca f !! id ≠ orders b !! id ↔
  id = ce_ab e ∨ id = ce_bc e ∨ id = ce_ca e.
Proof.
  intros Hc [S1 S2 S3 _ _]. pose proof Hc as [[O1 _] [O2 _] [O3 _] _ _ _ _].
  destruct (lookup_executed b e ab bc ca f Hc) as (E1 & E2 & E3 & E4).
  assert (∀ o v, 0 < v → Some (set_remaining o (requested_remaining o - v)) ≠ Some o) as Hne.
  { intros o v Hv [= E]. apply (f_equal requested_remaining) in E. simpl in E. lia. }
  destruct (decide (id = ce_ab e)) as [->|].
  { rewrite O1, E1. split; [by left|]. intros _. apply Hne. lia. }
  destruct (decide (id = ce_bc e)) as [->|].
  { rewrite O2, E2. split; [auto|]. intros _. apply Hne. lia. }
  destruct (decide (id = ce_ca e)) as [->|].
  { rewrite O3, E3. split; [auto|]. intros _. apply Hne. lia. }
  rewrite E4 by done. tauto.
Qed.

(** What an executed cycle keeps, and that it fills an order completely. *)
Lemma cycle_step_progress l s s' :
  book_inv s.1 l → cycle_step s s' →
  progress l s s' ∧ (length (still_active s'.1 l) < length l)%nat.
Proof.
  intros Hb Hs. destruct Hs as [b f e ab bc ca sim b' f' Hc Hsim _ _ Hex]. simpl in *.
  destruct (simulate_full_ok b l ∅ e ab bc ca sim Hb Hc Hsim) as [leg Hok].
  rewrite (execute_cycle_eq b e ab bc ca leg) in Hex by done. injection Hex as <- <-.
  destruct (credit_fields (executed_book b e ab bc ca (sim_fills sim)) e (sim_fills sim)) as (C1 & C2 & C3 & C4).
  destruct (executed_fields b e ab bc ca (sim_fills sim)) as (E1 & E2 & E3 & _ & E5).
  pose proof (executed_inv b l e ab bc ca leg _ Hb Hc Hok) as Hinv.
  split; [split; simpl; try congruence|].
  - unfold still_active in *. rewrite C1. by apply add_balance_dirty, add_balance_dirty, add_balance_dirty.
  - rewrite C1, E1. by eapply executed_fills.
  - intros id. rewrite C1, E1, (executed_touched _ _ _ _ _ leg) by done. set_solver.
  - intros id. rewrite C1, E1, (executed_touched _ _ _ _ _ leg) by done. pose proof Hc as [? ? ? _ _ _ _].
    intros [->|[->| ->]]; by eapply visible_live.
  - destruct (lookup_executed b e ab bc ca (sim_fills sim) Hc) as (L1 & L2 & L3 & _).
    pose proof Hc as [H1 H2 H3 _ _ _ _].
    assert (∀ id o v, visible b id o →
      executed_orders b e ab bc ca (sim_fills sim) !! id = Some (set_remaining o (requested_remaining o - v)) →
      v = requested_remaining o →
      (length (still_active (credit (executed_book b e ab bc ca (sim_fills sim)) e (sim_fills sim)) l)
        < length l)%nat) as Hdrop.
    { intros id o v Hv Ho ->. apply (length_still_active_lt _ l id); [by eapply visible_live|].
      unfold id_active, is_active. rewrite C1, E1, Ho. simpl. by rewrite Z.sub_diag. }
    destruct (sim_ok_fills ab bc ca leg _ Hok) as [?|[?|?]]; eauto.
Qed.
End steps.

(** ** Heap entries *)

Section entries.
Context {F : Type} `{!PriceFeed F}.
Implicit Types b : OrderBook F.

(** The ids of an entry were visible when the phase began and rest in its pairs. *)
Record entry_ok (m : gmap OrderId Order) (l : list OrderId) (e : CycleEntry) : Prop := {
  eo_ab : ce_ab e ∈ l ∧ in_pair m (tri_a (ce_triangle e), tri_b (ce_triangle e)) (ce_ab e);
  eo_bc : ce_bc e ∈ l ∧ in_pair m (tri_b (ce_triangle e), tri_c (ce_triangle e)) (ce_bc e);
  eo_ca : ce_ca e ∈ l ∧ in_pair m (tri_c (ce_triangle e), tri_a (ce_triangle e)) (ce_ca e);
  eo_nodup : NoDup (triangle_pairs (ce_triangle e));
  eo_surplus : ce_surplus e ≠ 0;
}.

(** An entry is fresh when the simulation on the current book gives its surplus. *)
Definition freshb b (e : CycleEntry) : bool :=
  match simulate_full_cycle b (ce_ab e) (ce_bc e) (ce_ca e) with
  | Some (Some sim) => sim_surplus sim =? ce_surplus e
  | _ => false
  end.

Lemma entry_ok_fills m m' l e : fills_to m m' → entry_ok m l e → entry_ok m' l e.
Proof.
  intros Hf [[? ?] [? ?] [? ?] ? ?].
  split; try split; try done; by apply (fills_to_in_pair m m').
Qed.

Lemma entry_ok_mono m l l' e : (∀ i, i ∈ l → i ∈ l') → entry_ok m l e → entry_ok m l' e.
Proof. intros Hl [[? ?] [? ?] [? ?] ? ?]. split; auto. Qed.

Lemma in_pair_Some m p id : in_pair m p id → ∃ o, m !! id = Some o ∧ pair_of o = p.
Proof. unfold in_pair. intros (o & ? & ?)%fmap_Some. eauto. Qed.

Lemma simulate_full_defined b l e :
  entry_ok (orders b) l e → is_Some (simulate_full_cycle b (ce_ab e) (ce_bc e) (ce_ca e)).
Proof.
  intros [[_ H1] [_ H2] [_ H3] _ _].
  apply in_pair_Some in H1 as (o1 & H1 & _), H2 as (o2 & H2 & _), H3 as (o3 & H3 & _).
  unfold simulate_full_cycle. rewrite H1, H2, H3. simpl. by eexists.
Qed.

Lemma still_active_visible b l id o :
  book_inv b (still_active b l) → id ∈ l → orders b !! id = Some o → is_active o = true → visible b id o.
Proof.
  intros Hb Hid Ho Ha.
  assert (id ∈ still_active b l) as Hin by (apply list_elem_of_filter; split; [apply id_active_iff; eauto|done]).
  apply (inv_live_iff b _ id Hb) in Hin as (o' & ? & ? & _). by assert (o' = o) as -> by congruence.
Qed.

Lemma simulate_full_cycle_of b l e sim :
  book_inv b (still_active b l) → entry_ok (orders b) l e →
  simulate_full_cycle b (ce_ab e) (ce_bc e) (ce_ca e) = Some (Some sim) →
  ∃ ab bc ca, cycle_of b e ab bc ca.
Proof.
  intros Hb [[L1 H1] [L2 H2] [L3 H3] Hnd _].
  apply in_pair_Some in H1 as (o1 & H1 & P1), H2 as (o2 & H2 & P2), H3 as (o3 & H3 & P3).
  unfold simulate_full_cycle. rewrite H1, H2, H3. simpl.
  destruct (is_active o1) eqn:A1; [|done]. destruct (is_active o2) eqn:A2; [|done].
  destruct (is_active o3) eqn:A3; [|done]. intros _. exists o1, o2, o3.
  split; try done; by apply (still_active_visible b l).
Qed.

(** [try_build_entry] neither panics nor changes the book; what it builds is fresh. *)
Lemma try_build_entry_ok b l t :
  book_inv b l → NoDup (triangle_pairs t) →
  ∃ oe, try_build_entry b t = Some (b, oe) ∧
    ∀ e, oe = Some e → entry_ok (orders b) l e ∧ freshb b e = true.
Proof.
  intros Hb Hnd. unfold try_build_entry.
  destruct (best_order b (tri_a t) (tri_b t)) as [b1 [ab|]] eqn:B1;
    [|apply (best_order_None b l) in B1 as [-> _]; [by exists None|done]].
  apply (best_order_Some b l) in B1 as (-> & V1 & P1 & _); [|done].
  destruct (best_order b (tri_b t) (tri_c t)) as [b1 [bc|]] eqn:B2;
    [|apply (best_order_None b l) in B2 as [-> _]; [by exists None|done]].
  apply (best_order_Some b l) in B2 as (-> & V2 & P2 & _); [|done].
  destruct (best_order b (tri_c t) (tri_a t)) as [b1 [ca|]] eqn:B3;
    [|apply (best_order_None b l) in B3 as [-> _]; [by exists None|done]].
  apply (best_order_Some b l) in B3 as (-> & V3 & P3 & _); [|done].
  unfold build_entry. pose proof V1 as (O1 & _). pose proof V2 as (O2 & _). pose proof V3 as (O3 & _).
  rewrite O1, O2, O3. simpl.
  destruct (unprofitable ab bc ca); [by exists None|].
  destruct (simulate_full_cycle b (oid ab) (oid bc) (oid ca)) as [[sim|]|] eqn:Hsim; simpl;
    [|by exists None|unfold simulate_full_cycle in Hsim; by rewrite O1, O2, O3 in Hsim].
  destruct (Z.eqb_spec (sim_surplus sim) 0); [by exists None|].
  eexists. split; [done|]. intros e [= <-]. split.
  - split; simpl; try done; (split; [by eapply visible_live|]); unfold in_pair;
      rewrite ?O1, ?O2, ?O3; simpl; congruence.
  - unfold freshb. simpl. rewrite Hsim. apply Z.eqb_refl.
Qed.
End entries.

(** ** The main loop *)

(** Enough fuel for [n] visible orders, a heap of [h] entries and at most [t] triangles
    re-evaluated per executed cycle. *)
Fixpoint cycle_fuel (n t h : nat) : nat :=
  S h + match n with O => O | S n' => cycle_fuel n' t (h + t) end.

Section loop.
Context {F : Type} `{!PriceFeed F} `{HI : HashIter} `{CH : CycleHeap}.
Implicit Types b : OrderBook F.
(** The visible ids, the book and the filled ids at the start of the phase; the triangles
    indexed by pair, each proper, and at most [T] re-evaluated at a time. *)
Context (l0 : list OrderId) (s0 : OrderBook F * gset OrderId).
Context (by_pair : gmap Pair (list Triangle)) (T : nat).
Hypothesis by_pair_proper : ∀ t t', t' ∈ affected by_pair t → NoDup (triangle_pairs t').
Hypothesis by_pair_size : ∀ t, (size (affected by_pair t) <= T)%nat.

Record loop_inv (s : Cyc F) : Prop := {
  li_steps : rtc cycle_step s0 (cy_book s, cy_filled s);
  li_progress : progress l0 s0 (cy_book s, cy_filled s);
  li_heap : Forall (entry_ok (orders (cy_book s)) l0) (cy_heap s);
}.

Definition stale b (h : list CycleEntry) : nat := length (filter (λ e, freshb b e = false) h).

Lemma stale_perm b h h' : h ≡ₚ h' → stale b h = stale b h'.
Proof. intros Hp. unfold stale. by rewrite Hp. Qed.

Lemma stale_cons b e h : stale b (e :: h) = ((if freshb b e then 0 else 1) + stale b h)%nat.
Proof. unfold stale. rewrite filter_cons. destruct (freshb b e); by case_decide. Qed.

Lemma stale_le b h : (stale b h <= length h)%nat.
Proof. apply length_filter. Qed.

Lemma loop_book_inv s : loop_inv s → book_inv (cy_book s) (still_active (cy_book s) l0).
Proof. intros [_ Hp _]. apply (pr_inv _ _ _ Hp). Qed.

(** Changing only the heap. *)
Lemma loop_inv_heap s h c :
  loop_inv s → Forall (entry_ok (orders (cy_book s)) l0) h → loop_inv (mk_cyc (cy_book s) (cy_filled s) h c).
Proof. intros [? ? _] Hh. by split. Qed.

Lemma refresh_ok s t :
  loop_inv s → NoDup (triangle_pairs t) →
  ∃ new, refresh t s =
    Some (mk_cyc (cy_book s) (cy_filled s) (match new with Some e => heap_push e (cy_heap s) | None => cy_heap s end)
      (cy_cycles s)) ∧
    ∀ e, new = Some e → entry_ok (orders (cy_book s)) l0 e ∧ freshb (cy_book s) e = true.
Proof.
  intros Hs Hnd. destruct (try_build_entry_ok (cy_book s) _ t (loop_book_inv s Hs) Hnd) as (oe & E & He).
  exists oe. unfold refresh. rewrite E. split; [done|]. intros e ->. destruct (He e eq_refl) as [Hok ?].
  split; [|done]. eapply entry_ok_mono; [|done]. intros i [_ ?]%list_elem_of_filter. done.
Qed.

Lemma refresh_all_ok ts s :
  loop_inv s → (∀ t, t ∈ ts → NoDup (triangle_pairs t)) →
  ∃ s', for_each ts refresh s = Some s' ∧ loop_inv s' ∧ cy_book s' = cy_book s ∧
    (length (cy_heap s') <= length ts + length (cy_heap s))%nat.
Proof.
  revert s. induction ts as [|t ts IH]; intros s Hs Hts; simpl; [by exists s|].
  destruct (refresh_ok s t Hs) as (new & -> & Hnew); [apply Hts; set_solver|]. simpl.
  set (s1 := mk_cyc _ _ _ _).
  assert (loop_inv s1) as Hs1.
  { apply loop_inv_heap; [done|]. destruct new as [e|]; [|apply (li_heap s Hs)].
    rewrite heap_push_perm. constructor; [by apply Hnew|apply (li_heap s Hs)]. }
  destruct (IH s1 Hs1) as (s' & E & Hs' & Eb & Hlen); [set_solver|].
  exists s'. split_and!; try done. simpl in Hlen. destruct new; [rewrite heap_push_perm in Hlen|]; simpl in *; lia.
Qed.

(** One turn: a stale entry is replaced by at most one fresh entry and nothing else
    changes; a fresh entry is executed. *)
Lemma cycle_turn_ok e h s :
  loop_inv s → cy_heap s ≡ₚ e :: h →
  ∃ s', cycle_turn by_pair e (mk_cyc (cy_book s) (cy_filled s) h (cy_cycles s)) = Some s' ∧ loop_inv s' ∧
    if freshb (cy_book s) e
    then (length (still_active (cy_book s') l0) < length (still_active (cy_book s) l0))%nat ∧
         (length (cy_heap s') <= T + length h)%nat
    else cy_book s' = cy_book s ∧ (length (cy_heap s') <= S (length h))%nat ∧
         (stale (cy_book s') (cy_heap s') <= stale (cy_book s) h)%nat.
Proof.
  intros Hs Hperm. pose proof (li_heap s Hs) as Hheap. rewrite Hperm in Hheap.
  apply Forall_cons in Hheap as [He Hh].
  pose proof (loop_book_inv s Hs) as Hb.
  pose proof (loop_inv_heap s h (cy_cycles s) Hs Hh) as Hs1. set (s1 := mk_cyc _ _ h _) in *.
  unfold cycle_turn. simpl. destruct (simulate_full_defined (cy_book s) l0 e He) as [x Hx].
  rewrite Hx. simpl. unfold freshb at 1. rewrite Hx. destruct x as [sim|].
  2: { destruct (refresh_ok s1 (ce_triangle e) Hs1 (eo_nodup _ _ _ He)) as (new & -> & Hnew).
    eexists. split; [done|]. simpl. split.
    - apply loop_inv_heap; [done|]. destruct new as [e'|]; [|done].
      rewrite heap_push_perm. constructor; [by apply Hnew|done].
    - split; [done|]. destruct new as [e'|]; [|simpl; lia].
      destruct (Hnew e' eq_refl) as [_ Hf]. rewrite (stale_perm _ _ _ (heap_push_perm e' _)), stale_cons.
      simpl in *. rewrite Hf, heap_push_perm. simpl. lia. }
  destruct (Z.eqb_spec (sim_surplus sim) (ce_surplus e)) as [Heq|Hne]; simpl.
  - destruct (simulate_full_cycle_of (cy_book s) l0 e sim Hb He Hx) as (ab & bc & ca & Hc).
    destruct (simulate_full_ok (cy_book s) _ ∅ e ab bc ca sim Hb Hc Hx) as [leg Hok].
    pose proof (execute_cycle_eq _ _ _ _ _ leg _ (cy_filled s) Hc Hok) as Hex. rewrite Hex. simpl.
    set (b' := credit _ _ _) in *. set (f' := _ ∪ _) in *.
    assert (cycle_step (cy_book s, cy_filled s) (b', f')) as Hstep
      by (econstructor; [exact Hc|exact Hx|done|apply (eo_surplus _ _ _ He)|exact Hex]).
    destruct (cycle_step_progress _ (cy_book s, cy_filled s) (b', f') Hb Hstep) as [Hp Hlt]. simpl in *.
    assert (loop_inv (mk_cyc b' f' h (wrap64 (cy_cycles s + 1)))) as Hs2.
    { split; simpl.
      - eapply rtc_r; [apply (li_steps s Hs)|done].
      - by eapply progress_trans; [apply (li_progress s Hs)|].
      - eapply Forall_impl; [exact Hh|]. intros e'. apply entry_ok_fills, (pr_fills _ _ _ Hp). }
    destruct (refresh_all_ok (hash_iter (2 + Z.to_N (cy_cycles s)) (affected by_pair (ce_triangle e))) _ Hs2)
      as (s' & E & Hs' & Eb & Hlen).
    { intros t. rewrite hash_iter_perm, elem_of_elements. apply by_pair_proper. }
    exists s'. split_and!; [done|done| |].
    + rewrite Eb. simpl. by rewrite still_active_trans in Hlt by apply (pr_fills _ _ _ Hp).
    + rewrite hash_iter_perm in Hlen. simpl in Hlen.
      change (length (elements ?X)) with (size X) in Hlen.
      pose proof (by_pair_size (ce_triangle e)). lia.
  - eexists. split; [done|]. destruct (Z.ltb_spec 0 (sim_surplus sim)); [|by split_and!; simpl; auto with lia].
    set (e' := mk_entry _ _ _ _ _).
    assert (freshb (cy_book s) e' = true) as Hf by (unfold freshb; simpl; rewrite Hx; apply Z.eqb_refl).
    split_and!; simpl; try done.
    + apply loop_inv_heap; [done|]. rewrite heap_push_perm. constructor; [|done].
      destruct He as [? ? ? ? _]. split; simpl; try done. lia.
    + rewrite heap_push_perm. simpl. lia.
    + rewrite (stale_perm _ _ _ (heap_push_perm e' _)), stale_cons, Hf. simpl. lia.
Qed.

Lemma cycle_loop_ok fuel n H s :
  loop_inv s → (length (still_active (cy_book s) l0) <= n)%nat → (length (cy_heap s) <= H)%nat →
  (stale (cy_book s) (cy_heap s) + 1 + match n with O => O | S n' => cycle_fuel n' T (H + T) end <= fuel)%nat →
  ∃ s', cycle_loop fuel by_pair s = Some s' ∧ loop_inv s' ∧ cy_heap s' = [].
Proof.
  revert n H s. induction fuel as [|fuel IH]; intros n H s Hs Hn HH Hfuel; [lia|]. simpl.
  destruct (heap_pop (cy_heap s)) as [[e h]|] eqn:Hpop.
  2: { exists s. split_and!; [done..|by apply heap_pop_None]. }
  apply heap_pop_Some in Hpop as [Hperm _].
  destruct (cycle_turn_ok e h s Hs Hperm) as (s' & -> & Hs' & Hcase). simpl.
  rewrite (stale_perm _ _ _ Hperm), stale_cons in Hfuel. rewrite Hperm in HH. simpl in HH.
  destruct (freshb (cy_book s) e).
  - destruct Hcase as [Hlt Hlen]. destruct n as [|n]; [lia|].
    pose proof (stale_le (cy_book s') (cy_heap s')). simpl in Hfuel.
    apply (IH n (H + T)%nat s' Hs'); [lia..|].
    destruct n as [|n]; simpl in *; lia.
  - destruct Hcase as (Eb & Hlen & Hst). apply (IH n H s' Hs'); [by rewrite Eb|lia|lia].
Qed.
End loop.

(** ** The enumeration *)

Lemma canonical_proper a b c : c ≠ a → c ≠ b → NoDup (triangle_pairs (canonical a b c)).
Proof.
  intros H1 H2. unfold canonical, triangle_pairs.
  destruct (_ && _); [|destruct (_ && _)]; simpl;
    (repeat (apply NoDup_cons; split; [rewrite ?elem_of_cons, elem_of_nil; intuition congruence|]));
    apply NoDup_nil_2.
Qed.

(** A loop whose body keeps [I], grows [R] and establishes [Q] for its element. *)
Lemma for_each_ok {A S} (I : S → Prop) (R : S → S → Prop) (Q : A → S → Prop)
    (l : list A) (body : A → S → option S) s :
  (∀ s, R s s) → (∀ s1 s2 s3, R s1 s2 → R s2 s3 → R s1 s3) →
  (∀ x s s', Q x s → R s s' → Q x s') →
  (∀ x s, x ∈ l → I s → ∃ s', body x s = Some s' ∧ I s' ∧ R s s' ∧ Q x s') →
  I s → ∃ s', for_each l body s = Some s' ∧ I s' ∧ R s s' ∧ ∀ x, x ∈ l → Q x s'.
Proof.
  intros Hrefl Htrans HQ. revert s. induction l as [|x l IH]; intros s Hbody HI; simpl.
  { exists s. split_and!; auto. intros x Hx. by apply elem_of_nil in Hx. }
  destruct (Hbody x s) as (s1 & -> & HI1 & HR1 & HQ1); [set_solver|done|]. simpl.
  destruct (IH s1) as (s2 & E & HI2 & HR2 & HQ2); [|done|].
  { intros y s' Hy. apply Hbody. set_solver. }
  exists s2. split_and!; eauto. intros y [->|Hy]%elem_of_cons; eauto.
Qed.

Section enumeration.
Context {F : Type} `{!PriceFeed F} `{HI : HashIter}.
Implicit Types b : OrderBook F.

Record enum_inv b (l : list OrderId) (e : Enum F) : Prop := {
  ei_book : en_book e = b;
  ei_entries : Forall (entry_ok (orders b) l) (en_entries e);
  ei_by_pair : ∀ p ts t, en_by_pair e !! p = Some ts → t ∈ ts →
    ∃ x, x ∈ en_entries e ∧ ce_triangle x = t;
  ei_seen : ∀ t x, t ∈ en_seen e → try_build_entry b t = Some (b, Some x) → x ∈ en_entries e;
}.

Lemma try_build_triangle b t b' x : try_build_entry b t = Some (b', Some x) → ce_triangle x = t.
Proof.
  unfold try_build_entry, build_entry. intros H.
  repeat (case_match; simplify_option_eq); done.
Qed.

Lemma index_triangle_elem t m p ts t' :
  index_triangle t m !! p = Some ts → t' ∈ ts → t' = t ∨ ∃ ts', m !! p = Some ts' ∧ t' ∈ ts'.
Proof.
  unfold index_triangle. generalize (triangle_pairs t). intros ps. revert m ts.
  induction ps as [|q ps IH]; intros m ts Hts Hin; simpl in *; [eauto|].
  destruct (IH _ _ Hts Hin) as [->|(ts' & Hts' & Hin')]; [by left|].
  apply lookup_insert_Some in Hts' as [[-> <-]|[? ?]]; [|eauto].
  apply elem_of_app in Hin' as [Hin'| ->%list_elem_of_singleton]; [|by left].
  right. destruct (m !! p) as [ts0|]; simpl in *; [eauto|by apply elem_of_nil in Hin'].
Qed.

Lemma enumerate_one_ok b l ta tb tc e :
  book_inv b l → enum_inv b l e →
  ∃ e', enumerate_one ta tb tc e = Some e' ∧ enum_inv b l e' ∧ en_seen e ⊆ en_seen e' ∧
    (tc ≠ ta → tc ≠ tb → has_orders b tc ta = true → canonical ta tb tc ∈ en_seen e').
Proof.
  intros Hb [Eb Hent Hbp Hseen]. unfold enumerate_one. rewrite Eb.
  destruct (_ || _) eqn:Hdist.
  { exists e. split_and!; [done|by split|done|]. intros ? ?.
    apply orb_true_iff in Hdist as [?%N.eqb_eq|?%N.eqb_eq]; done. }
  apply orb_false_iff in Hdist as [H1%N.eqb_neq H2%N.eqb_neq].
  destruct (has_orders b tc ta) eqn:Hh; simpl; [|by exists e; split_and!; [|split| |]].
  case_bool_decide as Hin; [by exists e; split_and!; [|split| |]|].
  destruct (try_build_entry_ok b l (canonical ta tb tc) Hb) as (oe & E & Hoe);
    [by apply canonical_proper|]. rewrite E. simpl.
  eexists. split; [done|]. destruct oe as [x|]; simpl.
  - destruct (Hoe x eq_refl) as [Hok _]. pose proof (try_build_triangle _ _ _ _ E) as Ht.
    split_and!; [|set_solver|set_solver]. split; simpl; try done.
    + apply Forall_app; auto.
    + intros p ts t Hts [->|(ts' & Hts' & Hin')]%(index_triangle_elem _ _ _ _ _ Hts).
      * exists x. split; [|done]. apply elem_of_app. right. by apply list_elem_of_singleton.
      * destruct (Hbp p ts' t Hts' Hin') as (y & ? & ?). exists y. split; [|done].
        apply elem_of_app. by left.
    + intros t y [ ->%elem_of_singleton|Hs]%elem_of_union Ey; apply elem_of_app; [right|left; eauto].
      apply list_elem_of_singleton. congruence.
  - split_and!; [|set_solver|set_solver]. split; simpl; try done.
    intros t y [ ->%elem_of_singleton|Hs]%elem_of_union Ey; [congruence|eauto].
Qed.

Lemma enum_inv_new b l : enum_inv b l (mk_enum b ∅ ∅ []).
Proof. split; simpl; [done|constructor|by intros p ts t; rewrite lookup_empty|set_solver]. Qed.

(** The enumeration does not panic, and considers every triangle of visible orders. *)
Lemma enumerate_triangles_ok b l :
  book_inv b l →
  ∃ e, enumerate_triangles b = Some e ∧ enum_inv b l e ∧
    ∀ ta tb tc, tc ≠ ta → tc ≠ tb → has_orders b ta tb = true → has_orders b tb tc = true →
      has_orders b tc ta = true → canonical ta tb tc ∈ en_seen e.
Proof.
  intros Hb. unfold enumerate_triangles.
  set (R := λ e e' : Enum F, en_seen e ⊆ en_seen e').
  set (Q3 := λ ta tb tc (e : Enum F),
    tc ≠ ta → tc ≠ tb → has_orders b tc ta = true → canonical ta tb tc ∈ en_seen e).
  set (Q2 := λ tb ta e, ∀ tc, has_orders b tb tc = true → Q3 ta tb tc e).
  set (Q1 := λ tb e, ∀ ta, has_orders b ta tb = true → Q2 tb ta e).
  assert (∀ ta tb tc e e', Q3 ta tb tc e → R e e' → Q3 ta tb tc e') as M3.
  { intros ta tb tc e e' HQ HR ? ? ?. by apply HR, HQ. }
  destruct (for_each_ok (enum_inv b l) R Q1 (hash_iter 2 (tokens b)) (λ token_b e,
    for_each (incoming_neighbors (3 + 2 * token_b) (en_book e) token_b) (λ token_a e',
      for_each (neighbors (4 + 2 * token_b) (en_book e) token_b)
        (λ token_c e'', enumerate_one token_a token_b token_c e'') e') e) (mk_enum b ∅ ∅ []))
    as (e & E & Hinv & _ & HQ).
  - intros e. unfold R. done.
  - intros e1 e2 e3. unfold R. by etrans.
  - intros tb e e' HQ HR ta Hab tc Hbc. eapply M3; [|done]. by apply HQ.
  - intros tb e _ He. rewrite (ei_book _ _ _ He).
    destruct (for_each_ok (enum_inv b l) R (Q2 tb) (incoming_neighbors (3 + 2 * tb) b tb)
      (λ token_a e', for_each (neighbors (4 + 2 * tb) b tb)
        (λ token_c e'', enumerate_one token_a tb token_c e'') e') e) as (e' & E' & Hinv & HR & HQ);
      [by intros; unfold R|by unfold R; intros; etrans| | |done|].
    + intros ta x x' HQ HR tc Hbc. eapply M3; [|done]. by apply HQ.
    + intros ta x _ Hx.
      destruct (for_each_ok (enum_inv b l) R (Q3 ta tb) (neighbors (4 + 2 * tb) b tb)
        (λ token_c e'', enumerate_one ta tb token_c e'') x) as (x' & Ex & Hx' & HRx & HQx);
        [by intros; unfold R|by unfold R; intros; etrans|by intros; eapply M3| |done|].
      * intros tc y _ Hy. destruct (enumerate_one_ok b l ta tb tc y Hb Hy) as (y' & ? & ? & ? & ?). eauto.
      * exists x'. split_and!; try done. intros tc Hbc. apply HQx. by apply (elem_of_neighbors b l).
    + exists e'. split_and!; try done. intros ta Hab. apply HQ. by apply (elem_of_incoming b l).
  - apply enum_inv_new.
  - exists e. split_and!; try done. intros ta tb tc ? ? Hab Hbc Hca. apply (HQ tb); try done.
    rewrite hash_iter_perm, elem_of_elements. by apply (has_orders_tokens b l) in Hab as [_ ?].
Qed.

(** The triangles re-evaluated at a time are among those of the initial entries. *)
Lemma affected_entries b l e t t' :
  enum_inv b l e → t' ∈ affected (en_by_pair e) t → ∃ x, x ∈ en_entries e ∧ ce_triangle x = t'.
Proof.
  intros He. unfold affected. rewrite elem_of_list_to_set, list_elem_of_In, in_concat.
  intros (ts & Hts & Hin). apply in_map_iff in Hts as (p & <- & _). apply list_elem_of_In in Hin.
  destruct (en_by_pair e !! p) as [ts|] eqn:Hp; simpl in Hin; [|by apply elem_of_nil in Hin].
  by eapply ei_by_pair.
Qed.

Lemma affected_size b l e t :
  enum_inv b l e → (size (affected (en_by_pair e) t) <= length (en_entries e))%nat.
Proof.
  intros He. etrans; [apply (subseteq_size _ (list_to_set (ce_triangle <$> en_entries e)))|].
  - intros t' (x & Hx & <-)%(affected_entries b l e t t' He). apply elem_of_list_to_set.
    by apply list_elem_of_fmap_2.
  - etrans; [apply size_list_to_set_le|]. by rewrite length_fmap.
Qed.
End enumeration.

(** ** The phase *)

Section phase.
Context {F : Type} `{!PriceFeed F} `{HI : HashIter} `{CH : CycleHeap}.
Implicit Types b : OrderBook F.

(** Fuel that is always enough for the phase. *)
Definition three_edge_fuel (b : OrderBook F) (l : list OrderId) : nat :=
  match enumerate_triangles b with
  | Some e => cycle_fuel (length l) (length (en_entries e)) (length (en_entries e))
  | None => 0
  end.

Lemma cycle_fuel_unfold n t h :
  cycle_fuel n t h = (S h + match n with O => O | S n' => cycle_fuel n' t (h + t) end)%nat.
Proof. by destruct n. Qed.

Lemma run_three_edge_ok fuel b f l :
  book_inv b l → (three_edge_fuel b l <= fuel)%nat →
  ∃ s, run_three_edge_cycle fuel b f = Some s ∧ cy_heap s = [] ∧
    rtc cycle_step (b, f) (cy_book s, cy_filled s) ∧ progress l (b, f) (cy_book s, cy_filled s).
Proof.
  intros Hb Hfuel. unfold run_three_edge_cycle, three_edge_fuel in *.
  destruct (enumerate_triangles_ok b l Hb) as (e & E & He & _). rewrite E in *. simpl.
  pose proof (ei_book _ _ _ He) as Eb. rewrite Eb.
  destruct (cycle_loop_ok l (b, f) (en_by_pair e) (length (en_entries e))) with
    (fuel := fuel) (n := length l) (H := length (en_entries e))
    (s := mk_cyc b f (heap_of (en_entries e)) 0) as (s & Es & [? ? _] & Hh).
  - intros t t' Ht. destruct (affected_entries b l e t t' He Ht) as (x & Hx & <-).
    pose proof (ei_entries _ _ _ He) as Hf. rewrite Forall_forall in Hf. by apply Hf.
  - intros t. by eapply affected_size.
  - split; simpl; [done|by apply progress_refl|]. rewrite heap_of_perm. apply He.
  - simpl. apply length_still_active.
  - simpl. by rewrite heap_of_perm.
  - simpl. rewrite cycle_fuel_unfold in Hfuel.
    pose proof (stale_le b (heap_of (en_entries e))) as Hst. rewrite heap_of_perm in Hst at 2. lia.
  - by exists s.
Qed.
End phase.
