(* ===== verification/BookTheorems.v ===== *)
(** * The order book: theorems

    [book_run b l]: the operations of the program lead from an empty book to [b], with
    [l] the visible ids in the order in which they (re)joined the book.  This list is the
    abstract state of the book; the theorems say that every query answers as the list
    determines.  The matcher, the two matching phases and the router touch the book only
    through these operations. *)

From S2P Require Import Prelude.
From S2P Require Import Orders.
From S2P Require Import RateIndex.
From S2P Require Import PriceFeed.
From S2P Require Import OrderBook.
From S2P Require Import IndexInvariant.
From S2P Require Import BookInvariant.
From S2P Require Import BookOps.
From S2P Require Import BookQueries.
From S2P Require Import Fills.
From S2P Require Import ThreeEdgeCycle.
From S2P Require Import CycleProofs.

Section theorems.
Context {F : Type} `{!PriceFeed F}.
Implicit Types b : OrderBook F.

(** One constructor per operation, with its effect on the abstract list. *)
Inductive book_run : OrderBook F → list OrderId → Prop :=
| run_new f : book_run (book_new f) []
| run_add b l id ot rt off req :
    book_run b l → 0 < off < two64 → 0 < req < two64 → Z.of_nat (S (size (orders b))) < two32 →
    book_run (add_user_order b id ot rt off req) (add_result b l id)
| run_remove b l id : book_run b l → book_run (remove_order b id) (remove_first id l)
| run_park b l id dex time : book_run b l → book_run (park b id dex time) (remove_first id l)
| run_unpark b l id :
    book_run b l →
    book_run (unpark b id).1 (if bool_decide (is_Some (parked b !! id)) then l ++ [id] else l)
| run_reactivate b l ttl time :
    book_run b l →
    book_run (reactivate_parked_older_than b ttl time).1
      (l ++ ((reactivate_parked_older_than b ttl time).2.*1))
| run_best b l x y : book_run b l → book_run (best_order b x y).1 l
| run_match b l x y b' r :
    book_run b l → x ∈ l → y ∈ l → apply_match b x y = (b', Some r) →
    book_run b' (still_active b' l)
| run_cycle b l b' f f' :
    book_run b l → cycle_step (b, f) (b', f') → book_run b' (still_active b' l)
| run_feed b l f : book_run b l → book_run (set_feed b f) l
| run_credit b l t v : book_run b l → book_run (add_protocol_balance b t v) l
| run_debit b l t v : book_run b l → 0 <= v → book_run (deduct_protocol_balance b t v) l
| run_clear b l : book_run b l → book_run (set_balances b ∅) l.

Lemma set_feed_inv b l f : book_inv b l → book_inv (set_feed b f) l.
Proof. by intros [? ? ? ? ? ? ?]. Qed.

Lemma clear_balances_inv b l : book_inv b l → book_inv (set_balances b ∅) l.
Proof. intros [? ? ? ? ? _ ?]. by split. Qed.

Lemma deduct_balance_inv b l t v : book_inv b l → 0 <= v → book_inv (deduct_protocol_balance b t v) l.
Proof.
  intros [? ? ? ? ? Hbal ?] Hv. split; try done. intros t' v'. simpl.
  rewrite lookup_alter. case_decide; [|by apply Hbal].
  intros (w & Hw & ->)%fmap_Some. apply Hbal in Hw. u64.
Qed.

Lemma book_run_inv b l : book_run b l → book_inv b l.
Proof.
  induction 1; auto using book_new_inv, add_user_order_inv, remove_order_inv, park_inv, unpark_inv,
    set_feed_inv, clear_balances_inv, deduct_balance_inv.
  - by apply reactivate_loop_inv.
  - rewrite (best_order_eq b l) by done. done.
  - eapply (apply_match_inv b l x y); done.
  - match goal with H : cycle_step _ _ |- _ =>
      apply (cycle_step_progress l) in H as [Hp _]; [|done]; apply (pr_inv _ _ _ Hp) end.
  - by apply add_balance_dirty.
Qed.

(** ** Invariant *)

(** C9. Along every sequence of operations the book is consistent: the index of every pair
    lists exactly the pair's visible orders (active and not parked) by rate and then by
    arrival, its counters and adjacency sets agree with it, every order is within its
    terms, every parked note is an active order with an entry in the expiry queue, the
    token registry holds every token of an order and balances are 64-bit. *)
Theorem book_invariant b l : book_run b l → book_inv b l.
Proof. apply book_run_inv. Qed.

(** ** Queries *)

(** C26. [best_order] is price-time priority: it returns a visible order of the pair, no
    visible order of the pair has a strictly better rate, and among the orders of the
    same rate it is the one that joined first; it leaves the book as it is. *)
Theorem best_order_price_time b l x y o b' :
  book_run b l → best_order b x y = (b', Some o) →
  b' = b ∧ visible b (oid o) o ∧ pair_of o = (x, y) ∧
  (∀ id o', visible b id o' → pair_of o' = (x, y) → rate_le (rate_key o) (rate_key o')) ∧
  head (filter (λ i, rate_eq (rate_key o) (rate_of (orders b) i)) (pair_ids (orders b) (x, y) l))
    = Some (oid o).
Proof.
  intros Hr%book_run_inv Hbest. destruct (best_order_Some b l x y b' o Hr Hbest) as (-> & Hv & Hp & Hh).
  pose proof Hv as (Ho & _). rewrite <-(rate_of_lookup (orders b) (oid o) o Ho). split_and!; try done.
  - intros id o' Hv' Hp'. by apply (ranked_head_best b l (x, y) (oid o) Hr Hh id o').
  - apply (ranked_head_best b l (x, y) (oid o) Hr Hh (oid o) o Hv Hp).
    rewrite <-(rate_of_lookup (orders b) (oid o) o Ho). apply rate_eq_iff. lia.
Qed.

(** [best_order] finds an order, [has_orders] is true and the pair is indexed exactly
    when the pair has a visible order, and [active_order_count] counts the visible
    orders of the book. *)
Theorem book_counts_visible b l x y :
  book_run b l →
  (has_orders b x y = true ↔ ∃ id o, visible b id o ∧ pair_of o = (x, y)) ∧
  (is_Some (best_order b x y).2 ↔ ∃ id o, visible b id o ∧ pair_of o = (x, y)) ∧
  (is_Some (pair_index b !! (x, y)) ↔ ∃ id o, visible b id o ∧ pair_of o = (x, y)) ∧
  active_order_count b = Z.of_nat (length l) ∧ NoDup l ∧ (∀ id, id ∈ l ↔ ∃ o, visible b id o).
Proof.
  intros Hr%book_run_inv. rewrite <-(has_orders_indexed b l), (has_orders_iff b l) by done.
  split_and!; try done.
  - destruct (best_order b x y) as [b' [o|]] eqn:Hbest; simpl.
    + destruct (best_order_Some b l x y b' o Hr Hbest) as (_ & Hv & Hp & _).
      split; [intros _; by exists (oid o), o | by eexists].
    + destruct (best_order_None b l x y b' Hr Hbest) as [_ Hn]. split; [by intros [? ?]|].
      intros (id & Hv). apply (elem_of_ranked b l _ id Hr) in Hv. rewrite Hn in Hv. by apply elem_of_nil in Hv.
  - by apply active_order_count_length.
  - apply (bi_index _ _ _ Hr).
  - intros id. apply (inv_live_iff b l id Hr).
Qed.

(** [notes_for_pair] returns the visible orders of the pair, each once, from the best
    rate to the worst and in order of arrival within a rate. *)
Theorem notes_for_pair_ranked b l x y :
  book_run b l →
  notes_for_pair b x y = orders_of b (ranked b l (x, y)) ∧
  ranked b l (x, y) ≡ₚ pair_ids (orders b) (x, y) l ∧
  (∀ id, id ∈ ranked b l (x, y) ↔ ∃ o, visible b id o ∧ pair_of o = (x, y)) ∧
  sorted_by_rate (rate_of (orders b)) (ranked b l (x, y)) ∧
  ∀ k, rate_wf k → filter (λ i, rate_eq k (rate_of (orders b) i)) (ranked b l (x, y)) =
    filter (λ i, rate_eq k (rate_of (orders b) i)) (pair_ids (orders b) (x, y) l).
Proof.
  intros Hr%book_run_inv. pose proof (ranked_rates_wf b l (x, y) Hr). split_and!.
  - by apply notes_for_pair_eq.
  - apply rate_sort_perm.
  - intros id. by apply elem_of_ranked.
  - by apply rate_sort_sorted.
  - intros k Hk. by apply rate_sort_stable.
Qed.

(** [best_level] reports the rate of the best order and, as volume, what the visible
    orders of that rate can still release (capped at the largest 64-bit amount); it
    reports nothing exactly when the pair has no visible order. *)
Theorem best_level_correct b l x y :
  book_run b l →
  match best_level b x y with
  | None => ¬ ∃ id o, visible b id o ∧ pair_of o = (x, y)
  | Some (k, v) =>
    (∃ o, (best_order b x y).2 = Some o ∧ rate_eq k (rate_key o)) ∧
    v = Z.min (two64 - 1) (volume (orders_of b
          (filter (λ i, rate_eq k (rate_of (orders b) i)) (pair_ids (orders b) (x, y) l))))
  end.
Proof.
  intros Hr%book_run_inv. pose proof (best_level_eq b l x y Hr) as Hl.
  destruct (best_level b x y) as [[k v]|].
  - destruct Hl as (id & Hh & _ & Hk & ->). split; [|done]. rewrite (best_order_eq b l), Hh by done. simpl.
    assert (id ∈ ranked b l (x, y)) as (o & (Ho & _) & _)%(elem_of_ranked b l _ id Hr)
      by (by apply head_Some_elem_of).
    exists o. split; [done|]. by rewrite (rate_of_lookup _ id o) in Hk.
  - intros (id & Hv). apply (elem_of_ranked b l _ id Hr) in Hv. rewrite Hl in Hv. by apply elem_of_nil in Hv.
Qed.

(** ** Parking *)

(** A parked note is invisible to matching until it is unparked, and unparking puts
    the order back exactly as it was, at the end of its rate's queue. *)
Theorem park_unpark b l id o dex time :
  book_run b l → visible b id o →
  let b' := park b id dex time in
  let '(b'', released) := unpark b' id in
  is_parked b' id = true ∧ book_inv b' (remove_first id l) ∧ (id ∉ remove_first id l) ∧
  released = Some dex ∧ is_parked b'' id = false ∧
  orders b'' = orders b ∧ book_inv b'' (remove_first id l ++ [id]).
Proof.
  intros Hr%book_run_inv (Ho & Hp & Ha). simpl.
  pose proof (park_inv b l id dex time Hr) as Hpk. pose proof (unpark_inv _ _ id Hpk) as Hun.
  assert (parked (park b id dex time) !! id = Some (dex, time) ∧ orders (park b id dex time) = orders b)
    as [Hpk' Hord].
  { unfold park. rewrite bool_decide_eq_false_2, Ho, Ha by (by rewrite Hp; apply is_Some_None). simpl.
    rewrite lookup_insert_eq. split; [done|].
    by destruct (remove_from_index_fields (count_dec b (pair_of o)) (pair_of o) (rate_key o) id) as (-> & _). }
  rewrite Hpk' in Hun. rewrite bool_decide_eq_true_2 in Hun by (by eexists).
  pose proof (unpark_parked (park b id dex time) (park_queue (park b id dex time)) id) as Hnp.
  rewrite set_queue_same in Hnp.
  assert ((unpark (park b id dex time) id).2 = Some dex) as Hrel by (unfold unpark; by rewrite Hpk').
  assert (orders (unpark (park b id dex time) id).1 = orders b) as Hord'.
  { unfold unpark, reindex. rewrite Hpk'. simpl. rewrite Hord, Ho, Ha. done. }
  destruct (unpark (park b id dex time) id) as [b'' rel]. simpl in *.
  split_and!; try done.
  - unfold is_parked. rewrite Hpk'. by apply bool_decide_eq_true_2; eexists.
  - rewrite elem_of_remove_first by apply (bi_index _ _ _ Hr). tauto.
  - unfold is_parked. rewrite Hnp, lookup_delete_eq. by apply bool_decide_eq_false_2, is_Some_None.
Qed.

(** Reactivation releases every overdue note: with the expiry queue in time order, no
    note parked at [t] is still parked once [t + ttl] is reached (the sum saturates at
    the largest 64-bit instant); the released notes were parked, and they rejoin the
    book in queue order. *)
Theorem reactivate_releases_overdue b l ttl time :
  book_run b l → StronglySorted (λ x y, x.1 <= y.1) (park_queue b) →
  let '(b', out) := reactivate_parked_older_than b ttl time in
  (∀ id dex t, parked b' !! id = Some (dex, t) → time < sat_add64 t ttl) ∧
  (∀ id dex, (id, dex) ∈ out → is_Some (parked b !! id)) ∧
  book_inv b' (l ++ (out.*1)).
Proof.
  intros Hr%book_run_inv Hs. unfold reactivate_parked_older_than.
  pose proof (reactivate_loop_left ttl time (park_queue b) b l Hr eq_refl Hs) as H1.
  pose proof (reactivate_loop_was_parked ttl time (park_queue b) b) as H2.
  pose proof (reactivate_loop_inv ttl time (park_queue b) b l Hr eq_refl) as H3.
  by destruct (reactivate_loop (park_queue b) ttl time b) as [b' out].
Qed.
End theorems.

(** ** A concrete book *)

(** Two resting orders of the pair (1, 2), the second at the better rate, and one of the
    opposite pair; all tokens priced. *)
Definition sample_feed : WatchPriceFeed := watch_feed_from {[1%N := 100; 2%N := 100; 3%N := 100]}.

Definition sample_book : OrderBook WatchPriceFeed :=
  add_user_order (add_user_order (add_user_order (book_new sample_feed)
    1 1 2 100 50) 2 1 2 100 40) 3 2 1 60 80.

Lemma sample_run : book_run sample_book [1%N; 2%N; 3%N].
Proof.
  pose proof (run_new sample_feed) as H.
  apply (run_add _ _ 1 1 2 100 50) in H; [|vm_compute; by split..|by vm_compute].
  apply (run_add _ _ 2 1 2 100 40) in H; [|vm_compute; by split..|by vm_compute].
  apply (run_add _ _ 3 2 1 60 80) in H; [|vm_compute; by split..|by vm_compute].
  match type of H with book_run _ ?l => replace [1%N; 2%N; 3%N] with l by (vm_compute; reflexivity) end.
  exact H.
Qed.

Lemma book_invariant_witness : book_inv sample_book [1%N; 2%N; 3%N].
Proof. apply book_invariant, sample_run. Defined.

Lemma best_order_price_time_witness :
  (best_order sample_book 1 2).2 = Some (mk_order 2 1 2 100 40 40) ∧
  rate_le (mk_rate_key 40 100) (mk_rate_key 50 100).
Proof.
  assert ((best_order sample_book 1 2).2 = Some (mk_order 2 1 2 100 40 40)) as H by (vm_compute; reflexivity).
  split; [done|]. destruct (best_order sample_book 1 2) as [b' best] eqn:E. simpl in H. subst best.
  apply (best_order_price_time sample_book _ 1 2 _ _ sample_run E) with (id := 1%N) (o' := mk_order 1 1 2 100 50 50);
    [|reflexivity]. vm_compute. split_and!; reflexivity.
Defined.

Lemma book_counts_visible_witness : has_orders sample_book 1 2 = true ∧ active_order_count sample_book = 3.
Proof. split; [vm_compute; reflexivity|]. apply (book_counts_visible sample_book _ 1 2 sample_run). Defined.

Lemma notes_for_pair_ranked_witness :
  notes_for_pair sample_book 1 2 = [mk_order 2 1 2 100 40 40; mk_order 1 1 2 100 50 50].
Proof. rewrite (proj1 (notes_for_pair_ranked sample_book _ 1 2 sample_run)). vm_compute. reflexivity. Defined.

Lemma best_level_correct_witness :
  best_level sample_book 1 2 = Some (mk_rate_key 40 100, 100) ∧
  ∃ o, (best_order sample_book 1 2).2 = Some o ∧ rate_eq (mk_rate_key 40 100) (rate_key o).
Proof.
  pose proof (best_level_correct sample_book _ 1 2 sample_run) as H.
  assert (best_level sample_book 1 2 = Some (mk_rate_key 40 100, 100)) as E by (vm_compute; reflexivity).
  rewrite E in H. split; [done|]. apply H.
Defined.

Lemma park_unpark_witness :
  visible sample_book 2 (mk_order 2 1 2 100 40 40) ∧
  is_parked (park sample_book 2 7 1000) 2 = true ∧
  is_parked (unpark (park sample_book 2 7 1000) 2).1 2 = false.
Proof.
  assert (visible sample_book 2 (mk_order 2 1 2 100 40 40)) as Hv by (vm_compute; split_and!; reflexivity).
  pose proof (park_unpark sample_book _ 2 _ 7 1000 sample_run Hv) as H. split; [exact Hv|]. cbv zeta in H.
  destruct (unpark (park sample_book 2 7 1000) 2) as [b'' released].
  destruct H as (H1 & _ & _ & _ & H2 & _). split; [exact H1|exact H2].
Defined.

Lemma reactivate_releases_overdue_witness :
  (reactivate_parked_older_than (park sample_book 2 7 1000) 30 1030).2 = [(2%N, 7%N)] ∧
  parked (reactivate_parked_older_than (park sample_book 2 7 1000) 30 1030).1 !! 2%N = None.
Proof.
  split; [vm_compute; reflexivity|].
  pose proof (reactivate_releases_overdue (park sample_book 2 7 1000) _ 30 1030
    (run_park _ _ 2 7 1000 sample_run)) as H.
  assert (StronglySorted (λ x y : Z * N, x.1 <= y.1) (park_queue (park sample_book 2 7 1000))) as Hs
    by (replace (park_queue _) with [(1000, 2%N)] by (vm_compute; reflexivity); repeat constructor).
  specialize (H Hs). destruct (reactivate_parked_older_than _ _ _) as [b' out] eqn:E.
  destruct H as [H _]. cbn [fst]. destruct (parked b' !! 2%N) as [[dex t]|] eqn:Hp; [|done].
  specialize (H _ _ _ Hp). exfalso.
  assert (b' = (reactivate_parked_older_than (park sample_book 2 7 1000) 30 1030).1) as -> by (by rewrite E).
  vm_compute in Hp. congruence.
Defined.

(** A queue entry left behind by an unpark is not inert: a note parked at 0, unparked,
    and parked again at 100 is released at 110 by a time-to-live of 50, although it has
    been parked for 10 only. *)
Theorem stale_queue_entry_releases_early :
  let b1 := (unpark (park sample_book 2 7 0) 2).1 in
  let b2 := park b1 2 8 100 in
  parked b2 !! 2%N = Some (8%N, 100) ∧
  (reactivate_parked_older_than b2 50 110).2 = [(2%N, 8%N)] ∧ 110 < 100 + 50.
Proof. vm_compute. split_and!; reflexivity. Qed.
