(* ===== verification/MatchingTheorems.v ===== *)
(** * Matching: theorems

    The arithmetic of orders, the two matching phases and the engine.  The witnesses
    evaluate the theorems on concrete orders and books. *)

From stdpp Require Import option relations.
From S2P Require Import Prelude.
From S2P Require Import Orders.
From S2P Require Import RateIndex.
From S2P Require Import PriceFeed.
From S2P Require Import OrderBook.
From S2P Require Import IndexInvariant.
From S2P Require Import BookInvariant.
From S2P Require Import BookOps.
From S2P Require Import BookQueries.
From S2P Require Import Fills.
From S2P Require Import DirectMatching.
From S2P Require Import ThreeEdgeCycle.
From S2P Require Import CycleProofs.
From S2P Require Import Engine.
From S2P Require Import BookTheorems.

(** ** Orders *)

(** A successful [match_with] is exact double-entry bookkeeping: each side is filled by
    a positive amount within what it still wants, each release equals what the other
    side receives plus the reported surplus, both surpluses are non-negative, and the
    match either completes the counter-order or leaves the order with nothing more to
    release. *)
Theorem match_with_accounting a b a' b' r :
  order_wf a → order_wf b → match_with a b = (Some r, a', b') →
  ∃ sends receives, match_ok a b a' b' r sends receives ∧ order_wf a' ∧ order_wf b'.
Proof.
  intros Ha Hb Hm. destruct (match_with_ok a b a' b' r Ha Hb Hm) as (s & v & Hok).
  exists s, v. pose proof (mo_sends _ _ _ _ _ _ _ Hok). pose proof (mo_receives _ _ _ _ _ _ _ Hok).
  pose proof (mo_a _ _ _ _ _ _ _ Hok) as ->. pose proof (mo_b _ _ _ _ _ _ _ Hok) as ->.
  split; [done|]. destruct Ha as (? & ? & ?), Hb as (? & ? & ?). unfold order_wf. simpl. lia.
Qed.

Lemma match_with_accounting_witness :
  ∃ s v, match_ok (mk_order 1 1 2 100 50 50) (mk_order 3 2 1 60 80 80)
    (mk_order 1 1 2 100 50 0) (mk_order 3 2 1 60 80 0) (mk_match_result 20 10) s v.
Proof.
  destruct (match_with_accounting (mk_order 1 1 2 100 50 50) (mk_order 3 2 1 60 80 80)
    (mk_order 1 1 2 100 50 0) (mk_order 3 2 1 60 80 0) (mk_match_result 20 10)) as (s & v & H & _).
  - vm_compute. split_and!; congruence.
  - vm_compute. split_and!; congruence.
  - vm_compute. reflexivity.
  - exists s, v. exact H.
Defined.

(** [min_fill_for_release] is the least fill that releases the target: a target above
    the offer asks for a complete fill, any other target is released by the result and
    by no smaller fill. *)
Theorem min_fill_for_release_least o t :
  order_wf o → 0 <= t →
  let m := min_fill_for_release o t in
  0 <= m <= requested o ∧ Z.min t (offered o) <= offered_for o m ∧
  ∀ f, 0 <= f <= requested o → Z.min t (offered o) <= offered_for o f → m <= f.
Proof.
  intros Hwf Ht. destruct (Z.le_ge_cases t (offered o)) as [Hle|Hge].
  - rewrite Z.min_l by done. by apply min_fill_least.
  - rewrite Z.min_r by done. pose proof Hwf as (? & ? & ?).
    assert (min_fill_for_release o t = min_fill_for_release o (offered o)) as ->.
    { unfold min_fill_for_release. destruct (Z.eqb_spec t 0), (Z.eqb_spec (offered o) 0); try lia.
      by rewrite !(proj2 (Z.leb_le _ _)) by lia. }
    apply min_fill_least; [done|lia].
Qed.

Lemma min_fill_for_release_least_witness :
  min_fill_for_release (mk_order 1 1 2 100 70 70) 33 = 24 ∧
  33 <= offered_for (mk_order 1 1 2 100 70 70) 24.
Proof.
  split; [reflexivity|].
  apply (min_fill_for_release_least (mk_order 1 1 2 100 70 70) 33); [vm_compute; split_and!; congruence|lia].
Defined.

(** The release of a fill is the exact quotient, fits in 64 bits and never exceeds the
    offer; it grows with the fill, a complete fill releases the whole offer, and filling
    in two parts never releases more than filling at once. *)
Theorem offered_for_arithmetic o f g :
  order_wf o → 0 <= f → 0 <= g → f + g <= requested o →
  offered_for o f = offered o * f / requested o ∧ is_u64 (offered_for o f) ∧
  offered_for o f <= offered_for o (f + g) <= offered o ∧
  offered_for o (requested o) = offered o ∧
  offered_for o f + offered_for o g <= offered_for o (f + g).
Proof.
  intros Hwf Hf Hg Hfg. destruct (offered_for_exact o f Hwf ltac:(lia)) as [E ?].
  destruct (offered_for_exact o (f + g) Hwf ltac:(lia)) as [_ ?]. pose proof Hwf as (? & _ & _).
  split; [done|]. split; [u64|]. split_and!; [apply offered_for_mono; [done|lia|lia]|lia
    |by apply offered_for_full|by apply offered_for_superadd].
Qed.

Lemma offered_for_arithmetic_witness :
  offered_for (mk_order 1 1 2 100 70 70) 3 + offered_for (mk_order 1 1 2 100 70 70) 3 <=
  offered_for (mk_order 1 1 2 100 70 70) (3 + 3).
Proof.
  apply (offered_for_arithmetic (mk_order 1 1 2 100 70 70) 3 3);
    [vm_compute; split_and!; congruence|lia|lia|simpl; lia].
Defined.

(** On positive amounts the comparison of rate keys is a total preorder, the key
    equality used by the index is its equivalence, and it compares the exact rationals
    requested / offered. *)
Theorem rate_order_total_preorder k1 k2 k3 :
  rate_wf k1 → rate_wf k2 → rate_wf k3 →
  (rate_le k1 k2 ∨ rate_le k2 k1) ∧
  (rate_le k1 k2 → rate_le k2 k3 → rate_le k1 k3) ∧
  (rate_eqb k1 k2 = true ↔ rate_le k1 k2 ∧ rate_le k2 k1) ∧
  rate_cmp k2 k1 = CompOpp (rate_cmp k1 k2) ∧
  (rate_cmp k1 k2 = Lt ↔ rk_requested k1 * rk_offered k2 < rk_requested k2 * rk_offered k1).
Proof.
  intros H1 H2 H3. split_and!.
  - rewrite !rate_le_iff. lia.
  - by apply rate_le_trans.
  - rewrite rate_eqb_cmp, !rate_le_iff. change (rate_cmp k1 k2 = Eq) with (rate_eq k1 k2).
    rewrite rate_eq_iff. lia.
  - apply rate_cmp_flip.
  - apply rate_lt_iff.
Qed.

Lemma rate_order_total_preorder_witness :
  rate_eqb (mk_rate_key 40 100) (mk_rate_key 2 5) = true.
Proof.
  apply (rate_order_total_preorder (mk_rate_key 40 100) (mk_rate_key 2 5) (mk_rate_key 1 1));
    vm_compute; split_and!; congruence.
Defined.

(** ** The phases *)

Section phases.
Context {F : Type} `{!PriceFeed F} `{HI : HashIter} `{CH : CycleHeap}.
Implicit Types b : OrderBook F.

(** C13. Direct matching terminates (two more turns than visible orders are enough for every
    pair) and exhausts the book: afterwards the best orders of the two directions of
    every pair of priced tokens do not match.  It only fills orders, and the ids it adds
    to the filled set are exactly those of the orders it changed. *)
Theorem direct_matching_exhausts b l f fuel :
  book_run b l → (length l + 2 <= fuel)%nat →
  ∃ r, run_direct_matching fuel b f = Some r ∧
    (∀ p, (p.1 < p.2)%N → exhausted (run_book r) p) ∧
    fills_to (orders b) (orders (run_book r)) ∧
    (∀ id, id ∈ run_filled r ↔ id ∈ f ∨ orders (run_book r) !! id ≠ orders b !! id) ∧
    book_inv (run_book r) (still_active (run_book r) l).
Proof.
  intros Hb%book_run_inv Hfuel. destruct (run_direct_matching_ok fuel b f l Hb Hfuel) as (r & E & P & _ & X).
  exists r. split_and!; try done; apply P.
Qed.

(** Direct matching is solvent in every token: the balance it credits is covered by what
    the fills release of the token beyond what they are paid in it, whatever the order
    in which hash containers are iterated. *)
Theorem direct_matching_solvent b l f fuel r :
  book_run b l → (length l + 2 <= fuel)%nat → run_direct_matching fuel b f = Some r →
  ∀ t, balance (run_book r) t - balance b t <=
    flow (orders (run_book r)) t - flow (orders b) t.
Proof.
  intros Hb%book_run_inv Hfuel E. destruct (run_direct_matching_ok fuel b f l Hb Hfuel) as (r' & E' & _ & C & _).
  assert (r' = r) as -> by congruence. apply C.
Qed.

(** The tokens of the canonical form are a rotation, so its pairs are the given ones. *)
Lemma canonical_pairs ta tb tc p :
  p ∈ triangle_pairs (canonical ta tb tc) ↔ p = (ta, tb) ∨ p = (tb, tc) ∨ p = (tc, ta).
Proof.
  unfold canonical, triangle_pairs.
  destruct (_ && _); [|destruct (_ && _)]; simpl; rewrite !elem_of_cons, elem_of_nil; tauto.
Qed.

Lemma try_build_has_orders b l t x p :
  book_inv b l → try_build_entry b t = Some (b, Some x) → p ∈ triangle_pairs t → has_orders b p.1 p.2 = true.
Proof.
  intros Hb. unfold try_build_entry.
  destruct (best_order b (tri_a t) (tri_b t)) as [b1 [ab|]] eqn:B1; [|done].
  apply (best_order_Some b l) in B1 as (-> & V1 & P1 & _); [|done].
  destruct (best_order b (tri_b t) (tri_c t)) as [b1 [bc|]] eqn:B2; [|done].
  apply (best_order_Some b l) in B2 as (-> & V2 & P2 & _); [|done].
  destruct (best_order b (tri_c t) (tri_a t)) as [b1 [ca|]] eqn:B3; [|done].
  apply (best_order_Some b l) in B3 as (-> & V3 & P3 & _); [|done].
  intros _. unfold triangle_pairs. rewrite !elem_of_cons, elem_of_nil.
  intros [->|[->|[->|[]]]]; simpl; apply (has_orders_iff b l _ _ Hb); eauto.
Qed.

(** The enumeration of triangles neither panics nor misses one: every triangle of
    tokens whose best orders make a profitable cycle is among the entries of the heap,
    and every entry is made of visible orders of its three pairs with a non-zero
    surplus. *)
Theorem enumerate_triangles_complete b l :
  book_run b l →
  ∃ e, enumerate_triangles b = Some e ∧ en_book e = b ∧
    Forall (entry_ok (orders b) l) (en_entries e) ∧
    ∀ ta tb tc x, tc ≠ ta → tc ≠ tb →
      try_build_entry b (canonical ta tb tc) = Some (b, Some x) → x ∈ en_entries e.
Proof.
  intros Hb%book_run_inv. destruct (enumerate_triangles_ok b l Hb) as (e & E & He & Hseen).
  exists e. split_and!; [done|apply He|apply He|]. intros ta tb tc x H1 H2 Hx.
  eapply (ei_seen _ _ _ He); [|done].
  assert (∀ p, p = (ta, tb) ∨ p = (tb, tc) ∨ p = (tc, ta) → has_orders b p.1 p.2 = true) as Hh.
  { intros p Hp. apply (try_build_has_orders b l _ x p Hb Hx). by apply canonical_pairs. }
  apply Hseen; [done|done|apply (Hh (ta, tb))|apply (Hh (tb, tc))|apply (Hh (tc, ta))]; tauto.
Qed.

(** C25. The triangular phase terminates without a panic and empties its heap: each executed
    cycle completes an order, and between two executions every heap entry is popped at
    most once while stale.  The phase only fills orders, reports exactly the orders it
    changed and keeps the book's invariant. *)
Theorem three_edge_cycle_terminates b l f fuel :
  book_run b l → (three_edge_fuel b l <= fuel)%nat →
  ∃ s, run_three_edge_cycle fuel b f = Some s ∧ cy_heap s = [] ∧
    rtc cycle_step (b, f) (cy_book s, cy_filled s) ∧
    fills_to (orders b) (orders (cy_book s)) ∧
    (∀ id, id ∈ cy_filled s ↔ id ∈ f ∨ orders (cy_book s) !! id ≠ orders b !! id) ∧
    book_inv (cy_book s) (still_active (cy_book s) l).
Proof.
  intros Hb%book_run_inv Hfuel. destruct (run_three_edge_ok fuel b f l Hb Hfuel) as (s & E & Hh & Hs & P).
  exists s. split_and!; try done; apply P.
Qed.

(** The cycle's credits are covered when every release covers the fill it pays for. *)
Lemma balance_credit_le b e f t :
  0 <= surplus_a f → 0 <= surplus_b f → 0 <= surplus_c f → (∀ t, is_u64 (balance b t)) →
  balance (credit b e f) t <= balance b t
    + (if decide (t = tri_a (ce_triangle e)) then surplus_a f else 0)
    + (if decide (t = tri_b (ce_triangle e)) then surplus_b f else 0)
    + (if decide (t = tri_c (ce_triangle e)) then surplus_c f else 0).
Proof.
  intros Ha Hb Hc Hbal. unfold credit.
  assert (∀ (b : OrderBook F) t v, (∀ t, is_u64 (balance b t)) → ∀ t', is_u64 (balance (add_protocol_balance b t v) t')) as Hu.
  { clear. intros b t v Hb t'. unfold add_protocol_balance. destruct (v =? 0); [done|].
    unfold balance. simpl. rewrite lookup_insert. case_decide; [apply wrap64_range|apply Hb]. }
  set (b1 := add_protocol_balance b _ _). set (b2 := add_protocol_balance b1 _ _).
  pose proof (Hu b (tri_a (ce_triangle e)) (surplus_a f) Hbal) as Hb1. fold b1 in Hb1.
  pose proof (Hu b1 (tri_b (ce_triangle e)) (surplus_b f) Hb1) as Hb2. fold b2 in Hb2.
  pose proof (balance_add_le b2 (tri_c (ce_triangle e)) (surplus_c f) t Hc (proj1 (Hb2 _))) as L3.
  pose proof (balance_add_le b1 (tri_b (ce_triangle e)) (surplus_b f) t Hb (proj1 (Hb1 _))) as L2.
  pose proof (balance_add_le b (tri_a (ce_triangle e)) (surplus_a f) t Ha (proj1 (Hbal _))) as L1.
  fold b1 in L1. fold b2 in L2. lia.
Qed.

Lemma executed_flow b l e ab bc ca leg f t :
  book_inv b l → cycle_of b e ab bc ca → sim_ok ab bc ca leg f →
  flow (orders b) t
    + (if decide (t = tri_a (ce_triangle e)) then offered_for ab (fill_b f) - fill_a f else 0)
    + (if decide (t = tri_b (ce_triangle e)) then offered_for bc (fill_c f) - fill_b f else 0)
    + (if decide (t = tri_c (ce_triangle e)) then offered_for ca (fill_a f) - fill_c f else 0)
  <= flow (executed_orders b e ab bc ca f) t.
Proof.
  intros Hb Hc [S1 S2 S3 _ _]. destruct (cycle_of_distinct _ _ _ _ _ Hc) as (N1 & N2 & N3).
  destruct Hc as [[O1 _] [O2 _] [O3 _] P1 P2 P3 _].
  pose proof (contribution_fill t ab (fill_b f) (orders_wf b l ∅ _ _ Hb O1) ltac:(lia)) as C1.
  pose proof (contribution_fill t bc (fill_c f) (orders_wf b l ∅ _ _ Hb O2) ltac:(lia)) as C2.
  pose proof (contribution_fill t ca (fill_a f) (orders_wf b l ∅ _ _ Hb O3) ltac:(lia)) as C3.
  unfold flow, executed_orders.
  rewrite (msum_insert _ _ (ce_bc e) bc) by (by rewrite !lookup_insert_ne).
  rewrite (msum_insert _ _ (ce_ca e) ca) by (by rewrite !lookup_insert_ne).
  rewrite (msum_insert _ _ (ce_ab e) ab) by done.
  unfold pair_of in *. injection P1 as P1 P1'. injection P2 as P2 P2'. injection P3 as P3 P3'.
  rewrite P1, P1' in C1. rewrite P2, P2' in C2. rewrite P3, P3' in C3.
  repeat case_decide; subst; try congruence; lia.
Qed.

(** Every cycle the phase executes fills three distinct visible orders within what they
    still want, completes one of them (the bottleneck) and credits the clamped
    differences between releases and fills.  Going round from the bottleneck, the first
    two releases cover the fills they pay for; when the last release covers the
    bottleneck's fill too, the cycle is solvent in every token. *)
Theorem executed_cycle_sound b l f b' f' :
  book_run b l → cycle_step (b, f) (b', f') →
  ∃ e ab bc ca leg fills,
    cycle_of b e ab bc ca ∧ sim_ok ab bc ca leg fills ∧ ce_surplus e ≠ 0 ∧
    orders b' = executed_orders b e ab bc ca fills ∧
    f' = {[ce_bc e]} ∪ ({[ce_ca e]} ∪ ({[ce_ab e]} ∪ f)) ∧
    (fill_b fills = requested_remaining ab ∨ fill_c fills = requested_remaining bc ∨
     fill_a fills = requested_remaining ca) ∧
    (fill_a fills <= offered_for ab (fill_b fills) → fill_b fills <= offered_for bc (fill_c fills) →
     fill_c fills <= offered_for ca (fill_a fills) → covered b b').
Proof.
  intros Hb%book_run_inv Hs. inversion Hs as [b0 f0 e ab bc ca sim b0' f0' Hc Hsim _ Hne Hex]; subst.
  destruct (simulate_full_ok b l ∅ e ab bc ca sim Hb Hc Hsim) as [leg Hok].
  rewrite (execute_cycle_eq b e ab bc ca leg) in Hex by done. injection Hex as <- <-.
  destruct (credit_fields (executed_book b e ab bc ca (sim_fills sim)) e (sim_fills sim)) as (C1 & _).
  destruct (executed_fields b e ab bc ca (sim_fills sim)) as (E1 & _ & _ & E4 & _).
  exists e, ab, bc, ca, leg, (sim_fills sim). split_and!; try done.
  - by rewrite C1.
  - by eapply sim_ok_fills.
  - intros Ha Hbb Hcc t. rewrite C1, E1. destruct (so_surplus _ _ _ _ _ Hok) as (Ea & Eb & Ec).
    pose proof (executed_flow b l e ab bc ca leg _ t Hb Hc Hok).
    assert (∀ t, balance (executed_book b e ab bc ca (sim_fills sim)) t = balance b t) as Hbal
      by (intros; unfold balance; by rewrite E4).
    pose proof (balance_credit_le (executed_book b e ab bc ca (sim_fills sim)) e (sim_fills sim) t) as Hcr.
    unfold sat_sub in *. rewrite Hbal in Hcr. rewrite Ea, Eb, Ec, !Z.max_r in * by lia.
    specialize (Hcr ltac:(lia) ltac:(lia) ltac:(lia)).
    enough (∀ t', is_u64 (balance (executed_book b e ab bc ca (sim_fills sim)) t')) as Hu
      by (specialize (Hcr Hu); lia).
    intros t'. rewrite Hbal. by eapply balance_u64.
Qed.
End phases.

(** ** The engine *)

Section engine.
Context {F : Type} `{!PriceFeed F} `{HI : HashIter} `{CH : CycleHeap}.
Implicit Types b : OrderBook F.

(** A run of the engine returns, for enough fuel in its loops, with either setting of the
    triangular phase.  It changes orders only by filling them; the batch names exactly the orders it
    changed, counts the orders that stay visible and lists the positive balances. *)
Theorem engine_run_total (e : MatchingEngine F) l :
  book_run (book e) l →
  ∃ n, ∀ fuel, (n <= fuel)%nat →
  ∃ e' batch, run fuel e = Some (e', batch) ∧
    triangular_enabled e' = triangular_enabled e ∧
    fills_to (orders (book e)) (orders (book e')) ∧
    (∀ id, id ∈ filled_orders batch ↔ orders (book e') !! id ≠ orders (book e) !! id) ∧
    remaining_orders batch = Z.of_nat (length (still_active (book e') l)) ∧
    (∀ t v, batch_balances batch !! t = Some v ↔ protocol_balances (book e') !! t = Some v ∧ 0 < v) ∧
    book_inv (book e') (still_active (book e') l).
Proof.
  intros Hb%book_run_inv. destruct (run_ok e l Hb) as (n & Hn). exists n. intros fuel Hf.
  destruct (Hn fuel Hf) as (e' & batch & E & Ht & Hbt & P & _). exists e', batch.
  split_and!; try done; [apply P| | | |apply P].
  - intros id. rewrite (pr_filled _ _ _ P id). simpl. set_solver.
  - rewrite Hbt. simpl. apply active_order_count_length, (pr_inv _ _ _ P).
  - intros t v. rewrite Hbt. simpl. rewrite map_lookup_filter_Some. done.
Qed.

(** C14. Without the triangular phase, a run over untouched orders is solvent: for every token,
    the balance it reports is covered by what the filled orders release of the token
    beyond what they are paid in it, so no token is owed. *)
Theorem engine_direct_solvent (e : MatchingEngine F) l :
  book_run (book e) l → triangular_enabled e = false →
  untouched (orders (book e)) → protocol_balances (book e) = ∅ →
  ∃ n, ∀ fuel, (n <= fuel)%nat → ∃ e' batch, run fuel e = Some (e', batch) ∧
    ∀ t, 0 <= default 0 (batch_balances batch !! t) <= flow (orders (book e')) t.
Proof.
  intros Hb%book_run_inv Ht Hu Hz. destruct (run_ok e l Hb) as (n & Hn). exists n. intros fuel Hf.
  destruct (Hn fuel Hf) as (e1 & batch & E & _ & Hbt & P & C). exists e1, batch. split; [done|].
  intros t. destruct (C Ht) as [Hc _]. specialize (Hc t).
  rewrite (flow_untouched (book e) l ∅) in Hc by done.
  pose proof (balance_nonneg _ _ ∅ t (pr_inv _ _ _ P)) as Hnn. simpl in Hnn.
  unfold balance in *. rewrite Hz, lookup_empty in Hc. simpl in Hc.
  rewrite Hbt. simpl. rewrite map_lookup_filter.
  destruct (protocol_balances (book e1) !! t) as [v|]; simpl in *; [|lia].
  case_guard; simpl; lia.
Qed.
End engine.

(** ** Witnesses *)

(** The triangle of the insolvency example: order 10 offers 200 of token 1 for 100 of
    token 2, order 11 offers 100 of token 3 for 100 of token 1, order 12 offers 60 of
    token 2 for 100 of token 3. *)
Definition triangle_book : OrderBook WatchPriceFeed :=
  add_user_order (add_user_order (add_user_order
    (book_new (watch_feed_from {[1%N := 1; 2%N := 1; 3%N := 1]}))
    10 1 2 200 100) 11 3 1 100 100) 12 2 3 60 100.

Lemma triangle_run : book_run triangle_book [10%N; 11%N; 12%N].
Proof.
  pose proof (run_new (watch_feed_from {[1%N := 1; 2%N := 1; 3%N := 1]})) as H.
  apply (run_add _ _ 10 1 2 200 100) in H; [|vm_compute; by split..|by vm_compute].
  apply (run_add _ _ 11 3 1 100 100) in H; [|vm_compute; by split..|by vm_compute].
  apply (run_add _ _ 12 2 3 60 100) in H; [|vm_compute; by split..|by vm_compute].
  match type of H with book_run _ ?l =>
    replace [10%N; 11%N; 12%N] with l by (vm_compute; reflexivity) end.
  exact H.
Qed.

#[local] Existing Instance elements_iter.
#[local] Existing Instance list_heap.

Lemma direct_matching_exhausts_witness :
  ∃ r, run_direct_matching 5 sample_book ∅ = Some r ∧ exhausted (run_book r) (1%N, 2%N).
Proof.
  destruct (direct_matching_exhausts sample_book _ ∅ 5 sample_run ltac:(simpl; lia)) as (r & E & X & _).
  exists r. split; [exact E|]. apply X. reflexivity.
Defined.

Lemma direct_matching_solvent_witness :
  ∃ r, run_direct_matching 5 sample_book ∅ = Some r ∧ balance (run_book r) 1 = 20 ∧
    balance (run_book r) 1 - balance sample_book 1 <=
      flow (orders (run_book r)) 1 - flow (orders sample_book) 1.
Proof.
  destruct (run_direct_matching 5 sample_book ∅) as [r|] eqn:E; [|exfalso; vm_compute in E; discriminate E].
  exists r. split; [reflexivity|].
  assert ((λ r, balance (run_book r) 1) <$> run_direct_matching 5 sample_book ∅ = Some 20) as Hb
    by (vm_compute; reflexivity).
  rewrite E in Hb. injection Hb as Hb. split; [exact Hb|].
  apply (direct_matching_solvent sample_book _ ∅ 5 r sample_run); [simpl; lia|exact E].
Defined.

Lemma enumerate_triangles_complete_witness :
  ∃ e, enumerate_triangles triangle_book = Some e ∧
    mk_entry (mk_triangle 1 2 3) 10 12 11 100 ∈ en_entries e.
Proof.
  destruct (enumerate_triangles_complete triangle_book _ triangle_run) as (e & E & _ & _ & H).
  exists e. split; [exact E|]. apply (H 1%N 2%N 3%N); [discriminate|discriminate|].
  assert (snd <$> try_build_entry triangle_book (canonical 1 2 3) =
    Some (Some (mk_entry (mk_triangle 1 2 3) 10 12 11 100))) as Hx by (vm_compute; reflexivity).
  destruct (try_build_entry_ok triangle_book _ (canonical 1 2 3)
    (book_run_inv _ _ triangle_run)) as (oe & Eb & _); [by apply canonical_proper|].
  rewrite Eb in *. simpl in Hx. by injection Hx as ->.
Defined.

Lemma three_edge_cycle_terminates_witness :
  ∃ s, run_three_edge_cycle 20 triangle_book ∅ = Some s ∧ cy_heap s = [].
Proof.
  destruct (three_edge_cycle_terminates triangle_book _ ∅ 20 triangle_run) as (s & E & H & _).
  - vm_compute. lia.
  - exists s. split; [exact E|exact H].
Defined.

Lemma executed_cycle_sound_witness :
  ∃ b' f', cycle_step (triangle_book, ∅) (b', f') ∧
    ∃ e ab bc ca leg fills, cycle_of triangle_book e ab bc ca ∧ sim_ok ab bc ca leg fills.
Proof.
  set (e := mk_entry (mk_triangle 1 2 3) 10 12 11 100).
  set (sim := mk_simulation (mk_fills 100 100 100 100 0 0) 100).
  destruct (execute_cycle triangle_book e (sim_fills sim) ∅) as [[b' f'] ok] eqn:E.
  assert (ok = true) as -> by (transitivity (execute_cycle triangle_book e (sim_fills sim) ∅).2;
    [by rewrite E|vm_compute; reflexivity]).
  assert (cycle_step (triangle_book, ∅) (b', f')) as Hs.
  { apply (cycle_step_intro triangle_book ∅ e (mk_order 10 1 2 200 100 100) (mk_order 12 2 3 60 100 100)
      (mk_order 11 3 1 100 100 100) sim b' f'); [|vm_compute; reflexivity|reflexivity|discriminate|exact E].
    split; try (vm_compute; split_and!; reflexivity); try reflexivity.
    apply (canonical_proper 1 2 3); discriminate. }
  exists b', f'. split; [exact Hs|].
  destruct (executed_cycle_sound triangle_book _ ∅ b' f' triangle_run Hs)
    as (e' & ab & bc & ca & leg & fl & H1 & H2 & _).
  exists e', ab, bc, ca, leg, fl. split; [exact H1|exact H2].
Defined.

Lemma engine_run_total_witness :
  ∃ n, ∀ fuel, (n <= fuel)%nat →
    ∃ e' batch, run fuel (engine_new triangle_book) = Some (e', batch).
Proof.
  destruct (engine_run_total (engine_new triangle_book) _ triangle_run) as (n & H).
  exists n. intros fuel Hf. destruct (H fuel Hf) as (e' & batch & E & _). exists e', batch. exact E.
Defined.

Lemma engine_direct_solvent_witness :
  ∃ n, ∀ fuel, (n <= fuel)%nat →
    ∃ e' batch, run fuel (with_triangular_enabled (engine_new sample_book) false) = Some (e', batch) ∧
      0 <= flow (orders (book e')) 1.
Proof.
  destruct (engine_direct_solvent (with_triangular_enabled (engine_new sample_book) false) _ sample_run)
    as (n & H).
  - reflexivity.
  - assert (map_Forall (λ _ o, requested_remaining o = requested o) (orders sample_book)) as Hu
      by (apply (bool_decide_unpack _); vm_compute; exact I).
    exact Hu.
  - vm_compute. reflexivity.
  - exists n. intros fuel Hf. destruct (H fuel Hf) as (e' & batch & E & Hs). exists e', batch.
    split; [exact E|]. specialize (Hs 1%N). lia.
Defined.

(** The triangular phase can execute an insolvent cycle.  On the triangle above (all
    prices one cent) the bottleneck's fill of 100 is propagated from one order to the
    next, the last release is only 60, and the clamped subtraction turns the missing 40
    of token 2 into a surplus of zero: the run reports a balance of 100 of token 1 while
    the filled orders owe 40 of token 2. *)
Theorem triangular_run_insolvent :
  ∃ e' batch, run 20 (engine_new triangle_book) = Some (e', batch) ∧
    cycles_executed batch = 1 ∧ batch_balances batch = {[1%N := 100]} ∧
    filled_orders batch = {[10%N; 11%N; 12%N]} ∧ flow (orders (book e')) 2 = -40.
Proof.
  destruct (run 20 (engine_new triangle_book)) as [[e' batch]|] eqn:E; [|exfalso; vm_compute in E; discriminate E].
  exists e', batch. split; [reflexivity|].
  assert ((λ eb, (cycles_executed eb.2, batch_balances eb.2, filled_orders eb.2, flow (orders (book eb.1)) 2))
    <$> run 20 (engine_new triangle_book) =
    Some (1, {[1%N := 100]}, {[10%N; 11%N; 12%N]}, -40)) as H by (vm_compute; reflexivity).
  rewrite E in H. injection H as H1 H2 H3 H4. split_and!; [exact H1|exact H2|exact H3|exact H4].
Qed.
