(* ===== verification/Select.v ===== *)
(** * Note selection for external liquidity (crates/solver/src/router/select.rs, router/mod.rs)

    [select_notes] hands residual notes to the standing quotes of external DEXes: per
    pair, each note goes to the tightest crossing quote that still has room.  The lemmas
    relate the greedy scan to its specification: the choice is the last usable quote that
    crosses and has room, capacities are conserved, every note is handed out at most
    once. *)

From S2P Require Import Prelude.
From S2P Require Import Orders.

(** ** Data *)

Record Rate := mk_rate { rate_requested : Z; rate_offered : Z }.

(** A standing quote of a DEX, oriented as the notes are: up to [q_supply] of the
    requested token for [q_demand] of the offered one. *)
Record Quote := mk_quote {
  q_dex : DexId; q_pair : Pair; q_supply : Z; q_demand : Z; q_expires_at : Z
}.

Record Pick := mk_pick {
  pk_dex : DexId; pk_note_id : OrderId; pk_fill : Z; pk_pair : Pair; pk_price : Rate
}.

Record PairMatch := mk_pair_match { pm_picks : list Pick; pm_clearing : option Rate }.

Abbreviation QuotesSnapshot := (gmap Pair (list Quote)) (only parsing).

(** One note to deliver to one DEX. *)
Record RoutedNote := mk_routed {
  rn_dex : DexId; rn_note_id : OrderId; rn_fill : Z; rn_pair : Pair; rn_bytes : list N
}.

(** ** Operations *)

Definition crosses (note : Order) (q : Quote) : bool :=
  requested note * q_demand q <=? q_supply q * offered note.

(** [q.expires_at <= time || q.supply == 0 || q.demand == 0] skips a quote. *)
Definition usable (time : Z) (q : Quote) : bool :=
  negb ((q_expires_at q <=? time) || (q_supply q =? 0) || (q_demand q =? 0)).

(** The scan over the quotes and their remaining capacities, from index [i] on. *)
Fixpoint choose (note : Order) (time : Z) (quotes : list Quote) (remaining : list Z)
    (i : nat) (chosen : option nat) : option nat :=
  match quotes, remaining with
  | q :: quotes, r :: remaining =>
    if negb (usable time q) then choose note time quotes remaining (S i) chosen
    else if negb (crosses note q) then chosen
    else choose note time quotes remaining (S i) (if requested note <=? r then Some i else chosen)
  | _, _ => chosen
  end.

(** One turn of the loop over the notes. *)
Definition match_note (pair : Pair) (quotes : list Quote) (time : Z) (acc : list Z * list Pick)
    (note : Order) : list Z * list Pick :=
  let '(remaining, picks) := acc in
  match choose note time quotes remaining 0 None with
  | None => (remaining, picks)
  | Some i =>
    match quotes !! i with
    | None => (remaining, picks)
    | Some q =>
      (alter (λ r, r - requested note) i remaining,
       picks ++ [mk_pick (q_dex q) (oid note) (requested note) pair (mk_rate (requested note) (offered note))])
    end
  end.

Definition match_pair (pair : Pair) (notes : list Order) (quotes : list Quote) (time : Z) : PairMatch :=
  mk_pair_match (foldl (match_note pair quotes time) (q_supply <$> quotes, []) notes).2 None.

Definition select_notes `{HashIter} (n : N) (notes_by_pair : gmap Pair (list Order))
    (quotes_by_pair : gmap Pair (list Quote)) (time : Z) : list Pick :=
  foldl (λ picks pair,
    picks ++ pm_picks (match_pair pair (default [] (notes_by_pair !! pair))
                         (default [] (quotes_by_pair !! pair)) time))
    [] (hash_iter n (dom quotes_by_pair)).

(** ** The choice *)

(** Rates of quotes descend along the list, as the router publishes them. *)
Definition quotes_sorted (quotes : list Quote) : Prop :=
  StronglySorted (λ q1 q2, q_supply q2 * q_demand q1 <= q_supply q1 * q_demand q2) quotes.

Definition quote_wf (q : Quote) : Prop := 0 <= q_supply q ∧ 0 <= q_demand q.

(** Quote [i] may take the note. *)
Definition eligible (note : Order) (time : Z) (quotes : list Quote) (remaining : list Z) (i : nat) : Prop :=
  ∃ q r, quotes !! i = Some q ∧ remaining !! i = Some r ∧
    usable time q = true ∧ crosses note q = true ∧ requested note <= r.

Lemma usable_pos time q : quote_wf q → usable time q = true → 0 < q_supply q ∧ 0 < q_demand q.
Proof.
  intros [? ?]. unfold usable. rewrite negb_true_iff, !orb_false_iff, !Z.eqb_neq. lia.
Qed.

(** No quote after a usable one that does not cross crosses either. *)
Lemma crosses_prefix note q1 q2 :
  0 < q_demand q1 → 0 <= offered note → 0 < q_demand q2 →
  q_supply q2 * q_demand q1 <= q_supply q1 * q_demand q2 →
  crosses note q1 = false → crosses note q2 = false.
Proof.
  intros H1 H2 H3 Hs. unfold crosses. rewrite !Z.leb_gt. intros Hc.
  apply (Z.mul_lt_mono_pos_r (q_demand q1)); [done|].
  assert (q_supply q2 * q_demand q1 * offered note <= q_supply q1 * q_demand q2 * offered note) by nia.
  assert (q_supply q1 * offered note * q_demand q2 < requested note * q_demand q1 * q_demand q2) by nia.
  lia.
Qed.

(** The scan returns the last eligible index, or what it was given when there is none. *)
Lemma choose_spec note time quotes remaining i chosen :
  0 <= offered note → Forall quote_wf quotes → quotes_sorted quotes →
  length remaining = length quotes →
  match choose note time quotes remaining i chosen with
  | Some k => (chosen = Some k ∧ ∀ j, ¬ eligible note time quotes remaining j) ∨
      (∃ j, k = (i + j)%nat ∧ eligible note time quotes remaining j ∧
        ∀ j', eligible note time quotes remaining j' → (j' <= j)%nat)
  | None => chosen = None ∧ ∀ j, ¬ eligible note time quotes remaining j
  end.
Proof.
  intros Hoff. revert remaining i chosen. induction quotes as [|q quotes IH]; intros [|r remaining] i chosen Hwf Hs Hlen;
    simpl; try done.
  { assert (∀ j, ¬ eligible note time [] [] j) by (intros j (x & ? & Hj & _); by rewrite lookup_nil in Hj).
    destruct chosen; auto. }
  apply Forall_cons in Hwf as [Hq Hwf]. apply StronglySorted_inv in Hs as [Hs Hlater].
  rewrite Forall_forall in Hlater. injection Hlen as Hlen.
  assert (∀ j, eligible note time (q :: quotes) (r :: remaining) (S j) ↔ eligible note time quotes remaining j) as HS
    by done.
  destruct (usable time q) eqn:Hu; simpl.
  2: { assert (¬ eligible note time (q :: quotes) (r :: remaining) 0) as H0
         by (intros (x & y & [= <-] & _ & ? & _); congruence).
    specialize (IH remaining (S i) chosen Hwf Hs Hlen). destruct (choose _ _ _ _ _ _) as [k|].
    - destruct IH as [[-> Hn]|(j & -> & Hj & Hmax)]; [left|right].
      + split; [done|]. intros [|j]; [done|]. by rewrite HS.
      + exists (S j). split_and!; [lia|done|]. intros [|j'] Hj'; [lia|]. apply HS in Hj'. apply Hmax in Hj'. lia.
    - destruct IH as [-> Hn]. split; [done|]. intros [|j]; [done|]. by rewrite HS. }
  destruct (usable_pos time q Hq Hu) as [Hq1 Hq2]. destruct (crosses note q) eqn:Hc; simpl.
  2: { assert (∀ j, ¬ eligible note time (q :: quotes) (r :: remaining) j) as Hn.
    { intros [|j] (x & y & Hx & _ & Hux & Hcx & _); [simplify_eq/=; congruence|]. simpl in Hx.
      apply list_elem_of_lookup_2 in Hx. assert (quote_wf x) as Hwx by (by rewrite Forall_forall in Hwf; apply Hwf).
      destruct (usable_pos time x Hwx Hux).
      by rewrite (crosses_prefix note q x) in Hcx by auto. }
    destruct chosen; auto. }
  assert (eligible note time (q :: quotes) (r :: remaining) 0 ↔ requested note <= r) as H0.
  { split; [by intros (x & y & [= <-] & [= <-] & _ & _ & ?)|]. intros ?. by exists q, r. }
  specialize (IH remaining (S i) (if requested note <=? r then Some i else chosen) Hwf Hs Hlen).
  destruct (choose _ _ _ _ _ _) as [k|].
  - destruct IH as [[Hk Hn]|(j & -> & Hj & Hmax)].
    + destruct (Z.leb_spec (requested note) r) as [Hle|Hgt].
      * injection Hk as <-. right. exists 0%nat. split_and!; [lia|by apply H0|].
        intros [|j']; [lia|]. intros Hj'%HS. by apply Hn in Hj'.
      * left. split; [done|]. intros [|j]; [rewrite H0; lia|by rewrite HS].
    + right. exists (S j). split_and!; [lia|done|]. intros [|j'] Hj'; [lia|]. apply HS in Hj'. apply Hmax in Hj'. lia.
  - destruct IH as [Hk Hn]. destruct (Z.leb_spec (requested note) r); [done|]. split; [done|].
    intros [|j]; [rewrite H0; lia|by rewrite HS].
Qed.

(** Whatever the order of the quotes, a chosen quote is eligible. *)
Lemma choose_sound note time quotes remaining i chosen k :
  choose note time quotes remaining i chosen = Some k →
  chosen = Some k ∨ ∃ j, k = (i + j)%nat ∧ eligible note time quotes remaining j.
Proof.
  revert remaining i chosen. induction quotes as [|q quotes IH]; intros [|r remaining] i chosen; simpl; auto.
  assert (∀ c, choose note time quotes remaining (S i) c = Some k →
    c = Some k ∨ ∃ j, k = (i + j)%nat ∧ eligible note time (q :: quotes) (r :: remaining) j) as Hrec.
  { intros c [?|(j & -> & Hj)]%IH; [by left|]. right. exists (S j). split; [lia|done]. }
  destruct (usable time q) eqn:Hu; simpl; [|auto]. destruct (crosses note q) eqn:Hc; simpl; [|auto].
  intros [Hk|?]%Hrec; [|auto]. destruct (Z.leb_spec (requested note) r); [|auto].
  injection Hk as <-. right. exists 0%nat. split; [lia|]. by exists q, r.
Qed.

(** ** Capacities *)

(** The sum over the quotes of one DEX of the amounts beside them. *)
Definition dex_sum (d : DexId) (l : list (Quote * Z)) : Z :=
  foldr (λ x acc, (if decide (q_dex x.1 = d) then x.2 else 0) + acc) 0 l.

Definition fill_sum (d : DexId) (picks : list Pick) : Z :=
  foldr (λ p acc, (if decide (pk_dex p = d) then pk_fill p else 0) + acc) 0 picks.

Lemma fill_sum_app d p1 p2 : fill_sum d (p1 ++ p2) = fill_sum d p1 + fill_sum d p2.
Proof. induction p1 as [|p p1 IH]; simpl; [done|]. rewrite IH. lia. Qed.

Lemma dex_sum_alter d quotes remaining i q v :
  length remaining = length quotes → quotes !! i = Some q →
  dex_sum d (zip quotes (alter (λ r, r - v) i remaining)) =
  dex_sum d (zip quotes remaining) - (if decide (q_dex q = d) then v else 0).
Proof.
  unfold dex_sum, alter. revert remaining i.
  induction quotes as [|x quotes IH]; intros [|r remaining] [|i] Hlen Hq; try done; simpl in *.
  - simplify_eq. case_decide; lia.
  - rewrite IH by (done || lia). lia.
Qed.

Lemma dex_sum_nonneg d quotes remaining : Forall (λ r, 0 <= r) remaining → 0 <= dex_sum d (zip quotes remaining).
Proof.
  intros Hf. unfold dex_sum. revert quotes.
  induction Hf as [|r remaining Hr Hf IH]; intros [|q quotes]; simpl; try done.
  specialize (IH quotes). case_decide; lia.
Qed.

(** ** One pair *)

(** A pick of the pair is a whole note of the pair, handed to a usable quote it crosses. *)
Definition pick_ok (pair : Pair) (notes : list Order) (quotes : list Quote) (time : Z) (p : Pick) : Prop :=
  ∃ note q, note ∈ notes ∧ q ∈ quotes ∧ usable time q = true ∧ crosses note q = true ∧
    p = mk_pick (q_dex q) (oid note) (requested note) pair (mk_rate (requested note) (offered note)).

Record pair_state_ok (pair : Pair) (notes done_ : list Order) (quotes : list Quote) (time : Z)
    (acc : list Z * list Pick) : Prop := {
  ps_length : length acc.1 = length quotes;
  ps_room : Forall (λ r, 0 <= r) acc.1;
  ps_sum : ∀ d, fill_sum d acc.2 + dex_sum d (zip quotes acc.1) = dex_sum d (zip quotes (q_supply <$> quotes));
  ps_picks : Forall (pick_ok pair notes quotes time) acc.2;
  ps_once : pk_note_id <$> acc.2 `sublist_of` oid <$> done_;
}.

Lemma match_note_ok pair notes done_ quotes time acc note :
  note ∈ notes → pair_state_ok pair notes done_ quotes time acc →
  pair_state_ok pair notes (done_ ++ [note]) quotes time (match_note pair quotes time acc note).
Proof.
  intros Hin [Hlen Hroom Hsum Hpicks Honce]. destruct acc as [remaining picks]. simpl in *.
  assert (pk_note_id <$> picks `sublist_of` oid <$> done_ ++ [note]) as Hskip
    by (rewrite fmap_app; by apply sublist_inserts_r).
  destruct (choose note time quotes remaining 0 None) as [k|] eqn:Hch; [|by split].
  apply choose_sound in Hch as [?|(j & -> & q & r & Hq & Hr & Hu & Hc & Hle)]; [done|]. simpl.
  rewrite Hq. split; simpl.
  - by rewrite length_alter.
  - apply Forall_alter; [done|]. intros x Hx. simplify_eq. intros ?. lia.
  - intros d. rewrite fill_sum_app, (dex_sum_alter d quotes remaining j q) by done. simpl.
    specialize (Hsum d). case_decide; lia.
  - apply Forall_app. split; [done|]. constructor; [|done]. exists note, q.
    split_and!; try done. by eapply list_elem_of_lookup_2.
  - rewrite !fmap_app. apply sublist_app; [done|]. done.
Qed.

Lemma match_pair_ok pair notes quotes time :
  Forall quote_wf quotes →
  ∃ remaining, pair_state_ok pair notes notes quotes time (remaining, pm_picks (match_pair pair notes quotes time)).
Proof.
  intros Hwf. unfold match_pair. simpl.
  assert (∀ rest done_ acc, (∀ n, n ∈ rest → n ∈ notes) → pair_state_ok pair notes done_ quotes time acc →
    pair_state_ok pair notes (done_ ++ rest) quotes time (foldl (match_note pair quotes time) acc rest)) as Hloop.
  { induction rest as [|n rest IH]; intros done_ acc Hin Hacc; simpl; [by rewrite app_nil_r|].
    rewrite (app_assoc done_ [n] rest : done_ ++ n :: rest = _).
    apply IH; [intros; apply Hin; set_solver|]. apply match_note_ok; [apply Hin; set_solver|done]. }
  specialize (Hloop notes [] (q_supply <$> quotes, []) ltac:(done)).
  eexists (foldl _ _ notes).1. rewrite <-surjective_pairing. apply Hloop. split; simpl; try done.
  - by rewrite length_fmap.
  - apply Forall_fmap. eapply Forall_impl; [done|]. by intros q [? _].
Qed.

(** ** Every pair *)

Lemma select_notes_eq `{HashIter} n notes_by_pair quotes_by_pair time :
  select_notes n notes_by_pair quotes_by_pair time =
  concat ((λ pair, pm_picks (match_pair pair (default [] (notes_by_pair !! pair))
             (default [] (quotes_by_pair !! pair)) time)) <$> hash_iter n (dom quotes_by_pair)).
Proof.
  unfold select_notes. generalize (hash_iter n (dom quotes_by_pair)). intros l.
  change (concat ?x) with ([] ++ concat x). generalize (@nil Pick).
  induction l as [|p l IH]; intros acc; simpl; [by rewrite app_nil_r|]. by rewrite IH, <-app_assoc.
Qed.

(** The notes of a selection: those of a pair rest in it, and an id names one order. *)
Definition notes_ok (notes_by_pair : gmap Pair (list Order)) : Prop :=
  (∀ p ns n, notes_by_pair !! p = Some ns → n ∈ ns → pair_of n = p) ∧
  (∀ p ns, notes_by_pair !! p = Some ns → NoDup (oid <$> ns)) ∧
  (∀ p p' ns ns' n n', notes_by_pair !! p = Some ns → notes_by_pair !! p' = Some ns' →
    n ∈ ns → n' ∈ ns' → oid n = oid n' → n = n').

Lemma elem_of_match_pair pair notes quotes time p :
  p ∈ pm_picks (match_pair pair notes quotes time) → Forall quote_wf quotes →
  pick_ok pair notes quotes time p.
Proof.
  intros Hp Hwf. destruct (match_pair_ok pair notes quotes time Hwf) as (r & [_ _ _ Hf _]).
  rewrite Forall_forall in Hf. by apply Hf.
Qed.

Lemma NoDup_concat_map {A B} (f : A → list B) (l : list A) :
  NoDup l → (∀ x, x ∈ l → NoDup (f x)) → (∀ x y b, x ∈ l → y ∈ l → b ∈ f x → b ∈ f y → x = y) →
  NoDup (concat (f <$> l)).
Proof.
  induction 1 as [|x l Hx Hl IH]; intros Hnd Hdis; simpl; [constructor|].
  apply NoDup_app. split_and!.
  - apply Hnd. set_solver.
  - intros b Hb Hin. apply Hx. apply list_elem_of_In, in_concat in Hin as (ys & Hys & Hin).
    apply in_map_iff in Hys as (y & <- & Hy). apply list_elem_of_In in Hin, Hy.
    rewrite (Hdis x y b) by (done || set_solver). done.
  - apply IH; [intros; apply Hnd; set_solver|]. intros; eapply Hdis; eauto; set_solver.
Qed.

Lemma fmap_concat {A B} (g : A → B) (ls : list (list A)) :
  fmap (M:=list) g (concat ls) = concat (fmap (M:=list) (fmap (M:=list) g) ls).
Proof. induction ls as [|l ls IH]; simpl; [done|]. by rewrite fmap_app, IH. Qed.

(** Each note is handed out at most once, over all pairs. *)
Lemma select_notes_once `{HashIter} n notes_by_pair quotes_by_pair time :
  notes_ok notes_by_pair → (∀ p qs, quotes_by_pair !! p = Some qs → Forall quote_wf qs) →
  NoDup (pk_note_id <$> select_notes n notes_by_pair quotes_by_pair time).
Proof.
  intros (Hpair & Hnd & Hid) Hq. rewrite select_notes_eq, fmap_concat, <-list_fmap_compose. unfold compose.
  assert (∀ p, Forall quote_wf (default [] (quotes_by_pair !! p))) as Hq'
    by (intros p; destruct (quotes_by_pair !! p) eqn:E; [by eapply Hq|constructor]).
  apply NoDup_concat_map.
  - rewrite hash_iter_perm. apply NoDup_elements.
  - intros p _. destruct (match_pair_ok p (default [] (notes_by_pair !! p))
      (default [] (quotes_by_pair !! p)) time (Hq' p)) as (r & [_ _ _ _ Hsub]).
    eapply sublist_NoDup; [|exact Hsub]. destruct (notes_by_pair !! p) eqn:E; [by eapply Hnd|constructor].
  - intros p p' id _ _ (k & -> & Hk)%list_elem_of_fmap (k' & Ek & Hk')%list_elem_of_fmap.
    apply elem_of_match_pair in Hk as (m & q & Hm & _ & _ & _ & ->); [|done].
    apply elem_of_match_pair in Hk' as (m' & q' & Hm' & _ & _ & _ & ->); [|done]. simpl in Ek.
    destruct (notes_by_pair !! p) as [ns|] eqn:E; [|by apply elem_of_nil in Hm].
    destruct (notes_by_pair !! p') as [ns'|] eqn:E'; [|by apply elem_of_nil in Hm']. simpl in *.
    assert (m = m') as -> by (by eapply (Hid p p')).
    rewrite <-(Hpair p ns m'), <-(Hpair p' ns' m') by done. done.
Qed.

(** Every pick is a note of a quoted pair on a usable quote it crosses. *)
Lemma select_notes_sound `{HashIter} n notes_by_pair quotes_by_pair time k :
  (∀ p qs, quotes_by_pair !! p = Some qs → Forall quote_wf qs) →
  k ∈ select_notes n notes_by_pair quotes_by_pair time →
  ∃ ns qs, notes_by_pair !! pk_pair k = Some ns ∧ quotes_by_pair !! pk_pair k = Some qs ∧
    pick_ok (pk_pair k) ns qs time k.
Proof.
  intros Hq. rewrite select_notes_eq.
  rewrite list_elem_of_In, in_concat. intros (ks & Hks & Hk). apply in_map_iff in Hks as (p & <- & Hp).
  apply list_elem_of_In in Hk, Hp. rewrite hash_iter_perm, elem_of_elements, elem_of_dom in Hp.
  destruct Hp as [qs Hqs]. rewrite Hqs in Hk. simpl in Hk.
  apply elem_of_match_pair in Hk; [|by eapply Hq].
  pose proof Hk as (m & q & Hm & _ & _ & _ & ->). simpl.
  destruct (notes_by_pair !! p) as [ns|] eqn:E; [|by apply elem_of_nil in Hm]. by exists ns, qs.
Qed.

(** ** Theorems *)

(** The scan picks the tightest quote: with quotes sorted from the most generous down,
    the chosen quote is unexpired, accepts the note's rate and has room for the whole
    note, and no other such quote has a lower rate; nothing is chosen only when no quote
    is eligible. *)
Theorem choose_tightest note time quotes remaining :
  0 <= offered note → Forall quote_wf quotes → quotes_sorted quotes → length remaining = length quotes →
  match choose note time quotes remaining 0 None with
  | Some k => eligible note time quotes remaining k ∧
      ∀ j q q', eligible note time quotes remaining j → quotes !! k = Some q → quotes !! j = Some q' →
        q_supply q * q_demand q' <= q_supply q' * q_demand q
  | None => ∀ j, ¬ eligible note time quotes remaining j
  end.
Proof.
  intros Hoff Hwf Hs Hlen. pose proof (choose_spec note time quotes remaining 0 None Hoff Hwf Hs Hlen) as Hc.
  destruct (choose _ _ _ _ _ _) as [k|]; [|by destruct Hc].
  destruct Hc as [[? _]|(j & -> & Hj & Hmax)]; [done|]. split; [done|]. simpl.
  intros j' q q' Hj' Hq Hq'. apply Hmax in Hj'. destruct (decide (j' = j)) as [->|].
  - simplify_eq. lia.
  - apply (StronglySorted_app_1_elem_of (λ q1 q2, q_supply q2 * q_demand q1 <= q_supply q1 * q_demand q2)
      (take j quotes) (drop j quotes)).
    + by rewrite take_drop.
    + apply list_elem_of_lookup. exists j'. rewrite lookup_take_lt by lia. done.
    + apply list_elem_of_lookup. exists 0%nat. by rewrite lookup_drop, Nat.add_0_r.
Qed.

(** Selection for a pair never over-commits a DEX: the notes handed to a DEX add up to at
    most what its quotes for the pair supply.  Every pick is a whole note of the pair
    handed to an unexpired quote that accepts its rate, and the picks follow the order of
    the notes without repetition. *)
Theorem match_pair_respects_quotes pair notes quotes time :
  Forall quote_wf quotes →
  let picks := pm_picks (match_pair pair notes quotes time) in
  (∀ d, fill_sum d picks <= dex_sum d (zip quotes (q_supply <$> quotes))) ∧
  Forall (pick_ok pair notes quotes time) picks ∧
  pk_note_id <$> picks `sublist_of` oid <$> notes.
Proof.
  intros Hwf. destruct (match_pair_ok pair notes quotes time Hwf) as (r & [_ Hroom Hsum Hp Hs]).
  split_and!; [|done|done]. intros d. specialize (Hsum d). simpl in *.
  pose proof (dex_sum_nonneg d quotes r Hroom). lia.
Qed.

(** [select_notes] hands each note to at most one DEX, whatever the iteration order of the
    quotes, and every pick is a note of a quoted pair on a usable quote it crosses. *)
Theorem select_notes_at_most_once `{HashIter} n notes_by_pair quotes_by_pair time :
  notes_ok notes_by_pair → (∀ p qs, quotes_by_pair !! p = Some qs → Forall quote_wf qs) →
  NoDup (pk_note_id <$> select_notes n notes_by_pair quotes_by_pair time) ∧
  ∀ k, k ∈ select_notes n notes_by_pair quotes_by_pair time →
    ∃ ns qs, notes_by_pair !! pk_pair k = Some ns ∧ quotes_by_pair !! pk_pair k = Some qs ∧
      pick_ok (pk_pair k) ns qs time k.
Proof.
  intros Hn Hq. split; [by apply select_notes_once|]. intros k. by apply select_notes_sound.
Qed.

(** ** Witnesses *)

(** Quotes of three DEXes at rates 1, 0.6 and 0.4, and a note of rate 0.5. *)
Definition sample_quotes : list Quote :=
  [mk_quote 5 (1%N, 2%N) 100 100 1000; mk_quote 6 (1%N, 2%N) 60 100 1000; mk_quote 7 (1%N, 2%N) 40 100 1000].
Definition sample_note : Order := mk_order 1 1 2 100 50 50.

Lemma sample_quotes_wf : Forall quote_wf sample_quotes.
Proof. repeat constructor; vm_compute; discriminate. Qed.

Lemma choose_tightest_witness :
  choose sample_note 10 sample_quotes [100; 60; 40] 0 None = Some 1%nat ∧
  eligible sample_note 10 sample_quotes [100; 60; 40] 1.
Proof.
  pose proof (choose_tightest sample_note 10 sample_quotes [100; 60; 40]) as H.
  assert (choose sample_note 10 sample_quotes [100; 60; 40] 0 None = Some 1%nat) as E by reflexivity.
  rewrite E in H. split; [reflexivity|]. apply H.
  - vm_compute. discriminate.
  - apply sample_quotes_wf.
  - repeat constructor; vm_compute; discriminate.
  - reflexivity.
Defined.

Lemma match_pair_respects_quotes_witness :
  pm_picks (match_pair (1%N, 2%N) [sample_note] sample_quotes 10) =
    [mk_pick 6 1 50 (1%N, 2%N) (mk_rate 50 100)] ∧
  fill_sum 6 (pm_picks (match_pair (1%N, 2%N) [sample_note] sample_quotes 10)) <= 60.
Proof.
  split; [reflexivity|].
  apply (match_pair_respects_quotes (1%N, 2%N) [sample_note] sample_quotes 10 sample_quotes_wf).
Defined.

Lemma select_notes_at_most_once_witness :
  NoDup (pk_note_id <$> @select_notes elements_iter 0 {[(1%N, 2%N) := [sample_note]]}
    {[(1%N, 2%N) := sample_quotes]} 10).
Proof.
  apply (@select_notes_at_most_once elements_iter).
  - split_and!.
    + intros p ns n [<- <-]%lookup_singleton_Some ->%list_elem_of_singleton. reflexivity.
    + intros p ns [<- <-]%lookup_singleton_Some. apply NoDup_singleton.
    + intros p p' ns ns' n n' [<- <-]%lookup_singleton_Some [<- <-]%lookup_singleton_Some
        ->%list_elem_of_singleton ->%list_elem_of_singleton _. reflexivity.
  - intros p qs [<- <-]%lookup_singleton_Some. apply sample_quotes_wf.
Defined.
