(* ===== verification/SwapEta.v ===== *)
(** * Swap time estimation (crates/solver/src/swap_eta.rs)

    The rolling window of settlement durations per pair, its median, and the two
    predicates of the endpoint.  In [eval_off_market] the USD prices enter as what the
    source makes of its floats: their sign, their value in whole cents and the text of their
    quotient with eight decimals, which [fmt_f64] shortens. *)

From stdpp Require Import option.
From S2P Require Import Prelude.
From S2P Require Import Orders.
From S2P Require Import RateIndex.
From S2P Require Import PriceFeed.
From S2P Require Import OrderBook.
From S2P Require Import IndexInvariant.
From S2P Require Import BookInvariant.
From S2P Require Import BookOps.
From S2P Require Import BookQueries.
From S2P Require Import BookTheorems.

(** ** The window *)

Definition WINDOW_SECS : Z := 24 * 60 * 60.
Definition MAX_SAMPLES_PER_PAIR : nat := 1000.

Record Sample := mk_sample { at_unix : Z; duration_secs : Z }.

Abbreviation SettlementStats := (gmap Pair (list Sample)) (only parsing).

(** [while q.front().map_or(false, |s| s.at_unix < cutoff) { q.pop_front() }] *)
Fixpoint pop_stale (cutoff : Z) (q : list Sample) : list Sample :=
  match q with
  | [] => []
  | s :: r => if at_unix s <? cutoff then pop_stale cutoff r else s :: r
  end.

(** [while q.len() > max { q.pop_front() }] *)
Fixpoint pop_excess (max : nat) (q : list Sample) : list Sample :=
  match q with
  | [] => []
  | s :: r => if (max <? length q)%nat then pop_excess max r else q
  end.

Definition record (stats : gmap Pair (list Sample)) (pair : Pair) (now_unix duration_secs : Z)
    : gmap Pair (list Sample) :=
  let q := default [] (stats !! pair) ++ [mk_sample now_unix duration_secs] in
  let cutoff := now_unix ∸ WINDOW_SECS in
  <[pair := pop_excess MAX_SAMPLES_PER_PAIR (pop_stale cutoff q)]> stats.

(** [sort_unstable] on integers: equal elements are indistinguishable, so any sort. *)
Definition sort_amounts (v : list Z) : list Z := merge_sort (≤) v.

Definition median_of (v : list Z) : option Z :=
  let s := sort_amounts v in
  let n := length s in
  if (n =? 0)%nat then None
  else if (n mod 2 =? 1)%nat then s !! (n / 2)%nat
  else
    x ← s !! (n / 2 - 1)%nat;
    y ← s !! (n / 2)%nat;
    Some (wrap64 ((x + y) / 2)).

Definition median_secs (stats : gmap Pair (list Sample)) (pair : Pair) (now_unix : Z) : option Z :=
  q ← stats !! pair;
  let cutoff := now_unix ∸ WINDOW_SECS in
  median_of (duration_secs <$> filter (λ s, cutoff <= at_unix s) q).

(** ** The predicates *)

Definition eval_can_fill (offered_a requested_b : Z) (best : option BestLevel) : bool :=
  match best with
  | None => false
  | Some best =>
    let cross := requested_b * rk_requested (bl_rate best) <? offered_a * rk_offered (bl_rate best) in
    cross && (requested_b <=? bl_volume best)
  end.

Definition checked_add128 (x y : Z) : option Z := if x + y <? two128 then Some (x + y) else None.
Definition checked_pow128 (x n : Z) : option Z := if x ^ n <? two128 then Some (x ^ n) else None.

(** The closure: compare requested and offered USD value at a common scale, [None] on
    overflow of 128 bits. *)
Definition off_market_core (offered_a cents_a d_a requested_b cents_b d_b tol_bps : Z) : option bool :=
  let m := Z.min d_a d_b in
  p ← checked_mul128 offered_a cents_a;
  e ← checked_pow128 10 (d_b - m);
  offered_usd ← checked_mul128 p e;
  p' ← checked_mul128 requested_b cents_b;
  e' ← checked_pow128 10 (d_a - m);
  requested_usd ← checked_mul128 p' e';
  lhs ← checked_mul128 requested_usd 10000;
  k ← checked_add128 10000 tol_bps;
  rhs ← checked_mul128 offered_usd k;
  Some (rhs <? lhs).

(** [trim_end_matches] with a character *)
Fixpoint drop_char (c : Ascii.ascii) (l : list Ascii.ascii) : list Ascii.ascii :=
  match l with
  | x :: rest => if decide (x = c) then drop_char c rest else l
  | [] => []
  end.
Definition trim_end_matches (c : Ascii.ascii) (l : list Ascii.ascii) : list Ascii.ascii := reverse (drop_char c (reverse l)).

Definition zero_char : Ascii.ascii := Ascii.ascii_of_N 48.
Definition dot_char : Ascii.ascii := Ascii.ascii_of_N 46.

(** [fmt_f64], from the text [format] makes with eight decimals. *)
Definition fmt_f64 (text : string) : string :=
  match trim_end_matches dot_char (trim_end_matches zero_char (String.list_ascii_of_string text)) with
  | [] => "0"%string
  | s => String.string_of_list_ascii s
  end.

Section off_market.
(** A USD price as an [f64]: whether it is positive, [(usd * 100.0).round() as u128], and
    the text of the quotient of two prices with eight decimals. *)
Context {Usd : Type} (usd_positive : Usd → bool) (usd_cents : Usd → Z) (quotient : Usd → Usd → string).

Definition eval_off_market (offered_a : Z) (d_a : option Z) (usd_a : option Usd)
    (requested_b : Z) (d_b : option Z) (usd_b : option Usd) (tol_bps : Z)
    : option bool * option string :=
  match usd_a, usd_b with
  | Some usd_a, Some usd_b =>
    if negb (usd_positive usd_a) || negb (usd_positive usd_b) then (None, None)
    else
      let market_price := Some (fmt_f64 (quotient usd_a usd_b)) in
      match d_a, d_b with
      | Some d_a, Some d_b =>
        let cents_a := usd_cents usd_a in
        let cents_b := usd_cents usd_b in
        if (cents_a =? 0) || (cents_b =? 0) then (None, market_price)
        else (off_market_core offered_a cents_a d_a requested_b cents_b d_b tol_bps, market_price)
      | _, _ => (None, market_price)
      end
  | _, _ => (None, None)
  end.
End off_market.

(** ** Lemmas *)

Lemma drop_char_replicate c k l : drop_char c (replicate k c ++ l) = drop_char c l.
Proof. induction k as [|k IH]; [done|]. simpl. by rewrite decide_True. Qed.

Lemma trim_end_split c l :
  (∃ k, l = trim_end_matches c l ++ replicate k c) ∧ last (trim_end_matches c l) ≠ Some c.
Proof.
  unfold trim_end_matches. rewrite last_reverse.
  cut ((∃ k, reverse (reverse l) = reverse (drop_char c (reverse l)) ++ replicate k c) ∧ head (drop_char c (reverse l)) ≠ Some c);
    [by rewrite reverse_involutive|]. generalize (reverse l). clear l. intros l. induction l as [|x l ([k IH] & Hlast)]; simpl; [split; [by exists 0%nat|done]|].
  case_decide as Hx; [|split; [by exists 0%nat; rewrite app_nil_r|naive_solver]]. subst x. split; [|done].
  exists (S k). by rewrite reverse_cons, IH, <-app_assoc, replicate_S_end.
Qed.

Lemma trim_end_app c l k : last l ≠ Some c → trim_end_matches c (l ++ replicate k c) = l.
Proof.
  intros Hl. unfold trim_end_matches. rewrite reverse_app, reverse_replicate, drop_char_replicate.
  rewrite <-(reverse_involutive l) in Hl |- *. rewrite last_reverse in Hl. rewrite reverse_involutive.
  destruct (reverse l) as [|x r]; [done|]. simpl. rewrite decide_False by naive_solver. done.
Qed.

(** The shortest text of the same number: the integer part and the point stay unless no decimal is
    left, and what was cut are zeros. *)
Lemma fmt_f64_shortest whole decimals :
  whole ≠ [] → last whole ≠ Some dot_char → (dot_char ∉ decimals) →
  ∃ kept k, decimals = kept ++ replicate k zero_char ∧ last kept ≠ Some zero_char ∧
    fmt_f64 (String.string_of_list_ascii (whole ++ dot_char :: decimals)) =
      String.string_of_list_ascii (match kept with [] => whole | _ => whole ++ dot_char :: kept end).
Proof.
  intros Hne Hw Hd. destruct (trim_end_split zero_char decimals) as [[k Hk] Hl].
  set (kept := trim_end_matches zero_char decimals) in *. exists kept, k. split_and!; [done..|].
  unfold fmt_f64. rewrite String.list_ascii_of_string_of_list_ascii, Hk.
  assert (whole ++ dot_char :: kept ++ replicate k zero_char = (whole ++ dot_char :: kept) ++ replicate k zero_char) as -> by (by rewrite <-app_assoc).
  rewrite trim_end_app; [|rewrite last_app_cons; destruct kept; [done|exact Hl]].
  destruct kept as [|x kept].
  - change [dot_char] with (replicate 1 dot_char). rewrite trim_end_app by done. by destruct whole.
  - pose proof (trim_end_app dot_char (whole ++ dot_char :: x :: kept) 0) as E. rewrite app_nil_r in E. rewrite E; [by destruct whole|].
    rewrite last_app_cons. intros Hlast. apply Hd. rewrite Hk. apply elem_of_app. left. apply last_Some_elem_of. exact Hlast.
Qed.

Lemma pop_stale_suffix cutoff q : ∃ k, pop_stale cutoff q = drop k q.
Proof.
  induction q as [|s q [k IH]]; simpl; [by exists 0%nat|].
  destruct (at_unix s <? cutoff); [by exists (S k)|by exists 0%nat].
Qed.

(** On samples in time order, dropping the stale front keeps exactly the fresh ones. *)
Lemma pop_stale_filter cutoff q :
  StronglySorted (λ x y, at_unix x <= at_unix y) q →
  pop_stale cutoff q = filter (λ s, cutoff <= at_unix s) q.
Proof.
  induction 1 as [|s q Hs IH Hle]; simpl; [done|]. rewrite filter_cons.
  destruct (Z.ltb_spec (at_unix s) cutoff); [by rewrite decide_False by lia|].
  rewrite decide_True by done. f_equal. symmetry. apply filter_all.
  rewrite Forall_forall in Hle. intros x Hx%Hle. lia.
Qed.

Lemma pop_excess_drop max q : pop_excess max q = drop (length q - max) q.
Proof.
  induction q as [|s q IH]; [done|]. cbn [pop_excess length]. rewrite IH.
  destruct (Nat.ltb_spec max (S (length q))).
  - by replace (S (length q) - max)%nat with (S (length q - max)) by lia.
  - by replace (S (length q) - max)%nat with 0%nat by lia.
Qed.

Lemma sort_amounts_perm v : sort_amounts v ≡ₚ v.
Proof. apply merge_sort_Permutation. Qed.

Lemma sort_amounts_sorted v : StronglySorted (≤) (sort_amounts v).
Proof. apply StronglySorted_merge_sort; apply _. Qed.

(** Two sorted permutations are equal, so the sort depends on the multiset only. *)
Lemma sort_amounts_ext v v' : v ≡ₚ v' → sort_amounts v = sort_amounts v'.
Proof.
  intros Hv. apply (StronglySorted_unique (≤)); try apply sort_amounts_sorted.
  by rewrite !sort_amounts_perm.
Qed.

Lemma length_sort_amounts v : length (sort_amounts v) = length v.
Proof. apply Permutation_length, sort_amounts_perm. Qed.

(** How many elements satisfy a test. *)
Definition count (P : Z → Prop) `{!∀ x, Decision (P x)} (v : list Z) : nat := length (filter P v).

(** How many elements are at most, and at least, a value. *)
Definition at_most (m : Z) (v : list Z) : nat := count (λ x, x <= m) v.
Definition at_least (m : Z) (v : list Z) : nat := count (λ x, m <= x) v.

Lemma count_prefix (P : Z → Prop) `{!∀ x, Decision (P x)} (v : list Z) k :
  (∀ x, x ∈ take k v → P x) → (k <= length v)%nat → (k <= count P v)%nat.
Proof.
  intros Hp Hk. unfold count. rewrite <-(take_drop k v). rewrite filter_app, length_app.
  rewrite filter_all by done. rewrite length_take. lia.
Qed.

Lemma count_suffix (P : Z → Prop) `{!∀ x, Decision (P x)} (v : list Z) k :
  (∀ x, x ∈ drop k v → P x) → (length v - k <= count P v)%nat.
Proof.
  intros Hp. unfold count. rewrite <-(take_drop k v) at 2. rewrite filter_app, length_app.
  rewrite (filter_all P (drop k v)) by done. rewrite length_drop. lia.
Qed.

(** In a sorted list, what comes before a position is at most its element, and so on. *)
Lemma sorted_take_le v k x y :
  StronglySorted (≤) v → v !! k = Some x → y ∈ take (S k) v → y <= x.
Proof.
  intros Hs Hk Hy. rewrite (take_S_r v k x) in Hy by done.
  apply elem_of_app in Hy as [Hy| ->%list_elem_of_singleton]; [|lia].
  apply (StronglySorted_app_1_elem_of (≤) (take k v) (drop k v)); [by rewrite take_drop|done|].
  apply list_elem_of_lookup. exists 0%nat. by rewrite lookup_drop, Nat.add_0_r.
Qed.

Lemma sorted_drop_ge v k x y :
  StronglySorted (≤) v → v !! k = Some x → y ∈ drop k v → x <= y.
Proof.
  intros Hs Hk Hy. rewrite (drop_S v x k) in Hy by done. apply elem_of_cons in Hy as [->|Hy]; [lia|].
  apply (StronglySorted_app_1_elem_of (≤) (take (S k) v) (drop (S k) v)); [by rewrite take_drop| |done].
  rewrite (take_S_r v k x) by done. apply elem_of_app. right. by apply list_elem_of_singleton.
Qed.

(** The middle element, or a value between the two middle ones, splits a sorted list. *)
Lemma middle_splits s h x y m :
  StronglySorted (≤) s → s !! h = Some x → s !! (length s - S h)%nat = Some y →
  (length s <= 2 * S h)%nat → x <= m <= y ∨ (x = m ∧ y = m) →
  (length s <= 2 * at_most m s)%nat ∧ (length s <= 2 * at_least m s)%nat.
Proof.
  intros Hs Hx Hy Hlen Hm. pose proof (lookup_lt_Some _ _ _ Hx). split.
  - pose proof (count_prefix (λ z, z <= m) s (S h)) as Hc. enough (S h <= at_most m s)%nat by lia.
    apply Hc; [|lia]. intros z Hz. pose proof (sorted_take_le s h x z Hs Hx Hz). lia.
  - pose proof (count_suffix (λ z, m <= z) s (length s - S h)) as Hc.
    enough (length s - (length s - S h) <= at_least m s)%nat by lia.
    apply Hc. intros z Hz. pose proof (sorted_drop_ge s _ y z Hs Hy Hz). lia.
Qed.

Lemma at_most_sort m v : at_most m (sort_amounts v) = at_most m v.
Proof. unfold at_most, count. by rewrite sort_amounts_perm. Qed.

Lemma at_least_sort m v : at_least m (sort_amounts v) = at_least m v.
Proof. unfold at_least, count. by rewrite sort_amounts_perm. Qed.

(** ** Theorems *)

(** Recording keeps the rolling window: when the samples of a pair are in time order and
    none is from the future, the pair's samples become the most recent thousand of those
    of the last 24 hours, the new one last and still in time order; other pairs are
    untouched. *)
Theorem record_keeps_window stats pair now dur :
  0 <= now → StronglySorted (λ x y, at_unix x <= at_unix y) (default [] (stats !! pair)) →
  (∀ s, s ∈ default [] (stats !! pair) → at_unix s <= now) →
  let fresh := filter (λ s, now ∸ WINDOW_SECS <= at_unix s)
                 (default [] (stats !! pair) ++ [mk_sample now dur]) in
  let q := default [] (record stats pair now dur !! pair) in
  q = drop (length fresh - MAX_SAMPLES_PER_PAIR) fresh ∧
  (length q <= MAX_SAMPLES_PER_PAIR)%nat ∧ last q = Some (mk_sample now dur) ∧
  StronglySorted (λ x y, at_unix x <= at_unix y) q ∧
  ∀ p, p ≠ pair → record stats pair now dur !! p = stats !! p.
Proof.
  intros Hnow Hs Hpast fresh q.
  assert (StronglySorted (λ x y, at_unix x <= at_unix y) (default [] (stats !! pair) ++ [mk_sample now dur])) as Hs'.
  { apply StronglySorted_app_2; [|done|repeat constructor].
    intros x y Hx ->%list_elem_of_singleton. by apply Hpast. }
  assert (q = drop (length fresh - MAX_SAMPLES_PER_PAIR) fresh) as Hq.
  { unfold q, record. rewrite lookup_insert_eq. simpl. by rewrite pop_excess_drop, pop_stale_filter. }
  assert (fresh = filter (λ s, now ∸ WINDOW_SECS <= at_unix s) (default [] (stats !! pair)) ++ [mk_sample now dur])
    as Hf.
  { unfold fresh. rewrite filter_app, filter_cons_True; [done|]. unfold sat_sub, WINDOW_SECS. simpl. lia. }
  split_and!; [done| | | |].
  - rewrite Hq, length_drop. unfold MAX_SAMPLES_PER_PAIR. lia.
  - rewrite Hq, Hf, drop_app_le by (rewrite length_app; unfold MAX_SAMPLES_PER_PAIR; simpl; lia).
    apply last_snoc.
  - rewrite Hq. apply (StronglySorted_app_1_r _ (take (length fresh - MAX_SAMPLES_PER_PAIR) fresh)).
    rewrite take_drop. by apply StronglySorted_select.
  - intros p Hp. unfold record. by rewrite lookup_insert_ne.
Qed.

(** The median splits the samples: at least half are at most the median and at least
    half are at least it, it is a 64-bit value, it exists exactly when there is a sample
    and it does not depend on the order of the samples. *)
Theorem median_of_splits v :
  Forall is_u64 v →
  (match median_of v with
   | None => v = []
   | Some m => is_u64 m ∧ (length v <= 2 * at_most m v)%nat ∧
       (length v <= 2 * at_least m v)%nat
   end) ∧ ∀ v', v ≡ₚ v' → median_of v' = median_of v.
Proof.
  intros Hv. split; [|intros v' Hp; unfold median_of; by rewrite (sort_amounts_ext v v') by done].
  assert (Forall is_u64 (sort_amounts v)) as Hu by (by rewrite sort_amounts_perm).
  rewrite Forall_forall in Hu. pose proof (sort_amounts_sorted v) as Hs.
  pose proof (length_sort_amounts v) as Hlen.
  enough (match median_of v with None => v = [] | Some m => is_u64 m ∧
    (length (sort_amounts v) <= 2 * at_most m (sort_amounts v))%nat ∧
    (length (sort_amounts v) <= 2 * at_least m (sort_amounts v))%nat end) as Hgoal.
  { destruct (median_of v); [|done].
    by rewrite Hlen, at_most_sort, at_least_sort in Hgoal. }
  unfold median_of. set (s := sort_amounts v) in *.
  destruct (Nat.eqb_spec (length s) 0) as [H0|H0]; [apply length_zero_iff_nil; lia|].
  pose proof (Nat.div_mod_eq (length s) 2) as Hdm.
  destruct (Nat.eqb_spec (length s mod 2) 1) as [H1|H1].
  - destruct (s !! (length s / 2)%nat) as [m|] eqn:Hm; [|apply lookup_ge_None in Hm; lia].
    split; [by eapply Hu, list_elem_of_lookup_2|].
    apply (middle_splits s (length s / 2) m m); [done|done| |lia|lia].
    by replace (length s - S (length s / 2))%nat with (length s / 2)%nat by lia.
  - assert (length s mod 2 = 0)%nat by (pose proof (Nat.mod_upper_bound (length s) 2); lia).
    destruct (s !! (length s / 2 - 1)%nat) as [x|] eqn:Hx; [|apply lookup_ge_None in Hx; lia].
    destruct (s !! (length s / 2)%nat) as [y|] eqn:Hy; [|apply lookup_ge_None in Hy; lia]. simpl.
    assert (x <= y) as Hxy.
    { apply (sorted_drop_ge s (length s / 2 - 1) x y Hs Hx). apply list_elem_of_lookup. exists 1%nat.
      rewrite lookup_drop. by replace (length s / 2 - 1 + 1)%nat with (length s / 2)%nat by lia. }
    assert (x <= (x + y) / 2 <= y) as Hm
      by (split; [apply Z.div_le_lower_bound|apply Z.div_le_upper_bound]; lia).
    assert (is_u64 x) as Ux by (by eapply Hu, list_elem_of_lookup_2).
    assert (is_u64 y) as Uy by (by eapply Hu, list_elem_of_lookup_2).
    assert (is_u64 ((x + y) / 2)) as Hmu by (clear -Ux Uy Hm; u64).
    rewrite wrap64_small by done. split; [done|].
    apply (middle_splits s (length s / 2 - 1) x y); [done|done| |lia|by left].
    by replace (length s - S (length s / 2 - 1))%nat with (length s / 2)%nat by lia.
Qed.

(** The snapshot holds the best level of every pair. *)
Lemma snapshot_lookup {F} (b : OrderBook F) p :
  snapshot_best_levels b !! p = (λ kv, mk_best_level kv.1 kv.2) <$> best_level b p.1 p.2.
Proof.
  unfold snapshot_best_levels. rewrite map_lookup_imap. unfold best_level.
  rewrite <-surjective_pairing. destruct (pair_index b !! p) as [t|]; simpl; [|done].
  by destruct (best_level_in (orders b) t) as [[]|].
Qed.

Lemma cross_transfer a b c d x y :
  0 < d → 0 < y → c * y = x * d → b * c < a * d → b * x < a * y.
Proof.
  intros Hd Hy He Hlt. apply (Z.mul_lt_mono_pos_r d); [done|].
  apply (Z.mul_lt_mono_pos_r y) in Hlt; [|done]. apply (f_equal (Z.mul b)) in He. lia.
Qed.

(** The fill estimate agrees with the matching engine: when [eval_can_fill] accepts an
    order against the published top of the opposite book, that book has a best order
    with which the new order is profitable, and its level holds the requested amount. *)
Theorem can_fill_crosses {F} `{!PriceFeed F} (b : OrderBook F) l id ta tb off req :
  book_run b l → eval_can_fill off req (snapshot_best_levels b !! (tb, ta)) = true →
  ∃ o, (best_order b tb ta).2 = Some o ∧
    is_profitable_with (mk_order id ta tb off req req) o = true ∧
    ∃ v k, best_level b tb ta = Some (k, v) ∧ req <= v.
Proof.
  intros Hr%book_run_inv. rewrite snapshot_lookup. simpl.
  pose proof (best_level_eq b l tb ta Hr) as Hl. destruct (best_level b tb ta) as [[k v]|]; [|done]. simpl.
  destruct Hl as (i & Hh & [Hk1 Hk2] & Hk & _). rewrite andb_true_iff, Z.ltb_lt, Z.leb_le. intros [Hc Hv].
  assert (i ∈ ranked b l (tb, ta)) as (o & (Ho & _) & _)%(elem_of_ranked b l _ i Hr)
    by (by apply head_Some_elem_of).
  exists o. rewrite (best_order_eq b l), Hh by done. simpl. split_and!; [done| |eauto].
  rewrite (rate_of_lookup _ i o Ho) in Hk. apply rate_eq_iff in Hk. simpl in Hk.
  destruct (bi_orders _ _ _ Hr i o Ho) as [_ (? & ? & _)].
  apply Z.ltb_lt. simpl. eapply (cross_transfer _ _ _ (rk_offered k)); [lia| |exact Hk|exact Hc]. lia.
Qed.

Lemma checked_mul128_Some x y z : checked_mul128 x y = Some z → z = x * y.
Proof. unfold checked_mul128. destruct (_ <? _); [by intros [= <-]|done]. Qed.

Lemma checked_pow128_Some x y z : checked_pow128 x y = Some z → z = x ^ y.
Proof. unfold checked_pow128. destruct (_ <? _); [by intros [= <-]|done]. Qed.

Lemma checked_add128_Some x y z : checked_add128 x y = Some z → z = x + y.
Proof. unfold checked_add128. destruct (_ <? _); [by intros [= <-]|done]. Qed.

(** Scaling by the smaller exponent instead of both does not change the comparison. *)
Lemma scaled_compare p q da db k :
  0 <= da → 0 <= db →
  p * 10 ^ (db - Z.min da db) * k < q * 10 ^ (da - Z.min da db) * 10000 ↔
  p * 10 ^ db * k < q * 10 ^ da * 10000.
Proof.
  intros Ha Hb. set (m := Z.min da db).
  assert (10 ^ db = 10 ^ (db - m) * 10 ^ m) as -> by (rewrite <-Z.pow_add_r by lia; f_equal; lia).
  assert (10 ^ da = 10 ^ (da - m) * 10 ^ m) as -> by (rewrite <-Z.pow_add_r by lia; f_equal; lia).
  assert (0 < 10 ^ m) by (apply Z.pow_pos_nonneg; lia).
  rewrite (Z.mul_lt_mono_pos_r (10 ^ m) (_ * k)) by done.
  replace (p * (10 ^ (db - m) * 10 ^ m) * k) with (p * 10 ^ (db - m) * k * 10 ^ m) by ring.
  replace (q * (10 ^ (da - m) * 10 ^ m) * 10000) with (q * 10 ^ (da - m) * 10000 * 10 ^ m) by ring. done.
Qed.

(** A verdict of the off-market test is exact: it says whether the requested USD value
    exceeds the offered one by more than the tolerance, both taken at full decimals, although the
    computation scales by the difference of the decimals only and gives up on overflow. *)
Theorem off_market_exact off ca da req cb db tol verdict :
  0 <= da → 0 <= db →
  off_market_core off ca da req cb db tol = Some verdict →
  (verdict = true ↔ off * ca * 10 ^ db * (10000 + tol) < req * cb * 10 ^ da * 10000).
Proof.
  intros Ha Hb. unfold off_market_core.
  destruct (checked_mul128 off ca) as [p|] eqn:E1; [|done]. apply checked_mul128_Some in E1 as ->. simpl.
  destruct (checked_pow128 10 (db - _)) as [e|] eqn:E2; [|done]. apply checked_pow128_Some in E2 as ->. simpl.
  destruct (checked_mul128 (off * ca) _) as [x|] eqn:E3; [|done]. apply checked_mul128_Some in E3 as ->. simpl.
  destruct (checked_mul128 req cb) as [q|] eqn:E4; [|done]. apply checked_mul128_Some in E4 as ->. simpl.
  destruct (checked_pow128 10 (da - _)) as [e'|] eqn:E5; [|done]. apply checked_pow128_Some in E5 as ->. simpl.
  destruct (checked_mul128 (req * cb) _) as [y|] eqn:E6; [|done]. apply checked_mul128_Some in E6 as ->. simpl.
  destruct (checked_mul128 (req * cb * _) 10000) as [lhs|] eqn:E7; [|done].
  apply checked_mul128_Some in E7 as ->. simpl.
  destruct (checked_add128 10000 tol) as [k|] eqn:E8; [|done]. apply checked_add128_Some in E8 as ->. simpl.
  destruct (checked_mul128 (off * ca * _) (10000 + tol)) as [rhs|] eqn:E9; [|done].
  apply checked_mul128_Some in E9 as ->. simpl. intros [= <-]. rewrite Z.ltb_lt. by apply scaled_compare.
Qed.

(** ** Witnesses *)

Lemma record_keeps_window_witness :
  let stats : gmap Pair (list Sample) := {[(1%N, 2%N) := [mk_sample 100 5; mk_sample 90000 7]]} in
  default [] (record stats (1%N, 2%N) 90100 9 !! (1%N, 2%N)) = [mk_sample 90000 7; mk_sample 90100 9].
Proof.
  intros stats. rewrite (proj1 (record_keeps_window stats (1%N, 2%N) 90100 9 ltac:(lia)
    ltac:(repeat constructor; simpl; lia)
    ltac:(intros s [->|[->|[]%elem_of_nil]%elem_of_cons]%elem_of_cons; simpl; lia))).
  reflexivity.
Defined.

Lemma median_of_splits_witness : median_of [9; 2; 7; 4] = Some 5 ∧ (4 <= 2 * at_most 5 [9; 2; 7; 4]%Z)%nat.
Proof.
  split; [reflexivity|].
  destruct (median_of_splits [9; 2; 7; 4]) as [H _]; [repeat constructor; vm_compute; discriminate|].
  assert (median_of [9; 2; 7; 4] = Some 5) as E by reflexivity. rewrite E in H. apply H.
Defined.

Lemma can_fill_crosses_witness :
  eval_can_fill 60 80 (snapshot_best_levels sample_book !! (1%N, 2%N)) = true ∧
  ∃ o, (best_order sample_book 1 2).2 = Some o ∧ is_profitable_with (mk_order 9 2 1 60 80 80) o = true.
Proof.
  assert (eval_can_fill 60 80 (snapshot_best_levels sample_book !! (1%N, 2%N)) = true) as H
    by (vm_compute; reflexivity).
  split; [exact H|]. destruct (can_fill_crosses sample_book _ 9 2 1 60 80 sample_run H) as (o & H1 & H2 & _).
  exists o. split; [exact H1|exact H2].
Defined.

Lemma off_market_exact_witness :
  off_market_core 1000 250 6 99 300 2 100 = Some true ∧
  1000 * 250 * 10 ^ 2 * (10000 + 100) < 99 * 300 * 10 ^ 6 * 10000.
Proof.
  assert (off_market_core 1000 250 6 99 300 2 100 = Some true) as E by reflexivity. split; [exact E|].
  apply (off_market_exact 1000 250 6 99 300 2 100 true); [lia|lia|exact E|reflexivity].
Defined.
