(* ===== verification/Types.v ===== *)
(** * Shared types of the pipeline (crates/solver/src/types.rs, crates/solver/src/order.rs)

    The lifecycle status of an order, the messages between the pipeline's tasks, the
    parsing of a PSWAP note into an order and the token list of the configured pairs.

    Notes, PSWAP notes and their serialization belong to the Miden libraries, which are
    not part of the repository: they are the fields of the class [Miden], and what the
    solver relies on is stated as named properties of them where it is used. *)

From stdpp Require Import option.
From S2P Require Import Prelude.

(** ** The Miden libraries *)

Abbreviation Bytes := (list N) (only parsing).

Class Miden := {
  Note : Type;
  PswapNote : Type;
  Recipient : Type;
  (** [Note::id], [Note::write_into], [Note::read_from], [Note::recipient],
      [Note::nullifier] *)
  note_id : Note → OrderId;
  note_write : Note → Bytes;
  note_read : Bytes → option Note;
  note_recipient : Note → Recipient;
  note_nullifier : Note → N;
  (** the amount of the first fungible asset of a note *)
  note_first_fungible : Note → option Z;
  (** [note.recipient().script().root() == PswapNote::script_root()] *)
  has_pswap_script : Note → bool;
  (** [PswapNote::try_from], [Note::from] and the terms of a PSWAP note *)
  pswap_try_from : Note → option PswapNote;
  note_from_pswap : PswapNote → Note;
  pswap_offered_token : PswapNote → TokenId;
  pswap_offered_amount : PswapNote → Z;
  pswap_requested_token : PswapNote → TokenId;
  pswap_requested_amount : PswapNote → Z;
  pswap_creator : PswapNote → N;
  (** [PswapNote::create_args(0, amount)] succeeds *)
  pswap_args_ok : Z → bool;
  (** [FungibleAsset::new] succeeds *)
  fungible_asset_ok : TokenId → Z → bool;
  (** [PswapNote::execute(solver, None, Some(fill))]: the payback note to the creator and
      the remainder of a partial fill *)
  pswap_execute : PswapNote → N → TokenId → Z → option (Note * option PswapNote);
  (** serialization of ids *)
  id_bytes : N → Bytes;
  id_read : Bytes → option N;
}.

(** ** Order status *)

Inductive OrderStatus := Active | Settling | Executed | OnchainNullified.

#[export] Instance order_status_eq_dec : EqDecision OrderStatus.
Proof. solve_decision. Defined.

Definition as_str (s : OrderStatus) : string :=
  match s with
  | Active => "active"
  | Settling => "settling"
  | Executed => "executed"
  | OnchainNullified => "onchain_nullified"
  end.

Definition from_str (s : string) : option OrderStatus :=
  if decide (s = "active"%string) then Some Active
  else if decide (s = "settling"%string) then Some Settling
  else if decide (s = "executed"%string) then Some Executed
  else if decide (s = "onchain_nullified"%string) then Some OnchainNullified
  else None.

(** ** Messages *)

(** Ingest to matcher. *)
Record IngestOrder := mk_ingest {
  io_note_id : OrderId;
  io_offered_token : TokenId;
  io_requested_token : TokenId;
  io_offered_amount : Z;
  io_requested_amount : Z;
  io_raw : Bytes;
}.

(** Matcher to executor. *)
Record FilledNote := mk_filled {
  fn_note_id : OrderId;
  fn_requested_filled : Z;
  fn_raw : Bytes;
  fn_arrival : Z;
}.

Record ExecutionBatch := mk_exec_batch { filled_notes : list FilledNote }.

(** ** Parsing a note *)

Section parsing.
Context `{!Miden}.

(** [types::Order]: the terms extracted from a PSWAP note. *)
Record PipelineOrder := mk_pipeline_order {
  po_note : Note;
  po_offered_faucet : TokenId;
  po_offered_amount : Z;
  po_requested_faucet : TokenId;
  po_requested_amount : Z;
  po_creator : N;
}.

(** [Order::from_note]: an unparsable note or a zero amount is an error. *)
Definition from_note (note : Note) : option PipelineOrder :=
  pswap ← pswap_try_from note;
  let offered_amount := pswap_offered_amount pswap in
  let requested_amount := pswap_requested_amount pswap in
  if (offered_amount =? 0) || (requested_amount =? 0) then None
  else Some (mk_pipeline_order note (pswap_offered_token pswap) offered_amount
               (pswap_requested_token pswap) requested_amount (pswap_creator pswap)).

(** Amounts of PSWAP notes are Miden asset amounts, which are 64-bit. *)
Definition pswap_amounts_u64 : Prop :=
  ∀ p, is_u64 (pswap_offered_amount p) ∧ is_u64 (pswap_requested_amount p).

(** A note reads back from its bytes. *)
Definition note_roundtrip : Prop := ∀ note, note_read (note_write note) = Some note.

(** A parsed order has positive 64-bit amounts and the terms of its PSWAP note. *)
Lemma from_note_amounts note o :
  pswap_amounts_u64 → from_note note = Some o →
  0 < po_offered_amount o < two64 ∧ 0 < po_requested_amount o < two64.
Proof.
  intros Hu. unfold from_note. destruct (pswap_try_from note) as [p|]; [|done]. simpl.
  destruct (Hu p). destruct (Z.eqb_spec (pswap_offered_amount p) 0); [done|].
  destruct (Z.eqb_spec (pswap_requested_amount p) 0); [done|]. simpl. intros [= <-]. simpl. u64.
Qed.

Lemma from_note_terms note o :
  from_note note = Some o →
  ∃ p, pswap_try_from note = Some p ∧ po_offered_faucet o = pswap_offered_token p ∧
    po_offered_amount o = pswap_offered_amount p ∧ po_requested_faucet o = pswap_requested_token p ∧
    po_requested_amount o = pswap_requested_amount p.
Proof.
  unfold from_note. destruct (pswap_try_from note) as [p|]; [|done]. simpl.
  destruct (_ || _); [done|]. intros [= <-]. by exists p.
Qed.
End parsing.

(** ** A concrete instance *)

(** A small model of the Miden libraries on which the development is evaluated: a note is
    its terms, serialized as a list of numbers; a fill pays the filled amount to the
    creator and leaves the rest of the offer in a remainder. *)
Record DemoNote := mk_demo {
  dn_is_pswap : bool;
  dn_id : N;
  dn_offered : N;
  dn_offered_amount : N;
  dn_requested : N;
  dn_requested_amount : N;
  dn_creator : N;
}.

Definition demo_write (n : DemoNote) : Bytes :=
  [if dn_is_pswap n then 1%N else 0%N; dn_id n; dn_offered n; dn_offered_amount n;
   dn_requested n; dn_requested_amount n; dn_creator n].

Definition demo_read (b : Bytes) : option DemoNote :=
  match b with
  | [k; i; o; oa; r; ra; c] => Some (mk_demo (bool_decide (k = 1%N)) i o oa r ra c)
  | _ => None
  end.

Definition demo_offer (p : DemoNote) : Z := wrap64 (Z.of_N (dn_offered_amount p)).
Definition demo_request (p : DemoNote) : Z := wrap64 (Z.of_N (dn_requested_amount p)).

Definition demo_execute (p : DemoNote) (fill : Z) : option (DemoNote * option DemoNote) :=
  if (0 <? fill) && (fill <=? demo_request p) then
    Some (mk_demo false (dn_id p + 1000) (dn_requested p) (Z.to_N fill) 0 0 (dn_creator p),
          if fill =? demo_request p then None
          else Some (mk_demo true (dn_id p + 2000) (dn_offered p)
                       (Z.to_N (demo_offer p - demo_offer p * fill / demo_request p))
                       (dn_requested p) (Z.to_N (demo_request p - fill)) (dn_creator p)))
  else None.

Definition demo_miden : Miden := {|
  Note := DemoNote; PswapNote := DemoNote; Recipient := N;
  note_id := dn_id; note_write := demo_write; note_read := demo_read; note_recipient := dn_creator; note_nullifier := dn_id;
  note_first_fungible := λ n, Some (Z.of_N (dn_offered_amount n));
  has_pswap_script := dn_is_pswap;
  pswap_try_from := λ n, if dn_is_pswap n then Some n else None;
  note_from_pswap := λ n, n;
  pswap_offered_token := dn_offered; pswap_offered_amount := demo_offer;
  pswap_requested_token := dn_requested; pswap_requested_amount := demo_request;
  pswap_creator := dn_creator;
  pswap_args_ok := λ a, a <? two64;
  fungible_asset_ok := λ _ a, a <? 9223372036854775808;
  pswap_execute := λ p _ _ fill, demo_execute p fill;
  id_bytes := λ i, [i];
  id_read := λ b, match b with [i] => Some i | _ => None end;
|}.

Lemma demo_note_roundtrip : @note_roundtrip demo_miden.
Proof. by intros [[|] ? ? ? ? ? ?]. Qed.

Lemma demo_amounts : @pswap_amounts_u64 demo_miden.
Proof. intros p. split; apply wrap64_range. Qed.

(** ** Configured pairs *)

Record AssetPair := mk_asset_pair { ap_x : TokenId; ap_y : TokenId }.

(** [if seen.insert(t) { out.push(t) }] *)
Definition push_unseen (acc : gset TokenId * list TokenId) (t : TokenId) : gset TokenId * list TokenId :=
  if bool_decide (t ∈ acc.1) then acc else ({[t]} ∪ acc.1, acc.2 ++ [t]).

Definition unique_tokens (pairs : list AssetPair) : list TokenId :=
  (foldl (λ acc p, push_unseen (push_unseen acc (ap_x p)) (ap_y p)) (∅, []) pairs).2.

(** The flattened tokens of the pairs, in order. *)
Definition pair_tokens (pairs : list AssetPair) : list TokenId :=
  concat ((λ p, [ap_x p; ap_y p]) <$> pairs).

(** Reference: keep the first occurrence of every element. *)
Fixpoint first_occurrences (l : list TokenId) : list TokenId :=
  match l with
  | [] => []
  | x :: r => x :: filter (λ y, y ≠ x) (first_occurrences r)
  end.

Lemma unique_tokens_fold pairs :
  (foldl (λ acc p, push_unseen (push_unseen acc (ap_x p)) (ap_y p)) (∅, []) pairs) =
  foldl push_unseen (∅, []) (pair_tokens pairs).
Proof.
  unfold pair_tokens. generalize (∅ : gset TokenId, @nil TokenId).
  induction pairs as [|p pairs IH]; intros acc; simpl; [done|]. by rewrite IH.
Qed.

(** The loop appends the first occurrences it has not seen. *)
Lemma push_unseen_all acc ts :
  (foldl push_unseen acc ts).2 = acc.2 ++ filter (λ x, x ∉ acc.1) (first_occurrences ts).
Proof.
  revert acc. induction ts as [|t ts IH]; intros acc; simpl; [by rewrite app_nil_r|].
  rewrite IH. unfold push_unseen. case_bool_decide as Ht; simpl.
  - rewrite filter_cons_False, list_filter_filter by tauto. f_equal. apply filter_ext_in.
    intros x _. split; [|tauto]. intros Hx. split; [done|]. by intros ->.
  - rewrite filter_cons_True, list_filter_filter, <-app_assoc by done. simpl. do 2 f_equal.
    apply filter_ext_in. intros x _. rewrite elem_of_union, elem_of_singleton. tauto.
Qed.

Lemma elem_of_first_occurrences x ts : x ∈ first_occurrences ts ↔ x ∈ ts.
Proof.
  induction ts as [|t ts IH]; simpl; [done|]. rewrite !elem_of_cons, list_elem_of_filter, IH.
  destruct (decide (x = t)); tauto.
Qed.

Lemma NoDup_first_occurrences ts : NoDup (first_occurrences ts).
Proof.
  induction ts as [|t ts IH]; simpl; [constructor|]. constructor; [|by apply NoDup_filter].
  rewrite list_elem_of_filter. tauto.
Qed.

(** ** Theorems *)

(** The status names stored in the database round-trip: parsing the name of a status gives
    the status back, and a name that parses is the name of its status. *)
Theorem status_roundtrip s t st :
  from_str (as_str s) = Some s ∧ (from_str t = Some st → as_str st = t).
Proof.
  split; [by destruct s|]. unfold from_str. repeat case_decide; subst; intros [= <-]; done.
Qed.

Lemma status_roundtrip_witness : as_str Settling = "settling"%string.
Proof. apply (status_roundtrip Settling "settling" Settling). reflexivity. Defined.

(** [unique_tokens] keeps the first occurrence of every token of the configured pairs: it
    is the reference list, so every token appears exactly once. *)
Theorem unique_tokens_first_seen pairs :
  unique_tokens pairs = first_occurrences (pair_tokens pairs) ∧
  NoDup (unique_tokens pairs) ∧ ∀ t, t ∈ unique_tokens pairs ↔ t ∈ pair_tokens pairs.
Proof.
  assert (unique_tokens pairs = first_occurrences (pair_tokens pairs)) as ->.
  { unfold unique_tokens. rewrite unique_tokens_fold, push_unseen_all. simpl.
    apply filter_all. intros x _. apply not_elem_of_empty. }
  split_and!; [done|apply NoDup_first_occurrences|intros t; apply elem_of_first_occurrences].
Qed.
