(* ===== verification/Db.v ===== *)
(** * The database (crates/solver/src/db/db.rs, models.rs, schema.rs)

    The SQLite tables as finite maps on their primary keys and one definition per query.
    An [UPDATE] maps over the rows of its [WHERE], [INSERT OR IGNORE] leaves an existing
    row alone, a plain [INSERT] of an existing key fails and a failed transaction leaves
    the tables as they were.  [SELECT] returns rows in an order that is left open.
    Connection and disk errors are not modelled; parse errors of stored ids are. *)

From stdpp Require Import option.
From S2P Require Import Prelude.
From S2P Require Import Types.

(** ** Casts between [u64] and [i64] *)

Definition as_i64 (x : Z) : Z := if x <? 9223372036854775808 then x else x - two64.
Definition as_u64 (x : Z) : Z := wrap64 x.

(** ** Rows and tables *)

Record NoteRow := mk_note_row { nr_note_id : Bytes; nr_account_id : Bytes; nr_raw_data : Bytes }.

Record OrderRow := mk_order_row {
  or_note_id : Bytes;
  or_account_id : Bytes;
  or_requested_asset : Bytes;
  or_requested_amount : Z;
  or_offered_asset : Bytes;
  or_offered_amount : Z;
  or_timestamp : Z;
  or_status : string;
}.

Record GeneratedNoteRow := mk_generated_row {
  gr_note_id : Bytes; gr_account_id : Bytes; gr_source_a : Bytes; gr_source_b : Bytes;
  gr_data : Bytes; gr_created_at : Z
}.

Record RegisteredTokenRow := mk_token_row {
  tr_token_id : Bytes;
  tr_created_at : Z;
  tr_external_symbol : option string;
  tr_decimals : option Z;
  tr_ticker : option string;
}.

Definition order_status (r : OrderRow) : option OrderStatus := from_str (or_status r).

Definition with_status (r : OrderRow) (s : OrderStatus) : OrderRow :=
  mk_order_row (or_note_id r) (or_account_id r) (or_requested_asset r) (or_requested_amount r)
    (or_offered_asset r) (or_offered_amount r) (or_timestamp r) (as_str s).

(** The tables; [sync_state] has its one row from the first migration on. *)
Record Db := mk_db {
  db_last_fetched_block : Z;
  db_notes : gmap Bytes NoteRow;
  db_orders : gmap Bytes OrderRow;
  db_generated : gmap Bytes GeneratedNoteRow;
  db_tokens : gmap Bytes RegisteredTokenRow;
}.

Definition set_db_orders (d : Db) (m : gmap Bytes OrderRow) : Db :=
  mk_db (db_last_fetched_block d) (db_notes d) m (db_generated d) (db_tokens d).
Definition set_db_tokens (d : Db) (m : gmap Bytes RegisteredTokenRow) : Db :=
  mk_db (db_last_fetched_block d) (db_notes d) (db_orders d) (db_generated d) m.

(** The state after the migrations. *)
Definition db_empty : Db := mk_db 0 ∅ ∅ ∅ ∅.

(** ** Ingest *)

Definition get_last_fetched_block (d : Db) : Z := as_u64 (db_last_fetched_block d).

(** [INSERT OR IGNORE] with the number of affected rows. *)
Definition insert_or_ignore {A} (k : Bytes) (v : A) (m : gmap Bytes A) : gmap Bytes A * nat :=
  match m !! k with Some _ => (m, 0%nat) | None => (<[k := v]> m, 1%nat) end.

(** The [CHECK] on [orders.status], which [OR IGNORE] also covers. *)
Definition status_check (r : OrderRow) : bool := bool_decide (is_Some (order_status r)).

Definition insert_order_or_ignore (r : OrderRow) (m : gmap Bytes OrderRow) : gmap Bytes OrderRow * nat :=
  if status_check r then insert_or_ignore (or_note_id r) r m else (m, 0%nat).

(** One turn of the loop over the orders. *)
Definition insert_order (acc : gmap Bytes OrderRow * gset Bytes) (r : OrderRow) : gmap Bytes OrderRow * gset Bytes :=
  let '(m', affected) := insert_order_or_ignore r acc.1 in
  (m', if (affected =? 1)%nat then {[or_note_id r]} ∪ acc.2 else acc.2).

(** The loop over the orders: the table and the keys inserted by this call. *)
Definition insert_orders (rows : list OrderRow) (m : gmap Bytes OrderRow) : gmap Bytes OrderRow * gset Bytes :=
  foldl insert_order (m, ∅) rows.

Definition insert_notes_batch (d : Db) (new_notes : list NoteRow) (new_orders : list OrderRow)
    (block_number : Z) : Db * gset Bytes :=
  let notes := foldl (λ m r, (insert_or_ignore (nr_note_id r) r m).1) (db_notes d) new_notes in
  let '(orders, inserted) := insert_orders new_orders (db_orders d) in
  (mk_db (as_i64 block_number) notes orders (db_generated d) (db_tokens d), inserted).

(** ** Orders *)

(** The rows with a status, in the order the database returns them. *)
Definition has_status (s : OrderStatus) (r : OrderRow) : bool := bool_decide (or_status r = as_str s).

Definition active_rows (d : Db) : gmap Bytes OrderRow :=
  filter (λ kv, has_status Active kv.2 = true) (db_orders d).

Definition get_active_orders `{HashIter} (n : N) (d : Db) : list OrderRow :=
  omap (λ k, db_orders d !! k) (hash_iter n (dom (active_rows d))).

Definition update_order_status (d : Db) (note_id : Bytes) (status : OrderStatus) : Db :=
  set_db_orders d (alter (λ r, with_status r status) note_id (db_orders d)).

Definition reset_orders_to_active (d : Db) (note_ids : list Bytes) : Db :=
  foldl (λ d k, set_db_orders d (alter (λ r, with_status r Active) k (db_orders d))) d note_ids.

(** [UPDATE orders SET status = s WHERE p]: the tables and the number of rows. *)
Definition update_where (p : Bytes → OrderRow → bool) (s : OrderStatus) (d : Db) : Db * nat :=
  (set_db_orders d (map_imap (λ k r, Some (if p k r then with_status r s else r)) (db_orders d)),
   size (filter (λ kv, p kv.1 kv.2 = true) (db_orders d))).

Definition update_orders_status (d : Db) (note_ids : list Bytes) (new_status : OrderStatus) : Db * nat :=
  update_where (λ k _, bool_decide (k ∈ note_ids)) new_status d.

Definition mark_orders_onchain_nullified (d : Db) (note_ids : list Bytes) : Db * nat :=
  update_where (λ k r, bool_decide (k ∈ note_ids) && (has_status Active r || has_status Settling r))
    OnchainNullified d.

Definition reset_all_settling_to_active (d : Db) : Db * nat :=
  update_where (λ _ r, has_status Settling r) Active d.

(** One joined row as an [IngestOrder]; [None] when a stored id does not parse. *)
Definition ingest_order_of `{!Miden} (r : OrderRow) (raw : Bytes) : option IngestOrder :=
  note_id ← id_read (or_note_id r);
  offered_token ← id_read (or_offered_asset r);
  requested_token ← id_read (or_requested_asset r);
  Some (mk_ingest note_id offered_token requested_token
          (as_u64 (or_offered_amount r)) (as_u64 (or_requested_amount r)) raw).

(** The inner join of the active orders with their notes. *)
Definition active_with_notes `{HashIter} (n : N) (d : Db) : list (OrderRow * Bytes) :=
  omap (λ k, r ← db_orders d !! k; note ← db_notes d !! k; Some (r, nr_raw_data note))
    (hash_iter n (dom (active_rows d))).

(** A [for] loop with [?]: the first error ends it. *)
Fixpoint collect_ok {A B} (f : A → option B) (l : list A) : option (list B) :=
  match l with
  | [] => Some []
  | x :: r => y ← f x; ys ← collect_ok f r; Some (y :: ys)
  end.

Definition load_active_orders_with_notes `{!Miden} `{HashIter} (n : N) (d : Db) : option (list IngestOrder) :=
  collect_ok (λ p, ingest_order_of p.1 p.2) (active_with_notes n d).

(** The transaction fails as a whole when the generated note is already stored. *)
Definition execute_trade_atomic (d : Db) (generated_note : GeneratedNoteRow) (source_a source_b : Bytes) : option Db :=
  match db_generated d !! gr_note_id generated_note with
  | Some _ => None
  | None =>
    let d := mk_db (db_last_fetched_block d) (db_notes d) (db_orders d)
               (<[gr_note_id generated_note := generated_note]> (db_generated d)) (db_tokens d) in
    let d := update_order_status d source_a Executed in
    Some (update_order_status d source_b Executed)
  end.

(** ** Registered tokens *)

Definition get_registered_tokens `{HashIter} (n : N) (d : Db) : list RegisteredTokenRow :=
  omap (λ k, db_tokens d !! k) (hash_iter n (dom (db_tokens d))).

Definition register_token (d : Db) (token_id : Bytes) (now : Z) (external_symbol : option string) : Db * bool :=
  let '(m, inserted) :=
    insert_or_ignore token_id (mk_token_row token_id now external_symbol None None) (db_tokens d) in
  (set_db_tokens d m, (0 <? inserted)%nat).

Definition set_token_metadata (d : Db) (token_id : Bytes) (decimals : option Z) (ticker : option string) : Db * bool :=
  (set_db_tokens d (alter (λ r, mk_token_row (tr_token_id r) (tr_created_at r) (tr_external_symbol r) decimals ticker)
     token_id (db_tokens d)), bool_decide (is_Some (db_tokens d !! token_id))).

Definition get_registered_token (d : Db) (token_id : Bytes) : option RegisteredTokenRow := db_tokens d !! token_id.

Definition update_token_symbol (d : Db) (token_id : Bytes) (symbol : option string) : Db * bool :=
  (set_db_tokens d (alter (λ r, mk_token_row (tr_token_id r) (tr_created_at r) symbol (tr_decimals r) (tr_ticker r))
     token_id (db_tokens d)), bool_decide (is_Some (db_tokens d !! token_id))).

(** The loop of [load_token_symbols]. *)
Fixpoint symbols_of `{!Miden} (rows : list RegisteredTokenRow) (out : gmap TokenId string) : option (gmap TokenId string) :=
  match rows with
  | [] => Some out
  | row :: rest =>
    match tr_external_symbol row with
    | None => symbols_of rest out
    | Some symbol => token ← id_read (tr_token_id row); symbols_of rest (<[token := symbol]> out)
    end
  end.

Definition load_token_symbols `{!Miden} `{HashIter} (n : N) (d : Db) : option (gmap TokenId string) :=
  symbols_of (get_registered_tokens n d) ∅.

Definition unregister_token (d : Db) (token_id : Bytes) : Db * bool :=
  (set_db_tokens d (delete token_id (db_tokens d)), bool_decide (is_Some (db_tokens d !! token_id))).

Definition load_registered_tokens `{!Miden} `{HashIter} (n : N) (d : Db) : option (list TokenId) :=
  collect_ok (λ row, id_read (tr_token_id row)) (get_registered_tokens n d).

Definition seed_tokens_from_config `{!Miden} (d : Db) (now : Z) (tokens : list (TokenId * option string)) : Db :=
  foldl (λ d t, (register_token d (id_bytes t.1) now t.2).1) d tokens.

(** ** Lemmas *)

(** Storing an amount as [i64] and reading it as [u64] gives it back. *)
Lemma cast_roundtrip x : is_u64 x → as_u64 (as_i64 x) = x.
Proof.
  intros [H0 H1]. unfold as_u64, as_i64, wrap64. destruct (Z.ltb_spec x 9223372036854775808).
  - by rewrite Z.mod_small.
  - rewrite <-(Z.mod_add _ 1) by done. rewrite Z.mul_1_l, Z.sub_add. by apply Z.mod_small.
Qed.

Lemma as_i64_range x : is_u64 x → -9223372036854775808 <= as_i64 x < 9223372036854775808.
Proof. unfold as_i64. destruct (Z.ltb_spec x 9223372036854775808); u64. Qed.

Lemma update_where_lookup p s d k :
  db_orders (update_where p s d).1 !! k =
  (λ r, if p k r then with_status r s else r) <$> (db_orders d !! k).
Proof. unfold update_where. simpl. rewrite map_lookup_imap. by destruct (db_orders d !! k). Qed.

Lemma update_where_keys p s d k :
  db_orders (update_where p s d).1 !! k = None ↔ db_orders d !! k = None.
Proof. rewrite update_where_lookup. apply fmap_None. Qed.

(** The valid rows of a batch. *)
Abbreviation valid_rows rows := (filter (λ r, status_check r = true) rows) (only parsing).

(** The first row a batch holds for a key. *)
Definition first_row (k : Bytes) (rows : list OrderRow) : option OrderRow :=
  head (filter (λ r, or_note_id r = k) rows).

Lemma first_row_cons k r rows :
  first_row k (r :: rows) = if decide (or_note_id r = k) then Some r else first_row k rows.
Proof. unfold first_row. rewrite filter_cons. by case_decide. Qed.

Lemma first_row_is_Some r rows : r ∈ rows → is_Some (first_row (or_note_id r) rows).
Proof.
  intros Hr. unfold first_row. destruct (filter _ rows) as [|r' rs] eqn:Hf; [|by eexists].
  exfalso. apply (not_elem_of_nil r). rewrite <-Hf. by apply list_elem_of_filter.
Qed.

(** One turn: a key already stored, or a row the check rejects, changes nothing. *)
Lemma insert_order_cases m ins r :
  (insert_order (m, ins) r = (m, ins) ∧ (is_Some (m !! or_note_id r) ∨ status_check r = false)) ∨
  (insert_order (m, ins) r = (<[or_note_id r := r]> m, {[or_note_id r]} ∪ ins) ∧
   m !! or_note_id r = None ∧ status_check r = true).
Proof.
  unfold insert_order, insert_order_or_ignore, insert_or_ignore. simpl.
  destruct (status_check r); [|left; eauto]. destruct (m !! or_note_id r); [left|right]; eauto.
Qed.

(** The loop over the orders keeps existing rows, stores the first valid row of every new
    key and reports exactly the new keys. *)
Lemma insert_orders_from rows m ins :
  (∀ k, (foldl insert_order (m, ins) rows).1 !! k =
     match m !! k with Some r => Some r | None => first_row k (valid_rows rows) end) ∧
  (∀ k, k ∈ (foldl insert_order (m, ins) rows).2 ↔
     k ∈ ins ∨ m !! k = None ∧ is_Some (first_row k (valid_rows rows))).
Proof.
  revert m ins. induction rows as [|r rows IH]; intros m ins; cbn [foldl].
  { split; intros k; simpl; [by destruct (m !! k)|]. split; [tauto|]. by intros [?|[_ [? ?]]]. }
  rewrite filter_cons.
  destruct (insert_order_cases m ins r) as [[-> Hr]|(-> & Hm & Hc)]; destruct (IH m ins) as [IH1 IH2].
  - split; intros k; [rewrite IH1|rewrite IH2]; (case_decide; [|done]); rewrite first_row_cons;
      case_decide; try done; subst; destruct Hr as [[? ->]|?]; simplify_eq; intuition congruence.
  - rewrite decide_True by done. destruct (IH (<[or_note_id r := r]> m) ({[or_note_id r]} ∪ ins)) as [IH1' IH2'].
    split; intros k; [rewrite IH1'|rewrite IH2']; rewrite first_row_cons;
      (destruct (decide (or_note_id r = k)) as [<-|]; [rewrite lookup_insert_eq|rewrite lookup_insert_ne by done]).
    + by rewrite Hm.
    + done.
    + rewrite elem_of_union, elem_of_singleton. intuition eauto.
    + rewrite elem_of_union, elem_of_singleton. intuition congruence.
Qed.

Lemma insert_notes_from (rows : list NoteRow) (m : gmap Bytes NoteRow) k :
  foldl (λ m r, (insert_or_ignore (nr_note_id r) r m).1) m rows !! k =
    match m !! k with Some r => Some r | None => head (filter (λ r, nr_note_id r = k) rows) end.
Proof.
  revert m. induction rows as [|r rows IH]; intros m; simpl; [by destruct (m !! k)|].
  rewrite IH, filter_cons. unfold insert_or_ignore.
  destruct (m !! nr_note_id r) eqn:Hr; case_decide as Hk; subst; simpl;
    rewrite ?Hr, ?lookup_insert_eq, ?lookup_insert_ne by done; done.
Qed.

Lemma has_status_with_status s t r : has_status s (with_status r t) = bool_decide (t = s).
Proof. destruct s, t; done. Qed.

Lemma has_status_distinct s t r : has_status s r = true → s ≠ t → has_status t r = false.
Proof.
  unfold has_status. rewrite bool_decide_eq_true, bool_decide_eq_false. intros -> Hne He.
  destruct s, t; done.
Qed.

Lemma status_check_with_status r s : status_check (with_status r s) = true.
Proof. destruct s; done. Qed.

(** No row satisfies [p] after an update whose new status refutes it. *)
Lemma update_where_count p s d :
  (∀ k r, db_orders d !! k = Some r → p k r = false) → (update_where p s d).2 = 0%nat.
Proof.
  intros Hp. unfold update_where. cbn [snd]. apply map_size_empty_iff, map_empty. intros k.
  apply map_lookup_filter_None. right. intros r Hr. simpl. rewrite (Hp k r Hr). done.
Qed.

(** ** The life of a stored order *)

(** Everything of a row but its status. *)
Definition terms (r : OrderRow) : Bytes * Bytes * Bytes * Z * Bytes * Z * Z :=
  (or_note_id r, or_account_id r, or_requested_asset r, or_requested_amount r,
   or_offered_asset r, or_offered_amount r, or_timestamp r).

(** Rows are stored under their own key with a status the [CHECK] admits. *)
Definition db_wf (d : Db) : Prop :=
  (∀ k r, db_orders d !! k = Some r → or_note_id r = k ∧ status_check r = true) ∧
  (∀ k r, db_notes d !! k = Some r → nr_note_id r = k) ∧
  (∀ k r, db_tokens d !! k = Some r → tr_token_id r = k).

(** One write of any task of the solver. *)
Inductive db_step : Db → Db → Prop :=
  | step_insert d ns os b : db_step d (insert_notes_batch d ns os b).1
  | step_status d k s : db_step d (update_order_status d k s)
  | step_reset d ks : db_step d (reset_orders_to_active d ks)
  | step_statuses d ks s : db_step d (update_orders_status d ks s).1
  | step_nullified d ks : db_step d (mark_orders_onchain_nullified d ks).1
  | step_recover d : db_step d (reset_all_settling_to_active d).1
  | step_trade d g a b d' : execute_trade_atomic d g a b = Some d' → db_step d d'
  | step_register d t now sym : db_step d (register_token d t now sym).1
  | step_metadata d t dec tick : db_step d (set_token_metadata d t dec tick).1
  | step_symbol d t sym : db_step d (update_token_symbol d t sym).1
  | step_unregister d t : db_step d (unregister_token d t).1.

(** What every write keeps of the orders and notes: rows stay, with their terms. *)
Definition keeps_rows (d d' : Db) : Prop :=
  (∀ k r, db_orders d !! k = Some r → ∃ r', db_orders d' !! k = Some r' ∧ terms r' = terms r) ∧
  (∀ k r, db_notes d !! k = Some r → db_notes d' !! k = Some r).

#[export] Instance keeps_rows_preorder : PreOrder keeps_rows.
Proof.
  split; [intros d; split; eauto|]. intros d1 d2 d3 [H1 H2] [H3 H4]. split; [|eauto].
  intros k r (r' & Hr' & <-)%H1. apply (H3 k r' Hr').
Qed.

Lemma alter_status_ok d k s :
  let d' := update_order_status d k s in keeps_rows d d' ∧ (db_wf d → db_wf d').
Proof.
  split.
  - split; [|done]. intros k' r Hr. simpl. destruct (decide (k = k')) as [<-|].
    + exists (with_status r s). by rewrite lookup_alter_eq, Hr.
    + exists r. by rewrite lookup_alter_ne.
  - intros (Ho & Hn & Ht). split_and!; [|done..]. intros k' r Hr. simpl in Hr.
    apply lookup_alter_Some in Hr as [(<- & r0 & Hr0 & ->)|[_ Hr]]; [|by apply Ho].
    split; [|apply status_check_with_status]. apply (Ho _ _ Hr0).
Qed.

Lemma update_where_ok p s d :
  let d' := (update_where p s d).1 in keeps_rows d d' ∧ (db_wf d → db_wf d').
Proof.
  split.
  - split; [|done]. intros k r Hr. rewrite update_where_lookup, Hr. simpl. eexists. split; [done|]. by destruct (p k r).
  - intros (Ho & Hn & Ht). split_and!; [|done..]. intros k r. rewrite update_where_lookup.
    intros (r0 & Hr0 & ->)%fmap_Some. destruct (Ho _ _ Hr0) as [? ?].
    destruct (p k r0); [|done]. split; [done|apply status_check_with_status].
Qed.

(** A write that changes statuses only. *)
Definition relabelled (d d' : Db) : Prop :=
  db_notes d' = db_notes d ∧ ∀ k, option_Forall2 (λ r r', terms r' = terms r) (db_orders d !! k) (db_orders d' !! k).

#[export] Instance relabelled_preorder : PreOrder relabelled.
Proof.
  split; [intros d; split; [done|]; intros k; by destruct (db_orders d !! k); constructor|].
  intros d1 d2 d3 [E1 H1] [E2 H2]. split; [congruence|]. intros k.
  specialize (H1 k). specialize (H2 k). destruct H1; inversion H2; constructor. congruence.
Qed.

Lemma update_where_relabel p s d : relabelled d (update_where p s d).1.
Proof.
  split; [done|]. intros k. rewrite update_where_lookup. destruct (db_orders d !! k) as [r|]; constructor. by destruct (p k r).
Qed.

Lemma relabelled_None d d' k : relabelled d d' → db_orders d' !! k = None ↔ db_orders d !! k = None.
Proof. intros [_ H]. by destruct (H k). Qed.

Lemma relabelled_Some d d' k r' :
  relabelled d d' → db_orders d' !! k = Some r' → ∃ r, db_orders d !! k = Some r ∧ terms r' = terms r.
Proof. intros [_ H] Hr. specialize (H k). rewrite Hr in H. inversion H. eauto. Qed.

Lemma reset_ok d ks : let d' := reset_orders_to_active d ks in keeps_rows d d' ∧ (db_wf d → db_wf d').
Proof.
  revert d. induction ks as [|k ks IH]; intros d; [by split|]. simpl.
  destruct (alter_status_ok d k Active) as [H1 H2]. destruct (IH (update_order_status d k Active)) as [H3 H4].
  split; [by etrans|auto].
Qed.

Lemma first_row_Some k rows r : first_row k rows = Some r → r ∈ rows ∧ or_note_id r = k.
Proof.
  unfold first_row. intros Hr%head_Some_elem_of. by apply list_elem_of_filter in Hr as [? ?].
Qed.

Lemma insert_batch_ok d ns os b :
  let d' := (insert_notes_batch d ns os b).1 in keeps_rows d d' ∧ (db_wf d → db_wf d').
Proof.
  unfold insert_notes_batch. pose proof (insert_orders_from os (db_orders d) ∅) as [Ho _].
  unfold insert_orders. destruct (foldl insert_order _ _) as [orders inserted]. cbn [fst] in *.
  split.
  - split; intros k r Hr; simpl; [rewrite Ho|rewrite insert_notes_from]; rewrite Hr; eauto.
  - intros (Ho' & Hn' & Ht). split_and!; [| |done]; intros k r; simpl.
    + rewrite Ho. destruct (db_orders d !! k) as [r0|] eqn:Hk; [intros [= <-]; by apply Ho'|].
      intros [[Hc _]%list_elem_of_filter Hid]%first_row_Some. done.
    + rewrite insert_notes_from. destruct (db_notes d !! k) as [r0|] eqn:Hk; [intros [= <-]; by apply Hn'|].
      intros Hr%head_Some_elem_of. by apply list_elem_of_filter in Hr as [? ?].
Qed.

Lemma insert_batch_order d ns os b k :
  db_orders (insert_notes_batch d ns os b).1 !! k =
    match db_orders d !! k with Some r => Some r | None => first_row k (valid_rows os) end.
Proof.
  unfold insert_notes_batch, insert_orders. pose proof (insert_orders_from os (db_orders d) ∅) as [Ho _].
  destruct (foldl insert_order _ _). apply Ho.
Qed.

Lemma insert_batch_note d ns os b k :
  db_notes (insert_notes_batch d ns os b).1 !! k =
    match db_notes d !! k with Some r => Some r | None => head (filter (λ r, nr_note_id r = k) ns) end.
Proof.
  unfold insert_notes_batch. destruct (insert_orders _ _). apply insert_notes_from.
Qed.

(** Writes to the token table only. *)
Lemma set_tokens_ok d m :
  (∀ k r, m !! k = Some r → db_tokens d !! k = Some r ∨ tr_token_id r = k) →
  let d' := set_db_tokens d m in keeps_rows d d' ∧ (db_wf d → db_wf d').
Proof.
  intros Hm. split; [by split; eauto|]. intros (Ho & Hn & Ht). split_and!; [done..|].
  intros k r Hr. destruct (Hm k r Hr); [by apply Ht|done].
Qed.

Lemma alter_tokens_ok d k f :
  (∀ r, tr_token_id (f r) = tr_token_id r) →
  let d' := set_db_tokens d (alter f k (db_tokens d)) in keeps_rows d d' ∧ (db_wf d → db_wf d').
Proof.
  intros Hf. split; [by split; eauto|]. intros (Ho & Hn & Ht). split_and!; [done..|].
  intros k' r. simpl. intros [(<- & r0 & Hr0 & ->)|[_ Hr]]%lookup_alter_Some; [|by apply Ht].
  rewrite Hf. by apply Ht.
Qed.

Lemma db_step_ok d d' : db_step d d' → keeps_rows d d' ∧ (db_wf d → db_wf d').
Proof.
  intros [].
  - apply insert_batch_ok.
  - apply alter_status_ok.
  - apply reset_ok.
  - apply update_where_ok.
  - apply update_where_ok.
  - apply update_where_ok.
  - unfold execute_trade_atomic in *. case_match; simplify_eq/=.
    set (d1 := mk_db _ _ _ _ _). destruct (alter_status_ok d1 a Executed) as [H1 H2].
    destruct (alter_status_ok (update_order_status d1 a Executed) b Executed) as [H3 H4].
    split; [by etrans|auto].
  - unfold register_token, insert_or_ignore. destruct (db_tokens d0 !! t) eqn:Ht; apply set_tokens_ok; [by eauto|].
    intros k r [[<- <-]|[_ ?]]%lookup_insert_Some; eauto.
  - by apply alter_tokens_ok.
  - by apply alter_tokens_ok.
  - apply set_tokens_ok. intros k r [_ ?]%lookup_delete_Some. eauto.
Qed.

(** ** Hydration *)

Section hydration.
Context `{!Miden} `{HashIter}.

(** Ids read back as they were written. *)
Definition id_roundtrip : Prop := ∀ i, id_read (id_bytes i) = Some i.

(** Rows whose ids were written by the solver. *)
Definition encoded (r : OrderRow) : Prop :=
  ∃ i a b, or_note_id r = id_bytes i ∧ or_offered_asset r = id_bytes a ∧ or_requested_asset r = id_bytes b.

Lemma collect_ok_some {A B} (f : A → option B) l : (∀ x, x ∈ l → is_Some (f x)) → ∃ ys, collect_ok f l = Some ys ∧ Forall2 (λ x y, f x = Some y) l ys.
Proof.
  induction l as [|x l IH]; intros Hf; simpl; [by exists []|]. destruct (Hf x) as [y Hy]; [by left|].
  destruct IH as (ys & -> & Hys); [intros; apply Hf; by right|]. rewrite Hy. exists (y :: ys). split; [done|]. by constructor.
Qed.

Lemma collect_ok_total {A B} (f : A → option B) l :
  (∀ x, x ∈ l → is_Some (f x)) → ∃ ys, collect_ok f l = Some ys ∧ ∀ y, y ∈ ys ↔ ∃ x, x ∈ l ∧ f x = Some y.
Proof.
  induction l as [|x l IH]; intros Hl; simpl.
  { exists []. split; [done|]. intros y. split; [intros []%elem_of_nil|intros (? & []%elem_of_nil & _)]. }
  destruct (Hl x) as [y Hy]; [by left|]. destruct IH as (ys & Hys & Hin); [intros; apply Hl; by right|].
  exists (y :: ys). rewrite Hy, Hys. split; [done|]. intros z. rewrite elem_of_cons, Hin. split.
  - intros [->|(x' & ? & ?)]; [exists x|exists x']; split; try done; [by left|by right].
  - intros (x' & [->|Hx']%elem_of_cons & Hz); [left; congruence|right; eauto].
Qed.

Lemma elem_of_active_with_notes n d r raw :
  (r, raw) ∈ active_with_notes n d ↔
  ∃ k note, db_orders d !! k = Some r ∧ has_status Active r = true ∧
    db_notes d !! k = Some note ∧ nr_raw_data note = raw.
Proof.
  unfold active_with_notes. rewrite list_elem_of_omap. split.
  - intros (k & Hk & Hr). rewrite hash_iter_perm, elem_of_elements in Hk.
    apply elem_of_dom in Hk as [r' [Hr' Ha]%map_lookup_filter_Some]. rewrite Hr' in Hr. simpl in Hr.
    destruct (db_notes d !! k) as [note|] eqn:Hn; simplify_eq/=. eauto 6.
  - intros (k & note & Hr & Ha & Hn & <-). exists k. rewrite Hr. simpl. rewrite Hn. simpl. split; [|done].
    rewrite hash_iter_perm, elem_of_elements. apply elem_of_dom. exists r. by apply map_lookup_filter_Some.
Qed.

Lemma ingest_order_of_encoded r raw : id_roundtrip → encoded r → is_Some (ingest_order_of r raw).
Proof.
  intros Hid (i & a & b & Hi & Ha & Hb). unfold ingest_order_of. rewrite Hi, Ha, Hb, !Hid. eauto.
Qed.
End hydration.

(** ** Theorems *)

(** C29. Orders and notes are durable.  Whatever sequence of writes the tasks of the solver
    issue, a stored order keeps its row and its terms (only its status changes), a stored
    note is never changed, and the tables stay well-formed: every row under its own key
    and every status one the [CHECK] admits. *)
Theorem stored_orders_durable d d' :
  rtc db_step d d' → keeps_rows d d' ∧ (db_wf d → db_wf d').
Proof.
  induction 1 as [d|d1 d2 d3 H12 _ [IH1 IH2]]; [by split|].
  destruct (db_step_ok _ _ H12) as [H1 H2]. split; [by etrans|auto].
Qed.

(** A table with an active, a settling, an executed and a nullified order. *)
Definition sample_row (k : N) (s : OrderStatus) : OrderRow := mk_order_row [k] [0%N] [7%N] 100 [8%N] 50 0 (as_str s).
Definition row_note (k : N) : NoteRow := mk_note_row [k] [0%N] [k; k].
Definition sample_db : Db :=
  let rows := [sample_row 1 Active; sample_row 2 Settling; sample_row 3 Executed; sample_row 4 OnchainNullified] in
  (insert_notes_batch db_empty (row_note <$> [1; 2; 3; 4]%N) rows 9).1.

Lemma stored_orders_durable_witness :
  db_orders (reset_all_settling_to_active sample_db).1 !! [2%N] = Some (sample_row 2 Active) ∧
  keeps_rows sample_db (reset_all_settling_to_active sample_db).1.
Proof.
  split; [vm_compute; reflexivity|].
  apply (stored_orders_durable sample_db (reset_all_settling_to_active sample_db).1).
  apply rtc_once. apply step_recover.
Defined.

(** Ingesting a batch is exact and idempotent.  A key already stored keeps its row; a new
    key gets the first valid row of the batch; the returned set is exactly the new keys;
    the block cursor reads back as given; and the same call again stores nothing and
    returns the empty set. *)
Theorem insert_notes_batch_exact d ns os b :
  is_u64 b →
  let d' := (insert_notes_batch d ns os b).1 in
  let inserted := (insert_notes_batch d ns os b).2 in
  (∀ k, db_orders d' !! k =
     match db_orders d !! k with Some r => Some r | None => first_row k (valid_rows os) end) ∧
  (∀ k, k ∈ inserted ↔ db_orders d !! k = None ∧ is_Some (first_row k (valid_rows os))) ∧
  (∀ k, db_notes d' !! k =
     match db_notes d !! k with Some r => Some r | None => head (filter (λ r, nr_note_id r = k) ns) end) ∧
  get_last_fetched_block d' = b ∧
  insert_notes_batch d' ns os b = (d', ∅).
Proof.
  intros Hb. unfold insert_notes_batch, insert_orders.
  pose proof (insert_orders_from os (db_orders d) ∅) as [Ho Hi].
  destruct (foldl insert_order (db_orders d, ∅) os) as [orders inserted]. cbn [fst snd db_orders db_notes] in *.
  split_and!; [done| |apply insert_notes_from|by apply cast_roundtrip|].
  { intros k. rewrite Hi. set_solver. }
  pose proof (insert_orders_from os orders ∅) as [Ho' Hi'].
  destruct (foldl insert_order (orders, ∅) os) as [orders' inserted']. cbn [fst snd] in *. f_equal.
  - f_equal; apply map_eq; intros k.
    + rewrite !insert_notes_from. by repeat case_match.
    + rewrite Ho', Ho. by repeat case_match.
  - apply set_eq. intros k. rewrite Hi', Ho. split; [|set_solver]. intros [?|[Hn [r Hr]]]; [done|].
    rewrite Hr in Hn. by destruct (db_orders d !! k).
Qed.

Lemma insert_notes_batch_exact_witness :
  let rows := [sample_row 1 Settling; sample_row 5 Active] in
  let call := insert_notes_batch sample_db [row_note 5] rows 10 in
  call.2 = {[ [5%N] ]} ∧ insert_notes_batch call.1 [row_note 5] rows 10 = (call.1, ∅).
Proof.
  split; [vm_compute; reflexivity|].
  apply (insert_notes_batch_exact sample_db [row_note 5] [sample_row 1 Settling; sample_row 5 Active] 10).
  by vm_compute.
Defined.

(** Marking orders as nullified on chain touches exactly the listed rows that are active
    or settling, so an executed order is never downgraded; the count is the number of rows
    touched, and doing it again touches none. *)
Theorem mark_nullified_guarded d ids :
  let d' := (mark_orders_onchain_nullified d ids).1 in
  let count := (mark_orders_onchain_nullified d ids).2 in
  (∀ k r, db_orders d !! k = Some r →
     db_orders d' !! k =
       Some (if decide (k ∈ ids ∧ (has_status Active r ∨ has_status Settling r))
             then with_status r OnchainNullified else r)) ∧
  (∀ k r, db_orders d !! k = Some r → has_status Executed r → db_orders d' !! k = Some r) ∧
  count = size (filter (λ kv, kv.1 ∈ ids ∧ (has_status Active kv.2 ∨ has_status Settling kv.2)) (db_orders d)) ∧
  (mark_orders_onchain_nullified d' ids).2 = 0%nat.
Proof.
  destruct (mark_orders_onchain_nullified d ids) as [d' count] eqn:Hm. cbn [fst snd].
  unfold mark_orders_onchain_nullified in Hm. set (p := λ k r, _) in Hm.
  assert (∀ k r, p k r = true ↔ k ∈ ids ∧ (has_status Active r ∨ has_status Settling r)) as Hp.
  { intros k r. unfold p. rewrite andb_true_iff, bool_decide_eq_true, orb_true_iff, !Is_true_true. done. }
  assert (∀ k r, db_orders d !! k = Some r → db_orders d' !! k =
     Some (if decide (k ∈ ids ∧ (has_status Active r ∨ has_status Settling r))
           then with_status r OnchainNullified else r)) as Hrow.
  { intros k r Hr. pose proof (update_where_lookup p OnchainNullified d k) as Hl. rewrite Hm, Hr in Hl.
    simpl in Hl. rewrite Hl. f_equal. destruct (p k r) eqn:Hpk; case_decide as Hd; try done.
    - destruct Hd. by apply Hp. - apply Hp in Hd. congruence. }
  split_and!; [done| | |].
  - intros k r Hr He. rewrite (Hrow k r Hr). rewrite decide_False; [done|]. apply Is_true_true in He.
    by rewrite !(has_status_distinct Executed) by done; intros [_ [[]|[]]].
  - unfold update_where in Hm. injection Hm as _ <-. f_equal. apply map_filter_ext. intros k r Hr. apply Hp.
  - apply update_where_count. intros k r' Hr'. pose proof (update_where_lookup p OnchainNullified d k) as Hl.
    rewrite Hm in Hl. cbn [fst] in Hl. rewrite Hr' in Hl. symmetry in Hl.
    apply fmap_Some in Hl as (r & Hr & ->). destruct (p k r) eqn:Hpk; [|exact Hpk].
    rewrite !has_status_with_status. apply andb_false_r.
Qed.

Lemma mark_nullified_guarded_witness :
  let ids := [[1%N]; [3%N]] in
  (mark_orders_onchain_nullified sample_db ids).2 = 1%nat ∧
  db_orders (mark_orders_onchain_nullified sample_db ids).1 !! [3%N] = Some (sample_row 3 Executed).
Proof.
  split; [vm_compute; reflexivity|].
  apply (mark_nullified_guarded sample_db [[1%N]; [3%N]]); [vm_compute; reflexivity|exact I].
Defined.

(** Recovery at boot turns exactly the settling orders into active ones: no settling
    order is left, and every other order keeps its row. *)
Theorem recovery_resets_settling d k r :
  let d' := (reset_all_settling_to_active d).1 in
  (db_orders d' !! k = Some r → has_status Settling r = false) ∧
  (db_orders d !! k = Some r →
    db_orders d' !! k = Some (if has_status Settling r then with_status r Active else r)).
Proof.
  intros d'. unfold d', reset_all_settling_to_active. rewrite update_where_lookup. split.
  - intros (r0 & _ & ->)%fmap_Some. destruct (has_status Settling r0) eqn:Hs; [|done].
    apply has_status_with_status.
  - by intros ->.
Qed.

Lemma recovery_resets_settling_witness :
  db_orders (reset_all_settling_to_active sample_db).1 !! [2%N] = Some (sample_row 2 Active).
Proof. apply (recovery_resets_settling sample_db [2%N] (sample_row 2 Settling)). vm_compute. reflexivity. Defined.

(** Hydration is complete and sound: when the ids stored for active orders were written by
    the solver, loading succeeds, and it returns exactly the active orders that have a
    note, with the note's bytes and the amounts read back at 64 bits. *)
Theorem hydration_exact `{!Miden} `{HashIter} n d :
  id_roundtrip →
  (∀ k r, db_orders d !! k = Some r → has_status Active r = true → encoded r) →
  ∃ orders, load_active_orders_with_notes n d = Some orders ∧
    ∀ o, o ∈ orders ↔ ∃ k r note, db_orders d !! k = Some r ∧ has_status Active r = true ∧
      db_notes d !! k = Some note ∧ ingest_order_of r (nr_raw_data note) = Some o.
Proof.
  intros Hid Henc. unfold load_active_orders_with_notes.
  destruct (collect_ok_total (λ p, ingest_order_of p.1 p.2) (active_with_notes n d)) as (os & Hos & Hin).
  { intros [r raw] (k & note & Hr & Ha & Hn & <-)%elem_of_active_with_notes.
    apply ingest_order_of_encoded; eauto. }
  exists os. split; [done|]. intros o. rewrite Hin. split.
  - intros ([r raw] & (k & note & Hr & Ha & Hn & <-)%elem_of_active_with_notes & Ho). eauto 8.
  - intros (k & r & note & Hr & Ha & Hn & Ho). exists (r, nr_raw_data note). split; [|done].
    apply elem_of_active_with_notes. eauto 6.
Qed.

Lemma sample_db_rows k r :
  db_orders sample_db !! k = Some r →
  r ∈ [sample_row 1 Active; sample_row 2 Settling; sample_row 3 Executed; sample_row 4 OnchainNullified].
Proof.
  set (rows := [sample_row 1 Active; sample_row 2 Settling; sample_row 3 Executed; sample_row 4 OnchainNullified]).
  change (db_orders sample_db) with (foldl insert_order (∅, ∅) rows).1.
  rewrite (proj1 (insert_orders_from rows ∅ ∅)), lookup_empty.
  intros [[_ Hr]%list_elem_of_filter _]%first_row_Some. done.
Qed.

Lemma hydration_exact_witness :
  let load := @load_active_orders_with_notes demo_miden elements_iter 0 sample_db in
  load = Some [mk_ingest 1 8 7 50 100 [1%N; 1%N]] ∧
  ∃ orders, load = Some orders ∧
    ∀ o, o ∈ orders ↔ ∃ k r note, db_orders sample_db !! k = Some r ∧ has_status Active r = true ∧
      db_notes sample_db !! k = Some note ∧ @ingest_order_of demo_miden r (nr_raw_data note) = Some o.
Proof.
  split; [vm_compute; reflexivity|].
  apply (@hydration_exact demo_miden elements_iter 0 sample_db); [by intros i|].
  intros k r Hr%sample_db_rows _. rewrite !elem_of_cons, elem_of_nil in Hr.
  destruct Hr as [->|[->|[->|[->|[]]]]]; eexists _, 8%N, 7%N; done.
Defined.

(** A nullified order can be brought back: [update_orders_status] has no guard on the
    current status, so marking the orders of a batch settling and reverting them to active
    turns an order that was nullified in between (or before) into an active one, which
    hydration then loads again. *)
Theorem nullified_order_resurrected :
  let d1 := (mark_orders_onchain_nullified sample_db [[1%N]]).1 in
  let d2 := (update_orders_status d1 [[1%N]] Active).1 in
  db_orders d1 !! [1%N] = Some (sample_row 1 OnchainNullified) ∧
  db_orders d2 !! [1%N] = Some (sample_row 1 Active) ∧
  @load_active_orders_with_notes demo_miden elements_iter 0 d2 = Some [mk_ingest 1 8 7 50 100 [1%N; 1%N]].
Proof. vm_compute. done. Qed.
