(* ===== verification/Migrations.v ===== *)
(** * Opening the database (crates/solver/src/db/db.rs: init_db, DbPool; crates/solver/migrations)

    The database file as the embedded migrations build it: which of them ran, the tables and
    columns that exist, their rows and the constraint on the status of an order.  [init_db] opens
    the two pools and runs what is pending.  The theorem: whatever version of the program wrote the
    file, the solver finds every row it held, under the schema the queries of Db.v expect, and
    opening it once more changes nothing.

    Pools, the write-ahead log and the pragmas of a connection belong to the libraries; the one
    writer that [max_size(1)] allows is why a query of Db.v is a function on the whole database. *)

From stdpp Require Import option.
From S2P Require Import Prelude.
From S2P Require Import Types.
From S2P Require Import Db.

(** ** The file *)

(** [None] is a table that does not exist.  A column that does not exist yet reads as NULL in the
    rows of the model; [df_token_columns] tells which of the later columns exist. *)
Record DbFile := mk_file {
  df_applied : nat;
  df_sync : option Z;
  df_notes : option (gmap Bytes NoteRow);
  df_orders : option (gmap Bytes OrderRow);
  df_statuses : list string;
  df_generated : option (gmap Bytes GeneratedNoteRow);
  df_tokens : option (gmap Bytes RegisteredTokenRow);
  df_token_columns : list string;
}.

(** A file that does not exist yet. *)
Definition fresh_file : DbFile := mk_file 0 None None None [] None None [].

(** ** The migrations; [None] is an error of the statement *)

Definition old_statuses : list string := ["active"; "settling"; "executed"]%string.
Definition new_statuses : list string := old_statuses ++ ["onchain_nullified"%string].

(** [CREATE TABLE] fails when the table exists. *)
Definition create {A} (table : option A) (content : A) : option (option A) :=
  match table with None => Some (Some content) | Some _ => None end.

Definition add_column (column : string) (f : DbFile) : option DbFile :=
  match df_tokens f with
  | None => None
  | Some _ =>
    if decide (column ∈ df_token_columns f) then None
    else Some (mk_file (df_applied f) (df_sync f) (df_notes f) (df_orders f) (df_statuses f) (df_generated f) (df_tokens f)
                 (df_token_columns f ++ [column]))
  end.

Definition create_sync_state (f : DbFile) : option DbFile :=
  t ← create (df_sync f) 0;
  Some (mk_file (df_applied f) t (df_notes f) (df_orders f) (df_statuses f) (df_generated f) (df_tokens f) (df_token_columns f)).
Definition create_notes (f : DbFile) : option DbFile :=
  t ← create (df_notes f) ∅;
  Some (mk_file (df_applied f) (df_sync f) t (df_orders f) (df_statuses f) (df_generated f) (df_tokens f) (df_token_columns f)).
Definition create_orders (f : DbFile) : option DbFile :=
  t ← create (df_orders f) ∅;
  Some (mk_file (df_applied f) (df_sync f) (df_notes f) t old_statuses (df_generated f) (df_tokens f) (df_token_columns f)).
Definition create_generated_notes (f : DbFile) : option DbFile :=
  t ← create (df_generated f) ∅;
  Some (mk_file (df_applied f) (df_sync f) (df_notes f) (df_orders f) (df_statuses f) t (df_tokens f) (df_token_columns f)).
Definition create_registered_tokens (f : DbFile) : option DbFile :=
  t ← create (df_tokens f) ∅;
  Some (mk_file (df_applied f) (df_sync f) (df_notes f) (df_orders f) (df_statuses f) (df_generated f) t []).

(** The table is rebuilt under the wider constraint, which every copied row has to satisfy. *)
Definition add_onchain_nullified (f : DbFile) : option DbFile :=
  rows ← df_orders f;
  if decide (map_Forall (λ _ r, or_status r ∈ new_statuses) rows) then
    Some (mk_file (df_applied f) (df_sync f) (df_notes f) (Some rows) new_statuses (df_generated f) (df_tokens f) (df_token_columns f))
  else None.

Definition MIGRATIONS : list (DbFile → option DbFile) :=
  [create_sync_state; create_notes; create_orders; create_generated_notes; create_registered_tokens;
   add_column "external_symbol"; add_onchain_nullified;
   (λ f, f ← add_column "decimals" f; add_column "ticker" f)].

(** Each in a transaction that also records it. *)
Definition record_applied (f : DbFile) : DbFile :=
  mk_file (S (df_applied f)) (df_sync f) (df_notes f) (df_orders f) (df_statuses f) (df_generated f) (df_tokens f) (df_token_columns f).

Fixpoint run_migrations (ms : list (DbFile → option DbFile)) (f : DbFile) : option DbFile :=
  match ms with
  | [] => Some f
  | m :: ms => f ← m f; run_migrations ms (record_applied f)
  end.

Definition run_pending_migrations (f : DbFile) : option DbFile := run_migrations (drop (df_applied f) MIGRATIONS) f.

(** ** [init_db] *)

(** Whether the pools can be built and a connection is given out. *)
Record PoolEnv := mk_pool_env { pe_write : bool; pe_read : bool; pe_conn : bool }.

Definition init_db (env : PoolEnv) (f : DbFile) : option DbFile :=
  if negb (pe_write env) then None
  else if negb (pe_read env) then None
  else if negb (pe_conn env) then None
  else run_pending_migrations f.

(** The tables the queries work on. *)
Definition db_of (f : DbFile) : option Db :=
  block ← df_sync f; notes ← df_notes f; orders ← df_orders f; generated ← df_generated f; tokens ← df_tokens f;
  if decide (df_token_columns f = ["external_symbol"; "decimals"; "ticker"]%string) then
    Some (mk_db block notes orders generated tokens)
  else None.

(** ** Files the program wrote *)

Definition columns_at (v : nat) : list string :=
  if (v <? 6)%nat then [] else if (v <? 8)%nat then ["external_symbol"%string] else ["external_symbol"; "decimals"; "ticker"]%string.
Definition statuses_at (v : nat) : list string :=
  if (v <? 3)%nat then [] else if (v <? 7)%nat then old_statuses else new_statuses.

(** A file after the first [v] migrations and any writes its constraint lets through. *)
Record written_by (v : nat) (f : DbFile) : Prop := {
  wb_applied : df_applied f = v;
  wb_sync : is_Some (df_sync f) ↔ (1 <= v)%nat;
  wb_notes : is_Some (df_notes f) ↔ (2 <= v)%nat;
  wb_orders : is_Some (df_orders f) ↔ (3 <= v)%nat;
  wb_generated : is_Some (df_generated f) ↔ (4 <= v)%nat;
  wb_tokens : is_Some (df_tokens f) ↔ (5 <= v)%nat;
  wb_columns : df_token_columns f = columns_at v;
  wb_statuses : df_statuses f = statuses_at v;
  wb_checked : ∀ rows, df_orders f = Some rows → map_Forall (λ _ r, or_status r ∈ df_statuses f) rows;
}.

(** What the file holds. *)
Definition held (f : DbFile) : Db :=
  mk_db (default 0 (df_sync f)) (default ∅ (df_notes f)) (default ∅ (df_orders f)) (default ∅ (df_generated f)) (default ∅ (df_tokens f)).

Lemma fresh_written : written_by 0 fresh_file.
Proof. split; simpl; try done; try (split; [by intros [? ?]|lia]). Qed.

Lemma exists_iff {A} (t : option A) (k v : nat) :
  (is_Some t ↔ (k <= v)%nat) ↔ (if decide (k <= v)%nat then is_Some t else t = None).
Proof. case_decide; rewrite ?eq_None_not_Some; tauto. Qed.

Lemma checked_weaken (sts : list string) (rows : gmap Bytes OrderRow) :
  sts = old_statuses → map_Forall (λ _ r, or_status r ∈ sts) rows → map_Forall (λ _ r, or_status r ∈ new_statuses) rows.
Proof. intros -> Hr k r Hk. apply elem_of_app. left. by eapply Hr. Qed.

Lemma status_readable r : or_status r ∈ new_statuses → is_Some (order_status r).
Proof.
  unfold new_statuses, old_statuses, order_status. rewrite elem_of_app, !elem_of_cons, elem_of_nil.
  intros [[->|[->|[->|[]]]]|[->|[]]]; by eexists.
Qed.

(** Every migration applies to what the ones before it left, and keeps every row. *)
Lemma migration_step v f :
  written_by v f → (v < 8)%nat → ∃ m f', MIGRATIONS !! v = Some m ∧ m f = Some f' ∧
    written_by (S v) (record_applied f') ∧ held f' = held f.
Proof.
  destruct f as [a s n o st g t c]. intros [Ha Hs Hn Ho Hg Ht Hc Hst Hck] Hv. simpl in *. subst a st c.
  apply exists_iff in Hs, Hn, Ho, Hg, Ht.
  destruct v as [|[|[|[|[|[|[|[|v]]]]]]]]; [..|lia]; simpl in *;
    repeat match goal with H : is_Some ?x |- _ => destruct H as [? ->] | H : ?x = None |- _ => subst x end; eexists _, _.
  all: split; [reflexivity|].
  7: { split; [unfold add_onchain_nullified; simpl; rewrite decide_True by (by eapply checked_weaken, Hck); reflexivity|].
       split; [|done]. split; simpl; try done; try (by rewrite exists_iff; simpl; eexists).
       intros rows [= <-]. by eapply checked_weaken, Hck. }
  all: split; [reflexivity|]; split; [|done].
  all: split; simpl; try done; try (by rewrite exists_iff; simpl; eexists); try (by rewrite exists_iff).
  all: intros rows [= <-]; try (by apply Hck); apply map_Forall_empty.
Qed.

Lemma pending_keeps v f :
  written_by v f → (v <= 8)%nat → ∃ f', run_pending_migrations f = Some f' ∧ written_by 8 f' ∧ held f' = held f.
Proof.
  intros Hf Hv. unfold run_pending_migrations. rewrite (wb_applied _ _ Hf).
  remember (8 - v)%nat as k eqn:Hk. revert v f Hf Hv Hk. induction k as [|k IH]; intros v f Hf Hv Hk.
  - assert (v = 8%nat) as -> by lia. by exists f.
  - destruct (migration_step v f Hf ltac:(lia)) as (m & f1 & Hm & Hf1 & Hw & Hh).
    destruct (IH (S v) (record_applied f1) Hw ltac:(lia) ltac:(lia)) as (f' & Hrun & Hw' & Hh').
    exists f'. rewrite (drop_S _ _ _ Hm). simpl. rewrite Hf1. simpl. split_and!; [done..|]. by rewrite Hh', <-Hh.
Qed.

Lemma written_db f : written_by 8 f → db_of f = Some (held f).
Proof.
  intros [_ Hs Hn Ho Hg Ht Hc _ _]. destruct (proj2 Hs) as [? Es]; [lia|]. destruct (proj2 Hn) as [? En]; [lia|].
  destruct (proj2 Ho) as [? Eo]; [lia|]. destruct (proj2 Hg) as [? Eg]; [lia|]. destruct (proj2 Ht) as [? Et]; [lia|].
  unfold db_of, held. by rewrite Es, En, Eo, Eg, Et, Hc.
Qed.

(** C30. Opening a database keeps what it holds.  A file that does not exist, or one written under
    the schema of any version of the program, is brought to the current schema, on which every query
    works, with exactly the rows it held and every status readable; opening it again changes
    nothing.  When a pool or the connection fails, nothing is opened. *)
Theorem init_db_keeps_rows v f env :
  written_by v f → (v <= 8)%nat →
  match init_db env f with
  | None => (pe_write env && pe_read env && pe_conn env) = false
  | Some f' => (pe_write env && pe_read env && pe_conn env) = true ∧ db_of f' = Some (held f) ∧ init_db env f' = Some f' ∧
      (v = 0%nat → held f = db_empty) ∧ map_Forall (λ _ r, is_Some (order_status r)) (db_orders (held f))
  end.
Proof.
  intros Hf Hv. destruct (pending_keeps v f Hf Hv) as (f' & Hrun & Hw & Hh).
  destruct (pending_keeps 8 f' Hw ltac:(lia)) as (f2 & Hrun2 & _). assert (f2 = f') as ->.
  { unfold run_pending_migrations in Hrun2. rewrite (wb_applied _ _ Hw) in Hrun2. by injection Hrun2. }
  unfold init_db. destruct (pe_write env); [|done]. destruct (pe_read env); [|done]. destruct (pe_conn env); [|done]. simpl. rewrite Hrun.
  rewrite <-Hh. split_and!; [done|by apply written_db|done| |].
  - rewrite Hh. intros ->. destruct Hf as [_ Hs Hn Ho Hg Ht _ _ _]. apply exists_iff in Hs, Hn, Ho, Hg, Ht. simpl in *. unfold held. by rewrite Hs, Hn, Ho, Hg, Ht.
  - destruct (proj2 (wb_orders _ _ Hw)) as [rows Hr]; [lia|]. pose proof (f_equal db_orders Hh) as E. simpl in E. rewrite <-E, Hr. simpl.
    intros k r Hk. pose proof (wb_checked _ _ Hw rows Hr k r Hk) as Hin. rewrite (wb_statuses _ _ Hw) in Hin. by apply status_readable.
Qed.

(** A file of the first release with an order in it. *)
Definition old_row : OrderRow := mk_order_row [2%N] [1%N] [2%N] 40 [1%N] 100 7 "settling".
Definition old_file : DbFile := mk_file 3 (Some 12) (Some ∅) (Some {[ [2%N] := old_row ]}) old_statuses None None [].

Lemma old_written : written_by 3 old_file.
Proof.
  split; simpl; try done; try (by rewrite exists_iff; simpl; eexists); try (by rewrite exists_iff).
  intros rows [= <-]. apply map_Forall_singleton. set_solver.
Qed.

Lemma init_db_keeps_rows_witness :
  match init_db (mk_pool_env true true true) old_file with
  | Some f => match db_of f with Some d => db_orders d !! [2%N] = Some old_row | None => False end
  | None => False
  end.
Proof.
  pose proof (init_db_keeps_rows 3 old_file (mk_pool_env true true true) old_written ltac:(lia)) as H.
  destruct (init_db _ old_file) as [f|]; [|discriminate H]. destruct H as (_ & -> & _). reflexivity.
Defined.
