(* ===== verification/Ingest.v ===== *)
(** * Ingest (crates/solver/src/ingest/ingest.rs)

    One iteration of the ingest loop: the sync result is written to the database, consumed
    notes and first-seen orders are sent to the matcher.  What the iteration meets outside
    (the sync, the connections, the channels, the clock) is a record of inputs, so that
    every error path is a branch of the definition.  Of the client adapter, the collection
    of new notes and the nullifier query are modelled; the client itself is third-party. *)

From stdpp Require Import option.
From S2P Require Import Prelude.
From S2P Require Import Types.
From S2P Require Import Db.

Section ingest.
Context `{!Miden}.

Record SyncResult := mk_sync {
  sr_block_num : Z;
  sr_new_notes : list Note;
  sr_consumed_notes : list OrderId;
}.

(** ** The client adapter *)

(** The result of looking up a note a sync reported. *)
Inductive InputNoteLookup :=
  | InputNote (note : Note)
  | ConversionFailed
  | NotInStore
  | LookupError.

Record SyncSummary := mk_summary {
  ss_block_num : Z;
  ss_new_public : list OrderId;
  ss_new_private : list OrderId;
  ss_consumed : list OrderId;
}.

(** [MidenClientAdapter::sync_state]: notes that cannot be read are logged and skipped. *)
Definition sync_state (summary : option SyncSummary) (get_input_note : OrderId → InputNoteLookup) : option SyncResult :=
  s ← summary;
  Some (mk_sync (ss_block_num s)
    (omap (λ id, match get_input_note id with InputNote note => Some note | _ => None end)
       (ss_new_public s ++ ss_new_private s))
    (ss_consumed s)).

(** [MidenClientAdapter::check_consumed_notes]: the ids of the notes whose nullifier has a
    commit height; [heights] is the node's answer to the query. *)
Definition check_consumed_notes (heights : gset N → option (gmap N (option N))) (notes : list Note) : option (gset OrderId) :=
  match notes with
  | [] => Some ∅
  | _ =>
    let nullifier_to_id : gmap N OrderId :=
      foldl (λ m note, <[note_nullifier note := note_id note]> m) ∅ notes in
    let nullifiers : gset N := list_to_set (note_nullifier <$> notes) in
    hs ← heights nullifiers;
    Some (map_fold (λ nullifier maybe_height (consumed : gset OrderId),
      match (maybe_height : option N) with
      | Some _ => match nullifier_to_id !! nullifier with Some id => {[id]} ∪ consumed | None => consumed end
      | None => consumed
      end) ∅ hs)
  end.

(** [MidenClientAdapter::subscribe_pair]: the tag of the direction joins those the client syncs;
    [create_tag] is the library's, [added] whether the client stores it. *)
Definition subscribe_pair (create_tag : TokenId → TokenId → N) (added : bool) (tags : gset N) (offered requested : TokenId) : option (gset N) :=
  if negb (fungible_asset_ok offered 1) then None
  else if negb (fungible_asset_ok requested 1) then None
  else if added then Some ({[create_tag offered requested]} ∪ tags) else None.

(** [MidenClientAdapter::fetch_token_metadata], from what the node has of a faucet. *)
Record RemoteMetadata := mk_remote_metadata { rm_decimals : Z; rm_symbol : string }.

Definition fetch_token_metadata (reply : option (option RemoteMetadata)) : option (option (Z * string)) :=
  match reply with
  | Some meta => Some (option_map (λ m, (rm_decimals m, rm_symbol m)) meta)
  | None => None
  end.

(** ** One iteration *)

(** What an iteration meets: the sync, the two write connections, whether the k-th send on
    each channel succeeds, and the clock read for the i-th note. *)
Record IngestEnv := mk_env {
  ie_sync : option SyncResult;
  ie_consumed_conn : bool;
  ie_insert_conn : bool;
  ie_consumed_open : nat → bool;
  ie_order_open : nat → bool;
  ie_now : nat → Z;
}.

(** What an iteration leaves: the database, the messages delivered and whether it returned [Ok]. *)
Record IngestOut := mk_out {
  out_db : Db;
  out_consumed : list OrderId;
  out_orders : list IngestOrder;
  out_ok : bool;
}.

(** The rows and the message of one note; [None] for a note the loop skips. *)
Definition prepare_note (now : Z) (note : Note) : option (NoteRow * OrderRow * IngestOrder) :=
  if negb (has_pswap_script note) then None
  else match from_note note with
  | None => None
  | Some order =>
    let note_id_bytes := id_bytes (note_id note) in
    let raw_data := note_write note in
    Some (mk_note_row note_id_bytes (id_bytes (po_creator order)) raw_data,
          mk_order_row note_id_bytes (id_bytes (po_creator order))
            (id_bytes (po_requested_faucet order)) (as_i64 (po_requested_amount order))
            (id_bytes (po_offered_faucet order)) (as_i64 (po_offered_amount order))
            now (as_str Active),
          mk_ingest (note_id note) (po_offered_faucet order) (po_requested_faucet order)
            (po_offered_amount order) (po_requested_amount order) raw_data)
  end.

Definition prepare_notes (now : nat → Z) (notes : list Note) : list (NoteRow * OrderRow * IngestOrder) :=
  omap id (imap (λ i note, prepare_note (now i) note) notes).

(** The sends to the matcher: the first failure ends the iteration. *)
Fixpoint forward_orders (is_open : nat → bool) (i : nat) (inserted : gset Bytes) (orders : list IngestOrder)
    : list IngestOrder * bool :=
  match orders with
  | [] => ([], true)
  | o :: rest =>
    if decide (id_bytes (io_note_id o) ∈ inserted) then
      if is_open i then let '(sent, ok) := forward_orders is_open (S i) inserted rest in (o :: sent, ok)
      else ([], false)
    else forward_orders is_open i inserted rest
  end.

(** The best-effort sends of the consumed ids. *)
Definition send_consumed (is_open : nat → bool) (ids : list OrderId) : list OrderId :=
  omap id (imap (λ i x, if is_open i then Some x else None) ids).

(** The consumed notes are written and sent before the new notes; [None] when no
    connection is available. *)
Definition handle_consumed (env : IngestEnv) (d : Db) (consumed_notes : list OrderId) : option (Db * list OrderId) :=
  match consumed_notes with
  | [] => Some (d, [])
  | _ => if ie_consumed_conn env
         then Some ((mark_orders_onchain_nullified d (id_bytes <$> consumed_notes)).1,
                    send_consumed (ie_consumed_open env) consumed_notes)
         else None
  end.

Definition ingest_once (env : IngestEnv) (d : Db) : IngestOut :=
  match ie_sync env with
  | None => mk_out d [] [] false
  | Some s =>
    match handle_consumed env d (sr_consumed_notes s) with
    | None => mk_out d [] [] false
    | Some (d, consumed) =>
      let prepared := prepare_notes (ie_now env) (sr_new_notes s) in
      match prepared with
      | [] => mk_out d consumed [] true
      | _ =>
        if ie_insert_conn env then
          let '(d, inserted) :=
            insert_notes_batch d (prepared.*1.*1) (prepared.*1.*2) (sr_block_num s) in
          let '(sent, ok) := forward_orders (ie_order_open env) 0 inserted (prepared.*2) in
          mk_out d consumed sent ok
        else mk_out d consumed [] false
      end
    end
  end.

(** ** Lemmas *)

(** The three outputs of a note agree. *)
Definition prepared_from (note : Note) (x : NoteRow * OrderRow * IngestOrder) : Prop :=
  nr_note_id x.1.1 = id_bytes (note_id note) ∧ or_note_id x.1.2 = id_bytes (note_id note) ∧
  io_note_id x.2 = note_id note ∧ nr_raw_data x.1.1 = io_raw x.2 ∧ or_status x.1.2 = as_str Active.

Lemma prepare_note_from now note x : prepare_note now note = Some x → prepared_from note x.
Proof.
  unfold prepare_note. destruct (has_pswap_script note); [|done]. simpl.
  destruct (from_note note) as [o|]; [|done]. intros [= <-]. done.
Qed.

Lemma prepare_note_roundtrip now note x :
  id_roundtrip → pswap_amounts_u64 → prepare_note now note = Some x →
  ingest_order_of x.1.2 (io_raw x.2) = Some x.2.
Proof.
  intros Hid Hu. unfold prepare_note. destruct (has_pswap_script note); [|done]. simpl.
  destruct (from_note note) as [o|] eqn:Ho; [|done]. intros [= <-].
  destruct (from_note_amounts note o Hu Ho) as [? ?].
  unfold ingest_order_of. simpl. rewrite !Hid. simpl. rewrite !cast_roundtrip by u64. done.
Qed.

(** The prepared entries come from the notes, in order. *)
Lemma elem_of_prepare_notes now notes x :
  x ∈ prepare_notes now notes → ∃ i note, notes !! i = Some note ∧ prepare_note (now i) note = Some x.
Proof.
  unfold prepare_notes. rewrite list_elem_of_omap. intros (y & Hy & Hx). simpl in Hx. subst y.
  apply elem_of_lookup_imap in Hy as (i & note & Hy & Hn). eauto.
Qed.

Lemma prepare_notes_cons now note notes :
  prepare_notes now (note :: notes) =
  match prepare_note (now 0%nat) note with Some x => [x] | None => [] end ++
  prepare_notes (λ i, now (S i)) notes.
Proof. unfold prepare_notes. simpl. by destruct (prepare_note (now 0%nat) note). Qed.

(** The ids of the prepared entries are a sublist of the ids of the notes. *)
Lemma prepare_notes_ids now notes :
  (io_note_id ∘ snd <$> prepare_notes now notes) `sublist_of` (note_id <$> notes).
Proof.
  revert now. induction notes as [|note notes IH]; intros now; [done|].
  rewrite prepare_notes_cons, fmap_app, fmap_cons. destruct (prepare_note (now 0%nat) note) as [x|] eqn:Hx; simpl.
  - apply prepare_note_from in Hx as (_ & _ & -> & _). apply sublist_skip, IH.
  - apply sublist_cons, IH.
Qed.

Lemma forward_orders_open is_open inserted orders i :
  (∀ i, is_open i = true) →
  forward_orders is_open i inserted orders =
    (filter (λ o, id_bytes (io_note_id o) ∈ inserted) orders, true).
Proof.
  intros Hopen. revert i. induction orders as [|o orders IH]; intros i; simpl; [done|].
  rewrite filter_cons, Hopen. case_decide; [by rewrite IH|apply IH].
Qed.

Lemma forward_orders_sub is_open inserted orders i :
  (forward_orders is_open i inserted orders).1 `sublist_of`
    filter (λ o, id_bytes (io_note_id o) ∈ inserted) orders.
Proof.
  revert i. induction orders as [|o orders IH]; intros i; simpl; [done|].
  rewrite filter_cons. case_decide; [|apply IH]. destruct (is_open i); [|apply sublist_nil_l].
  specialize (IH (S i)). destruct (forward_orders is_open (S i) inserted orders). by apply sublist_skip.
Qed.

Lemma handle_consumed_steps env d ids d' sent :
  handle_consumed env d ids = Some (d', sent) → rtc db_step d d' ∧ (∀ k, db_orders d' !! k = None ↔ db_orders d !! k = None) ∧ db_notes d' = db_notes d.
Proof.
  unfold handle_consumed. destruct ids as [|x ids]; [intros [= <- <-]; by split_and!|].
  destruct (ie_consumed_conn env); [|done]. intros [= <- <-].
  split_and!; [apply rtc_once, step_nullified| |done].
  intros k. exact (update_where_keys _ _ d k).
Qed.

(** The keys a batch inserts are the prepared ones that were not stored. *)
Lemma inserted_keys d (prepared : list (NoteRow * OrderRow * IngestOrder)) b :
  (∀ x, x ∈ prepared → status_check x.1.2 = true) →
  ∀ k, k ∈ (insert_notes_batch d (prepared.*1.*1) (prepared.*1.*2) b).2 ↔
    db_orders d !! k = None ∧ k ∈ or_note_id <$> (prepared.*1.*2).
Proof.
  intros Hc k. unfold insert_notes_batch, insert_orders.
  pose proof (insert_orders_from (prepared.*1.*2) (db_orders d) ∅) as [_ Hi].
  destruct (foldl insert_order _ _) as [orders ins]. cbn [fst snd] in *. rewrite Hi, elem_of_empty.
  rewrite (filter_all (λ r, status_check r = true)).
  - split; [intros [[]|[? [r Hr]]]|intros [? (r & -> & Hr)%list_elem_of_fmap]; right].
    + apply first_row_Some in Hr as [? <-]. split; [done|]. by apply list_elem_of_fmap_2.
    + split; [done|]. by apply first_row_is_Some.
  - intros r (y & -> & (x & -> & Hx)%list_elem_of_fmap)%list_elem_of_fmap. by apply Hc.
Qed.

Lemma prepared_status now notes x : x ∈ prepare_notes now notes → status_check x.1.2 = true.
Proof.
  intros (i & note & _ & (_ & _ & _ & _ & Hs)%prepare_note_from)%elem_of_prepare_notes.
  unfold status_check, order_status. rewrite Hs. done.
Qed.

(** Whether it fails or not, an iteration is a sequence of database writes, and what it
    forwards was not stored before and is stored after. *)
Lemma ingest_once_steps env d :
  let out := ingest_once env d in
  rtc db_step d (out_db out) ∧
  (io_note_id <$> out_orders out) `sublist_of`
    match ie_sync env with Some s => note_id <$> sr_new_notes s | None => [] end ∧
  ∀ o, o ∈ out_orders out →
    db_orders d !! id_bytes (io_note_id o) = None ∧ is_Some (db_orders (out_db out) !! id_bytes (io_note_id o)).
Proof.
  unfold ingest_once. destruct (ie_sync env) as [s|]; [|by split_and!; [done|done|intros o []%elem_of_nil]].
  destruct (handle_consumed env d (sr_consumed_notes s)) as [[d1 sent]|] eqn:Hc.
  2: by split_and!; [done|apply sublist_nil_l|intros o []%elem_of_nil].
  apply handle_consumed_steps in Hc as (Hs1 & Hk1 & _).
  destruct (prepare_notes (ie_now env) (sr_new_notes s)) as [|x0 xs0] eqn:Hp.
  { by split_and!; [done|apply sublist_nil_l|intros o []%elem_of_nil]. }
  rewrite <-Hp. clear Hp x0 xs0. set (prepared := prepare_notes (ie_now env) (sr_new_notes s)).
  destruct (ie_insert_conn env).
  2: by split_and!; [done|apply sublist_nil_l|intros o []%elem_of_nil].
  pose proof (inserted_keys d1 prepared (sr_block_num s) (prepared_status _ _)) as Hin.
  pose proof (step_insert d1 prepared.*1.*1 prepared.*1.*2 (sr_block_num s)) as Hstep.
  pose proof (insert_orders_from prepared.*1.*2 (db_orders d1) ∅) as [Ho Hi].
  unfold insert_notes_batch, insert_orders in *.
  destruct (foldl insert_order _ _) as [orders ins]. cbn [fst snd] in *.
  pose proof (forward_orders_sub (ie_order_open env) ins prepared.*2 0) as Hsub.
  destruct (forward_orders _ _ _ _) as [fwd ok]. cbn [fst out_db out_orders] in *.
  assert (fwd `sublist_of` prepared.*2) as Hsub' by (etrans; [done|apply sublist_filter]).
  split_and!.
  - etrans; [done|]. by apply rtc_once.
  - etrans; [by apply fmap_sublist|]. rewrite <-list_fmap_compose. apply prepare_notes_ids.
  - intros o Ho'. assert (id_bytes (io_note_id o) ∈ ins) as Hk.
    { pose proof (elem_of_sublist _ _ _ Ho' Hsub) as Hf. by apply list_elem_of_filter in Hf as [? _]. }
    split; [by apply Hk1, Hin|]. cbn [db_orders]. rewrite Ho. apply Hi in Hk as [?%not_elem_of_empty|[-> ?]]; done.
Qed.
End ingest.

(** ** Runs of the ingest task beside the other writers of the database *)

Inductive ingest_run `{!Miden} : Db → list OrderId → Db → Prop :=
  | ingest_nil d : ingest_run d [] d
  | ingest_write d ids d' d'' : ingest_run d ids d' → db_step d' d'' → ingest_run d ids d''
  | ingest_iter d ids d' env :
      ingest_run d ids d' →
      (∀ s, ie_sync env = Some s → NoDup (note_id <$> sr_new_notes s)) →
      ingest_run d (ids ++ (io_note_id <$> out_orders (ingest_once env d'))) (out_db (ingest_once env d')).

Lemma ingest_run_stored `{!Miden} d ids d' :
  id_roundtrip → ingest_run d ids d' →
  NoDup ids ∧ ∀ i, i ∈ ids → is_Some (db_orders d' !! id_bytes i).
Proof.
  intros Hid. induction 1 as [d|d ids d1 d2 _ [IH1 IH2] Hs|d ids d1 env _ [IH1 IH2] Hnd].
  - split; [constructor|intros i []%elem_of_nil].
  - split; [done|]. intros i [r Hr]%IH2. destruct (db_step_ok _ _ Hs) as [[Hk _] _].
    apply Hk in Hr as (r' & -> & _). done.
  - destruct (ingest_once_steps env d1) as (Hsteps & Hsub & Hnew). split.
    + apply NoDup_app. split_and!; [done| |].
      * intros i [r Hr]%IH2 (o & -> & Ho)%list_elem_of_fmap. destruct (Hnew o Ho). congruence.
      * eapply sublist_NoDup; [|done]. destruct (ie_sync env); [by apply Hnd|constructor].
    + intros i [Hi|(o & -> & Ho)%list_elem_of_fmap]%elem_of_app; [|by apply Hnew].
      apply IH2 in Hi as [r Hr]. clear -Hsteps Hr. revert r Hr.
      induction Hsteps as [d|d1 d2 d3 H12 _ IH]; intros r Hr; [done|].
      destruct (db_step_ok _ _ H12) as [[Hk _] _]. apply Hk in Hr as (r' & Hr' & _). by apply (IH r').
Qed.

(** The nullifier map of a list of notes. *)
Lemma nullifier_map_lookup `{!Miden} (notes : list Note) (m : gmap N OrderId) n :
  foldl (λ m note, <[note_nullifier note := note_id note]> m) m notes !! n =
  match last (filter (λ note, note_nullifier note = n) notes) with
  | Some note => Some (note_id note)
  | None => m !! n
  end.
Proof.
  induction notes as [|note notes IH] using rev_ind; [done|].
  rewrite foldl_snoc, filter_app, filter_cons, filter_nil.
  destruct (decide (note_nullifier note = n)) as [<-|Hne].
  - by rewrite lookup_insert_eq, last_snoc.
  - by rewrite lookup_insert_ne, app_nil_r, IH.
Qed.

(** The fold over the heights collects the ids of the committed nullifiers. *)
Lemma consumed_fold (ids : gmap N OrderId) (hs : gmap N (option N)) (i : OrderId) :
  i ∈ map_fold (λ nullifier maybe_height (consumed : gset OrderId),
    match (maybe_height : option N) with
    | Some _ => match ids !! nullifier with Some id => {[id]} ∪ consumed | None => consumed end
    | None => consumed
    end) ∅ hs ↔ ∃ n h, hs !! n = Some (Some h) ∧ ids !! n = Some i.
Proof.
  induction hs as [|n oh hs Hn Hfold IH] using map_first_key_ind.
  { rewrite map_fold_empty, elem_of_empty. split; [done|]. by intros (n & h & Hl%lookup_empty_Some & _). }
  rewrite map_fold_insert_first_key by done.
  assert ((∃ n' h, <[n:=oh]> hs !! n' = Some (Some h) ∧ ids !! n' = Some i) ↔
    (∃ h, oh = Some h ∧ ids !! n = Some i) ∨ ∃ n' h, hs !! n' = Some (Some h) ∧ ids !! n' = Some i) as ->.
  { split.
    - intros (n' & h & [[<- ->]|[? ?]]%lookup_insert_Some & ?); eauto 6.
    - intros [(h & -> & ?)|(n' & h & Hl & ?)]; [exists n, h; by rewrite lookup_insert_eq|].
      exists n', h. rewrite lookup_insert_ne; [done|congruence]. }
  destruct oh as [h|]; [destruct (ids !! n) as [id|]|]; rewrite <-?IH, ?elem_of_union, ?elem_of_singleton;
    naive_solver.
Qed.

Lemma send_consumed_open is_open ids : (∀ i, is_open i = true) → send_consumed is_open ids = ids.
Proof.
  intros Hopen. unfold send_consumed. rewrite (imap_ext _ (λ i x, Some x)) by (intros; by rewrite Hopen).
  induction ids as [|x ids IH]; [done|]. simpl. f_equal. apply IH.
Qed.

(** The entries of one note share its key. *)
Lemma prepared_key `{!Miden} now notes x :
  x ∈ prepare_notes now notes → or_note_id x.1.2 = id_bytes (io_note_id x.2).
Proof. intros (i & note & _ & (_ & -> & -> & _)%prepare_note_from)%elem_of_prepare_notes. done. Qed.

(** An iteration that nothing disturbs. *)
Lemma ingest_once_undisturbed `{!Miden} env s d :
  ie_sync env = Some s → ie_consumed_conn env = true → ie_insert_conn env = true →
  (∀ i, ie_consumed_open env i = true) → (∀ i, ie_order_open env i = true) →
  let out := ingest_once env d in
  let prepared := prepare_notes (ie_now env) (sr_new_notes s) in
  out_ok out = true ∧ out_consumed out = sr_consumed_notes s ∧
  out_orders out = filter (λ o, db_orders d !! id_bytes (io_note_id o) = None) prepared.*2 ∧
  ∀ o, o ∈ prepared.*2 → is_Some (db_orders (out_db out) !! id_bytes (io_note_id o)).
Proof.
  intros Hs Hc1 Hc2 Ho1 Ho2. unfold ingest_once. rewrite Hs, Hc2.
  assert (∃ d1, handle_consumed env d (sr_consumed_notes s) = Some (d1, sr_consumed_notes s)) as [d1 Hd1].
  { unfold handle_consumed. destruct (sr_consumed_notes s) eqn:?; [by eexists|].
    rewrite Hc1, send_consumed_open by done. by eexists. }
  rewrite Hd1. apply handle_consumed_steps in Hd1 as (_ & Hk1 & _).
  set (prepared := prepare_notes (ie_now env) (sr_new_notes s)).
  destruct prepared as [|x0 xs0] eqn:Hp; [by split_and!; [done..|intros o []%elem_of_nil]|].
  rewrite <-Hp. clear Hp x0 xs0.
  pose proof (inserted_keys d1 prepared (sr_block_num s) (prepared_status _ _)) as Hin.
  pose proof (insert_orders_from prepared.*1.*2 (db_orders d1) ∅) as [Ho Hi].
  unfold insert_notes_batch, insert_orders in *.
  destruct (foldl insert_order _ _) as [orders ins]. cbn [fst snd] in *.
  rewrite forward_orders_open by done. cbn [out_ok out_consumed out_orders out_db db_orders].
  assert (∀ o, o ∈ prepared.*2 → id_bytes (io_note_id o) ∈ or_note_id <$> prepared.*1.*2) as Hkeys.
  { intros o (x & -> & Hx)%list_elem_of_fmap. rewrite <-(prepared_key _ _ _ Hx), <-!list_fmap_compose.
    apply list_elem_of_fmap. by exists x. }
  split_and!; [done..| |].
  - apply filter_ext_in. intros o Ho'. rewrite Hin, Hk1. split; [tauto|]. auto.
  - intros o Ho'. rewrite Ho. destruct (db_orders d1 !! id_bytes (io_note_id o)) eqn:Hd1; [done|].
    assert (id_bytes (io_note_id o) ∈ ins) as Hk by (apply Hin; auto).
    by apply Hi in Hk as [?%not_elem_of_empty|[_ ?]].
Qed.

(** Where a forwarded order comes from. *)
Lemma forwarded_inv `{!Miden} env s d o :
  ie_sync env = Some s → o ∈ out_orders (ingest_once env d) →
  let prepared := prepare_notes (ie_now env) (sr_new_notes s) in
  ∃ d1, db_notes d1 = db_notes d ∧ (∀ k, db_orders d1 !! k = None ↔ db_orders d !! k = None) ∧
    out_db (ingest_once env d) = (insert_notes_batch d1 prepared.*1.*1 prepared.*1.*2 (sr_block_num s)).1 ∧
    o ∈ prepared.*2 ∧ db_orders d1 !! id_bytes (io_note_id o) = None.
Proof.
  intros Hs. unfold ingest_once. rewrite Hs.
  destruct (handle_consumed env d (sr_consumed_notes s)) as [[d1 sent]|] eqn:Hc; [|by intros ?%not_elem_of_nil].
  apply handle_consumed_steps in Hc as (_ & Hk1 & Hn1).
  destruct (prepare_notes (ie_now env) (sr_new_notes s)) as [|x0 xs0] eqn:Hp; [by intros ?%not_elem_of_nil|].
  rewrite <-Hp. clear Hp x0 xs0. set (prepared := prepare_notes (ie_now env) (sr_new_notes s)).
  destruct (ie_insert_conn env); [|by intros ?%not_elem_of_nil].
  pose proof (inserted_keys d1 prepared (sr_block_num s) (prepared_status _ _)) as Hin.
  destruct (insert_notes_batch _ _ _ _) as [d2 ins] eqn:Hb.
  pose proof (forward_orders_sub (ie_order_open env) ins prepared.*2 0) as Hsub.
  destruct (forward_orders _ _ _ _) as [fwd ok]. cbn [fst snd out_db out_orders] in *.
  intros Ho. pose proof (elem_of_sublist _ _ _ Ho Hsub) as [Hk Ho']%list_elem_of_filter.
  exists d1. rewrite Hb. split_and!; [done..|]. by apply Hin.
Qed.

(** The keys of the prepared rows are the encoded ids of the messages. *)
Lemma prepared_keys_NoDup `{!Miden} now notes :
  id_roundtrip → NoDup (note_id <$> notes) →
  NoDup (or_note_id <$> (prepare_notes now notes).*1.*2) ∧ NoDup (nr_note_id <$> (prepare_notes now notes).*1.*1).
Proof.
  intros Hid Hnd. assert (NoDup (id_bytes <$> (io_note_id ∘ snd <$> prepare_notes now notes))) as Hk.
  { apply NoDup_fmap_2; [intros i j Hij; pose proof (Hid i) as Hi; rewrite Hij, Hid in Hi; congruence|].
    eapply sublist_NoDup; [exact Hnd|apply prepare_notes_ids]. }
  rewrite <-!list_fmap_compose in *.
  split; (erewrite list_fmap_ext; [exact Hk|]); intros i x Hx%list_elem_of_lookup_2; simpl;
    apply elem_of_prepare_notes in Hx as (j & note & _ & (H1 & H2 & H3 & _)%prepare_note_from); congruence.
Qed.

(** ** Theorems *)

(** What an undisturbed iteration does: it reports every consumed note, forwards, in the
    order of the sync, exactly the parsed orders that the database did not know, and an
    iteration over the same sync again forwards nothing. *)
Theorem ingest_forwards_first_seen `{!Miden} env s d :
  ie_sync env = Some s → ie_consumed_conn env = true → ie_insert_conn env = true →
  (∀ i, ie_consumed_open env i = true) → (∀ i, ie_order_open env i = true) →
  let out := ingest_once env d in
  out_ok out = true ∧ out_consumed out = sr_consumed_notes s ∧
  out_orders out =
    filter (λ o, db_orders d !! id_bytes (io_note_id o) = None) (prepare_notes (ie_now env) (sr_new_notes s)).*2 ∧
  out_orders (ingest_once env (out_db out)) = [].
Proof.
  intros Hs Hc1 Hc2 Ho1 Ho2 out.
  destruct (ingest_once_undisturbed env s d) as (Hok & Hcons & Hfwd & Hst); [done..|]. fold out in Hok, Hcons, Hfwd, Hst.
  destruct (ingest_once_undisturbed env s (out_db out)) as (_ & _ & Hfwd' & _); [done..|].
  split_and!; [done..|]. rewrite Hfwd'. apply filter_none. intros o [r Hr]%Hst. by rewrite Hr.
Qed.

(** Two PSWAP notes and a note with another script. *)
Definition demo_notes : list DemoNote :=
  [mk_demo true 1 8 50 7 100 3; mk_demo false 2 8 50 7 100 3; mk_demo true 5 7 9 8 4 3].
Definition demo_env : @IngestEnv demo_miden :=
  mk_env (Some (mk_sync (H := demo_miden) 12 demo_notes [1%N])) true true (λ _, true) (λ _, true) (λ i, Z.of_nat i).

Lemma ingest_forwards_first_seen_witness :
  io_note_id <$> out_orders (ingest_once demo_env sample_db) = [5%N] ∧
  out_orders (ingest_once demo_env (out_db (ingest_once demo_env sample_db))) = [].
Proof.
  split; [vm_compute; reflexivity|].
  apply (@ingest_forwards_first_seen demo_miden demo_env (mk_sync (H := demo_miden) 12 demo_notes [1%N]) sample_db);
    reflexivity.
Defined.

(** Each order reaches the matcher at most once.  Over any run of ingest iterations, failed
    ones included, interleaved with any other writes to the database and whatever the
    syncs report again, no order id is forwarded twice (when one sync does not itself
    report a note twice), and every forwarded order is stored. *)
Theorem ingest_at_most_once `{!Miden} d ids d' :
  id_roundtrip → ingest_run d ids d' →
  NoDup ids ∧ ∀ i, i ∈ ids → is_Some (db_orders d' !! id_bytes i).
Proof. apply ingest_run_stored. Qed.

Lemma demo_ids_nodup : NoDup [1%N; 2%N; 5%N].
Proof. repeat constructor; set_solver. Qed.

Lemma ingest_at_most_once_witness :
  let d1 := out_db (ingest_once demo_env sample_db) in
  @ingest_run demo_miden sample_db ([5%N] ++ []) (out_db (ingest_once demo_env d1)) ∧ NoDup ([5%N] ++ []).
Proof.
  intros d1.
  assert (@ingest_run demo_miden sample_db ([5%N] ++ []) (out_db (ingest_once demo_env d1))) as Hrun.
  { apply (@ingest_iter demo_miden sample_db [5%N] d1 demo_env).
    - apply (@ingest_iter demo_miden sample_db [] sample_db demo_env); [constructor|].
      intros s [= <-]. exact demo_ids_nodup.
    - intros s [= <-]. exact demo_ids_nodup. }
  split; [exact Hrun|]. apply (@ingest_at_most_once demo_miden sample_db _ _ (λ i, eq_refl) Hrun).
Defined.

(** C23. Crash safety of the hand-over: every order an iteration forwards, however the iteration
    ends, is already stored as active with its note, and the stored rows read back as the
    very message that was sent, so that hydration after a restart yields the same order. *)
Theorem forwarded_orders_recoverable `{!Miden} env s d :
  id_roundtrip → pswap_amounts_u64 → ie_sync env = Some s → NoDup (note_id <$> sr_new_notes s) →
  dom (db_notes d) ⊆ dom (db_orders d) →
  let out := ingest_once env d in
  ∀ o, o ∈ out_orders out → ∃ k r note,
    db_orders (out_db out) !! k = Some r ∧ has_status Active r = true ∧
    db_notes (out_db out) !! k = Some note ∧ ingest_order_of r (nr_raw_data note) = Some o.
Proof.
  intros Hid Hu Hs Hnd Hdom out o Ho.
  destruct (forwarded_inv env s d o Hs Ho) as (d1 & Hn1 & Hk1 & Hout & Hin & Hnone).
  destruct (prepared_keys_NoDup (ie_now env) (sr_new_notes s) Hid Hnd) as [Hno Hnn].
  set (prepared := prepare_notes (ie_now env) (sr_new_notes s)) in *.
  apply list_elem_of_fmap in Hin as (x & -> & Hx).
  assert (x.1.2 ∈ prepared.*1.*2) as Hx1 by (by do 2 apply list_elem_of_fmap_2).
  assert (x.1.1 ∈ prepared.*1.*1) as Hx2 by (by do 2 apply list_elem_of_fmap_2).
  destruct (elem_of_prepare_notes _ _ _ Hx) as (i & note & _ & Hp).
  pose proof (prepare_note_from _ _ _ Hp) as (Hk3 & Hk2 & Hk & Hraw & Hact).
  exists (id_bytes (io_note_id x.2)), x.1.2, x.1.1. unfold out. rewrite Hout. split_and!.
  - rewrite insert_batch_order, Hnone, Hk, <-Hk2. unfold first_row.
    rewrite (filter_all (λ r, status_check r = true)); [by apply head_filter_key|].
    intros r (y & -> & (z & -> & Hz)%list_elem_of_fmap)%list_elem_of_fmap. by eapply prepared_status.
  - unfold has_status. by rewrite Hact.
  - rewrite insert_batch_note, Hn1, Hk, <-Hk3.
    assert (db_notes d !! nr_note_id x.1.1 = None) as ->; [|by apply head_filter_key].
    apply not_elem_of_dom. intros Hd%Hdom%elem_of_dom. rewrite Hk3, <-Hk in Hd. apply Hk1 in Hnone.
    rewrite Hnone in Hd. by destruct Hd.
  - rewrite Hraw. by eapply prepare_note_roundtrip.
Qed.

Lemma forwarded_orders_recoverable_witness :
  let out := ingest_once demo_env sample_db in
  let o := mk_ingest 5 7 8 9 4 (demo_write (mk_demo true 5 7 9 8 4 3)) in
  out_orders out = [o] ∧ ∃ k r note,
    db_orders (out_db out) !! k = Some r ∧ has_status Active r = true ∧
    db_notes (out_db out) !! k = Some note ∧ @ingest_order_of demo_miden r (nr_raw_data note) = Some o.
Proof.
  intros out o. assert (out_orders out = [o]) as Ho by (vm_compute; reflexivity). split; [exact Ho|].
  apply (@forwarded_orders_recoverable demo_miden demo_env (mk_sync (H := demo_miden) 12 demo_notes [1%N]) sample_db).
  - by intros i.
  - intros p. split; apply wrap64_range.
  - reflexivity.
  - exact demo_ids_nodup.
  - apply (bool_decide_unpack (dom (db_notes sample_db) ⊆ dom (db_orders sample_db))). vm_compute. exact I.
  - fold out. rewrite Ho. apply list_elem_of_here.
Defined.

(** The nullifier query is exact: when the node answers, and notes with equal nullifiers
    are the same note, the result is the set of the ids of exactly those notes whose
    nullifier the node reports as committed. *)
Theorem check_consumed_exact `{!Miden} heights (notes : list Note) hs i :
  (∀ a b, a ∈ notes → b ∈ notes → note_nullifier a = note_nullifier b → note_id a = note_id b) →
  heights (list_to_set (note_nullifier <$> notes)) = Some hs →
  ∃ consumed, check_consumed_notes heights notes = Some consumed ∧
    (i ∈ consumed ↔ ∃ note h, note ∈ notes ∧ note_id note = i ∧ hs !! note_nullifier note = Some (Some h)).
Proof.
  intros Hinj Hh. destruct notes as [|n0 ns0].
  { exists ∅. split; [done|]. rewrite elem_of_empty. split; [done|]. by intros (? & ? & ?%not_elem_of_nil & _). }
  unfold check_consumed_notes. rewrite Hh. simpl mbind. eexists. split; [reflexivity|].
  set (notes := n0 :: ns0) in *. rewrite consumed_fold.
  assert (∀ n, foldl (λ m note, <[note_nullifier note := note_id note]> m) (∅ : gmap N OrderId) notes !! n = Some i ↔
    ∃ note, note ∈ notes ∧ note_nullifier note = n ∧ note_id note = i) as Hl.
  { intros n. rewrite nullifier_map_lookup, lookup_empty.
    destruct (last _) as [note|] eqn:Hlast; (split; [intros [= <-]|]).
    - apply last_Some_elem_of, list_elem_of_filter in Hlast as [? ?]. eauto.
    - intros (note' & Hin' & <- & <-). apply last_Some_elem_of, list_elem_of_filter in Hlast as [? ?].
      f_equal. by apply Hinj.
    - apply last_None in Hlast. intros (note' & Hin' & <- & <-). exfalso. apply (not_elem_of_nil note').
      rewrite <-Hlast. by apply list_elem_of_filter. }
  split.
  - intros (n & h & Hn & (note & ? & <- & ?)%Hl). eauto.
  - intros (note & h & Hin & Hi & Hh'). exists (note_nullifier note), h. split; [done|]. apply Hl. eauto.
Qed.

Lemma check_consumed_exact_witness :
  ∃ consumed, check_consumed_notes (H := demo_miden) (λ s, Some (gset_to_gmap (Some 4%N) s)) demo_notes = Some consumed ∧
    (5%N ∈ consumed ↔ ∃ (note : DemoNote) (h : N), note ∈ demo_notes ∧ dn_id note = 5%N ∧
       gset_to_gmap (Some 4%N) (list_to_set (dn_id <$> demo_notes) : gset N) !! dn_id note = Some (Some h)).
Proof.
  apply (@check_consumed_exact demo_miden (λ s, Some (gset_to_gmap (Some 4%N) s)) demo_notes); [done|reflexivity].
Defined.

(** A note that one sync reports both as new and as consumed stays active: the consumed
    ids are handled first, when the note has no row yet, and the note is then stored and
    forwarded as a fresh active order. *)
Theorem consumed_in_same_sync_stays_active :
  let s := mk_sync (H := demo_miden) 12 demo_notes [5%N] in
  let out := ingest_once (mk_env (Some s) true true (λ _, true) (λ _, true) (λ _, 0)) sample_db in
  out_consumed out = [5%N] ∧ io_note_id <$> out_orders out = [5%N] ∧
  or_status <$> (db_orders (out_db out) !! [5%N]) = Some "active"%string.
Proof. vm_compute. done. Qed.
