(* ===== verification/Matcher.v ===== *)
(** * The matcher (crates/solver/src/matcher/matcher.rs)

    The matcher owns the book, the raw bytes and the arrival time of every order.  A tick
    drains the two inbound channels, reactivates overdue parked notes, runs the engine and
    sends a batch to the executor, hands residual notes to the router and publishes the
    top of the book.  What a tick reads from outside (clocks, channels, prices, quotes, the
    outcome of its sends) is a record of inputs; what it sends is a record of outputs. *)

From stdpp Require Import option.
From S2P Require Import Prelude.
From S2P Require Import Orders.
From S2P Require Import PriceFeed.
From S2P Require Import OrderBook.
From S2P Require Import ThreeEdgeCycle.
From S2P Require Import Engine.
From S2P Require Import Select.
From S2P Require Import Types.

(** ** State, inputs, outputs *)

Abbreviation Book := (OrderBook WatchPriceFeed) (only parsing).

(** The locals of [run_matcher]; of the router hooks the state is whether they are still
    in use, and the time-to-live of a handed-over note. *)
Record MatcherState := mk_matcher {
  ms_engine : MatchingEngine WatchPriceFeed;
  ms_raw_notes : gmap OrderId Bytes;
  ms_arrivals : gmap OrderId Z;
  ms_last_now : Z;
  ms_router : option Z;
}.

(** The outcome of [try_send] on the router's channel. *)
Inductive TrySend := Sent | ChannelFull | ChannelClosed.

(** [ti_unix id] is the clock reading taken for an order in this tick; [ti_occasion]
    tells the ticks' iterations of hash containers apart. *)
Record TickInput := mk_tick {
  ti_millis : Z;
  ti_unix : OrderId → Z;
  ti_consumed : list OrderId;
  ti_orders : list IngestOrder;
  ti_prices : gmap TokenId Z;
  ti_exec_open : bool;
  ti_quotes : gmap Pair (list Quote);
  ti_route : TrySend;
  ti_occasion : N;
}.

Record TickOutput := mk_tick_out {
  to_state : MatcherState;
  to_batch : option ExecutionBatch;
  to_routed : list RoutedNote;
  to_snapshot : option (gmap Pair BestLevel);
  to_stopped : bool;
}.

(** ** Inbound events *)

(** The book with the two maps beside it. *)
Record Tracked := mk_tracked { tk_book : Book; tk_raw : gmap OrderId Bytes; tk_arrivals : gmap OrderId Z }.

(** One order from the database at startup: the arrival is overwritten. *)
Definition hydrate_order (unix : OrderId → Z) (t : Tracked) (o : IngestOrder) : Tracked :=
  mk_tracked (add_user_order (tk_book t) (io_note_id o) (io_offered_token o) (io_requested_token o)
                (io_offered_amount o) (io_requested_amount o))
    (<[io_note_id o := io_raw o]> (tk_raw t))
    (<[io_note_id o := unix (io_note_id o)]> (tk_arrivals t)).

(** One consumed note. *)
Definition drop_consumed (t : Tracked) (id : OrderId) : Tracked :=
  mk_tracked (remove_order (tk_book t) id) (delete id (tk_raw t)) (delete id (tk_arrivals t)).

(** One new order: [entry(..).or_insert_with(now_unix)] keeps the first arrival. *)
Definition take_order (unix : OrderId → Z) (t : Tracked) (o : IngestOrder) : Tracked :=
  mk_tracked (add_user_order (tk_book t) (io_note_id o) (io_offered_token o) (io_requested_token o)
                (io_offered_amount o) (io_requested_amount o))
    (<[io_note_id o := io_raw o]> (tk_raw t))
    (match tk_arrivals t !! io_note_id o with
     | Some _ => tk_arrivals t
     | None => <[io_note_id o := unix (io_note_id o)]> (tk_arrivals t)
     end).

Section matcher.
Context `{HI : HashIter} `{CH : CycleHeap}.

(** The state before the first tick; a failed query leaves the book empty. *)
Definition matcher_start (prices : gmap TokenId Z) (triangular : bool) (router : option Z)
    (unix : OrderId → Z) (loaded : option (list IngestOrder)) : MatcherState :=
  let t := foldl (hydrate_order unix) (mk_tracked (book_new (watch_feed_from prices)) ∅ ∅) (default [] loaded) in
  mk_matcher (with_triangular_enabled (engine_new (tk_book t)) triangular)
    (tk_raw t) (tk_arrivals t) 0 router.

(** ** Internal matching *)

(** The note of one filled order; [None] when its bytes are missing. *)
Definition filled_note (unix : OrderId → Z) (t : Tracked) (id : OrderId) : option FilledNote :=
  raw ← tk_raw t !! id;
  Some (mk_filled id
    (match orders (tk_book t) !! id with Some o => requested_filled o | None => 0 end)
    raw
    (default (unix id) (tk_arrivals t !! id))).

(** The book, the batch if one was sent and whether the executor's channel is closed.
    [None] only when the engine's fuel runs out. *)
Definition internal_match (fuel : nat) (i : TickInput) (triangular : bool) (t : Tracked)
    : option (Tracked * option ExecutionBatch * bool) :=
  if decide (orders (tk_book t) = ∅) then Some (t, None, false)
  else
    '(e, batch) ← run fuel (mk_engine (set_feed (tk_book t) (watch_feed_from (ti_prices i))) triangular);
    let t := mk_tracked (book e) (tk_raw t) (tk_arrivals t) in
    if decide (filled_orders batch = ∅) then Some (t, None, false)
    else
      let filled := omap (filled_note (ti_unix i) t) (hash_iter (ti_occasion i) (filled_orders batch)) in
      if ti_exec_open i then
        let t := foldl drop_consumed t (hash_iter (ti_occasion i + 1) (filled_orders batch)) in
        Some (mk_tracked (set_balances (tk_book t) ∅) (tk_raw t) (tk_arrivals t),
              Some (mk_exec_batch filled), false)
      else Some (t, None, true).

(** ** External matching *)

(** The whole notes of every quoted pair. *)
Definition whole_notes (b : Book) (p : Pair) : list Order :=
  filter (λ o, requested_remaining o = requested o) (notes_for_pair b p.1 p.2).

Definition notes_by_pair (b : Book) (n : N) (quotes : gmap Pair (list Quote)) : gmap Pair (list Order) :=
  foldl (λ m p, match whole_notes b p with [] => m | ns => <[p := ns]> m end) ∅ (hash_iter n (dom quotes)).

(** One pick: parked and handed over, or skipped when its bytes are missing. *)
Definition route_pick (raw : gmap OrderId Bytes) (time : Z) (acc : Book * list RoutedNote) (pick : Pick)
    : Book * list RoutedNote :=
  match raw !! pk_note_id pick with
  | None => acc
  | Some bytes =>
    (park acc.1 (pk_note_id pick) (pk_dex pick) time,
     acc.2 ++ [mk_routed (pk_dex pick) (pk_note_id pick) (pk_fill pick) (pk_pair pick) bytes])
  end.

Definition route_external (b : Book) (raw : gmap OrderId Bytes) (n : N) (quotes : gmap Pair (list Quote)) (time : Z)
    : Book * list RoutedNote :=
  if decide (quotes = ∅) then (b, [])
  else
    let notes := notes_by_pair b n quotes in
    if decide (notes = ∅) then (b, [])
    else foldl (route_pick raw time) (b, []) (select_notes (n + 1) notes quotes time).

(** The book, what was delivered and whether the router's channel is closed. *)
Definition external_pass (b : Book) (raw : gmap OrderId Bytes) (i : TickInput) (time : Z)
    : Book * list RoutedNote * bool :=
  let '(b, items) := route_external b raw (ti_occasion i + 2) (ti_quotes i) time in
  match items with
  | [] => (b, [], false)
  | _ =>
    match ti_route i with
    | Sent => (b, items, false)
    | e => (foldl (λ b item, (unpark b (rn_note_id item)).1) b items, [],
            match e with ChannelClosed => true | _ => false end)
    end
  end.

(** ** A tick *)

(** The inbound channels: consumed notes first, then new orders. *)
Definition drain (i : TickInput) (t : Tracked) : Tracked :=
  foldl (take_order (ti_unix i)) (foldl drop_consumed t (ti_consumed i)) (ti_orders i).

Definition tracked_of (s : MatcherState) : Tracked :=
  mk_tracked (book (ms_engine s)) (ms_raw_notes s) (ms_arrivals s).

Definition tick (fuel : nat) (s : MatcherState) (i : TickInput) : option TickOutput :=
  let now := Z.max (ms_last_now s) (ti_millis i) in
  let triangular := triangular_enabled (ms_engine s) in
  let t := drain i (tracked_of s) in
  let t := match ms_router s with
           | Some ttl => mk_tracked (reactivate_parked_older_than (tk_book t) ttl now).1 (tk_raw t) (tk_arrivals t)
           | None => t
           end in
  match internal_match fuel i triangular t with
  | None => None
  | Some (t, batch, stopped) =>
    let state b router := mk_matcher (mk_engine b triangular) (tk_raw t) (tk_arrivals t) now router in
    if stopped then Some (mk_tick_out (state (tk_book t) (ms_router s)) None [] None true)
    else
      let '(b, routed, closed) :=
        match ms_router s with
        | Some _ => external_pass (tk_book t) (tk_raw t) i now
        | None => (tk_book t, [], false)
        end in
      Some (mk_tick_out (state b (if closed then None else ms_router s))
              batch routed (Some (snapshot_best_levels b)) false)
  end.
End matcher.
