(* ===== verification/MatcherProofs.v ===== *)
(** * The invariant of the matcher

    [tracked_inv] holds between ticks: the book is consistent, every order in it is whole,
    its bytes and arrival are known, and the expiry queue is in time order.  Each stage of
    a tick keeps it; the lemmas also say what the stage does to the orders. *)

From stdpp Require Import option.
From S2P Require Import Prelude.
From S2P Require Import Orders.
From S2P Require Import RateIndex.
From S2P Require Import PriceFeed.
From S2P Require Import OrderBook.
From S2P Require Import IndexInvariant.
From S2P Require Import BookInvariant.
From S2P Require Import BookOps.
From S2P Require Import BookQueries.
From S2P Require Import Fills.
From S2P Require Import ThreeEdgeCycle.
From S2P Require Import DirectMatching.
From S2P Require Import CycleProofs.
From S2P Require Import Engine.
From S2P Require Import BookTheorems.
From S2P Require Import Select.
From S2P Require Import Types.
From S2P Require Import Matcher.

(** ** What the operations of the book leave alone *)

Section fields.
Context {F : Type}.
Implicit Types b : OrderBook F.

Lemma remove_order_fields b id :
  let b' := remove_order b id in
  orders b' = delete id (orders b) ∧ park_queue b' = park_queue b ∧ protocol_balances b' = protocol_balances b.
Proof.
  unfold remove_order. destruct (orders b !! id) as [o|] eqn:Ho; [|by rewrite delete_id].
  cbn [parked set_orders]. destruct (parked b !! id); [done|].
  destruct (is_active o); set (b1 := set_orders b _).
  - destruct (remove_from_index_fields (count_dec b1 (pair_of o)) (pair_of o) (rate_key o) id)
      as (E1 & E2 & E3 & E4 & _). by rewrite E1, E3, E4.
  - destruct (remove_from_index_fields b1 (pair_of o) (rate_key o) id) as (E1 & E2 & E3 & E4 & _).
    by rewrite E1, E3, E4.
Qed.

Lemma remove_order_parked b l id :
  book_inv b l → parked (remove_order b id) = delete id (parked b).
Proof.
  intros Hb. unfold remove_order. destruct (orders b !! id) as [o|] eqn:Ho.
  - cbn [parked set_orders]. destruct (parked b !! id) eqn:Hp; [done|].
    destruct (is_active o); set (b1 := set_orders b _).
    + destruct (remove_from_index_fields (count_dec b1 (pair_of o)) (pair_of o) (rate_key o) id) as (_ & -> & _).
      by rewrite delete_id.
    + destruct (remove_from_index_fields b1 (pair_of o) (rate_key o) id) as (_ & -> & _). by rewrite delete_id.
  - rewrite delete_id; [done|]. destruct (parked b !! id) as [[dex t]|] eqn:Hp; [|done].
    apply (bi_parked _ _ _ Hb) in Hp as [(o & ? & _)%id_active_iff _]. congruence.
Qed.

Lemma add_user_order_fields b id ot rt off req :
  let b' := add_user_order b id ot rt off req in
  orders b' = (if bool_decide (is_Some (orders b !! id)) && negb (bool_decide (is_Some (parked b !! id)))
               then orders b else <[id := mk_order id ot rt off req req]> (orders b)) ∧
  park_queue b' = park_queue b ∧ protocol_balances b' = protocol_balances b.
Proof. unfold add_user_order. by destruct (_ && _). Qed.

Lemma unpark_fields b id :
  let b' := (unpark b id).1 in
  orders b' = orders b ∧ park_queue b' = park_queue b ∧ protocol_balances b' = protocol_balances b ∧
  parked b' = delete id (parked b).
Proof.
  pose proof (unpark_parked b (park_queue b) id) as Hp. rewrite set_queue_same in Hp.
  unfold unpark in *. destruct (parked b !! id) as [[dex t]|]; [|done]. simpl in *.
  unfold reindex in *. simpl in *. destruct (orders b !! id) as [o|]; [|done]. by destruct (negb (is_active o)).
Qed.

(** Parking a visible order. *)
Lemma park_fields b id dex time o :
  visible b id o →
  let b' := park b id dex time in
  orders b' = orders b ∧ park_queue b' = park_queue b ++ [(time, id)] ∧
  protocol_balances b' = protocol_balances b ∧ parked b' = <[id := (dex, time)]> (parked b).
Proof.
  intros (Ho & Hp & Ha). unfold park. rewrite bool_decide_eq_false_2, Ho, Ha by (by rewrite Hp; apply is_Some_None).
  simpl. destruct (remove_from_index_fields (count_dec b (pair_of o)) (pair_of o) (rate_key o) id)
    as (E1 & E2 & E3 & E4 & _). by rewrite E1, E2, E3, E4.
Qed.

(** Reactivation releases parked notes and pops a prefix of the queue. *)
Lemma reactivate_loop_fields ttl time queue b :
  let b' := (reactivate_loop queue ttl time b).1 in
  orders b' = orders b ∧ protocol_balances b' = protocol_balances b ∧ parked b' ⊆ parked b ∧
  ∃ popped, queue = popped ++ park_queue b'.
Proof.
  revert b. induction queue as [|[at_ id] rest IH]; intros b; simpl; [split_and!; [done..|by exists []]|].
  destruct (time <? sat_add64 at_ ttl); [split_and!; [done..|by exists []]|].
  destruct (unpark_fields (set_queue b rest) id) as (H1 & H2 & H3 & H4).
  destruct (unpark (set_queue b rest) id) as [b1 out]. simpl in *. destruct (IH b1) as (G1 & G3 & G4 & popped & Hq).
  destruct (reactivate_loop rest ttl time b1) as [b2 outs]. simpl in *.
  split_and!; [congruence..| |exists ((at_, id) :: popped); simpl; congruence].
  etrans; [exact G4|]. rewrite H4. apply delete_subseteq.
Qed.
End fields.

(** ** The invariant *)

Definition queue_sorted (q : list (Z * OrderId)) : Prop := StronglySorted (λ x y, x.1 <= y.1) q.

Record tracked_inv (triangular : bool) (t : Tracked) (time : Z) : Prop := {
  tv_book : ∃ l, book_inv (tk_book t) l;
  tv_whole : untouched (orders (tk_book t));
  tv_raw : dom (tk_raw t) = dom (orders (tk_book t));
  tv_arrivals : dom (tk_arrivals t) = dom (orders (tk_book t));
  tv_sorted : queue_sorted (park_queue (tk_book t));
  tv_times : Forall (λ x, x.1 <= time) (park_queue (tk_book t));
  tv_balances : triangular = false → ∀ tok, balance (tk_book t) tok = 0;
}.

(** Amounts of the orders the matcher receives. *)
Definition ingest_ok (o : IngestOrder) : Prop :=
  0 < io_offered_amount o < two64 ∧ 0 < io_requested_amount o < two64.

Lemma tracked_inv_later tri t time time' : time <= time' → tracked_inv tri t time → tracked_inv tri t time'.
Proof.
  intros Hle [? ? ? ? ? Ht ?]. split; try done. eapply Forall_impl; [exact Ht|]. intros x ?. simpl in *. lia.
Qed.

(** The invariant from its parts, for a book whose orders changed and whose queue did not. *)
Lemma tracked_inv_orders tri t t' time :
  tracked_inv tri t time → (∃ l, book_inv (tk_book t') l) → untouched (orders (tk_book t')) →
  dom (tk_raw t') = dom (orders (tk_book t')) → dom (tk_arrivals t') = dom (orders (tk_book t')) →
  park_queue (tk_book t') = park_queue (tk_book t) →
  protocol_balances (tk_book t') = protocol_balances (tk_book t) → tracked_inv tri t' time.
Proof.
  intros [_ _ _ _ Hs Ht Hb] ? ? ? ? Hq Hbal. split; try done; rewrite ?Hq; try done.
  intros Htri tok. unfold balance. rewrite Hbal. by apply Hb.
Qed.

Lemma untouched_delete m (id : OrderId) : untouched m → untouched (delete id m).
Proof. intros Hu id' o [_ Ho]%lookup_delete_Some. by eapply Hu. Qed.

(** ** Inbound events *)

Lemma drop_consumed_inv tri t time id : tracked_inv tri t time → tracked_inv tri (drop_consumed t id) time.
Proof.
  intros Hi. destruct (remove_order_fields (tk_book t) id) as (E1 & E2 & E3).
  apply (tracked_inv_orders tri t); simpl; try done.
  - destruct (tv_book _ _ _ Hi) as [l Hb]. eexists. by apply remove_order_inv.
  - rewrite E1. apply untouched_delete, Hi.
  - rewrite E1, !dom_delete_L. by rewrite (tv_raw _ _ _ Hi).
  - rewrite E1, !dom_delete_L. by rewrite (tv_arrivals _ _ _ Hi).
Qed.

Lemma drop_all_inv tri t time ids : tracked_inv tri t time → tracked_inv tri (foldl drop_consumed t ids) time.
Proof. revert t. induction ids as [|id ids IH]; intros t Ht; simpl; [done|]. by apply IH, drop_consumed_inv. Qed.

(** What dropping leaves: the orders, bytes and arrivals of the other ids. *)
Lemma drop_all_orders t ids id :
  orders (tk_book (foldl drop_consumed t ids)) !! id =
    (if decide (id ∈ ids) then None else orders (tk_book t) !! id).
Proof.
  revert t. induction ids as [|i ids IH]; intros t; cbn [foldl]; [done|].
  rewrite IH. simpl. destruct (remove_order_fields (tk_book t) i) as (-> & _).
  destruct (decide (id = i)) as [->|Hne].
  - rewrite lookup_delete_eq. rewrite (decide_True (P := i ∈ i :: ids)) by (by left). by case_decide.
  - rewrite lookup_delete_ne by done. repeat case_decide; set_solver.
Qed.

Lemma drop_all_book t ids :
  let t' := foldl drop_consumed t ids in
  park_queue (tk_book t') = park_queue (tk_book t) ∧ protocol_balances (tk_book t') = protocol_balances (tk_book t).
Proof.
  revert t. induction ids as [|i ids IH]; intros t; cbn [foldl]; [done|].
  destruct (IH (drop_consumed t i)) as [-> ->]. simpl. by destruct (remove_order_fields (tk_book t) i) as (_ & ? & ?).
Qed.

(** Adding one order, at startup or in a tick. *)
Lemma add_order_inv tri t time o arrivals :
  tracked_inv tri t time → ingest_ok o → Z.of_nat (S (size (orders (tk_book t)))) < two32 →
  dom arrivals = {[io_note_id o]} ∪ dom (tk_arrivals t) →
  let t' := mk_tracked (add_user_order (tk_book t) (io_note_id o) (io_offered_token o) (io_requested_token o)
      (io_offered_amount o) (io_requested_amount o)) (<[io_note_id o := io_raw o]> (tk_raw t)) arrivals in
  tracked_inv tri t' time ∧ (size (orders (tk_book t')) <= S (size (orders (tk_book t))))%nat.
Proof.
  intros Hi [Ho Hr] Hsz Harr t'.
  destruct (add_user_order_fields (tk_book t) (io_note_id o) (io_offered_token o) (io_requested_token o)
    (io_offered_amount o) (io_requested_amount o)) as (E1 & E2 & E3).
  assert (dom (orders (tk_book t')) = {[io_note_id o]} ∪ dom (orders (tk_book t)) ∧ untouched (orders (tk_book t')))
    as [Hdom Hu].
  { unfold t'. cbn [tk_book]. rewrite E1. case_match eqn:Hc.
    - apply andb_true_iff in Hc as [Hk%bool_decide_eq_true _]. split; [|apply Hi].
      apply elem_of_dom in Hk. set_solver.
    - split; [by rewrite dom_insert_L|]. intros id o' [[<- <-]|[_ ?]]%lookup_insert_Some; [done|by eapply Hi]. }
  split.
  - apply (tracked_inv_orders tri t); try done.
    + destruct (tv_book _ _ _ Hi) as [l Hb]. eexists. by apply add_user_order_inv.
    + rewrite Hdom. simpl. rewrite dom_insert_L. by rewrite (tv_raw _ _ _ Hi).
    + rewrite Hdom. simpl. rewrite Harr. by rewrite (tv_arrivals _ _ _ Hi).
  - rewrite <-!size_dom, Hdom, size_union_alt, size_singleton. apply le_n_S, subseteq_size. set_solver.
Qed.

(** The bound on the orders a tick may bring: the counters of the book are 32-bit. *)
Definition room (t : Tracked) (os : list IngestOrder) : Prop :=
  Z.of_nat (size (orders (tk_book t)) + length os) < two32.

Lemma take_all_inv tri unix t time os :
  tracked_inv tri t time → Forall ingest_ok os → room t os →
  tracked_inv tri (foldl (take_order unix) t os) time.
Proof.
  unfold room. revert t. induction os as [|o os IH]; intros t Ht Hos Hroom; simpl in *; [done|].
  apply Forall_cons in Hos as [Ho Hos].
  destruct (add_order_inv tri t time o (tk_arrivals (take_order unix t o)) Ht Ho ltac:(lia)) as [Hi Hsz].
  { simpl. destruct (tk_arrivals t !! io_note_id o) eqn:Ha; [|by rewrite dom_insert_L].
    assert (io_note_id o ∈ dom (tk_arrivals t)) by (by eapply elem_of_dom_2). set_solver. }
  apply IH; [done..|]. unfold take_order. simpl in Hsz |- *. lia.
Qed.

Lemma hydrate_all_inv tri unix t time os :
  tracked_inv tri t time → Forall ingest_ok os → room t os →
  tracked_inv tri (foldl (hydrate_order unix) t os) time.
Proof.
  unfold room. revert t. induction os as [|o os IH]; intros t Ht Hos Hroom; simpl in *; [done|].
  apply Forall_cons in Hos as [Ho Hos].
  destruct (add_order_inv tri t time o (tk_arrivals (hydrate_order unix t o)) Ht Ho ltac:(lia)) as [Hi Hsz].
  { simpl. by rewrite dom_insert_L. }
  apply IH; [done..|]. unfold hydrate_order. simpl in Hsz |- *. lia.
Qed.

Lemma tracked_start tri prices time :
  tracked_inv tri (mk_tracked (book_new (watch_feed_from prices)) ∅ ∅) time.
Proof. split; simpl; try done; [eexists; apply book_new_inv|constructor]. Qed.

Lemma drop_all_size t ids :
  (size (orders (tk_book (foldl drop_consumed t ids))) <= size (orders (tk_book t)))%nat.
Proof.
  rewrite <-!size_dom. apply subseteq_size. intros id. rewrite !elem_of_dom, drop_all_orders.
  case_decide; [by intros [? ?]|done].
Qed.

Lemma drain_inv tri i t time :
  tracked_inv tri t time → Forall ingest_ok (ti_orders i) → room t (ti_orders i) →
  tracked_inv tri (drain i t) time.
Proof.
  intros Ht Hos Hroom. unfold drain. apply take_all_inv; [by apply drop_all_inv|done|].
  unfold room in *. pose proof (drop_all_size t (ti_consumed i)). lia.
Qed.

(** ** Reactivation *)

Lemma reactivate_inv tri t time ttl :
  tracked_inv tri t time →
  let t' := mk_tracked (reactivate_parked_older_than (tk_book t) ttl time).1 (tk_raw t) (tk_arrivals t) in
  tracked_inv tri t' time ∧ orders (tk_book t') = orders (tk_book t) ∧
  ∀ id dex at_, parked (tk_book t') !! id = Some (dex, at_) → time < sat_add64 at_ ttl.
Proof.
  intros [[l Hb] Hu Hraw Harr Hs Ht Hbal]. unfold reactivate_parked_older_than. cbn [tk_book].
  destruct (reactivate_loop_fields ttl time (park_queue (tk_book t)) (tk_book t)) as (E1 & E2 & _ & popped & Hq).
  pose proof (reactivate_loop_inv ttl time _ (tk_book t) l Hb eq_refl) as Hinv.
  pose proof (reactivate_loop_left ttl time _ (tk_book t) l Hb eq_refl Hs) as Hleft.
  destruct (reactivate_loop _ _ _ _) as [b' out]. cbn [fst] in *. split_and!; [|done|exact Hleft].
  split; simpl; rewrite ?E1; try done.
  - by eexists.
  - unfold queue_sorted in *. rewrite Hq in Hs. by apply StronglySorted_app_1_r in Hs.
  - rewrite Hq in Ht. by apply Forall_app in Ht as [_ ?].
  - intros Htri tok. unfold balance. rewrite E2. by apply Hbal.
Qed.

(** ** Internal matching *)

(** What the notes of a batch release of a token, less what they are paid in it, when each
    is filled by the amount of the batch from the start. *)
Definition batch_flow (m : gmap OrderId Order) (notes : list FilledNote) (tok : TokenId) : Z :=
  foldr (λ f acc,
    from_option (λ o, contribution tok (set_remaining o (requested o - fn_requested_filled f))) 0
      (m !! fn_note_id f) + acc) 0 notes.

(** The notes of a batch: distinct visible orders, filled within their terms, with the
    bytes and arrivals the matcher stored. *)
Record batch_ok (t : Tracked) (notes : list FilledNote) : Prop := {
  bo_nonempty : notes ≠ [];
  bo_nodup : NoDup (fn_note_id <$> notes);
  bo_notes : ∀ f, f ∈ notes → ∃ o, visible (tk_book t) (fn_note_id f) o ∧
    0 < fn_requested_filled f <= requested o ∧
    tk_raw t !! fn_note_id f = Some (fn_raw f) ∧ tk_arrivals t !! fn_note_id f = Some (fn_arrival f);
}.

Lemma drop_all_book_inv t ids l :
  book_inv (tk_book t) l →
  (∃ l', book_inv (tk_book (foldl drop_consumed t ids)) l') ∧
  ∀ id, parked (tk_book (foldl drop_consumed t ids)) !! id =
    (if decide (id ∈ ids) then None else parked (tk_book t) !! id).
Proof.
  revert t l. induction ids as [|i ids IH]; intros t l Hb; cbn [foldl]; [by split; [eexists|]|].
  destruct (IH (drop_consumed t i) _ (remove_order_inv _ _ i Hb)) as [Hb' Hp]. split; [done|].
  intros id. rewrite Hp. simpl. rewrite (remove_order_parked _ l) by done.
  destruct (decide (id = i)) as [->|Hne].
  - rewrite lookup_delete_eq. rewrite (decide_True (P := i ∈ i :: ids)) by (by left). by case_decide.
  - rewrite lookup_delete_ne by done. repeat case_decide; set_solver.
Qed.

Lemma drop_all_dom t ids :
  dom (tk_raw (foldl drop_consumed t ids)) = dom (tk_raw t) ∖ list_to_set ids ∧
  dom (tk_arrivals (foldl drop_consumed t ids)) = dom (tk_arrivals t) ∖ list_to_set ids.
Proof.
  revert t. induction ids as [|i ids IH]; intros t; cbn [foldl list_to_set]; [set_solver|].
  destruct (IH (drop_consumed t i)) as [-> ->]. simpl. rewrite !dom_delete_L. set_solver.
Qed.

Lemma drop_all_raw t ids : tk_raw (foldl drop_consumed t ids) ⊆ tk_raw t.
Proof.
  revert t. induction ids as [|i ids IH]; intros t; cbn [foldl]; [done|].
  etrans; [apply IH|]. apply delete_subseteq.
Qed.

(** The notes of the filled ids, when all bytes are known. *)
Lemma filled_notes_ids unix t (ids : list OrderId) :
  (∀ id, id ∈ ids → is_Some (tk_raw t !! id)) →
  fn_note_id <$> omap (filled_note unix t) ids = ids.
Proof.
  induction ids as [|id ids IH]; intros Hraw; [done|]. simpl. unfold filled_note at 1.
  destruct (Hraw id) as [raw ->]; [by left|]. simpl. f_equal. apply IH. intros; apply Hraw. by right.
Qed.

Section internal.
Context `{HI : HashIter} `{CH : CycleHeap}.

(** An order the engine changed was whole and visible, and is now filled by a positive
    amount within its terms. *)
Lemma engine_changed (b : Book) l e' filled id :
  book_inv b l → untouched (orders b) → progress l (b, ∅) (e', filled) → id ∈ filled →
  ∃ o v, visible b id o ∧ orders e' !! id = Some (set_remaining o (requested o - v)) ∧ 0 < v <= requested o.
Proof.
  intros Hb Hu [_ Hf Hfilled _ _ _ Hlive] Hid. simpl in *.
  apply Hfilled in Hid as [?%not_elem_of_empty|Hne]; [done|].
  pose proof (Hlive id Hne) as Hl. apply (inv_live_iff b l id Hb) in Hl as (o & Ho & Hp & Ha).
  destruct (fills_to_lookup _ _ _ _ Hf Ho) as (o' & Ho' & r & -> & Hr). specialize (Hu id o Ho).
  exists o, (requested o - r). rewrite Ho'. split_and!; [done| | |lia].
  - do 2 f_equal. lia.
  - assert (r ≠ requested_remaining o); [|lia]. intros ->. apply Hne. rewrite Ho', Ho. f_equal. by destruct o.
Qed.

(** The flow of the engine's orders is the flow of the batch. *)
Lemma batch_flow_engine (b : Book) l e' filled unix raw arrivals tok n :
  book_inv b l → untouched (orders b) → progress l (b, ∅) (e', filled) →
  (∀ id, id ∈ filled → is_Some (raw !! id)) →
  batch_flow (orders b) (omap (filled_note unix (mk_tracked e' raw arrivals)) (hash_iter n filled)) tok =
  flow (orders e') tok.
Proof.
  intros Hb Hu Hp Hraw. unfold flow. rewrite (msum_support _ _ (hash_iter n filled)).
  - assert (∀ id, id ∈ hash_iter n filled → id ∈ filled) as Hin
      by (intros id; by rewrite hash_iter_perm, elem_of_elements).
    induction (hash_iter n filled) as [|id ids IH]; simpl; [done|].
    assert (id ∈ filled) as Hid by (apply Hin; by left).
    unfold filled_note at 1. simpl. destruct (Hraw id Hid) as [r ->]. simpl.
    destruct (engine_changed b l e' filled id Hb Hu Hp Hid) as (o & v & (Ho & _) & Ho' & Hv).
    rewrite Ho', Ho. simpl. f_equal; [|apply IH; intros; apply Hin; by right].
    do 2 f_equal. unfold requested_filled. simpl. lia.
  - rewrite hash_iter_perm. apply NoDup_elements.
  - intros id o Ho Hnot. rewrite hash_iter_perm, elem_of_elements in Hnot.
    destruct Hp as [Hinv _ Hfilled _ _ _ _]. simpl in *. apply contribution_untouched; [by eapply orders_wf|].
    destruct (decide (orders e' !! id = orders b !! id)) as [He|Hne].
    + apply (Hu id). congruence.
    + exfalso. apply Hnot, Hfilled. by right.
Qed.

Lemma engine_no_fill (b : Book) l e' :
  progress l (b, ∅) (e', ∅) → orders e' = orders b.
Proof.
  intros [_ _ Hfilled _ _ _ _]. simpl in *. apply map_eq. intros id.
  destruct (decide (orders e' !! id = orders b !! id)); [done|]. exfalso.
  apply (not_elem_of_empty (C := gset OrderId) id), Hfilled. by right.
Qed.

(** The state after a batch has been sent: its orders are gone, the others are as before. *)
Lemma sent_inv tri t time l e' filled n :
  tracked_inv tri t time → book_inv (tk_book t) l → progress l (tk_book t, ∅) (e', filled) →
  let t2 := foldl drop_consumed (mk_tracked e' (tk_raw t) (tk_arrivals t)) (hash_iter n filled) in
  let t' := mk_tracked (set_balances (tk_book t2) ∅) (tk_raw t2) (tk_arrivals t2) in
  tracked_inv tri t' time ∧ parked (tk_book t') = parked (tk_book t) ∧
  ∀ id, orders (tk_book t') !! id = (if decide (id ∈ filled) then None else orders (tk_book t) !! id).
Proof.
  intros Hi Hb Hp t2 t'. pose proof Hp as [Hinv Hf Hfilled Hpark Hqueue _ Hlive]. simpl in *.
  assert (∀ id, id ∈ hash_iter n filled ↔ id ∈ filled) as Hin
    by (intros id; by rewrite hash_iter_perm, elem_of_elements).
  destruct (drop_all_book_inv (mk_tracked e' (tk_raw t) (tk_arrivals t)) (hash_iter n filled) _ Hinv) as [[l' Hb'] Hp'].
  destruct (drop_all_book (mk_tracked e' (tk_raw t) (tk_arrivals t)) (hash_iter n filled)) as [Hq' _].
  destruct (drop_all_dom (mk_tracked e' (tk_raw t) (tk_arrivals t)) (hash_iter n filled)) as [Hr' Ha'].
  assert (∀ id, orders (tk_book t2) !! id = (if decide (id ∈ filled) then None else orders (tk_book t) !! id)) as Ho'.
  { intros id. unfold t2. rewrite drop_all_orders. simpl. repeat case_decide; try done; try (by rewrite Hin in *).
    destruct (decide (orders e' !! id = orders (tk_book t) !! id)); [done|]. exfalso. set_solver. }
  assert (dom (orders (tk_book t2)) = dom (orders (tk_book t)) ∖ list_to_set (hash_iter n filled)) as Hdom.
  { apply set_eq. intros id. rewrite elem_of_difference, !elem_of_dom, elem_of_list_to_set, Hin, Ho'.
    case_decide; [|tauto]. split; [by intros [? ?]|tauto]. }
  fold t2 in Hb', Hp', Hq', Hr', Ha'. split_and!; [split; simpl|simpl|done].
  - eexists. by apply clear_balances_inv.
  - intros id o. rewrite Ho'. case_decide; [done|]. apply Hi.
  - rewrite Hr', Hdom. simpl. by rewrite (tv_raw _ _ _ Hi).
  - rewrite Ha', Hdom. simpl. by rewrite (tv_arrivals _ _ _ Hi).
  - rewrite Hq'. simpl. rewrite Hqueue. apply Hi.
  - rewrite Hq'. simpl. rewrite Hqueue. apply Hi.
  - done.
  - apply map_eq. intros id. rewrite Hp'. cbn [tk_book]. rewrite Hpark.
    case_decide as Hid; [|done]. apply Hin in Hid.
    destruct (engine_changed (tk_book t) l e' filled id Hb (tv_whole _ _ _ Hi) Hp Hid) as (o & v & (_ & -> & _) & _).
    done.
Qed.

(** The state after a run that filled nothing. *)
Lemma idle_inv tri t time l e' :
  tracked_inv tri t time → book_inv (tk_book t) l → progress l (tk_book t, ∅) (e', ∅) →
  (tri = false → covered (tk_book t) e') →
  tracked_inv tri (mk_tracked e' (tk_raw t) (tk_arrivals t)) time.
Proof.
  intros Hi Hb Hp Hc. pose proof (engine_no_fill _ _ _ Hp) as He. destruct Hp as [Hinv _ _ Hpark Hqueue _ _]. simpl in *.
  split; simpl; rewrite ?He, ?Hqueue; try apply Hi; [by eexists|].
  intros Htri tok. specialize (Hc Htri tok). rewrite He, (tv_balances _ _ _ Hi Htri tok) in Hc.
  pose proof (balance_nonneg _ _ _ tok Hinv). lia.
Qed.

(** A batch as the engine's orders determine it. *)
Lemma sent_batch_ok tri t time l e' filled unix n :
  tracked_inv tri t time → book_inv (tk_book t) l → progress l (tk_book t, ∅) (e', filled) → filled ≠ ∅ →
  let notes := omap (filled_note unix (mk_tracked e' (tk_raw t) (tk_arrivals t))) (hash_iter n filled) in
  batch_ok t notes ∧ ∀ id, id ∈ fn_note_id <$> notes ↔ id ∈ filled.
Proof.
  intros Hi Hb Hp Hne notes.
  assert (∀ id, id ∈ hash_iter n filled ↔ id ∈ filled) as Hin
    by (intros id; by rewrite hash_iter_perm, elem_of_elements).
  assert (∀ id, id ∈ filled → is_Some (tk_raw t !! id) ∧ is_Some (tk_arrivals t !! id)) as Hknown.
  { intros id Hid. rewrite <-!elem_of_dom, (tv_raw _ _ _ Hi), (tv_arrivals _ _ _ Hi), elem_of_dom.
    destruct (engine_changed (tk_book t) l e' filled id Hb (tv_whole _ _ _ Hi) Hp Hid) as (o & v & (-> & _) & _). done. }
  assert (fn_note_id <$> notes = hash_iter n filled) as Hids
    by (apply filled_notes_ids; intros id Hid%Hin; by apply Hknown).
  split; [split|intros id; rewrite Hids; apply Hin].
  - intros Hnil. apply Hne. apply set_eq. intros id. rewrite <-Hin, <-Hids, Hnil. set_solver.
  - rewrite Hids, hash_iter_perm. apply NoDup_elements.
  - intros f (id & Hid & Hf)%list_elem_of_omap. apply Hin in Hid.
    destruct (engine_changed (tk_book t) l e' filled id Hb (tv_whole _ _ _ Hi) Hp Hid) as (o & v & Hv & Ho' & Hr).
    destruct (Hknown id Hid) as [[raw Hraw] [a Ha]]. unfold filled_note in Hf. simpl in Hf.
    rewrite Hraw, Ho', Ha in Hf. simpl in Hf. injection Hf as <-. exists o. simpl.
    split_and!; [done| | |done|done]; unfold requested_filled; simpl; lia.
Qed.

(** ** The internal pass *)

Lemma internal_match_ok tri i t time :
  tracked_inv tri t time →
  ∃ n, ∀ fuel, (n <= fuel)%nat → ∃ t' batch stopped,
    internal_match fuel i tri t = Some (t', batch, stopped) ∧
    (stopped = true → ti_exec_open i = false ∧ batch = None) ∧
    (stopped = false → tracked_inv tri t' time ∧ parked (tk_book t') = parked (tk_book t) ∧ tk_raw t' ⊆ tk_raw t ∧
      match batch with
      | None => orders (tk_book t') = orders (tk_book t)
      | Some eb => batch_ok t (filled_notes eb) ∧
          (∀ id, orders (tk_book t') !! id =
            (if decide (id ∈ fn_note_id <$> filled_notes eb) then None else orders (tk_book t) !! id)) ∧
          (tri = false → ∀ tok, 0 <= batch_flow (orders (tk_book t)) (filled_notes eb) tok)
      end).
Proof.
  intros Hi. unfold internal_match. case_decide as He; [exists 0%nat; intros; by eexists t, None, false|].
  destruct (tv_book _ _ _ Hi) as [l Hb]. set (t0 := mk_tracked (set_feed (tk_book t) (watch_feed_from (ti_prices i))) (tk_raw t) (tk_arrivals t)).
  assert (tracked_inv tri t0 time) as Hi0 by (destruct Hi; split; try done; simpl; eexists; by apply set_feed_inv).
  assert (book_inv (tk_book t0) l) as Hb0 by (by apply set_feed_inv).
  destruct (run_ok (mk_engine (tk_book t0) tri) l Hb0) as [n Hrun]. exists n. intros fuel Hfuel.
  destruct (Hrun fuel Hfuel) as (e' & batch & Er & _ & _ & Hp & Hcov). simpl in Hp, Hcov.
  change (set_feed (tk_book t) _) with (tk_book t0). rewrite Er. simpl.
  destruct (decide (filled_orders batch = ∅)) as [Hnil|Hne].
  { rewrite Hnil in Hp. eexists _, None, false. split_and!; [done..|]. intros _. split_and!.
    - apply (idle_inv tri t0 time l (book e') Hi0 Hb0 Hp). intros. by apply Hcov.
    - apply (pr_parked _ _ _ Hp).
    - done.
    - apply (engine_no_fill _ _ _ Hp). }
  destruct (ti_exec_open i) eqn:Hopen; [|eexists _, None, true; by split_and!].
  destruct (sent_inv tri t0 time l (book e') (filled_orders batch) (ti_occasion i + 1) Hi0 Hb0 Hp) as (H1 & H2 & H3).
  destruct (sent_batch_ok tri t0 time l (book e') (filled_orders batch) (ti_unix i) (ti_occasion i) Hi0 Hb0 Hp Hne)
    as [Hok Hids].
  eexists _, (Some _), false. split_and!; [done|done|]. intros _. split_and!; [exact H1|exact H2|exact (drop_all_raw (mk_tracked (book e') (tk_raw t) (tk_arrivals t)) _)|..].
  - by destruct Hok.
  - intros id. rewrite H3. simpl. by rewrite (decide_ext _ _ _ _ (Hids id)).
  - intros Htri tok. cbn [filled_notes].
    assert (∀ id, id ∈ filled_orders batch → is_Some (tk_raw t !! id)) as Hraw.
    { intros id (f & -> & Hf)%Hids%list_elem_of_fmap. destruct (bo_notes _ _ Hok f Hf) as (o & _ & _ & ? & _). by eexists. }
    pose proof (batch_flow_engine (tk_book t0) l (book e') (filled_orders batch) (ti_unix i) (tk_raw t) (tk_arrivals t) tok
      (ti_occasion i) Hb0 (tv_whole _ _ _ Hi0) Hp Hraw) as Hflow.
    destruct (Hcov Htri) as [Hc _]. specialize (Hc tok). simpl in Hc.
    pose proof (flow_untouched (tk_book t0) l ∅ tok Hb0 (tv_whole _ _ _ Hi0)) as Hz.
    pose proof (tv_balances _ _ _ Hi0 Htri tok) as Hbal.
    pose proof (balance_nonneg _ _ _ tok (pr_inv _ _ _ Hp)) as Hpos. simpl in *. rewrite Hflow. lia.
Qed.
End internal.

Section mono.
Context `{HI : HashIter} `{CH : CycleHeap}.

Lemma internal_match_mono fuel fuel' i tri t r :
  (fuel <= fuel')%nat → internal_match fuel i tri t = Some r → internal_match fuel' i tri t = Some r.
Proof.
  intros Hle. unfold internal_match. case_decide; [done|].
  destruct (run fuel _) as [[e batch]|] eqn:Er; [|done]. by rewrite (run_mono _ _ _ _ Hle Er).
Qed.

Lemma tick_mono fuel fuel' s i out :
  (fuel <= fuel')%nat → tick fuel s i = Some out → tick fuel' s i = Some out.
Proof.
  intros Hle. unfold tick. destruct (internal_match fuel _ _ _) as [r|] eqn:E; [|done].
  by rewrite (internal_match_mono _ _ _ _ _ _ Hle E).
Qed.
End mono.

(** ** External matching *)

Lemma orders_of_lookup {F} (b : OrderBook F) l p o :
  book_inv b l → o ∈ orders_of b (ranked b l p) → visible b (oid o) o ∧ pair_of o = p.
Proof.
  intros Hb (id & Hid & Ho)%list_elem_of_omap.
  apply (elem_of_ranked b l p id Hb) in Hid as (o' & Hv & Hp). pose proof Hv as (Ho' & _).
  assert (o' = o) as -> by congruence. destruct (bi_orders _ _ _ Hb id o Ho) as [-> _]. done.
Qed.

Lemma orders_of_oids {F} (b : OrderBook F) l ids :
  book_inv b l → oid <$> orders_of b ids `sublist_of` ids.
Proof.
  intros Hb. unfold orders_of. induction ids as [|id ids IH]; simpl; [done|].
  destruct (orders b !! id) as [o|] eqn:Ho; simpl; [|by apply sublist_cons].
  destruct (bi_orders _ _ _ Hb id o Ho) as [-> _]. by apply sublist_skip.
Qed.

Lemma NoDup_ranked {F} (b : OrderBook F) l p : book_inv b l → NoDup (ranked b l p).
Proof.
  intros Hb. unfold ranked. rewrite rate_sort_perm. apply NoDup_pair_ids, (bi_index _ _ _ Hb).
Qed.

Lemma elem_of_whole_notes b l p o :
  book_inv b l → o ∈ whole_notes b p → visible b (oid o) o ∧ pair_of o = p.
Proof.
  intros Hb [_ Ho]%list_elem_of_filter. destruct p as [x y]. simpl in Ho.
  rewrite (notes_for_pair_eq b l) in Ho by done. by apply orders_of_lookup in Ho.
Qed.

Section external.
Context `{HI : HashIter}.
Implicit Types b : Book.

Lemma notes_by_pair_lookup b n quotes p ns :
  notes_by_pair b n quotes !! p = Some ns → ns = whole_notes b p ∧ p ∈ dom quotes.
Proof.
  unfold notes_by_pair. assert (∀ q, q ∈ hash_iter n (dom quotes) → q ∈ dom quotes) as Hin
    by (intros q; by rewrite hash_iter_perm, elem_of_elements).
  revert Hin. induction (hash_iter n (dom quotes)) as [|q qs IH] using rev_ind; intros Hin; [done|].
  rewrite foldl_snoc. assert (∀ q', q' ∈ qs → q' ∈ dom quotes) as Hin' by (intros; apply Hin; set_solver).
  destruct (whole_notes b q) eqn:Hw; [by apply IH|].
  intros [[<- <-]|[_ ?]]%lookup_insert_Some; [|by apply IH]. split; [done|]. apply Hin. set_solver.
Qed.

Lemma notes_by_pair_ok b l n quotes : book_inv b l → notes_ok (notes_by_pair b n quotes).
Proof.
  intros Hb. split_and!.
  - intros p ns o [-> _]%notes_by_pair_lookup Ho. by eapply elem_of_whole_notes.
  - intros p ns [-> _]%notes_by_pair_lookup. unfold whole_notes. destruct p as [x y]. simpl.
    rewrite (notes_for_pair_eq b l) by done. eapply sublist_NoDup; [by apply (NoDup_ranked b l (x, y))|].
    etrans; [apply fmap_sublist, sublist_filter|]. by eapply orders_of_oids.
  - intros p p' ns ns' o o' [-> _]%notes_by_pair_lookup [-> _]%notes_by_pair_lookup Ho Ho' He.
    apply (elem_of_whole_notes b l) in Ho as [(Ho & _) _]; [|done].
    apply (elem_of_whole_notes b l) in Ho' as [(Ho' & _) _]; [|done]. rewrite He in Ho. congruence.
Qed.

(** The hand-over of a pick. *)
Definition routed_of (raw : gmap OrderId Bytes) (k : Pick) : option RoutedNote :=
  bytes ← raw !! pk_note_id k; Some (mk_routed (pk_dex k) (pk_note_id k) (pk_fill k) (pk_pair k) bytes).

(** Parking a list of distinct visible notes. *)
Lemma route_fold_ok raw time picks b acc l :
  book_inv b l → NoDup (pk_note_id <$> picks) →
  (∀ k, k ∈ picks → is_Some (raw !! pk_note_id k) ∧ ∃ o, visible b (pk_note_id k) o) →
  let b' := (foldl (route_pick raw time) (b, acc) picks).1 in
  (foldl (route_pick raw time) (b, acc) picks).2 = acc ++ omap (routed_of raw) picks ∧
  (∃ l', book_inv b' l') ∧ orders b' = orders b ∧ protocol_balances b' = protocol_balances b ∧
  park_queue b' = park_queue b ++ ((λ k, (time, pk_note_id k)) <$> picks) ∧
  (∀ k, k ∈ picks → parked b' !! pk_note_id k = Some (pk_dex k, time)) ∧
  (∀ id, id ∉ pk_note_id <$> picks → parked b' !! id = parked b !! id).
Proof.
  revert b acc l. induction picks as [|k picks IH]; intros b acc l Hb Hnd Hk; cbn [foldl].
  { simpl. rewrite !app_nil_r. split_and!; try done; [by eexists|by intros ? ?%elem_of_nil]. }
  apply NoDup_cons in Hnd as [Hnot Hnd]. destruct (Hk k) as [[bytes Hraw] [o Hv]]; [by left|].
  destruct (park_fields b (pk_note_id k) (pk_dex k) time o Hv) as (E1 & E2 & E3 & E4).
  assert (route_pick raw time (b, acc) k = (park b (pk_note_id k) (pk_dex k) time,
    acc ++ [mk_routed (pk_dex k) (pk_note_id k) (pk_fill k) (pk_pair k) bytes])) as ->
    by (unfold route_pick; by rewrite Hraw).
  destruct (IH _ (acc ++ [mk_routed (pk_dex k) (pk_note_id k) (pk_fill k) (pk_pair k) bytes]) _
    (park_inv b l (pk_note_id k) (pk_dex k) time Hb) Hnd) as (G0 & G1 & G2 & G3 & G4 & G5 & G6).
  { intros k' Hk'. destruct (Hk k') as [? (o' & Ho' & Hp' & Ha')]; [by right|]. split; [done|]. exists o'.
    split_and!; [by rewrite E1| |done]. rewrite E4, lookup_insert_ne; [done|].
    intros He. apply Hnot. rewrite He. by apply list_elem_of_fmap_2. }
  split_and!; [| |congruence..| | |].
  - rewrite G0, <-app_assoc. f_equal. simpl. unfold routed_of at 2. by rewrite Hraw.
  - done.
  - rewrite G4, E2, <-app_assoc. done.
  - intros k' [->|Hk']%elem_of_cons; [|by apply G5]. by rewrite G6, E4, lookup_insert_eq.
  - intros id [Hne Hid]%not_elem_of_cons. by rewrite G6, E4, lookup_insert_ne.
Qed.

(** Undoing the parking. *)
Lemma unpark_all_ok items b l :
  book_inv b l →
  let b' := foldl (λ b item, (unpark b (rn_note_id item)).1) b items in
  (∃ l', book_inv b' l') ∧ orders b' = orders b ∧ protocol_balances b' = protocol_balances b ∧
  park_queue b' = park_queue b ∧
  ∀ id, parked b' !! id = (if decide (id ∈ rn_note_id <$> items) then None else parked b !! id).
Proof.
  revert b l. induction items as [|it items IH]; intros b l Hb; cbn [foldl].
  { split_and!; try done. by eexists. }
  destruct (unpark_fields b (rn_note_id it)) as (E1 & E2 & E3 & E4).
  destruct (IH _ _ (unpark_inv b l (rn_note_id it) Hb)) as (G1 & G2 & G3 & G4 & G5).
  split_and!; [done|congruence..|]. intros id. rewrite G5, E4. simpl.
  destruct (decide (id = rn_note_id it)) as [->|].
  - rewrite lookup_delete_eq, (decide_True (P := _ ∈ _ :: _)) by (by left). by case_decide.
  - rewrite lookup_delete_ne by done. repeat case_decide; set_solver.
Qed.

Definition quotes_wf (quotes : gmap Pair (list Quote)) : Prop :=
  ∀ p qs, quotes !! p = Some qs → Forall quote_wf qs.

(** The notes handed over: distinct visible orders, each whole, with its stored bytes, for
    the DEX of an unexpired quote of the pair that accepts its rate. *)
Record routed_ok (t : Tracked) (quotes : gmap Pair (list Quote)) (time : Z) (routed : list RoutedNote) : Prop := {
  ro_nodup : NoDup (rn_note_id <$> routed);
  ro_notes : ∀ r, r ∈ routed → ∃ o q qs, visible (tk_book t) (rn_note_id r) o ∧
    requested_remaining o = requested o ∧ rn_fill r = requested o ∧ rn_pair r = pair_of o ∧
    tk_raw t !! rn_note_id r = Some (rn_bytes r) ∧
    quotes !! pair_of o = Some qs ∧ q ∈ qs ∧ q_dex q = rn_dex r ∧ usable time q = true ∧ crosses o q = true;
}.

(** Where a pick of the external pass comes from. *)
Lemma pick_source b l n quotes time k :
  book_inv b l → quotes_wf quotes → k ∈ select_notes (n + 1) (notes_by_pair b n quotes) quotes time →
  ∃ o q qs, visible b (pk_note_id k) o ∧ requested_remaining o = requested o ∧ pk_fill k = requested o ∧
    pk_pair k = pair_of o ∧ quotes !! pair_of o = Some qs ∧ q ∈ qs ∧ q_dex q = pk_dex k ∧
    usable time q = true ∧ crosses o q = true.
Proof.
  intros Hb Hq Hk. apply select_notes_sound in Hk as (ns & qs & Hns & Hqs & o & q & Ho & Hin & Hu & Hc & Hk); [|done].
  apply notes_by_pair_lookup in Hns as [-> _].
  destruct (elem_of_whole_notes b l _ o Hb Ho) as [Hv Hp]. apply list_elem_of_filter in Ho as [Hw _].
  pose proof (f_equal pk_note_id Hk) as E1. pose proof (f_equal pk_fill Hk) as E2. pose proof (f_equal pk_dex Hk) as E3.
  simpl in E1, E2, E3. rewrite E1, E2, E3. exists o, q, qs. rewrite Hp. by split_and!.
Qed.

Lemma routed_of_ids raw (picks : list Pick) :
  (∀ k, k ∈ picks → is_Some (raw !! pk_note_id k)) →
  rn_note_id <$> omap (routed_of raw) picks = pk_note_id <$> picks.
Proof.
  induction picks as [|k picks IH]; intros Hraw; [done|]. simpl. unfold routed_of at 1.
  destruct (Hraw k) as [bytes ->]; [by left|]. simpl. f_equal. apply IH. intros; apply Hraw. by right.
Qed.

Lemma routed_nil_ok t quotes time : routed_ok t quotes time [].
Proof. split; [constructor|by intros r ?%elem_of_nil]. Qed.

Lemma queue_sorted_snoc q time (ids : list OrderId) :
  queue_sorted q → Forall (λ x, x.1 <= time) q →
  queue_sorted (q ++ ((λ id, (time, id)) <$> ids)) ∧ Forall (λ x, x.1 <= time) (q ++ ((λ id, (time, id)) <$> ids)).
Proof.
  intros Hs Ht. split.
  - apply StronglySorted_app_2; [|done|].
    + intros x y Hx (id & -> & _)%list_elem_of_fmap. rewrite Forall_forall in Ht. by apply Ht.
    + induction ids as [|id ids IH]; simpl; constructor; [done|]. apply Forall_forall.
      intros y (id' & -> & _)%list_elem_of_fmap. done.
  - apply Forall_app. split; [done|]. apply Forall_forall. intros y (id' & -> & _)%list_elem_of_fmap. simpl. lia.
Qed.

Lemma route_external_ok tri t time n quotes :
  tracked_inv tri t time → quotes_wf quotes →
  let b' := (route_external (tk_book t) (tk_raw t) n quotes time).1 in
  let items := (route_external (tk_book t) (tk_raw t) n quotes time).2 in
  tracked_inv tri (mk_tracked b' (tk_raw t) (tk_arrivals t)) time ∧ orders b' = orders (tk_book t) ∧
  routed_ok t quotes time items ∧
  (∀ r, r ∈ items → parked b' !! rn_note_id r = Some (rn_dex r, time)) ∧
  (∀ id, id ∉ rn_note_id <$> items → parked b' !! id = parked (tk_book t) !! id).
Proof.
  intros Hi Hq. unfold route_external.
  assert (∀ t', t' = mk_tracked (tk_book t) (tk_raw t) (tk_arrivals t) → tracked_inv tri t' time) as Ht by (by intros ? ->; destruct t).
  case_decide; [split_and!; [by apply Ht|done|apply routed_nil_ok|by intros r ?%elem_of_nil|done]|].
  case_decide; [split_and!; [by apply Ht|done|apply routed_nil_ok|by intros r ?%elem_of_nil|done]|].
  destruct (tv_book _ _ _ Hi) as [l Hb]. set (picks := select_notes _ _ _ _).
  assert (∀ k, k ∈ picks → is_Some (tk_raw t !! pk_note_id k) ∧ ∃ o, visible (tk_book t) (pk_note_id k) o) as Hk.
  { intros k Hk. destruct (pick_source _ l _ _ _ k Hb Hq Hk) as (o & _ & _ & Hv & _). split; [|by exists o].
    apply elem_of_dom. rewrite (tv_raw _ _ _ Hi). apply elem_of_dom. destruct Hv as [-> _]. done. }
  assert (NoDup (pk_note_id <$> picks)) as Hnd by (apply select_notes_once; [by eapply notes_by_pair_ok|done]).
  destruct (route_fold_ok (tk_raw t) time picks (tk_book t) [] l Hb Hnd Hk) as (G0 & G1 & G2 & G3 & G4 & G5 & G6).
  destruct (foldl _ _ _) as [b' items]. cbn [fst snd app] in *.
  pose proof (routed_of_ids (tk_raw t) picks (λ k Hk', proj1 (Hk k Hk'))) as Hids. rewrite <-G0 in Hids.
  rewrite (list_fmap_compose pk_note_id (λ id, (time, id))) in G4.
  destruct (queue_sorted_snoc (park_queue (tk_book t)) time (pk_note_id <$> picks)) as [Hs' Ht']; [apply Hi..|].
  rewrite <-G4 in Hs', Ht'. split_and!; [|done| | |by rewrite Hids].
  - destruct Hi as [_ Hu Hr Ha _ _ Hbal]. split; simpl; rewrite ?G2; try done.
    intros Htri tok. unfold balance. rewrite G3. by apply Hbal.
  - split; [by rewrite Hids|]. intros r Hr. rewrite G0 in Hr. apply list_elem_of_omap in Hr as (k & Hkin & Hr).
    unfold routed_of in Hr. destruct (tk_raw t !! pk_note_id k) as [bytes|] eqn:Hraw; simplify_eq/=.
    destruct (pick_source _ l _ _ _ k Hb Hq Hkin) as (o & q & qs & ? & ? & ? & ? & ? & ? & ? & ? & ?).
    exists o, q, qs. by split_and!.
  - intros r Hr. rewrite G0 in Hr. apply list_elem_of_omap in Hr as (k & Hkin & Hr).
    unfold routed_of in Hr. destruct (tk_raw t !! pk_note_id k) as [bytes|]; simplify_eq/=. by apply G5.
Qed.

Lemma external_pass_ok tri t time i :
  tracked_inv tri t time → quotes_wf (ti_quotes i) →
  let '(b', routed, closed) := external_pass (tk_book t) (tk_raw t) i time in
  tracked_inv tri (mk_tracked b' (tk_raw t) (tk_arrivals t)) time ∧ orders b' = orders (tk_book t) ∧
  routed_ok t (ti_quotes i) time routed ∧
  (∀ r, r ∈ routed → parked b' !! rn_note_id r = Some (rn_dex r, time)) ∧
  (∀ id, id ∉ rn_note_id <$> routed → parked b' !! id = parked (tk_book t) !! id) ∧
  (ti_route i ≠ Sent → routed = []) ∧ (closed = true → ti_route i = ChannelClosed).
Proof.
  intros Hi Hq. unfold external_pass.
  pose proof (route_external_ok tri t time (ti_occasion i + 2) (ti_quotes i) Hi Hq) as (H1 & H2 & H3 & H4 & H5).
  destruct (route_external _ _ _ _ _) as [b1 items]. cbn [fst snd] in *.
  destruct items as [|it items]; [by split_and!|]. set (all := it :: items) in *.
  destruct (tv_book _ _ _ H1) as [l Hb1]. simpl in Hb1.
  destruct (unpark_all_ok all b1 l Hb1) as (G1 & G2 & G3 & G4 & G5).
  set (b2 := foldl _ b1 all) in *.
  assert (tracked_inv tri (mk_tracked b2 (tk_raw t) (tk_arrivals t)) time ∧ orders b2 = orders (tk_book t) ∧
    ∀ id, parked b2 !! id = parked (tk_book t) !! id) as (K1 & K2 & K3).
  { split_and!; [| congruence|].
    - apply (tracked_inv_orders tri (mk_tracked b1 (tk_raw t) (tk_arrivals t))); simpl; rewrite ?G2; try done; apply H1.
    - intros id. rewrite G5. case_decide as Hid; [|by apply H5]. apply list_elem_of_fmap in Hid as (r & -> & Hr).
      destruct (ro_notes _ _ _ _ H3 r Hr) as (o & _ & _ & (_ & Hp & _) & _). by rewrite Hp. }
  destruct (ti_route i); [by split_and!|..]; split_and!; try done; try apply routed_nil_ok; by intros r ?%elem_of_nil.
Qed.
End external.
