(* ===== verification/MatcherTheorems.v ===== *)
(** * The matcher: theorems

    [matcher_run s]: the matcher reaches the state [s] by hydration and any sequence of
    ticks, with any inputs, iteration orders of hash containers and heaps.  The theorems
    say what a tick keeps, what the batches it sends and the notes it hands over are, and
    that the two never overlap. *)

From stdpp Require Import option.
From S2P Require Import Prelude.
From S2P Require Import Orders.
From S2P Require Import PriceFeed.
From S2P Require Import OrderBook.
From S2P Require Import IndexInvariant.
From S2P Require Import BookInvariant.
From S2P Require Import BookQueries.
From S2P Require Import Fills.
From S2P Require Import ThreeEdgeCycle.
From S2P Require Import Engine.
From S2P Require Import Select.
From S2P Require Import SwapEta.
From S2P Require Import Types.
From S2P Require Import Matcher.
From S2P Require Import MatcherProofs.

(** ** Ticks *)

Definition matcher_inv (s : MatcherState) : Prop :=
  tracked_inv (triangular_enabled (ms_engine s)) (tracked_of s) (ms_last_now s).

Definition tick_now (s : MatcherState) (i : TickInput) : Z := Z.max (ms_last_now s) (ti_millis i).

(** The book and its maps when the matching of a tick begins. *)
Definition entering (s : MatcherState) (i : TickInput) : Tracked :=
  let t := drain i (tracked_of s) in
  match ms_router s with
  | Some ttl => mk_tracked (reactivate_parked_older_than (tk_book t) ttl (tick_now s i)).1 (tk_raw t) (tk_arrivals t)
  | None => t
  end.

(** Inputs a tick may get: positive 64-bit amounts, room in the 32-bit counters, quotes
    with non-negative amounts. *)
Record input_ok (s : MatcherState) (i : TickInput) : Prop := {
  in_orders : Forall ingest_ok (ti_orders i);
  in_room : room (tracked_of s) (ti_orders i);
  in_quotes : quotes_wf (ti_quotes i);
}.

(** The ids of the batch a tick sent. *)
Definition batch_ids (out : TickOutput) : list OrderId :=
  match to_batch out with Some eb => fn_note_id <$> filled_notes eb | None => [] end.

(** What a tick that does not stop does, from the state in which its matching begins. *)
Record tick_spec (s : MatcherState) (i : TickInput) (out : TickOutput) : Prop := {
  ts_inv : matcher_inv (to_state out);
  ts_time : ms_last_now (to_state out) = tick_now s i;
  ts_batch : ∀ eb, to_batch out = Some eb → batch_ok (entering s i) (filled_notes eb) ∧
    (triangular_enabled (ms_engine s) = false →
      ∀ tok, 0 <= batch_flow (orders (tk_book (entering s i))) (filled_notes eb) tok);
  ts_orders : ∀ id, orders (book (ms_engine (to_state out))) !! id =
    (if decide (id ∈ batch_ids out) then None
     else orders (tk_book (entering s i)) !! id);
  ts_routed : routed_ok (entering s i) (ti_quotes i) (tick_now s i) (to_routed out);
  ts_disjoint : ∀ r, r ∈ to_routed out → rn_note_id r ∉ batch_ids out;
  ts_handed : ∀ r, r ∈ to_routed out →
    parked (book (ms_engine (to_state out))) !! rn_note_id r = Some (rn_dex r, tick_now s i);
  ts_parked : ∀ id, id ∉ rn_note_id <$> to_routed out →
    parked (book (ms_engine (to_state out))) !! id = parked (tk_book (entering s i)) !! id;
  ts_send : ti_route i ≠ Sent → to_routed out = [];
}.

Lemma entering_inv s i :
  matcher_inv s → input_ok s i →
  tracked_inv (triangular_enabled (ms_engine s)) (entering s i) (tick_now s i) ∧
  ∀ ttl, ms_router s = Some ttl →
    ∀ id dex at_, parked (tk_book (entering s i)) !! id = Some (dex, at_) → tick_now s i < sat_add64 at_ ttl.
Proof.
  intros Hs [Ho Hr _]. assert (tracked_inv (triangular_enabled (ms_engine s)) (drain i (tracked_of s)) (tick_now s i)) as Hd.
  { apply drain_inv; [|done..]. eapply tracked_inv_later; [|exact Hs]. apply Z.le_max_l. }
  unfold entering. destruct (ms_router s) as [ttl|]; [|done].
  destruct (reactivate_inv _ _ _ ttl Hd) as (H1 & _ & H3). split; [done|]. by intros ? [= <-].
Qed.

Section ticks.
Context `{HI : HashIter} `{CH : CycleHeap}.

(** The external pass of a tick, when there is a router. *)
Lemma external_or_not tri t time i router :
  tracked_inv tri t time → quotes_wf (ti_quotes i) →
  let '(b', routed, closed) :=
    match router : option Z with
    | Some _ => external_pass (tk_book t) (tk_raw t) i time
    | None => (tk_book t, [], false)
    end in
  tracked_inv tri (mk_tracked b' (tk_raw t) (tk_arrivals t)) time ∧ orders b' = orders (tk_book t) ∧
  routed_ok t (ti_quotes i) time routed ∧
  (∀ r, r ∈ routed → parked b' !! rn_note_id r = Some (rn_dex r, time)) ∧
  (∀ id, id ∉ rn_note_id <$> routed → parked b' !! id = parked (tk_book t) !! id) ∧
  (ti_route i ≠ Sent → routed = []).
Proof.
  intros Ht Hq. destruct router as [ttl|].
  - pose proof (external_pass_ok tri t time i Ht Hq) as H.
    destruct (external_pass _ _ _ _) as [[b' routed] closed]. tauto.
  - destruct t. split_and!; try done; [apply routed_nil_ok|by intros r ?%elem_of_nil].
Qed.

Lemma tick_unfold fuel s i :
  tick fuel s i =
  match internal_match fuel i (triangular_enabled (ms_engine s)) (entering s i) with
  | None => None
  | Some (t, batch, stopped) =>
    let state b router := mk_matcher (mk_engine b (triangular_enabled (ms_engine s)))
      (tk_raw t) (tk_arrivals t) (tick_now s i) router in
    if stopped then Some (mk_tick_out (state (tk_book t) (ms_router s)) None [] None true)
    else
      let '(b, routed, closed) :=
        match ms_router s with
        | Some _ => external_pass (tk_book t) (tk_raw t) i (tick_now s i)
        | None => (tk_book t, [], false)
        end in
      Some (mk_tick_out (state b (if closed then None else ms_router s))
              batch routed (Some (snapshot_best_levels b)) false)
  end.
Proof. reflexivity. Qed.

(** A tick returns with enough fuel, and does as specified unless it stops. *)
Lemma tick_ok s i :
  matcher_inv s → input_ok s i →
  ∃ n, ∀ fuel, (n <= fuel)%nat → ∃ out, tick fuel s i = Some out ∧
    (to_stopped out = true → ti_exec_open i = false ∧ to_batch out = None ∧ to_routed out = []) ∧
    (to_stopped out = false → tick_spec s i out).
Proof.
  intros Hs Hin. destruct (entering_inv s i Hs Hin) as [He _].
  destruct (internal_match_ok (triangular_enabled (ms_engine s)) i (entering s i) (tick_now s i) He) as [n Hn].
  exists n. intros fuel Hfuel. destruct (Hn fuel Hfuel) as (t' & batch & stopped & Em & Hstop & Hgo).
  rewrite tick_unfold, Em.
  destruct stopped; [eexists; split_and!; [done| |done]; intros _; by split_and!; [apply Hstop|..]|].
  destruct Hgo as (Ht' & Hpark & Hraw & Hbatch); [done|].
  pose proof (external_or_not _ t' (tick_now s i) i (ms_router s) Ht' (in_quotes _ _ Hin)) as Hext.
  destruct (match ms_router s with Some _ => _ | None => _ end) as [[b' routed] closed].
  destruct Hext as (H1 & H2 & H3 & H4 & H5 & H6).
  eexists. split_and!; [done..|]. intros _. match goal with |- tick_spec s i ?o => set (out := o) end.
  assert (∀ id, orders (tk_book t') !! id =
    (if decide (id ∈ batch_ids out) then None else orders (tk_book (entering s i)) !! id)) as Hlook.
  { intros id. unfold out, batch_ids. simpl. destruct batch as [eb|]; [by destruct Hbatch as (_ & -> & _)|by rewrite Hbatch]. }
  assert (∀ id o, visible (tk_book t') id o → visible (tk_book (entering s i)) id o ∧ id ∉ batch_ids out) as Hvis.
  { intros id o (Ho & Hp & Ha). rewrite Hlook in Ho. case_decide; [done|]. rewrite Hpark in Hp. done. }
  split; try done.
  - intros eb [= Heb]. rewrite Heb in Hbatch. split; apply Hbatch.
  - intros id. simpl. by rewrite H2, Hlook.
  - destruct H3 as [Hnd Hnotes]. split; [done|]. intros r Hr.
    destruct (Hnotes r Hr) as (o & q & qs & Hv & ? & ? & ? & Hb & ?). exists o, q, qs.
    split_and!; try done; [by apply Hvis|by eapply lookup_weaken|tauto..].
  - intros r Hr. destruct (ro_notes _ _ _ _ H3 r Hr) as (o & _ & _ & Hv & _). by apply (Hvis _ o).
  - intros id Hid. simpl. by rewrite H5, Hpark.
Qed.

(** The same for any fuel that suffices. *)
Lemma tick_result fuel s i out :
  matcher_inv s → input_ok s i → tick fuel s i = Some out →
  (to_stopped out = true → ti_exec_open i = false ∧ to_batch out = None ∧ to_routed out = []) ∧
  (to_stopped out = false → tick_spec s i out).
Proof.
  intros Hs Hi Ht. destruct (tick_ok s i Hs Hi) as [n Hn]. destruct (Hn (Nat.max n fuel)) as (out' & Ht' & H); [lia|].
  apply (tick_mono _ (Nat.max n fuel)) in Ht; [|lia]. congruence.
Qed.
End ticks.

(** ** Runs *)

Inductive matcher_run : MatcherState → Prop :=
  | run_start prices triangular router unix loaded :
      Forall ingest_ok (default [] loaded) → Z.of_nat (length (default [] loaded)) < two32 →
      matcher_run (matcher_start prices triangular router unix loaded)
  | run_tick (HI : HashIter) (CH : CycleHeap) fuel s i out :
      matcher_run s → input_ok s i → tick fuel s i = Some out → to_stopped out = false →
      matcher_run (to_state out).

Lemma matcher_run_inv s : matcher_run s → matcher_inv s.
Proof.
  induction 1 as [prices tri router unix loaded Hok Hlen|HI CH fuel s i out _ IH Hin Ht Hns].
  - unfold matcher_inv, matcher_start, tracked_of. simpl.
    set (t0 := mk_tracked (book_new (watch_feed_from prices)) ∅ ∅).
    pose proof (hydrate_all_inv tri unix t0 0 (default [] loaded) (tracked_start _ _ _) Hok) as H.
    destruct H; [|by split]. unfold room. simpl. rewrite map_size_empty. done.
  - destruct (tick_result fuel s i out IH Hin Ht) as [_ H]. by apply H.
Qed.

(** ** Theorems *)

(** C10. Between ticks the matcher is consistent, and it never gets stuck.  In every reachable
    state the book satisfies its invariant, every order in it is whole (nothing is left
    partially filled), its bytes and its arrival are known, the expiry queue is in time
    order and, without the triangular phase, no balance is left over; and from it every
    tick on admissible inputs returns. *)
Theorem matcher_reachable_inv s :
  matcher_run s →
  matcher_inv s ∧
  ∀ (HI : HashIter) (CH : CycleHeap) i, input_ok s i →
    ∃ n, ∀ fuel, (n <= fuel)%nat → ∃ out, tick fuel s i = Some out ∧
      (to_stopped out = true → ti_exec_open i = false).
Proof.
  intros Hs%matcher_run_inv. split; [done|]. intros HI CH i Hin. destruct (tick_ok s i Hs Hin) as [n Hn].
  exists n. intros fuel Hfuel. destruct (Hn fuel Hfuel) as (out & Ht & Hst & _). exists out. split; [done|]. intros Hstop. by apply Hst in Hstop as [? _].
Qed.

(** C15. A batch sent to the executor consists of distinct orders that were visible when the
    matching of the tick began, each filled by a positive amount within its terms and
    carrying the bytes and the arrival the matcher stored for it.  After the tick the book
    holds exactly the other orders, so a sent order is never matched again, and a parked
    note is never in a batch. *)
Theorem tick_batch_sound `{HI : HashIter} `{CH : CycleHeap} fuel s i out eb :
  matcher_run s → input_ok s i → tick fuel s i = Some out → to_batch out = Some eb →
  batch_ok (entering s i) (filled_notes eb) ∧
  (∀ id, orders (book (ms_engine (to_state out))) !! id =
    (if decide (id ∈ fn_note_id <$> filled_notes eb) then None else orders (tk_book (entering s i)) !! id)) ∧
  (∀ f, f ∈ filled_notes eb → parked (tk_book (entering s i)) !! fn_note_id f = None).
Proof.
  intros Hs%matcher_run_inv Hin Ht Hb. destruct (tick_result fuel s i out Hs Hin Ht) as [Hst Hgo].
  destruct (to_stopped out) eqn:E; [destruct Hst as (_ & ? & _); [done|congruence]|].
  destruct Hgo as [_ _ Hbatch Hord _ _ _ _ _]; [done|]. destruct (Hbatch eb Hb) as [Hok _]. split_and!; [done| |].
  - intros id. rewrite Hord. unfold batch_ids. by rewrite Hb.
  - intros f Hf. by destruct (bo_notes _ _ Hok f Hf) as (o & (_ & ? & _) & _).
Qed.

(** Without the triangular phase every batch is solvent: in every token, what its notes
    release is at least what they are paid, whatever the prices, the order of matching and
    the history of the book. *)
Theorem tick_batch_solvent `{HI : HashIter} `{CH : CycleHeap} fuel s i out eb :
  matcher_run s → input_ok s i → tick fuel s i = Some out → to_batch out = Some eb →
  triangular_enabled (ms_engine s) = false →
  ∀ tok, 0 <= batch_flow (orders (tk_book (entering s i))) (filled_notes eb) tok.
Proof.
  intros Hs%matcher_run_inv Hin Ht Hb Htri. destruct (tick_result fuel s i out Hs Hin Ht) as [Hst Hgo].
  destruct (to_stopped out) eqn:E; [destruct Hst as (_ & ? & _); [done|congruence]|].
  destruct Hgo as [_ _ Hbatch _ _ _ _ _ _]; [done|]. by apply (Hbatch eb Hb).
Qed.

(** C17. Routing hands over whole notes exclusively.  The notes delivered to DEXes in a tick are
    distinct visible orders, each whole, with its stored bytes, for an unexpired quote of
    its pair that accepts its rate; none of them is in the batch sent to the executor;
    each is parked for its DEX from now on, every other note keeps its parking, and when
    the hand-over cannot be sent nothing is delivered and nothing stays parked for it. *)
Theorem tick_routing_exclusive `{HI : HashIter} `{CH : CycleHeap} fuel s i out :
  matcher_run s → input_ok s i → tick fuel s i = Some out → to_stopped out = false →
  routed_ok (entering s i) (ti_quotes i) (tick_now s i) (to_routed out) ∧
  (∀ r, r ∈ to_routed out → (rn_note_id r ∉ batch_ids out) ∧
    parked (book (ms_engine (to_state out))) !! rn_note_id r = Some (rn_dex r, tick_now s i)) ∧
  (∀ id, id ∉ rn_note_id <$> to_routed out →
    parked (book (ms_engine (to_state out))) !! id = parked (tk_book (entering s i)) !! id) ∧
  (ti_route i ≠ Sent → to_routed out = []).
Proof.
  intros Hs%matcher_run_inv Hin Ht Hns. destruct (tick_result fuel s i out Hs Hin Ht) as [_ Hgo].
  destruct Hgo as [_ _ _ _ H1 H2 H3 H4 H5]; [done|]. split_and!; auto.
Qed.

(** The published snapshot is the one of the book the tick leaves. *)
Lemma tick_snapshot `{HI : HashIter} `{CH : CycleHeap} fuel s i out :
  tick fuel s i = Some out → to_stopped out = false →
  to_snapshot out = Some (snapshot_best_levels (book (ms_engine (to_state out)))).
Proof.
  rewrite tick_unfold. destruct (internal_match _ _ _ _) as [[[t batch] []]|]; [|..|done]; [by intros [= <-]|].
  destruct (match ms_router s with Some _ => _ | None => _ end) as [[b routed] closed]. by intros [= <-] _.
Qed.


(** No hand-over outlives its time-to-live: after a tick of a matcher with a router, every
    parked note was either parked in this very tick or is not yet due. *)
Theorem tick_releases_overdue `{HI : HashIter} `{CH : CycleHeap} fuel s i out ttl id dex at_ :
  matcher_run s → input_ok s i → tick fuel s i = Some out → to_stopped out = false → ms_router s = Some ttl →
  parked (book (ms_engine (to_state out))) !! id = Some (dex, at_) →
  at_ = tick_now s i ∨ tick_now s i < sat_add64 at_ ttl.
Proof.
  intros Hs%matcher_run_inv Hin Ht Hns Hr Hp. destruct (tick_result fuel s i out Hs Hin Ht) as [_ Hgo].
  destruct Hgo as [_ _ _ _ _ _ H3 H4 _]; [done|]. destruct (entering_inv s i Hs Hin) as [_ Hdue].
  destruct (decide (id ∈ rn_note_id <$> to_routed out)) as [(r & -> & Hin')%list_elem_of_fmap|Hnot].
  - left. rewrite H3 in Hp by done. congruence.
  - right. rewrite H4 in Hp by done. by eapply Hdue.
Qed.

(** ** A concrete run *)

(** Three stored orders: two sell token 1 for token 2, one crosses the first of them. *)
Definition demo_bytes (id offered offered_amount requested requested_amount : N) : Bytes :=
  demo_write (mk_demo true id offered offered_amount requested requested_amount 0).
Definition demo_orders : list IngestOrder :=
  [mk_ingest 1 1 2 100 50 (demo_bytes 1 1 100 2 50); mk_ingest 2 1 2 100 40 (demo_bytes 2 1 100 2 40);
   mk_ingest 3 2 1 60 80 (demo_bytes 3 2 60 1 80)].
Definition demo_prices : gmap TokenId Z := {[1%N := 100; 2%N := 100]}.
Definition demo_start : MatcherState := matcher_start demo_prices false (Some 30) (λ _, 7) (Some demo_orders).

Definition demo_quotes : gmap Pair (list Quote) := {[ (1%N, 2%N) := [mk_quote 9 (1%N, 2%N) 500 500 2000] ]}.

(** A tick with a quote of DEX 9 that takes the note left over. *)
Definition demo_input : TickInput :=
  mk_tick 1000 (λ _, 8) [] [] demo_prices true demo_quotes Sent 0.
Definition demo_tick : option TickOutput := @tick elements_iter list_heap 10 demo_start demo_input.

Definition demo_out : TickOutput :=
  match demo_tick with Some o => o | None => mk_tick_out demo_start None [] None true end.

Definition demo_batch : ExecutionBatch :=
  mk_exec_batch [mk_filled 2 40 (demo_bytes 2 1 100 2 40) 7; mk_filled 3 80 (demo_bytes 3 2 60 1 80) 7].
Definition demo_routed : list RoutedNote := [mk_routed 9 1 50 (1%N, 2%N) (demo_bytes 1 1 100 2 50)].

Lemma demo_start_run : matcher_run demo_start.
Proof. apply run_start; [repeat constructor|done]. Qed.

Lemma demo_input_ok : input_ok demo_start demo_input.
Proof.
  split; [constructor|by vm_compute|]. intros p qs Hq. change (demo_quotes !! p = Some qs) in Hq.
  unfold demo_quotes in Hq. apply lookup_singleton_Some in Hq as [<- <-]. repeat constructor; vm_compute; discriminate.
Qed.

Lemma demo_tick_out : tick (HI := elements_iter) (CH := list_heap) 10 demo_start demo_input = Some demo_out.
Proof. vm_compute. reflexivity. Qed.

Lemma demo_out_sends : to_batch demo_out = Some demo_batch ∧ to_routed demo_out = demo_routed ∧ to_stopped demo_out = false.
Proof. vm_compute. done. Qed.

Lemma matcher_reachable_inv_witness : matcher_inv (to_state demo_out).
Proof.
  apply (matcher_reachable_inv (to_state demo_out)).
  apply (run_tick elements_iter list_heap 10 demo_start demo_input demo_out);
    [exact demo_start_run|exact demo_input_ok|exact demo_tick_out|apply demo_out_sends].
Defined.

Lemma tick_batch_sound_witness : batch_ok (entering demo_start demo_input) (filled_notes demo_batch).
Proof.
  apply (tick_batch_sound (HI := elements_iter) (CH := list_heap) 10 demo_start demo_input demo_out demo_batch
    demo_start_run demo_input_ok demo_tick_out (proj1 demo_out_sends)).
Defined.

Lemma tick_batch_solvent_witness :
  batch_flow (orders (tk_book (entering demo_start demo_input))) (filled_notes demo_batch) 1 = 20 ∧
  0 <= batch_flow (orders (tk_book (entering demo_start demo_input))) (filled_notes demo_batch) 2.
Proof.
  split; [vm_compute; reflexivity|].
  apply (tick_batch_solvent (HI := elements_iter) (CH := list_heap) 10 demo_start demo_input demo_out demo_batch
    demo_start_run demo_input_ok demo_tick_out (proj1 demo_out_sends) eq_refl).
Defined.

Lemma tick_routing_exclusive_witness :
  to_routed demo_out = demo_routed ∧
  routed_ok (entering demo_start demo_input) (ti_quotes demo_input) 1000 (to_routed demo_out).
Proof.
  split; [apply demo_out_sends|].
  apply (tick_routing_exclusive (HI := elements_iter) (CH := list_heap) 10 demo_start demo_input demo_out
    demo_start_run demo_input_ok demo_tick_out (proj2 (proj2 demo_out_sends))).
Defined.


Lemma tick_releases_overdue_witness : 1000 = 1000 ∨ 1000 < sat_add64 1000 30.
Proof.
  apply (tick_releases_overdue (HI := elements_iter) (CH := list_heap) 10 demo_start demo_input demo_out 30 1 9 1000
    demo_start_run demo_input_ok demo_tick_out (proj2 (proj2 demo_out_sends)) eq_refl).
  vm_compute. reflexivity.
Defined.

(** ** The order of the inbound channels *)

(** The order and the consumption of note 5 arrive between two ticks. *)
Definition late_input : TickInput :=
  mk_tick 1000 (λ _, 8) [5%N] [mk_ingest 5 1 3 10 10 [5%N]] demo_prices true ∅ Sent 0.

(** A tick that finds both an order and its consumption waiting keeps the order: consumed
    ids are drained before new orders, so removing note 5 does nothing and the note, which
    no longer exists on chain, enters the book and stays there. *)
Theorem consumed_before_added_stays :
  match @tick elements_iter list_heap 10 demo_start late_input with
  | Some out => orders (book (ms_engine (to_state out))) !! 5%N = Some (mk_order 5 1 3 10 10 10)
  | None => False
  end.
Proof. vm_compute. reflexivity. Qed.
