(* ===== verification/Liveness.v ===== *)
(** * Progress of the matcher

    Safety theorems about batches are true of a matcher that never sends one.  This file
    shows that it does send them: whenever two visible orders of opposite directions
    cross and both tokens have a price, a tick trades, with every fuel above some bound
    and whatever the iteration order of hash containers.

    - [whole_cross_matches]: the arithmetic of [match_with] never refuses two whole orders
      that cross;
    - [best_cross]: if any two orders of a pair cross, the best orders of the two
      directions do;
    - [direct_fills], [run_fills]: so the direct phase, and with it the engine, fills
      something;
    - [crossing_orders_trade]: and the tick sends a batch. *)

From stdpp Require Import option relations.
From S2P Require Import Prelude.
From S2P Require Import Orders.
From S2P Require Import RateIndex.
From S2P Require Import PriceFeed.
From S2P Require Import OrderBook.
From S2P Require Import IndexInvariant.
From S2P Require Import BookInvariant.
From S2P Require Import BookOps.
From S2P Require Import BookQueries.
From S2P Require Import Fills.
From S2P Require Import DirectMatching.
From S2P Require Import ThreeEdgeCycle.
From S2P Require Import CycleProofs.
From S2P Require Import Engine.
From S2P Require Import BookTheorems.
From S2P Require Import Types.
From S2P Require Import Matcher.
From S2P Require Import MatcherProofs.
From S2P Require Import MatcherTheorems.

(** ** Two crossing orders match *)

Definition whole (o : Order) : Prop := requested_remaining o = requested o.

(** A fill of a positive order releases at least [t] when the product allows it. *)
Lemma offered_for_ge o f t :
  order_wf o → 0 <= f <= requested o → t * requested o <= offered o * f → t <= offered_for o f.
Proof.
  intros Hwf Hf Ht. destruct (offered_for_exact o f Hwf Hf) as [-> _].
  pose proof Hwf as (_ & ? & _). apply Z.div_le_lower_bound; lia.
Qed.

Lemma whole_cross_matches a b :
  order_wf a → order_wf b → whole a → whole b → is_profitable_with a b = true →
  is_Some (match_with a b).1.1.
Proof.
  intros Ha Hb Wa Wb Hx. pose proof Ha as (? & ? & _). pose proof Hb as (? & ? & _).
  unfold match_with, is_active, offered_remaining. rewrite Wa, Wb, Hx, !(proj2 (Z.ltb_lt 0 _)) by lia. simpl.
  apply Z.ltb_lt in Hx. rewrite (offered_for_full a Ha).
  set (s := Z.min (offered a) (requested b)). destruct (Z.eqb_spec s 0); [lia|]. rewrite Wb.
  replace (Z.min s (requested b)) with s by lia.
  assert (Z.min (offered b) (requested a) <= offered_for b s) as Hrel.
  { destruct (Z.le_ge_cases (requested b) (offered a)).
    - replace s with (requested b) by lia. rewrite (offered_for_full b Hb). lia.
    - replace s with (offered a) by lia. transitivity (requested a); [lia|]. apply offered_for_ge; [done|lia|nia]. }
  destruct (Z.eqb_spec (offered_for b s) 0); [lia|]. rewrite Wa.
  set (v := Z.min (offered_for b s) (requested a)). replace (Z.min v (requested a)) with v by lia.
  destruct (Z.ltb_spec (offered_for a v) s) as [Hlt|]; [exfalso|by eexists].
  destruct (Z.le_gt_cases (requested a) (offered_for b s)).
  - replace v with (requested a) in Hlt by lia. rewrite (offered_for_full a Ha) in Hlt. lia.
  - assert (offered b <= v) by lia. assert (s <= offered_for a v); [|lia].
    apply offered_for_ge; [done|lia|]. transitivity (requested b * requested a); [apply Z.mul_le_mono_nonneg_r; lia|].
    transitivity (offered a * offered b); [lia|apply Z.mul_le_mono_nonneg_l; lia].
Qed.

Lemma profitable_sym a b : is_profitable_with a b = is_profitable_with b a.
Proof. unfold is_profitable_with. f_equal; ring. Qed.

(** ** The best orders cross *)

(** A lower rate crosses whatever the higher one does. *)
Lemma better_cross a a' b :
  order_wf a → order_wf a' → order_wf b → rate_le (rate_key a') (rate_key a) →
  is_profitable_with a b = true → is_profitable_with a' b = true.
Proof.
  intros (? & ? & _) (? & ? & _) (? & ? & _). rewrite rate_le_iff. unfold is_profitable_with. rewrite !Z.ltb_lt. simpl.
  intros Hr Hx. apply (Z.mul_lt_mono_pos_r (offered a)); [lia|].
  apply Z.le_lt_trans with (requested a * offered a' * requested b); nia.
Qed.

Section engine.
Context {F : Type} `{!PriceFeed F}.
Implicit Types b : OrderBook F.

(** A visible order is ranked behind the best order of its pair. *)
Lemma best_order_beats b l id o x y :
  book_inv b l → visible b id o → pair_of o = (x, y) →
  ∃ o', (best_order b x y).2 = Some o' ∧ visible b (oid o') o' ∧ pair_of o' = (x, y) ∧
    rate_le (rate_key o') (rate_key o).
Proof.
  intros Hb Hv Hp. destruct (best_order b x y) as [b' [o'|]] eqn:E.
  - apply (best_order_Some b l) in E as (_ & Hv' & Hp' & Hh); [|done]. exists o'. split_and!; try done.
    destruct (ranked_head_best b l _ _ Hb Hh id o Hv Hp) as [Hle _].
    by rewrite (rate_of_lookup (orders b) _ o' (proj1 Hv')) in Hle.
  - apply (best_order_None b l) in E as [_ Hnil]; [|done].
    assert (id ∈ ranked b l (x, y)) as Hin by (apply (elem_of_ranked b l _ id Hb); eauto).
    rewrite Hnil in Hin. by apply elem_of_nil in Hin.
Qed.

(** Two orders of opposite directions that cross at known prices. *)
Record crossing b (ida idb : OrderId) (a c : Order) : Prop := {
  cr_a : visible b ida a;
  cr_b : visible b idb c;
  cr_opposite : pair_of c = (requested_token a, offered_token a);
  cr_cross : is_profitable_with a c = true;
  cr_offered : priced b (offered_token a);
  cr_requested : priced b (requested_token a);
}.

Lemma crossing_sym b ida idb a c : crossing b ida idb a c → crossing b idb ida c a.
Proof.
  intros [H1 H2 H3 H4 H5 H6]. unfold pair_of in H3. injection H3 as E1 E2.
  split; rewrite ?E1, ?E2; try done. by rewrite profitable_sym.
Qed.

Lemma best_cross b l ida idb a c :
  book_inv b l → untouched (orders b) → crossing b ida idb a c →
  ¬ exhausted b (offered_token a, requested_token a).
Proof.
  intros Hb Hw [Ha Hc Hopp Hx P1 P2] Hex.
  pose proof (λ id o Ho, orders_wf b l ∅ id o Hb Ho) as Hwf.
  destruct (best_order_beats b l ida a (offered_token a) (requested_token a) Hb Ha eq_refl)
    as (a' & Ea & (Ha' & _) & _ & La).
  destruct (best_order_beats b l idb c _ _ Hb Hc Hopp) as (c' & Ec & (Hc' & _) & _ & Lc).
  assert (is_profitable_with a' c' = true) as Hbest.
  { destruct Ha as [? _], Hc as [? _]. rewrite profitable_sym. apply (better_cross c c' a'); [by eauto..|].
    rewrite profitable_sym. by apply (better_cross a a' c); [by eauto..|]. }
  destruct (whole_cross_matches a' c') as [r Hr]; [by eauto| by eauto |by eapply Hw|by eapply Hw|done|].
  rewrite (Hex a' c' Ea Ec P1 P2) in Hr. done.
Qed.

(** ** The engine fills something *)

(** A run that filled nothing left every order as it was. *)
Lemma progress_idle l b b' : progress l (b, ∅) (b', ∅) → orders b' = orders b.
Proof.
  intros Hp. apply map_eq. intros id. apply dec_stable. intros Hne.
  apply (not_elem_of_empty (C := gset OrderId) id), (pr_filled _ _ _ Hp). by right.
Qed.

Lemma crossing_idle l b b' ida idb a c :
  progress l (b, ∅) (b', ∅) → crossing b ida idb a c → crossing b' ida idb a c.
Proof.
  intros Hp [H1 H2 H3 H4 H5 H6]. pose proof (progress_idle l b b' Hp) as Ho. destruct Hp as [_ _ _ Hpk _ Hf _]. simpl in *.
  unfold visible, priced in *. by split; unfold visible, priced; rewrite ?Ho, ?Hpk, ?Hf.
Qed.

Lemma direct_fills `{HI : HashIter} fuel b l ida idb a c :
  book_inv b l → untouched (orders b) → crossing b ida idb a c → offered_token a ≠ requested_token a →
  (length l + 2 <= fuel)%nat →
  ∃ r, run_direct_matching fuel b ∅ = Some r ∧ run_filled r ≠ ∅.
Proof.
  intros Hb Hw Hc Hne Hfuel. destruct (run_direct_matching_ok fuel b ∅ l Hb Hfuel) as (r & E & Hp & _ & Hex).
  exists r. split; [done|]. intros Hnil. rewrite Hnil in Hp.
  pose proof (crossing_idle _ _ _ _ _ _ _ Hp Hc) as Hc'. pose proof (pr_inv _ _ _ Hp) as Hb'.
  rewrite <-(progress_idle _ _ _ Hp) in Hw.
  destruct (N.lt_total (offered_token a) (requested_token a)) as [Hlt|[?|Hlt]]; [|done|].
  - eapply best_cross; [done..|]. by apply Hex.
  - apply crossing_sym in Hc'. pose proof (cr_opposite _ _ _ _ _ Hc) as [= E1 E2].
    eapply best_cross; [done..|]. rewrite E1, E2. by apply Hex.
Qed.

Lemma run_fills `{HI : HashIter} `{CH : CycleHeap} e l ida idb a c :
  book_inv (book e) l → untouched (orders (book e)) → crossing (book e) ida idb a c →
  offered_token a ≠ requested_token a →
  ∃ n, ∀ fuel, (n <= fuel)%nat → ∃ e' batch, run fuel e = Some (e', batch) ∧ filled_orders batch ≠ ∅.
Proof.
  intros Hb Hw Hc Hne. destruct (direct_fills (length l + 2) (book e) l ida idb a c Hb Hw Hc Hne ltac:(lia)) as (d & Ed & Hd).
  destruct (run_direct_matching_ok (length l + 2) (book e) ∅ l Hb ltac:(lia)) as (d' & Ed' & P & _).
  assert (d' = d) as -> by congruence.
  exists (length l + 2 + three_edge_fuel (run_book d) (still_active (run_book d) l))%nat. intros fuel Hfuel.
  unfold run. apply (run_direct_matching_mono _ fuel) in Ed; [|lia]. rewrite Ed. simpl.
  destruct (triangular_enabled e); [|by eexists _, _].
  destruct (run_three_edge_ok fuel (run_book d) (run_filled d) _ (pr_inv _ _ _ P) ltac:(simpl; lia)) as (t & -> & _ & _ & Pt).
  eexists _, _. split; [done|]. simpl. intros Hnil. apply Hd, set_eq. intros id. split; [|set_solver].
  intros Hid. rewrite <-Hnil. apply (pr_filled _ _ _ Pt). by left.
Qed.
End engine.

(** ** The tick sends a batch *)

(** The book a tick matches on: the orders it has drained, with the latest prices. *)
Definition matching_book (s : MatcherState) (i : TickInput) : Book :=
  set_feed (tk_book (entering s i)) (watch_feed_from (ti_prices i)).

Section ticks.
Context `{HI : HashIter} `{CH : CycleHeap}.

Lemma internal_match_trades tri i t time ida idb a c :
  tracked_inv tri t time → ti_exec_open i = true →
  crossing (set_feed (tk_book t) (watch_feed_from (ti_prices i))) ida idb a c →
  offered_token a ≠ requested_token a →
  ∃ n, ∀ fuel, (n <= fuel)%nat → ∃ t' eb, internal_match fuel i tri t = Some (t', Some eb, false).
Proof.
  intros Hi Hopen Hc Hne. destruct (tv_book _ _ _ Hi) as [l Hb].
  destruct (run_fills (mk_engine (set_feed (tk_book t) (watch_feed_from (ti_prices i))) tri) l ida idb a c) as [n Hn];
    [by apply set_feed_inv|apply (tv_whole _ _ _ Hi)|done|done|].
  exists n. intros fuel Hfuel. destruct (Hn fuel Hfuel) as (e' & batch & Er & Hfilled).
  unfold internal_match. rewrite decide_False.
  - rewrite Er. simpl. rewrite decide_False, Hopen by done. by eexists _, _.
  - intros Hemp. destruct (cr_a _ _ _ _ _ Hc) as [Ha _]. simpl in Ha. rewrite Hemp in Ha. done.
Qed.

(** The batch of the internal pass is the batch of the tick. *)
Lemma tick_batch_of fuel s i t' eb :
  internal_match fuel i (triangular_enabled (ms_engine s)) (entering s i) = Some (t', Some eb, false) →
  ∃ out, tick fuel s i = Some out ∧ to_batch out = Some eb.
Proof.
  intros Em. rewrite tick_unfold, Em. cbn beta iota zeta.
  destruct (match ms_router s with Some _ => _ | None => _ end) as [[b r] closed]. by eexists.
Qed.

(** C11. Orders that cross trade.  In every reachable state of the matcher, whatever the
    iteration order of hash containers and heaps and whether or not the triangular phase
    is on: if, when the matching of a tick begins, two visible orders of opposite
    directions of a pair cross and both tokens have a price, and the executor is still
    there, then the tick returns and sends it a batch with at least one note. *)
Theorem crossing_orders_trade s i ida idb a c :
  matcher_run s → input_ok s i → ti_exec_open i = true →
  crossing (matching_book s i) ida idb a c → offered_token a ≠ requested_token a →
  ∃ n, ∀ fuel, (n <= fuel)%nat → ∃ out eb,
    tick fuel s i = Some out ∧ to_batch out = Some eb ∧ filled_notes eb ≠ [].
Proof.
  intros Hs%matcher_run_inv Hin Hopen Hc Hne. destruct (entering_inv s i Hs Hin) as [He _].
  destruct (internal_match_trades _ i _ _ ida idb a c He Hopen Hc Hne) as [n Hn].
  exists n. intros fuel Hfuel. destruct (Hn fuel Hfuel) as (t' & eb & Em).
  destruct (tick_batch_of fuel s i _ _ Em) as (out & Ht & Hb).
  exists out, eb. split_and!; [done..|]. destruct (tick_result fuel s i out Hs Hin Ht) as [Hst Hgo].
  destruct (to_stopped out); [destruct Hst as (_ & ? & _); [done|congruence]|].
  destruct (ts_batch _ _ _ (Hgo eq_refl) eb Hb) as [Hok _]. apply (bo_nonempty _ _ Hok).
Qed.
End ticks.

(** Order 2 sells 100 of token 1 for 40 of token 2, order 3 sells 60 of token 2 for 80 of token 1. *)
Lemma crossing_orders_trade_witness :
  ∃ n, ∀ fuel, (n <= fuel)%nat → ∃ out eb,
    @tick elements_iter list_heap fuel demo_start demo_input = Some out ∧ to_batch out = Some eb ∧ filled_notes eb ≠ [].
Proof.
  apply (crossing_orders_trade (HI := elements_iter) (CH := list_heap) demo_start demo_input 2 3
    (mk_order 2 1 2 100 40 40) (mk_order 3 2 1 60 80 80) demo_start_run demo_input_ok eq_refl).
  - split; try (vm_compute; split_and!; reflexivity); vm_compute; by eexists.
  - discriminate.
Defined.
