(* ===== verification/Clearing.v ===== *)
(** * Books that clear

    A market maker's favourite book: on one pair, as many whole orders in one direction as
    in the other, all of them offering the same amount and requesting the same smaller
    amount.  Here the matcher leaves nothing behind: one tick fills every order completely
    and keeps the spread of every couple in both tokens, whatever the order in which the
    orders are visited and whether or not the triangular phase is on.

    The run of the direct phase is taken apart into its steps ([run_direct_matching_steps]);
    [clearable] is an invariant of the steps, and a clearable book that is exhausted is
    empty. *)

From stdpp Require Import option relations.
From S2P Require Import Prelude.
From S2P Require Import Orders.
From S2P Require Import RateIndex.
From S2P Require Import PriceFeed.
From S2P Require Import OrderBook.
From S2P Require Import IndexInvariant.
From S2P Require Import BookInvariant.
From S2P Require Import BookOps.
From S2P Require Import BookQueries.
From S2P Require Import Fills.
From S2P Require Import DirectMatching.
From S2P Require Import ThreeEdgeCycle.
From S2P Require Import CycleProofs.
From S2P Require Import Engine.
From S2P Require Import BookTheorems.
From S2P Require Import Types.
From S2P Require Import Matcher.
From S2P Require Import MatcherProofs.
From S2P Require Import MatcherTheorems.
From S2P Require Import Liveness.

(** ** A run of the direct phase is a sequence of steps *)

Section steps.
Context {F : Type} `{!PriceFeed F}.
Implicit Types b : OrderBook F.

(** A step on some pair of two different tokens. *)
Definition any_step (s s' : OrderBook F * gset OrderId) : Prop := ∃ p : Pair, p.1 ≠ p.2 ∧ direct_step p s s'.

Lemma match_user_orders_steps fuel r l p r' :
  book_inv (run_book r) l → p.1 ≠ p.2 → match_user_orders fuel r p.1 p.2 = Some r' →
  rtc any_step (run_book r, run_filled r) (run_book r', run_filled r').
Proof.
  intros Hb Hp. revert r l Hb. induction fuel as [|fuel IH]; intros r l Hb; simpl; [done|].
  destruct (match_best r p.1 p.2) as [r1 again] eqn:Hm. destruct again.
  - apply (match_best_true r p r1 l) in Hm as [Hs _]; [|done]. intros Hr.
    destruct (direct_step_turn p _ _ _ _ l Hb Hs) as (ox & oy & res & s & v & Ht & _).
    eapply rtc_l; [by exists p|]. by apply (IH r1 _ (tu_inv _ _ _ _ _ _ _ _ _ Ht)).
  - apply (match_best_false r p r1 l) in Hm as [-> _]; [|done..]. by intros [= <-].
Qed.

Lemma any_steps_progress s s' l : rtc any_step s s' → book_inv s.1 l → progress l s s'.
Proof.
  intros Hs. revert l. induction Hs as [s|[b f] [b1 f1] s2 (p & _ & Hst) _ IH]; intros l Hb; simpl in *.
  - by apply progress_refl.
  - destruct (direct_step_turn p _ _ _ _ l Hb Hst) as (ox & oy & r & s & v & Ht & ->).
    pose proof (turn_progress_all _ _ _ _ f _ _ _ _ _ Hb Ht) as Hp1.
    eapply progress_trans; [exact Hp1|]. apply IH, Hp1.
Qed.

Lemma match_pairs_steps fuel pairs r l r' :
  book_inv (run_book r) l → (∀ p, p ∈ pairs → p.1 ≠ p.2) → match_pairs fuel pairs r = Some r' →
  rtc any_step (run_book r, run_filled r) (run_book r', run_filled r').
Proof.
  revert r l. induction pairs as [|[x y] pairs IH]; intros r l Hb Hne; simpl; [by intros [= <-]|].
  destruct (match_user_orders fuel _ x y) as [r1|] eqn:E1; [|done]. simpl. intros E2.
  pose proof (match_user_orders_steps fuel (mk_run (run_book r) (run_filled r) 0) l (x, y) r1 Hb
    ltac:(apply Hne; set_solver) E1) as Hs1. simpl in Hs1.
  pose proof (any_steps_progress _ _ l Hs1 Hb) as Hp1.
  etrans; [exact Hs1|]. refine (IH (mk_run (run_book r1) (run_filled r1) _) _ (pr_inv _ _ _ Hp1) _ E2).
  intros p Hp. apply Hne. set_solver.
Qed.

(** The greedy phase as the source writes it does nothing but steps. *)
Lemma run_direct_matching_steps `{HI : HashIter} fuel b f l r :
  book_inv b l → run_direct_matching fuel b f = Some r → rtc any_step (b, f) (run_book r, run_filled r).
Proof.
  intros Hb. apply (match_pairs_steps fuel _ (mk_run b f 0) l); [done|].
  intros p (Hlt & _)%(elem_of_collect b l p Hb) Heq. rewrite Heq in Hlt. lia.
Qed.
End steps.

(** ** Every run fills at least two orders, or none *)

Definition coupled (f : gset OrderId) : Prop := f = ∅ ∨ ∃ x y, x ≠ y ∧ x ∈ f ∧ y ∈ f.

Section coupled.
Context {F : Type} `{!PriceFeed F}.

Lemma any_steps_coupled s s' l : rtc (any_step (F := F)) s s' → book_inv s.1 l → coupled s.2 → coupled s'.2.
Proof.
  intros Hs. revert l. induction Hs as [s|[b f] [b1 f1] s2 (p & Hp & Hst) _ IH]; intros l Hb Hc; simpl in *; [done|].
  destruct (direct_step_turn p _ _ _ _ l Hb Hst) as (ox & oy & r & s & v & [(Hx & _) (Hy & _) Px Py _ _ Hi _] & ->).
  apply (IH _ Hi). right. exists (oid ox), (oid oy). split; [|set_solver]. intros E. rewrite E in Hx.
  destruct p as [p1 p2]. simpl in *. congruence.
Qed.

Lemma cycle_steps_coupled s s' : rtc (cycle_step (F := F)) s s' → coupled s.2 → coupled s'.2.
Proof.
  induction 1 as [|? ? ? Hst _ IH]; [done|]. intros Hc. apply IH. inversion Hst as [b f e ab bc ca sim b' f' Hco _ _ _ Hex]; subst.
  destruct (cycle_of_distinct _ _ _ _ _ Hco) as (Hne & _). simpl. right. exists (ce_ab e), (ce_bc e). split; [done|].
  unfold execute_cycle in Hex. destruct (fill_order b _ _) as [b1|]; [|done]. destruct (fill_order b1 _ _) as [b2|]; [|done].
  destruct (fill_order b2 _ _) as [b3|]; [|done]. injection Hex as _ <-. set_solver.
Qed.

Lemma run_coupled `{HI : HashIter} `{CH : CycleHeap} fuel e l e' batch :
  book_inv (book e) l → run fuel e = Some (e', batch) → coupled (filled_orders batch).
Proof.
  intros Hb Hrun. unfold run in Hrun. destruct (run_direct_matching fuel (book e) ∅) as [d|] eqn:Ed; [|done]. simpl in Hrun.
  pose proof (run_direct_matching_steps _ _ _ l _ Hb Ed) as Hs.
  pose proof (any_steps_coupled _ _ l Hs Hb (or_introl eq_refl)) as Hc. pose proof (any_steps_progress _ _ l Hs Hb) as Hp. simpl in Hc, Hp.
  destruct (triangular_enabled e); [|by injection Hrun as _ <-].
  destruct (run_three_edge_cycle fuel _ _) as [t|] eqn:Et; [|done]. injection Hrun as _ <-.
  destruct (run_three_edge_ok (fuel + three_edge_fuel (run_book d) (still_active (run_book d) l)) (run_book d) (run_filled d) _
    (pr_inv _ _ _ Hp) ltac:(simpl; lia)) as (t' & Et' & _ & Ht' & _).
  apply (run_three_edge_cycle_mono _ (fuel + three_edge_fuel (run_book d) (still_active (run_book d) l))) in Et; [|lia].
  rewrite Et' in Et. injection Et as <-. exact (cycle_steps_coupled _ _ Ht' Hc).
Qed.
End coupled.

(** ** Clearable books *)

Definition flip_pair (p : Pair) : Pair := (p.2, p.1).

(** The uniform orders. *)
Record uniform (p : Pair) (o r : Z) (ord : Order) : Prop := {
  un_pair : pair_of ord = p ∨ pair_of ord = flip_pair p;
  un_offered : offered ord = o;
  un_requested : requested ord = r;
  un_whole : requested_remaining ord = r;
}.

Lemma uniform_flip p o r ord : uniform p o r ord → uniform (flip_pair p) o r ord.
Proof. destruct p as [x y]. intros [[?|?] ? ? ?]; split; auto. Qed.

(** Two uniform orders fill each other and leave the spread on both sides. *)
Lemma uniform_match p o r a c :
  0 < r < o → o < two64 → uniform p o r a → uniform p o r c →
  match_with a c = (Some (mk_match_result (o - r) (o - r)), set_remaining a 0, set_remaining c 0).
Proof.
  intros Hr Ho [_ Oa Ra Wa] [_ Oc Rc Wc].
  assert (order_wf a) as Ha by (unfold order_wf; lia). assert (order_wf c) as Hc by (unfold order_wf; lia).
  pose proof (offered_for_full a Ha) as Fa. pose proof (offered_for_full c Hc) as Fc. rewrite Ra, Oa in Fa. rewrite Rc, Oc in Fc.
  unfold match_with, is_active, is_profitable_with, offered_remaining, fill. rewrite Wa, Wc, Oa, Oc, Ra, Rc, Fa.
  rewrite !(proj2 (Z.ltb_lt _ _)) by nia. cbn [negb orb]. rewrite (Z.min_r o r) by lia.
  rewrite (proj2 (Z.eqb_neq r 0)) by lia. rewrite Z.min_id, Fc, (proj2 (Z.eqb_neq o 0)) by lia.
  rewrite (Z.min_r o r), Z.min_id, Fa by lia. rewrite (proj2 (Z.ltb_ge o r)) by lia.
  unfold sat_sub. rewrite !Z.max_r, !Z.sub_diag by lia. done.
Qed.

Section clearing.
Context {F : Type} `{!PriceFeed F}.
Implicit Types b : OrderBook F.

(** The visible orders are uniform, and as many go in one direction as in the other. *)
Record clearable (p : Pair) (o r : Z) b (l : list OrderId) : Prop := {
  cl_inv : book_inv b l;
  cl_uniform : ∀ id ord, visible b id ord → uniform p o r ord;
  cl_even : length (ranked b l p) = length (ranked b l (flip_pair p));
}.

Lemma clearable_flip p o r b l : clearable p o r b l → clearable (flip_pair p) o r b l.
Proof.
  intros [? Hu He]. split; [done| |by destruct p; symmetry].
  intros id ord Hv. by eapply uniform_flip, Hu.
Qed.

Lemma apply_match_orders b x y ox oy res ox' oy' :
  x ≠ y → orders b !! x = Some ox → orders b !! y = Some oy → match_with ox oy = (Some res, ox', oy') →
  orders (apply_match b x y).1 = <[y := oy']> (<[x := ox']> (orders b)).
Proof.
  intros Hne Hx Hy Hm. unfold apply_match. rewrite decide_False, Hx, Hy, Hm by done. cbn [fst].
  rewrite !(proj1 (cleanup_fields _ _)), !(proj1 (add_balance_fields _ _ _)). done.
Qed.

(** A step on the pair itself keeps the book clearable: its two orders leave it together. *)
Lemma step_clearable p o r b f b' f' l :
  0 < r < o → o < two64 → p.1 ≠ p.2 → direct_step p (b, f) (b', f') →
  clearable p o r b l → clearable p o r b' (still_active b' l).
Proof.
  intros Hr Ho Hne Hs [Hb Hu He].
  destruct (direct_step_applied p _ _ _ _ l Hb Hs) as (ox & oy & res & s & v & [Hx Hy Px Py _ Hm Hinv Hf] & _ & Happ).
  pose proof (Hu _ _ Hx) as Ux. pose proof (Hu _ _ Hy) as Uy.
  assert (oid ox ≠ oid oy) as Hid by apply (ma_ne _ _ _ _ _ _ _ _ _ Hm).
  assert (orders b' = <[oid oy := set_remaining oy 0]> (<[oid ox := set_remaining ox 0]> (orders b))) as Hord.
  { change b' with (b', Some res).1. rewrite <-Happ. destruct Hx as [Hx _], Hy as [Hy _].
    by apply (apply_match_orders b _ _ ox oy _ _ _ Hid Hx Hy (uniform_match p o r ox oy Hr Ho Ux Uy)). }
  assert (∀ q i, i ∈ ranked b l q → id_active (orders b') i = true ↔ i ≠ oid ox ∧ i ≠ oid oy) as Hact.
  { intros q i (oi & (Hoi & _ & Hai) & _)%(elem_of_ranked b l q i Hb). rewrite Hord. unfold id_active.
    destruct (decide (i = oid oy)) as [->|]; [rewrite lookup_insert_eq; naive_solver|].
    destruct (decide (i = oid ox)) as [->|]; [rewrite lookup_insert_ne, lookup_insert_eq by done; naive_solver|].
    rewrite !lookup_insert_ne, Hoi by done. naive_solver. }
  assert (∀ q i oi, i ∈ ranked b l q → orders b !! i = Some oi → pair_of oi = q) as Hpair.
  { intros q i oi (oi' & (? & _) & <-)%(elem_of_ranked b l q i Hb) ?. congruence. }
  assert (p ≠ flip_pair p) as Hpf by (destruct p; unfold flip_pair; simpl in *; congruence).
  split; [done| |].
  - intros id ord (Hoi & Hpk & Ha). rewrite Hord in Hoi.
    apply lookup_insert_Some in Hoi as [[_ <-]|[_ Hoi]]; [done|].
    apply lookup_insert_Some in Hoi as [[_ <-]|[_ Hoi]]; [done|].
    apply (Hu id). split_and!; [done| |done]. by rewrite <-(ma_parked _ _ _ _ _ _ _ _ _ Hm).
  - rewrite !(ranked_fills b b' l _ Hb Hf).
    pose proof (NoDup_ranked b l p Hb). pose proof (NoDup_ranked b l (flip_pair p) Hb).
    assert (oid ox ∈ ranked b l p) as Ix by (apply (elem_of_ranked b l _ _ Hb); eauto).
    assert (oid oy ∈ ranked b l (flip_pair p)) as Iy by (apply (elem_of_ranked b l _ _ Hb); eauto).
    apply Nat.succ_inj.
    rewrite (length_filter_drop _ (oid ox) (ranked b l p)), (length_filter_drop _ (oid oy) (ranked b l (flip_pair p))); try done.
    + intros i Hi. rewrite (Hact _ i Hi). split; [tauto|]. intros Hn. split; [|done]. intros ->.
      destruct Hx as [Hox _]. specialize (Hpair _ _ _ Hi Hox). congruence.
    + intros i Hi. rewrite (Hact _ i Hi). split; [tauto|]. intros Hn. split; [done|]. intros ->.
      destruct Hy as [Hoy _]. specialize (Hpair _ _ _ Hi Hoy). rewrite Py in Hpair. by destruct Hpf.
Qed.

Lemma steps_clearable p o r s s' l :
  0 < r < o → o < two64 → rtc any_step s s' → clearable p o r s.1 l → clearable p o r s'.1 (still_active s'.1 l).
Proof.
  intros Hr Ho Hs. revert l. induction Hs as [s|[b f] [b1 f1] s2 (q & Hne & Hst) Htl IH]; intros l Hc; simpl in *.
  { by rewrite still_active_live by apply Hc. }
  destruct (direct_step_turn q _ _ _ _ l (cl_inv _ _ _ _ _ Hc) Hst) as (ox & oy & res & s & v & Ht & _).
  rewrite <-(still_active_trans b1 s2.1); [apply IH|].
  - destruct (un_pair _ _ _ _ (cl_uniform _ _ _ _ _ Hc _ _ (tu_x _ _ _ _ _ _ _ _ _ Ht))) as [Hp|Hp];
      rewrite (tu_px _ _ _ _ _ _ _ _ _ Ht) in Hp; subst q; [by eapply step_clearable|].
    apply clearable_flip in Hc. eapply step_clearable in Hc; [|done..]. apply clearable_flip in Hc. by destruct p.
  - apply (any_steps_progress (b1, f1) s2 _ Htl (tu_inv _ _ _ _ _ _ _ _ _ Ht)).
Qed.

(** A clearable book that is exhausted shows no order. *)
Lemma clearable_exhausted p o r b l :
  0 < r < o → o < two64 → clearable p o r b l → priced b p.1 → priced b p.2 → exhausted b p → l = [].
Proof.
  intros Hr Ho [Hb Hu He] P1 P2 Hex.
  assert (ranked b l p = [] ∧ ranked b l (flip_pair p) = []) as [H1 H2].
  { destruct (ranked b l p) as [|i1 k1] eqn:E1, (ranked b l (flip_pair p)) as [|i2 k2] eqn:E2; try done. exfalso.
    assert (i1 ∈ ranked b l p) as (a & Va & Pa)%(elem_of_ranked b l p i1 Hb) by (rewrite E1; set_solver).
    assert (i2 ∈ ranked b l (flip_pair p)) as (c & Vc & Pc)%(elem_of_ranked b l _ i2 Hb) by (rewrite E2; set_solver).
    destruct (best_order_beats b l i1 a p.1 p.2 Hb Va) as (a' & Ea & Va' & _); [by destruct p|].
    destruct (best_order_beats b l i2 c p.2 p.1 Hb Vc) as (c' & Ec & Vc' & _); [by destruct p|].
    specialize (Hex a' c' Ea Ec P1 P2). by rewrite (uniform_match p o r a' c') in Hex by eauto. }
  destruct l as [|id l]; [done|]. exfalso.
  assert (∃ ord, visible b id ord) as [ord Hv] by (apply (inv_live_iff b (id :: l) id Hb); set_solver).
  assert (∀ q, pair_of ord = q → id ∈ ranked b (id :: l) q) as Hin by (intros q Hq; apply (elem_of_ranked b _ q id Hb); eauto).
  destruct (un_pair _ _ _ _ (Hu id ord Hv)) as [Hq|Hq]; apply Hin in Hq; [rewrite H1 in Hq|rewrite H2 in Hq]; by apply elem_of_nil in Hq.
Qed.

(** ** The engine clears the book *)

Lemma progress_stuck b b' f f' : progress [] (b, f) (b', f') → orders b' = orders b ∧ f' = f.
Proof.
  intros [_ _ Hfill _ _ _ Hlive]. simpl in *.
  assert (orders b' = orders b) as Ho.
  { apply map_eq. intros id. apply dec_stable. intros Hne. by apply Hlive, elem_of_nil in Hne. }
  split; [done|]. apply set_eq. intros id. rewrite Hfill, Ho. tauto.
Qed.

(** What is left of a book all of whose visible orders are gone. *)
Lemma all_filled b b' f l :
  book_inv b l → progress l (b, ∅) (b', f) → still_active b' l = [] →
  (∀ id, id ∈ f ↔ id ∈ l) ∧
  ∀ id ord, visible b id ord → orders b' !! id = Some (set_remaining ord 0).
Proof.
  intros Hb Hp Hnil.
  assert (∀ id ord, visible b id ord → orders b' !! id = Some (set_remaining ord 0)) as Hgone.
  { intros id ord Hv. pose proof (visible_live b l id ord Hb Hv) as Hid. destruct Hv as (Ho & _ & Ha).
    destruct (fills_to_lookup _ _ _ _ (pr_fills _ _ _ Hp) Ho) as (o' & Ho' & rr & -> & Hrr). simpl in Ho'. rewrite Ho'.
    do 2 f_equal. destruct (decide (rr = 0)) as [->|Hne]; [done|]. exfalso.
    assert (id ∈ still_active b' l) as Hs; [|rewrite Hnil in Hs; by apply elem_of_nil in Hs].
    apply list_elem_of_filter. split; [|done]. unfold id_active. rewrite Ho'. apply Z.ltb_lt. simpl. lia. }
  split; [|done]. intros id. rewrite (pr_filled _ _ _ Hp). split.
  - intros [?%not_elem_of_empty|Hne]; [done|]. by apply (pr_live _ _ _ Hp).
  - intros (ord & Hv)%(inv_live_iff b l id Hb). right. simpl. rewrite (Hgone id ord Hv). destruct Hv as (-> & _ & Ha).
    intros [= E]. apply (f_equal requested_remaining) in E. simpl in E. apply Z.ltb_lt in Ha. lia.
Qed.

Lemma run_clears `{HI : HashIter} `{CH : CycleHeap} p o r e l :
  0 < r < o → o < two64 → p.1 ≠ p.2 → clearable p o r (book e) l → priced (book e) p.1 → priced (book e) p.2 →
  ∃ n, ∀ fuel, (n <= fuel)%nat → ∃ e' batch, run fuel e = Some (e', batch) ∧
    progress l (book e, ∅) (book e', filled_orders batch) ∧ still_active (book e') l = [].
Proof.
  intros Hr Ho Hne Hc P1 P2. pose proof (cl_inv _ _ _ _ _ Hc) as Hb.
  destruct (run_direct_matching_ok (length l + 2) (book e) ∅ l Hb ltac:(lia)) as (d & Ed & P & _ & X).
  assert (still_active (run_book d) l = []) as Hnil.
  { pose proof (steps_clearable p o r _ _ l Hr Ho (run_direct_matching_steps _ _ _ l _ Hb Ed) Hc) as Hc'. simpl in Hc'.
    pose proof (pr_feed _ _ _ P) as Ef. simpl in Ef. unfold priced in P1, P2. rewrite <-Ef in P1, P2.
    destruct (N.lt_total p.1 p.2) as [Hlt|[?|Hlt]]; [|done|].
    - exact (clearable_exhausted p o r _ _ Hr Ho Hc' P1 P2 (X p Hlt)).
    - exact (clearable_exhausted (flip_pair p) o r _ _ Hr Ho (clearable_flip _ _ _ _ _ Hc') P2 P1 (X (flip_pair p) Hlt)). }
  exists (length l + 2 + three_edge_fuel (run_book d) (still_active (run_book d) l))%nat. intros fuel Hfuel.
  unfold run. apply (run_direct_matching_mono _ fuel) in Ed; [|lia]. rewrite Ed. simpl.
  destruct (triangular_enabled e); [|by eexists _, _].
  destruct (run_three_edge_ok fuel (run_book d) (run_filled d) _ (pr_inv _ _ _ P) ltac:(simpl; lia)) as (t & -> & _ & _ & Pt).
  eexists _, _. split; [done|]. simpl. split; [by eapply progress_trans|].
  simpl in Pt. rewrite Hnil in Pt. destruct (progress_stuck _ _ _ _ Pt) as [E _].
  unfold still_active in *. by rewrite E.
Qed.
End clearing.

(** ** The tick clears the book *)

Section ticks.
Context `{HI : HashIter} `{CH : CycleHeap}.

(** The notes of a batch that fills the ids of a list completely. *)
Lemma filled_completely (unix : OrderId → Z) t e' filled n (m : gmap OrderId Order) :
  (∀ id, id ∈ filled → is_Some (tk_raw t !! id)) →
  (∀ id, id ∈ filled → ∃ ord, m !! id = Some ord ∧ orders e' !! id = Some (set_remaining ord 0)) →
  Forall (λ f, ∃ ord, m !! fn_note_id f = Some ord ∧ fn_requested_filled f = requested ord)
    (omap (filled_note unix (mk_tracked e' (tk_raw t) (tk_arrivals t))) (hash_iter n filled)).
Proof.
  intros Hraw Hgone. apply Forall_forall. intros f (id & Hid & Hf)%list_elem_of_omap.
  rewrite hash_iter_perm, elem_of_elements in Hid. destruct (Hraw id Hid) as [raw Er], (Hgone id Hid) as (ord & Ho & Ho').
  unfold filled_note in Hf. simpl in Hf. rewrite Er, Ho' in Hf. simpl in Hf. injection Hf as <-. exists ord. simpl.
  split; [done|]. unfold requested_filled. simpl. lia.
Qed.

Lemma internal_match_clears tri i t time p o r l :
  tracked_inv tri t time → ti_exec_open i = true → 0 < r < o → o < two64 → p.1 ≠ p.2 → l ≠ [] →
  let b := set_feed (tk_book t) (watch_feed_from (ti_prices i)) in
  clearable p o r b l → priced b p.1 → priced b p.2 →
  ∃ n, ∀ fuel, (n <= fuel)%nat → ∃ t' eb, internal_match fuel i tri t = Some (t', Some eb, false) ∧
    (∀ id, id ∈ fn_note_id <$> filled_notes eb ↔ id ∈ l) ∧
    Forall (λ f, ∃ ord, orders (tk_book t) !! fn_note_id f = Some ord ∧ fn_requested_filled f = requested ord) (filled_notes eb).
Proof.
  intros Hi Hopen Hr Ho Hne Hl b Hc P1 P2. pose proof (cl_inv _ _ _ _ _ Hc) as Hb.
  destruct (run_clears p o r (mk_engine b tri) l Hr Ho Hne Hc P1 P2) as [n Hn]. exists n. intros fuel Hfuel.
  destruct (Hn fuel Hfuel) as (e' & batch & Er & Hp & Hnil).
  destruct (all_filled b (book e') (filled_orders batch) l Hb Hp Hnil) as [Hids Hgone].
  set (t0 := mk_tracked b (tk_raw t) (tk_arrivals t)).
  assert (tracked_inv tri t0 time) as Hi0 by (destruct Hi; split; try done; simpl; by eexists).
  assert (filled_orders batch ≠ ∅) as Hf.
  { intros E. destruct l as [|id l]; [done|]. specialize (Hids id). rewrite E in Hids. set_solver. }
  destruct (sent_batch_ok tri t0 time l (book e') (filled_orders batch) (ti_unix i) (ti_occasion i) Hi0 Hb Hp Hf) as [Hok Hsent].
  unfold internal_match. rewrite decide_False.
  - fold b. rewrite Er. simpl. rewrite decide_False, Hopen by done. eexists _, _. split; [done|]. simpl. split.
    + intros id. rewrite <-Hids. apply Hsent.
    + apply (filled_completely (ti_unix i) t).
      * intros id (f & -> & Hin)%Hsent%list_elem_of_fmap. destruct (bo_notes _ _ Hok f Hin) as (ord & _ & _ & ? & _). by eexists.
      * intros id (ord & Hv)%Hids%(inv_live_iff b l id Hb). exists ord. split; [apply Hv|by apply Hgone].
  - intros E. destruct l as [|id l]; [done|].
    assert (∃ ord, visible b id ord) as (ord & Hv & _) by (apply (inv_live_iff b (id :: l) id Hb); set_solver).
    simpl in Hv. rewrite E in Hv. done.
Qed.

(** Without partial fills the flow of a token counts the orders of the two directions. *)
Lemma uniform_flow m notes p o r :
  0 < r < o → o < two64 → p.1 ≠ p.2 →
  Forall (λ f, ∃ ord, m !! fn_note_id f = Some ord ∧ uniform p o r ord ∧ fn_requested_filled f = requested ord) notes →
  batch_flow m notes p.1 =
    Z.of_nat (length (pair_ids m p (fn_note_id <$> notes))) * o -
    Z.of_nat (length (pair_ids m (flip_pair p) (fn_note_id <$> notes))) * r.
Proof.
  intros Hr Ho Hne. induction 1 as [|f notes (ord & Hm & Hu & Hf) _ IH]; [done|].
  assert (∀ q, in_pair m q (fn_note_id f) ↔ pair_of ord = q) as Hin by (intros q; unfold in_pair; rewrite Hm; simpl; naive_solver).
  unfold batch_flow, pair_ids in *. cbn [foldr fmap list_fmap]. rewrite IH, Hm. cbn [from_option]. destruct Hu as [Hp Eo Er Ew].
  assert (offered_for ord r = o) as Hfull by (rewrite <-Er, <-Eo; apply offered_for_full; unfold order_wf; lia).
  assert (p ≠ flip_pair p) as Hpf by (destruct p; unfold flip_pair; simpl in *; congruence).
  rewrite Hf, Z.sub_diag. unfold contribution, requested_filled. simpl.
  change (offered_for (set_remaining ord 0)) with (offered_for ord). rewrite Er, Z.sub_0_r, Hfull.
  destruct Hp as [Hp|Hp].
  - rewrite (filter_cons_True (in_pair m p)), (filter_cons_False (in_pair m (flip_pair p))) by (rewrite Hin; congruence).
    rewrite decide_True, decide_False by (destruct p; unfold pair_of in Hp; simpl in *; congruence). simpl. lia.
  - rewrite (filter_cons_False (in_pair m p)), (filter_cons_True (in_pair m (flip_pair p))) by (rewrite Hin; congruence).
    rewrite decide_False, decide_True by (destruct p; unfold pair_of, flip_pair in Hp; simpl in *; congruence). simpl. lia.
Qed.

(** With as many orders each way, every couple leaves its spread in both tokens. *)
Lemma spread_kept p o r (b : Book) l notes :
  0 < r < o → o < two64 → p.1 ≠ p.2 → clearable p o r b l → fn_note_id <$> notes ≡ₚ l →
  Forall (λ f, ∃ ord, orders b !! fn_note_id f = Some ord ∧ uniform p o r ord ∧ fn_requested_filled f = requested ord) notes →
  ∀ tok, tok = p.1 ∨ tok = p.2 → 2 * batch_flow (orders b) notes tok = Z.of_nat (length l) * (o - r).
Proof.
  intros Hr Ho Hne [Hb Hu He] Hperm Hall tok Htok.
  set (c q := length (pair_ids (orders b) q l)).
  assert (∀ q, length (pair_ids (orders b) q (fn_note_id <$> notes)) = c q) as Hlen by (intros q; unfold c, pair_ids; by rewrite Hperm).
  assert (∀ q, length (ranked b l q) = c q) as Hrk by (intros q; unfold c, ranked; by rewrite rate_sort_perm).
  rewrite !Hrk in He.
  assert (length l = c p + c (flip_pair p))%nat as Hsum.
  { unfold c, pair_ids. apply length_filter_split. intros id Hid.
    assert (∃ ord, visible b id ord) as [ord Hv] by (by apply (inv_live_iff b l id Hb)). unfold in_pair. rewrite (proj1 Hv). simpl.
    destruct (un_pair _ _ _ _ (Hu id ord Hv)) as [E|E]; rewrite E; destruct p as [x y]; unfold flip_pair; simpl in *; [left|right]; split; congruence. }
  destruct Htok as [-> | ->].
  - rewrite (uniform_flow _ _ p o r), !Hlen by done. lia.
  - change p.2 with (flip_pair p).1. rewrite (uniform_flow _ _ (flip_pair p) o r), !Hlen; [|done|done|by apply not_eq_sym|].
    + destruct p. unfold flip_pair in *. simpl in *. lia.
    + eapply Forall_impl; [exact Hall|]. intros f (ord & ? & ? & ?). exists ord. split_and!; [done| |done]. by apply uniform_flip.
Qed.

(** No other token is touched. *)
Lemma other_tokens_flow m notes p o r tok :
  Forall (λ f, ∃ ord, m !! fn_note_id f = Some ord ∧ uniform p o r ord ∧ fn_requested_filled f = requested ord) notes →
  tok ≠ p.1 → tok ≠ p.2 → batch_flow m notes tok = 0.
Proof.
  intros Hall H1 H2. induction Hall as [|f notes (ord & Hm & [Hp _ _ _] & _) _ IH]; [done|].
  unfold batch_flow in *. cbn [foldr]. rewrite IH, Hm. cbn [from_option]. unfold contribution. simpl.
  rewrite !decide_False; [done|..]; intros E; destruct Hp as [Hp|Hp]; unfold pair_of, flip_pair in Hp; destruct p; simpl in *; congruence.
Qed.

(** A balanced book clears in one tick.  In every reachable state of the matcher: if, when
    the matching of a tick begins, the visible orders are whole orders of one priced pair,
    all offering [o] and requesting [r < o], as many in one direction as in the other, then
    the tick returns and sends exactly these orders, each filled completely, and of both
    tokens the batch leaves over exactly the spread [o - r] of every couple. *)
Lemma balanced_book_clears s i p o r l :
  matcher_run s → input_ok s i → ti_exec_open i = true →
  0 < r < o → o < two64 → p.1 ≠ p.2 → l ≠ [] →
  clearable p o r (matching_book s i) l → is_Some (ti_prices i !! p.1) → is_Some (ti_prices i !! p.2) →
  ∃ n, ∀ fuel, (n <= fuel)%nat → ∃ out eb,
    tick fuel s i = Some out ∧ to_batch out = Some eb ∧
    batch_ok (entering s i) (filled_notes eb) ∧ fn_note_id <$> filled_notes eb ≡ₚ l ∧
    (∀ f, f ∈ filled_notes eb → fn_requested_filled f = r) ∧
    (∀ tok, tok = p.1 ∨ tok = p.2 →
      2 * batch_flow (orders (tk_book (entering s i))) (filled_notes eb) tok = Z.of_nat (length l) * (o - r)) ∧
    (∀ tok, tok ≠ p.1 → tok ≠ p.2 → batch_flow (orders (tk_book (entering s i))) (filled_notes eb) tok = 0).
Proof.
  intros Hs%matcher_run_inv Hin Hopen Hr Ho Hne Hl Hc P1 P2. destruct (entering_inv s i Hs Hin) as [He _].
  destruct (internal_match_clears _ i _ _ p o r l He Hopen Hr Ho Hne Hl Hc P1 P2) as [n Hn].
  exists n. intros fuel Hfuel. destruct (Hn fuel Hfuel) as (t' & eb & Em & Hids & Hfull).
  destruct (tick_batch_of fuel s i _ _ Em) as (out & Ht & Hb). exists out, eb.
  destruct (tick_result fuel s i out Hs Hin Ht) as [Hst Hgo].
  destruct (to_stopped out); [destruct Hst as (_ & ? & _); [done|congruence]|].
  destruct (ts_batch _ _ _ (Hgo eq_refl) eb Hb) as [Hok _]. pose proof (cl_inv _ _ _ _ _ Hc) as Hinv.
  assert (fn_note_id <$> filled_notes eb ≡ₚ l) as Hperm.
  { apply NoDup_Permutation; [apply (bo_nodup _ _ Hok)|apply (ix_nodup _ _ _ _ _ _ (bi_index _ _ _ Hinv))|done]. }
  assert (Forall (λ f, ∃ ord, orders (tk_book (entering s i)) !! fn_note_id f = Some ord ∧ uniform p o r ord ∧
    fn_requested_filled f = requested ord) (filled_notes eb)) as Hall.
  { apply Forall_forall. intros f Hf. rewrite Forall_forall in Hfull. destruct (Hfull f Hf) as (ord & Hord & Hreq).
    exists ord. split_and!; [done| |done].
    assert (fn_note_id f ∈ l) as (ord' & Hv)%(inv_live_iff _ l _ Hinv) by (apply Hids, list_elem_of_fmap_2, Hf).
    pose proof (proj1 Hv) as Hord'. simpl in Hord'. assert (ord' = ord) as -> by congruence. by eapply cl_uniform. }
  split_and!; [done..| | |].
  - intros f Hf. rewrite Forall_forall in Hall. destruct (Hall f Hf) as (ord & _ & Hu & ->). apply Hu.
  - by apply (spread_kept p o r (matching_book s i) l).
  - intros tok. by apply (other_tokens_flow _ _ p o r).
Qed.

(** The batch of a tick has at least two notes: what one order releases, another received. *)
Lemma tick_coupled fuel s i out eb :
  matcher_run s → input_ok s i → tick fuel s i = Some out → to_batch out = Some eb → (2 <= length (filled_notes eb))%nat.
Proof.
  intros Hs%matcher_run_inv Hin Ht Hb. destruct (entering_inv s i Hs Hin) as [He _].
  rewrite tick_unfold in Ht. destruct (tv_book _ _ _ He) as [l Hl].
  set (tri := triangular_enabled (ms_engine s)) in *. set (t := entering s i) in *.
  assert (∃ t', internal_match fuel i tri t = Some (t', Some eb, false)) as [t' Em].
  { destruct (internal_match fuel i tri t) as [[[t' batch] stopped]|]; [|done]. destruct stopped; [by injection Ht as <-|].
    destruct (match ms_router s with Some _ => _ | None => _ end) as [[b r] c]. injection Ht as <-. simpl in Hb. subst. by eexists. }
  unfold internal_match in Em. case_decide; [done|].
  set (t0 := mk_tracked (set_feed (tk_book t) (watch_feed_from (ti_prices i))) (tk_raw t) (tk_arrivals t)) in *.
  assert (book_inv (tk_book t0) l) as Hl0 by (by apply set_feed_inv).
  assert (tracked_inv tri t0 (tick_now s i)) as Hi0 by (destruct He; split; try done; simpl; by eexists).
  change (set_feed (tk_book t) _) with (tk_book t0) in Em. destruct (run fuel _) as [[e' batch]|] eqn:Er; [|done]. simpl in Em.
  destruct (run_coupled fuel (mk_engine (tk_book t0) tri) l _ _ Hl0 Er) as [?|(x & y & Hne & Hx & Hy)]; [by rewrite decide_True in Em|].
  destruct (decide (filled_orders batch = ∅)) as [?|Hfilled]; [done|]. destruct (ti_exec_open i); [|done]. injection Em as _ <-.
  destruct (run_ok (mk_engine (tk_book t0) tri) l Hl0) as [n Hn]. destruct (Hn (fuel + n)%nat ltac:(lia)) as (e2 & b2 & Er2 & _ & _ & Hp & _).
  rewrite (run_mono fuel (fuel + n) _ _ ltac:(lia) Er) in Er2. injection Er2 as <- <-.
  destruct (sent_batch_ok tri t0 _ l (book e') (filled_orders batch) (ti_unix i) (ti_occasion i) Hi0 Hl0 Hp Hfilled) as [_ Hids].
  cbn [filled_notes]. rewrite <-(length_fmap fn_note_id). change 2%nat with (length [x; y]). apply submseteq_length, NoDup_submseteq.
  - repeat constructor; set_solver.
  - intros id Hid. apply Hids. set_solver.
Qed.
End ticks.
