(* ===== verification/Executor.v ===== *)
(** * The executor (crates/solver/src/executor/executor.rs)

    A batch is turned into the components of one transaction, submitted with bounded
    backoff, and its orders move through their statuses according to the outcome.  The
    replies of the node, the connections and the channel are inputs; [ee_during] stands for
    what other tasks write to the database while the submission runs. *)

From stdpp Require Import option.
From S2P Require Import Prelude.
From S2P Require Import Types.
From S2P Require Import Db.
From S2P Require Import Ingest.
From S2P Require Import SwapEta.

(** ** Constants *)

Definition MAX_RPC_RETRIES : nat := 5.
Definition INITIAL_RPC_BACKOFF : Z := 500.
Definition MAX_RPC_BACKOFF : Z := 30000.

(** ** Submission *)

Inductive SubmitOutcome := Success | RpcExhausted | TxError | BuildFailed | Cancelled.

(** The reply to one submission: accepted, an error wrapped in [RpcError], any other. *)
Inductive SubmitReply := Accepted | RpcErr | OtherErr.

Definition is_transient_rpc_error (r : SubmitReply) : bool := match r with RpcErr => true | _ => false end.

(** What was done: the outcome, the submissions made and the sleeps taken, in ms. *)
Record Submission := mk_submission { su_outcome : SubmitOutcome; su_submits : nat; su_sleeps : list Z }.

Definition after (sleep : Z) (s : Submission) : Submission :=
  mk_submission (su_outcome s) (S (su_submits s)) (sleep :: su_sleeps s).

(** The loop from [attempt] with [retries] more attempts after it: the request is built anew,
    submitted, and a transient error is followed by a sleep that may be cancelled. *)
Fixpoint submit_loop (build_ok : nat → bool) (reply : nat → SubmitReply) (cancelled : nat → bool)
    (retries attempt : nat) (backoff : Z) : Submission :=
  if negb (build_ok attempt) then mk_submission BuildFailed 0 []
  else match reply attempt with
  | Accepted => mk_submission Success 1 []
  | r =>
    if is_transient_rpc_error r then
      match retries with
      | O => mk_submission RpcExhausted 1 []
      | S retries =>
        if cancelled attempt then mk_submission Cancelled 1 []
        else after backoff (submit_loop build_ok reply cancelled retries (S attempt) (Z.min (backoff * 2) MAX_RPC_BACKOFF))
      end
    else mk_submission TxError 1 []
  end.

Definition submit_with_rpc_backoff (build_ok : nat → bool) (reply : nat → SubmitReply) (cancelled : nat → bool) : Submission :=
  submit_loop build_ok reply cancelled MAX_RPC_RETRIES 0 INITIAL_RPC_BACKOFF.

Section executor.
Context `{!Miden}.

(** ** Preparing a batch *)

Inductive PrepareError :=
  | NoteUnreadable
  | NotPswap
  | BadFillAsset
  | BadNoteArgs
  | ExecuteFailed
  | Insolvent (token : TokenId) (deficit : Z)
  | SurplusRange (token : TokenId)
  | BadSurplusAsset (token : TokenId).

(** The input notes with their fill arguments, the expected output recipients and the
    assets that stay with the solver. *)
Record BatchComponents := mk_components {
  bc_input_notes : list (Note * Z);
  bc_output_recipients : list Recipient;
  bc_surplus_assets : list (TokenId * Z);
}.

Definition note_asset_amount (note : Note) : Z := default 0 (note_first_fungible note).

(** [*flow.entry(t).or_default() += v] *)
Definition flow_add (t : TokenId) (v : Z) (flow : gmap TokenId Z) : gmap TokenId Z :=
  <[t := default 0 (flow !! t) + v]> flow.

Record Prepared := mk_prepared {
  pp_inputs : list (Note * Z);
  pp_recipients : list Recipient;
  pp_notes : list Note;
  pp_flow : gmap TokenId Z;
}.

(** One note of the batch. *)
Definition prepare_filled (solver_id : N) (acc : Prepared) (filled : FilledNote) : PrepareError + Prepared :=
  match note_read (fn_raw filled) with
  | None => inl NoteUnreadable
  | Some note =>
    match pswap_try_from note with
    | None => inl NotPswap
    | Some pswap =>
      let offered_token := pswap_offered_token pswap in
      let requested_token := pswap_requested_token pswap in
      let flow := flow_add offered_token (pswap_offered_amount pswap) (pp_flow acc) in
      if negb (fungible_asset_ok requested_token (fn_requested_filled filled)) then inl BadFillAsset
      else if negb (pswap_args_ok (fn_requested_filled filled)) then inl BadNoteArgs
      else
        let inputs := pp_inputs acc ++ [(note, fn_requested_filled filled)] in
        let notes := pp_notes acc ++ [note] in
        match pswap_execute pswap solver_id requested_token (fn_requested_filled filled) with
        | None => inl ExecuteFailed
        | Some (p2id, remainder) =>
          let flow := flow_add requested_token (- note_asset_amount p2id) flow in
          let recipients := pp_recipients acc ++ [note_recipient p2id] in
          match remainder with
          | None => inr (mk_prepared inputs recipients notes flow)
          | Some rem_pswap =>
            let rem_note := note_from_pswap rem_pswap in
            inr (mk_prepared inputs (recipients ++ [note_recipient rem_note]) notes
                   (flow_add offered_token (- note_asset_amount rem_note) flow))
          end
        end
    end
  end.

Fixpoint prepare_all (solver_id : N) (acc : Prepared) (notes : list FilledNote) : PrepareError + Prepared :=
  match notes with
  | [] => inr acc
  | f :: rest =>
    match prepare_filled solver_id acc f with
    | inl e => inl e
    | inr acc => prepare_all solver_id acc rest
    end
  end.

(** The surplus of every token, in the order the flow map is iterated. *)
Fixpoint surplus_assets (flow : gmap TokenId Z) (tokens : list TokenId) : PrepareError + list (TokenId * Z) :=
  match tokens with
  | [] => inr []
  | t :: rest =>
    let net := default 0 (flow !! t) in
    if net <? 0 then inl (Insolvent t (Z.abs net))
    else if 0 <? net then
      if negb (net <? two64) then inl (SurplusRange t)
      else if negb (fungible_asset_ok t net) then inl (BadSurplusAsset t)
      else match surplus_assets flow rest with
           | inl e => inl e
           | inr assets => inr ((t, net) :: assets)
           end
    else surplus_assets flow rest
  end.

Definition prepare_batch_components `{HashIter} (n : N) (batch : ExecutionBatch) (solver_id : N)
    : PrepareError + (BatchComponents * list Note) :=
  match prepare_all solver_id (mk_prepared [] [] [] ∅) (filled_notes batch) with
  | inl e => inl e
  | inr p =>
    match surplus_assets (pp_flow p) (hash_iter n (dom (pp_flow p))) with
    | inl e => inl e
    | inr assets => inr (mk_components (pp_inputs p) (pp_recipients p) assets, pp_notes p)
    end
  end.

(** ** Handing orders back to the matcher *)

Definition rebuild_ingest_order (filled : FilledNote) (note : Note) : option IngestOrder :=
  parsed ← from_note note;
  Some (mk_ingest (fn_note_id filled) (po_offered_faucet parsed) (po_requested_faucet parsed)
          (po_offered_amount parsed) (po_requested_amount parsed) (fn_raw filled)).

Definition rebuild_all_orders (batch : ExecutionBatch) (input_notes : list Note) : option (list IngestOrder) :=
  collect_ok (λ p, rebuild_ingest_order p.1 p.2) (zip (filled_notes batch) input_notes).

(** The sends to the matcher, up to the first failure. *)
Fixpoint refeed_orders (is_open : nat → bool) (i : nat) (orders : list IngestOrder) : list IngestOrder :=
  match orders with
  | [] => []
  | o :: rest => if is_open i then o :: refeed_orders is_open (S i) rest else []
  end.

(** The ids that are consumed, those that are not, and the orders of the latter. *)
Fixpoint classify (consumed : gset OrderId) (l : list (FilledNote * Note))
    : option (list Bytes * list Bytes * list IngestOrder) :=
  match l with
  | [] => Some ([], [], [])
  | (filled, note) :: rest =>
    let bytes := id_bytes (fn_note_id filled) in
    if decide (fn_note_id filled ∈ consumed) then
      r ← classify consumed rest; Some (bytes :: r.1.1, r.1.2, r.2)
    else
      o ← rebuild_ingest_order filled note;
      r ← classify consumed rest; Some (r.1.1, bytes :: r.1.2, o :: r.2)
  end.

Definition classify_input_notes (heights : gset N → option (gmap N (option N))) (batch : ExecutionBatch)
    (input_notes : list Note) : option (list Bytes * list Bytes * list IngestOrder) :=
  consumed ← check_consumed_notes heights input_notes;
  classify consumed (zip (filled_notes batch) input_notes).

(** ** Executing a batch *)

Record ExecEnv := mk_exec_env {
  ee_settling_conn : bool;
  ee_final_conn : bool;
  ee_build_ok : nat → bool;
  ee_reply : nat → SubmitReply;
  ee_cancelled : nat → bool;
  ee_heights : gset N → option (gmap N (option N));
  ee_order_open : nat → bool;
  ee_during : Db → Db;
}.

Inductive ExecResult :=
  | Settled
  | PrepareFailed (e : PrepareError)
  | NoConnection
  | ClassifyFailed
  | SubmitFailed (o : SubmitOutcome).

(** The database, the orders handed back to the matcher and the result. *)
Record ExecOut := mk_exec_out { eo_db : Db; eo_refed : list IngestOrder; eo_result : ExecResult }.

(** [revert_to_active]: best effort. *)
Definition revert_to_active (conn : bool) (d : Db) (ids : list Bytes) : Db :=
  if conn then (update_orders_status d ids Active).1 else d.

(** The two paths on which the transaction cannot have landed. *)
Definition revert_and_refeed (env : ExecEnv) (d : Db) (ids : list Bytes) (batch : ExecutionBatch)
    (notes : list Note) (o : SubmitOutcome) : ExecOut :=
  mk_exec_out (revert_to_active (ee_final_conn env) d ids)
    (match rebuild_all_orders batch notes with
     | Some orders => refeed_orders (ee_order_open env) 0 orders
     | None => []
     end) (SubmitFailed o).

(** The path of a rejected transaction. *)
Definition classify_and_refeed (env : ExecEnv) (d : Db) (batch : ExecutionBatch) (notes : list Note) : ExecOut :=
  match classify_input_notes (ee_heights env) batch notes with
  | None => mk_exec_out d [] ClassifyFailed
  | Some (consumed_bytes, active_bytes, active_orders) =>
    if ee_final_conn env then
      let d := match consumed_bytes with [] => d | _ => (mark_orders_onchain_nullified d consumed_bytes).1 end in
      let d := match active_bytes with [] => d | _ => (update_orders_status d active_bytes Active).1 end in
      mk_exec_out d (refeed_orders (ee_order_open env) 0 active_orders) (SubmitFailed TxError)
    else mk_exec_out d [] NoConnection
  end.

(** What happens once the outcome of the submission is known. *)
Definition exec_finish (env : ExecEnv) (d : Db) (batch : ExecutionBatch) (input_notes : list Note) : ExecOut :=
  let ids := (λ f, id_bytes (fn_note_id f)) <$> filled_notes batch in
  match su_outcome (submit_with_rpc_backoff (ee_build_ok env) (ee_reply env) (ee_cancelled env)) with
  | Success =>
    if ee_final_conn env then mk_exec_out (update_orders_status d ids Executed).1 [] Settled
    else mk_exec_out d [] NoConnection
  | RpcExhausted => revert_and_refeed env d ids batch input_notes RpcExhausted
  | BuildFailed => revert_and_refeed env d ids batch input_notes BuildFailed
  | Cancelled => mk_exec_out d [] (SubmitFailed Cancelled)
  | TxError => classify_and_refeed env d batch input_notes
  end.

Definition execute_batch `{HashIter} (n : N) (solver_id : N) (env : ExecEnv) (d : Db) (batch : ExecutionBatch) : ExecOut :=
  match prepare_batch_components n batch solver_id with
  | inl e => mk_exec_out d [] (PrepareFailed e)
  | inr (_, input_notes) =>
    let ids := (λ f, id_bytes (fn_note_id f)) <$> filled_notes batch in
    if negb (ee_settling_conn env) then mk_exec_out d [] NoConnection
    else exec_finish env (ee_during env (update_orders_status d ids Settling).1) batch input_notes
  end.

(** ** The loop of the task *)

(** One note of a settled batch: its duration goes to the window of its pair; a note that
    does not parse is skipped. *)
Definition record_filled (now : Z) (acc : gmap Pair (list Sample) * bool) (filled : FilledNote)
    : gmap Pair (list Sample) * bool :=
  match note_read (fn_raw filled) ≫= from_note with
  | None => acc
  | Some parsed =>
    (record acc.1 (po_offered_faucet parsed, po_requested_faucet parsed) now (now ∸ fn_arrival filled), true)
  end.

(** The window and whether it is published. *)
Definition record_settlement (now : Z) (batch : ExecutionBatch) (stats : gmap Pair (list Sample))
    : gmap Pair (list Sample) * bool :=
  foldl (record_filled now) (stats, false) (filled_notes batch).

(** One turn of [run_executor]: an empty batch is skipped, a settled one is recorded. *)
Definition executor_turn `{HashIter} (n : N) (solver_id : N) (env : ExecEnv) (now : Z) (batch : ExecutionBatch)
    (s : Db * gmap Pair (list Sample)) : (Db * gmap Pair (list Sample)) * list IngestOrder :=
  match filled_notes batch with
  | [] => (s, [])
  | _ =>
    let out := execute_batch n solver_id env s.1 batch in
    let stats := match eo_result out with Settled => (record_settlement now batch s.2).1 | _ => s.2 end in
    ((eo_db out, stats), eo_refed out)
  end.
End executor.
