(* ===== verification/ExecutorTheorems.v ===== *)
(** * The executor: theorems

    What the PSWAP library documents of a fill is the class [PswapLaws]; under it the
    per-token flow the executor computes is exactly the flow of the batch in the matcher's
    terms, so that the executor rejects exactly the insolvent batches and, without the
    triangular phase, none of the matcher's.  The submission loop is bounded and stops at
    the first definite reply, and each outcome moves the orders to the status the code
    promises and hands back the orders it must. *)

From stdpp Require Import option.
From S2P Require Import Prelude.
From S2P Require Import Orders.
From S2P Require Import OrderBook.
From S2P Require Import BookInvariant.
From S2P Require Import BookQueries.
From S2P Require Import Fills.
From S2P Require Import ThreeEdgeCycle.
From S2P Require Import Engine.
From S2P Require Import Types.
From S2P Require Import Db.
From S2P Require Import Ingest.
From S2P Require Import Matcher.
From S2P Require Import MatcherProofs.
From S2P Require Import MatcherTheorems.
From S2P Require Import Executor.

(** ** What the PSWAP library documents *)

(** A fill within the request pays exactly the fill to the creator; a partial one leaves
    a remainder that holds the offer less [offered * fill / requested]. *)
Class PswapLaws `{!Miden} : Prop :=
  execute_pays : ∀ p solver fill, 0 < fill <= pswap_requested_amount p →
    ∃ p2id remainder, pswap_execute p solver (pswap_requested_token p) fill = Some (p2id, remainder) ∧
      note_first_fungible p2id = Some fill ∧
      match remainder with
      | None => fill = pswap_requested_amount p
      | Some rem => note_first_fungible (note_from_pswap rem) =
          Some (pswap_offered_amount p - pswap_offered_amount p * fill / pswap_requested_amount p)
      end.

(** ** Preparation *)

Section prepare.
Context `{!Miden} `{!PswapLaws}.

(** The bytes of a note are those of a PSWAP note with the terms of the order. *)
Definition decodes (raw : Bytes) (o : Order) : Prop :=
  ∃ note p, note_read raw = Some note ∧ pswap_try_from note = Some p ∧
    pswap_offered_token p = offered_token o ∧ pswap_offered_amount p = offered o ∧
    pswap_requested_token p = requested_token o ∧ pswap_requested_amount p = requested o.

(** A note of a batch: it decodes to its order, and its fill is within the order and an
    admissible asset amount. *)
Definition fillable (m : gmap OrderId Order) (f : FilledNote) : Prop :=
  ∃ o, m !! fn_note_id f = Some o ∧ order_wf o ∧ decodes (fn_raw f) o ∧
    0 < fn_requested_filled f <= requested o ∧
    fungible_asset_ok (requested_token o) (fn_requested_filled f) = true ∧
    pswap_args_ok (fn_requested_filled f) = true.

Lemma flow_add_lookup t v flow t' :
  default 0 (flow_add t v flow !! t') = default 0 (flow !! t') + (if decide (t = t') then v else 0).
Proof.
  unfold flow_add. case_decide as Ht; [subst; by rewrite lookup_insert_eq|]. rewrite lookup_insert_ne by done. lia.
Qed.

(** What one note adds to the flow, and to the notes. *)
Lemma prepare_filled_flow solver acc m f :
  fillable m f →
  ∃ p note, prepare_filled solver acc f = inr p ∧ note_read (fn_raw f) = Some note ∧
    pp_notes p = pp_notes acc ++ [note] ∧ pp_inputs p = pp_inputs acc ++ [(note, fn_requested_filled f)] ∧
    ∀ tok, default 0 (pp_flow p !! tok) = default 0 (pp_flow acc !! tok) + batch_flow m [f] tok.
Proof.
  intros (o & Ho & Hwf & (note & p & Hn & Hp & Hot & Hoa & Hrt & Hra) & Hfill & Hasset & Hargs).
  destruct (execute_pays p solver (fn_requested_filled f)) as (p2id & remainder & Hex & Hpay & Hrem); [lia|].
  assert (∀ tok, contribution tok (set_remaining o (requested o - fn_requested_filled f)) =
    (if decide (offered_token o = tok) then offered o * fn_requested_filled f / requested o else 0) -
    (if decide (requested_token o = tok) then fn_requested_filled f else 0)) as Hc.
  { intros tok. unfold contribution, requested_filled. simpl.
    replace (requested o - (requested o - fn_requested_filled f)) with (fn_requested_filled f) by lia.
    rewrite <-(proj1 (offered_for_exact o (fn_requested_filled f) Hwf ltac:(lia))). done. }
  unfold prepare_filled. rewrite Hn, Hp, Hrt, Hasset, Hargs. simpl. rewrite Hrt in Hex. rewrite Hex.
  assert (note_asset_amount p2id = fn_requested_filled f) as Hpa by (unfold note_asset_amount; by rewrite Hpay).
  rewrite Hoa, Hra in Hrem.
  destruct remainder as [rem|]; eexists _, note; (split_and!; [done..|]); intros tok; unfold batch_flow; simpl;
    rewrite Ho; simpl; rewrite Hc, !flow_add_lookup, Hpa, Hot, Hoa, Z.add_0_r.
  - unfold note_asset_amount. rewrite Hrem. simpl. repeat case_decide; lia.
  - pose proof Hwf as (_ & ? & _). rewrite Hrem, Z.div_mul by lia. repeat case_decide; lia.
Qed.

Lemma batch_flow_cons m f notes tok : batch_flow m (f :: notes) tok = batch_flow m [f] tok + batch_flow m notes tok.
Proof. unfold batch_flow. simpl. lia. Qed.

(** The whole batch: the flow is the flow of the batch, the input notes are its notes. *)
Lemma prepare_all_flow solver m notes acc :
  Forall (fillable m) notes →
  ∃ p read, prepare_all solver acc notes = inr p ∧
    Forall2 (λ f note, note_read (fn_raw f) = Some note) notes read ∧
    pp_notes p = pp_notes acc ++ read ∧
    pp_inputs p = pp_inputs acc ++ zip read (fn_requested_filled <$> notes) ∧
    ∀ tok, default 0 (pp_flow p !! tok) = default 0 (pp_flow acc !! tok) + batch_flow m notes tok.
Proof.
  intros Hf. revert acc. induction Hf as [|f notes Hf _ IH]; intros acc.
  { exists acc, []. simpl. rewrite !app_nil_r. split_and!; try done. intros tok. unfold batch_flow. simpl. lia. }
  destruct (prepare_filled_flow solver acc m f Hf) as (p1 & note & E1 & Hn & Hnotes & Hin & Hfl).
  destruct (IH p1) as (p2 & read & E2 & Hr & Hnotes2 & Hin2 & Hfl2). exists p2, (note :: read).
  cbn [prepare_all]. rewrite E1. split_and!; [done|by constructor|by rewrite Hnotes2, Hnotes, <-app_assoc|
    by rewrite Hin2, Hin, <-app_assoc|]. intros tok. rewrite Hfl2, Hfl, (batch_flow_cons m f notes). lia.
Qed.

(** Positive nets are representable as assets. *)
Definition representable (net : TokenId → Z) : Prop :=
  ∀ tok, 0 < net tok → net tok < two64 ∧ fungible_asset_ok tok (net tok) = true.

Lemma surplus_assets_spec flow tokens :
  representable (λ tok, default 0 (flow !! tok)) →
  match surplus_assets flow tokens with
  | inr assets => (∀ t, t ∈ tokens → 0 <= default 0 (flow !! t)) ∧
      assets = (λ t, (t, default 0 (flow !! t))) <$> filter (λ t, 0 < default 0 (flow !! t)) tokens
  | inl e => ∃ t, t ∈ tokens ∧ default 0 (flow !! t) < 0 ∧ e = Insolvent t (- default 0 (flow !! t))
  end.
Proof.
  intros Hrep. induction tokens as [|t tokens IH]; simpl; [split; [by intros t ?%elem_of_nil|done]|].
  set (net := default 0 (flow !! t)). destruct (Z.ltb_spec net 0) as [Hneg|Hpos].
  { exists t. split_and!; [by left|done|]. f_equal. lia. }
  rewrite filter_cons. fold net. destruct (Z.ltb_spec 0 net) as [Hp|Hz].
  - destruct (Hrep t Hp) as [Hr Ha]. fold net in Hr, Ha. rewrite Ha, decide_True by done.
    rewrite (proj2 (Z.ltb_lt _ _) Hr). simpl. destruct (surplus_assets flow tokens) as [e|assets].
    + destruct IH as (t' & ? & ? & ?). exists t'. split_and!; [by right|done..].
    + destruct IH as [IH ->]. split; [|done]. intros t' [->|?]%elem_of_cons; [done|auto].
  - rewrite decide_False by lia. destruct (surplus_assets flow tokens) as [e|assets].
    + destruct IH as (t' & ? & ? & ?). exists t'. split_and!; [by right|done..].
    + destruct IH as [IH ->]. split; [|done]. intros t' [->|?]%elem_of_cons; [done|auto].
Qed.

(** The result of preparing a batch whose notes are fillable. *)
Lemma prepare_spec `{HashIter} n solver m batch :
  Forall (fillable m) (filled_notes batch) →
  representable (batch_flow m (filled_notes batch)) →
  match prepare_batch_components n batch solver with
  | inr (c, notes) => (∀ tok, 0 <= batch_flow m (filled_notes batch) tok) ∧
      Forall2 (λ f note, note_read (fn_raw f) = Some note) (filled_notes batch) notes ∧
      bc_input_notes c = zip notes (fn_requested_filled <$> filled_notes batch) ∧
      ∀ tok v, (tok, v) ∈ bc_surplus_assets c ↔ v = batch_flow m (filled_notes batch) tok ∧ 0 < v
  | inl e => ∃ tok, batch_flow m (filled_notes batch) tok < 0 ∧
      e = Insolvent tok (- batch_flow m (filled_notes batch) tok)
  end.
Proof.
  intros Hf Hrep. unfold prepare_batch_components.
  destruct (prepare_all_flow solver m (filled_notes batch) (mk_prepared [] [] [] ∅) Hf)
    as (p & read & -> & Hread & Hnotes & Hin & Hflow). simpl in Hnotes, Hin.
  assert (∀ tok, default 0 (pp_flow p !! tok) = batch_flow m (filled_notes batch) tok) as Hfl
    by (intros tok; rewrite Hflow; simpl; rewrite lookup_empty; simpl; lia).
  pose proof (surplus_assets_spec (pp_flow p) (hash_iter n (dom (pp_flow p)))) as Hs.
  destruct (surplus_assets _ _) as [e|assets].
  - destruct Hs as (t & _ & Hneg & ->); [intros tok; rewrite Hfl; apply Hrep|]. exists t. rewrite Hfl in Hneg |- *. done.
  - destruct Hs as [Hpos ->]; [intros tok; rewrite Hfl; apply Hrep|]. split_and!; [|by rewrite Hnotes|by simpl; rewrite Hin, Hnotes|].
    + intros tok. rewrite <-Hfl. destruct (pp_flow p !! tok) as [v|] eqn:Hv; [|done]. simpl.
      specialize (Hpos tok). rewrite hash_iter_perm, elem_of_elements, elem_of_dom, Hv in Hpos. apply Hpos. by eexists.
    + intros tok v. simpl. rewrite list_elem_of_fmap. split.
      * intros (t & [= <- ->] & [Ht _]%list_elem_of_filter). by rewrite <-Hfl.
      * intros [-> Hv]. exists tok. rewrite Hfl. split; [done|]. apply list_elem_of_filter. rewrite Hfl. split; [done|].
        rewrite hash_iter_perm, elem_of_elements, elem_of_dom. rewrite <-Hfl in Hv.
        destruct (pp_flow p !! tok); [by eexists|simpl in Hv; lia].
Qed.
End prepare.

(** ** Submission *)

(** The sleeps of [n] consecutive transient errors. *)
Fixpoint delays (n : nat) (backoff : Z) : list Z :=
  match n with
  | O => []
  | S n => backoff :: delays n (Z.min (backoff * 2) MAX_RPC_BACKOFF)
  end.

Lemma submit_loop_spec build_ok reply cancelled retries attempt backoff :
  let s := submit_loop build_ok reply cancelled retries attempt backoff in
  let k := length (su_sleeps s) in
  (k <= retries)%nat ∧ su_sleeps s = delays k backoff ∧
  su_submits s = (k + match su_outcome s with BuildFailed => 0 | _ => 1 end)%nat ∧
  (∀ j, (j < k)%nat → build_ok (attempt + j)%nat = true ∧ reply (attempt + j)%nat = RpcErr ∧
     cancelled (attempt + j)%nat = false) ∧
  match su_outcome s with
  | Success => build_ok (attempt + k)%nat = true ∧ reply (attempt + k)%nat = Accepted
  | TxError => build_ok (attempt + k)%nat = true ∧ reply (attempt + k)%nat = OtherErr
  | RpcExhausted => k = retries ∧ build_ok (attempt + k)%nat = true ∧ reply (attempt + k)%nat = RpcErr
  | Cancelled => (k < retries)%nat ∧ reply (attempt + k)%nat = RpcErr ∧ cancelled (attempt + k)%nat = true
  | BuildFailed => build_ok (attempt + k)%nat = false
  end.
Proof.
  revert attempt backoff. induction retries as [|retries IH]; intros attempt backoff; cbn [submit_loop];
    (destruct (build_ok attempt) eqn:Hb; cbn [negb];
      [|simpl; rewrite Nat.add_0_r; split_and!; [lia|done..|lia|done]]);
    destruct (reply attempt) eqn:Hr; cbn [is_transient_rpc_error];
    try (simpl; rewrite Nat.add_0_r; split_and!; (done || lia)).
  destruct (cancelled attempt) eqn:Hc; [simpl; rewrite Nat.add_0_r; split_and!; (done || lia)|].
  destruct (IH (S attempt) (Z.min (backoff * 2) MAX_RPC_BACKOFF)) as (H1 & H2 & H3 & H4 & H5).
  set (s := submit_loop _ _ _ _ _ _) in *. unfold after. cbn [su_sleeps su_submits su_outcome length].
  rewrite Nat.add_succ_r. rewrite Nat.add_succ_l in H5. split_and!; [lia|by rewrite H2 at 1|lia| |].
  - intros [|j] Hj; [by rewrite Nat.add_0_r|]. rewrite Nat.add_succ_r. apply H4. lia.
  - destruct (su_outcome s); try done; destruct H5; (split; [lia|done]).
Qed.

(** ** Handing back *)

Section refeed.
Context `{!Miden}.

Lemma refeed_open is_open i orders : (∀ i, is_open i = true) → refeed_orders is_open i orders = orders.
Proof. intros Ho. revert i. induction orders as [|o orders IH]; intros i; simpl; [done|]. by rewrite Ho, IH. Qed.

(** The order the matcher gets back has the terms of its note and its bytes. *)
Lemma rebuild_decodes m f note :
  fillable m f → note_read (fn_raw f) = Some note →
  ∃ o, m !! fn_note_id f = Some o ∧ rebuild_ingest_order f note =
    Some (mk_ingest (fn_note_id f) (offered_token o) (requested_token o) (offered o) (requested o) (fn_raw f)).
Proof.
  intros (o & Ho & (Hoff & Hreq & _) & (note' & p & Hn & Hp & Hot & Hoa & Hrt & Hra) & _) Hn'. simplify_eq.
  exists o. split; [done|]. unfold rebuild_ingest_order, from_note. rewrite Hp. simpl.
  rewrite Hoa, Hra, !(proj2 (Z.eqb_neq _ _)) by lia. simpl. by rewrite Hot, Hrt.
Qed.

(** The orders of a batch as ingest would send them. *)
Definition original (m : gmap OrderId Order) (f : FilledNote) : option IngestOrder :=
  o ← m !! fn_note_id f;
  Some (mk_ingest (fn_note_id f) (offered_token o) (requested_token o) (offered o) (requested o) (fn_raw f)).

Lemma rebuild_all_original m batch notes :
  Forall (fillable m) (filled_notes batch) →
  Forall2 (λ f note, note_read (fn_raw f) = Some note) (filled_notes batch) notes →
  rebuild_all_orders batch notes = Some (omap (original m) (filled_notes batch)).
Proof.
  unfold rebuild_all_orders. intros Hf H2. induction H2 as [|f note fs notes Hn H2 IH]; [done|].
  apply Forall_cons in Hf as [Hf Hfs]. destruct (rebuild_decodes m f note Hf Hn) as (o & Ho & Hr).
  simpl. rewrite Hr. simpl. rewrite IH by done. simpl. unfold original at 2. by rewrite Ho.
Qed.

(** The partition of a batch by the consumed ids. *)
Lemma classify_original m fs notes consumed :
  Forall (fillable m) fs → Forall2 (λ f note, note_read (fn_raw f) = Some note) fs notes →
  classify consumed (zip fs notes) =
    Some ((λ f, id_bytes (fn_note_id f)) <$> filter (λ f, fn_note_id f ∈ consumed) fs,
          (λ f, id_bytes (fn_note_id f)) <$> filter (λ f, fn_note_id f ∉ consumed) fs,
          omap (original m) (filter (λ f, fn_note_id f ∉ consumed) fs)).
Proof.
  intros Hf H2. induction H2 as [|f note fs notes Hn H2 IH]; [done|].
  apply Forall_cons in Hf as [Hf Hfs]. destruct (rebuild_decodes m f note Hf Hn) as (o & Ho & Hr).
  simpl. rewrite !filter_cons. destruct (decide (fn_note_id f ∈ consumed)) as [Hc|Hc].
  - rewrite IH by done. rewrite (decide_False (P := _ ∉ _)) by tauto. done.
  - rewrite Hr. simpl. rewrite IH by done. rewrite (decide_True (P := _ ∉ _)) by tauto. simpl.
    unfold original at 2. by rewrite Ho.
Qed.
End refeed.

(** ** Statuses *)

Lemma statuses_lookup d ids s k :
  db_orders (update_orders_status d ids s).1 !! k =
  (λ r, if decide (k ∈ ids) then with_status r s else r) <$> db_orders d !! k.
Proof.
  unfold update_orders_status. rewrite update_where_lookup. destruct (db_orders d !! k); [|done]. simpl.
  case_bool_decide; case_decide; done.
Qed.

Lemma nullified_lookup d ids k :
  db_orders (mark_orders_onchain_nullified d ids).1 !! k =
  (λ r, if decide (k ∈ ids) then if has_status Active r || has_status Settling r
        then with_status r OnchainNullified else r else r) <$> db_orders d !! k.
Proof.
  unfold mark_orders_onchain_nullified. rewrite update_where_lookup. destruct (db_orders d !! k); [|done]. simpl.
  case_bool_decide; case_decide; done.
Qed.

Section outcomes.
Context `{!Miden} `{!PswapLaws} `{HashIter}.

(** The keys of the orders of a batch. *)
Definition batch_keys (fs : list FilledNote) : list Bytes := (λ f, id_bytes (fn_note_id f)) <$> fs.

(** The database when the outcome of the submission is known. *)
Definition at_outcome (env : ExecEnv) (d : Db) (batch : ExecutionBatch) : Db :=
  ee_during env (update_orders_status d (batch_keys (filled_notes batch)) Settling).1.

(** What the environment of a batch gives when nothing but the node can fail. *)
Record env_ok (env : ExecEnv) : Prop := {
  ek_settling : ee_settling_conn env = true;
  ek_final : ee_final_conn env = true;
  ek_open : ∀ i, ee_order_open env i = true;
}.

(** The new row of an order, by outcome. *)
Definition settled_row (o : SubmitOutcome) (consumed : gset OrderId) (fs : list FilledNote) (k : Bytes) (r : OrderRow)
    : OrderRow :=
  match o with
  | Success => if decide (k ∈ batch_keys fs) then with_status r Executed else r
  | RpcExhausted | BuildFailed => if decide (k ∈ batch_keys fs) then with_status r Active else r
  | Cancelled => r
  | TxError =>
    if decide (k ∈ batch_keys (filter (λ f, fn_note_id f ∉ consumed) fs)) then with_status r Active
    else if decide (k ∈ batch_keys (filter (λ f, fn_note_id f ∈ consumed) fs)) then
      if has_status Active r || has_status Settling r then with_status r OnchainNullified else r
    else r
  end.

(** The orders handed back, by outcome. *)
Definition handed_back (o : SubmitOutcome) (consumed : gset OrderId) (fs : list FilledNote) : list FilledNote :=
  match o with
  | Success | Cancelled => []
  | RpcExhausted | BuildFailed => fs
  | TxError => filter (λ f, fn_note_id f ∉ consumed) fs
  end.

Lemma classify_and_refeed_ok env d m batch notes consumed :
  env_ok env → Forall (fillable m) (filled_notes batch) →
  Forall2 (λ f note, note_read (fn_raw f) = Some note) (filled_notes batch) notes →
  check_consumed_notes (ee_heights env) notes = Some consumed →
  let out := classify_and_refeed env d batch notes in
  eo_result out = SubmitFailed TxError ∧
  eo_refed out = omap (original m) (handed_back TxError consumed (filled_notes batch)) ∧
  ∀ k, db_orders (eo_db out) !! k = settled_row TxError consumed (filled_notes batch) k <$> db_orders d !! k.
Proof.
  intros [_ Hconn Hopen] Hf H2 Hc out. unfold out, classify_and_refeed, classify_input_notes. rewrite Hc. cbn [mbind option_bind].
  rewrite (classify_original m) by done. rewrite Hconn, refeed_open by done.
  split_and!; [done..|]. intros k. cbn [eo_db].
  set (cs := _ <$> filter (λ f, fn_note_id f ∈ consumed) _). set (act := _ <$> filter (λ f, fn_note_id f ∉ consumed) _).
  assert (∀ d', db_orders (match act with [] => d' | _ => (update_orders_status d' act Active).1 end) !! k =
    (λ r, if decide (k ∈ act) then with_status r Active else r) <$> db_orders d' !! k) as ->.
  { intros d'. destruct act eqn:Ha; [|rewrite <-Ha; apply statuses_lookup]. by destruct (db_orders d' !! k). }
  assert (db_orders (match cs with [] => d | _ => (mark_orders_onchain_nullified d cs).1 end) !! k =
    (λ r, if decide (k ∈ cs) then if has_status Active r || has_status Settling r
          then with_status r OnchainNullified else r else r) <$> db_orders d !! k) as ->.
  { destruct cs eqn:Ha; [|rewrite <-Ha; apply nullified_lookup]. by destruct (db_orders d !! k). }
  destruct (db_orders d !! k) as [r|]; [|done]. simpl. f_equal. unfold settled_row, batch_keys. fold cs act.
  destruct (decide (k ∈ act)); [|done]. destruct (decide (k ∈ cs)); [|done]. by destruct (_ || _).
Qed.

(** ** Theorems *)

(** C22. The executor rejects exactly the insolvent batches: for notes that decode to their
    orders, preparation succeeds if and only if no token is owed; the surplus assets are
    then exactly the positive flows, and otherwise the error names a token that is owed
    and the amount. *)
Theorem prepare_rejects_insolvent n solver m batch :
  Forall (fillable m) (filled_notes batch) → representable (batch_flow m (filled_notes batch)) →
  ((∃ c, prepare_batch_components n batch solver = inr c) ↔ ∀ tok, 0 <= batch_flow m (filled_notes batch) tok) ∧
  (∀ c notes, prepare_batch_components n batch solver = inr (c, notes) →
    ∀ tok v, (tok, v) ∈ bc_surplus_assets c ↔ v = batch_flow m (filled_notes batch) tok ∧ 0 < v) ∧
  (∀ e, prepare_batch_components n batch solver = inl e →
    ∃ tok, batch_flow m (filled_notes batch) tok < 0 ∧ e = Insolvent tok (- batch_flow m (filled_notes batch) tok)).
Proof.
  intros Hf Hrep. pose proof (prepare_spec n solver m batch Hf Hrep) as Hs.
  destruct (prepare_batch_components n batch solver) as [e|[c notes]].
  - destruct Hs as (tok & Hneg & ->). split_and!; [|done|intros e' [= <-]; eauto]. split; [by intros [? ?]|].
    intros Hpos. specialize (Hpos tok). lia.
  - destruct Hs as (Hpos & _ & _ & Hsur). split_and!; [split; [done|by eexists]| |done]. by intros c' notes' [= <- <-].
Qed.

End outcomes.

(** Submission is bounded and never repeats a definite reply: at most six submissions and
    five sleeps, of 0.5, 1, 2, 4 and 8 seconds; every reply before the last was a transient
    error; success and rejection are the last reply, and giving up means that all six
    submissions met transient errors. *)
Theorem submission_bounded build_ok reply cancelled :
  let s := submit_with_rpc_backoff build_ok reply cancelled in
  let k := length (su_sleeps s) in
  (su_submits s <= 6)%nat ∧ su_sleeps s = take k [500; 1000; 2000; 4000; 8000] ∧ (k <= 5)%nat ∧
  (∀ j, (j < k)%nat → reply j = RpcErr) ∧
  match su_outcome s with
  | Success => su_submits s = S k ∧ reply k = Accepted
  | TxError => su_submits s = S k ∧ reply k = OtherErr
  | RpcExhausted => su_submits s = 6%nat ∧ ∀ j, (j < 6)%nat → reply j = RpcErr
  | Cancelled => reply k = RpcErr ∧ cancelled k = true
  | BuildFailed => build_ok k = false
  end.
Proof.
  intros s k.
  pose proof (submit_loop_spec build_ok reply cancelled MAX_RPC_RETRIES 0 INITIAL_RPC_BACKOFF) as Hs.
  change (submit_loop _ _ _ _ _ _) with s in Hs. cbv zeta in Hs. fold k in Hs. unfold MAX_RPC_RETRIES in Hs.
  destruct Hs as (H1 & H2 & H3 & H4 & H5). simpl in H4, H5.
  assert (su_sleeps s = take k [500; 1000; 2000; 4000; 8000]) as Hsleeps.
  { rewrite H2. clear -H1. do 6 (destruct k as [|k]; [reflexivity|]). lia. }
  assert (∀ j, (j < k)%nat → reply j = RpcErr) as Hrpc by (intros j Hj; by apply H4).
  destruct (su_outcome s) eqn:Ho; split_and!; try done; try lia; try apply H5.
  intros j Hj. destruct H5 as (Hk & _ & Hr). destruct (decide (j = k)) as [->|]; [done|]. apply Hrpc. lia.
Qed.

(** Every batch the matcher sends without the triangular phase is accepted by the executor:
    when the bytes the matcher stored are those of its orders and the amounts involved are
    admissible asset amounts, preparing the batch succeeds, so no order the matcher has
    dropped from its book is lost to an insolvent batch. *)
Theorem matched_batch_prepares `{!Miden} `{!PswapLaws} `{HI : HashIter} `{CH : CycleHeap} fuel s i out eb n solver :
  matcher_run s → input_ok s i → tick fuel s i = Some out → to_batch out = Some eb →
  triangular_enabled (ms_engine s) = false →
  (∀ id raw o, tk_raw (entering s i) !! id = Some raw → orders (tk_book (entering s i)) !! id = Some o → decodes raw o) →
  (∀ f o, f ∈ filled_notes eb → orders (tk_book (entering s i)) !! fn_note_id f = Some o →
    fungible_asset_ok (requested_token o) (fn_requested_filled f) = true ∧ pswap_args_ok (fn_requested_filled f) = true) →
  representable (batch_flow (orders (tk_book (entering s i))) (filled_notes eb)) →
  ∃ c, prepare_batch_components n eb solver = inr c.
Proof.
  intros Hs%matcher_run_inv Hin Ht Hb Htri Hdec Hasset Hrep.
  destruct (tick_result fuel s i out Hs Hin Ht) as [Hst Hgo].
  destruct (to_stopped out) eqn:E; [destruct Hst as (_ & ? & _); [done|congruence]|].
  destruct Hgo as [_ _ Hbatch _ _ _ _ _ _]; [done|]. destruct (Hbatch eb Hb) as [Hok Hpos].
  destruct (entering_inv s i Hs Hin) as [Hinv _]. destruct (tv_book _ _ _ Hinv) as [l Hbook].
  assert (Forall (fillable (orders (tk_book (entering s i)))) (filled_notes eb)) as Hf.
  { apply Forall_forall. intros f Hf. destruct (bo_notes _ _ Hok f Hf) as (o & (Ho & _) & Hfill & Hraw & _).
    exists o. destruct (Hasset f o Hf Ho). split_and!; try done; [by eapply orders_wf|by eapply Hdec|lia..]. }
  pose proof (prepare_spec n solver _ eb Hf Hrep) as Hp.
  destruct (prepare_batch_components n eb solver) as [e|c]; [|by eexists].
  destruct Hp as (tok & Hneg & _). specialize (Hpos Htri tok). lia.
Qed.

(** ** Concrete runs *)

#[local] Existing Instance demo_miden.
#[local] Existing Instance elements_iter.
#[local] Existing Instance list_heap.

Lemma demo_laws : PswapLaws.
Proof.
  intros p solver fill [H0 H1]. simpl in *. unfold demo_execute.
  rewrite (proj2 (Z.ltb_lt _ _) H0), (proj2 (Z.leb_le _ _) H1). simpl. eexists _, _. split_and!; [done| |].
  - simpl. f_equal. lia.
  - destruct (Z.eqb_spec fill (demo_request p)) as [|Hne]; [done|]. simpl. f_equal.
    assert (0 <= demo_offer p) by apply wrap64_range.
    assert (demo_offer p * fill / demo_request p <= demo_offer p); [|lia].
    apply Z.div_le_upper_bound; nia.
Qed.
#[local] Existing Instance demo_laws.

Definition demo_map : gmap OrderId Order := orders (tk_book (entering demo_start demo_input)).

Lemma demo_map_orders :
  demo_map = {[1%N := mk_order 1 1 2 100 50 50; 2%N := mk_order 2 1 2 100 40 40; 3%N := mk_order 3 2 1 60 80 80]} ∧
  tk_raw (entering demo_start demo_input) =
    {[1%N := demo_bytes 1 1 100 2 50; 2%N := demo_bytes 2 1 100 2 40; 3%N := demo_bytes 3 2 60 1 80]}.
Proof. vm_compute. done. Qed.

Lemma demo_bytes_decode id o :
  decodes (demo_bytes id (offered_token o) (Z.to_N (offered o)) (requested_token o) (Z.to_N (requested o))) o ↔
  wrap64 (Z.of_N (Z.to_N (offered o))) = offered o ∧ wrap64 (Z.of_N (Z.to_N (requested o))) = requested o.
Proof.
  split.
  - intros (note & p & Hn & Hp & _ & Ho & _ & Hr). injection Hn as <-. injection Hp as <-. done.
  - intros [H1 H2]. eexists _, _. split; [reflexivity|]. split; [reflexivity|]. done.
Qed.

Lemma demo_decodes id raw o :
  tk_raw (entering demo_start demo_input) !! id = Some raw → demo_map !! id = Some o → decodes raw o.
Proof.
  rewrite (proj1 demo_map_orders), (proj2 demo_map_orders).
  rewrite !lookup_insert_Some, !lookup_singleton_Some. intros Hr Ho.
  assert (∃ id, raw = demo_bytes id (offered_token o) (Z.to_N (offered o)) (requested_token o) (Z.to_N (requested o)) ∧
    wrap64 (Z.of_N (Z.to_N (offered o))) = offered o ∧ wrap64 (Z.of_N (Z.to_N (requested o))) = requested o)
    as (id' & -> & Hw) by (naive_solver).
  by apply demo_bytes_decode.
Qed.

Lemma demo_fillable : Forall (fillable demo_map) (filled_notes demo_batch).
Proof.
  apply Forall_forall. intros f Hf.
  assert (∃ o, demo_map !! fn_note_id f = Some o ∧ order_wf o ∧
    tk_raw (entering demo_start demo_input) !! fn_note_id f = Some (fn_raw f) ∧
    0 < fn_requested_filled f <= requested o ∧ fn_requested_filled f < 9223372036854775808) as (o & Ho & Hwf & Hr & Hb & Hm).
  { unfold demo_batch in Hf. cbn [filled_notes] in Hf. rewrite (proj1 demo_map_orders), (proj2 demo_map_orders).
    apply elem_of_cons in Hf as [->| ->%list_elem_of_singleton].
    - exists (mk_order 2 1 2 100 40 40). by split_and!.
    - exists (mk_order 3 2 1 60 80 80). by split_and!. }
  exists o. split_and!; try done; [by eapply demo_decodes|lia|lia|by apply Z.ltb_lt|].
  apply Z.ltb_lt. unfold two64. lia.
Qed.

(** The flow of the demo batch: twenty units of token 1 and of token 2 stay. *)
Lemma demo_flow tok :
  batch_flow demo_map (filled_notes demo_batch) tok = (if decide (tok = 1%N) then 20 else if decide (tok = 2%N) then 20 else 0).
Proof.
  assert (demo_map !! 2%N = Some (mk_order 2 1 2 100 40 40) ∧ demo_map !! 3%N = Some (mk_order 3 2 1 60 80 80))
    as [H2 H3] by (rewrite (proj1 demo_map_orders); done).
  unfold batch_flow, demo_batch. cbn [filled_notes foldr fn_note_id fn_requested_filled].
  rewrite H2, H3. cbn [from_option]. unfold contribution. cbn [offered_token requested_token set_remaining].
  set (x := offered_for _ _). set (y := offered_for _ _). set (x' := requested_filled _). set (y' := requested_filled _).
  assert (x = 100 ∧ y = 60 ∧ x' = 40 ∧ y' = 80) as (-> & -> & -> & ->) by (vm_compute; done).
  repeat case_decide; simplify_eq; lia.
Qed.

Lemma demo_representable : representable (batch_flow demo_map (filled_notes demo_batch)).
Proof. intros tok. rewrite demo_flow. intros Hp. repeat case_decide; try lia; vm_compute; done. Qed.

Lemma demo_solvent tok : 0 <= batch_flow demo_map (filled_notes demo_batch) tok.
Proof. rewrite demo_flow. repeat case_decide; lia. Qed.

Lemma prepare_rejects_insolvent_witness :
  (∃ c, prepare_batch_components 0 demo_batch 0 = inr c) ↔
    ∀ tok, 0 <= batch_flow demo_map (filled_notes demo_batch) tok.
Proof. apply (prepare_rejects_insolvent 0 0 demo_map demo_batch demo_fillable demo_representable). Defined.

Lemma matched_batch_prepares_witness : ∃ c, prepare_batch_components 0 demo_batch 0 = inr c.
Proof.
  apply (matched_batch_prepares 10 demo_start demo_input demo_out demo_batch 0 0 demo_start_run demo_input_ok
    demo_tick_out (proj1 demo_out_sends) eq_refl demo_decodes).
  - intros f o Hf Ho. pose proof (proj1 (Forall_forall _ _) demo_fillable f Hf) as (o' & Ho' & _ & _ & _ & Ha & Hb).
    unfold demo_map in Ho'. rewrite Ho in Ho'. injection Ho' as <-. split; [exact Ha|exact Hb].
  - exact demo_representable.
Defined.

(** The database with the two orders of the demo batch. *)
Definition demo_db : Db :=
  (insert_notes_batch db_empty [mk_note_row [2%N] [0%N] []; mk_note_row [3%N] [0%N] []]
     [sample_row 2 Active; sample_row 3 Active] 1).1.

(** A node that is down. *)
Definition down_env : ExecEnv :=
  mk_exec_env true true (λ _, true) (λ _, RpcErr) (λ _, false) (λ _, Some ∅) (λ _, true) (λ d, d).


(** ** An insolvent batch of the triangular phase *)

Definition triangle_bytes (o : IngestOrder) : Bytes :=
  demo_bytes (io_note_id o) (io_offered_token o) (Z.to_N (io_offered_amount o))
    (io_requested_token o) (Z.to_N (io_requested_amount o)).
Definition triangle_ingest (id a : N) (x : Z) (b : N) (y : Z) : IngestOrder :=
  mk_ingest id a b x y (triangle_bytes (mk_ingest id a b x y [])).
Definition triangle_start : MatcherState :=
  matcher_start {[1%N := 1; 2%N := 1; 3%N := 1]} true None (λ _, 7)
    (Some [triangle_ingest 10 1 200 2 100; triangle_ingest 11 3 100 1 100; triangle_ingest 12 2 60 3 100]).
Definition triangle_input : TickInput :=
  mk_tick 1000 (λ _, 8) [] [] {[1%N := 1; 2%N := 1; 3%N := 1]} true ∅ Sent 0.
Definition triangle_db : Db :=
  (insert_notes_batch db_empty [] [sample_row 10 Active; sample_row 11 Active; sample_row 12 Active] 1).1.

