(* ===== verification/Protocol.v ===== *)
(** * The RFQ wire protocol (crates/lp-sdk/src/protocol.rs)

    The messages between the router and a DEX, their byte encoding and decoding.  The
    encodings of the field types (assets, notes, ids, integers, strings, options and
    vectors) belong to the Miden libraries: they are instances of [Codec], whose law is
    the documented round trip of [Serializable] and [Deserializable]. *)

From stdpp Require Import option.
From S2P Require Import Prelude.
From S2P Require Import Types.

(** ** Encodings *)

(** The values of a type that can travel, their bytes and the reader: decoding what was
    encoded gives the value back and leaves the rest of the input, and only such values
    are ever decoded (a [u64] field, for one, never reads as a larger number). *)
Class Codec (A : Type) := {
  wire_ok : A → Prop;
  encode : A → Bytes;
  decode : Bytes → option (A * Bytes);
  decode_encode : ∀ a rest, wire_ok a → decode (encode a ++ rest) = Some (a, rest);
  decode_ok : ∀ b a rest, decode b = Some (a, rest) → wire_ok a;
}.

Record FungibleAsset := mk_asset { fa_faucet : TokenId; fa_amount : Z }.

(** [read_u8] *)
Definition read_u8 (b : Bytes) : option (N * Bytes) :=
  match b with [] => None | x :: r => Some (x, r) end.

(** ** Messages *)

Record PairSpec := mk_pair_spec { ps_offered : TokenId; ps_requested : TokenId }.

Inductive ClientMsg :=
  | ClientQuote (offered requested : FungibleAsset) (valid_for_ms : option Z).

Definition QUOTE : N := 0.

Inductive ServerMsg (N' : Type) :=
  | AuthOk
  | Ask (pairs : list PairSpec)
  | Handover (note : N') (fill_amount : Z)
  | ErrorMsg (code msg : string).
Arguments AuthOk {N'}.
Arguments Ask {N'} pairs.
Arguments Handover {N'} note fill_amount.
Arguments ErrorMsg {N'} code msg.

Definition AUTH_OK : N := 0.
Definition ASK : N := 1.
Definition HANDOVER : N := 2.
Definition ERROR : N := 3.

(** ** Encoding and decoding *)

#[export] Instance pair_spec_codec `{!Codec TokenId} : Codec PairSpec.
Proof.
  refine {| wire_ok := λ p, wire_ok (ps_offered p) ∧ wire_ok (ps_requested p);
            encode := λ p, encode (ps_offered p) ++ encode (ps_requested p);
            decode := λ b, '(o, b) ← decode b; '(r, b) ← decode b; Some (mk_pair_spec o r, b) |}.
  - intros [o r] rest [Ho Hr]. simpl in *. rewrite <-app_assoc, decode_encode by done. simpl. by rewrite decode_encode.
  - intros b [o r] rest H. destruct (decode b) as [[o' b1]|] eqn:E1; [|done]. simpl in H.
    destruct (decode b1) as [[r' b2]|] eqn:E2; [|done]. simplify_eq/=. by apply decode_ok in E1, E2.
Defined.

Section client.
Context `{!Codec FungibleAsset, !Codec (option Z)}.

Definition client_write (m : ClientMsg) : Bytes :=
  match m with
  | ClientQuote offered requested valid_for_ms =>
    QUOTE :: encode offered ++ encode requested ++ encode valid_for_ms
  end.

(** The fields of a message can travel. *)
Definition client_ok (m : ClientMsg) : Prop :=
  match m with ClientQuote offered requested valid_for_ms => wire_ok offered ∧ wire_ok requested ∧ wire_ok valid_for_ms end.

Definition client_read (b : Bytes) : option (ClientMsg * Bytes) :=
  match read_u8 b with
  | None => None
  | Some (tag, b) =>
    if decide (tag = QUOTE) then
      '(offered, b) ← decode b;
      '(requested, b) ← decode b;
      '(valid_for_ms, b) ← decode b;
      Some (ClientQuote offered requested valid_for_ms, b)
    else None
  end.
End client.

Section server.
Context {Nt : Type} `{!Codec Nt, !Codec Z, !Codec string, !Codec (list PairSpec)}.

Definition server_write (m : ServerMsg Nt) : Bytes :=
  match m with
  | AuthOk => [AUTH_OK]
  | Ask pairs => ASK :: encode pairs
  | Handover note fill_amount => HANDOVER :: encode note ++ encode fill_amount
  | ErrorMsg code msg => ERROR :: encode code ++ encode msg
  end.

Definition server_ok (m : ServerMsg Nt) : Prop :=
  match m with
  | AuthOk => True
  | Ask pairs => wire_ok pairs
  | Handover note fill_amount => wire_ok note ∧ wire_ok fill_amount
  | ErrorMsg code msg => wire_ok code ∧ wire_ok msg
  end.

(** [handover_frame]: the frame from the bytes of the note. *)
Definition handover_frame (note_bytes : Bytes) (fill_amount : Z) : Bytes :=
  HANDOVER :: note_bytes ++ encode fill_amount.

Definition server_read (b : Bytes) : option (ServerMsg Nt * Bytes) :=
  match read_u8 b with
  | None => None
  | Some (tag, b) =>
    if decide (tag = AUTH_OK) then Some (AuthOk, b)
    else if decide (tag = ASK) then '(pairs, b) ← decode b; Some (Ask pairs, b)
    else if decide (tag = HANDOVER) then
      '(note, b) ← decode b; '(fill_amount, b) ← decode b; Some (Handover note fill_amount, b)
    else if decide (tag = ERROR) then
      '(code, b) ← decode b; '(msg, b) ← decode b; Some (ErrorMsg code msg, b)
    else None
  end.
End server.

(** ** Lemmas *)

Lemma client_read_write `{!Codec FungibleAsset, !Codec (option Z)} m rest :
  client_ok m → client_read (client_write m ++ rest) = Some (m, rest).
Proof.
  destruct m as [o r v]. intros (Ho & Hr & Hv). unfold client_read, client_write. simpl. rewrite <-!app_assoc.
  rewrite decode_encode by done. simpl. rewrite decode_encode by done. simpl. by rewrite decode_encode.
Qed.

Lemma client_read_ok `{!Codec FungibleAsset, !Codec (option Z)} b m rest :
  client_read b = Some (m, rest) → client_ok m.
Proof.
  unfold client_read. destruct (read_u8 b) as [[tag b1]|]; [|done]. case_decide; [|done].
  destruct (decode b1) as [[o b2]|] eqn:E1; [|done]. simpl. destruct (decode b2) as [[r b3]|] eqn:E2; [|done]. simpl.
  destruct (decode b3) as [[v b4]|] eqn:E3; [|done]. simpl. intros [= <- _]. by apply decode_ok in E1, E2, E3.
Qed.

Lemma server_read_write {Nt} `{!Codec Nt, !Codec Z, !Codec string, !Codec (list PairSpec)} (m : ServerMsg Nt) rest :
  server_ok m → server_read (server_write m ++ rest) = Some (m, rest).
Proof.
  destruct m; simpl; intros Hok; unfold server_read; simpl; rewrite <-?app_assoc, ?decode_encode by tauto; simpl;
    rewrite ?decode_encode by tauto; done.
Qed.

(** ** Concrete encodings *)

(** Encodings on which the protocol is evaluated: a number is itself, lists have their
    length in front. *)
Definition n_codec : Codec N.
Proof.
  by refine {| wire_ok := λ _, True; encode := λ x, [x];
              decode := λ b, match b with x :: r => Some (x, r) | [] => None end |}.
Defined.

(** [u64] *)
Definition z_codec : Codec Z.
Proof.
  refine {| wire_ok := is_u64; encode := λ x, [Z.to_N x];
            decode := λ b, match b with
              | x :: r => if Z.of_N x <? two64 then Some (Z.of_N x, r) else None
              | [] => None end |}.
  - intros a rest Ha. simpl. rewrite Z2N.id by u64. by rewrite (proj2 (Z.ltb_lt _ _)) by u64.
  - intros [|x b] a rest H; [done|]. destruct (Z.ltb_spec (Z.of_N x) two64); [|done]. simplify_eq. u64.
Defined.

Definition asset_codec : Codec FungibleAsset.
Proof.
  refine {| wire_ok := λ a, is_u64 (fa_amount a);
            encode := λ a, fa_faucet a :: @encode _ z_codec (fa_amount a);
            decode := λ b, match b with
              | t :: r => '(x, r) ← @decode _ z_codec r; Some (mk_asset t x, r)
              | [] => None end |}.
  - intros [t x] rest Hx. cbn [app fa_faucet fa_amount]. by rewrite decode_encode.
  - intros [|t b] a rest H; [done|]. destruct (@decode _ z_codec b) as [[x r]|] eqn:E; [|done]. simplify_eq/=.
    exact (@decode_ok _ z_codec _ _ _ E).
Defined.

Definition option_codec : Codec (option Z).
Proof.
  refine {| wire_ok := λ o, match o with Some x => is_u64 x | None => True end;
            encode := λ o, match o with Some x => 1%N :: @encode _ z_codec x | None => [0%N] end;
            decode := λ b, match b with
              | 0%N :: r => Some (None, r)
              | 1%N :: r => '(x, r) ← @decode _ z_codec r; Some (Some x, r)
              | _ => None end |}.
  - intros [x|] rest Hx; [|done]. cbn [app]. by rewrite decode_encode.
  - intros [|[|[]] b] a rest H; try discriminate H.
    + by injection H as <- _.
    + destruct (@decode _ z_codec b) as [[x r]|] eqn:E; [|discriminate H]. injection H as <- _.
      exact (@decode_ok _ z_codec _ _ _ E).
Defined.

(** [decode_list k]: [k] elements. *)
Fixpoint decode_list {A} `{!Codec A} (k : nat) (b : Bytes) : option (list A * Bytes) :=
  match k with
  | O => Some ([], b)
  | S k => '(x, b) ← decode b; '(xs, b) ← decode_list k b; Some (x :: xs, b)
  end.

Lemma decode_list_encode {A} `{!Codec A} (l : list A) rest :
  Forall wire_ok l → decode_list (length l) (concat (map encode l) ++ rest) = Some (l, rest).
Proof.
  induction 1 as [|x l Hx Hl IH]; simpl; [done|]. rewrite <-app_assoc, decode_encode by done. simpl. by rewrite IH.
Qed.

Lemma decode_list_ok {A} `{!Codec A} k b (l : list A) rest : decode_list k b = Some (l, rest) → Forall wire_ok l.
Proof.
  revert b l. induction k as [|k IH]; intros b l H; simpl in H; [by simplify_eq|].
  destruct (decode b) as [[x b1]|] eqn:E1; [|done]. simpl in H.
  destruct (decode_list k b1) as [[xs b2]|] eqn:E2; [|done]. simplify_eq/=. constructor; [by eapply decode_ok|by eapply IH].
Qed.

Definition list_codec {A} `{!Codec A} : Codec (list A).
Proof.
  refine {| wire_ok := Forall wire_ok; encode := λ l, N.of_nat (length l) :: concat (map encode l);
            decode := λ b, match b with n :: r => decode_list (N.to_nat n) r | [] => None end |}.
  - intros l rest Hl. simpl. rewrite Nat2N.id. by apply decode_list_encode.
  - intros [|n b] l rest H; [done|]. by eapply decode_list_ok.
Defined.

Definition ascii_codec : Codec Ascii.ascii.
Proof.
  refine {| wire_ok := λ _, True; encode := λ a, [Ascii.N_of_ascii a];
            decode := λ b, match b with x :: r => Some (Ascii.ascii_of_N x, r) | [] => None end |}; [|done].
  intros a rest _. simpl. by rewrite Ascii.ascii_N_embedding.
Defined.

Definition string_codec : Codec string.
Proof.
  refine {| wire_ok := λ _, True; encode := λ s, @encode _ (@list_codec _ ascii_codec) (String.list_ascii_of_string s);
            decode := λ b, '(l, r) ← @decode _ (@list_codec _ ascii_codec) b; Some (String.string_of_list_ascii l, r) |};
    [|done].
  intros s rest _. rewrite decode_encode by (by apply Forall_true). simpl. by rewrite String.string_of_list_ascii_of_string.
Defined.

(** ** Theorems *)

(** Quotes survive the wire: a client message decodes to itself whatever follows it, and a
    frame whose first byte is not a known tag, or is missing, is rejected. *)
Theorem client_msg_roundtrip `{!Codec FungibleAsset, !Codec (option Z)} m rest tag b :
  client_ok m → tag ≠ QUOTE →
  client_read (client_write m ++ rest) = Some (m, rest) ∧
  client_read [] = None ∧ client_read (tag :: b) = None.
Proof.
  intros Hm Htag. split_and!; [by apply client_read_write|done|]. unfold client_read. simpl. by rewrite decide_False.
Qed.

Lemma client_msg_roundtrip_witness :
  @client_read asset_codec option_codec (5%N :: []) = None.
Proof.
  apply (@client_msg_roundtrip asset_codec option_codec (ClientQuote (mk_asset 1 2) (mk_asset 3 4) None) [] 5 []);
    [by vm_compute|done].
Defined.

(** C35. Server messages survive the wire, and the frame the router builds from stored note
    bytes is byte for byte the hand-over message of the note, so it decodes to the note and
    the amount to fill. *)
Theorem server_msg_roundtrip {Nt} `{!Codec Nt, !Codec Z, !Codec string, !Codec (list PairSpec)}
    (m : ServerMsg Nt) rest (note : Nt) note_bytes fill :
  server_ok m → wire_ok note → wire_ok fill → note_bytes = encode note →
  server_read (server_write m ++ rest) = Some (m, rest) ∧
  handover_frame note_bytes fill = server_write (Handover note fill) ∧
  server_read (handover_frame note_bytes fill ++ rest) = Some (Handover note fill, rest).
Proof.
  intros Hm Hn Hf ->. split_and!; [by apply server_read_write|done|]. by apply (server_read_write (Handover note fill)).
Qed.

Lemma server_msg_roundtrip_witness :
  @handover_frame z_codec [7%N] 30 =
    @server_write Z z_codec z_codec string_codec (@list_codec _ (@pair_spec_codec n_codec)) (Handover 7 30) ∧
  @server_read Z z_codec z_codec string_codec (@list_codec _ (@pair_spec_codec n_codec)) ([2; 7; 30]%N ++ []) =
    Some (Handover 7 30, []).
Proof.
  apply (@server_msg_roundtrip Z z_codec z_codec string_codec (@list_codec _ (@pair_spec_codec n_codec))
    AuthOk [] 7 [7%N] 30); done.
Defined.
