(* ===== verification/Router.v ===== *)
(** * The router's websocket server (crates/solver/src/router/server.rs)

    The registry of connected DEXes and their standing quotes, the snapshot published to
    the matcher, the delivery of hand-overs and the admission of connections.  Sockets and
    HTTP are the environment: a connection is its queue of outbound frames.

    The server runs on a multi-threaded runtime and takes its locks one at a time, so the
    second half models the interleavings: the locked part of every operation, the building
    of a snapshot and its publication are separate steps. *)

From stdpp Require Import option.
From S2P Require Import Prelude.
From S2P Require Import Orders.
From S2P Require Import Select.
From S2P Require Import Types.
From S2P Require Import Protocol.

(** ** State *)

Record RouterConfig := mk_router_cfg {
  rc_bind : string;
  rc_port : Z;
  rc_max_connections : Z;
  rc_max_msg_bytes : Z;
  rc_quote_ttl_ms : Z;
  rc_auth_tokens : list string;
}.

(** The sender of a connection's outbound queue: the frames not yet written to the socket,
    and whether the writer still receives. *)
Record Conn := mk_conn { cn_out : list Bytes; cn_open : bool }.

Record RouterState := mk_router {
  rs_cfg : RouterConfig;
  rs_published : gmap Pair (list Quote);
  rs_quotes : gmap DexId (gmap Pair Quote);
  rs_conns : gmap DexId Conn;
  rs_next_dex : Z;
  rs_conn_count : Z;
}.

Definition router_new (cfg : RouterConfig) : RouterState := mk_router cfg ∅ ∅ ∅ 1 0.

Definition with_published st snap := mk_router (rs_cfg st) snap (rs_quotes st) (rs_conns st) (rs_next_dex st) (rs_conn_count st).
Definition with_quotes st q := mk_router (rs_cfg st) (rs_published st) q (rs_conns st) (rs_next_dex st) (rs_conn_count st).
Definition with_conns st c := mk_router (rs_cfg st) (rs_published st) (rs_quotes st) c (rs_next_dex st) (rs_conn_count st).
Definition with_counters st next count := mk_router (rs_cfg st) (rs_published st) (rs_quotes st) (rs_conns st) next count.

(** ** Admission *)

(** [str::strip_prefix] *)
Fixpoint strip_prefix (p s : string) : option string :=
  match p, s with
  | EmptyString, _ => Some s
  | String a p, String b s => if decide (a = b) then strip_prefix p s else None
  | String _ _, EmptyString => None
  end.

(** [bearer_from]: [header] is the value of the Authorization header, if it is text. *)
Definition bearer_from (header : option string) : option string :=
  s ← header; strip_prefix "Bearer " s.

Definition authorized (st : RouterState) (provided : option string) : bool :=
  match provided with
  | None => false
  | Some tok => existsb (λ allowed, bool_decide (allowed = tok)) (rc_auth_tokens (rs_cfg st))
  end.

Inductive Admission := Unauthorized | AtCapacity | Upgrade.

(** [ws_handler]: the token comes from the header or else from the query string. *)
Definition ws_handler (st : RouterState) (header query : option string) : Admission :=
  let token := match bearer_from header with Some t => Some t | None => query end in
  if negb (authorized st token) then Unauthorized
  else if rc_max_connections (rs_cfg st) <=? rs_conn_count st then AtCapacity
  else Upgrade.

(** ** The published snapshot *)

(** [by_pair.entry(pair).or_default().push(q)] *)
Definition push_quote (by_pair : gmap Pair (list Quote)) (pair : Pair) (q : Quote) : gmap Pair (list Quote) :=
  <[pair := default [] (by_pair !! pair) ++ [q]]> by_pair.

(** The comparison of [sort_by]: [q1] goes strictly after [q2]. *)
Definition quote_gt (q1 q2 : Quote) : bool := q_supply q1 * q_demand q2 <? q_supply q2 * q_demand q1.

(** The stable sort. *)
Fixpoint insert_quote (q : Quote) (l : list Quote) : list Quote :=
  match l with
  | [] => [q]
  | q' :: r => if quote_gt q q' then q' :: insert_quote q r else q :: l
  end.

Definition sort_quotes (l : list Quote) : list Quote := foldr insert_quote [] l.

Section snapshot.
Context `{HI : HashIter}.

Definition group_dex (n : N) (quotes : gmap DexId (gmap Pair Quote)) (by_pair : gmap Pair (list Quote)) (dex : DexId) :
    gmap Pair (list Quote) :=
  match quotes !! dex with
  | None => by_pair
  | Some per_pair =>
    foldl (λ by_pair pair, match per_pair !! pair with Some q => push_quote by_pair pair q | None => by_pair end)
      by_pair (hash_iter (n + 1 + dex) (dom per_pair))
  end.

Definition snapshot (n : N) (quotes : gmap DexId (gmap Pair Quote)) : gmap Pair (list Quote) :=
  sort_quotes <$> foldl (group_dex n quotes) ∅ (hash_iter n (dom quotes)).

Definition republish (n : N) (st : RouterState) : RouterState :=
  with_published st (snapshot n (rs_quotes st)).
End snapshot.

(** ** Outbound frames *)

(** [tx.send]: the frame is queued unless the writer is gone. *)
Definition conn_send (frame : Bytes) (c : Conn) : Conn :=
  if cn_open c then mk_conn (cn_out c ++ [frame]) true else c.

Definition send_frame (conns : gmap DexId Conn) (dex : DexId) (frame : Bytes) : gmap DexId Conn :=
  alter (conn_send frame) dex conns.

(** ** Operations *)

Section operations.
Context `{HI : HashIter} {Nt : Type}.
Context `{!Codec FungibleAsset, !Codec (option Z), !Codec Nt, !Codec Z, !Codec string, !Codec (list PairSpec)}.

(** [register_quote] up to the store: the quote in the notes' orientation, or the error. *)
Definition accept_quote (cfg : RouterConfig) (dex : DexId) (offered requested : FungibleAsset)
    (valid_for_ms : option Z) (now : Z) : ServerMsg Nt + Quote :=
  let supply := fa_amount offered in
  let demand := fa_amount requested in
  if (supply =? 0) || (demand =? 0) then inl (ErrorMsg "bad_quote" "quote amounts must be > 0")
  else
    let pair := (fa_faucet requested, fa_faucet offered) in
    let ttl := match valid_for_ms with Some v => Z.min v (rc_quote_ttl_ms cfg) | None => rc_quote_ttl_ms cfg end in
    inr (mk_quote dex pair supply demand (sat_add64 now ttl)).

(** [entry(dex).or_default().insert(pair, quote)] *)
Definition store_quote (st : RouterState) (dex : DexId) (q : Quote) : RouterState :=
  with_quotes st (<[dex := <[q_pair q := q]> (default ∅ (rs_quotes st !! dex))]> (rs_quotes st)).

Definition register_quote (n : N) (st : RouterState) (dex : DexId) (offered requested : FungibleAsset)
    (valid_for_ms : option Z) (now : Z) : RouterState * option (ServerMsg Nt) :=
  match accept_quote (rs_cfg st) dex offered requested valid_for_ms now with
  | inl err => (st, Some err)
  | inr q => (republish n (store_quote st dex q), None)
  end.

(** [handle_client_msg]; [describe] is the text of a decoding error. *)
Definition handle_client_msg (describe : Bytes → string) (n : N) (st : RouterState) (dex : DexId) (bytes : Bytes)
    (now : Z) : RouterState * option (ServerMsg Nt) :=
  match client_read bytes with
  | None => (st, Some (ErrorMsg "bad_message" (describe bytes)))
  | Some (ClientQuote offered requested valid_for_ms, _) =>
    register_quote n st dex offered requested valid_for_ms now
  end.

(** The arm of the reader loop for a binary frame: an error goes back on the connection. *)
Definition on_frame (describe : Bytes → string) (n : N) (st : RouterState) (dex : DexId) (bytes : Bytes) (now : Z) :
    RouterState :=
  let '(st, err) := handle_client_msg describe n st dex bytes now in
  match err with
  | Some e => with_conns st (send_frame (rs_conns st) dex (server_write e))
  | None => st
  end.

(** The first loop of [deliver]. *)
Definition send_items (items : list RoutedNote) (conns : gmap DexId Conn) : gmap DexId Conn :=
  foldl (λ conns item, send_frame conns (rn_dex item) (handover_frame (rn_bytes item) (rn_fill item))) conns items.

(** The second loop: drop the used quotes, and tell whether there was one. *)
Definition consume_item (acc : gmap DexId (gmap Pair Quote) * bool) (item : RoutedNote) :
    gmap DexId (gmap Pair Quote) * bool :=
  let '(quotes, consumed) := acc in
  match quotes !! rn_dex item with
  | None => acc
  | Some m => (<[rn_dex item := delete (rn_pair item) m]> quotes, consumed || bool_decide (is_Some (m !! rn_pair item)))
  end.

Definition consume_quotes (items : list RoutedNote) (quotes : gmap DexId (gmap Pair Quote)) :
    gmap DexId (gmap Pair Quote) * bool :=
  foldl consume_item (quotes, false) items.

Definition deliver (n : N) (st : RouterState) (items : list RoutedNote) : RouterState :=
  let st := with_conns st (send_items items (rs_conns st)) in
  let '(quotes, consumed) := consume_quotes items (rs_quotes st) in
  let st := with_quotes st quotes in
  if consumed then republish n st else st.

(** [deregister] up to the publication. *)
Definition drop_dex (st : RouterState) (dex : DexId) : RouterState :=
  mk_router (rs_cfg st) (rs_published st) (delete dex (rs_quotes st)) (delete dex (rs_conns st))
    (rs_next_dex st) (rs_conn_count st ∸ 1).

Definition deregister (n : N) (st : RouterState) (dex : DexId) : RouterState :=
  republish n (drop_dex st dex).

(** The start of [handle_conn]: the connection gets the next number, is counted and
    registered, and is told that it is accepted. *)
Definition open_conn (st : RouterState) : RouterState :=
  let dex := Z.to_N (rs_next_dex st) in
  mk_router (rs_cfg st) (rs_published st) (rs_quotes st)
    (<[dex := mk_conn [server_write (AuthOk : ServerMsg Nt)] true]> (rs_conns st))
    (wrap64 (rs_next_dex st + 1)) (wrap64 (rs_conn_count st + 1)).
End operations.

(** ** Interleavings *)

(** The server between two atomic steps of its tasks: accepted upgrades whose handler has
    not started, and the tasks that changed the quotes and have not published yet, with the
    snapshot once they have built it.  The task of a connection has its number, the relay
    of the matcher's batches is task 0. *)
Record RouterSys := mk_sys {
  sy_router : RouterState;
  sy_upgrading : nat;
  sy_busy : gmap N (option (gmap Pair (list Quote)));
}.

Inductive RouterAct :=
  | Connect (header query : option string)
  | Open
  | Frame (dex : DexId) (bytes : Bytes) (now : Z)
  | Close (dex : DexId)
  | Deliver (items : list RoutedNote)
  | Build (task : N) (n : N)
  | Publish (task : N)
  | Write (dex : DexId)
  | WriterStop (dex : DexId).

Definition sys_new (cfg : RouterConfig) : RouterSys := mk_sys (router_new cfg) 0 ∅.

Section interleaving.
Context `{HI : HashIter} {Nt : Type}.
Context `{!Codec FungibleAsset, !Codec (option Z), !Codec Nt, !Codec Z, !Codec string, !Codec (list PairSpec)}.
Context (describe : Bytes → string).

Definition on_router (s : RouterSys) (st : RouterState) : RouterSys :=
  mk_sys st (sy_upgrading s) (sy_busy s).
Definition owes_build (s : RouterSys) (task : N) (st : RouterState) : RouterSys :=
  mk_sys st (sy_upgrading s) (<[task := None]> (sy_busy s)).

(** A frame up to the publication: an error is sent back, an accepted quote is stored. *)
Definition frame_step (s : RouterSys) (dex : DexId) (bytes : Bytes) (now : Z) : RouterSys :=
  let st := sy_router s in
  let refuse (e : ServerMsg Nt) := on_router s (with_conns st (send_frame (rs_conns st) dex (server_write e))) in
  match client_read bytes with
  | None => refuse (ErrorMsg "bad_message" (describe bytes))
  | Some (ClientQuote offered requested valid_for_ms, _) =>
    match accept_quote (Nt := Nt) (rs_cfg st) dex offered requested valid_for_ms now with
    | inl e => refuse e
    | inr q => owes_build s dex (store_quote st dex q)
    end
  end.

Definition deliver_step (s : RouterSys) (items : list RoutedNote) : RouterSys :=
  let st := sy_router s in
  let '(quotes, consumed) := consume_quotes items (rs_quotes st) in
  let st := with_quotes (with_conns st (send_items items (rs_conns st))) quotes in
  if consumed then owes_build s 0 st else on_router s st.

(** One atomic step; [None] when the step is not enabled.  A connection is read, and later
    deregistered, by its own task, which runs as long as it is registered and does one
    thing at a time, as does the relay. *)
Definition sys_step (s : RouterSys) (a : RouterAct) : option RouterSys :=
  let st := sy_router s in
  let idle task := bool_decide (sy_busy s !! task = None) in
  let reading dex := bool_decide (is_Some (rs_conns st !! dex)) && idle dex in
  match a with
  | Connect header query =>
    match ws_handler st header query with
    | Upgrade => Some (mk_sys st (S (sy_upgrading s)) (sy_busy s))
    | _ => Some s
    end
  | Open =>
    match sy_upgrading s with
    | O => None
    | S k => Some (mk_sys (open_conn (Nt := Nt) st) k (sy_busy s))
    end
  | Frame dex bytes now => if reading dex then Some (frame_step s dex bytes now) else None
  | Close dex => if reading dex then Some (owes_build s dex (drop_dex st dex)) else None
  | Deliver items => if idle 0%N then Some (deliver_step s items) else None
  | Build task n =>
    match sy_busy s !! task with
    | Some None => Some (mk_sys st (sy_upgrading s) (<[task := Some (snapshot n (rs_quotes st))]> (sy_busy s)))
    | _ => None
    end
  | Publish task =>
    match sy_busy s !! task with
    | Some (Some snap) => Some (mk_sys (with_published st snap) (sy_upgrading s) (delete task (sy_busy s)))
    | _ => None
    end
  | Write dex =>
    Some (on_router s (with_conns st (alter (λ c, mk_conn (tail (cn_out c)) (cn_open c)) dex (rs_conns st))))
  | WriterStop dex => Some (on_router s (with_conns st (alter (λ _, mk_conn [] false) dex (rs_conns st))))
  end.

Fixpoint sys_run (s : RouterSys) (acts : list RouterAct) : option RouterSys :=
  match acts with
  | [] => Some s
  | a :: acts => s ← sys_step s a; sys_run s acts
  end.
End interleaving.

(** ** Sorting *)

Definition quote_pos (q : Quote) : Prop := 0 < q_supply q ∧ 0 < q_demand q.

(** [q1] is at least as generous as [q2]. *)
Definition quote_ge (q1 q2 : Quote) : Prop := q_supply q2 * q_demand q1 <= q_supply q1 * q_demand q2.

Lemma quote_ge_trans q1 q2 q3 :
  quote_pos q1 → quote_pos q2 → quote_pos q3 → quote_ge q1 q2 → quote_ge q2 q3 → quote_ge q1 q3.
Proof.
  unfold quote_pos, quote_ge. intros [? ?] [? ?] [? ?] H12 H23.
  apply (Z.mul_le_mono_pos_r _ _ (q_demand q2)); [lia|]. nia.
Qed.

Lemma quote_gt_false q1 q2 : quote_gt q1 q2 = false → quote_ge q1 q2.
Proof. unfold quote_gt, quote_ge. rewrite Z.ltb_ge. lia. Qed.

Lemma quote_gt_true q1 q2 : quote_gt q1 q2 = true → quote_ge q2 q1.
Proof. unfold quote_gt, quote_ge. rewrite Z.ltb_lt. lia. Qed.

Lemma insert_quote_perm q l : insert_quote q l ≡ₚ q :: l.
Proof.
  induction l as [|q' l IH]; simpl; [done|]. destruct (quote_gt q q'); [|done]. rewrite IH. apply Permutation_swap.
Qed.

Lemma sort_quotes_perm l : sort_quotes l ≡ₚ l.
Proof. induction l as [|q l IH]; simpl; [done|]. by rewrite insert_quote_perm, IH. Qed.

Lemma insert_quote_sorted q l :
  quote_pos q → Forall quote_pos l → quotes_sorted l → quotes_sorted (insert_quote q l).
Proof.
  unfold quotes_sorted. fold quote_ge. intros Hq Hl Hs.
  induction Hs as [|q' l Hs IH Hh]; simpl; [by repeat constructor|].
  apply Forall_cons in Hl as [Hq' Hl]. destruct (quote_gt q q') eqn:E.
  - constructor; [by apply IH|]. rewrite insert_quote_perm. constructor; [by apply quote_gt_true|done].
  - apply quote_gt_false in E. constructor; [by constructor|]. constructor; [done|].
    rewrite Forall_forall in *. intros q2 H2. by apply (quote_ge_trans q q' q2); auto.
Qed.

Lemma sort_quotes_sorted l : Forall quote_pos l → quotes_sorted (sort_quotes l).
Proof.
  induction 1 as [|q l Hq Hl IH]; simpl; [constructor|]. apply insert_quote_sorted; [done| |done].
  by rewrite sort_quotes_perm.
Qed.

(** ** The grouping *)

(** A stored quote, under its DEX and its pair. *)
Definition stored (quotes : gmap DexId (gmap Pair Quote)) (dex : DexId) (pair : Pair) (q : Quote) : Prop :=
  ∃ per_pair, quotes !! dex = Some per_pair ∧ per_pair !! pair = Some q.

(** What a grouping holds under a pair. *)
Definition listed (by_pair : gmap Pair (list Quote)) (pair : Pair) : list Quote := default [] (by_pair !! pair).

Lemma listed_push m p q p' :
  listed (push_quote m p q) p' = if decide (p = p') then listed m p ++ [q] else listed m p'.
Proof.
  unfold listed, push_quote. case_decide; subst; [by rewrite lookup_insert_eq|by rewrite lookup_insert_ne].
Qed.

(** Grouping the pairs [ps] of one DEX appends its quotes. *)
Lemma listed_group_pairs (per : gmap Pair Quote) ps m p :
  NoDup ps →
  listed (foldl (λ by_pair pair, match per !! pair with Some q => push_quote by_pair pair q | None => by_pair end) m ps) p
  = listed m p ++ (if decide (p ∈ ps) then option_list (per !! p) else []).
Proof.
  intros Hnd. revert m. induction Hnd as [|p' ps Hp' Hnd IH]; intros m; cbn [foldl]; [by rewrite app_nil_r|].
  rewrite IH. destruct (per !! p') as [q|] eqn:Eq.
  - rewrite listed_push. destruct (decide (p' = p)) as [->|Hne].
    + rewrite (decide_False (P := p ∈ ps)) by done. rewrite decide_True by set_solver. by rewrite Eq, app_nil_r.
    + f_equal. apply decide_ext. set_solver.
  - f_equal. destruct (decide (p = p')) as [->|Hne].
    + rewrite Eq. by destruct (decide (p' ∈ ps)), (decide (p' ∈ p' :: ps)).
    + apply decide_ext. set_solver.
Qed.

(** No pair is mapped to an empty list. *)
Definition grouped (m : gmap Pair (list Quote)) : Prop := ∀ p, m !! p ≠ Some [].

Lemma grouped_pairs (per : gmap Pair Quote) ps m :
  grouped m →
  grouped (foldl (λ by_pair pair, match per !! pair with Some q => push_quote by_pair pair q | None => by_pair end) m ps).
Proof.
  revert m. induction ps as [|p ps IH]; intros m Hm; simpl; [done|]. apply IH. destruct (per !! p) as [q|]; [|done].
  intros p'. unfold push_quote. destruct (decide (p = p')) as [->|]; [rewrite lookup_insert_eq|by rewrite lookup_insert_ne].
  intros [= H]. by destruct (default [] (m !! p')).
Qed.

Section grouping.
Context `{HI : HashIter}.

Lemma listed_group_dex n quotes m dex p :
  listed (group_dex n quotes m dex) p = listed m p ++ option_list (quotes !! dex ≫= λ per, per !! p).
Proof.
  unfold group_dex. destruct (quotes !! dex) as [per|]; simpl; [|by rewrite app_nil_r].
  rewrite listed_group_pairs by (rewrite hash_iter_perm; apply NoDup_elements). f_equal. case_decide as H; [done|].
  rewrite hash_iter_perm, elem_of_elements, not_elem_of_dom in H. by rewrite H.
Qed.

(** The quotes of a pair, in the order of the DEXes. *)
Lemma listed_grouping n quotes ds m p :
  listed (foldl (group_dex n quotes) m ds) p =
  listed m p ++ omap (λ dex, quotes !! dex ≫= λ per, per !! p) ds.
Proof.
  revert m. induction ds as [|d ds IH]; intros m; simpl; [by rewrite app_nil_r|]. rewrite IH, listed_group_dex, <-app_assoc.
  f_equal. by destruct (quotes !! d ≫= _).
Qed.

Lemma grouped_grouping n quotes ds m : grouped m → grouped (foldl (group_dex n quotes) m ds).
Proof.
  revert m. induction ds as [|d ds IH]; intros m Hm; simpl; [done|]. apply IH. unfold group_dex.
  destruct (quotes !! d); [by apply grouped_pairs|done].
Qed.

(** The order in which a snapshot visits the DEXes. *)
Definition pair_quotes (n : N) (quotes : gmap DexId (gmap Pair Quote)) (p : Pair) : list Quote :=
  omap (λ dex, quotes !! dex ≫= λ per, per !! p) (hash_iter n (dom quotes)).

Lemma listed_snapshot n quotes p : listed (snapshot n quotes) p = sort_quotes (pair_quotes n quotes p).
Proof.
  unfold snapshot, listed at 1. rewrite lookup_fmap. unfold pair_quotes.
  pose proof (listed_grouping n quotes (hash_iter n (dom quotes)) ∅ p) as H. unfold listed in H at 1 2.
  rewrite lookup_empty in H. simpl in H. rewrite <-H. by destruct (_ !! p).
Qed.

Lemma elem_of_pair_quotes n quotes p q : q ∈ pair_quotes n quotes p ↔ ∃ dex, stored quotes dex p q.
Proof.
  unfold pair_quotes, stored. rewrite list_elem_of_omap. split.
  - intros (d & _ & (per & H1 & H2)%bind_Some). eauto.
  - intros (d & per & H1 & H2). exists d. rewrite hash_iter_perm, elem_of_elements, elem_of_dom, H1. split; [by eexists|]. done.
Qed.

Lemma elem_of_snapshot n quotes p q : q ∈ listed (snapshot n quotes) p ↔ ∃ dex, stored quotes dex p q.
Proof. by rewrite listed_snapshot, sort_quotes_perm, elem_of_pair_quotes. Qed.

Lemma snapshot_grouped n quotes : grouped (snapshot n quotes).
Proof.
  intros p. unfold snapshot. rewrite lookup_fmap.
  pose proof (grouped_grouping n quotes (hash_iter n (dom quotes)) ∅) as H. specialize (H (λ p H, ltac:(by rewrite lookup_empty in H)) p).
  destruct (_ !! p) as [l|]; simpl; [|done]. intros [= Hl]. apply H. f_equal. apply Permutation_nil_r. by rewrite <-(sort_quotes_perm l), Hl.
Qed.
End grouping.
