(* ===== verification/RouterProofs.v ===== *)
(** * Invariants of the router

    Every stored quote belongs to a live connection and has positive amounts, connection
    numbers are fresh, the counter is the number of connections, and every snapshot, built
    or published, is sorted and well-formed; all of it under any interleaving. *)

From stdpp Require Import option.
From S2P Require Import Prelude.
From S2P Require Import Orders.
From S2P Require Import Select.
From S2P Require Import Types.
From S2P Require Import Protocol.
From S2P Require Import Router.

(** ** Stored quotes under the operations *)

Lemma stored_insert quotes dex q d p q' :
  stored (<[dex := <[q_pair q := q]> (default ∅ (quotes !! dex))]> quotes) d p q' ↔
  (d = dex ∧ p = q_pair q ∧ q' = q) ∨ (¬ (d = dex ∧ p = q_pair q) ∧ stored quotes d p q').
Proof.
  unfold stored. destruct (decide (d = dex)) as [->|Hd].
  - rewrite lookup_insert_eq. destruct (decide (p = q_pair q)) as [->|Hp].
    + split; [intros (per & [= <-] & H)|intros [(_ & _ & ->)|[H _]]; [|tauto]].
      * rewrite lookup_insert_eq in H. naive_solver.
      * eexists. split; [done|]. by rewrite lookup_insert_eq.
    + split.
      * intros (per & [= <-] & H). rewrite lookup_insert_ne in H by done. right. split; [tauto|].
        destruct (quotes !! dex) as [per|]; simpl in H; [eauto|done].
      * intros [(_ & ? & _)|(_ & per & H1 & H2)]; [done|]. eexists. split; [done|].
        rewrite lookup_insert_ne by done. by rewrite H1.
  - rewrite lookup_insert_ne by done. naive_solver.
Qed.

Lemma stored_delete quotes dex d p q : stored (delete dex quotes) d p q ↔ d ≠ dex ∧ stored quotes d p q.
Proof. unfold stored. setoid_rewrite lookup_delete_Some. naive_solver. Qed.

(** An item uses the quote of [d] for [p]. *)
Definition uses (d : DexId) (p : Pair) (item : RoutedNote) : Prop := rn_dex item = d ∧ rn_pair item = p.
#[export] Instance uses_dec d p item : Decision (uses d p item).
Proof. unfold uses. apply _. Defined.

Lemma stored_consume_item acc item d p q :
  stored (consume_item acc item).1 d p q ↔ stored acc.1 d p q ∧ ¬ uses d p item.
Proof.
  destruct acc as [quotes c]. unfold consume_item, stored, uses. simpl.
  destruct (quotes !! rn_dex item) as [m|] eqn:Em; simpl; [|naive_solver].
  destruct (decide (rn_dex item = d)) as [<-|Hd].
  - rewrite lookup_insert_eq, Em. split.
    + intros (per & [= <-] & [? ?]%lookup_delete_Some). naive_solver.
    + intros [(per & [= <-] & H) Hn]. eexists. split; [done|]. apply lookup_delete_Some. naive_solver.
  - rewrite lookup_insert_ne by done. naive_solver.
Qed.

Lemma consume_fold items acc :
  let r := foldl consume_item acc items in
  (∀ d p q, stored r.1 d p q ↔ stored acc.1 d p q ∧ Forall (λ i, ¬ uses d p i) items) ∧
  dom r.1 = dom acc.1 ∧
  (r.2 = true ↔ acc.2 = true ∨ ∃ i q, i ∈ items ∧ stored acc.1 (rn_dex i) (rn_pair i) q).
Proof.
  revert acc. induction items as [|i items IH]; intros acc; simpl.
  { split_and!; [intros; rewrite Forall_nil; tauto|done|]. split; [tauto|]. intros [?|(?&?&?%elem_of_nil&_)]; done. }
  destruct (IH (consume_item acc i)) as (H1 & H2 & H3). split_and!.
  - intros d p q. rewrite H1, stored_consume_item, Forall_cons. tauto.
  - rewrite H2. destruct acc as [quotes c]. unfold consume_item. simpl.
    destruct (quotes !! rn_dex i) as [m|] eqn:Em; simpl; [|done]. rewrite dom_insert_L.
    apply elem_of_dom_2 in Em. set_solver.
  - rewrite H3. setoid_rewrite stored_consume_item. setoid_rewrite elem_of_cons.
    assert ((consume_item acc i).2 = true ↔ acc.2 = true ∨ ∃ q, stored acc.1 (rn_dex i) (rn_pair i) q) as ->.
    { destruct acc as [quotes c]. unfold consume_item, stored. simpl.
      destruct (quotes !! rn_dex i) as [m|] eqn:Em; simpl; [|naive_solver].
      rewrite orb_true_iff, bool_decide_eq_true. unfold is_Some. naive_solver. }
    split.
    + intros [[?|[q Hq]]|(i' & q & Hi' & Hq & _)]; [tauto| |]; right; naive_solver.
    + intros [?|(i' & q & [->|Hi'] & Hq)]; [tauto|left; right; eauto|].
      destruct (decide (uses (rn_dex i') (rn_pair i') i)) as [[E1 E2]|Hn].
      * left. right. exists q. by rewrite E1, E2.
      * right. eauto 6.
Qed.

Lemma stored_consume items quotes d p q :
  stored (consume_quotes items quotes).1 d p q ↔ stored quotes d p q ∧ Forall (λ i, ¬ uses d p i) items.
Proof. apply (consume_fold items (quotes, false)). Qed.

Lemma dom_consume items quotes : dom (consume_quotes items quotes).1 = dom quotes.
Proof. apply (consume_fold items (quotes, false)). Qed.

Lemma consumed_iff items quotes :
  (consume_quotes items quotes).2 = true ↔ ∃ i q, i ∈ items ∧ stored quotes (rn_dex i) (rn_pair i) q.
Proof. destruct (consume_fold items (quotes, false)) as (_ & _ & ->). naive_solver. Qed.

(** ** Connections under the operations *)

Lemma dom_send_frame conns dex frame : dom (send_frame conns dex frame) = dom conns.
Proof. apply dom_alter_L. Qed.

Lemma dom_send_items `{!Codec Z} items conns : dom (send_items items conns) = dom conns.
Proof.
  unfold send_items. revert conns. induction items as [|i items IH]; intros conns; simpl; [done|].
  by rewrite IH, dom_send_frame.
Qed.

(** The frames of the hand-overs to a DEX, in the order of the batch. *)
Definition frames_for `{!Codec Z} (dex : DexId) (items : list RoutedNote) : list Bytes :=
  (λ i, handover_frame (rn_bytes i) (rn_fill i)) <$> filter (λ i, rn_dex i = dex) items.

Lemma lookup_send_items `{!Codec Z} items conns dex :
  send_items items conns !! dex =
  (λ c, if cn_open c then mk_conn (cn_out c ++ frames_for dex items) true else c) <$> conns !! dex.
Proof.
  unfold send_items. revert conns. induction items as [|i items IH]; intros conns; simpl.
  - destruct (conns !! dex) as [[out [|]]|]; simpl; [by rewrite app_nil_r|done..].
  - rewrite IH. unfold send_frame, frames_for. rewrite filter_cons. case_decide as Hd.
    + rewrite Hd, lookup_alter_eq. destruct (conns !! dex) as [[out [|]]|]; simpl; [by rewrite <-app_assoc|done..].
    + by rewrite lookup_alter_ne.
Qed.

(** ** The invariant *)

(** A published list of quotes, for one pair. *)
Record quote_list_ok (next : Z) (pair : Pair) (qs : list Quote) : Prop := {
  ql_nonempty : qs ≠ [];
  ql_sorted : quotes_sorted qs;
  ql_dexes : NoDup (q_dex <$> qs);
  ql_quotes : ∀ q, q ∈ qs → q_pair q = pair ∧ 0 < q_supply q < two64 ∧ 0 < q_demand q < two64 ∧
    0 < Z.of_N (q_dex q) < next;
}.

Definition snapshot_ok (next : Z) (snap : gmap Pair (list Quote)) : Prop :=
  ∀ p qs, snap !! p = Some qs → quote_list_ok next p qs.

Record router_inv (st : RouterState) : Prop := {
  ri_stored : ∀ d p q, stored (rs_quotes st) d p q →
    q_dex q = d ∧ q_pair q = p ∧ 0 < q_supply q < two64 ∧ 0 < q_demand q < two64;
  ri_live : dom (rs_quotes st) ⊆ dom (rs_conns st);
  ri_ids : ∀ d, d ∈ dom (rs_conns st) → 0 < Z.of_N d < rs_next_dex st;
  ri_count : rs_conn_count st = Z.of_nat (size (rs_conns st));
  ri_room : rs_conn_count st < rs_next_dex st;
  ri_published : snapshot_ok (rs_next_dex st) (rs_published st);
}.

Record sys_inv (s : RouterSys) : Prop := {
  si_router : router_inv (sy_router s);
  si_built : ∀ task snap, sy_busy s !! task = Some (Some snap) → snapshot_ok (rs_next_dex (sy_router s)) snap;
}.

Lemma snapshot_ok_later next next' snap : next <= next' → snapshot_ok next snap → snapshot_ok next' snap.
Proof.
  intros Hle H p qs Hp. destruct (H p qs Hp) as [H1 H2 H3 H4]. split; [done..|].
  intros q Hq. destruct (H4 q Hq) as (? & ? & ? & ?). split_and!; try tauto; lia.
Qed.

Section built.
Context `{HI : HashIter}.

Lemma NoDup_pair_quotes n quotes p (f : Quote → DexId) :
  (∀ d q, stored quotes d p q → f q = d) → NoDup (f <$> pair_quotes n quotes p).
Proof.
  intros Hf. unfold pair_quotes. assert (NoDup (hash_iter n (dom quotes))) as Hnd
    by (rewrite hash_iter_perm; apply NoDup_elements).
  induction Hnd as [|d ds Hd Hnd IH]; simpl; [constructor|].
  destruct (quotes !! d ≫= _) as [q|] eqn:Eq; [|done]. apply bind_Some in Eq as (per & H1 & H2).
  simpl. constructor; [|done]. rewrite (Hf d q) by (by exists per). intros (q' & Hq' & (d' & Hd' & Eq')%list_elem_of_omap)%list_elem_of_fmap.
  apply bind_Some in Eq' as (per' & H1' & H2'). rewrite (Hf d' q') in Hq' by (by exists per'). by subst.
Qed.

(** A snapshot of the quotes of a consistent router is well-formed. *)
Lemma snapshot_inv n st : router_inv st → snapshot_ok (rs_next_dex st) (snapshot n (rs_quotes st)).
Proof.
  intros Hst p qs Hqs. assert (listed (snapshot n (rs_quotes st)) p = qs) as Hl by (unfold listed; by rewrite Hqs).
  assert (∀ q, q ∈ qs ↔ ∃ d, stored (rs_quotes st) d p q) as Hin by (intros q; rewrite <-Hl; apply elem_of_snapshot).
  rewrite listed_snapshot in Hl.
  split.
  - intros ->. by apply (snapshot_grouped n (rs_quotes st) p).
  - rewrite <-Hl. apply sort_quotes_sorted, Forall_forall. intros q [d Hd]%elem_of_pair_quotes.
    apply (ri_stored st Hst) in Hd. unfold quote_pos. lia.
  - rewrite <-Hl, sort_quotes_perm. apply NoDup_pair_quotes. intros d q Hd. by apply (ri_stored st Hst) in Hd as [? _].
  - intros q [d Hd]%Hin. pose proof Hd as (per & Hper & _). apply (ri_stored st Hst) in Hd as (-> & -> & ? & ?).
    split_and!; try tauto; try lia; apply (ri_ids st Hst); apply (ri_live st Hst); by apply elem_of_dom_2 in Hper.
Qed.

Lemma republish_inv n st : router_inv st → router_inv (republish n st).
Proof. intros Hst. pose proof (snapshot_inv n st Hst). destruct Hst. by split. Qed.
End built.

(** Replacing the outbound queues keeps the invariant. *)
Lemma conns_inv st conns : router_inv st → dom conns = dom (rs_conns st) → router_inv (with_conns st conns).
Proof.
  intros [H1 H2 H3 H4 H5 H6] Hd. split; simpl; try done; rewrite <-?size_dom, ?Hd; try done. by rewrite H4, <-size_dom.
Qed.

Lemma router_new_inv cfg : router_inv (router_new cfg).
Proof. split; simpl; [by intros d p q (per & H & _)|set_solver|set_solver|done|done|intros p qs H; done]. Qed.

Lemma store_inv st dex q :
  router_inv st → dex ∈ dom (rs_conns st) → q_dex q = dex → 0 < q_supply q < two64 → 0 < q_demand q < two64 →
  router_inv (store_quote st dex q).
Proof.
  intros [H1 H2 H3 H4 H5 H6] Hdex Hq Hs Hd. split; simpl; try done.
  - intros d p q' [(-> & -> & ->)|[_ ?]]%stored_insert; [done|auto].
  - rewrite dom_insert_L. set_solver.
Qed.

Lemma drop_inv st dex : router_inv st → dex ∈ dom (rs_conns st) → router_inv (drop_dex st dex).
Proof.
  intros [H1 H2 H3 H4 H5 H6] Hdex. assert (Z.of_nat (size (delete dex (rs_conns st))) = rs_conn_count st - 1) as Hsz.
  { rewrite map_size_delete_Some by (by apply elem_of_dom). rewrite H4.
    apply elem_of_dom in Hdex as [c Hc]. assert (size (rs_conns st) ≠ 0%nat); [|lia].
    intros Hz%map_size_empty_iff. by rewrite Hz, lookup_empty in Hc. }
  split; simpl; try done; rewrite ?dom_delete_L.
  - intros d p q [_ ?]%stored_delete. auto.
  - set_solver.
  - intros d [? _]%elem_of_difference. auto.
  - unfold sat_sub. lia.
  - unfold sat_sub. lia.
Qed.

Lemma consume_inv st items : router_inv st → router_inv (with_quotes st (consume_quotes items (rs_quotes st)).1).
Proof.
  intros [H1 H2 H3 H4 H5 H6]. split; simpl; try done.
  - intros d p q [? _]%stored_consume. auto.
  - by rewrite dom_consume.
Qed.

Section steps.
Context `{HI : HashIter} {Nt : Type}.
Context `{!Codec FungibleAsset, !Codec (option Z), !Codec Nt, !Codec Z, !Codec string, !Codec (list PairSpec)}.
Context (describe : Bytes → string).

(** Miden asset amounts are 64-bit. *)
Definition asset_amounts_u64 : Prop := ∀ a : FungibleAsset, wire_ok a → is_u64 (fa_amount a).

Lemma client_read_amounts b o r v rest :
  asset_amounts_u64 → client_read b = Some (ClientQuote o r v, rest) → is_u64 (fa_amount o) ∧ is_u64 (fa_amount r).
Proof. intros Ha (Ho & Hr & _)%client_read_ok. auto. Qed.

Lemma accept_quote_inr cfg dex o r v now q :
  is_u64 (fa_amount o) → is_u64 (fa_amount r) → accept_quote (Nt := Nt) cfg dex o r v now = inr q →
  q_dex q = dex ∧ q_pair q = (fa_faucet r, fa_faucet o) ∧ q_supply q = fa_amount o ∧ q_demand q = fa_amount r ∧
  0 < q_supply q < two64 ∧ 0 < q_demand q < two64.
Proof.
  intros Ho Hr. unfold accept_quote. destruct (Z.eqb_spec (fa_amount o) 0); [done|]. simpl.
  destruct (Z.eqb_spec (fa_amount r) 0); [done|]. intros [= <-]. simpl. split_and!; try done; u64.
Qed.

(** A task that owes a build has no snapshot yet. *)
Lemma busy_owes (next : Z) (busy : gmap N (option (gmap Pair (list Quote)))) (task : N) :
  (∀ t snap, busy !! t = Some (Some snap) → snapshot_ok next snap) →
  ∀ t snap, <[task := None]> busy !! t = Some (Some snap) → snapshot_ok next snap.
Proof. intros Hb t snap [[_ [=]]|[_ H]]%lookup_insert_Some. by eapply Hb. Qed.

Lemma frame_step_inv s dex bytes now :
  asset_amounts_u64 → sys_inv s → dex ∈ dom (rs_conns (sy_router s)) →
  sys_inv (frame_step (Nt := Nt) describe s dex bytes now) ∧
  rs_next_dex (sy_router (frame_step (Nt := Nt) describe s dex bytes now)) = rs_next_dex (sy_router s).
Proof.
  intros Ha [Hr Hb] Hdex. unfold frame_step.
  assert (∀ f, sys_inv (on_router s (with_conns (sy_router s) (send_frame (rs_conns (sy_router s)) dex f)))) as Hrefuse.
  { intros f. split; [|done]. apply conns_inv; [done|apply dom_send_frame]. }
  destruct (client_read bytes) as [[[o r v] rest]|] eqn:E; [|by split].
  destruct (client_read_amounts _ _ _ _ _ Ha E).
  destruct (accept_quote _ _ _ _ _ _) as [e|q] eqn:Eq; [by split|]. apply accept_quote_inr in Eq as (? & ? & ? & ? & ? & ?); [|done..].
  split; [|done]. split; [by apply store_inv|by apply busy_owes].
Qed.

Lemma open_inv st :
  router_inv st → rs_next_dex st + 1 < two64 →
  router_inv (open_conn (Nt := Nt) st) ∧ rs_next_dex (open_conn (Nt := Nt) st) = rs_next_dex st + 1.
Proof.
  intros [H1 H2 H3 H4 H5 H6] Hroom. assert (wrap64 (rs_next_dex st + 1) = rs_next_dex st + 1) as Hn
    by (apply wrap64_small; u64). split; [|done].
  assert (rs_conns st !! Z.to_N (rs_next_dex st) = None) as Hnew.
  { apply not_elem_of_dom. intros Hd%H3. lia. }
  split; simpl; rewrite ?Hn, ?dom_insert_L; try done.
  - set_solver.
  - intros d [->%elem_of_singleton|Hd%H3]%elem_of_union; lia.
  - rewrite map_size_insert_None by done. rewrite wrap64_small by u64. lia.
  - rewrite wrap64_small by u64. lia.
  - eapply snapshot_ok_later; [|done]. lia.
Qed.

(** Every atomic step keeps the invariant. *)
Lemma sys_step_inv s a s' :
  asset_amounts_u64 → sys_inv s → rs_next_dex (sy_router s) + 1 < two64 →
  sys_step (Nt := Nt) describe s a = Some s' →
  sys_inv s' ∧ rs_next_dex (sy_router s) <= rs_next_dex (sy_router s') <= rs_next_dex (sy_router s) + 1.
Proof.
  intros Ha Hs Hroom. pose proof Hs as [Hr Hb]. destruct a as [h q| |dex bytes now|dex|items|task n|task|dex|dex]; simpl.
  - destruct (ws_handler _ _ _); intros [= <-]; (split; [done|simpl; lia]).
  - destruct (sy_upgrading s); [done|]. intros [= <-]. destruct (open_inv _ Hr Hroom) as [Ho Hn].
    split; [split; [done|]|unfold open_conn in Hn; simpl in *; lia].
    intros t snap Ht%Hb. eapply snapshot_ok_later; [|done]. unfold open_conn in Hn; simpl in *. lia.
  - destruct (_ && _) eqn:Hd; [|done]. apply andb_true_iff in Hd as [Hd%bool_decide_eq_true _]. intros [= <-].
    destruct (frame_step_inv s dex bytes now Ha Hs) as [? ->]; [by apply elem_of_dom|]. split; [done|lia].
  - destruct (_ && _) eqn:Hd; [|done]. apply andb_true_iff in Hd as [Hd%bool_decide_eq_true _]. intros [= <-].
    split; [|simpl; lia]. split; [apply drop_inv; [done|by apply elem_of_dom]|by apply busy_owes].
  - destruct (bool_decide _); [|done]. intros [= <-]. unfold deliver_step.
    pose proof (consume_inv _ items (conns_inv _ _ Hr (dom_send_items items _))) as H. simpl in H.
    destruct (consume_quotes items _) as [quotes [|]]; (split; [split; [done|]|simpl; lia]); [by apply busy_owes|done].
  - destruct (sy_busy s !! task) as [[|]|]; [done| |done]. intros [= <-]. split; [|simpl; lia]. split; [done|].
    simpl. intros t snap [[_ [= <-]]|[_ H]]%lookup_insert_Some; [by apply snapshot_inv|by eapply Hb].
  - destruct (sy_busy s !! task) as [[snap|]|] eqn:Ei; [|done..]. intros [= <-]. split; [|simpl; lia].
    pose proof (Hb _ _ Ei). split; [by destruct Hr; split|]. simpl. intros t snap' [_ H']%lookup_delete_Some. by eapply Hb.
  - intros [= <-]. split; [|simpl; lia]. split; [|done]. apply conns_inv; [done|apply dom_alter_L].
  - intros [= <-]. split; [|simpl; lia]. split; [|done]. apply conns_inv; [done|apply dom_alter_L].
Qed.

Lemma sys_run_inv acts s s' :
  asset_amounts_u64 → sys_inv s → rs_next_dex (sy_router s) + Z.of_nat (length acts) < two64 →
  sys_run (Nt := Nt) describe s acts = Some s' →
  sys_inv s' ∧ rs_next_dex (sy_router s') <= rs_next_dex (sy_router s) + Z.of_nat (length acts).
Proof.
  intros Ha. revert s. induction acts as [|a acts IH]; intros s Hs Hroom; cbn [sys_run length] in *.
  - intros [= <-]. split; [done|lia].
  - destruct (sys_step describe s a) as [s1|] eqn:E; [|done]. cbn [mbind option_bind]. intros Hrun.
    destruct (sys_step_inv s a s1 Ha Hs) as [H1 H2]; [lia|done|].
    destruct (IH s1 H1) as [H3 H4]; [lia|done|]. split; [done|lia].
Qed.
End steps.
