(* ===== verification/RouterTheorems.v ===== *)
(** * The router: theorems

    The invariant under every interleaving, the exact contents of a snapshot, what
    registering, delivering and closing do when they are not interrupted, that the whole
    operations are runs of the atomic steps, two races, and the hand-over of a note from a
    matcher tick to the connection of its DEX. *)

From stdpp Require Import option.
From S2P Require Import Prelude.
From S2P Require Import Orders.
From S2P Require Import OrderBook.
From S2P Require Import BookQueries.
From S2P Require Import Fills.
From S2P Require Import ThreeEdgeCycle.
From S2P Require Import Engine.
From S2P Require Import Select.
From S2P Require Import Types.
From S2P Require Import Matcher.
From S2P Require Import MatcherProofs.
From S2P Require Import MatcherTheorems.
From S2P Require Import Protocol.
From S2P Require Import Router.
From S2P Require Import RouterProofs.

(** ** Uninterrupted operations *)

(** The published snapshot lists exactly the stored quotes. *)
Definition up_to_date (st : RouterState) : Prop :=
  ∀ p q, q ∈ listed (rs_published st) p ↔ ∃ d, stored (rs_quotes st) d p q.

Lemma republish_up_to_date `{HI : HashIter} n st : up_to_date (republish n st).
Proof. intros p q. apply elem_of_snapshot. Qed.

Lemma deliver_fields `{HI : HashIter} `{!Codec Z} n st items :
  rs_quotes (deliver n st items) = (consume_quotes items (rs_quotes st)).1 ∧
  rs_conns (deliver n st items) = send_items items (rs_conns st) ∧
  (up_to_date st → up_to_date (deliver n st items)).
Proof.
  unfold deliver. cbn [rs_quotes with_conns].
  pose proof (stored_consume items (rs_quotes st)) as Hst. pose proof (consumed_iff items (rs_quotes st)) as Hc.
  destruct (consume_quotes items (rs_quotes st)) as [quotes consumed]. simpl in Hst, Hc.
  destruct consumed; split_and!; try done; [intros _; apply republish_up_to_date|].
  intros Hu p q. rewrite (Hu p q). simpl. split; intros [d Hd]; exists d; [|by apply Hst in Hd as [? _]].
  apply Hst. split; [done|]. apply Forall_forall. intros i Hi [<- <-]. enough (false = true) by done.
  apply Hc. eauto.
Qed.

Section uninterrupted.
Context `{HI : HashIter} {Nt : Type}.
Context `{!Codec FungibleAsset, !Codec (option Z), !Codec Nt, !Codec Z, !Codec string, !Codec (list PairSpec)}.
Context (describe : Bytes → string).

Lemma accept_quote_cases cfg dex o r v now :
  if (fa_amount o =? 0) || (fa_amount r =? 0)
  then accept_quote (Nt := Nt) cfg dex o r v now = inl (ErrorMsg "bad_quote" "quote amounts must be > 0")
  else ∃ q, accept_quote (Nt := Nt) cfg dex o r v now = inr q ∧
    q_dex q = dex ∧ q_pair q = (fa_faucet r, fa_faucet o) ∧ q_supply q = fa_amount o ∧ q_demand q = fa_amount r ∧
    q_expires_at q = sat_add64 now (Z.min (default (rc_quote_ttl_ms cfg) v) (rc_quote_ttl_ms cfg)).
Proof.
  unfold accept_quote. destruct (_ || _); [done|]. eexists. split; [done|]. simpl. split_and!; try done. f_equal.
  destruct v; simpl; [done|]. by rewrite Z.min_id.
Qed.

(** The last steps of a change: build, then publish what was built. *)
Lemma build_publish s task st n :
  sy_busy s !! task = None →
  sys_run (Nt := Nt) describe (owes_build s task st) [Build task n; Publish task] =
  Some (on_router s (republish n st)).
Proof.
  intros Ht. unfold owes_build, on_router. simpl. rewrite lookup_insert_eq. simpl. rewrite lookup_insert_eq. simpl.
  do 2 f_equal. by rewrite insert_insert_eq, delete_insert_id.
Qed.
End uninterrupted.

(** ** Theorems *)


(** A snapshot is the stored quotes grouped by pair, whatever order the hash maps are
    iterated in: under a pair it lists exactly the stored quotes of that pair, best rate
    first, and a pair without quotes is absent. *)
Theorem snapshot_exact `{HI : HashIter} n st p :
  router_inv st →
  (∀ q, q ∈ listed (snapshot n (rs_quotes st)) p ↔ ∃ dex, stored (rs_quotes st) dex p q) ∧
  quotes_sorted (listed (snapshot n (rs_quotes st)) p) ∧ NoDup (q_dex <$> listed (snapshot n (rs_quotes st)) p) ∧
  (snapshot n (rs_quotes st) !! p = None ↔ ¬ ∃ dex q, stored (rs_quotes st) dex p q).
Proof.
  intros Hst. pose proof (elem_of_snapshot n (rs_quotes st) p) as Hin.
  pose proof (snapshot_inv n st Hst p) as Hok. pose proof (snapshot_grouped n (rs_quotes st) p) as Hg.
  unfold listed in *. destruct (snapshot n (rs_quotes st) !! p) as [qs|]; simpl in *.
  - destruct (Hok qs eq_refl) as [H1 H2 H3 _]. split_and!; [done..|]. split; [done|]. intros Hn.
    destruct qs as [|q qs]; [done|]. destruct Hn. destruct (proj1 (Hin q)) as [d Hd]; [by left|]. eauto.
  - split_and!; [done|constructor|constructor|]. split; [|done]. intros _ (d & q & Hd).
    assert (q ∈ []) as ?%elem_of_nil by (apply Hin; eauto). done.
Qed.

(** A quote is stored turned around and never outlives the server's time-to-live.  A zero
    amount is refused and changes nothing; otherwise the quote replaces the DEX's quote for
    the pair the notes it can fill have, with its amounts unchanged, and expires after the
    validity the DEX asked for capped by the configured one, with the sum kept within 64
    bits; every other stored quote is kept and the published snapshot is up to date. *)
Theorem register_quote_bounds `{HI : HashIter} {Nt : Type} n st dex o r v now :
  is_u64 now → 0 <= rc_quote_ttl_ms (rs_cfg st) → (∀ x, v = Some x → 0 <= x) →
  let '(st', err) := register_quote (Nt := Nt) n st dex o r v now in
  if (fa_amount o =? 0) || (fa_amount r =? 0)
  then st' = st ∧ err = Some (ErrorMsg "bad_quote" "quote amounts must be > 0")
  else err = None ∧ up_to_date st' ∧ rs_conns st' = rs_conns st ∧
    (∃ q, stored (rs_quotes st') dex (fa_faucet r, fa_faucet o) q ∧
      q_supply q = fa_amount o ∧ q_demand q = fa_amount r ∧ is_u64 (q_expires_at q) ∧
      now <= q_expires_at q <= now + rc_quote_ttl_ms (rs_cfg st) ∧
      (∀ x, v = Some x → q_expires_at q <= now + x)) ∧
    (∀ d p q, (d, p) ≠ (dex, (fa_faucet r, fa_faucet o)) → stored (rs_quotes st') d p q ↔ stored (rs_quotes st) d p q).
Proof.
  intros Hnow Httl Hv. unfold register_quote. pose proof (accept_quote_cases (Nt := Nt) (rs_cfg st) dex o r v now) as H.
  destruct (_ || _); [by rewrite H|]. destruct H as (q & -> & Hd & Hp & Hs & Hdem & He).
  split_and!; [done|apply republish_up_to_date|done| |].
  - exists q. split; [apply stored_insert; left; by rewrite Hp|]. rewrite He.
    assert (0 <= Z.min (default (rc_quote_ttl_ms (rs_cfg st)) v) (rc_quote_ttl_ms (rs_cfg st))
              <= rc_quote_ttl_ms (rs_cfg st)) as Hmin.
    { destruct v as [x|]; simpl; [specialize (Hv x eq_refl)|]; lia. }
    split_and!; try done; [u64..|]. intros x ->. simpl in *. u64.
  - intros d p q' Hne. simpl. rewrite stored_insert, Hp. split; [intros [(-> & -> & _)|[_ ?]]; [by destruct Hne|done]|].
    intros Hq. right. split; [|done]. intros [-> ->]. done.
Qed.

(** A delivery reaches exactly the addressed connections and uses up exactly the quotes it
    was made on: every open connection gets the frames of its notes, in order, after what it
    already had; the used quotes are gone, all others stay; and if the published snapshot
    was up to date it is again, so no used quote is offered to the matcher. *)
Theorem deliver_exact `{HI : HashIter} `{!Codec Z} n st items :
  router_inv st → up_to_date st →
  up_to_date (deliver n st items) ∧
  (∀ dex, rs_conns (deliver n st items) !! dex =
    (λ c, if cn_open c then mk_conn (cn_out c ++ frames_for dex items) true else c) <$> rs_conns st !! dex) ∧
  (∀ d p q, stored (rs_quotes (deliver n st items)) d p q ↔
    stored (rs_quotes st) d p q ∧ ¬ ∃ i, i ∈ items ∧ rn_dex i = d ∧ rn_pair i = p) ∧
  (∀ i q, i ∈ items → q ∈ listed (rs_published (deliver n st items)) (rn_pair i) → q_dex q ≠ rn_dex i).
Proof.
  intros Hst Hu. destruct (deliver_fields n st items) as (Eq & Ec & Hup).
  assert (∀ d p q, stored (rs_quotes (deliver n st items)) d p q ↔
    stored (rs_quotes st) d p q ∧ ¬ ∃ i, i ∈ items ∧ rn_dex i = d ∧ rn_pair i = p) as Hstored.
  { intros d p q. rewrite Eq, stored_consume, Forall_forall. unfold uses. naive_solver. }
  split_and!; [auto| |done|].
  - intros dex. rewrite Ec. apply lookup_send_items.
  - intros i q Hi [d [Hd Hn]%Hstored]%(Hup Hu) He. apply (ri_stored st Hst) in Hd as [Hd _]. apply Hn. exists i. naive_solver.
Qed.

(** The operations of the code are the uninterrupted runs of the atomic steps: handling a
    frame, delivering a batch and closing a connection each equal the locked part followed
    by the build and the publication of the task's own snapshot, whatever other tasks have in
    flight. *)
Theorem operations_refine_steps `{HI : HashIter} {Nt : Type}
    `{!Codec FungibleAsset, !Codec (option Z), !Codec Nt, !Codec Z, !Codec string, !Codec (list PairSpec)}
    describe s n dex bytes now items :
  is_Some (rs_conns (sy_router s) !! dex) → sy_busy s !! dex = None → sy_busy s !! 0%N = None →
  let st := sy_router s in
  let finish task := [Build task n; Publish task] in
  let run a := sys_run (Nt := Nt) describe s a in
  (∃ l, l ∈ [[]; finish dex] ∧
    run (Frame dex bytes now :: l) = Some (on_router s (on_frame (Nt := Nt) describe n st dex bytes now))) ∧
  (∃ l, l ∈ [[]; finish 0%N] ∧ run (Deliver items :: l) = Some (on_router s (deliver n st items))) ∧
  run (Close dex :: finish dex) = Some (on_router s (deregister n st dex)).
Proof.
  intros Hc Hd H0 st finish run. unfold run, sys_run, sys_step. fold (sys_run (Nt := Nt) describe).
  rewrite !(bool_decide_eq_true_2 _ Hc), (bool_decide_eq_true_2 _ Hd), (bool_decide_eq_true_2 _ H0). cbn [andb]. split_and!.
  - unfold on_frame, handle_client_msg, frame_step. cbn [mbind option_bind].
    destruct (client_read bytes) as [[[o r v] rest]|]; [|exists []; split; [by left|done]].
    unfold register_quote. fold st. destruct (accept_quote _ _ _ _ _ _) as [e|q]; [exists []; split; [by left|done]|].
    exists (finish dex). split; [by right; left|]. by apply build_publish.
  - unfold deliver_step, deliver. cbn [mbind option_bind rs_quotes with_conns]. fold st.
    destruct (consume_quotes items (rs_quotes st)) as [quotes [|]].
    + exists (finish 0%N). split; [by right; left|]. by apply build_publish.
    + exists []. split; [by left|done].
  - by apply build_publish.
Qed.

(** A note routed by a tick reaches its DEX.  When the tick reads the router's up-to-date
    snapshot, every note it routes is for a connected DEX; delivering the routed notes
    appends to the queue of that connection, if its writer is alive, a frame that decodes
    to exactly the note whose bytes the matcher stored and the whole amount it requests,
    and the quote it was routed on is no longer stored or published. *)
Theorem routed_notes_reach_dex `{HI : HashIter} `{CH : CycleHeap} {Nt : Type}
    `{!Codec Nt, !Codec Z, !Codec string, !Codec (list PairSpec)} n fuel s i out st r :
  matcher_run s → input_ok s i → tick fuel s i = Some out → to_stopped out = false →
  router_inv st → up_to_date st → rs_published st = ti_quotes i → r ∈ to_routed out →
  ∃ o c, visible (tk_book (entering s i)) (rn_note_id r) o ∧ rn_fill r = requested o ∧
    rs_conns st !! rn_dex r = Some c ∧
    (cn_open c = true → ∃ c', rs_conns (deliver n st (to_routed out)) !! rn_dex r = Some c' ∧
      handover_frame (rn_bytes r) (rn_fill r) ∈ cn_out c') ∧
    tk_raw (entering s i) !! rn_note_id r = Some (rn_bytes r) ∧
    (∀ note : Nt, wire_ok note → wire_ok (requested o) → rn_bytes r = encode note →
      server_read (handover_frame (rn_bytes r) (rn_fill r)) = Some (Handover note (requested o), [])) ∧
    (∀ q, ¬ stored (rs_quotes (deliver n st (to_routed out))) (rn_dex r) (rn_pair r) q) ∧
    up_to_date (deliver n st (to_routed out)).
Proof.
  intros Hs%matcher_run_inv Hin Ht Hns Hst Hu Hpub Hr.
  destruct (tick_result fuel s i out Hs Hin Ht) as [_ Hgo]. pose proof (ts_routed _ _ _ (Hgo Hns)) as Hok.
  destruct (ro_notes _ _ _ _ Hok r Hr) as (o & q & qs & Hv & Hwhole & Hfill & Hpair & Hraw & Hqs & Hq & Hdex & _).
  assert (∃ d, stored (rs_quotes st) d (pair_of o) q) as [d Hd].
  { apply Hu. unfold listed. by rewrite Hpub, Hqs. }
  assert (rn_dex r = d) as -> by (rewrite <-Hdex; by apply (ri_stored st Hst) in Hd as [? _]).
  assert (is_Some (rs_conns st !! d)) as [c Hc].
  { destruct Hd as (per & Hper & _). apply elem_of_dom, (ri_live st Hst). by eapply elem_of_dom_2. }
  destruct (deliver_fields n st (to_routed out)) as (Eq & Ec & Hup). exists o, c. split_and!; try done.
  - intros Hopen. rewrite Ec, lookup_send_items, Hc. simpl. rewrite Hopen. eexists. split; [done|]. simpl.
    apply elem_of_app. right. apply list_elem_of_fmap. exists r. split; [done|]. apply list_elem_of_filter.
    split; [|done]. rewrite <-Hdex. by apply (ri_stored st Hst) in Hd as [? _].
  - intros note Hn Hf ->. rewrite Hfill, <-(app_nil_r (handover_frame _ _)).
    by apply (server_read_write (Handover note (requested o))).
  - intros q'. rewrite Eq, stored_consume, Forall_forall. intros [_ Hn]. apply (Hn r Hr). split; [|done].
    rewrite <-Hdex. by apply (ri_stored st Hst) in Hd as [? _].
  - auto.
Qed.

(** ** Races *)

(** The runs below are evaluated with the concrete encodings. *)
Definition note_codec : Codec DemoNote.
Proof.
  refine {| wire_ok := λ _, True; encode := demo_write;
            decode := λ b, match b with
              | k :: i :: o :: oa :: r :: ra :: c :: rest => Some (mk_demo (bool_decide (k = 1%N)) i o oa r ra c, rest)
              | _ => None end |}; [|done].
  by intros [[|] ? ? ? ? ? ?] rest _.
Defined.

Definition demo_client_write : ClientMsg → Bytes := @client_write asset_codec option_codec.
Abbreviation demo_run := (@sys_run elements_iter DemoNote asset_codec option_codec note_codec z_codec string_codec
  (@list_codec _ (@pair_spec_codec n_codec)) (λ _, EmptyString)).

(** A quote of DEX-side terms: gives token 2, wants token 1. *)
Definition demo_frame (gives wants : Z) : Bytes :=
  demo_client_write (ClientQuote (mk_asset 2 gives) (mk_asset 1 wants) None).
Definition demo_cfg (max : Z) : RouterConfig := mk_router_cfg "127.0.0.1" 8080 max 65536 2000 ["secret"%string].
Definition demo_connect : list RouterAct := [Connect (Some "Bearer secret"%string) None; Open].

Lemma demo_assets_u64 : @asset_amounts_u64 asset_codec.
Proof. by intros a. Qed.

Lemma demo_run_inv cfg acts s :
  1 + Z.of_nat (length acts) < two64 → demo_run (sys_new cfg) acts = Some s → sys_inv s.
Proof.
  intros Hlen Hrun. eapply (sys_run_inv _ acts (sys_new cfg) s demo_assets_u64); [|done|exact Hrun].
  split; [apply router_new_inv|by intros ? ? ?].
Qed.

(** Two DEXes connect and the first one quotes. *)
Definition race_prefix : list RouterAct :=
  demo_connect ++ demo_connect ++ [Frame 1 (demo_frame 500 500) 0; Build 1 0; Publish 1].
(** The second one quotes; between the build and the publication of its snapshot, the first
    one's connection is closed, deregistered and published as gone. *)
Definition race_stale : list RouterAct :=
  race_prefix ++ [Frame 2 (demo_frame 400 500) 0; Build 2 0; Close 1; Build 1 0; Publish 1; Publish 2].

(** A snapshot is built under the lock and sent after it is released, so two tasks can publish
    out of order: a run ends, with no task busy, in a state in which the quote of a DEX that
    was deregistered and dropped is published again, and the snapshot stays out of date
    until the next change. *)
Theorem stale_snapshot_published :
  ∃ s q, demo_run (sys_new (demo_cfg 10)) race_stale = Some s ∧ sy_busy s = ∅ ∧
    rs_conns (sy_router s) !! 1%N = None ∧ rs_quotes (sy_router s) !! 1%N = None ∧
    q ∈ listed (rs_published (sy_router s)) (1%N, 2%N) ∧ q_dex q = 1%N ∧ ¬ up_to_date (sy_router s).
Proof.
  destruct (demo_run (sys_new (demo_cfg 10)) race_stale) as [s|] eqn:E; [|vm_compute in E; discriminate E].
  pose proof (ri_stored _ (si_router _ (demo_run_inv (demo_cfg 10) race_stale s eq_refl E))) as Hst.
  exists s, (mk_quote 1 (1%N, 2%N) 500 500 2000). vm_compute in E. injection E as <-.
  assert (mk_quote 1 (1%N, 2%N) 500 500 2000 ∈
    [mk_quote 1 (1%N, 2%N) 500 500 2000; mk_quote 2 (1%N, 2%N) 400 500 2000]) as Hin by (by left).
  split_and!; try reflexivity; [exact Hin|]. intros Hu. destruct (proj1 (Hu (1%N, 2%N) _) Hin) as (d & Hd).
  pose proof Hd as (per & Hper & _). apply Hst in Hd as [<- _]. discriminate Hper.
Qed.

(** Two requests are admitted before either connection is counted. *)
Definition race_capacity : list RouterAct :=
  [Connect (Some "Bearer secret"%string) None; Connect None (Some "secret"%string); Open; Open].

(** No admission is decided while an accepted connection is not counted yet. *)
Fixpoint serial_admissions (pending : bool) (acts : list RouterAct) : bool :=
  match acts with
  | [] => true
  | Connect _ _ :: acts => negb pending && serial_admissions true acts
  | Open :: acts => serial_admissions false acts
  | _ :: acts => serial_admissions pending acts
  end.

(** Within the limit, counting the accepted connection that is not open yet. *)
Definition within_limit (cfg : RouterConfig) (pending : bool) (s : RouterSys) : Prop :=
  rs_cfg (sy_router s) = cfg ∧ (sy_upgrading s <= if pending then 1 else 0)%nat ∧
  rs_conn_count (sy_router s) + Z.of_nat (sy_upgrading s) <= rc_max_connections cfg.

Section capacity.
Context `{HI : HashIter} {Nt : Type}.
Context `{!Codec FungibleAsset, !Codec (option Z), !Codec Nt, !Codec Z, !Codec string, !Codec (list PairSpec)}.
Context (describe : Bytes → string).

Lemma frame_step_limit cfg pending s dex bytes now :
  within_limit cfg pending s → within_limit cfg pending (frame_step (Nt := Nt) describe s dex bytes now).
Proof.
  intros Hs. unfold frame_step. destruct (client_read bytes) as [[[o r v] ?]|]; [|done].
  by destruct (accept_quote _ _ _ _ _ _).
Qed.

Lemma deliver_step_limit cfg pending s items :
  within_limit cfg pending s → within_limit cfg pending (deliver_step s items).
Proof. intros Hs. unfold deliver_step. by destruct (consume_quotes _ _) as [? [|]]. Qed.

Lemma sys_step_limit cfg pending s a s' :
  sys_inv s → rs_next_dex (sy_router s) + 1 < two64 → within_limit cfg pending s →
  (pending = true → ∀ h q, a ≠ Connect h q) → sys_step (Nt := Nt) describe s a = Some s' →
  within_limit cfg (match a with Connect _ _ => true | Open => false | _ => pending end) s'.
Proof.
  intros [[_ _ _ Hcount Hroom _] _] Hnext Hs Hconn. pose proof Hs as (Hcfg & Hup & Hlim).
  destruct a as [h q| |dex bytes now|dex|items|task n|task|dex|dex]; simpl.
  - destruct pending; [by destruct (Hconn eq_refl h q)|]. unfold ws_handler.
    destruct (negb _); [intros [= <-]; split_and!; [done|lia|done]|].
    destruct (Z.leb_spec (rc_max_connections (rs_cfg (sy_router s))) (rs_conn_count (sy_router s))) as [|Hlt];
      intros [= <-]; (split_and!; [done|simpl; lia|]); [done|]. simpl. rewrite Hcfg in Hlt. lia.
  - destruct (sy_upgrading s) as [|k] eqn:Ek; [done|]. intros [= <-]. split_and!; [done|destruct pending; simpl; lia|].
    simpl. rewrite wrap64_small by u64. lia.
  - destruct (_ && _); [|done]. intros [= <-]. by apply frame_step_limit.
  - destruct (_ && _); [|done]. intros [= <-]. split_and!; [done..|]. simpl. unfold sat_sub. lia.
  - destruct (bool_decide _); [|done]. intros [= <-]. by apply deliver_step_limit.
  - destruct (sy_busy s !! task) as [[|]|]; [done| |done]. by intros [= <-].
  - destruct (sy_busy s !! task) as [[|]|]; [|done..]. by intros [= <-].
  - by intros [= <-].
  - by intros [= <-].
Qed.

Lemma sys_run_limit cfg acts pending s s' :
  asset_amounts_u64 → sys_inv s → rs_next_dex (sy_router s) + Z.of_nat (length acts) < two64 →
  within_limit cfg pending s → serial_admissions pending acts = true →
  sys_run (Nt := Nt) describe s acts = Some s' → ∃ pending', within_limit cfg pending' s'.
Proof.
  intros Ha. revert pending s. induction acts as [|a acts IH]; intros pending s Hs Hroom Hlim Hser; cbn [sys_run length] in *.
  - intros [= <-]. eauto.
  - destruct (sys_step describe s a) as [s1|] eqn:E; [|done]. cbn [mbind option_bind]. intros Hrun.
    assert (pending = true → ∀ h q, a ≠ Connect h q) as Hconn by (intros -> h q ->; done).
    destruct (sys_step_inv (Nt := Nt) describe s a s1 Ha Hs) as [H1 H2]; [lia|done|].
    eapply (IH _ s1 H1); [lia| | |exact Hrun]; [apply (sys_step_limit cfg pending s a s1); [done|lia|done..]|].
    destruct a; try done; simpl in Hser. by apply andb_true_iff in Hser as [_ ?].
Qed.
End capacity.

(** The connection limit holds when admissions are serial: as long as no request is decided
    while an accepted connection is still to be counted, the number of connections never
    exceeds the configured maximum. *)
Theorem capacity_respected `{HI : HashIter} {Nt : Type}
    `{!Codec FungibleAsset, !Codec (option Z), !Codec Nt, !Codec Z, !Codec string, !Codec (list PairSpec)}
    describe cfg acts s :
  asset_amounts_u64 → 1 + Z.of_nat (length acts) < two64 → 0 <= rc_max_connections cfg →
  serial_admissions false acts = true → sys_run (Nt := Nt) describe (sys_new cfg) acts = Some s →
  Z.of_nat (size (rs_conns (sy_router s))) <= rc_max_connections cfg.
Proof.
  intros Ha Hlen Hmax Hser Hrun.
  assert (sys_inv (sys_new cfg)) as Hnew by (split; [apply router_new_inv|by intros ? ? ?]).
  destruct (sys_run_inv (Nt := Nt) describe acts (sys_new cfg) s Ha Hnew) as [[Hr _] _]; [done..|].
  destruct (sys_run_limit (Nt := Nt) describe cfg acts false (sys_new cfg) s Ha Hnew) as (p & _ & _ & Hlim); [done| |done..|].
  - by split_and!.
  - rewrite <-(ri_count _ Hr). lia.
Qed.

(** The limit is checked before the upgrade and counted after it, so it can be exceeded: with
    room for one connection, two requests that are both checked before either is opened
    leave two connections. *)
Theorem capacity_exceeded :
  ∃ s, demo_run (sys_new (demo_cfg 1)) race_capacity = Some s ∧
    size (rs_conns (sy_router s)) = 2%nat ∧ rc_max_connections (rs_cfg (sy_router s)) = 1.
Proof.
  destruct (demo_run (sys_new (demo_cfg 1)) race_capacity) as [s|] eqn:E; [|vm_compute in E; discriminate E].
  exists s. vm_compute in E. injection E as <-. done.
Qed.

(** ** Witnesses *)

(** Nine DEXes connect and the last one quotes what the matcher's example tick reads. *)
Definition nine_acts : list RouterAct :=
  concat (replicate 9 demo_connect) ++ [Frame 9 (demo_frame 500 500) 0; Build 9 0; Publish 9].
Definition nine_sys : RouterSys :=
  match demo_run (sys_new (demo_cfg 10)) nine_acts with Some s => s | None => sys_new (demo_cfg 10) end.
Definition nine_router : RouterState := sy_router nine_sys.

Lemma nine_run : demo_run (sys_new (demo_cfg 10)) nine_acts = Some nine_sys.
Proof. vm_compute. reflexivity. Qed.

Lemma nine_inv : router_inv nine_router.
Proof. apply (si_router nine_sys (demo_run_inv (demo_cfg 10) nine_acts nine_sys eq_refl nine_run)). Qed.

(** Before the publication. *)
Definition nine_before : RouterState :=
  match demo_run (sys_new (demo_cfg 10)) (take 19 nine_acts) with Some s => sy_router s | None => router_new (demo_cfg 10) end.

Lemma nine_up_to_date : up_to_date nine_router.
Proof.
  assert (nine_router = @republish elements_iter 0 nine_before) as -> by (vm_compute; reflexivity).
  apply republish_up_to_date.
Qed.


Lemma snapshot_exact_witness :
  quotes_sorted (listed (@snapshot elements_iter 0 (rs_quotes nine_router)) (1%N, 2%N)).
Proof. apply (snapshot_exact (HI := elements_iter) 0 nine_router (1%N, 2%N) nine_inv). Defined.

Lemma nine_ttl : rc_quote_ttl_ms (rs_cfg nine_router) = 2000.
Proof. vm_compute. reflexivity. Qed.

(** DEX 3 quotes with a validity longer than the server's. *)
Lemma register_quote_bounds_witness :
  ∃ q, stored (rs_quotes (register_quote (HI := elements_iter) (Nt := DemoNote) 0 nine_router 3
    (mk_asset 2 70) (mk_asset 1 60) (Some 9000) 1000).1) 3 (1%N, 2%N) q ∧ q_expires_at q <= 3000.
Proof.
  pose proof (register_quote_bounds (HI := elements_iter) (Nt := DemoNote) 0 nine_router 3 (mk_asset 2 70) (mk_asset 1 60)
    (Some 9000) 1000) as H. rewrite nine_ttl in H. destruct (register_quote _ _ _ _ _ _ _) as [st' err].
  cbn [fa_amount fa_faucet Z.eqb orb] in H.
  destruct H as (_ & _ & _ & (q & Hq & _ & _ & _ & [_ He] & _) & _); [u64|lia|by intros x [= <-]|].
  exists q. split; [exact Hq|]. clear Hq. lia.
Defined.

Definition nine_items : list RoutedNote := [mk_routed 9 1 50 (1%N, 2%N) [7%N]].

Lemma deliver_exact_witness :
  (∃ q, stored (rs_quotes nine_router) 9 (1%N, 2%N) q) ∧
  ∀ q, ¬ stored (rs_quotes (@deliver elements_iter z_codec 0 nine_router nine_items)) 9 (1%N, 2%N) q.
Proof.
  split; [do 2 eexists; split; vm_compute; reflexivity|]. intros q Hq. destruct (deliver_exact (HI := elements_iter) (Codec0 := z_codec) 0 nine_router nine_items nine_inv nine_up_to_date)
    as (_ & _ & H & _). apply H in Hq as [_ Hn]. apply Hn. exists (mk_routed 9 1 50 (1%N, 2%N) [7%N]). split; [by left|done].
Defined.

Lemma operations_refine_steps_witness :
  demo_run nine_sys [Close 9; Build 9 0; Publish 9] =
  Some (on_router nine_sys (@deregister elements_iter 0 nine_router 9)).
Proof.
  apply (operations_refine_steps (HI := elements_iter) (Nt := DemoNote) (Codec0 := asset_codec) (Codec1 := option_codec)
    (Codec2 := note_codec) (Codec3 := z_codec) (Codec4 := string_codec) (Codec5 := @list_codec _ (@pair_spec_codec n_codec))
    (λ _, EmptyString) nine_sys 0 9 [] 0 []); [eexists|..]; vm_compute; reflexivity.
Defined.

Lemma nine_routes : rs_published nine_router = ti_quotes demo_input.
Proof. vm_compute. reflexivity. Qed.

(** The note the example tick routes to DEX 9 arrives there as a hand-over of note 1. *)
Lemma routed_notes_reach_dex_witness :
  ∃ c', rs_conns (@deliver elements_iter z_codec 0 nine_router (to_routed demo_out)) !! 9%N = Some c' ∧
    @handover_frame z_codec (demo_bytes 1 1 100 2 50) 50 ∈ cn_out c'.
Proof.
  assert (mk_routed 9 1 50 (1%N, 2%N) (demo_bytes 1 1 100 2 50) ∈ to_routed demo_out) as Hr
    by (rewrite (proj1 (proj2 demo_out_sends)); by left).
  destruct (routed_notes_reach_dex (HI := elements_iter) (CH := list_heap) (Nt := DemoNote) (Codec0 := note_codec)
    (Codec1 := z_codec) (Codec2 := string_codec) (Codec3 := @list_codec _ (@pair_spec_codec n_codec)) 0 10 demo_start demo_input
    demo_out nine_router _ demo_start_run demo_input_ok demo_tick_out (proj2 (proj2 demo_out_sends)) nine_inv nine_up_to_date
    nine_routes Hr) as (o & c & _ & _ & Hc & Hopen & _). apply Hopen. vm_compute in Hc. injection Hc as <-. reflexivity.
Defined.

Lemma capacity_respected_witness : Z.of_nat (size (rs_conns (sy_router nine_sys))) <= 10.
Proof.
  apply (capacity_respected (HI := elements_iter) (Nt := DemoNote) (Codec0 := asset_codec) (Codec1 := option_codec)
    (Codec2 := note_codec) (Codec3 := z_codec) (Codec4 := string_codec) (Codec5 := @list_codec _ (@pair_spec_codec n_codec))
    (λ _, EmptyString) (demo_cfg 10) nine_acts nine_sys
    demo_assets_u64 eq_refl); [done|reflexivity|exact nine_run].
Defined.
