(* ===== verification/LpClient.v ===== *)
(** * The LP client's connection supervisor (crates/lp-sdk/src/client.rs)

    The self-healing connection of a liquidity provider: the send half, the quoting loop,
    the reader and writer of a live connection and the reconnect loop with its backoff.
    The socket, the clock and the owner of the client are the environment: each of their
    moves is an input of [lp_step]. *)

From stdpp Require Import option.
From S2P Require Import Prelude.
From S2P Require Import Types.
From S2P Require Import Protocol.

(** ** Data *)

(** In milliseconds. *)
Definition RECONNECT_MIN : Z := 500.
Definition RECONNECT_MAX : Z := 30000.
Definition STABLE_UPTIME : Z := 10000.

Inductive LpError :=
  | AuthRejected
  | Transport (msg : string)
  | Closed (msg : string)
  | InvalidQuote (msg : string)
  | ProtocolError (code msg : string)
  | Consume (msg : string).

(** [consume_args]: the arguments of a note from [PswapNote::create_args], whose error is the
    text of the SDK's. *)
Definition consume_args {W : Type} (create_args : Z → Z → string + W) (account_fill note_fill : Z) : LpError + W :=
  match create_args account_fill note_fill with inl e => inl (Consume e) | inr w => inr w end.

Inductive LpEvent (Nt : Type) :=
  | EvAuthOk
  | EvAsk (pairs : list PairSpec)
  | EvHandover (note : Nt) (fill_amount : Z)
  | EvError (e : LpError)
  | EvReconnecting (attempt : Z)
  | EvReconnected
  | EvDisconnected (reason : string).
Arguments EvAuthOk {Nt}.
Arguments EvAsk {Nt} pairs.
Arguments EvHandover {Nt} note fill_amount.
Arguments EvError {Nt} e.
Arguments EvReconnecting {Nt} attempt.
Arguments EvReconnected {Nt}.
Arguments EvDisconnected {Nt} reason.

(** [From<ServerMsg> for LpEvent] *)
Definition event_of {Nt} (m : ServerMsg Nt) : LpEvent Nt :=
  match m with
  | AuthOk => EvAuthOk
  | Ask pairs => EvAsk pairs
  | Handover note fill_amount => EvHandover note fill_amount
  | ErrorMsg code msg => EvError (ProtocolError code msg)
  end.

(** Where [supervise] is: driving a socket since a time, sleeping before an attempt, or
    returned. *)
Inductive Phase := Live (started : Z) | Backoff | Ended.

(** The supervisor's locals and the two channels.  [lp_wire] is what was written to the
    current socket. *)
Record Lp (Nt : Type) := mk_lp {
  lp_phase : Phase;
  lp_attempt : Z;
  lp_delay : Z;
  lp_out : list ClientMsg;
  lp_wire : list Bytes;
  lp_events : list (LpEvent Nt);
  lp_listening : bool;
}.
Arguments mk_lp {Nt}.
Arguments lp_phase {Nt}.
Arguments lp_attempt {Nt}.
Arguments lp_delay {Nt}.
Arguments lp_out {Nt}.
Arguments lp_wire {Nt}.
Arguments lp_events {Nt}.
Arguments lp_listening {Nt}.

(** [connect_and_auth]: a bad url or token fails before the request ([url_error] is the
    error of parsing the url); HTTP 401 at the upgrade is [AuthRejected], any other failure
    is [Transport]. *)
Inductive HttpReply := Accepted | HttpStatus (code : Z) (text : string) | IoError (text : string).

Definition connect_and_auth (url_error : option string) (header_ok : bool) (reply : HttpReply) : unit + LpError :=
  match url_error with
  | Some text => inr (Transport text)
  | None =>
    if negb header_ok then inr (Transport "token has invalid header characters")
    else
      match reply with
      | Accepted => inl ()
      | HttpStatus code text => if code =? 401 then inr AuthRejected else inr (Transport text)
      | IoError text => inr (Transport text)
      end
  end.

(** What the environment does. *)
Inductive LpInput :=
  | Quoted (offered requested : FungibleAsset) (valid_for_ms : option Z)  (* a call of [quote] *)
  | Received (frame : Bytes)              (* a binary frame *)
  | ReadEnded (now : Z)                   (* close, read error or end of the stream *)
  | Written                               (* the head of the queue is written *)
  | WriteFailed (now : Z)                 (* writing the head of the queue fails *)
  | SendersGone                           (* every sender is dropped *)
  | Dropped                               (* the client is dropped *)
  | DropNoticed                           (* the writer sees that the client is dropped *)
  | Retried (reply : HttpReply) (now : Z).  (* the sleep passed and the attempt ended *)

(** ** Sending *)

(** [UnboundedSender::send] succeeds while the supervisor holds the receiver. *)
Definition sender_send {Nt} (s : Lp Nt) (m : ClientMsg) : Lp Nt * option LpError :=
  match lp_phase s with
  | Ended => (s, Some (Closed "client dropped; connection task gone"))
  | _ => (mk_lp (lp_phase s) (lp_attempt s) (lp_delay s) (lp_out s ++ [m]) (lp_wire s) (lp_events s) (lp_listening s), None)
  end.

Definition sender_quote {Nt} (s : Lp Nt) (offered requested : FungibleAsset) (valid_for_ms : option Z) :
    Lp Nt * option LpError :=
  if (fa_amount offered =? 0) || (fa_amount requested =? 0)
  then (s, Some (InvalidQuote "quote amounts must be > 0"))
  else sender_send s (ClientQuote offered requested valid_for_ms).

(** [FungibleAsset::new], which the Miden library restricts. *)
Section quoting.
Context {Nt : Type} (asset_new : TokenId → Z → option FungibleAsset).

(** One round of [quote_loop] over the pairs; [true] when the loop returns. *)
Fixpoint quote_round (price : PairSpec → option (Z * Z)) (pairs : list PairSpec) (s : Lp Nt) : Lp Nt * bool :=
  match pairs with
  | [] => (s, false)
  | spec :: pairs =>
    match price spec with
    | None => quote_round price pairs s
    | Some (offered_amount, requested_amount) =>
      match asset_new (ps_offered spec) offered_amount, asset_new (ps_requested spec) requested_amount with
      | Some offered, Some requested =>
        match sender_quote s offered requested None with
        | (s, Some (Closed _)) => (s, true)
        | (s, _) => quote_round price pairs s
        end
      | _, _ => quote_round price pairs s
      end
    end
  end.

(** One turn of [quote_loop], before its sleep. *)
Definition quote_turn (price : PairSpec → option (Z * Z)) (pairs : list PairSpec) (s : Lp Nt) : Lp Nt * bool :=
  match lp_phase s with Ended => (s, true) | _ => quote_round price pairs s end.
End quoting.

(** ** The supervisor *)

Section supervisor.
Context {Nt : Type}.
Context `{!Codec FungibleAsset, !Codec (option Z), !Codec Nt, !Codec Z, !Codec string, !Codec (list PairSpec)}.

(** [ev_tx.send]: lost once the client is dropped. *)
Definition emit (s : Lp Nt) (e : LpEvent Nt) : Lp Nt :=
  if lp_listening s then
    mk_lp (lp_phase s) (lp_attempt s) (lp_delay s) (lp_out s) (lp_wire s) (lp_events s ++ [e]) true
  else s.

Definition with_phase (s : Lp Nt) (p : Phase) : Lp Nt :=
  mk_lp p (lp_attempt s) (lp_delay s) (lp_out s) (lp_wire s) (lp_events s) (lp_listening s).

(** [supervise] on a fresh socket. *)
Definition supervise_start (now : Z) : Lp Nt := mk_lp (Live now) 0 RECONNECT_MIN [] [] [EvAuthOk] true.

(** [LpClient::connect]: it fails fast, or hands the socket to the supervisor. *)
Definition lp_connect (url_error : option string) (header_ok : bool) (reply : HttpReply) (now : Z) : Lp Nt + LpError :=
  match connect_and_auth url_error header_ok reply with inl _ => inl (supervise_start now) | inr e => inr e end.

(** The top of the reconnect loop, up to the sleep. *)
Definition retry_top (s : Lp Nt) : Lp Nt :=
  if negb (lp_listening s) then with_phase s Ended
  else
    let attempt := Z.min (two32 - 1) (lp_attempt s + 1) in
    emit (mk_lp Backoff attempt (lp_delay s) (lp_out s) (lp_wire s) (lp_events s) (lp_listening s)) (EvReconnecting attempt).

(** The end of a connection that was not the client's doing. *)
Definition link_dropped (s : Lp Nt) (started now : Z) : Lp Nt :=
  retry_top
    (if STABLE_UPTIME <=? now - started
     then mk_lp (lp_phase s) 0 RECONNECT_MIN (lp_out s) (lp_wire s) (lp_events s) (lp_listening s)
     else s).

(** After the sleep and the attempt. *)
Definition after_attempt (s : Lp Nt) (result : unit + LpError) (now : Z) : Lp Nt :=
  let s := mk_lp (lp_phase s) (lp_attempt s) (Z.min RECONNECT_MAX (lp_delay s * 2)) (lp_out s) (lp_wire s) (lp_events s) (lp_listening s) in
  match result with
  | inl _ => emit (mk_lp (Live now) (lp_attempt s) (lp_delay s) [] [] (lp_events s) (lp_listening s)) EvReconnected
  | inr AuthRejected => with_phase (emit s (EvDisconnected "router rejected authentication (check the token)")) Ended
  | inr _ => retry_top s
  end.

(** [reader_loop] on a binary frame; it returns, and the connection with it, when the
    event cannot be sent any more. *)
Definition on_server_frame (s : Lp Nt) (frame : Bytes) : Lp Nt :=
  match server_read frame with
  | None | Some (AuthOk, _) => s
  | Some (m, _) => if lp_listening s then emit s (event_of m) else with_phase s Ended
  end.

(** One input.  The reader and the writer run while a connection is live, sleeps and
    attempts happen while backing off; other inputs are ignored in a phase.  A retry parses the
    url and the token that parsed at the first connection. *)
Definition lp_step (s : Lp Nt) (i : LpInput) : Lp Nt :=
  match i, lp_phase s with
  | Quoted offered requested valid_for_ms, _ => (sender_quote s offered requested valid_for_ms).1
  | Received frame, Live _ => on_server_frame s frame
  | ReadEnded now, Live started => link_dropped s started now
  | Written, Live _ =>
    match lp_out s with
    | [] => s
    | m :: out =>
      mk_lp (lp_phase s) (lp_attempt s) (lp_delay s) out (lp_wire s ++ [client_write m]) (lp_events s) (lp_listening s)
    end
  | WriteFailed now, Live started =>
    match lp_out s with
    | [] => s
    | m :: out =>
      link_dropped (mk_lp (lp_phase s) (lp_attempt s) (lp_delay s) out (lp_wire s) (lp_events s) (lp_listening s)) started now
    end
  | SendersGone, Live _ => match lp_out s with [] => with_phase s Ended | _ => s end
  | Dropped, _ =>
    mk_lp (lp_phase s) (lp_attempt s) (lp_delay s) (lp_out s) (lp_wire s) (lp_events s) false
  | DropNoticed, Live _ => if lp_listening s then s else with_phase s Ended
  | Retried reply now, Backoff => after_attempt s (connect_and_auth None true reply) now
  | _, _ => s
  end.

Definition lp_run (s : Lp Nt) (inputs : list LpInput) : Lp Nt := foldl lp_step s inputs.
End supervisor.
