(* ===== verification/LpTheorems.v ===== *)
(** * The LP client: theorems

    The backoff between attempts, the documented protocol of the event stream as an
    automaton the supervisor refines, that only quotes of the current connection reach the
    wire and that the router accepts them, and the hand-overs from the router's queue to the
    client's events. *)

From stdpp Require Import option.
From S2P Require Import Prelude.
From S2P Require Import Select.
From S2P Require Import Types.
From S2P Require Import Protocol.
From S2P Require Import Router.
From S2P Require Import RouterProofs.
From S2P Require Import LpClient.

(** ** The backoff *)

(** The delay after [k] failed attempts. *)
Definition backoff (k : Z) : Z := Z.min RECONNECT_MAX (RECONNECT_MIN * 2 ^ k).

Lemma backoff_range k : 0 <= k → RECONNECT_MIN <= backoff k <= RECONNECT_MAX.
Proof.
  intros Hk. assert (0 < 2 ^ k) by (by apply Z.pow_pos_nonneg). unfold backoff, RECONNECT_MIN, RECONNECT_MAX. lia.
Qed.

Lemma backoff_double k : 0 <= k → Z.min RECONNECT_MAX (backoff k * 2) = backoff (k + 1).
Proof.
  intros Hk. unfold backoff, RECONNECT_MIN, RECONNECT_MAX. rewrite Z.pow_add_r by lia. change (2 ^ 1) with 2. lia.
Qed.

Lemma backoff_saturated k : 6 <= k → backoff k = RECONNECT_MAX.
Proof.
  intros Hk. assert (2 ^ 6 <= 2 ^ k) as H by (apply Z.pow_le_mono_r; lia). change (2 ^ 6) with 64 in H.
  unfold backoff, RECONNECT_MIN, RECONNECT_MAX. lia.
Qed.

(** The attempt counter and the delay agree, in every phase. *)
Definition backoff_inv {Nt} (s : Lp Nt) : Prop :=
  0 <= lp_attempt s < two32 ∧
  match lp_phase s with
  | Live _ => lp_delay s = backoff (lp_attempt s)
  | Backoff => 1 <= lp_attempt s ∧ lp_delay s = backoff (lp_attempt s - 1)
  | Ended => RECONNECT_MIN <= lp_delay s <= RECONNECT_MAX
  end.

(** ** The event stream *)

(** The documented protocol: an acknowledgement, then messages of the router while the link
    is up; a drop is announced by numbered attempts, which end with the link back or with
    the final refusal. *)
Inductive StreamState := SInit | SUp (attempts : Z) | SRetrying (attempt : Z) | SDone.

Definition next_attempt (k : Z) : Z := Z.min (two32 - 1) (k + 1).

Definition stream_step {Nt} (d : StreamState) (e : LpEvent Nt) : option StreamState :=
  match d, e with
  | SInit, EvAuthOk => Some (SUp 0)
  | SUp k, (EvAsk _ | EvHandover _ _ | EvError _) => Some (SUp k)
  | SUp k, EvReconnecting m => if (m =? 1) || (m =? next_attempt k) then Some (SRetrying m) else None
  | SRetrying k, EvReconnecting m => if m =? next_attempt k then Some (SRetrying m) else None
  | SRetrying k, EvReconnected => Some (SUp k)
  | SRetrying k, EvDisconnected _ => Some SDone
  | _, _ => None
  end.

Definition stream_run {Nt} (d : StreamState) (l : list (LpEvent Nt)) : option StreamState :=
  foldl (λ d e, d ≫= λ d, stream_step d e) (Some d) l.

Lemma stream_run_snoc {Nt} d (l : list (LpEvent Nt)) e : stream_run d (l ++ [e]) = stream_run d l ≫= λ d, stream_step d e.
Proof. unfold stream_run. by rewrite foldl_app. Qed.

(** The supervisor's phase and the state of the automaton. *)
Definition stream_rel {Nt} (s : Lp Nt) (d : StreamState) : Prop :=
  match lp_phase s with
  | Live _ => d = SUp (lp_attempt s)
  | Backoff => d = SRetrying (lp_attempt s)
  | Ended => True
  end.

(** ** Messages of the current connection *)

Section runs.
Context {Nt : Type}.
Context `{!Codec FungibleAsset, !Codec (option Z), !Codec Nt, !Codec Z, !Codec string, !Codec (list PairSpec)}.

(** The quotes accepted since the current connection was established. *)
Definition accept_step (s : Lp Nt) (acc : list ClientMsg) (i : LpInput) : list ClientMsg :=
  match i with
  | Quoted o r v => match (sender_quote s o r v).2 with None => acc ++ [ClientQuote o r v] | Some _ => acc end
  | Retried Accepted _ => match lp_phase s with Backoff => [] | _ => acc end
  | _ => acc
  end.

Fixpoint accepted (s : Lp Nt) (acc : list ClientMsg) (inputs : list LpInput) : list ClientMsg :=
  match inputs with
  | [] => acc
  | i :: inputs => accepted (lp_step s i) (accept_step s acc i) inputs
  end.

(** While the link is up, what is written and what is queued are exactly these. *)
Definition wire_inv (s : Lp Nt) (acc : list ClientMsg) : Prop :=
  match lp_phase s with Live _ => lp_wire s ++ (client_write <$> lp_out s) = client_write <$> acc | _ => True end.

(** ** Steps keep the invariants *)

Lemma retry_top_backoff (s : Lp Nt) :
  0 <= lp_attempt s < two32 → lp_delay s = backoff (lp_attempt s) → backoff_inv (retry_top s).
Proof.
  intros Ha Hd. unfold retry_top, backoff_inv, emit. destruct (lp_listening s) eqn:El; simpl.
  - split; [u64|]. split; [u64|]. destruct (decide (lp_attempt s + 1 < two32)).
    + rewrite Z.min_r by lia. rewrite Hd. f_equal. lia.
    + rewrite Hd, !backoff_saturated; [done|u64..].
  - split; [done|]. rewrite Hd. apply backoff_range. lia.
Qed.

Lemma link_dropped_backoff (s : Lp Nt) started now : backoff_inv s → lp_phase s = Live started → backoff_inv (link_dropped s started now).
Proof.
  intros [Ha Hd] Hp. rewrite Hp in Hd. unfold link_dropped. apply retry_top_backoff; destruct (_ <=? _); simpl; done.
Qed.

Lemma after_attempt_backoff (s : Lp Nt) result now : backoff_inv s → lp_phase s = Backoff → backoff_inv (after_attempt s result now).
Proof.
  intros [Ha Hd] Hp. rewrite Hp in Hd. destruct Hd as [Hk Hd].
  assert (Z.min RECONNECT_MAX (lp_delay s * 2) = backoff (lp_attempt s)) as Hnew.
  { rewrite Hd, backoff_double by lia. f_equal. lia. }
  unfold after_attempt. destruct result as [_|[]]; [|unfold backoff_inv, emit|..];
    try (apply retry_top_backoff; simpl; done).
  - unfold backoff_inv, emit. destruct (lp_listening s); simpl; done.
  - destruct (lp_listening s); simpl; (split; [done|]); rewrite Hnew; apply backoff_range; lia.
Qed.

Lemma sender_quote_fields (s : Lp Nt) o r v :
  let s' := (sender_quote s o r v).1 in
  lp_phase s' = lp_phase s ∧ lp_attempt s' = lp_attempt s ∧ lp_delay s' = lp_delay s ∧ lp_wire s' = lp_wire s ∧
  lp_events s' = lp_events s ∧ lp_listening s' = lp_listening s.
Proof. unfold sender_quote, sender_send. destruct (_ || _); [done|]. by destruct (lp_phase s) eqn:E. Qed.

Lemma lp_step_backoff (s : Lp Nt) i : backoff_inv s → backoff_inv (lp_step s i).
Proof.
  intros Hs. pose proof Hs as [Ha Hd]. unfold lp_step.
  destruct i as [o r v|frame|now| |now| | | |result now]; destruct (lp_phase s) as [started| |] eqn:Ep; try done;
    try (by unfold backoff_inv; simpl; rewrite ?Ep);
    try (pose proof (sender_quote_fields s o r v) as (E1 & E2 & E3 & _); unfold backoff_inv; by rewrite E1, E2, E3, Ep).
  - unfold on_server_frame, emit, backoff_inv. destruct (server_read frame) as [[[] ?]|];
      try destruct (lp_listening s); simpl; rewrite ?Ep; try done; split; try done; rewrite Hd; apply backoff_range; lia.
  - by apply link_dropped_backoff.
  - destruct (lp_out s); [done|]. unfold backoff_inv. simpl. by rewrite ?Ep.
  - destruct (lp_out s); [done|]. apply link_dropped_backoff; [|done]. unfold backoff_inv. simpl. by rewrite ?Ep.
  - destruct (lp_out s); [|done]. split; [done|]. simpl. rewrite Hd. apply backoff_range. lia.
  - destruct (lp_listening s); [done|]. split; [done|]. simpl. rewrite Hd. apply backoff_range. lia.
  - by apply after_attempt_backoff.
Qed.

(** The stream so far is one of the protocol's, and ends where the phase says, as long as
    somebody listens; a final refusal ends the supervisor. *)
Definition stream_inv (s : Lp Nt) : Prop :=
  ∃ d, stream_run SInit (lp_events s) = Some d ∧
    (lp_listening s = true → stream_rel s d) ∧ (d = SDone → lp_phase s = Ended).

Lemma stream_emit (s s' : Lp Nt) e d d' :
  stream_run SInit (lp_events s) = Some d → lp_events s' = lp_events s ++ [e] → stream_step d e = Some d' →
  stream_rel s' d' → (d' = SDone → lp_phase s' = Ended) → stream_inv s'.
Proof. intros Hr He Hst Hrel Hd. exists d'. rewrite He, stream_run_snoc, Hr. by split_and!. Qed.

(** A step that sends nothing and keeps the phase and the counter, or ends. *)
Lemma stream_quiet (s s' : Lp Nt) :
  stream_inv s → lp_events s' = lp_events s → (lp_listening s' = true → lp_listening s = true) →
  lp_phase s' = Ended ∨ (lp_phase s' = lp_phase s ∧ lp_attempt s' = lp_attempt s) → stream_inv s'.
Proof.
  intros (d & Hr & Hrel & Hd) He Hl Hp. exists d. rewrite He. split; [done|]. split.
  - intros H. specialize (Hrel (Hl H)). unfold stream_rel in *. by destruct Hp as [->|[-> ->]].
  - intros H. destruct Hp as [?|[-> _]]; auto.
Qed.

Lemma retry_top_stream (s : Lp Nt) d :
  stream_run SInit (lp_events s) = Some d → d ≠ SDone →
  (lp_listening s = true → ∃ k, (d = SUp k ∧ lp_attempt s = 0) ∨ (lp_attempt s = k ∧ (d = SUp k ∨ d = SRetrying k))) →
  stream_inv (retry_top s).
Proof.
  intros Hr Hnd Hrel. unfold retry_top. destruct (lp_listening s) eqn:El; simpl.
  - eapply (stream_emit s _ (EvReconnecting (next_attempt (lp_attempt s))) d (SRetrying (next_attempt (lp_attempt s))));
      [done| | | |]; unfold emit; simpl; try done.
    destruct (Hrel eq_refl) as (k & [[-> ->]|[<- [->| ->]]]); simpl; [done| |by rewrite Z.eqb_refl].
    by rewrite Z.eqb_refl, orb_true_r.
  - exists d. split_and!; [done| |done]. intros H. simpl in H. congruence.
Qed.

Lemma link_dropped_stream (s : Lp Nt) started now : stream_inv s → lp_phase s = Live started → stream_inv (link_dropped s started now).
Proof.
  intros (d & Hr & Hrel & Hd) Hp. unfold stream_rel in Hrel. rewrite Hp in Hrel, Hd. unfold link_dropped.
  destruct (STABLE_UPTIME <=? now - started); apply (retry_top_stream _ d); simpl; try done; try (intros ->; by specialize (Hd eq_refl));
    intros Hl; exists (lp_attempt s); auto.
Qed.

Lemma after_attempt_stream (s : Lp Nt) result now : stream_inv s → lp_phase s = Backoff → stream_inv (after_attempt s result now).
Proof.
  intros (d & Hr & Hrel & Hd) Hp. unfold stream_rel in Hrel. rewrite Hp in Hrel, Hd.
  assert (d ≠ SDone) as Hnd by (intros ->; by specialize (Hd eq_refl)).
  unfold after_attempt. destruct result as [u|e].
  - destruct (lp_listening s) eqn:El; unfold emit; simpl; [|by exists d].
    rewrite (Hrel eq_refl) in Hr. by eapply (stream_emit s _ EvReconnected).
  - destruct e; try (apply (retry_top_stream _ d); [done|done|]; simpl; intros Hl; exists (lp_attempt s); auto).
    destruct (lp_listening s) eqn:El; unfold emit, with_phase; simpl; rewrite ?El; [|by exists d].
    rewrite (Hrel eq_refl) in Hr. by eapply (stream_emit s _ (EvDisconnected _)).
Qed.

Lemma frame_stream (s : Lp Nt) started frame : stream_inv s → lp_phase s = Live started → stream_inv (on_server_frame s frame).
Proof.
  intros Hs Hp. pose proof Hs as (d & Hr & Hrel & Hd). unfold stream_rel in Hrel. rewrite Hp in Hrel.
  unfold on_server_frame. destruct (server_read frame) as [[m ?]|]; [|done].
  destruct m; try done; destruct (lp_listening s) eqn:El;
    try (apply (stream_quiet s); [done|done|by simpl; rewrite ?El|by left]);
    rewrite (Hrel eq_refl) in Hr; unfold emit; rewrite El; eapply (stream_emit s); try done; unfold stream_rel; simpl; by rewrite Hp.
Qed.

Lemma lp_step_stream (s : Lp Nt) i : stream_inv s → stream_inv (lp_step s i).
Proof.
  intros Hs. unfold lp_step.
  destruct i as [o r v|frame|now| |now| | | |result now]; destruct (lp_phase s) as [started| |] eqn:Ep; try done;
    try (apply (stream_quiet s); [done|done|done|by right]);
    try (pose proof (sender_quote_fields s o r v) as (E1 & E2 & _ & _ & E5 & E6);
      apply (stream_quiet s); [done|done|by rewrite E6|by right]).
  - by eapply frame_stream.
  - by apply link_dropped_stream.
  - destruct (lp_out s); [done|]. apply (stream_quiet s); [done|done|done|by right].
  - destruct (lp_out s); [done|]. apply link_dropped_stream; [|done]. apply (stream_quiet s); [done|done|done|by right].
  - destruct (lp_out s); [|done]. apply (stream_quiet s); [done|done|done|by left].
  - destruct (lp_listening s) eqn:El; [done|]. apply (stream_quiet s); [done|done|by simpl; rewrite El|by left].
  - by apply after_attempt_stream.
Qed.

Lemma on_server_frame_wire (s : Lp Nt) frame :
  lp_wire (on_server_frame s frame) = lp_wire s ∧ lp_out (on_server_frame s frame) = lp_out s.
Proof.
  unfold on_server_frame, emit. destruct (server_read frame) as [[[] ?]|]; try destruct (lp_listening s) eqn:El; simpl; done.
Qed.

Lemma retry_top_not_live (s : Lp Nt) acc : wire_inv (retry_top s) acc.
Proof. unfold retry_top, wire_inv, emit. destruct (lp_listening s) eqn:El; simpl; rewrite ?El; done. Qed.

Lemma lp_step_wire (s : Lp Nt) acc i : wire_inv s acc → wire_inv (lp_step s i) (accept_step s acc i).
Proof.
  intros Hs. unfold wire_inv in Hs. unfold lp_step, accept_step.
  destruct i as [o r v|frame|now| |now| | | |[|code text|text] now]; destruct (lp_phase s) as [started| |] eqn:Ep; try done;
    try apply retry_top_not_live; try (by unfold wire_inv; simpl; rewrite ?Ep).
  - unfold sender_quote, sender_send. destruct (_ || _); [by unfold wire_inv; simpl; rewrite ?Ep|]. rewrite Ep. unfold wire_inv. simpl.
    by rewrite !fmap_app, app_assoc, Hs.
  - unfold sender_quote, sender_send. destruct (_ || _); [by unfold wire_inv; simpl; rewrite ?Ep|]. by rewrite Ep.
  - unfold sender_quote, sender_send. destruct (_ || _); [by unfold wire_inv; simpl; rewrite ?Ep|]. rewrite Ep. unfold wire_inv. simpl. by rewrite ?Ep.
  - destruct (on_server_frame_wire s frame) as [E1 E2]. unfold wire_inv. rewrite E1, E2.
    destruct (lp_phase (on_server_frame s frame)); [exact Hs|done..].
  - destruct (lp_out s) as [|m out] eqn:Eo; unfold wire_inv; simpl; rewrite ?Ep, ?Eo; [done|]. by rewrite <-app_assoc.
  - destruct (lp_out s) as [|m out] eqn:Eo; [unfold wire_inv; by rewrite Ep, Eo|]. apply retry_top_not_live.
  - destruct (lp_out s) as [|m out] eqn:Eo; [done|]. unfold wire_inv. by rewrite Ep, Eo.
  - destruct (lp_listening s); [|done]. unfold wire_inv. by rewrite Ep.
  - unfold after_attempt, emit, wire_inv. destruct (lp_listening s); done.
  - unfold connect_and_auth. simpl. destruct (code =? 401); [done|apply retry_top_not_live].
Qed.

(** ** Runs *)

Lemma lp_run_backoff (s : Lp Nt) inputs : backoff_inv s → backoff_inv (lp_run s inputs).
Proof. revert s. induction inputs as [|i inputs IH]; intros s Hs; [done|]. apply IH. by apply lp_step_backoff. Qed.

Lemma lp_run_stream (s : Lp Nt) inputs : stream_inv s → stream_inv (lp_run s inputs).
Proof. revert s. induction inputs as [|i inputs IH]; intros s Hs; [done|]. apply IH. by apply lp_step_stream. Qed.

Lemma lp_run_wire (s : Lp Nt) acc inputs : wire_inv s acc → wire_inv (lp_run s inputs) (accepted s acc inputs).
Proof.
  revert s acc. induction inputs as [|i inputs IH]; intros s acc Hs; [done|]. apply IH. by apply lp_step_wire.
Qed.

(** Accepted quotes have positive amounts and were asked for. *)
Lemma elem_of_accepted (s : Lp Nt) acc inputs m :
  m ∈ accepted s acc inputs → m ∈ acc ∨ ∃ o r v, m = ClientQuote o r v ∧ Quoted o r v ∈ inputs ∧
    fa_amount o ≠ 0 ∧ fa_amount r ≠ 0.
Proof.
  revert s acc. induction inputs as [|i inputs IH]; intros s acc; cbn [accepted]; [auto|].
  intros [Hm|(o & r & v & ? & ? & ?)]%IH; [|right; exists o, r, v; split_and!; try tauto; by right].
  destruct i as [o r v|?|?| |?| | | |[|? ?|?] ?]; cbn [accept_step] in Hm; auto.
  - unfold sender_quote, sender_send in Hm. destruct (_ || _) eqn:Ez; [auto|].
    apply orb_false_iff in Ez as [?%Z.eqb_neq ?%Z.eqb_neq].
    destruct (lp_phase s); simpl in Hm; [apply elem_of_app in Hm as [?| ->%list_elem_of_singleton]; [auto|]..|auto];
      right; exists o, r, v; (split_and!; [done|by left|done|done]).
  - destruct (lp_phase s); [auto| |auto]. by apply elem_of_nil in Hm.
Qed.
End runs.

(** ** Theorems *)

(** Reconnecting backs off exponentially within its bounds.  Whatever happens to the link,
    the delay before an attempt stays between half a second and thirty seconds; while the
    client is backing off, the attempt number n is at least 1, has not overflowed and the
    delay is 500 ms doubled n - 1 times, capped; and a link that stayed up for ten seconds
    starts over at the first attempt and the shortest delay. *)
Theorem reconnect_backoff_bounded {Nt : Type}
    `{!Codec FungibleAsset, !Codec (option Z), !Codec Nt, !Codec Z, !Codec string, !Codec (list PairSpec)} inputs now t :
  let s : Lp Nt := lp_run (supervise_start now) inputs in
  RECONNECT_MIN <= lp_delay s <= RECONNECT_MAX ∧ 0 <= lp_attempt s < two32 ∧
  (lp_phase s = Backoff → 1 <= lp_attempt s ∧ lp_delay s = backoff (lp_attempt s - 1)) ∧
  (∀ started, lp_phase s = Live started → lp_listening s = true → STABLE_UPTIME <= t - started →
    lp_attempt (lp_step s (ReadEnded t)) = 1 ∧ lp_delay (lp_step s (ReadEnded t)) = RECONNECT_MIN).
Proof.
  intros s. assert (backoff_inv s) as [Ha Hd] by (by apply lp_run_backoff).
  split; [|split; [done|split]].
  - destruct (lp_phase s); [rewrite Hd; apply backoff_range; lia|destruct Hd as [? ->]; apply backoff_range; lia|done].
  - intros Hp. by rewrite Hp in Hd.
  - intros started Hp Hl Ht. unfold lp_step. rewrite Hp. unfold link_dropped, retry_top, emit.
    rewrite (proj2 (Z.leb_le _ _) Ht). simpl. by rewrite Hl.
Qed.


(** C28. Only quotes of the current connection reach the wire, and the router accepts every one of
    them.  While the link is up, what was written to it followed by what is queued is exactly
    the encoding of the quotes accepted since it was established, so nothing queued during
    an outage is ever sent; and every written frame decodes to the quote that was asked for
    and is accepted by the router's validation, never refused as malformed or empty. *)
Theorem wire_carries_current_quotes {Nt : Type}
    `{!Codec FungibleAsset, !Codec (option Z), !Codec Nt, !Codec Z, !Codec string, !Codec (list PairSpec)}
    inputs now started cfg dex at_ :
  let s : Lp Nt := lp_run (supervise_start now) inputs in
  lp_phase s = Live started → (∀ o r v, Quoted o r v ∈ inputs → client_ok (ClientQuote o r v)) →
  lp_wire s ++ (client_write <$> lp_out s) = client_write <$> accepted (supervise_start (Nt := Nt) now) [] inputs ∧
  (∀ frame, frame ∈ lp_wire s → ∃ o r v q, client_read frame = Some (ClientQuote o r v, []) ∧ Quoted o r v ∈ inputs ∧
    accept_quote (Nt := Nt) cfg dex o r v at_ = inr q).
Proof.
  intros s Hp Hok.
  pose proof (lp_run_wire (supervise_start (Nt := Nt) now) [] inputs eq_refl) as Hw. fold s in Hw.
  unfold wire_inv in Hw. rewrite Hp in Hw. split; [done|]. intros frame Hf.
  assert (frame ∈ client_write <$> accepted (supervise_start (Nt := Nt) now) [] inputs) as (m & -> & Hm)%list_elem_of_fmap
    by (rewrite <-Hw; apply elem_of_app; by left).
  apply elem_of_accepted in Hm as [?%elem_of_nil|(o & r & v & -> & Hin & Ho & Hr)]; [done|].
  exists o, r, v. eexists. rewrite <-(app_nil_r (client_write _)), client_read_write by auto. split_and!; [done..|].
  unfold accept_quote. by rewrite (proj2 (Z.eqb_neq _ _) Ho), (proj2 (Z.eqb_neq _ _) Hr).
Qed.

(** Hand-overs arrive as events, in order.  Reading the frames the router queues for a batch
    on a live connection gives exactly one hand-over event per note of the batch for this
    DEX, in the order of the batch, with the note and the whole fill, and nothing else
    changes. *)
Theorem handovers_become_events {Nt : Type}
    `{!Codec FungibleAsset, !Codec (option Z), !Codec Nt, !Codec Z, !Codec string, !Codec (list PairSpec)}
    (s : Lp Nt) started dex items (note_of : RoutedNote → Nt) :
  lp_phase s = Live started → lp_listening s = true →
  (∀ i, i ∈ items → rn_bytes i = encode (note_of i) ∧ wire_ok (note_of i) ∧ wire_ok (rn_fill i)) →
  lp_run s (Received <$> frames_for dex items) =
  mk_lp (Live started) (lp_attempt s) (lp_delay s) (lp_out s) (lp_wire s)
    (lp_events s ++ ((λ i, EvHandover (note_of i) (rn_fill i)) <$> filter (λ i, rn_dex i = dex) items)) true.
Proof.
  unfold frames_for. intros Hp Hl Hok. assert (∀ i, i ∈ filter (λ i, rn_dex i = dex) items →
    rn_bytes i = encode (note_of i) ∧ wire_ok (note_of i) ∧ wire_ok (rn_fill i)) as Hok'.
  { intros i [_ Hi]%list_elem_of_filter. auto. }
  clear Hok. revert s Hp Hl. induction (filter (λ i, rn_dex i = dex) items) as [|i l IH]; intros s Hp Hl; cbn [fmap list_fmap].
  - rewrite app_nil_r. destruct s. simpl in *. by subst.
  - destruct (Hok' i) as (Hb & Hn & Hf); [by left|].
    change (lp_run s (Received (handover_frame (rn_bytes i) (rn_fill i)) :: ?l)) with
      (lp_run (lp_step s (Received (handover_frame (rn_bytes i) (rn_fill i)))) l).
    assert (lp_step s (Received (handover_frame (rn_bytes i) (rn_fill i))) =
      mk_lp (Live started) (lp_attempt s) (lp_delay s) (lp_out s) (lp_wire s) (lp_events s ++ [EvHandover (note_of i) (rn_fill i)]) true) as Hstep.
    { unfold lp_step. rewrite Hp. unfold on_server_frame. rewrite Hb, <-(app_nil_r (handover_frame _ _)).
      pose proof (server_read_write (Handover (note_of i) (rn_fill i)) []) as Hr.
      rewrite (Hr (conj Hn Hf) : server_read (handover_frame (encode (note_of i)) (rn_fill i) ++ []) = _).
      unfold emit. by rewrite Hl, Hp. }
    rewrite Hstep, IH by (done || (intros; apply Hok'; by right)). simpl. by rewrite <-app_assoc.
Qed.

(** The quote [quote_loop] sends for a pair, if any. *)
Definition quote_for (asset_new : TokenId → Z → option FungibleAsset) (price : PairSpec → option (Z * Z)) (p : PairSpec) :
    option ClientMsg :=
  '(x, y) ← price p; o ← asset_new (ps_offered p) x; r ← asset_new (ps_requested p) y;
  if (fa_amount o =? 0) || (fa_amount r =? 0) then None else Some (ClientQuote o r None).

(** A turn of the quoting loop queues, in order, one quote for every pair that has a price, valid
    assets and non-zero amounts, skips the others and goes on; once the connection task is
    gone it queues nothing and stops. *)
Theorem quote_turn_exact {Nt : Type} asset_new price pairs (s : Lp Nt) :
  quote_turn asset_new price pairs s =
  match lp_phase s with
  | Ended => (s, true)
  | _ => (mk_lp (lp_phase s) (lp_attempt s) (lp_delay s) (lp_out s ++ omap (quote_for asset_new price) pairs) (lp_wire s)
            (lp_events s) (lp_listening s), false)
  end.
Proof.
  unfold quote_turn. destruct (lp_phase s) as [started| |] eqn:Ep; [..|done];
    (revert s Ep; induction pairs as [|p pairs IH]; intros s Ep; simpl;
     [destruct s; simpl in *; by rewrite app_nil_r, Ep|]; unfold quote_for at 1;
     destruct (price p) as [[x y]|]; simpl; [|by apply IH];
     destruct (asset_new (ps_offered p) x) as [o|]; simpl; [|by apply IH];
     destruct (asset_new (ps_requested p) y) as [r|]; simpl; [|by apply IH];
     unfold sender_quote; destruct (_ || _); [by apply IH|]; unfold sender_send; rewrite Ep; rewrite IH by done; simpl;
     by rewrite <-app_assoc).
Qed.

(** ** Witnesses *)

Abbreviation demo_lp_run :=
  (@lp_run Z asset_codec option_codec z_codec z_codec string_codec (@list_codec _ (@pair_spec_codec n_codec))).

(** A quote is queued, the link drops after ten seconds, another quote is queued during the
    outage and a third one after the reconnection. *)
Definition lp_inputs : list LpInput :=
  [Quoted (mk_asset 2 500) (mk_asset 1 400) None; Written; ReadEnded 10000; Quoted (mk_asset 2 600) (mk_asset 1 400) None;
   Retried (IoError "refused") 11000; Retried Accepted 12000; Quoted (mk_asset 2 700) (mk_asset 1 400) None; Written].
Definition lp_after : Lp Z := demo_lp_run (supervise_start 0) lp_inputs.

Lemma lp_inputs_ok o r v : Quoted o r v ∈ lp_inputs → @client_ok asset_codec option_codec (ClientQuote o r v).
Proof.
  unfold lp_inputs. rewrite !elem_of_cons, elem_of_nil. intros H.
  repeat destruct H as [H|H]; try discriminate H; try done; injection H as -> -> ->; by vm_compute.
Qed.

Lemma wire_carries_current_quotes_witness :
  lp_wire lp_after = [@client_write asset_codec option_codec (ClientQuote (mk_asset 2 700) (mk_asset 1 400) None)] ∧
  @accepted Z asset_codec option_codec z_codec z_codec string_codec (@list_codec _ (@pair_spec_codec n_codec))
    (supervise_start 0) [] lp_inputs = [ClientQuote (mk_asset 2 700) (mk_asset 1 400) None] ∧
  ∃ o r v q, @client_read asset_codec option_codec (@client_write asset_codec option_codec (ClientQuote (mk_asset 2 700) (mk_asset 1 400) None))
    = Some (ClientQuote o r v, []) ∧ Quoted o r v ∈ lp_inputs ∧
    accept_quote (Nt := Z) (mk_router_cfg "127.0.0.1" 8080 10 65536 2000 []) 1 o r v 0 = inr q.
Proof.
  split; [vm_compute; reflexivity|]. split; [vm_compute; reflexivity|].
  destruct (wire_carries_current_quotes (Nt := Z) (Codec0 := asset_codec) (Codec1 := option_codec) (Codec2 := z_codec) (Codec3 := z_codec)
    (Codec4 := string_codec) (Codec5 := @list_codec _ (@pair_spec_codec n_codec)) lp_inputs 0 12000
    (mk_router_cfg "127.0.0.1" 8080 10 65536 2000 []) 1 0 eq_refl lp_inputs_ok) as [_ H].
  apply H. vm_compute. by left.
Defined.

Lemma handovers_become_events_witness :
  lp_events (demo_lp_run (supervise_start 0)
    (Received <$> @frames_for z_codec 9 [mk_routed 9 1 50 (1%N, 2%N) [7%N]; mk_routed 8 2 10 (1%N, 2%N) [5%N]])) =
  [EvAuthOk; EvHandover 7 50].
Proof.
  rewrite (handovers_become_events (Nt := Z) (Codec0 := asset_codec) (Codec1 := option_codec) (Codec2 := z_codec) (Codec3 := z_codec)
    (Codec4 := string_codec) (Codec5 := @list_codec _ (@pair_spec_codec n_codec)) (supervise_start 0) 0 9
    [mk_routed 9 1 50 (1%N, 2%N) [7%N]; mk_routed 8 2 10 (1%N, 2%N) [5%N]]
    (λ i, match rn_bytes i with [x] => Z.of_N x | _ => 0 end) eq_refl eq_refl); [reflexivity|].
  assert (∀ z, is_u64 z → @wire_ok _ z_codec z) as Hok by done.
  intros i Hi. apply elem_of_cons in Hi as [->|Hi]; [|apply list_elem_of_singleton in Hi as ->];
    (split; [reflexivity|split; apply Hok; cbn [rn_bytes rn_fill]; u64]).
Defined.
