(* ===== verification/Prices.v ===== *)
(** * Polling of prices (crates/solver/src/price/price.rs, price/coingecko.rs)

    The price client's mapping between tokens and the service's symbols, and the polling
    loop that publishes a whole-cents snapshot for the matcher and a full-precision one for
    the price API.  Floating-point numbers are the class [Floats], HTTP is the reply of the
    service. *)

From stdpp Require Import option.
From S2P Require Import Prelude.
From S2P Require Import Types.

(** ** Floating-point prices *)

(** [f64] and what the source makes of it: [is_finite() && >= 0.0], [> 0.0],
    [(x * 100.0).round()] cast to 64 and to 128 bits, the texts of a price and, with
    eight decimals, of the quotient of two. *)
Class Floats := {
  F64 : Type;
  f_valid : F64 → bool;
  f_positive : F64 → bool;
  f_cents64 : F64 → Z;
  f_cents128 : F64 → Z;
  f_full : F64 → string;
  f_fixed : F64 → Z → string;
  f_quotient : F64 → F64 → string;
}.

Section prices.
Context `{FL : Floats}.

Abbreviation PreciseSnapshot := (gmap TokenId F64) (only parsing).
Abbreviation PriceSnapshot := (gmap TokenId Z) (only parsing).

(** [to_cents] *)
Definition to_cents (precise : gmap TokenId F64) : gmap TokenId Z := f_cents64 <$> precise.

(** ** Clients *)

(** The trait [PriceClient]; [None] is an error. *)
Class PriceClient (C : Type) := client_fetch : C → list TokenId → option (gmap TokenId F64).

(** The client of tests and of the end-to-end driver: fixed prices, given in cents and whatever
    tokens are asked for.  [of_cents] is [cents as f64 / 100.0]. *)
Record MockPriceClient := mk_mock_client { mp_prices : gmap TokenId F64 }.

Definition mock_client_new (of_cents : Z → F64) (prices : gmap TokenId Z) : MockPriceClient := mk_mock_client (of_cents <$> prices).

#[export] Instance mock_price_client : PriceClient MockPriceClient := λ c _, Some (mp_prices c).

(** ** The CoinGecko client *)

(** What the service answered: no response, a status that is not a success, a body that does
    not parse, or prices per symbol and currency. *)
Inductive PriceReply :=
  | NoResponse
  | BadStatus (code : Z)
  | BadBody
  | Prices (body : gmap string (gmap string F64)).

(** [read_token_map] and the tokens of the request that are mapped. *)
Definition requested_symbols (token_map : gmap TokenId string) (tokens : list TokenId) : gmap TokenId string :=
  list_to_map (omap (λ t, (λ s, (t, s)) <$> token_map !! t) tokens).

(** The price of a symbol, unless it is missing, not finite or negative. *)
Definition priced (vs_currency : string) (body : gmap string (gmap string F64)) (symbol : string) : option F64 :=
  m ← body !! symbol; usd ← m !! vs_currency; if f_valid usd then Some usd else None.

(** [fetch_prices]; the request is only made when something is mapped.  [None] is an error. *)
Definition fetch_prices (vs_currency : string) (token_map : gmap TokenId string) (reply : PriceReply) (tokens : list TokenId) :
    option (gmap TokenId F64) :=
  let requested := requested_symbols token_map tokens in
  if decide (requested = ∅) then Some ∅
  else
    match reply with
    | NoResponse | BadStatus _ | BadBody => None
    | Prices body => Some (omap (priced vs_currency body) requested)
    end.

(** The client of the service; the shared map and the reply are those of the poll. *)
Record HttpPriceClient := mk_http_client { hc_api_key : option string; hc_base : string; hc_vs_currency : string }.

Definition COINGECKO_BASE : string := "https://api.coingecko.com/api/v3/simple/price".

(** [HttpPriceClient::new]; [new_with_base] is the constructor, once the HTTP client is built. *)
Definition http_client_new (api_key : option string) : HttpPriceClient := mk_http_client api_key COINGECKO_BASE "usd".

Definition http_price_client (token_map : gmap TokenId string) (reply : PriceReply) : PriceClient HttpPriceClient :=
  λ c tokens, fetch_prices (hc_vs_currency c) token_map reply tokens.

(** ** The polling loop *)

Record FeedState := mk_feed {
  fs_cents : gmap TokenId Z;
  fs_precise : gmap TokenId F64;
  fs_updated : Z;
}.

(** No price yet, and an update time that reads as stale. *)
Definition feed_new : FeedState := mk_feed ∅ ∅ 0.

(** One turn of [run_price_feed] with any client: the clock is [None] when it is before the
    epoch. *)
Definition poll_client `{HI : HashIter} `{!PriceClient C} (n : N) (client : C) (st : FeedState) (token_map : gmap TokenId string)
    (clock : option Z) : FeedState :=
  match client_fetch client (hash_iter n (dom token_map)) with
  | Some precise => mk_feed (to_cents precise) precise (default (fs_updated st) clock)
  | None => st
  end.

(** The same with the client of the service. *)
Definition poll `{HI : HashIter} (n : N) (vs_currency : string) (st : FeedState) (token_map : gmap TokenId string)
    (reply : PriceReply) (clock : option Z) : FeedState :=
  poll_client (PriceClient0 := http_price_client token_map reply) n (mk_http_client None COINGECKO_BASE vs_currency) st token_map clock.

(** ** Lemmas *)

Lemma requested_all token_map tokens :
  (∀ t, t ∈ dom token_map → t ∈ tokens) → requested_symbols token_map tokens = token_map.
Proof.
  intros Hall. apply map_eq. intros t. apply option_eq. intros s. unfold requested_symbols.
  assert (∀ t s, (t, s) ∈ omap (λ t, (λ s, (t, s)) <$> token_map !! t) tokens ↔ t ∈ tokens ∧ token_map !! t = Some s) as Hin.
  { intros t' s'. rewrite list_elem_of_omap. split.
    - intros (x & Hx & (y & Hy & [= -> ->])%fmap_Some). done.
    - intros [Ht Hs]. exists t'. by rewrite Hs. }
  split.
  - intros H%elem_of_list_to_map_2. by apply Hin in H as [_ ?].
  - intros Hs. assert ((t, s) ∈ omap (λ t, (λ s, (t, s)) <$> token_map !! t) tokens) as Hts.
    { apply Hin. split; [apply Hall; by eapply elem_of_dom_2|done]. }
    apply elem_of_list_to_map_1'; [|done]. intros s' [_ Hs']%Hin. congruence.
Qed.

(** Polling asks for the whole map. *)
Lemma poll_requests `{HI : HashIter} n token_map :
  requested_symbols token_map (hash_iter n (dom token_map)) = token_map.
Proof. apply requested_all. intros t Ht. by rewrite hash_iter_perm, elem_of_elements. Qed.

Lemma fetch_lookup vs token_map body tokens out t x :
  fetch_prices vs token_map (Prices body) tokens = Some out →
  out !! t = Some x ↔ ∃ s, requested_symbols token_map tokens !! t = Some s ∧ priced vs body s = Some x.
Proof.
  unfold fetch_prices. case_decide as He; intros [= <-].
  - rewrite He. setoid_rewrite lookup_empty. naive_solver.
  - rewrite lookup_omap. destruct (_ !! t) as [s|]; simpl; naive_solver.
Qed.

(** The two snapshots agree and every price is usable. *)
Definition feed_ok (st : FeedState) : Prop :=
  fs_cents st = to_cents (fs_precise st) ∧ ∀ t x, fs_precise st !! t = Some x → f_valid x = true.

Lemma fetch_valid vs token_map reply tokens out t x :
  fetch_prices vs token_map reply tokens = Some out → out !! t = Some x → f_valid x = true.
Proof.
  intros Hf. destruct (decide (requested_symbols token_map tokens = ∅)) as [He|He].
  { unfold fetch_prices in Hf. rewrite decide_True in Hf by done. injection Hf as <-. by rewrite lookup_empty. }
  destruct reply as [| | |body]; try (unfold fetch_prices in Hf; by rewrite decide_False in Hf).
  intros Hx. apply (fetch_lookup _ _ _ _ _ t x Hf) in Hx as (s & _ & Hp). unfold priced in Hp.
  destruct (body !! s) as [m|]; [|done]. simpl in Hp. destruct (m !! vs) as [y|]; [|done]. simpl in Hp.
  destruct (f_valid y) eqn:E; [congruence|done].
Qed.

(** A poll: what the service answered, the map and the clock of the moment. *)
Record PollInput := mk_poll { pi_map : gmap TokenId string; pi_reply : PriceReply; pi_clock : option Z; pi_occasion : N }.

Definition polls `{HI : HashIter} (vs : string) (st : FeedState) (inputs : list PollInput) : FeedState :=
  foldl (λ st i, poll (pi_occasion i) vs st (pi_map i) (pi_reply i) (pi_clock i)) st inputs.

Lemma poll_ok `{HI : HashIter} n vs st token_map reply clock : feed_ok st → feed_ok (poll n vs st token_map reply clock).
Proof.
  intros Hst. unfold poll, poll_client, client_fetch, http_price_client. simpl. destruct (fetch_prices _ _ _ _) as [precise|] eqn:E; [|done].
  split; [done|]. simpl. intros t x. by eapply fetch_valid.
Qed.

Lemma polls_ok `{HI : HashIter} vs st inputs : feed_ok st → feed_ok (polls vs st inputs).
Proof. unfold polls. revert st. induction inputs as [|i inputs IH]; intros st Hst; simpl; [done|]. apply IH. by apply poll_ok. Qed.
End prices.

(** ** Theorems *)

(** The matcher's integer prices and the API's full-precision prices never diverge and never hold
    garbage: after any sequence of polls, with any replies of the service, the cents are the
    rounding of the precise snapshot, and no infinite, undefined or negative price is in
    either. *)
Theorem feed_snapshots_agree `{FL : Floats} `{HI : HashIter} vs inputs :
  let st := polls vs feed_new inputs in
  fs_cents st = to_cents (fs_precise st) ∧
  (∀ t x, fs_precise st !! t = Some x → f_valid x = true) ∧
  (∀ t, is_Some (fs_cents st !! t) ↔ is_Some (fs_precise st !! t)).
Proof.
  intros st. assert (feed_ok st) as [H1 H2]. { apply polls_ok. split; [done|]. by intros t x H. }
  split_and!; [done..|]. intros t. rewrite H1. unfold to_cents. rewrite lookup_fmap. by rewrite fmap_is_Some.
Qed.

(** A poll prices exactly the mapped tokens the service knows: on an answer, a token is priced if
    and only if it is in the map and its symbol has a finite non-negative price in the quote
    currency, so a token removed from the map loses its price, and the time of the update
    is recorded; on a failure the last good prices and their time are kept. *)
Theorem poll_exact `{FL : Floats} `{HI : HashIter} n vs st token_map reply now :
  let st' := poll n vs st token_map reply (Some now) in
  match reply with
  | Prices body => (∀ t x, fs_precise st' !! t = Some x ↔ ∃ s, token_map !! t = Some s ∧ priced vs body s = Some x) ∧
      fs_updated st' = now
  | _ => token_map ≠ ∅ → st' = st
  end.
Proof.
  intros st'. unfold st', poll, poll_client, client_fetch, http_price_client. simpl. destruct reply as [| | |body];
    try (intros Hne; unfold fetch_prices; rewrite poll_requests, decide_False; done).
  destruct (fetch_prices vs token_map (Prices body) (hash_iter n (dom token_map))) as [out|] eqn:E.
  - split; [|done]. intros t x. simpl. rewrite (fetch_lookup _ _ _ _ _ t x E). by rewrite poll_requests.
  - unfold fetch_prices in E. by case_decide.
Qed.
