(* ===== verification/PriceApi.v ===== *)
(** * The price-query API (crates/solver/src/price_api.rs, crates/solver/src/config.rs)

    The three read-only endpoints over the published snapshots and the token table, the
    precision setting they share with the configuration, and the readiness probe
    (crates/solver/src/obs.rs).  HTTP and the text of account ids are parameters; texts of
    error messages are left out. *)

From stdpp Require Import option pretty.
From S2P Require Import Prelude.
From S2P Require Import Orders.
From S2P Require Import PriceFeed.
From S2P Require Import OrderBook.
From S2P Require Import BookQueries.
From S2P Require Import BookTheorems.
From S2P Require Import SwapEta.
From S2P Require Import Types.
From S2P Require Import Db.
From S2P Require Import Prices.

(** ** Text *)

Definition is_ws (c : Ascii.ascii) : bool :=
  let n := Ascii.N_of_ascii c in bool_decide (n = 32%N ∨ (9 ≤ n ≤ 13)%N).

Definition to_lower (c : Ascii.ascii) : Ascii.ascii :=
  let n := Ascii.N_of_ascii c in if decide (65 ≤ n ≤ 90)%N then Ascii.ascii_of_N (n + 32) else c.

(** [eq_ignore_ascii_case] *)
Definition eq_ignore_ascii_case (s t : string) : bool :=
  bool_decide ((to_lower <$> String.list_ascii_of_string s) = (to_lower <$> String.list_ascii_of_string t)).

(** [str::trim] on ASCII text. *)
Fixpoint drop_ws (l : list Ascii.ascii) : list Ascii.ascii :=
  match l with c :: r => if is_ws c then drop_ws r else l | [] => [] end.
Definition trim (l : list Ascii.ascii) : list Ascii.ascii := reverse (drop_ws (reverse (drop_ws l))).

Definition comma : Ascii.ascii := Ascii.ascii_of_N 44.
Definition plus : Ascii.ascii := Ascii.ascii_of_N 43.

(** [str::split(',')] *)
Fixpoint split_comma (l cur : list Ascii.ascii) : list (list Ascii.ascii) :=
  match l with
  | [] => [reverse cur]
  | c :: r => if decide (c = comma) then reverse cur :: split_comma r [] else split_comma r (c :: cur)
  end.

(** [str::parse] for an unsigned integer up to [max]. *)
Fixpoint parse_digits (max acc : Z) (l : list Ascii.ascii) : option Z :=
  match l with
  | [] => Some acc
  | c :: r =>
    let d := Z.of_N (Ascii.N_of_ascii c) - 48 in
    if (0 <=? d) && (d <=? 9) && (acc * 10 + d <=? max) then parse_digits max (acc * 10 + d) r else None
  end.

Definition parse_uint (max : Z) (s : string) : option Z :=
  match String.list_ascii_of_string s with
  | [] => None
  | c :: r => if decide (c = plus) then match r with [] => None | _ => parse_digits max 0 r end
              else parse_digits max 0 (c :: r)
  end.

(** [to_string] of an unsigned integer. *)
Definition show_uint (x : Z) : string := pretty (Z.to_N x).

(** ** Configuration *)

Inductive PricePrecision := Full | Fixed (n : Z).

(** [PricePrecision::parse] *)
Definition precision_parse (s : string) : option PricePrecision :=
  if eq_ignore_ascii_case s "full" then Some Full
  else n ← parse_uint 255 s; if n <=? 18 then Some (Fixed n) else None.

(** [validate] on the fields it constrains. *)
Definition config_valid (price_precision price_vs_currency : string) : bool :=
  bool_decide (is_Some (precision_parse price_precision)) &&
  negb (bool_decide (trim (String.list_ascii_of_string price_vs_currency) = [])).

Record PriceApiConfig := mk_api_cfg {
  pc_bind : string;
  pc_port : Z;
  pc_max_inflight : Z;
  pc_max_batch : Z;
  pc_timeout_ms : Z;
  pc_vs_currency : string;
  pc_precision : string;
  pc_staleness_secs : Z;
  pc_price_interval_ms : Z;
  pc_swap_matching_trigger_ms : Z;
  pc_swap_sync_ms : Z;
  pc_swap_proving_ms : Z;
  pc_swap_block_ms : Z;
  pc_swap_offmarket_tol_bps : Z;
}.

(** ** State *)

Section api.
Context `{FL : Floats} `{!Miden}.
Context (from_hex : string → option TokenId) (to_hex : TokenId → string).

Record PriceApiState := mk_api {
  pa_feed : FeedState;
  pa_db : Db;
  pa_db_ok : bool;
  pa_vs_currency : string;
  pa_default_precision : PricePrecision;
  pa_staleness_secs : Z;
  pa_max_batch : Z;
  pa_swap : gmap Pair BestLevel;
  pa_stats : gmap Pair (list Sample);
  pa_swap_eta_secs : Z;
  pa_swap_offmarket_tol_bps : Z;
}.

(** The state [spawn_price_api_thread] builds. *)
Definition api_state (cfg : PriceApiConfig) (feed : FeedState) (d : Db) (db_ok : bool) (swap : gmap Pair BestLevel)
    (stats : gmap Pair (list Sample)) : PriceApiState :=
  let sum := wrap64 (pc_swap_sync_ms cfg + pc_swap_matching_trigger_ms cfg + pc_swap_proving_ms cfg + pc_swap_block_ms cfg) in
  mk_api feed d db_ok (pc_vs_currency cfg) (default Full (precision_parse (pc_precision cfg))) (as_i64 (pc_staleness_secs cfg))
    (pc_max_batch cfg) swap stats ((sum + 999) / 1000) (pc_swap_offmarket_tol_bps cfg).

Record PriceResponse := mk_price {
  pr_faucet_id : string;
  pr_ticker : option string;
  pr_vs_currency : string;
  pr_price : string;
  pr_precision : string;
  pr_decimals : option Z;
  pr_as_of : Z;
  pr_stale : bool;
  pr_source : string;
}.

Inductive ApiError :=
  | BadFaucetId | BadAmount | BadRequest | UnknownFaucet | NoPrice | Stale (as_of : Z) | BadPrecision
  | BatchTooLarge (max : Z) | Internal.

(** [into_response]: the status and the code of an error. *)
Definition error_response (e : ApiError) : Z * string :=
  match e with
  | BadFaucetId => (400, "bad_faucet_id"%string)
  | BadAmount => (400, "bad_amount"%string)
  | BadRequest => (400, "bad_request"%string)
  | UnknownFaucet => (404, "unknown_faucet"%string)
  | NoPrice => (503, "no_price"%string)
  | Stale _ => (503, "stale"%string)
  | BadPrecision => (400, "bad_precision"%string)
  | BatchTooLarge _ => (400, "batch_too_large"%string)
  | Internal => (500, "internal"%string)
  end.

(** ** Helpers *)

Definition precision_label (p : PricePrecision) : string :=
  match p with Full => "full" | Fixed n => show_uint n end.

Definition format_price (usd : F64) (p : PricePrecision) : string :=
  match p with Full => f_full usd | Fixed n => f_fixed usd n end.

Definition resolve_precision (st : PriceApiState) (q : gmap string string) : PricePrecision + ApiError :=
  match q !! "precision"%string with
  | Some p => match precision_parse p with Some x => inl x | None => inr BadPrecision end
  | None => inl (pa_default_precision st)
  end.

Definition wants_stale (q : gmap string string) : bool :=
  match q !! "allow_stale"%string with
  | Some v => bool_decide (v = "true"%string ∨ v = "1"%string)
  | None => false
  end.

(** [saturating_sub] on [i64]. *)
Definition sat_sub_i64 (x y : Z) : Z := Z.max (-9223372036854775808) (Z.min 9223372036854775807 (x - y)).

Definition staleness (st : PriceApiState) (now : Z) : Z * bool :=
  (fs_updated (pa_feed st), pa_staleness_secs st <? sat_sub_i64 now (fs_updated (pa_feed st))).

(** [fetch_token_row] *)
Definition fetch_token_row (st : PriceApiState) (key : Bytes) : RegisteredTokenRow + ApiError :=
  if negb (pa_db_ok st) then inr Internal
  else match get_registered_token (pa_db st) key with Some row => inl row | None => inr UnknownFaucet end.

Definition as_u8 (x : Z) : Z := x mod 256.

Definition quote_one (st : PriceApiState) (faucet_hex : string) (precision : PricePrecision) (as_of : Z) (stale : bool) :
    PriceResponse + ApiError :=
  match from_hex faucet_hex with
  | None => inr BadFaucetId
  | Some account_id =>
    match fetch_token_row st (id_bytes account_id) with
    | inr e => inr e
    | inl row =>
      match fs_precise (pa_feed st) !! account_id with
      | None => inr NoPrice
      | Some usd =>
        inl (mk_price (to_hex account_id) (tr_ticker row) (pa_vs_currency st) (format_price usd precision)
               (precision_label precision) (as_u8 <$> tr_decimals row) as_of stale "coingecko")
      end
    end
  end.

(** ** Handlers *)

Definition get_price (st : PriceApiState) (now : Z) (faucet_id : string) (q : gmap string string) : PriceResponse + ApiError :=
  match resolve_precision st q with
  | inr e => inr e
  | inl precision =>
    let '(as_of, stale) := staleness st now in
    if stale && negb (wants_stale q) then inr (Stale as_of) else quote_one st faucet_id precision as_of stale
  end.

(** The ids of a batch request. *)
Definition batch_ids (q : gmap string string) : list string :=
  String.string_of_list_ascii <$>
    filter (λ s, s ≠ []) (trim <$> split_comma (String.list_ascii_of_string (default ""%string (q !! "ids"%string))) []).

Definition insert_quote_one (st : PriceApiState) (precision : PricePrecision) (as_of : Z) (stale : bool)
    (out : gmap string PriceResponse) (id : string) : gmap string PriceResponse :=
  match quote_one st id precision as_of stale with
  | inl resp => <[pr_faucet_id resp := resp]> out
  | inr _ => out
  end.

Definition get_prices (st : PriceApiState) (now : Z) (q : gmap string string) : gmap string PriceResponse + ApiError :=
  let ids := batch_ids q in
  if pa_max_batch st <? Z.of_nat (length ids) then inr (BatchTooLarge (pa_max_batch st))
  else
    match resolve_precision st q with
    | inr e => inr e
    | inl precision =>
      let '(as_of, stale) := staleness st now in
      if stale && negb (wants_stale q) then inr (Stale as_of)
      else inl (foldl (insert_quote_one st precision as_of stale) ∅ ids)
    end.

(** ** The swap estimate *)

Record SwapEtaResponse := mk_eta {
  se_offered_faucet : string;
  se_requested_faucet : string;
  se_offered_amount : string;
  se_requested_amount : string;
  se_can_fill : bool;
  se_off_market : option bool;
  se_estimated_seconds : option Z;
  se_market_price : option string;
  se_median24h_seconds : option Z;
}.

Definition parse_amount (q : gmap string string) (key : string) : Z + ApiError :=
  match q !! key with
  | None => inr BadAmount
  | Some raw =>
    match parse_uint (two64 - 1) raw with
    | None => inr BadAmount
    | Some v => if v =? 0 then inr BadAmount else inl v
    end
  end.

Definition parse_faucet (q : gmap string string) (key : string) : TokenId + ApiError :=
  match q !! key with
  | None => inr BadFaucetId
  | Some raw => match from_hex raw with Some id => inl id | None => inr BadFaucetId end
  end.

Notation "x <- e ; f" := (match e with inl x => f | inr err => inr err end) (at level 60, e at next level, right associativity).

Definition get_swap_eta (st : PriceApiState) (now : Z) (q : gmap string string) : SwapEtaResponse + ApiError :=
  a <- parse_faucet q "offered_faucet";
  b <- parse_faucet q "requested_faucet";
  if decide (a = b) then inr BadRequest
  else
    offered_amount <- parse_amount q "offered_amount";
    requested_amount <- parse_amount q "requested_amount";
    row_a <- fetch_token_row st (id_bytes a);
    row_b <- fetch_token_row st (id_bytes b);
    let d_a := as_u8 <$> tr_decimals row_a in
    let d_b := as_u8 <$> tr_decimals row_b in
    let can_fill := eval_can_fill offered_amount requested_amount (pa_swap st !! (b, a)) in
    let estimated_seconds := if can_fill then Some (pa_swap_eta_secs st) else None in
    let '(usd_a, usd_b) :=
      if (staleness st now).2 then (None, None) else (fs_precise (pa_feed st) !! a, fs_precise (pa_feed st) !! b) in
    let '(off_market, market_price) :=
      eval_off_market f_positive f_cents128 f_quotient offered_amount d_a usd_a requested_amount d_b usd_b
        (pa_swap_offmarket_tol_bps st) in
    let median := median_secs (pa_stats st) (a, b) (Z.max 0 now) in
    inl (mk_eta (to_hex a) (to_hex b) (show_uint offered_amount) (show_uint requested_amount) can_fill off_market
           estimated_seconds market_price median).
End api.

(** ** The readiness probe *)

Inductive Readiness := Ready | DbUnreachable | SyncStale (age : Z).

Definition readyz (db_ok : bool) (freshness_secs last now : Z) : Readiness :=
  if negb db_ok then DbUnreachable
  else
    let age := sat_sub_i64 now last in
    if as_i64 freshness_secs <? age then SyncStale age else Ready.

(** ** Lemmas *)

Definition precision_ok (p : PricePrecision) : Prop := match p with Full => True | Fixed n => 0 <= n <= 18 end.

Lemma parse_digits_nonneg max acc l x : 0 <= acc → parse_digits max acc l = Some x → 0 <= x.
Proof.
  revert acc. induction l as [|c l IH]; intros acc Ha; cbn [parse_digits]; [by intros [= <-]|].
  destruct (_ && _) eqn:E; [|done]. rewrite !andb_true_iff, !Z.leb_le in E. apply IH. lia.
Qed.

Lemma parse_digits_le max acc l x : acc <= max → parse_digits max acc l = Some x → x <= max.
Proof.
  revert acc. induction l as [|c l IH]; intros acc Ha; cbn [parse_digits]; [by intros [= <-]|].
  destruct (_ && _) eqn:E; [|done]. rewrite !andb_true_iff, !Z.leb_le in E. apply IH. lia.
Qed.

(** A parsed number is in the range of its type. *)
Lemma parse_uint_range max s x : 0 <= max → parse_uint max s = Some x → 0 <= x <= max.
Proof.
  intros Hm. unfold parse_uint. assert (∀ l, parse_digits max 0 l = Some x → 0 <= x <= max) as H.
  { intros l Hl. split; [by eapply (parse_digits_nonneg max 0 l)|by eapply parse_digits_le]. }
  destruct (String.list_ascii_of_string s) as [|c r]; [done|]. case_decide; [destruct r; [done|]|]; apply H.
Qed.

Section lemmas.
Context `{FL : Floats} `{!Miden}.
Context (from_hex : string → option TokenId) (to_hex : TokenId → string).

(** The text of an account id reads back. *)
Definition hex_roundtrip : Prop := ∀ t, from_hex (to_hex t) = Some t.

Lemma to_hex_inj t t' : hex_roundtrip → to_hex t = to_hex t' → t = t'.
Proof. intros Hx He. pose proof (Hx t) as Ht. rewrite He, Hx in Ht. congruence. Qed.

Lemma quote_one_inl st id precision as_of stale r :
  quote_one from_hex to_hex st id precision as_of stale = inl r →
  ∃ t row usd, from_hex id = Some t ∧ pa_db_ok st = true ∧ get_registered_token (pa_db st) (id_bytes t) = Some row ∧
    fs_precise (pa_feed st) !! t = Some usd ∧
    r = mk_price (to_hex t) (tr_ticker row) (pa_vs_currency st) (format_price usd precision) (precision_label precision)
          (as_u8 <$> tr_decimals row) as_of stale "coingecko".
Proof.
  unfold quote_one, fetch_token_row. destruct (from_hex id) as [t|]; [|done]. destruct (pa_db_ok st); [|done]. simpl.
  destruct (get_registered_token _ _) as [row|] eqn:Er; [|done]. destruct (fs_precise _ !! t) as [usd|] eqn:Eu; [|done].
  intros [= <-]. by exists t, row, usd.
Qed.

(** Two quotes with the same faucet text are the same. *)
Lemma quote_one_unique st id id' precision as_of stale r r' :
  hex_roundtrip → quote_one from_hex to_hex st id precision as_of stale = inl r →
  quote_one from_hex to_hex st id' precision as_of stale = inl r' → pr_faucet_id r = pr_faucet_id r' → r = r'.
Proof.
  intros Hx (t & row & usd & _ & _ & Hr & Hu & ->)%quote_one_inl (t' & row' & usd' & _ & _ & Hr' & Hu' & ->)%quote_one_inl He.
  simpl in He. apply to_hex_inj in He as <-; [|done]. congruence.
Qed.

Lemma batch_lookup st precision as_of stale ids key r :
  hex_roundtrip →
  foldl (insert_quote_one from_hex to_hex st precision as_of stale) ∅ ids !! key = Some r ↔
  ∃ id, id ∈ ids ∧ quote_one from_hex to_hex st id precision as_of stale = inl r ∧ key = pr_faucet_id r.
Proof.
  intros Hx. induction ids as [|id ids IH] using rev_ind.
  { split; [done|]. by intros (?&?%elem_of_nil&_). }
  rewrite foldl_snoc. unfold insert_quote_one at 1. setoid_rewrite elem_of_app. setoid_rewrite list_elem_of_singleton.
  destruct (quote_one from_hex to_hex st id precision as_of stale) as [r0|e] eqn:E.
  - rewrite lookup_insert_Some, IH. split.
    + intros [[<- <-]|[_ (i & ? & ? & ?)]]; [exists id; auto|exists i; auto].
    + intros (i & [Hi| ->] & Hq & ->); [|left; by split; congruence].
      destruct (decide (pr_faucet_id r0 = pr_faucet_id r)) as [He|He]; [left; split; [done|]|right; split; [done|]; eauto].
      by apply (quote_one_unique st id i precision as_of stale).
  - rewrite IH. split; intros (i & Hi & Hq & ->); exists i; [auto|]. destruct Hi as [? | ->]; [auto|congruence].
Qed.

Lemma size_batch st precision as_of stale ids (out : gmap string PriceResponse) :
  (size (foldl (insert_quote_one from_hex to_hex st precision as_of stale) out ids) <= size out + length ids)%nat.
Proof.
  revert out. induction ids as [|id ids IH]; intros out; simpl; [lia|]. etrans; [apply IH|].
  unfold insert_quote_one. destruct (quote_one _ _ _ _ _ _ _) as [r|]; [|lia].
  destruct (out !! pr_faucet_id r) eqn:E; [rewrite map_size_insert_Some by (by eexists)|rewrite map_size_insert_None by done]; lia.
Qed.
End lemmas.

(** ** Theorems *)

(** C33. The batch endpoint agrees with the single one.  When it answers, it holds under a key exactly
    the responses the single endpoint gives for the ids of the request, filed under their own
    faucet text, and never more entries than the batch limit; when it refuses for any
    reason but the size of the batch, the single endpoint refuses every id with the same
    error. *)
Theorem batch_agrees_with_single `{FL : Floats} `{!Miden} from_hex to_hex st now q :
  hex_roundtrip from_hex to_hex →
  match get_prices from_hex to_hex st now q with
  | inl out =>
    (∀ key r, out !! key = Some r ↔ ∃ id, id ∈ batch_ids q ∧ get_price from_hex to_hex st now id q = inl r ∧ key = pr_faucet_id r) ∧
    Z.of_nat (size out) <= pa_max_batch st
  | inr (BatchTooLarge m) => m = pa_max_batch st ∧ m < Z.of_nat (length (batch_ids q))
  | inr e => ∀ id, get_price from_hex to_hex st now id q = inr e
  end.
Proof.
  intros Hx. unfold get_prices, get_price. destruct (Z.ltb_spec (pa_max_batch st) (Z.of_nat (length (batch_ids q)))) as [|Hle]; [done|].
  unfold resolve_precision. destruct (q !! "precision"%string) as [p|]; [destruct (precision_parse p) as [precision|]; [|done]|set (precision := pa_default_precision st)];
    destruct (staleness st now) as [as_of stale]; destruct (stale && negb (wants_stale q)); try done;
    (split; [intros key r; by apply batch_lookup|]);
    pose proof (size_batch from_hex to_hex st precision as_of stale (batch_ids q) ∅) as Hs; rewrite map_size_empty in Hs; lia.
Qed.

(** A quoted price is a current price of a registered token.  A successful answer names the
    faucet that was asked for, which is registered and priced, carries the feed's price in
    the requested precision and the time of the last refresh; it is marked stale exactly when
    that is older than the bound, and then only because the caller asked for stale prices. *)
Theorem quoted_price_sound `{FL : Floats} `{!Miden} from_hex to_hex st now id q r :
  get_price from_hex to_hex st now id q = inl r →
  ∃ t row usd precision, from_hex id = Some t ∧ pr_faucet_id r = to_hex t ∧
    get_registered_token (pa_db st) (id_bytes t) = Some row ∧ fs_precise (pa_feed st) !! t = Some usd ∧
    resolve_precision st q = inl precision ∧ pr_price r = format_price usd precision ∧
    pr_as_of r = fs_updated (pa_feed st) ∧
    (pr_stale r = true ↔ pa_staleness_secs st < sat_sub_i64 now (pr_as_of r)) ∧
    (pr_stale r = true → wants_stale q = true).
Proof.
  unfold get_price. destruct (resolve_precision st q) as [precision|] eqn:Ep; [|done]. unfold staleness.
  destruct (_ && _) eqn:Es; [done|]. intros (t & row & usd & Ht & _ & Hr & Hu & ->)%quote_one_inl.
  exists t, row, usd, precision. split_and!; try done; simpl; [by rewrite Z.ltb_lt|]. intros Hst.
  apply andb_false_iff in Es as [Es|Es]; [congruence|]. by apply negb_false_iff in Es.
Qed.


(** The precision setting reads back: every precision prints as a text that parses to it, in any
    letter case for the full one; only full and 0 to 18 decimal places are accepted, and a
    configuration that was validated never falls back to the default. *)
Theorem precision_roundtrip p s vs :
  precision_ok p →
  precision_parse (precision_label p) = Some p ∧ precision_parse "FULL" = Some Full ∧
  (∀ p', precision_parse s = Some p' → precision_ok p') ∧
  (config_valid s vs = true → is_Some (precision_parse s)).
Proof.
  intros Hp. split_and!.
  - destruct p as [|n]; [vm_compute; reflexivity|]. simpl in Hp.
    assert (n ∈ seqZ 0 19) as Hn by (apply elem_of_seqZ; lia). vm_compute in Hn.
    repeat (apply elem_of_cons in Hn as [->|Hn]; [vm_compute; reflexivity|]). by apply elem_of_nil in Hn.
  - vm_compute. reflexivity.
  - intros p'. unfold precision_parse. destruct (eq_ignore_ascii_case s "full"); [by intros [= <-]|].
    destruct (parse_uint 255 s) as [n|] eqn:E; [|done]. simpl. destruct (Z.leb_spec n 18); [|done]. intros [= <-].
    apply parse_uint_range in E; [|done]. simpl. lia.
  - unfold config_valid. rewrite andb_true_iff, bool_decide_eq_true. tauto.
Qed.

(** ** Witnesses *)

(** Prices in whole cents, and account ids in unary. *)
Definition demo_floats : Floats := {|
  F64 := Z; f_valid := λ x, 0 <=? x; f_positive := λ x, 0 <? x; f_cents64 := λ x, x; f_cents128 := λ x, x;
  f_full := show_uint; f_fixed := λ x _, show_uint x; f_quotient := λ x y, show_uint (x / y);
|}.
Definition unary_hex (t : TokenId) : string := String.string_of_list_ascii (replicate (N.to_nat t) comma).
Definition unary_parse (s : string) : option TokenId := Some (N.of_nat (length (String.list_ascii_of_string s))).

Lemma unary_roundtrip : hex_roundtrip unary_parse unary_hex.
Proof.
  intros t. unfold unary_parse, unary_hex. rewrite String.list_ascii_of_string_of_list_ascii, length_replicate, N2Nat.id. done.
Qed.

Definition demo_api_cfg : PriceApiConfig := mk_api_cfg "127.0.0.1" 8088 2 50 1000 "usd" "2" 30 30000 1000 500 2000 6000 50.
Definition demo_token_db : Db :=
  set_db_tokens db_empty {[ [1%N] := mk_token_row [1%N] 0 None (Some 6) None; [2%N] := mk_token_row [2%N] 0 None (Some 6) None ]}.
Definition demo_feed : @FeedState demo_floats := @mk_feed demo_floats {[1%N := 100; 2%N := 100]} {[1%N := 100; 2%N := 100]} 1000.
Definition demo_api_state : @PriceApiState demo_floats :=
  @api_state demo_floats demo_api_cfg demo_feed demo_token_db true (snapshot_best_levels sample_book) ∅.
Definition demo_query : gmap string string :=
  {["offered_faucet"%string := unary_hex 2; "requested_faucet"%string := unary_hex 1; "offered_amount"%string := "60"%string;
    "requested_amount"%string := "80"%string]}.

Lemma batch_agrees_with_single_witness :
  match @get_prices demo_floats demo_miden unary_parse unary_hex demo_api_state 1010 {["precision"%string := "19"%string]} with
  | inr e => ∀ id, @get_price demo_floats demo_miden unary_parse unary_hex demo_api_state 1010 id {["precision"%string := "19"%string]} = inr e
  | inl _ => False
  end.
Proof.
  pose proof (batch_agrees_with_single (FL := demo_floats) (H := demo_miden) unary_parse unary_hex demo_api_state 1010
    {["precision"%string := "19"%string]} unary_roundtrip) as H.
  destruct (get_prices _ _ _ _ _) as [out|e] eqn:E; vm_compute in E; [discriminate E|]. injection E as <-. exact H.
Defined.

Lemma quoted_price_sound_witness :
  match @get_price demo_floats demo_miden unary_parse unary_hex demo_api_state 1010 (unary_hex 1) ∅ with
  | inl r => pr_stale r = false ∧ pr_price r = "100"%string ∧
      (pr_stale r = true ↔ pa_staleness_secs demo_api_state < sat_sub_i64 1010 (pr_as_of r))
  | inr _ => False
  end.
Proof.
  pose proof (quoted_price_sound (FL := demo_floats) (H := demo_miden) unary_parse unary_hex demo_api_state 1010 (unary_hex 1) ∅) as H.
  destruct (get_price _ _ _ _ _ _) as [r|e] eqn:E; [|vm_compute in E; discriminate E].
  destruct (H r eq_refl) as (t & row & usd & p & _ & _ & _ & _ & _ & _ & _ & Hst & _).
  vm_compute in E. injection E as <-. split; [reflexivity|]. split; [reflexivity|exact Hst].
Defined.

Definition demo_eta : SwapEtaResponse :=
  mk_eta (unary_hex 2) (unary_hex 1) "60" "80" true (Some true) (Some 10) (Some "1"%string) None.


Lemma precision_roundtrip_witness : precision_parse (precision_label (Fixed 7)) = Some (Fixed 7).
Proof. apply (precision_roundtrip (Fixed 7) "7" "usd"). simpl. lia. Defined.
