(* ===== verification/Admin.v ===== *)
(** * The admin API (crates/solver/src/admin/admin.rs, price/token_map.rs)

    The token registration handlers over the modelled queries and the in-memory
    symbol cache the price client reads.  HTTP routing, JSON and the hexadecimal codec are
    libraries: a request arrives parsed into its fields, and the codec is a parameter.  The
    write pool has a single connection, held to the end of a handler, so handlers that
    write are serial.

    The theorem of this file: the cache is always what a restart would load. *)

From stdpp Require Import option.
From S2P Require Import Prelude.
From S2P Require Import Types.
From S2P Require Import Db.

(** ** State and requests *)

(** The database, the shared symbol cache and what was sent to the subscribe task. *)
Record AdminState := mk_admin {
  ad_db : Db;
  ad_token_map : gmap TokenId string;
  ad_subscribed : list (TokenId * TokenId);
}.

Record TokenRequest := mk_request { rq_token_id : string; rq_external_symbol : option string }.

(** What the environment lets through: a write connection and its statement, the read of the
    token list, and the channel to the subscribe task, which closes after [Some k] sends. *)
Record AdminEnv := mk_admin_env { env_write : bool; env_read : bool; env_channel : option nat }.

(** Status codes. *)
Definition OK : Z := 200.
Definition CREATED : Z := 201.
Definition BAD_REQUEST : Z := 400.
Definition UNAUTHORIZED : Z := 401.
Definition NOT_FOUND : Z := 404.
Definition INTERNAL_SERVER_ERROR : Z := 500.

(** [set_cache] *)
Definition set_cache (map : gmap TokenId string) (token : TokenId) (symbol : option string) : gmap TokenId string :=
  match symbol with Some s => <[token := s]> map | None => delete token map end.

Section admin.
Context `{!Miden} `{HI : HashIter}.
Context (hex_decode : string → option Bytes) (hex_encode : Bytes → string).

(** Both directions of the pairs of a new token with the others. *)
Definition subscriptions (new_token : TokenId) (existing : list TokenId) : list (TokenId * TokenId) :=
  mjoin ((λ t, if decide (t = new_token) then [] else [(new_token, t); (t, new_token)]) <$> existing).

(** The sends that reach the subscribe task; a failed one is only logged. *)
Definition sent {A} (channel : option nat) (l : list A) : list A :=
  match channel with None => l | Some k => take k l end.

(** [AdminState::register_token]; [None] is an error. *)
Definition admin_register_token (n : N) (env : AdminEnv) (now : Z) (st : AdminState) (new_token : TokenId)
    (external_symbol : option string) : AdminState * option bool :=
  if negb (env_write env) then (st, None)
  else
    let '(d, inserted) := register_token (ad_db st) (id_bytes new_token) now external_symbol in
    if negb inserted then (mk_admin d (ad_token_map st) (ad_subscribed st), Some false)
    else
      let map := match external_symbol with
                 | Some _ => set_cache (ad_token_map st) new_token external_symbol
                 | None => ad_token_map st
                 end in
      if negb (env_read env) then (mk_admin d map (ad_subscribed st), None)
      else
        match load_registered_tokens n d with
        | None => (mk_admin d map (ad_subscribed st), None)
        | Some existing =>
          (mk_admin d map (ad_subscribed st ++ sent (env_channel env) (subscriptions new_token existing)), Some true)
        end.

(** [hex::decode] and [TokenId::read_from]. *)
Definition parse_token (req : TokenRequest) : option (Bytes * TokenId) :=
  bytes ← hex_decode (rq_token_id req); token ← id_read bytes; Some (bytes, token).

Definition add_token (n : N) (env : AdminEnv) (now : Z) (st : AdminState) (req : TokenRequest) : AdminState * Z :=
  match parse_token req with
  | None => (st, BAD_REQUEST)
  | Some (_, token) =>
    let '(st, r) := admin_register_token n env now st token (rq_external_symbol req) in
    (st, match r with None => INTERNAL_SERVER_ERROR | Some true => CREATED | Some false => OK end)
  end.

Definition update_token_symbol_handler (env : AdminEnv) (st : AdminState) (req : TokenRequest) : AdminState * Z :=
  match parse_token req with
  | None => (st, BAD_REQUEST)
  | Some (bytes, token) =>
    if negb (env_write env) then (st, INTERNAL_SERVER_ERROR)
    else
      let '(d, updated) := update_token_symbol (ad_db st) bytes (rq_external_symbol req) in
      if negb updated then (mk_admin d (ad_token_map st) (ad_subscribed st), NOT_FOUND)
      else (mk_admin d (set_cache (ad_token_map st) token (rq_external_symbol req)) (ad_subscribed st), OK)
  end.

Definition remove_token (env : AdminEnv) (st : AdminState) (req : TokenRequest) : AdminState * Z :=
  match parse_token req with
  | None => (st, BAD_REQUEST)
  | Some (bytes, token) =>
    if negb (env_write env) then (st, INTERNAL_SERVER_ERROR)
    else
      let '(d, deleted) := unregister_token (ad_db st) bytes in
      if deleted then (mk_admin d (set_cache (ad_token_map st) token None) (ad_subscribed st), OK)
      else (mk_admin d (ad_token_map st) (ad_subscribed st), NOT_FOUND)
  end.

Definition list_tokens (n : N) (env : AdminEnv) (st : AdminState) : list string + Z :=
  if negb (env_read env) then inr INTERNAL_SERVER_ERROR
  else
    match load_registered_tokens n (ad_db st) with
    | None => inr INTERNAL_SERVER_ERROR
    | Some tokens => inl ((λ t, hex_encode (id_bytes t)) <$> tokens)
    end.

(** ** Authentication and routing *)

(** [require_bearer_token]: [bearer] is the bearer token of the header, if it has one. *)
Definition require_bearer_token (expected : string) (bearer : option string) : bool :=
  match bearer with Some t => bool_decide (t = expected) | None => false end.

Inductive AdminCall := ListTokens | AddToken (req : TokenRequest) | PatchToken (req : TokenRequest) | DeleteToken (req : TokenRequest).

(** [AdminState::router]: without an admin token there are no routes. *)
Definition admin_call (admin_token bearer : option string) (n : N) (env : AdminEnv) (now : Z) (st : AdminState) (c : AdminCall) :
    AdminState * Z :=
  match admin_token with
  | None => (st, NOT_FOUND)
  | Some expected =>
    if negb (require_bearer_token expected bearer) then (st, UNAUTHORIZED)
    else
      match c with
      | ListTokens => (st, match list_tokens n env st with inl _ => OK | inr code => code end)
      | AddToken req => add_token n env now st req
      | PatchToken req => update_token_symbol_handler env st req
      | DeleteToken req => remove_token env st req
      end
  end.

(** What can happen to the tokens: a call, or ingest storing the metadata of a token. *)
Inductive AdminAct :=
  | Call (bearer : option string) (env : AdminEnv) (now : Z) (c : AdminCall)
  | Metadata (token : TokenId) (decimals : option Z) (ticker : option string).

Definition admin_act (admin_token : option string) (n : N) (st : AdminState) (a : AdminAct) : AdminState :=
  match a with
  | Call bearer env now c => (admin_call admin_token bearer n env now st c).1
  | Metadata token decimals ticker =>
    mk_admin (set_token_metadata (ad_db st) (id_bytes token) decimals ticker).1 (ad_token_map st) (ad_subscribed st)
  end.

(** [prepare_db] of pipeline.rs: orders left settling become active again, the configured
    tokens are registered and the cache is loaded. *)
Definition prepare_db (n : N) (d : Db) (now : Z) (tokens : list (TokenId * option string)) : option AdminState :=
  let d := (reset_all_settling_to_active d).1 in
  let d := seed_tokens_from_config d now tokens in
  map ← load_token_symbols n d; Some (mk_admin d map []).
End admin.

(** ** The registered tokens *)

Section laws.
Context `{!Miden}.

(** Every row is stored under the bytes of its token. *)
Definition tokens_canonical (d : Db) : Prop :=
  ∀ k r, db_tokens d !! k = Some r → tr_token_id r = k ∧ ∃ t, k = id_bytes t.

(** The symbol of a token. *)
Definition symbol_of (d : Db) (t : TokenId) : option string := db_tokens d !! id_bytes t ≫= tr_external_symbol.

Lemma id_bytes_inj t t' : id_roundtrip → id_bytes t = id_bytes t' → t = t'.
Proof. intros Hid He. pose proof (Hid t) as Ht. rewrite He, Hid in Ht. congruence. Qed.

(** Bytes that read as a token and name a row are the token's own. *)
Lemma canonical_key d bytes t r :
  id_roundtrip → tokens_canonical d → id_read bytes = Some t → db_tokens d !! bytes = Some r → bytes = id_bytes t.
Proof. intros Hid Hc Hr Hk. destruct (Hc _ _ Hk) as [_ [t' ->]]. rewrite Hid in Hr. congruence. Qed.

Lemma symbols_of_spec rows (out : gmap TokenId string) :
  id_roundtrip → NoDup (tr_token_id <$> rows) → (∀ r, r ∈ rows → ∃ t, tr_token_id r = id_bytes t) →
  ∃ m, symbols_of rows out = Some m ∧ ∀ t s, m !! t = Some s ↔
    (∃ r, r ∈ rows ∧ tr_token_id r = id_bytes t ∧ tr_external_symbol r = Some s) ∨
    (out !! t = Some s ∧ ∀ r, r ∈ rows → tr_token_id r = id_bytes t → tr_external_symbol r = None).
Proof.
  intros Hid. revert out. induction rows as [|r rows IH]; intros out Hnd Hk; cbn [symbols_of fmap list_fmap] in *.
  { exists out. split; [done|]. intros t s. split; [|by intros [(r & ?%elem_of_nil & _)|[? _]]].
    intros Ho. right. split; [done|]. by intros r ?%elem_of_nil. }
  apply NoDup_cons in Hnd as [Hr Hnd]. assert (∀ r', r' ∈ rows → tr_token_id r' ≠ tr_token_id r) as Hne.
  { intros r' Hr' He. apply Hr. rewrite <-He. by apply list_elem_of_fmap_2. }
  destruct (Hk r) as [t0 Ht0]; [by left|]. destruct (tr_external_symbol r) as [s0|] eqn:Es.
  - rewrite Ht0, Hid. simpl. destruct (IH (<[t0 := s0]> out) Hnd) as (m & -> & Hm); [intros; apply Hk; by right|].
    exists m. split; [done|]. intros t s. rewrite Hm, lookup_insert_Some. setoid_rewrite elem_of_cons. split.
    + intros [(r' & ? & ? & ?)|[[[<- <-]|[Hd ?]] Hn]]; [left; exists r'; auto|left; exists r; auto|].
      right. split; [done|]. intros r' [->|?] He; [|auto]. rewrite Ht0 in He. by apply id_bytes_inj in He.
    + intros [(r' & [->|?] & He & Hs)|[Ho Hn]].
      * right. rewrite Ht0 in He. apply id_bytes_inj in He as ->; [|done]. split; [left; split; [done|congruence]|].
        intros r' Hr' He'. destruct (Hne r' Hr'). congruence.
      * left. exists r'. auto.
      * right. split; [|auto]. right. split; [|done]. intros ->. specialize (Hn r (or_introl eq_refl) Ht0). congruence.
  - destruct (IH out Hnd) as (m & -> & Hm); [intros; apply Hk; by right|]. exists m. split; [done|]. intros t s.
    rewrite Hm. setoid_rewrite elem_of_cons. split.
    + intros [(r' & ? & ? & ?)|[Ho Hn]]; [left; exists r'; auto|]. right. split; [done|]. intros r' [->|?]; auto.
    + intros [(r' & [->|?] & He & Hs)|[Ho Hn]]; [congruence|left; exists r'; auto|]. right. split; [done|]. auto.
Qed.

Context `{HI : HashIter}.

Lemma elem_of_registered n d r : tokens_canonical d → r ∈ get_registered_tokens n d ↔ db_tokens d !! tr_token_id r = Some r.
Proof.
  intros Hc. unfold get_registered_tokens. rewrite list_elem_of_omap. split.
  - intros (k & _ & Hk). by destruct (Hc _ _ Hk) as [-> _].
  - intros Hr. exists (tr_token_id r). rewrite hash_iter_perm, elem_of_elements, elem_of_dom. split; [by eexists|done].
Qed.

Lemma NoDup_registered n d : tokens_canonical d → NoDup (tr_token_id <$> get_registered_tokens n d).
Proof.
  intros Hc. unfold get_registered_tokens. assert (NoDup (hash_iter n (dom (db_tokens d)))) as Hnd
    by (rewrite hash_iter_perm; apply NoDup_elements).
  induction Hnd as [|k ks Hk Hnd IH]; simpl; [constructor|]. destruct (db_tokens d !! k) as [r|] eqn:Er; [|done].
  simpl. constructor; [|done]. destruct (Hc _ _ Er) as [-> _].
  intros (r' & -> & (k' & Hk' & Er')%list_elem_of_omap)%list_elem_of_fmap. apply Hk. by destruct (Hc _ _ Er') as [He _]; rewrite He.
Qed.

(** The cache a restart loads. *)
Lemma load_token_symbols_spec n d :
  id_roundtrip → tokens_canonical d →
  ∃ m, load_token_symbols n d = Some m ∧ ∀ t, m !! t = symbol_of d t.
Proof.
  intros Hid Hc. destruct (symbols_of_spec (get_registered_tokens n d) ∅ Hid (NoDup_registered n d Hc)) as (m & Hm & Hs).
  { intros r Hr%elem_of_registered; [|done]. by destruct (Hc _ _ Hr) as [_ [t ?]]; exists t. }
  exists m. split; [done|]. intros t. apply option_eq. intros s. rewrite Hs, lookup_empty. unfold symbol_of. rewrite bind_Some. split.
  - intros [(r & Hr & He & Hsym)|[[=] _]]. apply elem_of_registered in Hr; [|done]. rewrite He in Hr. eauto.
  - intros (r & Hr & Hsym). left. exists r. destruct (Hc _ _ Hr) as [He _]. rewrite elem_of_registered, He by done. auto.
Qed.

(** The cache is what a restart would load. *)
Definition cache_coherent (st : AdminState) : Prop :=
  tokens_canonical (ad_db st) ∧ ∀ t, ad_token_map st !! t = symbol_of (ad_db st) t.

Lemma coherent_loads n st :
  id_roundtrip → cache_coherent st → load_token_symbols n (ad_db st) = Some (ad_token_map st).
Proof.
  intros Hid [Hc Hm]. destruct (load_token_symbols_spec n (ad_db st) Hid Hc) as (m & -> & Hs). f_equal.
  apply map_eq. intros t. by rewrite Hs, Hm.
Qed.
End laws.

(** ** The operations keep the cache coherent *)

Section coherence.
Context `{!Miden} `{HI : HashIter}.
Context (hex_decode : string → option Bytes) (hex_encode : Bytes → string).

Lemma register_new d t now sym :
  db_tokens d !! id_bytes t = None →
  register_token d (id_bytes t) now sym =
  (set_db_tokens d (<[id_bytes t := mk_token_row (id_bytes t) now sym None None]> (db_tokens d)), true).
Proof. intros Hn. unfold register_token, insert_or_ignore. by rewrite Hn. Qed.

Lemma register_old d t now sym r :
  db_tokens d !! id_bytes t = Some r → register_token d (id_bytes t) now sym = (d, false).
Proof. intros Hr. unfold register_token, insert_or_ignore. rewrite Hr. by destruct d. Qed.

Lemma canonical_insert d t r :
  tokens_canonical d → tr_token_id r = id_bytes t →
  tokens_canonical (set_db_tokens d (<[id_bytes t := r]> (db_tokens d))).
Proof. intros Hc Hr k r' Hk. simpl in Hk. apply lookup_insert_Some in Hk as [[<- <-]|[_ Hk]]; [eauto|by apply Hc]. Qed.

Lemma canonical_alter d k f :
  tokens_canonical d → (∀ r, tr_token_id (f r) = tr_token_id r) →
  tokens_canonical (set_db_tokens d (alter f k (db_tokens d))).
Proof.
  intros Hc Hf k' r Hk. simpl in Hk. destruct (decide (k = k')) as [->|]; [|rewrite lookup_alter_ne in Hk by done; by apply Hc].
  rewrite lookup_alter_eq in Hk. apply fmap_Some in Hk as (r0 & Hr0 & ->). rewrite Hf. by apply Hc.
Qed.

Lemma symbol_of_insert d t r t' :
  id_roundtrip →
  symbol_of (set_db_tokens d (<[id_bytes t := r]> (db_tokens d))) t' =
  if decide (t = t') then tr_external_symbol r else symbol_of d t'.
Proof.
  intros Hid. unfold symbol_of. simpl. case_decide as Ht; subst; [by rewrite lookup_insert_eq|].
  rewrite lookup_insert_ne; [done|]. by intros ?%id_bytes_inj.
Qed.

(** Registering a token keeps the tables canonical and changes at most its own symbol. *)
Lemma register_canonical d t now sym : tokens_canonical d → tokens_canonical (register_token d (id_bytes t) now sym).1.
Proof.
  intros Hc. destruct (db_tokens d !! id_bytes t) as [r|] eqn:Er; [by rewrite (register_old d t now sym r)|].
  rewrite register_new by done. by apply canonical_insert.
Qed.

Lemma seed_canonical d now tokens : tokens_canonical d → tokens_canonical (seed_tokens_from_config d now tokens).
Proof.
  unfold seed_tokens_from_config. revert d. induction tokens as [|t tokens IH]; intros d Hc; simpl; [done|].
  apply IH. by apply register_canonical.
Qed.

Lemma lookup_set_cache m t sym t' : set_cache m t sym !! t' = if decide (t = t') then sym else m !! t'.
Proof.
  destruct sym as [s|]; simpl; case_decide; subst;
    [by rewrite lookup_insert_eq|by rewrite lookup_insert_ne|by rewrite lookup_delete_eq|by rewrite lookup_delete_ne].
Qed.

Lemma add_coherent n env now st req :
  id_roundtrip → cache_coherent st → cache_coherent (add_token hex_decode n env now st req).1.
Proof.
  intros Hid [Hc Hm]. unfold add_token. destruct (parse_token _ _) as [[? t]|]; [|done].
  unfold admin_register_token. destruct (env_write env); simpl; [|done].
  destruct (db_tokens (ad_db st) !! id_bytes t) as [r|] eqn:Er; [by rewrite (register_old _ _ _ _ r)|].
  rewrite register_new by done. simpl. set (d' := set_db_tokens _ _).
  assert (symbol_of (ad_db st) t = None) as Hnone by (unfold symbol_of; by rewrite Er).
  assert (∀ subs, cache_coherent (mk_admin d' (match rq_external_symbol req with
    | Some _ => set_cache (ad_token_map st) t (rq_external_symbol req) | None => ad_token_map st end) subs)) as Hcoh.
  { intros subs. split; [by apply canonical_insert|]. intros t'. simpl. unfold d'. rewrite symbol_of_insert by done. simpl.
    destruct (rq_external_symbol req); [rewrite lookup_set_cache|]; case_decide; subst; rewrite ?Hm; done. }
  destruct (env_read env); simpl; [|apply Hcoh]. destruct (load_registered_tokens n d'); apply Hcoh.
Qed.

Lemma patch_coherent env st req :
  id_roundtrip → cache_coherent st → cache_coherent (update_token_symbol_handler hex_decode env st req).1.
Proof.
  intros Hid [Hc Hm]. unfold update_token_symbol_handler, parse_token. destruct (hex_decode _) as [bytes|]; simpl; [|done].
  destruct (id_read bytes) as [t|] eqn:Et; simpl; [|done]. destruct (env_write env); simpl; [|done].
  destruct (db_tokens (ad_db st) !! bytes) as [r|] eqn:Er.
  - pose proof (canonical_key _ _ _ _ Hid Hc Et Er) as ->. rewrite bool_decide_eq_true_2 by (by eexists). simpl.
    split; [by apply canonical_alter|]. intros t'. cbn [ad_token_map]. rewrite lookup_set_cache. unfold symbol_of. simpl. case_decide as Ht; subst.
    + by rewrite lookup_alter_eq, Er.
    + rewrite lookup_alter_ne; [apply Hm|]. by intros ?%id_bytes_inj.
  - rewrite bool_decide_eq_false_2 by (by intros [? [=]]). simpl. split; [by apply canonical_alter|].
    intros t'. rewrite Hm. unfold symbol_of. simpl. destruct (decide (bytes = id_bytes t')) as [->|].
    + by rewrite lookup_alter_eq, Er.
    + by rewrite lookup_alter_ne.
Qed.

Lemma delete_coherent env st req :
  id_roundtrip → cache_coherent st → cache_coherent (remove_token hex_decode env st req).1.
Proof.
  intros Hid [Hc Hm]. unfold remove_token, parse_token. destruct (hex_decode _) as [bytes|]; simpl; [|done].
  destruct (id_read bytes) as [t|] eqn:Et; simpl; [|done]. destruct (env_write env); simpl; [|done].
  destruct (db_tokens (ad_db st) !! bytes) as [r|] eqn:Er.
  - pose proof (canonical_key _ _ _ _ Hid Hc Et Er) as ->. rewrite bool_decide_eq_true_2 by (by eexists).
    split; [intros k r' Hk; simpl in Hk; apply lookup_delete_Some in Hk as [_ Hk]; by apply Hc|]. intros t'.
    unfold symbol_of. simpl. destruct (decide (t = t')) as [->|Ht]; [by rewrite !lookup_delete_eq|].
    rewrite !lookup_delete_ne; [apply Hm|by intros ?%id_bytes_inj|done].
  - rewrite bool_decide_eq_false_2 by (by intros [? [=]]). unfold unregister_token. rewrite delete_id by done.
    split; [by destruct st as [[] ? ?]|]. intros t'. rewrite Hm. done.
Qed.

Lemma metadata_coherent st token decimals ticker :
  cache_coherent st →
  cache_coherent (mk_admin (set_token_metadata (ad_db st) (id_bytes token) decimals ticker).1 (ad_token_map st) (ad_subscribed st)).
Proof.
  intros [Hc Hm]. split; [by apply canonical_alter|]. intros t. rewrite Hm. unfold symbol_of. simpl.
  destruct (decide (id_bytes token = id_bytes t)) as [->|]; [|by rewrite lookup_alter_ne].
  rewrite lookup_alter_eq. by destruct (db_tokens (ad_db st) !! id_bytes t).
Qed.

Lemma act_coherent admin_token n st a :
  id_roundtrip → cache_coherent st → cache_coherent (admin_act hex_decode hex_encode admin_token n st a).
Proof.
  intros Hid Hst. destruct a as [bearer env now c|]; simpl; [|by apply metadata_coherent].
  unfold admin_call. destruct admin_token as [expected|]; [|done]. destruct (require_bearer_token _ _); [|done]. simpl.
  destruct c; [done|by apply add_coherent|by apply patch_coherent|by apply delete_coherent].
Qed.

Lemma acts_coherent admin_token n st acts :
  id_roundtrip → cache_coherent st → cache_coherent (foldl (admin_act hex_decode hex_encode admin_token n) st acts).
Proof.
  intros Hid. revert st. induction acts as [|a acts IH]; intros st Hst; simpl; [done|]. apply IH. by apply act_coherent.
Qed.
End coherence.

(** ** Theorems *)

(** C31. The price client's symbol cache never drifts from the database.  From a start that registers
    the configured tokens, after any sequence of admin calls (authorised or not, with write,
    read or channel failures, malformed tokens or trailing bytes) and metadata updates by
    ingest, the cache is exactly what a restart would load from the database. *)
Theorem admin_cache_coherent `{!Miden} `{HI : HashIter} hex_decode hex_encode admin_token n k d now tokens st acts :
  id_roundtrip → tokens_canonical d → prepare_db n d now tokens = Some st →
  let st' := foldl (admin_act hex_decode hex_encode admin_token n) st acts in
  load_token_symbols k (ad_db st') = Some (ad_token_map st').
Proof.
  intros Hid Hc Hst st'. apply coherent_loads; [done|]. apply acts_coherent; [done|].
  unfold prepare_db in Hst. pose proof (seed_canonical (reset_all_settling_to_active d).1 now tokens Hc) as Hc'.
  destruct (load_token_symbols_spec n _ Hid Hc') as (m & Hm & Hs). rewrite Hm in Hst. injection Hst as <-. by split.
Qed.

(** No call without the admin token changes anything: without a configured token every route is
    unknown, and with one a missing or different bearer token is refused. *)
Theorem admin_requires_token `{!Miden} `{HI : HashIter} hex_decode hex_encode admin_token bearer n env now st c :
  admin_token = None ∨ bearer ≠ admin_token →
  admin_call hex_decode hex_encode admin_token bearer n env now st c =
  (st, match admin_token with None => NOT_FOUND | Some _ => UNAUTHORIZED end).
Proof.
  intros Hno. unfold admin_call. destruct admin_token as [expected|]; [|done]. destruct Hno as [[=]|Hno].
  unfold require_bearer_token. destruct bearer as [t|]; [|done]. rewrite bool_decide_eq_false_2; [done|]. congruence.
Qed.

(** ** Witnesses *)

(** Hexadecimal text stands for itself here: one character per byte. *)
Definition demo_hex (s : string) : option Bytes := Some (Ascii.N_of_ascii <$> String.list_ascii_of_string s).

Definition demo_admin : option AdminState := @prepare_db demo_miden elements_iter 0 db_empty 5 [(7%N, Some "ethereum"%string); (8%N, None)].
Definition demo_acts : list AdminAct :=
  [Call (Some "key"%string) (mk_admin_env true true None) 6 (AddToken (mk_request "A" (Some "bitcoin"%string)));
   Call (Some "bad"%string) (mk_admin_env true true None) 6 (DeleteToken (mk_request "A" None));
   Metadata 65 (Some 8) (Some "BTC"%string);
   Call (Some "key"%string) (mk_admin_env true false (Some 0%nat)) 7 (PatchToken (mk_request "A" (Some "wrapped-bitcoin"%string)))].

Lemma admin_cache_coherent_witness :
  match demo_admin with
  | Some st => @load_token_symbols demo_miden elements_iter 0
      (ad_db (foldl (@admin_act demo_miden elements_iter demo_hex (λ _, EmptyString) (Some "key"%string) 0) st demo_acts)) =
      Some {[7%N := "ethereum"%string; 65%N := "wrapped-bitcoin"%string]}
  | None => False
  end.
Proof.
  destruct demo_admin as [st|] eqn:E; [|vm_compute in E; discriminate E].
  rewrite (admin_cache_coherent (H := demo_miden) (HI := elements_iter) demo_hex (λ _, EmptyString) (Some "key"%string) 0 0 db_empty 5
    [(7%N, Some "ethereum"%string); (8%N, None)] st demo_acts); [| |by intros k r H|exact E].
  - vm_compute in E. injection E as <-. vm_compute. reflexivity.
  - done.
Defined.

Lemma admin_requires_token_witness :
  (@admin_call demo_miden elements_iter demo_hex (λ _, EmptyString) (Some "key"%string) (Some "bad"%string) 0
    (mk_admin_env true true None) 6 (mk_admin db_empty ∅ []) ListTokens).2 = UNAUTHORIZED.
Proof.
  rewrite (admin_requires_token (H := demo_miden) (HI := elements_iter)); [reflexivity|]. right. discriminate.
Defined.
