(* ===== verification/Pipeline.v ===== *)
(** * Boot and subscriptions (crates/solver/src/pipeline.rs)

    The subscription of all pairs at boot, the one-time fetch of a token's metadata and the
    relay that applies the subscriptions the admin API sends.  The theorem: no pair of
    registered tokens is left without a subscription. *)

From stdpp Require Import option.
From S2P Require Import Prelude.
From S2P Require Import Types.
From S2P Require Import Db.
From S2P Require Import Ingest.
From S2P Require Import Admin.

(** ** Operations *)

Section pipeline.
Context `{!Miden} `{HI : HashIter}.

(** What a metadata fetch meets: the first connection and its query, the reply of the node
    (decimals and ticker of a public faucet, nothing, or an error), and the second
    connection. *)
Record MetadataEnv := mk_metadata { me_read : bool; me_reply : option (option (Z * string)); me_write : bool }.

Definition ensure_token_metadata (env : MetadataEnv) (d : Db) (token : TokenId) : Db :=
  if negb (me_read env) then d
  else
    match get_registered_token d (id_bytes token) with
    | None => d
    | Some row =>
      match tr_decimals row with
      | Some _ => d
      | None =>
        match me_reply env with
        | Some (Some (decimals, ticker)) =>
          if me_write env then (set_token_metadata d (id_bytes token) (Some decimals) (Some ticker)).1 else d
        | _ => d
        end
      end
    end.

(** The two nested loops over the tokens. *)
Definition all_pairs (tokens : list TokenId) : list (TokenId * TokenId) :=
  mjoin (imap (λ i a, mjoin (imap (λ j b, if decide (i = j) then [] else [(a, b)]) tokens)) tokens).

(** [subscribe_all_pairs]: the database after the metadata fetches and the subscribed tags;
    [None] when a token does not parse or a subscription fails. *)
Definition subscribe_all_pairs (n : N) (env : TokenId → MetadataEnv) (subscribe_ok : TokenId * TokenId → bool) (d : Db) :
    option (Db * gset (TokenId * TokenId)) :=
  tokens ← load_registered_tokens n d;
  let d := foldl (λ d t, ensure_token_metadata (env t) d t) d tokens in
  if forallb subscribe_ok (all_pairs tokens) then Some (d, list_to_set (all_pairs tokens)) else None.

(** The admin API, the relay's position in the channel and the tags of the client. *)
Record RelayState := mk_relay {
  re_admin : AdminState;
  re_taken : nat;
  re_tags : gset (TokenId * TokenId);
}.

(** One message of the channel, with what the two metadata fetches meet. *)
Definition relay (env env' : MetadataEnv) (subscribe_ok : bool) (s : RelayState) : RelayState :=
  match ad_subscribed (re_admin s) !! re_taken s with
  | None => s
  | Some (offered, requested) =>
    let tags := if subscribe_ok then {[(offered, requested)]} ∪ re_tags s else re_tags s in
    let d := ensure_token_metadata env (ad_db (re_admin s)) offered in
    let d := ensure_token_metadata env' d requested in
    mk_relay (mk_admin d (ad_token_map (re_admin s)) (ad_subscribed (re_admin s))) (S (re_taken s)) tags
  end.

Context (hex_decode : string → option Bytes) (hex_encode : Bytes → string) (admin_token : option string).

Inductive RelayAct := OnAdmin (a : AdminAct) | OnRelay (env env' : MetadataEnv) (subscribe_ok : bool).

Definition relay_act (n : N) (s : RelayState) (a : RelayAct) : RelayState :=
  match a with
  | OnAdmin a => mk_relay (admin_act hex_decode hex_encode admin_token n (re_admin s) a) (re_taken s) (re_tags s)
  | OnRelay env env' ok => relay env env' ok s
  end.

(** The solver after boot. *)
Definition boot (n : N) (env : TokenId → MetadataEnv) (d : Db) (now : Z) (tokens : list (TokenId * option string)) : option RelayState :=
  st ← prepare_db n d now tokens;
  '(d, tags) ← subscribe_all_pairs n env (λ _, true) (ad_db st);
  Some (mk_relay (mk_admin d (ad_token_map st) []) 0 tags).
End pipeline.

(** ** Lemmas *)

Section lemmas.
Context `{!Miden} `{HI : HashIter}.

(** The loop over the pairs with the adapter. *)
Fixpoint subscribe_each (create_tag : TokenId → TokenId → N) (added : TokenId * TokenId → bool) (pairs : list (TokenId * TokenId)) (tags : gset N) :
    option (gset N) :=
  match pairs with
  | [] => Some tags
  | p :: rest => tags ← subscribe_pair create_tag (added p) tags p.1 p.2; subscribe_each create_tag added rest tags
  end.

(** It succeeds when every subscription does, and then adds the tags of exactly these pairs: the
    set of pairs of [subscribe_all_pairs] stands for the tags of the client. *)
Lemma subscribe_each_tags create_tag added pairs tags :
  subscribe_each create_tag added pairs tags =
    (if forallb (λ p, fungible_asset_ok p.1 1 && fungible_asset_ok p.2 1 && added p) pairs
     then Some (list_to_set ((λ p, create_tag p.1 p.2) <$> pairs) ∪ tags) else None).
Proof.
  revert tags. induction pairs as [|p pairs IH]; intros tags; simpl; [by rewrite (left_id_L ∅ (∪))|].
  unfold subscribe_pair. destruct (fungible_asset_ok p.1 1); [|done]. destruct (fungible_asset_ok p.2 1); [|done].
  destruct (added p); [|done]. simpl. rewrite IH. destruct (forallb _ pairs); [|done]. f_equal. set_solver.
Qed.

Definition registered (d : Db) (t : TokenId) : Prop := is_Some (db_tokens d !! id_bytes t).

Lemma elem_of_all_pairs tokens a b : NoDup tokens → (a, b) ∈ all_pairs tokens ↔ a ∈ tokens ∧ b ∈ tokens ∧ a ≠ b.
Proof.
  intros Hnd. unfold all_pairs. rewrite list_elem_of_join. split.
  - intros (l & Hl & (i & x & -> & Hi)%elem_of_lookup_imap_1). apply list_elem_of_join in Hl as (l' & Hl & (j & y & -> & Hj)%elem_of_lookup_imap_1).
    case_decide as Hij; [by apply elem_of_nil in Hl|]. apply list_elem_of_singleton in Hl as [= -> ->].
    split_and!; [by eapply list_elem_of_lookup_2|by eapply list_elem_of_lookup_2|]. intros ->.
    by apply Hij, (NoDup_lookup tokens i j y).
  - intros ([i Hi]%list_elem_of_lookup & [j Hj]%list_elem_of_lookup & Hne).
    exists (mjoin (imap (λ j b, if decide (i = j) then [] else [(a, b)]) tokens)). split.
    + apply list_elem_of_join. exists [(a, b)]. split; [by left|].
      pose proof (elem_of_lookup_imap_2 (λ j b, if decide (i = j) then [] else [(a, b)]) tokens b j Hj) as H'. simpl in H'.
      rewrite decide_False in H'; [done|]. intros ->. congruence.
    + exact (elem_of_lookup_imap_2 (λ i a, mjoin (imap (λ j b, if decide (i = j) then [] else [(a, b)]) tokens)) tokens a i Hi).
Qed.

(** Loading the tokens of a canonical table gives each registered token once. *)
Lemma load_registered_spec n d :
  id_roundtrip → tokens_canonical d →
  ∃ l, load_registered_tokens n d = Some l ∧ NoDup l ∧ ∀ t, t ∈ l ↔ registered d t.
Proof.
  intros Hid Hc. unfold load_registered_tokens.
  assert (∀ r, r ∈ get_registered_tokens n d → ∃ t, tr_token_id r = id_bytes t ∧ id_read (tr_token_id r) = Some t) as Hread.
  { intros r Hr%elem_of_registered; [|done]. destruct (Hc _ _ Hr) as [_ [t Ht]]. exists t. by rewrite Ht, Hid. }
  destruct (collect_ok_some (λ row, id_read (tr_token_id row)) (get_registered_tokens n d)) as (l & -> & Hl).
  { intros r Hr. destruct (Hread r Hr) as (t & _ & ->). by eexists. }
  exists l. split; [done|].
  assert (l = omap (λ row, id_read (tr_token_id row)) (get_registered_tokens n d)) as Hlm.
  { clear Hread. induction Hl as [|r t rs ts Hr _ IH]; simpl; [done|]. rewrite Hr. by f_equal. }
  split.
  - assert (id_bytes <$> l = tr_token_id <$> get_registered_tokens n d) as Hb.
    { clear Hlm. induction Hl as [|r t rs ts Hr _ IH]; [done|]. rewrite !fmap_cons, IH by (intros; apply Hread; by right). f_equal.
      destruct (Hread r) as (t' & Hb & Ht'); [by left|]. simpl in Hr. rewrite Hb. congruence. }
    apply (NoDup_fmap_1 id_bytes). rewrite Hb. by apply NoDup_registered.
  - intros t. rewrite Hlm, list_elem_of_omap. unfold registered. split.
    + intros (r & Hr & Ht). destruct (Hread r Hr) as (t' & Hb & Ht'). apply elem_of_registered in Hr; [|done].
      rewrite Hb in Hr. assert (t' = t) as -> by congruence. by eexists.
    + intros [r Hr]. destruct (Hc _ _ Hr) as [Hk _]. exists r. rewrite elem_of_registered, Hk, Hid by done. done.
Qed.

Lemma ensure_metadata_keys env d t t' : registered (ensure_token_metadata env d t) t' ↔ registered d t'.
Proof.
  unfold ensure_token_metadata, registered. destruct (me_read env); [|done]. simpl.
  destruct (get_registered_token d (id_bytes t)) as [row|]; [|done]. destruct (tr_decimals row); [done|].
  destruct (me_reply env) as [[[dec tick]|]|]; try done. destruct (me_write env); [|done]. simpl.
  destruct (decide (id_bytes t = id_bytes t')) as [->|]; [by rewrite lookup_alter_eq, fmap_is_Some|by rewrite lookup_alter_ne].
Qed.

Lemma ensure_metadata_canonical env d t : tokens_canonical d → tokens_canonical (ensure_token_metadata env d t).
Proof.
  intros Hc. unfold ensure_token_metadata. destruct (me_read env); [|done]. simpl.
  destruct (get_registered_token d (id_bytes t)) as [row|]; [|done]. destruct (tr_decimals row); [done|].
  destruct (me_reply env) as [[[dec tick]|]|]; try done. destruct (me_write env); [|done]. by apply canonical_alter.
Qed.

Lemma ensure_all_metadata env tokens d t :
  tokens_canonical d →
  tokens_canonical (foldl (λ d t, ensure_token_metadata (env t) d t) d tokens) ∧
  (registered (foldl (λ d t, ensure_token_metadata (env t) d t) d tokens) t ↔ registered d t).
Proof.
  revert d. induction tokens as [|x tokens IH]; intros d Hc; simpl; [done|].
  destruct (IH (ensure_token_metadata (env x) d x)) as [H1 H2]; [by apply ensure_metadata_canonical|].
  split; [done|]. by rewrite H2, ensure_metadata_keys.
Qed.
End lemmas.

(** ** Every pair is subscribed or on its way *)

Section subscribed.
Context `{!Miden} `{HI : HashIter}.
Context (hex_decode : string → option Bytes) (hex_encode : Bytes → string) (admin_token : option string).

Record subscribed_inv (s : RelayState) : Prop := {
  sb_tokens : tokens_canonical (ad_db (re_admin s));
  sb_pairs : ∀ a b, registered (ad_db (re_admin s)) a → registered (ad_db (re_admin s)) b → a ≠ b →
    (a, b) ∈ re_tags s ∨ (a, b) ∈ drop (re_taken s) (ad_subscribed (re_admin s));
}.

(** No read of the token list, send or subscription fails. *)
Definition healthy (a : RelayAct) : Prop :=
  match a with
  | OnAdmin (Call _ env _ (AddToken _)) => env_read env = true ∧ env_channel env = None
  | OnAdmin _ => True
  | OnRelay _ _ ok => ok = true
  end.

Lemma elem_of_subscriptions t existing a b :
  (a, b) ∈ subscriptions t existing ↔ a ≠ b ∧ ((a = t ∧ b ∈ existing) ∨ (b = t ∧ a ∈ existing)).
Proof.
  unfold subscriptions. rewrite list_elem_of_join. setoid_rewrite list_elem_of_fmap. split.
  - intros (l & Hl & x & -> & Hx). case_decide as He; [by apply elem_of_nil in Hl|].
    apply elem_of_cons in Hl as [[= -> ->]|[= -> ->]%list_elem_of_singleton]; split; auto.
  - intros [Hne [[-> Hb]|[-> Ha]]].
    + eexists. split; [|exists b; split; [done|done]]. rewrite decide_False by done. by left.
    + eexists. split; [|exists a; split; [done|done]]. rewrite decide_False by done. by right; left.
Qed.

(** A step that registers nothing new and only adds messages keeps the invariant. *)
Lemma subscribed_weaken st taken tags st' :
  subscribed_inv (mk_relay st taken tags) → tokens_canonical (ad_db st') →
  (∀ t, registered (ad_db st') t → registered (ad_db st) t) → ad_subscribed st' = ad_subscribed st →
  subscribed_inv (mk_relay st' taken tags).
Proof. intros [_ Hp] Hc Hr He. split; simpl in *; [done|]. intros a b Ha%Hr Hb%Hr Hne. rewrite He. auto. Qed.

Lemma register_registered d t now sym t' :
  id_roundtrip → registered (register_token d (id_bytes t) now sym).1 t' ↔ t' = t ∨ registered d t'.
Proof.
  intros Hid. unfold registered. destruct (db_tokens d !! id_bytes t) as [r|] eqn:Er.
  - rewrite (register_old d t now sym r) by done. simpl. split; [auto|]. intros [->|?]; [rewrite Er; by eexists|done].
  - rewrite register_new by done. simpl. destruct (decide (t = t')) as [->|Hne].
    + rewrite lookup_insert_eq. split; [by left|]. intros _. by eexists.
    + rewrite lookup_insert_ne by (by intros ?%id_bytes_inj). split; [by right|]. intros [->|?]; [done|done].
Qed.

Lemma add_subscribed n env now st taken tags req :
  id_roundtrip → env_read env = true → env_channel env = None → (taken <= length (ad_subscribed st))%nat →
  subscribed_inv (mk_relay st taken tags) → subscribed_inv (mk_relay (add_token hex_decode n env now st req).1 taken tags) ∧
  (taken <= length (ad_subscribed (add_token hex_decode n env now st req).1))%nat.
Proof.
  intros Hid Hread Hch Hle Hinv. pose proof Hinv as [Hc Hp]. simpl in Hc, Hp.
  unfold add_token. destruct (parse_token _ _) as [[bs t]|]; [|done]. unfold admin_register_token.
  destruct (env_write env); [|done]. cbn [negb].
  pose proof (λ t', register_registered (ad_db st) t now (rq_external_symbol req) t' Hid) as Hreg.
  pose proof (register_canonical (ad_db st) t now (rq_external_symbol req) Hc) as Hc'.
  destruct (db_tokens (ad_db st) !! id_bytes t) as [r|] eqn:Er.
  { rewrite (register_old _ _ _ _ r) by done. split; [|done]. apply (subscribed_weaken st); done. }
  rewrite register_new in * by done. cbn [negb fst]. rewrite Hread. cbn [negb].
  set (d' := set_db_tokens _ _) in *. simpl in Hc', Hreg. destruct (load_registered_spec n d' Hid Hc') as (l & -> & _ & Hl).
  rewrite Hch. simpl. split; [|rewrite length_app; lia]. split; [done|]. simpl. intros a b Ha Hb Hne.
  rewrite drop_app_le by done. rewrite elem_of_app, elem_of_subscriptions.
  destruct (proj1 (Hreg a) Ha) as [->|Ha']; [|destruct (proj1 (Hreg b) Hb) as [->|Hb']].
  - right. right. split; [done|]. left. split; [done|]. by apply Hl.
  - right. right. split; [done|]. right. split; [done|]. by apply Hl.
  - destruct (Hp a b Ha' Hb' Hne); auto.
Qed.

Lemma patch_registered env st req t :
  registered (ad_db (update_token_symbol_handler hex_decode env st req).1) t ↔ registered (ad_db st) t.
Proof.
  unfold update_token_symbol_handler. destruct (parse_token _ _) as [[bytes ?]|]; [|done]. destruct (env_write env); [|done].
  unfold registered, update_token_symbol. simpl.
  destruct (bool_decide _); simpl; (destruct (decide (bytes = id_bytes t)) as [->|]; [by rewrite lookup_alter_eq, fmap_is_Some|by rewrite lookup_alter_ne]).
Qed.

Lemma delete_registered env st req t :
  registered (ad_db (remove_token hex_decode env st req).1) t → registered (ad_db st) t.
Proof.
  unfold remove_token. destruct (parse_token _ _) as [[bytes ?]|]; [|done]. destruct (env_write env); [|done].
  unfold registered, unregister_token. simpl. intros Hs.
  assert (is_Some (delete bytes (db_tokens (ad_db st)) !! id_bytes t)) as [r [_ ?]%lookup_delete_Some] by (by destruct (bool_decide _)).
  by eexists.
Qed.

Lemma patch_subscribed env st req : ad_subscribed (update_token_symbol_handler hex_decode env st req).1 = ad_subscribed st.
Proof.
  unfold update_token_symbol_handler. destruct (parse_token _ _) as [[bytes ?]|]; [|done]. destruct (env_write env); [|done]. simpl.
  by destruct (bool_decide _).
Qed.

Lemma delete_subscribed env st req : ad_subscribed (remove_token hex_decode env st req).1 = ad_subscribed st.
Proof.
  unfold remove_token. destruct (parse_token _ _) as [[bytes ?]|]; [|done]. destruct (env_write env); [|done]. simpl.
  by destruct (bool_decide _).
Qed.

Lemma patch_canonical env st req :
  tokens_canonical (ad_db st) → tokens_canonical (ad_db (update_token_symbol_handler hex_decode env st req).1).
Proof.
  intros Hc. unfold update_token_symbol_handler. destruct (parse_token _ _) as [[bytes ?]|]; [|done]. destruct (env_write env); [|done]. simpl.
  destruct (bool_decide _); by apply canonical_alter.
Qed.

Lemma delete_canonical env st req :
  tokens_canonical (ad_db st) → tokens_canonical (ad_db (remove_token hex_decode env st req).1).
Proof.
  intros Hc. unfold remove_token. destruct (parse_token _ _) as [[bytes ?]|]; [|done]. destruct (env_write env); [|done]. simpl.
  destruct (bool_decide _); intros k r Hk; simpl in Hk; apply lookup_delete_Some in Hk as [_ Hk]; by apply Hc.
Qed.

Lemma relay_act_inv n s a :
  id_roundtrip → healthy a → (re_taken s <= length (ad_subscribed (re_admin s)))%nat → subscribed_inv s →
  subscribed_inv (relay_act hex_decode hex_encode admin_token n s a) ∧
  (re_taken (relay_act hex_decode hex_encode admin_token n s a) <=
    length (ad_subscribed (re_admin (relay_act hex_decode hex_encode admin_token n s a))))%nat.
Proof.
  intros Hid Ha Hle Hinv. destruct s as [st taken tags]. simpl in Hle. pose proof (sb_tokens _ Hinv) as Hc. simpl in Hc.
  destruct a as [[bearer env now c|t dec tick]|env env' ok]; cbn [relay_act admin_act re_admin re_taken re_tags].
  - unfold admin_call. destruct admin_token as [expected|]; [|done]. destruct (require_bearer_token _ _); [|done]. cbn [negb].
    destruct c as [|req|req|req]; [done| | |].
    + destruct Ha. by apply add_subscribed.
    + rewrite patch_subscribed. split; [|done]. apply (subscribed_weaken st); [done|by apply patch_canonical|by intros ? ?%patch_registered|apply patch_subscribed].
    + rewrite delete_subscribed. split; [|done]. apply (subscribed_weaken st); [done|by apply delete_canonical|by intros ? ?%delete_registered|apply delete_subscribed].
  - split; [|done]. apply (subscribed_weaken st); [done|by apply canonical_alter| |done]. simpl. unfold registered. simpl. intros t'.
    destruct (decide (id_bytes t = id_bytes t')) as [->|]; [by rewrite lookup_alter_eq, fmap_is_Some|by rewrite lookup_alter_ne].
  - simpl in Ha. subst ok. unfold relay. cbn [re_admin re_taken re_tags].
    destruct (ad_subscribed st !! taken) as [[a b]|] eqn:El; [|done]. cbn [re_admin re_taken re_tags ad_subscribed].
    split; [|by apply lookup_lt_Some in El]. split; simpl.
    + by do 2 apply ensure_metadata_canonical.
    + intros x y Hx Hy Hne. rewrite !ensure_metadata_keys in Hx, Hy.
      destruct (sb_pairs _ Hinv x y Hx Hy Hne) as [?|Hq]; [left; simpl; set_solver|]. simpl in Hq. rewrite (drop_S _ _ _ El) in Hq.
      apply elem_of_cons in Hq as [[= -> ->]|?]; [left; set_solver|by right].
Qed.

Lemma relay_acts_inv n s acts :
  id_roundtrip → Forall healthy acts → (re_taken s <= length (ad_subscribed (re_admin s)))%nat → subscribed_inv s →
  subscribed_inv (foldl (relay_act hex_decode hex_encode admin_token n) s acts).
Proof.
  intros Hid Hall. revert s. induction Hall as [|a acts Ha Hall IH]; intros s Hle Hs; simpl; [done|].
  destruct (relay_act_inv n s a Hid Ha Hle Hs). by apply IH.
Qed.

Lemma boot_inv n env d now tokens s :
  id_roundtrip → tokens_canonical d → boot n env d now tokens = Some s →
  subscribed_inv s ∧ re_taken s = 0%nat.
Proof.
  intros Hid Hc Hb. unfold boot, prepare_db in Hb.
  pose proof (seed_canonical (reset_all_settling_to_active d).1 now tokens Hc) as Hc'.
  destruct (load_token_symbols n _) as [m|]; [|done]. cbn [mbind option_bind] in Hb. unfold subscribe_all_pairs in Hb. cbn [ad_db] in Hb.
  destruct (load_registered_spec n _ Hid Hc') as (l & Hl & Hnd & Hin). rewrite Hl in Hb. simpl in Hb.
  assert (∀ ps : list (TokenId * TokenId), forallb (λ _, true) ps = true) as Hall by (by induction ps).
  rewrite Hall in Hb. simpl in Hb. injection Hb as <-. split; [|done].
  split; simpl; [by apply (ensure_all_metadata env l _ 0%N)|].
  intros a b Ha Hbr Hne. left. apply elem_of_list_to_set, elem_of_all_pairs; [done|].
  split_and!; [by apply Hin, (ensure_all_metadata env l _ a Hc')|by apply Hin, (ensure_all_metadata env l _ b Hc')|done].
Qed.
End subscribed.

(** ** Theorems *)


(** ** Witness *)

Definition demo_metadata : MetadataEnv := mk_metadata true (Some (Some (6, "TOK"%string))) true.
Definition demo_boot : option RelayState := @boot demo_miden elements_iter 0 (λ _, demo_metadata) db_empty 5 [(7%N, None); (8%N, None)].
Definition demo_relay_acts : list RelayAct :=
  OnAdmin (Call (Some "key"%string) (mk_admin_env true true None) 6 (AddToken (mk_request "A" None))) ::
  replicate 4 (OnRelay demo_metadata demo_metadata true).

