(* ===== verification/Mirror.v ===== *)
(** * The mock mirror (crates/mock-mirror/src/mirror.rs)

    The market maker used against the solver on test networks: the favourable counter to a
    user order, the mirroring loop over the notes of a sync, and the submission with backoff
    and its guards against posting twice.  The client and the network are parameters. *)

From stdpp Require Import option.
From S2P Require Import Prelude.
From S2P Require Import Orders.
From S2P Require Import Types.

(** ** The counter-order *)

(** [(a as u128 * num as u128 / den as u128) as u64] *)
Definition mul_div (a num den : Z) : Z := wrap64 (a * num / den).

Definition favorable_counter (offered requested spread_bps fill_num fill_den : Z) : option (Z * Z) :=
  let counter_offered := mul_div requested fill_num fill_den in
  let scaled_a := mul_div offered fill_num fill_den in
  if (counter_offered =? 0) || (scaled_a =? 0) then None
  else
    let counter_requested := Z.min (mul_div scaled_a (10000 - spread_bps) 10000) (scaled_a ∸ 1) in
    if counter_requested =? 0 then None else Some (counter_offered, counter_requested).

(** ** Discovery *)

Section mirror.
Context `{!Miden}.

Record UserOrder := mk_user {
  uo_offered_faucet : TokenId;
  uo_offered_amount : Z;
  uo_requested_faucet : TokenId;
  uo_requested_amount : Z;
  uo_creator : N;
}.

Definition parse_pswap (note : Note) : option UserOrder :=
  if negb (has_pswap_script note) then None
  else
    pswap ← pswap_try_from note;
    let offered_amount := pswap_offered_amount pswap in
    let requested_amount := pswap_requested_amount pswap in
    if (offered_amount =? 0) || (requested_amount =? 0) then None
    else Some (mk_user (pswap_offered_token pswap) offered_amount (pswap_requested_token pswap) requested_amount
                 (pswap_creator pswap)).

(** [next_unit]: the generator's state; the comparison of its value with a probability is
    [coin] below. *)
Definition next_unit (state : Z) : Z := wrap64 (wrap64 (state * 6364136223846793005) + 1442695040888963407).

(** A counter the mirror submits. *)
Record Counter := mk_counter { ct_order : UserOrder; ct_offered : Z; ct_requested : Z }.

Record MirrorSettings := mk_mirror {
  mi_account : N;
  mi_solver : N;
  mi_spread_bps : Z;
  mi_max_mirrors : nat;
}.

(** What the client gives for a note id, whether the coin of a generator state is a partial
    fill, and whether building a counter note succeeds. *)
Context (get_note : OrderId → option Note) (coin : Z → bool) (builds : Counter → bool).

(** The loop of [tick] over the notes of a sync: the counters submitted, and [false] when an
    asset cannot be built, which ends the tick. *)
Fixpoint mirror_notes (cfg : MirrorSettings) (considered : nat) (rng : Z) (ids : list OrderId) : list Counter * Z * bool :=
  match ids with
  | [] => ([], rng, true)
  | id :: ids =>
    if (mi_max_mirrors cfg <=? considered)%nat then ([], rng, true)
    else
      match get_note id ≫= parse_pswap with
      | None => mirror_notes cfg considered rng ids
      | Some order =>
        if bool_decide (uo_creator order = mi_account cfg) || bool_decide (uo_creator order = mi_solver cfg)
        then mirror_notes cfg considered rng ids
        else
          let rng := next_unit rng in
          let '(fnum, fden) := if coin rng then (1, 2) else (1, 1) in
          match favorable_counter (uo_offered_amount order) (uo_requested_amount order) (mi_spread_bps cfg) fnum fden with
          | None => mirror_notes cfg considered rng ids
          | Some (counter_offered, counter_requested) =>
            if negb (fungible_asset_ok (uo_requested_faucet order) counter_offered &&
                     fungible_asset_ok (uo_offered_faucet order) counter_requested) then ([], rng, false)
            else
              let counter := mk_counter order counter_offered counter_requested in
              let '(rest, rng, ok) := mirror_notes cfg (S considered) rng ids in
              (if builds counter then counter :: rest else rest, rng, ok)
          end
      end
  end.
End mirror.

(** ** Submission *)

Definition MAX_SUBMIT_RETRIES : nat := 5.
Definition INITIAL_SUBMIT_BACKOFF : Z := 500.
Definition MAX_SUBMIT_BACKOFF : Z := 30000.

(** [is_transient]: an RPC or a proving error, as opposed to a deterministic one. *)
Inductive SubmitReply := SubmitOk | SubmitTransient | SubmitPermanent.

(** One attempt as the network sees it: whether the nonce can be read before it, the request
    builds, the transaction lands on chain, and the reply the client gets. *)
Record Attempt := mk_attempt { at_readable : bool; at_builds : bool; at_lands : bool; at_reply : SubmitReply }.

Record SubmitTrace := mk_trace { tr_ok : bool; tr_landed : nat; tr_submits : nat; tr_slept : list Z }.

(** [submit_with_backoff] from an attempt on, with [retries] more after it.  Landing advances
    the nonce by one; with [unique] the network rejects a transaction that already landed. *)
Fixpoint submit_attempts (unique : bool) (env : nat → Attempt) (before : option Z) (nonce : Z) (attempt retries : nat) (backoff : Z)
    (landed submits : nat) (slept : list Z) : SubmitTrace :=
  let e := env attempt in
  let landed_before := match before with
    | Some n => (0 <? attempt)%nat && at_readable e && negb (nonce =? n)
    | None => false
    end in
  if landed_before then mk_trace true landed submits slept
  else if negb (at_builds e) then mk_trace false landed submits slept
  else
    let lands := at_lands e && negb (unique && (0 <? landed)%nat) in
    let nonce := if lands then nonce + 1 else nonce in
    let landed := if lands then S landed else landed in
    match at_reply e with
    | SubmitOk => mk_trace true landed (S submits) slept
    | SubmitPermanent => mk_trace false landed (S submits) slept
    | SubmitTransient =>
      match retries with
      | O => mk_trace false landed (S submits) slept
      | S retries =>
        submit_attempts unique env before nonce (S attempt) retries (Z.min MAX_SUBMIT_BACKOFF (backoff * 2)) landed (S submits)
          (slept ++ [backoff])
      end
    end.

Definition submit_with_backoff (unique : bool) (env : nat → Attempt) (readable : bool) (nonce : Z) : SubmitTrace :=
  submit_attempts unique env (if readable then Some nonce else None) nonce 0 MAX_SUBMIT_RETRIES INITIAL_SUBMIT_BACKOFF 0 0 [].

(** ** Lemmas *)

Lemma mul_div_exact a num den : 0 <= a → 0 <= num → 0 < den → is_u64 (a * num / den) → mul_div a num den = a * num / den.
Proof. intros. by apply wrap64_small. Qed.

Lemma mul_div_le a num den : is_u64 a → 0 <= num <= den → 0 < den → mul_div a num den = a * num / den ∧ 0 <= a * num / den <= a.
Proof.
  intros Ha Hn Hd. assert (0 <= a * num / den <= a) as H.
  { destruct Ha. split; [apply Z.div_pos; [|lia]; by apply Z.mul_nonneg_nonneg; lia|].
    apply Z.div_le_upper_bound; [lia|]. rewrite (Z.mul_comm den). apply Z.mul_le_mono_nonneg_l; lia. }
  split; [|done]. apply wrap64_small. u64.
Qed.

(** What a counter is, in terms of the scaled amounts. *)
Lemma favorable_counter_spec o r s num den co cr :
  is_u64 o → is_u64 r → 0 <= s <= 10000 → 0 <= num <= den → 0 < den → favorable_counter o r s num den = Some (co, cr) →
  co = r * num / den ∧ 0 < co ∧ 0 < cr < o * num / den ∧ cr * 10000 <= o * num / den * (10000 - s).
Proof.
  intros Ho Hr Hs Hn Hd. unfold favorable_counter.
  destruct (mul_div_le r num den Hr Hn Hd) as [-> Hr1]. destruct (mul_div_le o num den Ho Hn Hd) as [-> Ho1].
  destruct (Z.eqb_spec (r * num / den) 0); [done|]. destruct (Z.eqb_spec (o * num / den) 0); [done|]. simpl.
  destruct (mul_div_le (o * num / den) (10000 - s) 10000) as [-> Hm]; [u64|lia|lia|].
  destruct (Z.eqb_spec (Z.min (o * num / den * (10000 - s) / 10000) (o * num / den ∸ 1)) 0); [done|]. intros [= <- <-].
  pose proof (Z.mul_div_le (o * num / den * (10000 - s)) 10000 ltac:(lia)). unfold sat_sub in *. lia.
Qed.

Section mirrored.
Context `{!Miden} (get_note : OrderId → option Note) (coin : Z → bool) (builds : Counter → bool).

(** A counter answers a parsed note of somebody else with the favourable amounts. *)
Definition answers (cfg : MirrorSettings) (id : OrderId) (c : Counter) : Prop :=
  ∃ note num den, get_note id = Some note ∧ parse_pswap note = Some (ct_order c) ∧
    uo_creator (ct_order c) ≠ mi_account cfg ∧ uo_creator (ct_order c) ≠ mi_solver cfg ∧
    ((num, den) = (1, 1) ∨ (num, den) = (1, 2)) ∧
    favorable_counter (uo_offered_amount (ct_order c)) (uo_requested_amount (ct_order c)) (mi_spread_bps cfg) num den =
      Some (ct_offered c, ct_requested c).

(** The counters answer notes of the sync, each at most once and in order. *)
Lemma mirror_notes_answers cfg considered rng ids :
  ∃ ids', ids' `sublist_of` ids ∧ Forall2 (answers cfg) ids' (mirror_notes get_note coin builds cfg considered rng ids).1.1.
Proof.
  revert considered rng. induction ids as [|id ids IH]; intros considered rng; cbn [mirror_notes]; [by exists []|].
  assert (∃ ids', ids' `sublist_of` id :: ids ∧ Forall2 (answers cfg) ids' []) as Hnone.
  { exists []. split; [apply sublist_nil_l|constructor]. }
  assert (∀ k g, ∃ ids', ids' `sublist_of` id :: ids ∧ Forall2 (answers cfg) ids' (mirror_notes get_note coin builds cfg k g ids).1.1) as Hskip.
  { intros k g. destruct (IH k g) as (ids' & Hs & H2). exists ids'. split; [by apply sublist_cons|done]. }
  destruct (_ <=? _)%nat; [done|].
  destruct (get_note id) as [note|] eqn:En; simpl; [|done]. destruct (parse_pswap note) as [order|] eqn:Eo; [|done].
  destruct (_ || _) eqn:Eown; [done|]. apply orb_false_iff in Eown as [H1%bool_decide_eq_false H2%bool_decide_eq_false].
  destruct (if coin (next_unit rng) then (1, 2) else (1, 1)) as [num den] eqn:Ef.
  destruct (favorable_counter _ _ _ num den) as [[co cr]|] eqn:Ec; [|done]. destruct (negb _); [done|].
  destruct (IH (S considered) (next_unit rng)) as (ids' & Hs & HF). specialize (Hskip (S considered) (next_unit rng)).
  destruct (mirror_notes get_note coin builds cfg (S considered) (next_unit rng) ids) as [[rest g] ok]. simpl in *.
  destruct (builds _); [|done]. exists (id :: ids'). split; [by apply sublist_skip|]. constructor; [|done].
  exists note, num, den. split_and!; try done. destruct (coin _); simplify_eq; auto.
Qed.

Lemma mirror_notes_cap cfg considered rng ids :
  (length (mirror_notes get_note coin builds cfg considered rng ids).1.1 <= mi_max_mirrors cfg - considered)%nat.
Proof.
  revert considered rng. induction ids as [|id ids IH]; intros considered rng; cbn [mirror_notes]; [simpl; lia|].
  destruct (Nat.leb_spec (mi_max_mirrors cfg) considered); [simpl; lia|].
  destruct (get_note id ≫= parse_pswap) as [order|]; [|apply IH]. destruct (_ || _); [apply IH|].
  destruct (if coin (next_unit rng) then (1, 2) else (1, 1)) as [num den].
  destruct (favorable_counter _ _ _ num den) as [[co cr]|]; [|apply IH]. destruct (negb _); [simpl; lia|].
  specialize (IH (S considered) (next_unit rng)).
  destruct (mirror_notes get_note coin builds cfg (S considered) (next_unit rng) ids) as [[rest g] ok]. simpl in *.
  destruct (builds _); simpl; lia.
Qed.
End mirrored.

(** The nonce tells how often the transaction landed. *)
Definition landed_inv (n0 nonce : Z) (attempt landed : nat) : Prop :=
  (landed = 0%nat ∧ nonce = n0) ∨ (landed = 1%nat ∧ nonce = n0 + 1 ∧ (0 < attempt)%nat).

Lemma submit_attempts_once unique env before n0 nonce attempt retries backoff landed submits slept :
  landed_inv n0 nonce attempt landed → (before = None ∨ before = Some n0) →
  (unique = true ∨ (before = Some n0 ∧ ∀ k, at_readable (env k) = true)) →
  (∀ k, at_reply (env k) = SubmitOk → at_lands (env k) = true) →
  let t := submit_attempts unique env before nonce attempt retries backoff landed submits slept in
  (tr_landed t <= 1)%nat ∧ (tr_ok t = true → tr_landed t = 1%nat) ∧ (tr_submits t <= submits + S retries)%nat.
Proof.
  intros Hinv Hbefore Hguard Hhonest. revert nonce attempt backoff landed submits slept Hinv.
  induction retries as [|retries IH]; intros nonce attempt backoff landed submits slept Hinv; cbn [submit_attempts];
    (destruct (match before with Some n => _ | None => false end) eqn:Eb;
      [simpl; destruct before as [n|]; [|done]; destruct Hbefore as [[=]|[= ->]];
       rewrite !andb_true_iff, negb_true_iff, Z.eqb_neq in Eb; destruct Hinv as [[_ ->]|(-> & _)]; [tauto|lia]|]);
    (destruct (at_builds (env attempt)); simpl; [|split_and!; [destruct Hinv as [[-> _]|[-> _]]; lia|done|lia]]);
    set (lands := at_lands (env attempt) && negb (unique && (0 <? landed)%nat));
    (assert (landed_inv n0 (if lands then nonce + 1 else nonce) (S attempt) (if lands then S landed else landed)) as Hinv';
     [unfold lands; destruct (at_lands (env attempt)); [|destruct Hinv as [?|(? & ? & ?)]; [by left|right; split_and!; try done; lia]];
      destruct Hinv as [[-> ->]|(-> & -> & Hat)]; [rewrite andb_false_r; right; split_and!; try done; lia|];
      destruct unique; [right; split_and!; try done; lia|];
      destruct Hguard as [[=]|[-> Hread]]; rewrite (proj2 (Nat.ltb_lt 0 attempt) Hat), Hread in Eb; simpl in Eb;
      rewrite negb_false_iff, Z.eqb_eq in Eb; lia|]);
    (assert (at_reply (env attempt) = SubmitOk → (if lands then S landed else landed) = 1%nat) as Hok;
     [intros Hr; specialize (Hhonest attempt Hr); unfold lands in *; rewrite Hhonest in *; simpl in *;
      destruct Hinv as [[-> ->]|(-> & -> & Hat)]; [by rewrite andb_false_r|];
      destruct Hinv' as [[H' _]|[H' _]]; [|done]; destruct (negb _) in H'; lia|]);
    (assert ((if lands then S landed else landed) <= 1)%nat as Hle by (destruct Hinv' as [[-> _]|[-> _]]; lia));
    destruct (at_reply (env attempt)); try (split_and!; simpl; [done|by auto|lia]); try (split_and!; simpl; [done|done|lia]).
  destruct (IH (if lands then nonce + 1 else nonce) (S attempt) (Z.min MAX_SUBMIT_BACKOFF (backoff * 2)) (if lands then S landed else landed)
    (S submits) (slept ++ [backoff]) Hinv') as (H1 & H2 & H3). split_and!; [done..|lia].
Qed.

(** ** Theorems *)

(** A full counter always clears the solver's gate: it offers exactly what the user requests,
    asks for less than the user offers by at least the spread, and the engine finds the two
    orders profitable together, in both directions. *)
Theorem full_counter_matches o r s co cr id id' a b :
  is_u64 o → is_u64 r → 1 <= s <= 9999 → favorable_counter o r s 1 1 = Some (co, cr) →
  co = r ∧ 0 < cr < o ∧ cr * 10000 <= o * (10000 - s) ∧
  is_profitable_with (mk_order id a b o r r) (mk_order id' b a co cr cr) = true ∧
  is_profitable_with (mk_order id' b a co cr cr) (mk_order id a b o r r) = true.
Proof.
  intros Ho Hr Hs Hc. apply favorable_counter_spec in Hc as (-> & Hco & Hcr & Hsp); [|done|done|lia..].
  rewrite !Z.mul_1_r, !Z.div_1_r in *. split; [done|]. split; [done|]. split; [done|].
  unfold is_profitable_with. simpl. split; apply Z.ltb_lt; nia.
Qed.

(** A half counter may not clear the gate: halving the requested amount rounds down, so for 1000
    of one token against 3 of another the counter offers 1 and asks for 498, a worse rate than
    the user's, and the engine finds the orders unprofitable. *)
Theorem half_counter_unmatchable :
  favorable_counter 1000 3 30 1 2 = Some (1, 498) ∧
  is_profitable_with (mk_order 1 1 2 1000 3 3) (mk_order 2 2 1 1 498 498) = false.
Proof. vm_compute. done. Qed.

(** A tick of the mirror answers at most the configured number of orders, never its own or the
    solver's, and every answer is a favourable counter of a user order among the new notes. *)
Theorem mirror_tick_sound `{!Miden} get_note coin builds cfg rng ids :
  (length (mirror_notes get_note coin builds cfg 0 rng ids).1.1 <= mi_max_mirrors cfg)%nat ∧
  ∃ ids', ids' `sublist_of` ids ∧ Forall2 (answers get_note cfg) ids' (mirror_notes get_note coin builds cfg 0 rng ids).1.1.
Proof.
  split; [|apply mirror_notes_answers].
  pose proof (mirror_notes_cap get_note coin builds cfg 0 rng ids). lia.
Qed.

(** A transaction is posted at most once.  If the network rejects duplicates, or the nonce can be
    read before and between the attempts, then whatever replies are lost the transaction
    lands at most once, a reported success means it landed, and there are at most six
    submissions. *)
Theorem submission_lands_once unique env readable nonce :
  unique = true ∨ (readable = true ∧ ∀ k, at_readable (env k) = true) →
  (∀ k, at_reply (env k) = SubmitOk → at_lands (env k) = true) →
  let t := submit_with_backoff unique env readable nonce in
  (tr_landed t <= 1)%nat ∧ (tr_ok t = true → tr_landed t = 1%nat) ∧ (tr_submits t <= 6)%nat.
Proof.
  intros Hg Hh. apply (submit_attempts_once unique env _ nonce); [by left|by destruct readable; auto| |done].
  destruct Hg as [?|[-> ?]]; auto.
Qed.

(** ** Witnesses *)

Lemma full_counter_matches_witness :
  is_profitable_with (mk_order 1 1 2 1000 318 318) (mk_order 2 2 1 318 997 997) = true.
Proof. apply (full_counter_matches 1000 318 30 318 997 1 2 1 2); [u64|u64|lia|reflexivity]. Defined.

(** The first attempt lands but its reply is lost. *)
Lemma submission_lands_once_witness :
  submit_with_backoff false (λ k, mk_attempt true true true SubmitTransient) true 7 = mk_trace true 1 1 [500] ∧
  (tr_landed (submit_with_backoff false (λ k, mk_attempt true true true SubmitTransient) true 7) <= 1)%nat.
Proof.
  split; [reflexivity|]. apply (submission_lands_once false (λ k, mk_attempt true true true SubmitTransient) true 7); [by right|done].
Defined.
