(* ===== verification/TxRequest.v ===== *)
(** * The settlement transaction (crates/consume-script/src/lib.rs, executor.rs [build_tx_request])

    The request built from a prepared batch: its notes, the recipients it must create and,
    when there is a surplus, the script argument and the advice data that describe the
    surplus assets.  Words are lists of four field elements; the words of an asset and the
    hash belong to the Miden libraries. *)

From stdpp Require Import option.
From S2P Require Import Prelude.
From S2P Require Import Types.
From S2P Require Import Executor.

(** ** Operations *)

Section request.
Context `{!Miden}.
Context (key_word value_word : TokenId * Z → list Z) (hash_elements : list Z → list Z).

Record ConsumeAssetData := mk_consume { commitment_arg : list Z; advice_map_entry : list Z * list Z }.

(** The advice data: the number of assets, then two words for each. *)
Definition advice_felts (assets : list (TokenId * Z)) : list Z :=
  Z.of_nat (length assets) :: concat ((λ a, key_word a ++ value_word a) <$> assets).

(** [ConsumeAssetScript::prepare]; [None] is the failed assertion. *)
Definition prepare (assets : list (TokenId * Z)) : option ConsumeAssetData :=
  match assets with
  | [] => None
  | _ =>
    let felts := advice_felts assets in
    let key := hash_elements felts in
    Some (mk_consume (reverse key) (key, felts))
  end.

Record TxRequest := mk_tx {
  tx_input_notes : list (Note * Z);
  tx_recipients : list Recipient;
  tx_script : option ConsumeAssetData;
}.

(** [build_tx_request], up to the builder's own checks. *)
Definition build_tx_request (c : BatchComponents) : option TxRequest :=
  match bc_surplus_assets c with
  | [] => Some (mk_tx (bc_input_notes c) (bc_output_recipients c) None)
  | _ => data ← prepare (bc_surplus_assets c); Some (mk_tx (bc_input_notes c) (bc_output_recipients c) (Some data))
  end.

(** How the script reads the data back: the count, then two words at a time. *)
Fixpoint read_words (k : nat) (l : list Z) : option (list (list Z * list Z)) :=
  match k with
  | O => match l with [] => Some [] | _ => None end
  | S k =>
    if (length l <? 8)%nat then None
    else rest ← read_words k (drop 8 l); Some ((take 4 l, take 4 (drop 4 l)) :: rest)
  end.

Definition read_advice (l : list Z) : option (list (list Z * list Z)) :=
  match l with
  | [] => None
  | n :: l => read_words (Z.to_nat n) l
  end.
End request.

(** ** Theorems *)

Section theorems.
Context (key_word value_word : TokenId * Z → list Z).

Lemma read_words_advice assets :
  (∀ a, length (key_word a) = 4%nat ∧ length (value_word a) = 4%nat) →
  read_words (length assets) (concat ((λ a, key_word a ++ value_word a) <$> assets)) =
  Some ((λ a, (key_word a, value_word a)) <$> assets).
Proof.
  intros Hw. induction assets as [|a assets IH]; [done|]. destruct (Hw a) as [Hk Hv].
  rewrite fmap_cons. cbn [length read_words concat].
  destruct (Nat.ltb_spec (length ((key_word a ++ value_word a) ++ concat ((λ a, key_word a ++ value_word a) <$> assets))) 8) as [Hlt|_].
  { rewrite !length_app in Hlt. lia. }
  rewrite (drop_app_length' (key_word a ++ value_word a) _ 8) by (rewrite length_app; lia). rewrite IH. simpl.
  rewrite <-!app_assoc, (take_app_length' (key_word a) _ 4), (drop_app_length' (key_word a) _ 4) by lia.
  by rewrite (take_app_length' (value_word a) _ 4) by lia.
Qed.

Lemma length_advice assets :
  (∀ a, length (key_word a) = 4%nat ∧ length (value_word a) = 4%nat) →
  length (advice_felts key_word value_word assets) = (1 + 8 * length assets)%nat.
Proof.
  intros Hw. unfold advice_felts. simpl. f_equal. induction assets as [|x l IH]; [done|]. destruct (Hw x).
  rewrite fmap_cons. cbn [concat]. rewrite !length_app, IH. simpl. lia.
Qed.
End theorems.


