(* ===== verification/Solver.v ===== *)
(** * The running solver (crates/solver/src/pipeline.rs, start.rs)

    Ingest, matcher and executor together: the database they share, the channels between
    them and the batch the executor is working on.  The tasks run on threads of their own,
    so a run is any interleaving of ingest iterations, ticks, the two halves of a batch
    (before and after the submission) and writes of the admin API, and the messages of the two
    senders of the order channel arrive in any order.  The capacity of the channels is added in
    Channels.v.

    The theorems are in SolverTheorems.v. *)

From stdpp Require Import option.
From S2P Require Import Prelude.
From S2P Require Import Orders.
From S2P Require Import OrderBook.
From S2P Require Import ThreeEdgeCycle.
From S2P Require Import Engine.
From S2P Require Import Select.
From S2P Require Import Types.
From S2P Require Import Db.
From S2P Require Import Ingest.
From S2P Require Import Matcher.
From S2P Require Import MatcherProofs.
From S2P Require Import Executor.

Section solver.
Context `{!Miden}.

(** ** State *)

(** [sv_running] is the batch being submitted with its decoded notes.  The last two fields
    are history: the ids the executor settled or found consumed, and the ids ingest
    reported as consumed. *)
Record Solver := mk_solver {
  sv_db : Db;
  sv_orders : list IngestOrder;
  sv_consumed : list OrderId;
  sv_matcher : MatcherState;
  sv_batches : list ExecutionBatch;
  sv_running : option (ExecutionBatch * list Note);
  sv_done : list OrderId;
  sv_reported : list OrderId;
}.

(** The solver after boot: the database is recovered and the book hydrated before ingest
    sends its first order. *)
Definition solver_boot `{HashIter} (n : N) (prices : gmap TokenId Z) (triangular : bool) (router : option Z)
    (unix : OrderId → Z) (d : Db) : Solver :=
  let d := (reset_all_settling_to_active d).1 in
  mk_solver d [] [] (matcher_start prices triangular router unix (load_active_orders_with_notes n d)) [] None [] [].

(** ** Steps *)

(** One iteration of ingest. *)
Definition ingest_act (env : IngestEnv) (s : Solver) : Solver :=
  let out := ingest_once env (sv_db s) in
  mk_solver (out_db out) (sv_orders s ++ out_orders out) (sv_consumed s ++ out_consumed out) (sv_matcher s)
    (sv_batches s) (sv_running s) (sv_done s) (sv_reported s ++ out_consumed out).

(** A tick that received [j] consumed ids and [k] orders and returned [out]. *)
Definition tick_act (j k : nat) (out : TickOutput) (s : Solver) : Solver :=
  mk_solver (sv_db s) (drop k (sv_orders s)) (drop j (sv_consumed s)) (to_state out)
    (sv_batches s ++ option_list (to_batch out)) (sv_running s) (sv_done s) (sv_reported s).

(** The keys of a batch in the database. *)
Definition batch_ids_bytes (batch : ExecutionBatch) : list Bytes := (λ f, id_bytes (fn_note_id f)) <$> filled_notes batch.

(** The executor takes the next batch: an empty one is skipped, one that cannot be prepared
    or marked is given up, any other one is marked settling and submitted. *)
Definition begin_act `{HashIter} (n : N) (solver_id : N) (settling_conn : bool) (s : Solver) : Solver :=
  match sv_running s, sv_batches s with
  | None, batch :: rest =>
    let next d running := mk_solver d (sv_orders s) (sv_consumed s) (sv_matcher s) rest running (sv_done s) (sv_reported s) in
    match filled_notes batch with
    | [] => next (sv_db s) None
    | _ =>
      match prepare_batch_components n batch solver_id with
      | inl _ => next (sv_db s) None
      | inr (_, notes) =>
        if settling_conn
        then next (update_orders_status (sv_db s) (batch_ids_bytes batch) Settling).1 (Some (batch, notes))
        else next (sv_db s) None
      end
    end
  | _, _ => s
  end.

(** The ids of a batch that need no further settlement after the submission. *)
Definition closed_ids (env : ExecEnv) (batch : ExecutionBatch) (notes : list Note) : list OrderId :=
  let ids := fn_note_id <$> filled_notes batch in
  match su_outcome (submit_with_rpc_backoff (ee_build_ok env) (ee_reply env) (ee_cancelled env)) with
  | Success => ids
  | TxError => match check_consumed_notes (ee_heights env) notes with
               | Some consumed => filter (λ i, i ∈ consumed) ids
               | None => []
               end
  | _ => []
  end.

(** The submission ended. *)
Definition finish_act (env : ExecEnv) (s : Solver) : Solver :=
  match sv_running s with
  | None => s
  | Some (batch, notes) =>
    let out := exec_finish env (sv_db s) batch notes in
    mk_solver (eo_db out) (sv_orders s ++ eo_refed out) (sv_consumed s) (sv_matcher s) (sv_batches s) None
      (sv_done s ++ closed_ids env batch notes) (sv_reported s)
  end.

Definition with_db (s : Solver) (d : Db) : Solver :=
  mk_solver d (sv_orders s) (sv_consumed s) (sv_matcher s) (sv_batches s) (sv_running s) (sv_done s) (sv_reported s).

(** The order channel has two senders, ingest and the executor, whose messages may alternate. *)
Definition with_orders (s : Solver) (os : list IngestOrder) : Solver :=
  mk_solver (sv_db s) os (sv_consumed s) (sv_matcher s) (sv_batches s) (sv_running s) (sv_done s) (sv_reported s).

(** What the environment guarantees: a sync lists a note once, the quotes of the router have
    non-negative amounts, the database holds fewer than 2^32 orders, and other writers
    leave orders and notes alone.  In an undisturbed step, besides, no channel is closed, the
    batch can be prepared and marked, the outcome can be written, the nullifiers can be
    queried, and the solver is not shutting down. *)
Inductive task_step (undisturbed : bool) : Solver → Solver → Prop :=
  | step_ingest env s :
      (∀ sync, ie_sync env = Some sync → NoDup (note_id <$> sr_new_notes sync)) →
      (undisturbed = true → ∀ i, ie_order_open env i = true) →
      task_step undisturbed s (ingest_act env s)
  | step_begin (HI : HashIter) n solver_id conn s :
      (undisturbed = true → conn = true ∧ ∀ batch rest, sv_batches s = batch :: rest →
        ∃ c, prepare_batch_components n batch solver_id = inr c) →
      task_step undisturbed s (begin_act n solver_id conn s)
  | step_finish env s :
      (undisturbed = true → ee_final_conn env = true ∧ (∀ i, ee_order_open env i = true) ∧
        su_outcome (submit_with_rpc_backoff (ee_build_ok env) (ee_reply env) (ee_cancelled env)) ≠ Cancelled ∧
        ∀ notes, is_Some (check_consumed_notes (ee_heights env) notes)) →
      task_step undisturbed s (finish_act env s)
  | step_tokens d s :
      db_orders d = db_orders (sv_db s) → db_notes d = db_notes (sv_db s) → task_step undisturbed s (with_db s d)
  | step_interleave os s : os ≡ₚ sv_orders s → task_step undisturbed s (with_orders s os).

(** The tasks beside the matcher, and its ticks. *)
Inductive solver_step (undisturbed : bool) : Solver → Solver → Prop :=
  | step_task s s' : task_step undisturbed s s' → solver_step undisturbed s s'
  | step_tick (HI : HashIter) (CH : CycleHeap) fuel i j k out s :
      ti_consumed i = take j (sv_consumed s) → ti_orders i = take k (sv_orders s) → ti_exec_open i = true →
      quotes_wf (ti_quotes i) → Z.of_nat (size (db_orders (sv_db s))) < two32 →
      tick fuel (sv_matcher s) i = Some out →
      solver_step undisturbed s (tick_act j k out s).

(** ** Where an order can be *)

Definition ids_of (batch : ExecutionBatch) : list OrderId := fn_note_id <$> filled_notes batch.

(** The ids in the hands of the executor. *)
Definition in_flight (s : Solver) : list OrderId :=
  mjoin (ids_of <$> sv_batches s) ++ match sv_running s with Some (batch, _) => ids_of batch | None => [] end.

Definition book_ids (m : MatcherState) : list OrderId := elements (dom (orders (book (ms_engine m)))).

(** Waiting for the matcher, in the book, with the executor, or done. *)
Definition places (s : Solver) : list OrderId :=
  (io_note_id <$> sv_orders s) ++ book_ids (sv_matcher s) ++ in_flight s ++ sv_done s.
End solver.
