(* ===== verification/SolverProofs.v ===== *)
(** * The solver as a whole: invariants

    What each task does to the places an order can be in, the invariant that they are
    disjoint, the accounting of undisturbed runs, the agreement of bytes and terms, and boot. *)

From stdpp Require Import option.
From S2P Require Import Prelude.
From S2P Require Import Orders.
From S2P Require Import PriceFeed.
From S2P Require Import OrderBook.
From S2P Require Import BookInvariant.
From S2P Require Import Fills.
From S2P Require Import ThreeEdgeCycle.
From S2P Require Import Engine.
From S2P Require Import Select.
From S2P Require Import Types.
From S2P Require Import Db.
From S2P Require Import Ingest.
From S2P Require Import Matcher.
From S2P Require Import MatcherProofs.
From S2P Require Import MatcherTheorems.
From S2P Require Import Executor.
From S2P Require Import ExecutorTheorems.
From S2P Require Import Solver.

(** ** The matcher's part *)

Section matcher_part.

Lemma take_order_dom unix t o :
  dom (orders (tk_book (take_order unix t o))) = {[io_note_id o]} ∪ dom (orders (tk_book t)).
Proof.
  simpl. destruct (add_user_order_fields (tk_book t) (io_note_id o) (io_offered_token o) (io_requested_token o)
    (io_offered_amount o) (io_requested_amount o)) as (-> & _).
  destruct (bool_decide (is_Some (orders (tk_book t) !! io_note_id o))) eqn:E; simpl; [|by rewrite dom_insert_L].
  apply bool_decide_eq_true, elem_of_dom in E. destruct (negb _); [set_solver|by rewrite dom_insert_L].
Qed.

Lemma take_all_dom unix t os :
  dom (orders (tk_book (foldl (take_order unix) t os))) = dom (orders (tk_book t)) ∪ list_to_set (io_note_id <$> os).
Proof.
  revert t. induction os as [|o os IH]; intros t; cbn [foldl fmap list_fmap list_to_set]; [set_solver|].
  rewrite IH, take_order_dom. set_solver.
Qed.

(** Hydration fills the book like the channel does. *)
Lemma hydrate_all_dom unix t os :
  dom (orders (tk_book (foldl (hydrate_order unix) t os))) = dom (orders (tk_book t)) ∪ list_to_set (io_note_id <$> os).
Proof.
  revert t. induction os as [|o os IH]; intros t; cbn [foldl fmap list_fmap list_to_set]; [set_solver|].
  rewrite IH. change (tk_book (hydrate_order unix t o)) with (tk_book (take_order unix t o)). rewrite take_order_dom. set_solver.
Qed.

Lemma entering_dom s i :
  dom (orders (tk_book (entering s i))) =
  (dom (orders (book (ms_engine s))) ∖ list_to_set (ti_consumed i)) ∪ list_to_set (io_note_id <$> ti_orders i).
Proof.
  assert (dom (orders (tk_book (drain i (tracked_of s)))) =
    (dom (orders (book (ms_engine s))) ∖ list_to_set (ti_consumed i)) ∪ list_to_set (io_note_id <$> ti_orders i)) as Hd.
  { unfold drain. rewrite take_all_dom. f_equal. apply set_eq. intros id.
    rewrite elem_of_difference, !elem_of_dom, drop_all_orders, elem_of_list_to_set. simpl.
    case_decide; split; [by intros [? ?]|tauto|done|tauto]. }
  unfold entering. destruct (ms_router s) as [ttl|]; [|done]. simpl. rewrite <-Hd.
  destruct (reactivate_loop_fields ttl (tick_now s i) (park_queue (tk_book (drain i (tracked_of s)))) (tk_book (drain i (tracked_of s))))
    as (E & _). unfold reactivate_parked_older_than. by rewrite E.
Qed.

(** A tick keeps every order of the book, in the book or in the batch. *)
Lemma tick_keeps `{HI : HashIter} `{CH : CycleHeap} fuel s i out :
  matcher_run s → input_ok s i → tick fuel s i = Some out → to_stopped out = false →
  book_ids (to_state out) ++ batch_ids out ≡ₚ elements (dom (orders (tk_book (entering s i)))).
Proof.
  intros Hs%matcher_run_inv Hin Ht Hns. destruct (tick_result fuel s i out Hs Hin Ht) as [_ Hgo].
  destruct (Hgo Hns) as [_ _ Hbatch Hord _ _ _ _ _].
  assert (NoDup (batch_ids out) ∧ ∀ id, id ∈ batch_ids out → is_Some (orders (tk_book (entering s i)) !! id)) as [Hnd Hsub].
  { unfold batch_ids. destruct (to_batch out) as [eb|]; [|split; [constructor|by intros ? ?%elem_of_nil]].
    destruct (Hbatch eb eq_refl) as [[_ Hnd Hn] _]. split; [done|].
    intros id (f & -> & Hf)%list_elem_of_fmap. destruct (Hn f Hf) as (o & (Ho & _) & _). by rewrite Ho. }
  apply NoDup_Permutation; [|apply NoDup_elements|].
  - unfold book_ids. apply NoDup_app. split_and!; [apply NoDup_elements| |done]. intros id Hid Hb.
    apply elem_of_elements, elem_of_dom in Hid as [o Ho]. rewrite Hord, decide_True in Ho by done. done.
  - intros id. unfold book_ids. rewrite elem_of_app, !elem_of_elements, !elem_of_dom, Hord.
    case_decide as Hb; [|naive_solver]. split; [intros _; by apply Hsub|by right].
Qed.

(** The bytes of the orders. *)
Lemma entering_raw (P : OrderId → Bytes → Prop) s i :
  map_Forall P (ms_raw_notes s) → Forall (λ o, P (io_note_id o) (io_raw o)) (ti_orders i) → map_Forall P (tk_raw (entering s i)).
Proof.
  intros Hs Hos. assert (map_Forall P (tk_raw (drain i (tracked_of s)))) as Hd; [|unfold entering; by destruct (ms_router s)].
  unfold drain. assert (map_Forall P (tk_raw (foldl drop_consumed (tracked_of s) (ti_consumed i)))) as H0.
  { intros id raw Hraw. eapply Hs, lookup_weaken; [exact Hraw|apply (drop_all_raw (tracked_of s))]. }
  revert H0. generalize (foldl drop_consumed (tracked_of s) (ti_consumed i)).
  induction Hos as [|o os Ho _ IH]; intros t Ht; cbn [foldl]; [done|]. apply IH. simpl. by apply map_Forall_insert_2.
Qed.

Lemma tick_raw `{HI : HashIter} `{CH : CycleHeap} fuel s i out :
  tick fuel s i = Some out → ms_raw_notes (to_state out) ⊆ tk_raw (entering s i).
Proof.
  rewrite tick_unfold. unfold internal_match. case_decide.
  { destruct (match ms_router s with Some _ => _ | None => _ end) as [[b r] c]. by intros [= <-]. }
  destruct (run _ _) as [[e batch]|]; [|done]. cbn [mbind option_bind]. case_decide.
  { destruct (match ms_router s with Some _ => _ | None => _ end) as [[b r] c]. by intros [= <-]. }
  destruct (ti_exec_open i); [|by intros [= <-]].
  destruct (match ms_router s with Some _ => _ | None => _ end) as [[b r] c]. intros [= <-]. cbn [to_state ms_raw_notes tk_raw].
  apply (drop_all_raw (mk_tracked (book e) (tk_raw (entering s i)) (tk_arrivals (entering s i)))).
Qed.
End matcher_part.

(** ** The executor's part *)

Section executor_part.
Context `{!Miden}.

(** The bytes of a note that parses. *)
Definition readable (raw : Bytes) : Prop := ∃ note o, note_read raw = Some note ∧ from_note note = Some o.

Definition notes_read (batch : ExecutionBatch) (notes : list Note) : Prop :=
  Forall2 (λ f note, note_read (fn_raw f) = Some note) (filled_notes batch) notes.

Lemma prepare_all_read solver acc fs p :
  prepare_all solver acc fs = inr p →
  ∃ read, pp_notes p = pp_notes acc ++ read ∧ Forall2 (λ f note, note_read (fn_raw f) = Some note) fs read.
Proof.
  revert acc. induction fs as [|f fs IH]; intros acc; cbn [prepare_all]; [intros [= ->]; exists []; by rewrite app_nil_r|].
  destruct (prepare_filled solver acc f) as [e|acc'] eqn:E; [done|]. intros (read & Hp & Hr)%IH.
  unfold prepare_filled in E. destruct (note_read (fn_raw f)) as [note|] eqn:En; [|done]. exists (note :: read).
  split; [|by constructor]. rewrite Hp. change (note :: read) with ([note] ++ read). rewrite app_assoc. f_equal.
  destruct (pswap_try_from note); [|done]. do 2 (destruct (negb _); [done|]).
  destruct (pswap_execute _ _ _ _) as [[? []]|]; [..|done]; by injection E as <-.
Qed.

Lemma prepare_read `{HashIter} n batch solver c notes :
  prepare_batch_components n batch solver = inr (c, notes) → notes_read batch notes.
Proof.
  unfold prepare_batch_components. destruct (prepare_all _ _ _) as [e|p] eqn:E; [done|].
  destruct (surplus_assets _ _); [done|]. intros [= _ <-].
  apply prepare_all_read in E as (read & Hp & Hr). simpl in Hp. unfold notes_read. by rewrite Hp.
Qed.

Lemma rebuild_id f note o : rebuild_ingest_order f note = Some o → io_note_id o = fn_note_id f ∧ io_raw o = fn_raw f.
Proof. unfold rebuild_ingest_order. destruct (from_note note); [|done]. by intros [= <-]. Qed.

Lemma rebuild_ok f note o : pswap_amounts_u64 → rebuild_ingest_order f note = Some o → ingest_ok o.
Proof.
  intros Hu. unfold rebuild_ingest_order. destruct (from_note note) as [po|] eqn:E; [|done]. intros [= <-].
  by apply (from_note_amounts note).
Qed.

Lemma rebuild_readable f note :
  note_read (fn_raw f) = Some note → readable (fn_raw f) → ∃ o, rebuild_ingest_order f note = Some o.
Proof.
  intros Hn (note' & po & Hn' & Hpo). rewrite Hn in Hn'. injection Hn' as <-. unfold rebuild_ingest_order. rewrite Hpo. by eexists.
Qed.

Lemma refeed_sublist is_open i orders : refeed_orders is_open i orders `sublist_of` orders.
Proof.
  revert i. induction orders as [|o orders IH]; intros i; cbn [refeed_orders]; [done|].
  destruct (is_open i); [by apply sublist_skip|apply sublist_nil_l].
Qed.

(** The orders rebuilt from a list of pairs. *)
Lemma rebuild_list l os :
  collect_ok (λ p : FilledNote * Note, rebuild_ingest_order p.1 p.2) l = Some os →
  Forall2 (λ p o, rebuild_ingest_order p.1 p.2 = Some o) l os.
Proof.
  revert os. induction l as [|p l IH]; intros os; cbn [collect_ok]; [by intros [= <-]|].
  destruct (rebuild_ingest_order _ _) as [o|] eqn:E; [|done]. cbn [mbind option_bind].
  destruct (collect_ok _ l) as [os'|]; [|done]. intros [= <-]. constructor; [done|]. by apply IH.
Qed.

Lemma classify_list consumed l c a os :
  classify consumed l = Some (c, a, os) →
  Forall2 (λ p o, rebuild_ingest_order p.1 p.2 = Some o) (filter (λ p, fn_note_id p.1 ∉ consumed) l) os.
Proof.
  revert c a os. induction l as [|[f note] l IH]; intros c a os; cbn [classify]; [by intros [= _ _ <-]|].
  rewrite filter_cons. simpl. destruct (decide (fn_note_id f ∈ consumed)) as [Hin|Hin].
  - rewrite (decide_False (P := _ ∉ _)) by tauto. destruct (classify consumed l) as [[[c' a'] os']|]; [|done].
    intros [= _ _ <-]. by eapply IH.
  - rewrite (decide_True (P := _ ∉ _)) by done. destruct (rebuild_ingest_order f note) as [o|] eqn:E; [|done]. simpl.
    destruct (classify consumed l) as [[[c' a'] os']|]; [|done]. intros [= _ _ <-]. constructor; [done|]. by eapply IH.
Qed.

Lemma rebuilt_ids l os :
  Forall2 (λ (p : FilledNote * Note) o, rebuild_ingest_order p.1 p.2 = Some o) l os →
  io_note_id <$> os = fn_note_id <$> l.*1.
Proof. induction 1 as [|p o l os Hp _ IH]; [done|]. apply rebuild_id in Hp as [Hp _]. cbn [fmap list_fmap]. by rewrite Hp, IH. Qed.

(** What a finished submission hands back comes from its notes. *)
Lemma finish_source env d batch notes o :
  o ∈ eo_refed (exec_finish env d batch notes) →
  ∃ f note, (f, note) ∈ zip (filled_notes batch) notes ∧ rebuild_ingest_order f note = Some o.
Proof.
  assert (∀ l os, (∀ p, p ∈ l → p ∈ zip (filled_notes batch) notes) →
    Forall2 (λ p o, rebuild_ingest_order p.1 p.2 = Some o) l os → o ∈ os →
    ∃ f note, (f, note) ∈ zip (filled_notes batch) notes ∧ rebuild_ingest_order f note = Some o) as Hgo.
  { intros l os Hsub H2 (k & Hk)%list_elem_of_lookup. destruct (Forall2_lookup_r _ _ _ _ _ H2 Hk) as ([f note] & Hp & Hr).
    apply list_elem_of_lookup_2, Hsub in Hp. eauto. }
  assert (∀ out', o ∈ eo_refed (revert_and_refeed env d (batch_ids_bytes batch) batch notes out') →
    ∃ f note, (f, note) ∈ zip (filled_notes batch) notes ∧ rebuild_ingest_order f note = Some o) as Hrev.
  { intros out'. unfold revert_and_refeed, rebuild_all_orders. cbn [eo_refed]. destruct (collect_ok _ _) as [os|] eqn:E; [|by intros ?%elem_of_nil].
    intros Ho. apply (Hgo (zip (filled_notes batch) notes) os); [done|by apply rebuild_list|].
    by eapply elem_of_sublist, refeed_sublist. }
  unfold exec_finish. destruct (su_outcome _); [destruct (ee_final_conn env); by intros ?%elem_of_nil|apply Hrev| |apply Hrev|by intros ?%elem_of_nil].
  unfold classify_and_refeed, classify_input_notes. destruct (check_consumed_notes _ _) as [consumed|]; [|by intros ?%elem_of_nil].
  cbn [mbind option_bind]. destruct (classify _ _) as [[[c a] os]|] eqn:E; [|by intros ?%elem_of_nil].
  destruct (ee_final_conn env); [|by intros ?%elem_of_nil]. cbn [eo_refed]. intros Ho.
  apply (Hgo (filter (λ p, fn_note_id p.1 ∉ consumed) (zip (filled_notes batch) notes)) os);
    [by intros p [_ ?]%list_elem_of_filter|by eapply classify_list|].
  by eapply elem_of_sublist, refeed_sublist.
Qed.

(** Filtering by id commutes with projecting the ids. *)
Lemma filter_ids (consumed : gset OrderId) (l : list (FilledNote * Note)) :
  fn_note_id <$> (filter (λ p, fn_note_id p.1 ∉ consumed) l).*1 = filter (λ i, i ∉ consumed) (fn_note_id <$> l.*1).
Proof. induction l as [|p l IH]; [done|]. cbn [fmap list_fmap]. rewrite !filter_cons. case_decide; cbn [fmap list_fmap]; by rewrite IH. Qed.

Lemma filter_split (consumed : gset OrderId) (ids : list OrderId) :
  filter (λ i, i ∉ consumed) ids ++ filter (λ i, i ∈ consumed) ids ≡ₚ ids.
Proof.
  induction ids as [|i ids IH]; [done|]. rewrite !filter_cons. destruct (decide (i ∈ consumed)) as [Hi|Hi].
  - rewrite (decide_False (P := _ ∉ _)) by tauto. by rewrite <-Permutation_middle, IH.
  - rewrite (decide_True (P := _ ∉ _)) by done. simpl. by rewrite IH.
Qed.

(** Every id of the batch is handed back or closed at most once. *)
Lemma finish_ids env d batch notes :
  (io_note_id <$> eo_refed (exec_finish env d batch notes)) ++ closed_ids env batch notes ⊆+ ids_of batch.
Proof.
  assert (∀ out', (io_note_id <$> eo_refed (revert_and_refeed env d (batch_ids_bytes batch) batch notes out')) ++ [] ⊆+ ids_of batch) as Hrev.
  { intros out'. unfold revert_and_refeed, rebuild_all_orders. cbn [eo_refed]. rewrite app_nil_r.
    destruct (collect_ok _ _) as [os|] eqn:E; [|apply submseteq_nil_l]. apply sublist_submseteq.
    etrans; [apply fmap_sublist, refeed_sublist|]. rewrite (rebuilt_ids _ _ (rebuild_list _ _ E)). apply fmap_sublist, zip_fst_sublist. }
  unfold exec_finish, closed_ids. destruct (su_outcome _); [by destruct (ee_final_conn env)|apply Hrev| |apply Hrev|apply submseteq_nil_l].
  unfold classify_and_refeed, classify_input_notes. destruct (check_consumed_notes _ _) as [consumed|]; [|apply submseteq_nil_l].
  cbn [mbind option_bind]. rewrite <-(filter_split consumed (ids_of batch)). apply submseteq_app; [|done].
  destruct (classify _ _) as [[[c a] os]|] eqn:E; [|apply submseteq_nil_l]. destruct (ee_final_conn env); [|apply submseteq_nil_l].
  cbn [eo_refed]. apply sublist_submseteq. etrans; [apply fmap_sublist, refeed_sublist|].
  rewrite (rebuilt_ids _ _ (classify_list _ _ _ _ _ E)), filter_ids. apply filter_sublist_mono, fmap_sublist, zip_fst_sublist.
Qed.

Lemma collect_readable l :
  Forall (λ p : FilledNote * Note, note_read (fn_raw p.1) = Some p.2 ∧ readable (fn_raw p.1)) l →
  is_Some (collect_ok (λ p, rebuild_ingest_order p.1 p.2) l).
Proof.
  induction 1 as [|p l [Hn Hr] _ IH]; cbn [collect_ok]; [by eexists|]. destruct (rebuild_readable _ _ Hn Hr) as [o ->].
  destruct IH as [os ->]. by eexists.
Qed.

Lemma classify_readable consumed l :
  Forall (λ p : FilledNote * Note, note_read (fn_raw p.1) = Some p.2 ∧ readable (fn_raw p.1)) l → is_Some (classify consumed l).
Proof.
  induction 1 as [|[f note] l [Hn Hr] _ IH]; cbn [classify]; [by eexists|]. destruct (rebuild_readable _ _ Hn Hr) as [o Ho].
  simpl in Ho. rewrite Ho. destruct IH as [x ->]. case_decide; by eexists.
Qed.

(** Undisturbed, every id is handed back or closed. *)
Lemma finish_keeps env d batch notes :
  notes_read batch notes → Forall (λ f, readable (fn_raw f)) (filled_notes batch) →
  ee_final_conn env = true → (∀ i, ee_order_open env i = true) →
  su_outcome (submit_with_rpc_backoff (ee_build_ok env) (ee_reply env) (ee_cancelled env)) ≠ Cancelled →
  is_Some (check_consumed_notes (ee_heights env) notes) →
  (io_note_id <$> eo_refed (exec_finish env d batch notes)) ++ closed_ids env batch notes ≡ₚ ids_of batch.
Proof.
  intros Hread Hraw Hconn Hopen Hcan [consumed Hc].
  assert (Forall (λ p : FilledNote * Note, note_read (fn_raw p.1) = Some p.2 ∧ readable (fn_raw p.1)) (zip (filled_notes batch) notes)) as Hzip.
  { unfold notes_read in Hread. clear -Hread Hraw. induction Hread; [constructor|]. apply Forall_cons in Hraw as [? ?]. constructor; [done|auto]. }
  assert ((zip (filled_notes batch) notes).*1 = filled_notes batch) as Hfst.
  { apply fst_zip. unfold notes_read in Hread. apply Forall2_length in Hread. lia. }
  assert (∀ out', (io_note_id <$> eo_refed (revert_and_refeed env d (batch_ids_bytes batch) batch notes out')) ++ [] ≡ₚ ids_of batch) as Hrev.
  { intros out'. unfold revert_and_refeed, rebuild_all_orders. cbn [eo_refed]. rewrite app_nil_r.
    destruct (collect_readable _ Hzip) as [os E]. rewrite E, refeed_open by done.
    rewrite (rebuilt_ids _ _ (rebuild_list _ _ E)). by rewrite Hfst. }
  unfold exec_finish, closed_ids. destruct (su_outcome _); [by rewrite Hconn|apply Hrev| |apply Hrev|done].
  unfold classify_and_refeed, classify_input_notes. rewrite Hc. cbn [mbind option_bind].
  destruct (classify_readable consumed _ Hzip) as [[[c a] os] E]. rewrite E, Hconn. cbn [eo_refed]. rewrite refeed_open by done.
  rewrite (rebuilt_ids _ _ (classify_list _ _ _ _ _ E)), filter_ids, Hfst. apply filter_split.
Qed.

(** The executor writes statuses only. *)
Lemma statuses_relabel d ids s : relabelled d (update_orders_status d ids s).1.
Proof. apply update_where_relabel. Qed.

Lemma nullified_relabel d ids : relabelled d (mark_orders_onchain_nullified d ids).1.
Proof. apply update_where_relabel. Qed.

Lemma finish_relabel env d batch notes : relabelled d (eo_db (exec_finish env d batch notes)).
Proof.
  assert (∀ out', relabelled d (eo_db (revert_and_refeed env d (batch_ids_bytes batch) batch notes out'))) as Hrev.
  { intros out'. unfold revert_and_refeed, revert_to_active. cbn [eo_db]. destruct (ee_final_conn env); [apply statuses_relabel|done]. }
  unfold exec_finish. destruct (su_outcome _); [destruct (ee_final_conn env); [apply statuses_relabel|done]|apply Hrev| |apply Hrev|done].
  unfold classify_and_refeed. destruct (classify_input_notes _ _ _) as [[[c a] os]|]; [|done]. destruct (ee_final_conn env); [|done].
  cbn [eo_db]. set (d1 := match c with [] => d | _ => _ end).
  trans d1; [unfold d1; destruct c; [done|apply nullified_relabel]|]. destruct a; [done|apply statuses_relabel].
Qed.
End executor_part.

(** ** Ingest's part *)

Section ingest_part.
Context `{!Miden}.

Lemma forwarded_ok env d o :
  pswap_amounts_u64 → note_roundtrip → o ∈ out_orders (ingest_once env d) → ingest_ok o ∧ readable (io_raw o).
Proof.
  intros Hu Hn Ho. destruct (ie_sync env) as [sync|] eqn:Es.
  2: { unfold ingest_once in Ho. rewrite Es in Ho. by apply elem_of_nil in Ho. }
  destruct (forwarded_inv env sync d o Es Ho) as (_ & _ & _ & _ & Hp & _).
  apply list_elem_of_fmap in Hp as (x & -> & Hx). apply elem_of_prepare_notes in Hx as (i & note & _ & Hx).
  unfold prepare_note in Hx. destruct (negb _); [done|]. destruct (from_note note) as [po|] eqn:Ef; [|done].
  injection Hx as <-. split; [by apply (from_note_amounts note)|]. exists note, po. split; [apply Hn|done].
Qed.

Lemma steps_keep d d' k : rtc db_step d d' → is_Some (db_orders d !! k) → is_Some (db_orders d' !! k).
Proof.
  induction 1 as [|d1 d2 d3 H12 _ IH]; [done|]. intros [r Hr]. apply IH.
  destruct (db_step_ok _ _ H12) as [[Hk _] _]. by apply Hk in Hr as (r' & -> & _).
Qed.

(** With the channel open, every row an iteration adds is forwarded. *)
Lemma ingest_keeps env d k :
  (∀ i, ie_order_open env i = true) → is_Some (db_orders (out_db (ingest_once env d)) !! k) →
  is_Some (db_orders d !! k) ∨ ∃ o, o ∈ out_orders (ingest_once env d) ∧ k = id_bytes (io_note_id o).
Proof.
  intros Hopen. unfold ingest_once. destruct (ie_sync env) as [sync|]; [|by left].
  destruct (handle_consumed env d (sr_consumed_notes sync)) as [[d1 sent]|] eqn:Hc; [|by left].
  apply handle_consumed_steps in Hc as (_ & Hk1 & _). rewrite <-!not_eq_None_Some. specialize (Hk1 k).
  destruct (prepare_notes (ie_now env) (sr_new_notes sync)) as [|x0 xs0] eqn:Hp; [simpl; tauto|].
  rewrite <-Hp. clear Hp x0 xs0. set (prepared := prepare_notes (ie_now env) (sr_new_notes sync)).
  destruct (ie_insert_conn env); [|simpl; tauto].
  pose proof (inserted_keys d1 prepared (sr_block_num sync) (prepared_status _ _)) as Hin.
  pose proof (insert_orders_from prepared.*1.*2 (db_orders d1) ∅) as [Ho Hi].
  unfold insert_notes_batch, insert_orders in *. destruct (foldl insert_order _ _) as [orders ins]. cbn [fst snd] in *.
  rewrite forward_orders_open by done. cbn [out_db out_orders db_orders]. rewrite Ho.
  destruct (db_orders d1 !! k) eqn:Hd1; [left; naive_solver|]. intros Hf. right.
  assert (k ∈ ins) as Hk by (apply Hi; right; split; [done|by apply not_eq_None_Some]).
  pose proof Hk as [_ (r & -> & (y & -> & (x & -> & Hx)%list_elem_of_fmap)%list_elem_of_fmap)%list_elem_of_fmap]%Hin.
  exists x.2. rewrite <-(prepared_key _ _ _ Hx). split; [|done]. apply list_elem_of_filter.
  split; [by rewrite <-(prepared_key _ _ _ Hx)|by apply list_elem_of_fmap_2].
Qed.
End ingest_part.

(** ** At most one place *)

Section places.
Context `{!Miden}.

Record solver_inv (s : Solver) : Prop := {
  si_matcher : matcher_run (sv_matcher s);
  si_orders : Forall ingest_ok (sv_orders s);
  si_places : NoDup (places s);
  si_stored : ∀ id, id ∈ places s → is_Some (db_orders (sv_db s) !! id_bytes id);
}.

(** Distinct stored ids are not more than the rows. *)
Lemma stored_length d ids :
  id_roundtrip → NoDup ids → (∀ id, id ∈ ids → is_Some (db_orders d !! id_bytes id)) →
  (length ids <= size (db_orders d))%nat.
Proof.
  intros Hid Hnd Hs. rewrite <-(length_fmap id_bytes ids), <-size_dom.
  assert (length (id_bytes <$> ids) <= length (elements (dom (db_orders d))))%nat as Hl; [|done].
  apply submseteq_length, NoDup_submseteq.
  - apply NoDup_fmap_2_strong; [|done]. intros x y _ _ Hxy. pose proof (Hid x) as Hx. rewrite Hxy, Hid in Hx. congruence.
  - intros k (id & -> & Hin)%list_elem_of_fmap. apply elem_of_elements, elem_of_dom. auto.
Qed.

Lemma tick_input s i k :
  id_roundtrip → solver_inv s → ti_orders i = take k (sv_orders s) → quotes_wf (ti_quotes i) →
  Z.of_nat (size (db_orders (sv_db s))) < two32 → input_ok (sv_matcher s) i.
Proof.
  intros Hid [_ Hok Hnd Hst] Ho Hq Hsz. split; [rewrite Ho; by apply Forall_take| |done].
  unfold room. rewrite Ho. simpl. assert (length ((io_note_id <$> sv_orders s) ++ book_ids (sv_matcher s)) <= size (db_orders (sv_db s)))%nat as Hl.
  { apply stored_length; [done| |].
    - eapply NoDup_sub; [exact Hnd|]. unfold places. rewrite app_assoc. apply submseteq_inserts_r. done.
    - intros id Hin. apply Hst. unfold places. rewrite app_assoc. apply elem_of_app. by left. }
  rewrite length_app, length_fmap in Hl. unfold book_ids in Hl. rewrite <-size_dom.
  assert (size (dom (orders (book (ms_engine (sv_matcher s))))) = length (elements (dom (orders (book (ms_engine (sv_matcher s))))))) as -> by done.
  rewrite length_take. lia.
Qed.

Lemma ingest_inv env s :
  id_roundtrip → pswap_amounts_u64 → note_roundtrip →
  (∀ sync, ie_sync env = Some sync → NoDup (note_id <$> sr_new_notes sync)) →
  solver_inv s → solver_inv (ingest_act env s).
Proof.
  intros Hid Hu Hn Hnd [Hm Ho Hp Hst]. destruct (ingest_once_steps env (sv_db s)) as (Hsteps & Hsub & Hnew).
  assert (places (ingest_act env s) ≡ₚ (io_note_id <$> out_orders (ingest_once env (sv_db s))) ++ places s) as Hperm.
  { unfold places, in_flight. simpl. rewrite fmap_app. symmetry. perm_app. }
  split; simpl; [done|apply Forall_app; split; [done|]|rewrite Hperm; apply NoDup_app; split_and!|].
  - apply Forall_forall. intros o Hin. by apply (forwarded_ok env (sv_db s)).
  - eapply sublist_NoDup; [|exact Hsub]. destruct (ie_sync env); [by apply Hnd|constructor].
  - intros id (o & -> & Hin)%list_elem_of_fmap [r Hr]%Hst. destruct (Hnew o Hin). congruence.
  - done.
  - intros id Hin. rewrite Hperm in Hin. apply elem_of_app in Hin as [(o & -> & Hin)%list_elem_of_fmap|Hin].
    + by apply Hnew.
    + by eapply steps_keep, Hst.
Qed.

(** A step that moves ids around and forgets some, and keeps the rows. *)
Lemma moved_inv s s' :
  solver_inv s → matcher_run (sv_matcher s') → Forall ingest_ok (sv_orders s') → places s' ⊆+ places s →
  (∀ k, is_Some (db_orders (sv_db s) !! k) → is_Some (db_orders (sv_db s') !! k)) → solver_inv s'.
Proof.
  intros [_ _ Hp Hst] Hm Ho Hsub Hk. split; [done|done|by eapply NoDup_sub|]. intros id Hin. apply Hk, Hst.
  by eapply elem_of_submseteq.
Qed.

(** The batch a tick sends, as it joins the executor's queue. *)
Lemma option_list_ids out : mjoin (ids_of <$> option_list (to_batch out)) = batch_ids out.
Proof. unfold batch_ids. destruct (to_batch out) as [eb|]; [|done]. simpl. by rewrite app_nil_r. Qed.

Lemma tick_places j k out s :
  ∃ rest, places s ≡ₚ ((io_note_id <$> take k (sv_orders s)) ++ book_ids (sv_matcher s)) ++ rest ∧
    places (tick_act j k out s) ≡ₚ (book_ids (to_state out) ++ batch_ids out) ++ rest.
Proof.
  exists ((io_note_id <$> drop k (sv_orders s)) ++ in_flight s ++ sv_done s). unfold places, in_flight. cbn [tick_act sv_orders sv_matcher sv_batches sv_running sv_done].
  split.
  - rewrite <-(take_drop k (sv_orders s)) at 1. rewrite fmap_app. symmetry. perm_app.
  - rewrite fmap_app, join_app, option_list_ids. symmetry. perm_app.
Qed.

Lemma tick_inv `{HI : HashIter} `{CH : CycleHeap} fuel i j k out s :
  id_roundtrip → solver_inv s →
  ti_consumed i = take j (sv_consumed s) → ti_orders i = take k (sv_orders s) → ti_exec_open i = true →
  quotes_wf (ti_quotes i) → Z.of_nat (size (db_orders (sv_db s))) < two32 →
  tick fuel (sv_matcher s) i = Some out →
  input_ok (sv_matcher s) i ∧ to_stopped out = false ∧ solver_inv (tick_act j k out s).
Proof.
  intros Hid Hinv Hc Ho Hopen Hq Hsz Ht. pose proof (tick_input s i k Hid Hinv Ho Hq Hsz) as Hin.
  destruct (tick_result fuel _ i out (matcher_run_inv _ (si_matcher _ Hinv)) Hin Ht) as [Hstop _].
  assert (to_stopped out = false) as Hns by (destruct (to_stopped out); [destruct Hstop; [done|congruence]|done]).
  split_and!; [done..|]. apply (moved_inv s); [done|..].
  - simpl. by eapply run_tick; [apply Hinv|..].
  - simpl. by apply Forall_drop, Hinv.
  - destruct (tick_places j k out s) as (rest & -> & ->). apply submseteq_app; [|done].
    rewrite (tick_keeps fuel (sv_matcher s) i out (si_matcher _ Hinv) Hin Ht Hns).
    apply NoDup_submseteq; [apply NoDup_elements|]. intros id. rewrite elem_of_elements, entering_dom, Ho, elem_of_app.
    unfold book_ids. rewrite elem_of_union, elem_of_difference, !elem_of_list_to_set, elem_of_elements. tauto.
  - done.
Qed.

(** Taking a batch moves its ids from the queue to the submission, or drops them. *)
Lemma begin_places `{HashIter} n solver conn s :
  places (begin_act n solver conn s) ⊆+ places s ∧
  ∀ k, is_Some (db_orders (sv_db s) !! k) ↔ is_Some (db_orders (sv_db (begin_act n solver conn s)) !! k).
Proof.
  unfold begin_act. destruct (sv_running s) as [r|] eqn:Er; [done|]. destruct (sv_batches s) as [|batch rest] eqn:Eb; [done|].
  assert (∀ d, places (mk_solver d (sv_orders s) (sv_consumed s) (sv_matcher s) rest None (sv_done s) (sv_reported s)) ⊆+ places s) as Hdrop.
  { intros d. unfold places, in_flight. simpl. rewrite Er, Eb. do 2 apply submseteq_skips_l. apply submseteq_app; [|done].
    simpl. rewrite !app_nil_r. apply submseteq_inserts_l. done. }
  destruct (filled_notes batch); [done|]. destruct (prepare_batch_components _ _ _) as [e|[c notes]]; [done|]. destruct conn; [|done].
  split.
  - apply Permutation_submseteq. unfold places, in_flight. rewrite Er, Eb. cbn [sv_orders sv_matcher sv_batches sv_running sv_done].
    change (mjoin (ids_of <$> batch :: rest)) with (ids_of batch ++ mjoin (ids_of <$> rest)). perm_app.
  - intros k. cbn [sv_db]. rewrite <-!not_eq_None_Some. unfold update_orders_status. by rewrite update_where_keys.
Qed.

Lemma finish_places env s :
  places (finish_act env s) ⊆+ places s ∧
  ∀ k, is_Some (db_orders (sv_db s) !! k) ↔ is_Some (db_orders (sv_db (finish_act env s)) !! k).
Proof.
  unfold finish_act. destruct (sv_running s) as [[batch notes]|] eqn:Er; [|done]. split.
  - unfold places, in_flight. simpl. rewrite Er, fmap_app. set (out := exec_finish _ _ _ _).
    trans ((io_note_id <$> sv_orders s) ++ book_ids (sv_matcher s) ++ mjoin (ids_of <$> sv_batches s) ++
      ((io_note_id <$> eo_refed out) ++ closed_ids env batch notes) ++ sv_done s).
    + apply Permutation_submseteq. perm_app.
    + rewrite <-(app_assoc (mjoin (ids_of <$> sv_batches s)) (ids_of batch)). do 3 apply submseteq_skips_l. apply submseteq_app; [apply finish_ids|done].
  - intros k. simpl. rewrite <-!not_eq_None_Some. by rewrite (relabelled_None _ _ k (finish_relabel env (sv_db s) batch notes)).
Qed.

Lemma interleave_places s os : os ≡ₚ sv_orders s → places (with_orders s os) ≡ₚ places s.
Proof. intros Hos. unfold places. apply Permutation_app; [|done]. by apply fmap_Permutation. Qed.

Lemma step_inv u s s' :
  id_roundtrip → pswap_amounts_u64 → note_roundtrip → solver_step u s s' → solver_inv s → solver_inv s'.
Proof.
  intros Hid Hu Hn Hstep Hinv. destruct Hstep as [? ? [env s Hnd _|HI n solver conn s _|env s _|d s Hd _|os s Hos]|HI CH fuel i j k out s Hc Ho Hopen Hq Hsz Ht];
    [..|by eapply tick_inv].
  - by apply ingest_inv.
  - destruct (begin_places n solver conn s) as [Hp Hk]. apply (moved_inv s); [done|..|done|by intros; apply Hk];
      unfold begin_act; destruct (sv_running s); try apply Hinv; destruct (sv_batches s) as [|b bs]; try apply Hinv;
      destruct (filled_notes b); try apply Hinv; destruct (prepare_batch_components _ _ _) as [|[]]; try apply Hinv;
      destruct conn; apply Hinv.
  - destruct (finish_places env s) as [Hp Hk]. apply (moved_inv s); [done|..|done|by intros; apply Hk];
      unfold finish_act; destruct (sv_running s) as [[batch notes]|]; try apply Hinv. simpl. apply Forall_app. split; [apply Hinv|].
    apply Forall_forall. intros o (f & note & _ & Hr)%finish_source. by eapply rebuild_ok.
  - apply (moved_inv s); [done|apply Hinv|apply Hinv|done|]. intros k. simpl. by rewrite Hd.
  - apply (moved_inv s); [done|apply Hinv| |by rewrite interleave_places|done]. simpl. rewrite Hos. apply Hinv.
Qed.
End places.

(** ** What the bytes are *)

Section raw.
Context `{!Miden}.
Context (P : OrderId → Bytes → Prop).

(** A property of every note the solver holds: on its way, in the book, with the executor. *)
Record raw_inv (s : Solver) : Prop := {
  ra_orders : Forall (λ o, P (io_note_id o) (io_raw o)) (sv_orders s);
  ra_book : map_Forall P (ms_raw_notes (sv_matcher s));
  ra_batches : Forall (λ b, Forall (λ f, P (fn_note_id f) (fn_raw f)) (filled_notes b)) (sv_batches s);
  ra_running : ∀ b notes, sv_running s = Some (b, notes) →
    notes_read b notes ∧ Forall (λ f, P (fn_note_id f) (fn_raw f)) (filled_notes b);
}.

Lemma tick_raw_inv `{HI : HashIter} `{CH : CycleHeap} fuel i j k out s :
  matcher_run (sv_matcher s) → input_ok (sv_matcher s) i → to_stopped out = false →
  ti_orders i = take k (sv_orders s) → tick fuel (sv_matcher s) i = Some out →
  raw_inv s → map_Forall P (tk_raw (entering (sv_matcher s) i)) ∧ raw_inv (tick_act j k out s).
Proof.
  intros Hm Hin Hns Ho Ht [Hok Hr Hb Hrun].
  assert (map_Forall P (tk_raw (entering (sv_matcher s) i))) as Hraw.
  { apply entering_raw; [done|]. rewrite Ho. by apply Forall_take. }
  split; [done|]. split; cbn [tick_act sv_db sv_orders sv_matcher sv_batches sv_running]; try done.
  - by apply Forall_drop.
  - intros id raw Hl. eapply Hraw, lookup_weaken; [exact Hl|by eapply tick_raw].
  - apply Forall_app. split; [done|]. destruct (tick_result fuel _ i out (matcher_run_inv _ Hm) Hin Ht) as [_ Hgo].
    destruct (Hgo Hns) as [_ _ Hbatch _ _ _ _ _ _]. destruct (to_batch out) as [eb|]; simpl; [|constructor].
    constructor; [|constructor]. apply Forall_forall. intros f Hf.
    destruct (bo_notes _ _ (proj1 (Hbatch eb eq_refl)) f Hf) as (o & _ & _ & Hl & _). by eapply Hraw.
Qed.

Lemma task_raw_inv u s s' :
  (∀ env d o, o ∈ out_orders (ingest_once env d) → P (io_note_id o) (io_raw o)) →
  task_step u s s' → raw_inv s → raw_inv s'.
Proof.
  intros Hfwd Hstep Hs. destruct Hstep as [env s _ _|HI n solver conn s _|env s _|d s _ _|os s Hos].
  - destruct Hs as [Ho ? ? ?]. split; simpl; try done. apply Forall_app. split; [done|]. apply Forall_forall.
    intros o Hin. by eapply Hfwd.
  - unfold begin_act. pose proof Hs as [? ? Hb ?]. destruct (sv_running s) eqn:Er; [done|].
    destruct (sv_batches s) as [|batch rest] eqn:Eb; [done|]. apply Forall_cons in Hb as [Hb ?].
    destruct (filled_notes batch) as [|f fs] eqn:Ef; [by split|].
    destruct (prepare_batch_components _ _ _) as [|[c notes]] eqn:Ep; [by split|].
    destruct conn; [|by split]. split; simpl; try done. intros b notes' [= <- <-]. rewrite Ef. split; [by eapply prepare_read|done].
  - unfold finish_act. pose proof Hs as [Ho ? ? Hrun]. destruct (sv_running s) as [[batch notes]|] eqn:Er; [|done].
    destruct (Hrun batch notes eq_refl) as [_ Hraw]. split; simpl; try done. apply Forall_app. split; [done|]. apply Forall_forall.
    intros o (f & note & Hf%elem_of_zip_l & [-> ->]%rebuild_id)%finish_source. by eapply Forall_forall in Hraw.
  - by destruct Hs.
  - destruct Hs. split; simpl; [by rewrite Hos|done..].
Qed.

Lemma step_raw_inv u s s' :
  id_roundtrip → (∀ env d o, o ∈ out_orders (ingest_once env d) → P (io_note_id o) (io_raw o)) →
  solver_step u s s' → solver_inv s → raw_inv s → raw_inv s'.
Proof.
  intros Hid Hfwd [? ? Hstep|HI CH fuel i j k out s1 Hc Ho Hopen Hq Hsz Ht] Hinv Hs; [by eapply task_raw_inv|].
  destruct (tick_inv fuel i j k out s1 Hid Hinv Hc Ho Hopen Hq Hsz Ht) as (Hin & Hns & _). eapply tick_raw_inv; try done. apply Hinv.
Qed.
End raw.

(** ** No order is lost *)

Section kept.
Context `{!Miden}.

(** The rows outside [closed] are accounted for, and every order that may have to be handed
    back can be. *)
Record kept_inv (closed : gset Bytes) (s : Solver) : Prop := {
  ke_raw : raw_inv (λ _, readable) s;
  ke_consumed : ∀ id, id ∈ sv_consumed s → id ∈ sv_reported s;
  ke_kept : ∀ k, is_Some (db_orders (sv_db s) !! k) →
    k ∈ closed ∨ ∃ id, k = id_bytes id ∧ (id ∈ places s ∨ id ∈ sv_reported s);
}.

(** The accounting after a step that adds no row and loses no id. *)
Lemma kept_moved closed s s' :
  kept_inv closed s → (∀ k, is_Some (db_orders (sv_db s') !! k) → is_Some (db_orders (sv_db s) !! k)) →
  (∀ id, id ∈ places s ∨ id ∈ sv_reported s → id ∈ places s' ∨ id ∈ sv_reported s') →
  ∀ k, is_Some (db_orders (sv_db s') !! k) →
    k ∈ closed ∨ ∃ id, k = id_bytes id ∧ (id ∈ places s' ∨ id ∈ sv_reported s').
Proof. intros Hs Hk Hid k Hin%Hk. destruct (ke_kept _ _ Hs k Hin) as [?|(id & -> & ?)]; [by left|]. right. exists id. auto. Qed.

Lemma ingest_kept closed env s : (∀ i, ie_order_open env i = true) → kept_inv closed s →
  (∀ id, id ∈ sv_consumed (ingest_act env s) → id ∈ sv_reported (ingest_act env s)) ∧
  ∀ k, is_Some (db_orders (sv_db (ingest_act env s)) !! k) →
    k ∈ closed ∨ ∃ id, k = id_bytes id ∧ (id ∈ places (ingest_act env s) ∨ id ∈ sv_reported (ingest_act env s)).
Proof.
  intros Hopen [_ Hc Hk]. split; simpl.
  - intros id [?|?]%elem_of_app; apply elem_of_app; auto.
  - intros k [Hin|(o & Hin & ->)]%ingest_keeps; [| |done].
    + destruct (Hk k Hin) as [?|(id & -> & Hid)]; [by left|]. right. exists id. split; [done|]. rewrite elem_of_app.
      destruct Hid as [Hid|?]; [left|tauto]. unfold places in *. simpl. rewrite fmap_app. set_solver.
    + right. exists (io_note_id o). split; [done|]. left. unfold places. simpl. rewrite fmap_app. set_solver.
Qed.

Lemma tick_kept `{HI : HashIter} `{CH : CycleHeap} closed fuel i j k out s id :
  matcher_run (sv_matcher s) → input_ok (sv_matcher s) i → to_stopped out = false →
  ti_consumed i = take j (sv_consumed s) → ti_orders i = take k (sv_orders s) →
  tick fuel (sv_matcher s) i = Some out → kept_inv closed s →
  id ∈ places s ∨ id ∈ sv_reported s → id ∈ places (tick_act j k out s) ∨ id ∈ sv_reported s.
Proof.
  intros Hm Hin Hns Hc Ho Ht [_ Hcons _] [Hid|Hid]; [|by right].
  destruct (tick_places j k out s) as (rest & Hp & Hp'). rewrite Hp in Hid. rewrite Hp'. clear Hp Hp'.
  apply elem_of_app in Hid as [Hid|Hid]; [|left; apply elem_of_app; by right].
  destruct (decide (id ∈ take j (sv_consumed s))) as [Hj|Hj].
  { right. apply Hcons. rewrite <-(take_drop j (sv_consumed s)). apply elem_of_app. by left. }
  left. apply elem_of_app. left. rewrite (tick_keeps fuel _ i out Hm Hin Ht Hns).
  rewrite elem_of_elements, entering_dom, Hc, Ho, elem_of_union, elem_of_difference, !elem_of_list_to_set.
  unfold book_ids in Hid. rewrite elem_of_app, elem_of_elements in Hid. tauto.
Qed.

Lemma begin_reported `{HashIter} n solver conn s :
  sv_reported (begin_act n solver conn s) = sv_reported s.
Proof.
  unfold begin_act. destruct (sv_running s); [done|]. destruct (sv_batches s) as [|b bs]; [done|].
  destruct (filled_notes b); [done|]. destruct (prepare_batch_components _ _ _) as [|[]]; [done|]. by destruct conn.
Qed.

Lemma begin_kept `{HashIter} n solver s id :
  (∀ batch rest, sv_batches s = batch :: rest → ∃ c, prepare_batch_components n batch solver = inr c) →
  id ∈ places s → id ∈ places (begin_act n solver true s).
Proof.
  intros Hprep. unfold begin_act. destruct (sv_running s) eqn:Er; [done|]. destruct (sv_batches s) as [|batch rest] eqn:Eb; [done|].
  destruct (filled_notes batch) eqn:Ef; [|clear Ef; destruct (Hprep batch rest eq_refl) as [[c notes] ->]];
    unfold places, in_flight; simpl; rewrite Er, Eb; simpl; [unfold ids_of at 1; rewrite Ef; done|set_solver].
Qed.

Lemma finish_kept closed env s id :
  ee_final_conn env = true → (∀ i, ee_order_open env i = true) →
  su_outcome (submit_with_rpc_backoff (ee_build_ok env) (ee_reply env) (ee_cancelled env)) ≠ Cancelled →
  (∀ notes, is_Some (check_consumed_notes (ee_heights env) notes)) →
  kept_inv closed s → id ∈ places s → id ∈ places (finish_act env s).
Proof.
  intros Hconn Hopen Hcan Hh [Hraw _ _]. unfold finish_act. destruct (sv_running s) as [[batch notes]|] eqn:Er; [|done].
  destruct (ra_running _ _ Hraw batch notes Er) as [Hread Hrd].
  pose proof (finish_keeps env (sv_db s) batch notes Hread Hrd Hconn Hopen Hcan (Hh notes)) as Hperm.
  intros Hid. unfold places, in_flight in *. simpl. rewrite Er in Hid.
  rewrite fmap_app. rewrite !elem_of_app in *. rewrite <-Hperm, elem_of_app in Hid. rewrite elem_of_nil. tauto.
Qed.

Lemma step_kept closed s s' :
  id_roundtrip → pswap_amounts_u64 → note_roundtrip → solver_step true s s' →
  solver_inv s → kept_inv closed s → kept_inv closed s'.
Proof.
  intros Hid Hu Hn Hstep Hinv Hs.
  assert (raw_inv (λ _, readable) s') as Hraw.
  { eapply (step_raw_inv _ true s s'); [done| |done|done|apply Hs]. intros env d o Ho. by apply (forwarded_ok env d). }
  destruct Hstep as [? ? [env s Hnd Hgo|HI n solver conn s Hgo|env s Hgo|d s Hd _|os s Hos]|HI CH fuel i j k out s Hc Ho Hopen Hq Hsz Ht].
  - destruct (ingest_kept closed env s (Hgo eq_refl) Hs). by split.
  - destruct Hgo as [-> Hp]; [done|]. split; [done| |].
    + unfold begin_act. intros id. destruct (sv_running s); [apply Hs|]. destruct (sv_batches s) as [|b bs]; [apply Hs|].
      destruct (filled_notes b); [apply Hs|]. destruct (prepare_batch_components _ _ _) as [|[]]; apply Hs.
    + apply (kept_moved closed s); [done|by apply begin_places|]. intros id [?|?]; [left; by apply begin_kept|right].
      by rewrite begin_reported.
  - destruct Hgo as (Hf & Hop & Hca & Hh); [done|].
    assert (sv_consumed (finish_act env s) = sv_consumed s ∧ sv_reported (finish_act env s) = sv_reported s) as [Ec Er]
      by (unfold finish_act; by destruct (sv_running s) as [[]|]).
    split; [done|rewrite Ec, Er; apply Hs|]. apply (kept_moved closed s); [done|by apply finish_places|].
    intros id [?|?]; [left; by eapply finish_kept|right; by rewrite Er].
  - destruct Hs as [? ? Hk]. split; try done. simpl. by rewrite Hd.
  - pose proof (interleave_places s os Hos) as Hp. split; [done|apply Hs|]. apply (kept_moved closed s); [done..|].
    intros id. by rewrite Hp.
  - destruct (tick_inv fuel i j k out s Hid Hinv Hc Ho Hopen Hq Hsz Ht) as (Hin & Hns & _). split; [done| |].
    + simpl. intros id Hin'. apply (ke_consumed _ _ Hs). rewrite <-(take_drop j (sv_consumed s)). apply elem_of_app. by right.
    + apply (kept_moved closed s); [done|done|]. intros id. apply (tick_kept closed fuel i j k out s id); try done. apply Hinv.
Qed.
End kept.

(** ** Bytes and terms *)

Section terms.
Context `{!Miden}.

(** The order the matcher makes of a message. *)
Definition order_of (o : IngestOrder) : Order :=
  mk_order (io_note_id o) (io_offered_token o) (io_requested_token o) (io_offered_amount o) (io_requested_amount o)
    (io_requested_amount o).

Definition io_terms (o : IngestOrder) : Prop := decodes (io_raw o) (order_of o).

Definition book_terms (raws : gmap OrderId Bytes) (m : gmap OrderId Order) : Prop :=
  ∀ id raw o, raws !! id = Some raw → m !! id = Some o → decodes raw o.

(** A note of a batch whose bytes are those of its order, filled within its terms. *)
Definition covered (m : gmap OrderId Order) (f : FilledNote) : Prop :=
  ∃ o, m !! fn_note_id f = Some o ∧ order_wf o ∧ decodes (fn_raw f) o ∧ 0 < fn_requested_filled f <= requested o.

Definition batch_solvent (b : ExecutionBatch) : Prop :=
  ∃ m, Forall (covered m) (filled_notes b) ∧ ∀ tok, 0 <= batch_flow m (filled_notes b) tok.

(** A note that passes the checks of the preparation is fillable. *)
Lemma prepared_fillable solver acc m f p : covered m f → prepare_filled solver acc f = inr p → fillable m f.
Proof.
  intros (o & Ho & Hwf & Hdec & Hfill). pose proof Hdec as (note & q & Hn & Hq & _ & _ & Hrt & _). unfold prepare_filled. rewrite Hn, Hq, Hrt.
  destruct (fungible_asset_ok _ _) eqn:Ea; [|done]. destruct (pswap_args_ok _) eqn:Eg; [|done]. intros _. exists o. split_and!; try done; apply Hfill.
Qed.

Lemma prepared_all_fillable solver acc m fs p :
  Forall (covered m) fs → prepare_all solver acc fs = inr p → Forall (fillable m) fs.
Proof.
  intros Hf. revert acc. induction Hf as [|f fs Hf _ IH]; intros acc; cbn [prepare_all]; [constructor|].
  destruct (prepare_filled solver acc f) as [e|acc'] eqn:E; [done|]. intros Hp. constructor; [by eapply prepared_fillable|by eapply IH].
Qed.

Lemma surplus_insolvent flow toks t x : surplus_assets flow toks = inl (Insolvent t x) → default 0 (flow !! t) < 0.
Proof.
  induction toks as [|tok toks IH]; cbn [surplus_assets]; [done|].
  destruct (Z.ltb_spec (default 0 (flow !! tok)) 0); [by intros [= <- _]|].
  destruct (0 <? _); [|done]. do 2 (destruct (negb _); [done|]). destruct (surplus_assets flow toks) as [e|]; [|done]. intros [= ->]. auto.
Qed.

Lemma prepare_all_error solver acc fs t x : prepare_all solver acc fs ≠ inl (Insolvent t x).
Proof.
  revert acc. induction fs as [|f fs IH]; intros acc; cbn [prepare_all]; [done|].
  destruct (prepare_filled solver acc f) as [e|acc'] eqn:E; [|apply IH]. intros [= ->]. unfold prepare_filled in E.
  destruct (note_read _); [|done]. destruct (pswap_try_from _); [|done]. do 2 (destruct (negb _); [done|]).
  by destruct (pswap_execute _ _ _ _) as [[? []]|].
Qed.

(** A solvent batch is never rejected as insolvent. *)
Lemma solvent_prepares `{!PswapLaws} `{HashIter} n b solver t x :
  batch_solvent b → prepare_batch_components n b solver ≠ inl (Insolvent t x).
Proof.
  intros (m & Hc & Hpos). unfold prepare_batch_components.
  destruct (prepare_all solver _ (filled_notes b)) as [e|p] eqn:E; [intros [= ->]; by destruct (prepare_all_error _ _ _ _ _ E)|].
  pose proof (prepared_all_fillable _ _ _ _ _ Hc E) as Hf.
  destruct (prepare_all_flow solver m (filled_notes b) (mk_prepared [] [] [] ∅) Hf) as (p' & _ & E' & _ & _ & _ & Hflow).
  rewrite E in E'. injection E' as <-. destruct (surplus_assets _ _) as [e|] eqn:Es; [|done]. intros [= ->].
  apply surplus_insolvent in Es. rewrite Hflow in Es. specialize (Hpos t). simpl in Es. rewrite lookup_empty in Es. simpl in Es. lia.
Qed.

(** The matcher keeps bytes and terms together, as orders arrive under ids it does not have. *)
Lemma take_terms unix os t :
  book_terms (tk_raw t) (orders (tk_book t)) → Forall io_terms os → NoDup (io_note_id <$> os) →
  (∀ o, o ∈ os → orders (tk_book t) !! io_note_id o = None) →
  let t' := foldl (take_order unix) t os in book_terms (tk_raw t') (orders (tk_book t')).
Proof.
  intros Ht Hos. revert t Ht. induction Hos as [|o os Ho _ IH]; intros t Ht Hnd Habs; cbn [foldl]; [done|].
  rewrite fmap_cons in Hnd. apply NoDup_cons in Hnd as [Hnot Hnd].
  assert (orders (tk_book (take_order unix t o)) = <[io_note_id o := order_of o]> (orders (tk_book t))) as Eo.
  { simpl. destruct (add_user_order_fields (tk_book t) (io_note_id o) (io_offered_token o) (io_requested_token o)
      (io_offered_amount o) (io_requested_amount o)) as (-> & _). by rewrite (Habs o) by (by left). }
  apply IH; [|done|].
  - rewrite Eo. simpl. intros id raw x. destruct (decide (io_note_id o = id)) as [<-|Hne].
    + rewrite !lookup_insert_eq. by intros [= <-] [= <-].
    + rewrite !lookup_insert_ne by done. apply Ht.
  - intros o' Ho'. rewrite Eo, lookup_insert_ne; [apply Habs; by right|]. intros He. apply Hnot. rewrite He. by apply list_elem_of_fmap_2.
Qed.

Lemma entering_terms s i :
  book_terms (ms_raw_notes s) (orders (book (ms_engine s))) → Forall io_terms (ti_orders i) → NoDup (io_note_id <$> ti_orders i) →
  (∀ o, o ∈ ti_orders i → orders (book (ms_engine s)) !! io_note_id o = None) →
  book_terms (tk_raw (entering s i)) (orders (tk_book (entering s i))).
Proof.
  intros Hs Hos Hnd Habs. assert (book_terms (tk_raw (drain i (tracked_of s))) (orders (tk_book (drain i (tracked_of s))))) as Hd.
  { unfold drain. apply take_terms; [|done|done|].
    - intros id raw o Hraw Ho. rewrite drop_all_orders in Ho. case_decide; [done|]. eapply Hs; [|exact Ho].
      eapply lookup_weaken; [exact Hraw|apply (drop_all_raw (tracked_of s))].
    - intros o Ho. rewrite drop_all_orders. simpl. rewrite Habs by done. by case_decide. }
  unfold entering. destruct (ms_router s) as [ttl|]; [|done]. simpl. unfold reactivate_parked_older_than.
  by destruct (reactivate_loop_fields ttl (tick_now s i) (park_queue (tk_book (drain i (tracked_of s)))) (tk_book (drain i (tracked_of s))))
    as (-> & _).
Qed.

Lemma rebuild_terms f note o :
  note_read (fn_raw f) = Some note → rebuild_ingest_order f note = Some o → io_terms o.
Proof.
  intros Hn. unfold rebuild_ingest_order. destruct (from_note note) as [po|] eqn:E; [|done]. intros [= <-].
  apply from_note_terms in E as (p & Hp & E1 & E2 & E3 & E4). exists note, p. simpl. by rewrite E1, E2, E3, E4.
Qed.

Lemma forwarded_terms env d o : note_roundtrip → o ∈ out_orders (ingest_once env d) → io_terms o.
Proof.
  intros Hn Ho. destruct (ie_sync env) as [sync|] eqn:Es.
  2: { unfold ingest_once in Ho. rewrite Es in Ho. by apply elem_of_nil in Ho. }
  destruct (forwarded_inv env sync d o Es Ho) as (_ & _ & _ & _ & Hp & _).
  apply list_elem_of_fmap in Hp as (x & -> & Hx). apply elem_of_prepare_notes in Hx as (i & note & _ & Hx).
  unfold prepare_note in Hx. destruct (negb _); [done|]. destruct (from_note note) as [po|] eqn:Ef; [|done]. injection Hx as <-.
  apply from_note_terms in Ef as (p & Hp & E1 & E2 & E3 & E4). exists note, p. simpl. rewrite E1, E2, E3, E4. by split; [apply Hn|].
Qed.

(** The orders the solver works with have the terms of their notes. *)
Record agree_inv (s : Solver) : Prop := {
  ag_orders : Forall io_terms (sv_orders s);
  ag_book : book_terms (ms_raw_notes (sv_matcher s)) (orders (book (ms_engine (sv_matcher s))));
  ag_running : ∀ b notes, sv_running s = Some (b, notes) → notes_read b notes;
}.

(** Without the triangular phase every queued batch is solvent. *)
Record terms_inv (s : Solver) : Prop := {
  te_direct : triangular_enabled (ms_engine (sv_matcher s)) = false;
  te_agree : agree_inv s;
  te_batches : Forall batch_solvent (sv_batches s);
}.

Lemma tick_direct `{HI : HashIter} `{CH : CycleHeap} fuel s i out :
  tick fuel s i = Some out → triangular_enabled (ms_engine (to_state out)) = triangular_enabled (ms_engine s).
Proof.
  rewrite tick_unfold. destruct (internal_match _ _ _ _) as [[[t batch] []]|]; [by intros [= <-]| |done].
  destruct (match ms_router s with Some _ => _ | None => _ end) as [[b r] c]. by intros [= <-].
Qed.

Lemma tick_agree `{HI : HashIter} `{CH : CycleHeap} fuel i j k out s :
  solver_inv s → input_ok (sv_matcher s) i → to_stopped out = false → ti_orders i = take k (sv_orders s) →
  tick fuel (sv_matcher s) i = Some out → agree_inv s →
  book_terms (tk_raw (entering (sv_matcher s) i)) (orders (tk_book (entering (sv_matcher s) i))) ∧ agree_inv (tick_act j k out s).
Proof.
  intros Hinv Hin Hns Ho Ht [Hos Hbook Hrun]. pose proof (matcher_run_inv _ (si_matcher _ Hinv)) as Hm.
  assert (NoDup ((io_note_id <$> take k (sv_orders s)) ++ book_ids (sv_matcher s))) as (Hnd & Hdis & _)%NoDup_app.
  { destruct (tick_places j k out s) as (rest & Hp & _). pose proof (si_places _ Hinv) as Hnd. rewrite Hp in Hnd.
    by apply NoDup_app in Hnd as [? _]. }
  assert (book_terms (tk_raw (entering (sv_matcher s) i)) (orders (tk_book (entering (sv_matcher s) i)))) as He.
  { apply entering_terms; rewrite ?Ho; [done|by apply Forall_take|done|]. intros o Hino.
    destruct (orders _ !! io_note_id o) as [x|] eqn:Hx; [|done]. destruct (Hdis (io_note_id o)); [by apply list_elem_of_fmap_2|].
    unfold book_ids. by apply elem_of_elements, elem_of_dom. }
  split; [done|]. destruct (tick_result fuel _ i out Hm Hin Ht) as [_ Hgo]. destruct (Hgo Hns) as [_ _ _ Hord _ _ _ _ _].
  split; cbn [tick_act sv_orders sv_matcher sv_batches sv_running]; [by apply Forall_drop| |done].
  intros id raw o Hraw Ho'. rewrite Hord in Ho'. case_decide; [done|]. eapply He; [|exact Ho'].
  eapply lookup_weaken; [exact Hraw|by eapply tick_raw].
Qed.

Lemma task_agree u s s' : note_roundtrip → task_step u s s' → agree_inv s → agree_inv s'.
Proof.
  intros Hn Hstep Hs. destruct Hstep as [env s _ _|HI n solver conn s _|env s _|d s _ _|os s Hos].
  - destruct Hs as [Ho ? ?]. split; simpl; try done. apply Forall_app. split; [done|]. apply Forall_forall.
    intros o Hin. by eapply forwarded_terms.
  - unfold begin_act. pose proof Hs as [? ? ?]. destruct (sv_running s) eqn:Er; [done|].
    destruct (sv_batches s) as [|batch rest] eqn:Eb; [done|].
    destruct (filled_notes batch); [by split|]. destruct (prepare_batch_components _ _ _) as [|[c notes]] eqn:Ep; [by split|].
    destruct conn; [|by split]. split; simpl; try done. intros b notes' [= <- <-]. by eapply prepare_read.
  - unfold finish_act. pose proof Hs as [Ho ? Hrun]. destruct (sv_running s) as [[batch notes]|] eqn:Er; [|done].
    split; simpl; try done. apply Forall_app. split; [done|]. apply Forall_forall.
    intros o (f & note & Hf & Hr)%finish_source. eapply rebuild_terms; [|exact Hr]. specialize (Hrun batch notes eq_refl).
    unfold notes_read in Hrun. apply list_elem_of_lookup in Hf as (m & Hm). unfold zip in Hm.
    apply lookup_zip_with_Some in Hm as (f' & note' & [= <- <-] & H1 & H2). exact (Forall2_lookup_lr _ _ _ _ _ _ Hrun H1 H2).
  - by destruct Hs.
  - destruct Hs. split; simpl; [by rewrite Hos|done..].
Qed.

(** The queue of the executor grows by ticks only. *)
Lemma task_batches u s s' b : task_step u s s' → b ∈ sv_batches s' → b ∈ sv_batches s.
Proof.
  intros [env s1 _ _|HI n solver conn s1 _|env s1 _|d s1 _ _|os s1 _]; try done.
  - unfold begin_act. destruct (sv_running s1); [done|]. destruct (sv_batches s1) as [|x rest] eqn:Eb; [by rewrite Eb|].
    destruct (filled_notes x); [by right|]. destruct (prepare_batch_components _ _ _) as [|[]]; [by right|]. destruct conn; by right.
  - unfold finish_act. by destruct (sv_running s1) as [[]|].
Qed.

Lemma task_matcher u s s' : task_step u s s' → sv_matcher s' = sv_matcher s.
Proof.
  intros [env s1 _ _|HI n solver conn s1 _|env s1 _|d s1 _ _|os s1 _]; try done.
  - unfold begin_act. destruct (sv_running s1); [done|]. destruct (sv_batches s1) as [|x rest]; [done|].
    destruct (filled_notes x); [done|]. destruct (prepare_batch_components _ _ _) as [|[]]; [done|]. by destruct conn.
  - unfold finish_act. by destruct (sv_running s1) as [[]|].
Qed.

Lemma step_terms u s s' :
  id_roundtrip → note_roundtrip → solver_step u s s' → solver_inv s → terms_inv s → terms_inv s'.
Proof.
  intros Hid Hn [s1 s2 Hstep|HI CH fuel i j k out s1 Hc Ho Hopen Hq Hsz Ht] Hinv [Hdir Hag Hb].
  - split; [by rewrite (task_matcher _ _ _ Hstep)|by eapply task_agree|]. apply Forall_forall. intros b Hin.
    eapply Forall_forall in Hb; [exact Hb|by eapply task_batches].
  - destruct (tick_inv fuel i j k out s1 Hid Hinv Hc Ho Hopen Hq Hsz Ht) as (Hin & Hns & _).
    destruct (tick_agree fuel i j k out s1 Hinv Hin Hns Ho Ht Hag) as [He Hag']. pose proof (matcher_run_inv _ (si_matcher _ Hinv)) as Hm.
    destruct (tick_result fuel _ i out Hm Hin Ht) as [_ Hgo]. destruct (Hgo Hns) as [_ _ Hbatch _ _ _ _ _ _].
    destruct (proj1 (entering_inv _ i Hm Hin)) as [[l Hl] _ _ _ _ _ _].
    split; [by simpl; rewrite (tick_direct fuel _ i out Ht)|done|]. simpl. apply Forall_app. split; [done|].
    destruct (to_batch out) as [eb|]; simpl; [|constructor]. constructor; [|constructor].
    destruct (Hbatch eb eq_refl) as [Hok Hpos]. exists (orders (tk_book (entering (sv_matcher s1) i))). split; [|by apply Hpos].
    apply Forall_forall. intros f Hf. destruct (bo_notes _ _ Hok f Hf) as (o & (Ho' & _) & Hfill & Hraw & _).
    exists o. split_and!; [done|by eapply orders_wf|by eapply He|apply Hfill..].
Qed.
End terms.

(** ** Boot *)

Section boot.
Context `{!Miden}.

(** The bytes of a note with the terms of a row. *)
Definition row_terms (raw : Bytes) (r : OrderRow) : Prop :=
  ∃ note p, note_read raw = Some note ∧ pswap_try_from note = Some p ∧
    id_bytes (pswap_offered_token p) = or_offered_asset r ∧ pswap_offered_amount p = as_u64 (or_offered_amount r) ∧
    id_bytes (pswap_requested_token p) = or_requested_asset r ∧ pswap_requested_amount p = as_u64 (or_requested_amount r).

(** A database the solver wrote: rows under their own key, with encoded ids, positive amounts
    and a note of the same terms. *)
Definition row_ok (d : Db) (k : Bytes) (r : OrderRow) : Prop :=
  or_note_id r = k ∧ encoded r ∧ 0 < as_u64 (or_offered_amount r) ∧ 0 < as_u64 (or_requested_amount r) ∧
  ∃ note, db_notes d !! k = Some note ∧ row_terms (nr_raw_data note) r.

Definition boot_ok (d : Db) : Prop := map_Forall (row_ok d) (db_orders d).

(** The rows that take no part any more: executed and nullified ones. *)
Definition closed_rows (d : Db) : gset Bytes := dom (filter (λ kr, has_status Active kr.2 = false) (db_orders d)).

Lemma reset_ok_rows d : boot_ok d → boot_ok (reset_all_settling_to_active d).1.
Proof.
  intros Hd k r. unfold reset_all_settling_to_active. rewrite update_where_lookup.
  destruct (db_orders d !! k) as [r0|] eqn:E; [|done]. intros [= <-]. destruct (Hd k r0 E) as (H1 & H2 & H3 & H4 & H5).
  by destruct (has_status Settling r0).
Qed.

Lemma reset_size d : size (db_orders (reset_all_settling_to_active d).1) = size (db_orders d).
Proof.
  rewrite <-!size_dom. f_equal. apply set_eq. intros k. rewrite !elem_of_dom, <-!not_eq_None_Some.
  unfold reset_all_settling_to_active. by rewrite update_where_keys.
Qed.

(** What hydration loads. *)
Lemma boot_loads `{HashIter} n d :
  id_roundtrip → boot_ok d →
  ∃ os, load_active_orders_with_notes n d = Some os ∧ (length os <= size (db_orders d))%nat ∧
    Forall ingest_ok os ∧ Forall (λ o, readable (io_raw o)) os ∧
    (∀ o, o ∈ os → is_Some (db_orders d !! id_bytes (io_note_id o))) ∧
    ∀ k, is_Some (db_orders d !! k) → k ∈ closed_rows d ∨ ∃ o, o ∈ os ∧ k = id_bytes (io_note_id o).
Proof.
  intros Hid Hd. unfold load_active_orders_with_notes.
  destruct (collect_ok_some (λ p : OrderRow * Bytes, ingest_order_of p.1 p.2) (active_with_notes n d)) as (os & Hos & H2).
  { intros [r raw] (k & note & Hr & _)%elem_of_active_with_notes. apply ingest_order_of_encoded; [done|]. by apply (Hd k). }
  assert (∀ k r note, db_orders d !! k = Some r → db_notes d !! k = Some note →
    ∃ i a b, k = id_bytes i ∧ ingest_order_of r (nr_raw_data note) =
      Some (mk_ingest i a b (as_u64 (or_offered_amount r)) (as_u64 (or_requested_amount r)) (nr_raw_data note))) as Hof.
  { intros k r note Hr Hn. destruct (Hd k r Hr) as (<- & (i & a & b & Hi & Ha & Hb) & _). exists i, a, b. split; [done|].
    unfold ingest_order_of. by rewrite Hi, Ha, Hb, !Hid. }
  assert (∀ o, o ∈ os → ∃ k r note i a b, db_orders d !! k = Some r ∧ db_notes d !! k = Some note ∧ k = id_bytes i ∧
    o = mk_ingest i a b (as_u64 (or_offered_amount r)) (as_u64 (or_requested_amount r)) (nr_raw_data note)) as Hsrc.
  { intros o (m & Hm)%list_elem_of_lookup. destruct (Forall2_lookup_r _ _ _ _ _ H2 Hm) as ([r raw] & Hp & Ho).
    apply list_elem_of_lookup_2, elem_of_active_with_notes in Hp as (k & note & Hr & _ & Hn & <-).
    destruct (Hof k r note Hr Hn) as (i & a & b & Hk & Ho'). simpl in Ho. rewrite Ho' in Ho. injection Ho as <-. eauto 12. }
  exists os. split_and!; [done|..].
  - rewrite <-(Forall2_length _ _ _ H2). unfold active_with_notes. etrans; [apply omap_length|].
    rewrite (Permutation_length (hash_iter_perm _ _)). change (size (dom (active_rows d)) <= size (db_orders d))%nat. rewrite size_dom.
    apply map_size_filter.
  - apply Forall_forall. intros o (k & r & note & i & a & b & Hr & _ & _ & ->)%Hsrc. destruct (Hd k r Hr) as (_ & _ & ? & ? & _).
    pose proof (wrap64_range (or_offered_amount r)). pose proof (wrap64_range (or_requested_amount r)).
    unfold ingest_ok, as_u64 in *. simpl. u64.
  - apply Forall_forall. intros o (k & r & note & i & a & b & Hr & Hn & _ & ->)%Hsrc.
    destruct (Hd k r Hr) as (_ & _ & Hoff & Hreq & note' & Hn' & nt & p & Hread & Hp & _ & Eo & _ & Er).
    assert (note' = note) as -> by congruence. simpl. exists nt. unfold from_note. rewrite Hp. simpl.
    rewrite Eo, Er, !(proj2 (Z.eqb_neq _ _)) by lia. simpl. eauto.
  - intros o (k & r & note & i & a & b & Hr & _ & -> & ->)%Hsrc. simpl. by rewrite Hr.
  - intros k [r Hr]. destruct (has_status Active r) eqn:Ea.
    + right. destruct (Hd k r Hr) as (_ & _ & _ & _ & note & Hn & _). destruct (Hof k r note Hr Hn) as (i & a & b & Hk & Ho).
      assert ((r, nr_raw_data note) ∈ active_with_notes n d) as Hin by (apply elem_of_active_with_notes; eauto 6).
      apply list_elem_of_lookup in Hin as (m & Hm). destruct (Forall2_lookup_l _ _ _ _ _ H2 Hm) as (o & Hl & Ho').
      simpl in Ho'. rewrite Ho in Ho'. injection Ho' as <-. apply list_elem_of_lookup_2 in Hl. eexists. split; [exact Hl|done].
    + left. unfold closed_rows. apply elem_of_dom. exists r. by apply map_lookup_filter_Some.
Qed.

Lemma hydrate_raw (P : OrderId → Bytes → Prop) unix t os :
  map_Forall P (tk_raw t) → Forall (λ o, P (io_note_id o) (io_raw o)) os → map_Forall P (tk_raw (foldl (hydrate_order unix) t os)).
Proof.
  intros Ht Hos. revert t Ht. induction Hos as [|o os Ho _ IH]; intros t Ht; cbn [foldl]; [done|]. apply IH. simpl. by apply map_Forall_insert_2.
Qed.

Lemma boot_solver_inv `{HashIter} n prices tri router unix d :
  id_roundtrip → boot_ok d → Z.of_nat (size (db_orders d)) < two32 →
  let s := solver_boot n prices tri router unix d in solver_inv s ∧ kept_inv (closed_rows (sv_db s)) s.
Proof.
  intros Hid Hd Hsz s. pose proof (reset_ok_rows d Hd) as Hd'. pose proof (reset_size d) as Hs'.
  unfold s, solver_boot. clear s. set (d' := (reset_all_settling_to_active d).1) in *.
  destruct (boot_loads n d' Hid Hd') as (os & -> & Hlen & Hok & Hraw & Hst & Hall).
  set (m := matcher_start prices tri router unix (Some os)).
  assert (∀ id, id ∈ book_ids m ↔ ∃ o, o ∈ os ∧ id = io_note_id o) as Hids.
  { intros id. unfold book_ids, m, matcher_start. rewrite elem_of_elements. simpl. rewrite hydrate_all_dom.
    rewrite elem_of_union, elem_of_list_to_set, list_elem_of_fmap. simpl. rewrite dom_empty_L. set_solver. }
  assert (matcher_run m) as Hm by (apply run_start; simpl; [done|lia]).
  assert (places (mk_solver d' [] [] m [] None [] []) = book_ids m) as Hp by (unfold places, in_flight; simpl; by rewrite app_nil_r).
  split; [split|split]; simpl; rewrite ?Hp; try done.
  - unfold book_ids. apply NoDup_elements.
  - intros id (o & Ho & ->)%Hids. by apply Hst.
  - split; simpl; try done. apply (hydrate_raw (λ _, readable)); [by intros ? ?|done].
  - intros k [?|(o & Ho & ->)]%Hall; [by left|]. right. exists (io_note_id o). split; [done|]. left. apply Hids. eauto.
Qed.

Lemma hydrate_terms unix os t :
  Forall io_terms os → NoDup (io_note_id <$> os) → (∀ o, o ∈ os → orders (tk_book t) !! io_note_id o = None) →
  book_terms (tk_raw t) (orders (tk_book t)) →
  let t' := foldl (hydrate_order unix) t os in book_terms (tk_raw t') (orders (tk_book t')).
Proof.
  intros Hos Hnd Habs Ht. pose proof (take_terms unix os t Ht Hos Hnd Habs) as Htake.
  assert (∀ t1 t2, tk_book t1 = tk_book t2 → tk_raw t1 = tk_raw t2 →
    tk_book (foldl (hydrate_order unix) t1 os) = tk_book (foldl (take_order unix) t2 os) ∧
    tk_raw (foldl (hydrate_order unix) t1 os) = tk_raw (foldl (take_order unix) t2 os)) as Heq.
  { clear. induction os as [|o os IH]; intros t1 t2 E1 E2; cbn [foldl]; [done|]. apply IH; simpl; by rewrite ?E1, ?E2. }
  simpl in *. by destruct (Heq t t eq_refl eq_refl) as [-> ->].
Qed.

(** The keys of the loaded orders are among those of the active rows, in order. *)
Lemma loaded_keys `{HashIter} n d os :
  id_roundtrip → boot_ok d → Forall2 (λ p o, ingest_order_of p.1 p.2 = Some o) (active_with_notes n d) os →
  (id_bytes <$> (io_note_id <$> os)) `sublist_of` hash_iter n (dom (active_rows d)).
Proof.
  intros Hid Hd. unfold active_with_notes. generalize (hash_iter n (dom (active_rows d))). intros keys. revert os.
  induction keys as [|k keys IH]; intros os; simpl; [by intros ->%Forall2_nil_inv_l|].
  destruct (db_orders d !! k) as [r|] eqn:Hr; simpl; [|intros H2; by apply sublist_cons, IH].
  destruct (db_notes d !! k) as [note|]; simpl; [|intros H2; by apply sublist_cons, IH].
  intros (o & os' & Ho & H2 & ->)%Forall2_cons_inv_l. cbn [fmap list_fmap].
  destruct (Hd k r Hr) as (Hk & (i & a & b & Hi & Ha & Hb) & _). unfold ingest_order_of in Ho. simpl in Ho.
  rewrite Hi, Ha, Hb, !Hid in Ho. injection Ho as <-. simpl. rewrite <-Hk, Hi. apply sublist_skip. by apply IH.
Qed.

Lemma boot_agree `{HashIter} n prices tri router unix d :
  id_roundtrip → boot_ok d → agree_inv (solver_boot n prices tri router unix d).
Proof.
  intros Hid Hd%reset_ok_rows. unfold solver_boot. set (d' := (reset_all_settling_to_active d).1) in *.
  unfold load_active_orders_with_notes.
  destruct (collect_ok_some (λ p : OrderRow * Bytes, ingest_order_of p.1 p.2) (active_with_notes n d')) as (os & -> & H2).
  { intros [r raw] (k & note & Hr & _)%elem_of_active_with_notes. apply ingest_order_of_encoded; [done|]. by apply (Hd k). }
  split; simpl; try done. apply hydrate_terms; [..|by intros ? ? ?].
  - apply Forall_forall. intros o (m & Hm)%list_elem_of_lookup. destruct (Forall2_lookup_r _ _ _ _ _ H2 Hm) as ([r raw] & Hp & Ho).
    apply list_elem_of_lookup_2, elem_of_active_with_notes in Hp as (k & note & Hr & _ & Hn & <-).
    destruct (Hd k r Hr) as (_ & (i & a & b & Hi & Ha & Hb) & _ & _ & note' & Hn' & nt & p & Hread & Hp & E1 & E2 & E3 & E4).
    assert (note' = note) as -> by congruence. simpl in Ho. unfold ingest_order_of in Ho. rewrite Hi, Ha, Hb, !Hid in Ho. simpl in Ho.
    injection Ho as <-. exists nt, p. simpl. rewrite E2, E4. rewrite Ha in E1. rewrite Hb in E3.
    assert (∀ x y, id_bytes x = id_bytes y → x = y) as Hinj by (intros x y Hxy; pose proof (Hid x) as Hx; rewrite Hxy, Hid in Hx; congruence).
    split_and!; auto.
  - apply (NoDup_fmap_1 id_bytes). eapply sublist_NoDup; [|apply (loaded_keys n d' os Hid Hd H2)].
    rewrite hash_iter_perm. apply NoDup_elements.
  - by intros o _.
Qed.

Lemma boot_terms `{HashIter} n prices router unix d :
  id_roundtrip → boot_ok d → terms_inv (solver_boot n prices false router unix d).
Proof. intros Hid Hd. split; [done|by apply boot_agree|constructor]. Qed.
End boot.

