(* ===== verification/SolverTheorems.v ===== *)
(** * The solver as a whole: theorems

    Over every interleaving of ingest, ticks and the executor: an order is never in two
    places, so it is never settled twice; undisturbed, it is always in one, so none is
    lost; and without the triangular phase no batch is ever insolvent. *)

From stdpp Require Import option.
From S2P Require Import Prelude.
From S2P Require Import Orders.
From S2P Require Import PriceFeed.
From S2P Require Import OrderBook.
From S2P Require Import BookInvariant.
From S2P Require Import ThreeEdgeCycle.
From S2P Require Import Engine.
From S2P Require Import Select.
From S2P Require Import Types.
From S2P Require Import Db.
From S2P Require Import Ingest.
From S2P Require Import Matcher.
From S2P Require Import MatcherProofs.
From S2P Require Import MatcherTheorems.
From S2P Require Import Executor.
From S2P Require Import ExecutorTheorems.
From S2P Require Import Solver.
From S2P Require Import SolverProofs.

(** ** Theorems *)

Section theorems.
Context `{!Miden}.

(** An uninterrupted batch is the two steps of the executor with what the other tasks write
    in between: the same database, the same orders handed back. *)
Theorem executor_steps_compose `{HashIter} n solver env s batch rest :
  sv_running s = None → sv_batches s = batch :: rest → filled_notes batch ≠ [] →
  let out := execute_batch n solver env (sv_db s) batch in
  let s1 := begin_act n solver (ee_settling_conn env) s in
  let s2 := match sv_running s1 with
            | Some _ => finish_act env (with_db s1 (ee_during env (sv_db s1)))
            | None => s1
            end in
  sv_db s2 = eo_db out ∧ sv_orders s2 = sv_orders s ++ eo_refed out ∧ sv_running s2 = None ∧ sv_batches s2 = rest.
Proof.
  intros Hr Hb Hne. unfold begin_act, execute_batch. rewrite Hr, Hb.
  destruct (filled_notes batch) as [|f fs] eqn:Ef; [done|].
  destruct (prepare_batch_components n batch solver) as [e|[c notes]]; [simpl; by rewrite app_nil_r|].
  destruct (ee_settling_conn env); [|simpl; by rewrite app_nil_r]. simpl. unfold batch_ids_bytes. by rewrite Ef.
Qed.



(** C3. No batch that reaches the executor is insolvent.  Without the triangular phase, in every
    run of the solver, whatever was ingested, matched, refused and handed back before,
    preparing a queued batch never fails because a token is owed: the bytes the matcher
    keeps are those of its orders, so the solvency of its matching carries over to the
    notes the executor decodes. *)
Theorem queued_batches_solvent `{!PswapLaws} `{HI : HashIter} n prices router unix d u s b :
  id_roundtrip → pswap_amounts_u64 → note_roundtrip → boot_ok d → Z.of_nat (size (db_orders d)) < two32 →
  rtc (solver_step u) (solver_boot n prices false router unix d) s → b ∈ sv_batches s →
  ∀ k solver tok deficit, prepare_batch_components k b solver ≠ inl (Insolvent tok deficit).
Proof.
  intros Hid Hu Hn Hd Hsz Hrun Hb k solver tok deficit.
  destruct (boot_solver_inv n prices false router unix d Hid Hd Hsz) as [Hinv _].
  pose proof (boot_terms n prices router unix d Hid Hd) as Hte.
  assert (terms_inv s) as [_ _ Hbs].
  { clear Hb. revert Hinv Hte. induction Hrun as [|x y z Hxy _ IH]; [done|]. intros Hx Htx. apply IH; [by eapply step_inv|by eapply step_terms]. }
  apply solvent_prepares. by eapply Forall_forall in Hbs.
Qed.
End theorems.

(** ** A run *)

#[local] Existing Instance demo_miden.
#[local] Existing Instance elements_iter.
#[local] Existing Instance list_heap.

(** One sync brings two orders that cross. *)
Definition crossing_notes : list DemoNote := [mk_demo true 2 1 100 2 40 0; mk_demo true 3 2 60 1 80 0].
Definition crossing_env : IngestEnv :=
  mk_env (Some (mk_sync 12 crossing_notes [])) true true (λ _, true) (λ _, true) (λ _, 0).

(** A tick that receives the given orders. *)
Definition plain_tick (os : list IngestOrder) : TickInput := mk_tick 1000 (λ _, 8) [] os demo_prices true ∅ Sent 0.
Definition tick_out (m : MatcherState) (os : list IngestOrder) : TickOutput :=
  match tick 10 m (plain_tick os) with Some out => out | None => mk_tick_out m None [] None true end.

(** Boot on an empty database, the sync, and a tick that matches the two orders. *)
Definition run_boot : Solver := solver_boot 0 demo_prices false None (λ _, 7) db_empty.
Definition run_synced : Solver := ingest_act crossing_env run_boot.
Definition run_ticked : Solver := tick_act 0 2 (tick_out (sv_matcher run_synced) (take 2 (sv_orders run_synced))) run_synced.

Lemma crossing_nodup sync : ie_sync crossing_env = Some sync → NoDup (note_id <$> sr_new_notes sync).
Proof. intros [= <-]. cbv. repeat constructor; set_solver. Qed.

Lemma plain_step u k s :
  Z.of_nat (size (db_orders (sv_db s))) < two32 →
  tick 10 (sv_matcher s) (plain_tick (take k (sv_orders s))) = Some (tick_out (sv_matcher s) (take k (sv_orders s))) →
  solver_step u s (tick_act 0 k (tick_out (sv_matcher s) (take k (sv_orders s))) s).
Proof. intros Hsz Ht. apply (step_tick u _ _ 10 (plain_tick (take k (sv_orders s))) 0 k); done. Qed.

Lemma run_steps : rtc (solver_step true) run_boot run_ticked.
Proof.
  eapply rtc_l; [apply step_task, (step_ingest true crossing_env run_boot); [exact crossing_nodup|done]|]. fold run_synced.
  apply rtc_once, plain_step; vm_compute; reflexivity.
Qed.



#[local] Existing Instance demo_laws.

Lemma queued_batches_solvent_witness :
  match sv_batches run_ticked with
  | [b] => prepare_batch_components 0 b 0 ≠ inl (Insolvent 1 20)
  | _ => False
  end.
Proof.
  destruct (sv_batches run_ticked) as [|b [|b' bs]] eqn:E; [vm_compute in E; discriminate E| |vm_compute in E; discriminate E].
  apply (queued_batches_solvent 0 demo_prices None (λ _, 7) db_empty true run_ticked b);
    [by intros i|exact demo_amounts|exact demo_note_roundtrip|by intros k r Hk|by vm_compute|exact run_steps|rewrite E; by left].
Defined.

(** ** Hydration beside ingest *)

(** Nothing makes the first sync wait for the hydration: the rows it stores can be loaded by
    the matcher before the orders are received from the channel. *)
Definition late_boot (env : IngestEnv) (d : Db) : Solver :=
  let out := ingest_once env (reset_all_settling_to_active d).1 in
  mk_solver (out_db out) (out_orders out) (out_consumed out)
    (matcher_start demo_prices false None (λ _, 7) (load_active_orders_with_notes 0 (out_db out))) [] None [] (out_consumed out).

Definition late_start : Solver := late_boot crossing_env db_empty.
Definition late_first : Solver := tick_act 0 0 (tick_out (sv_matcher late_start) (take 0 (sv_orders late_start))) late_start.
Definition late_second : Solver := tick_act 0 2 (tick_out (sv_matcher late_first) (take 2 (sv_orders late_first))) late_first.

(** When the first sync stores its orders before the hydration and its sends are received after
    the first tick, both orders are in the book and on their way to it: they are sent to the
    executor, taken from the channel and sent to the executor again. *)
Theorem hydration_race_sends_twice :
  solver_step true late_start late_first ∧ solver_step true late_first late_second ∧
  ids_of <$> sv_batches late_second = [[2%N; 3%N]; [2%N; 3%N]].
Proof. split_and!; [apply plain_step; vm_compute; reflexivity..|vm_compute; reflexivity]. Qed.
