(* ===== verification/Restart.v ===== *)
(** * Crashes and restarts (pipeline.rs: prepare_db, start.rs)

    The solver keeps its book in memory and its orders in the database.  It may stop at any
    point and start again on what the database holds; here the steps of the running solver
    are interleaved with restarts. *)

From stdpp Require Import option.
From S2P Require Import Prelude.
From S2P Require Import Orders.
From S2P Require Import PriceFeed.
From S2P Require Import OrderBook.
From S2P Require Import BookInvariant.
From S2P Require Import Engine.
From S2P Require Import Types.
From S2P Require Import Db.
From S2P Require Import Ingest.
From S2P Require Import Matcher.
From S2P Require Import MatcherProofs.
From S2P Require Import MatcherTheorems.
From S2P Require Import Executor.
From S2P Require Import Solver.
From S2P Require Import SolverProofs.
From S2P Require Import SolverTheorems.

(** ** Steps *)

(** A crash loses everything but the database.  Between the two writes of a classification,
    or of an ingest iteration, the consumed notes are marked and nothing else is. *)
Definition crash_db (consumed : option (list Bytes)) (d : Db) : Db :=
  match consumed with
  | Some ids => (mark_orders_onchain_nullified d ids).1
  | None => d
  end.

Section restart.
Context `{!Miden}.

Inductive life_step : Solver → Solver → Prop :=
  | life_work u s s' : solver_step u s s' → life_step s s'
  | life_restart (HI : HashIter) n prices tri router unix consumed s :
      Z.of_nat (size (db_orders (sv_db s))) < two32 →
      life_step s (solver_boot n prices tri router unix (crash_db consumed (sv_db s))).

(** ** What the solver stores *)

(** Every order has its note, with the same terms, and every note its order. *)
Definition store_ok (d : Db) : Prop := boot_ok d ∧ dom (db_notes d) ⊆ dom (db_orders d).

Lemma relabelled_row d d' k r r' : db_notes d' = db_notes d → terms r' = terms r → row_ok d k r → row_ok d' k r'.
Proof.
  intros Hn Ht. unfold row_ok, encoded, row_terms. rewrite Hn. destruct r, r'. unfold terms in Ht. simpl in *. by simplify_eq.
Qed.

Lemma relabelled_store d d' : relabelled d d' → store_ok d → store_ok d'.
Proof.
  intros Hr [Hb Hd]. split.
  - intros k r' Hk. destruct (relabelled_Some d d' k r' Hr Hk) as (r & Hk' & Ht).
    eapply relabelled_row; [apply Hr|exact Ht|]. by apply Hb.
  - destruct Hr as [-> Hr]. intros k Hk%Hd. rewrite elem_of_dom in *. destruct Hk as [r Hk]. specialize (Hr k).
    rewrite Hk in Hr. by inversion Hr.
Qed.

(** What ingest prepares for a note are a row and a note that fit. *)
Lemma prepared_row now note x d :
  pswap_amounts_u64 → note_roundtrip → prepare_note now note = Some x →
  db_notes d !! or_note_id x.1.2 = Some x.1.1 → row_ok d (or_note_id x.1.2) x.1.2.
Proof.
  intros Hu Hn. unfold prepare_note. destruct (has_pswap_script note); [|done]. simpl.
  destruct (from_note note) as [o|] eqn:Ho; [|done]. intros [= <-]. simpl. intros Hl.
  destruct (from_note_amounts note o Hu Ho) as [? ?]. destruct (from_note_terms note o Ho) as (p & Hp & E1 & E2 & E3 & E4).
  unfold row_ok, encoded. simpl. rewrite !cast_roundtrip by u64. split_and!; [done|by eauto 7|lia|lia|].
  eexists. split; [exact Hl|]. exists note, p. simpl. rewrite !cast_roundtrip by u64. split_and!; [apply Hn|congruence..].
Qed.

Lemma insert_store env s d :
  id_roundtrip → pswap_amounts_u64 → note_roundtrip → NoDup (note_id <$> sr_new_notes s) → store_ok d →
  let prepared := prepare_notes (ie_now env) (sr_new_notes s) in
  store_ok (insert_notes_batch d prepared.*1.*1 prepared.*1.*2 (sr_block_num s)).1.
Proof.
  intros Hid Hu Hn Hnd [Hb Hd] prepared. destruct (prepared_keys_NoDup (ie_now env) (sr_new_notes s) Hid Hnd) as [Hno Hnn].
  fold prepared in Hno, Hnn. assert (filter (λ r, status_check r = true) prepared.*1.*2 = prepared.*1.*2) as Hv.
  { apply filter_all. intros r (y & -> & (z & -> & Hz)%list_elem_of_fmap)%list_elem_of_fmap. by eapply prepared_status. }
  assert (∀ x, x ∈ prepared → nr_note_id x.1.1 = or_note_id x.1.2) as Hkey.
  { intros x (i & note & _ & (-> & -> & _)%prepare_note_from)%elem_of_prepare_notes. done. }
  split.
  - intros k r. rewrite insert_batch_order, Hv. destruct (db_orders d !! k) as [r0|] eqn:Hk.
    + intros [= <-]. destruct (Hb k r0 Hk) as (? & ? & ? & ? & note & Hnote & ?). split_and!; [done..|]. exists note.
      by rewrite insert_batch_note, Hnote.
    + intros [(y & -> & (x & -> & Hx)%list_elem_of_fmap)%list_elem_of_fmap <-]%first_row_Some.
      destruct (elem_of_prepare_notes _ _ _ Hx) as (i & note & _ & Hp). eapply prepared_row; [done|done|exact Hp|].
      rewrite insert_batch_note, <-(Hkey x Hx).
      assert (db_notes d !! nr_note_id x.1.1 = None) as ->; [|apply head_filter_key; [done|by do 2 apply list_elem_of_fmap_2]].
      apply not_elem_of_dom. intros Hin%Hd%elem_of_dom. rewrite (Hkey x Hx), Hk in Hin. by destruct Hin.
  - intros k. rewrite !elem_of_dom, insert_batch_note, insert_batch_order, Hv.
    destruct (db_orders d !! k) as [r0|] eqn:Hk; [done|]. destruct (db_notes d !! k) as [note|] eqn:Hnote.
    + assert (k ∈ dom (db_notes d)) as Hin%Hd%elem_of_dom by (by apply elem_of_dom). rewrite Hk in Hin. by destruct Hin.
    + intros [y [<- (z & -> & (x & -> & Hx)%list_elem_of_fmap)%list_elem_of_fmap]%head_Some_elem_of%list_elem_of_filter].
      rewrite (Hkey x Hx). apply first_row_is_Some. by do 2 apply list_elem_of_fmap_2.
Qed.

Lemma ingest_store env d :
  id_roundtrip → pswap_amounts_u64 → note_roundtrip →
  (∀ sync, ie_sync env = Some sync → NoDup (note_id <$> sr_new_notes sync)) →
  store_ok d → store_ok (out_db (ingest_once env d)).
Proof.
  intros Hid Hu Hn Hnd Hd. unfold ingest_once. destruct (ie_sync env) as [sync|]; [|done].
  destruct (handle_consumed env d (sr_consumed_notes sync)) as [[d1 sent]|] eqn:Hc; [|done].
  assert (store_ok d1) as Hd1.
  { revert Hc. unfold handle_consumed. destruct (sr_consumed_notes sync); [by intros [= <- _]|].
    destruct (ie_consumed_conn env); [|done]. intros [= <- _]. eapply relabelled_store; [apply nullified_relabel|done]. }
  destruct (prepare_notes _ _) eqn:Hp; [done|]. rewrite <-Hp. destruct (ie_insert_conn env); [|done].
  pose proof (insert_store env sync d1 Hid Hu Hn (Hnd sync eq_refl) Hd1) as Hins. simpl in Hins.
  destruct (insert_notes_batch _ _ _ _). by destruct (forward_orders _ _ _ _).
Qed.

Lemma begin_relabel `{HashIter} n solver conn s : relabelled (sv_db s) (sv_db (begin_act n solver conn s)).
Proof.
  unfold begin_act. destruct (sv_running s); [done|]. destruct (sv_batches s) as [|b bs]; [done|].
  destruct (filled_notes b); [done|]. destruct (prepare_batch_components _ _ _) as [|[]]; [done|]. destruct conn; [|done].
  apply statuses_relabel.
Qed.

Lemma step_store u s s' :
  id_roundtrip → pswap_amounts_u64 → note_roundtrip → solver_step u s s' → store_ok (sv_db s) → store_ok (sv_db s').
Proof.
  intros Hid Hu Hn [? ? [env s1 Hnd _|HI n solver conn s1 _|env s1 _|d s1 Ho Hnotes|os s1 _]|]; [..|done|done].
  - by apply ingest_store.
  - apply relabelled_store, begin_relabel.
  - unfold finish_act. destruct (sv_running s1) as [[batch notes]|]; [|done]. apply relabelled_store, finish_relabel.
  - intros [Hb Hd]. simpl. split; [|by rewrite Ho, Hnotes]. intros k r. rewrite Ho. intros Hr.
    eapply relabelled_row; [exact Hnotes|reflexivity|]. by apply Hb.
Qed.

Lemma boot_store `{HashIter} n prices tri router unix d :
  store_ok d → store_ok (sv_db (solver_boot n prices tri router unix d)).
Proof. apply relabelled_store, update_where_relabel. Qed.

Lemma crash_relabel consumed d : relabelled d (crash_db consumed d).
Proof. destruct consumed; [apply nullified_relabel|done]. Qed.

Lemma relabelled_size d d' : relabelled d d' → size (db_orders d') = size (db_orders d).
Proof.
  intros Hr. rewrite <-!size_dom. f_equal. apply set_eq. intros k. rewrite !elem_of_dom, <-!not_eq_None_Some.
  by rewrite (relabelled_None d d' k Hr).
Qed.

(** Whatever happens, the store stays sound and every order is in one place. *)
Lemma life_inv s s' :
  id_roundtrip → pswap_amounts_u64 → note_roundtrip → life_step s s' →
  store_ok (sv_db s) ∧ solver_inv s → store_ok (sv_db s') ∧ solver_inv s'.
Proof.
  intros Hid Hu Hn [u s1 s2 Hstep|HI n prices tri router unix consumed s1 Hsz] [Hst Hinv].
  - split; [by eapply step_store|by eapply step_inv].
  - assert (store_ok (crash_db consumed (sv_db s1))) as Hc by (eapply relabelled_store; [apply crash_relabel|done]).
    split; [by apply boot_store|]. apply boot_solver_inv; [done|apply Hc|].
    by rewrite (relabelled_size _ _ (crash_relabel consumed (sv_db s1))).
Qed.

(** ** What a restart loads *)

Lemma hydrate_keeps unix os t id :
  id ∉ io_note_id <$> os → orders (tk_book (foldl (hydrate_order unix) t os)) !! id = orders (tk_book t) !! id.
Proof.
  revert t. induction os as [|o os IH]; intros t; cbn [foldl fmap list_fmap]; [done|].
  intros [Hne Hnot]%not_elem_of_cons. rewrite IH by done. simpl.
  destruct (add_user_order_fields (tk_book t) (io_note_id o) (io_offered_token o) (io_requested_token o)
    (io_offered_amount o) (io_requested_amount o)) as (-> & _).
  destruct (_ && negb _); [done|]. by rewrite lookup_insert_ne.
Qed.

(** Orders loaded under distinct ids into a book without them are in it as loaded. *)
Lemma hydrate_orders unix os t o :
  NoDup (io_note_id <$> os) → (∀ o', o' ∈ os → orders (tk_book t) !! io_note_id o' = None) → o ∈ os →
  orders (tk_book (foldl (hydrate_order unix) t os)) !! io_note_id o = Some (order_of o).
Proof.
  revert t. induction os as [|x os IH]; intros t; [by intros _ _ ?%elem_of_nil|]. rewrite fmap_cons.
  intros [Hnot Hnd]%NoDup_cons Habs Ho. cbn [foldl].
  assert (orders (tk_book (hydrate_order unix t x)) = <[io_note_id x := order_of x]> (orders (tk_book t))) as Ex.
  { simpl. destruct (add_user_order_fields (tk_book t) (io_note_id x) (io_offered_token x) (io_requested_token x)
      (io_offered_amount x) (io_requested_amount x)) as (-> & _). by rewrite (Habs x) by (by left). }
  apply elem_of_cons in Ho as [->|Ho].
  - rewrite hydrate_keeps, Ex by done. by rewrite lookup_insert_eq.
  - apply IH; [done| |done]. intros o' Ho'. rewrite Ex, lookup_insert_ne; [apply Habs; by right|].
    intros He. apply Hnot. rewrite He. by apply list_elem_of_fmap_2.
Qed.

(** The order a row stands for. *)
Definition row_order (r : OrderRow) (o : Order) : Prop :=
  or_note_id r = id_bytes (oid o) ∧
  or_offered_asset r = id_bytes (offered_token o) ∧ or_requested_asset r = id_bytes (requested_token o) ∧
  offered o = as_u64 (or_offered_amount r) ∧ requested o = as_u64 (or_requested_amount r) ∧
  requested_remaining o = requested o.

Lemma loaded_order r raw o : id_roundtrip → encoded r → ingest_order_of r raw = Some o → row_order r (order_of o).
Proof.
  intros Hid (i & a & b & Hi & Ha & Hb). unfold ingest_order_of, row_order. rewrite Hi, Ha, Hb, !Hid. by intros [= <-].
Qed.

(** An active row is in the book. *)
Lemma active_in_book `{HashIter} n prices tri router unix d k r :
  id_roundtrip → boot_ok d → db_orders d !! k = Some r → has_status Active r = true →
  ∃ o, row_order r o ∧
    orders (book (ms_engine (matcher_start prices tri router unix (load_active_orders_with_notes n d)))) !! oid o = Some o.
Proof.
  intros Hid Hd Hr Ha. unfold load_active_orders_with_notes.
  destruct (collect_ok_some (λ p : OrderRow * Bytes, ingest_order_of p.1 p.2) (active_with_notes n d)) as (os & -> & H2).
  { intros [r' raw] (k' & note & Hr' & _)%elem_of_active_with_notes. apply ingest_order_of_encoded; [done|]. by apply (Hd k'). }
  destruct (Hd k r Hr) as (_ & Henc & _ & _ & note & Hn & _).
  assert ((r, nr_raw_data note) ∈ active_with_notes n d) as (m & Hm)%list_elem_of_lookup
    by (apply elem_of_active_with_notes; eauto 6).
  destruct (Forall2_lookup_l _ _ _ _ _ H2 Hm) as (o & Hl%list_elem_of_lookup_2 & Ho). exists (order_of o).
  split; [by eapply loaded_order|]. apply (hydrate_orders unix os _ o); [|done|done].
  apply (NoDup_fmap_1 id_bytes). eapply sublist_NoDup; [|by apply (loaded_keys n d os)].
  rewrite hash_iter_perm. apply NoDup_elements.
Qed.

(** A settling row is made active first. *)
Lemma boot_book `{HashIter} n prices tri router unix d k r :
  id_roundtrip → boot_ok d → db_orders d !! k = Some r → has_status Active r || has_status Settling r = true →
  ∃ o, row_order r o ∧
    orders (book (ms_engine (sv_matcher (solver_boot n prices tri router unix d)))) !! oid o = Some o.
Proof.
  intros Hid Hd Hr Hs. set (r' := if has_status Settling r then with_status r Active else r).
  assert (db_orders (reset_all_settling_to_active d).1 !! k = Some r') as Hr'.
  { unfold reset_all_settling_to_active. by rewrite update_where_lookup, Hr. }
  assert (has_status Active r' = true) as Ha.
  { unfold r'. destruct (has_status Settling r); [by rewrite has_status_with_status|by rewrite orb_false_r in Hs]. }
  destruct (active_in_book n prices tri router unix _ k r' Hid (reset_ok_rows d Hd) Hr' Ha) as (o & Ho & Hin).
  exists o. split; [|exact Hin]. revert Ho. unfold r'. by destruct (has_status Settling r).
Qed.

(** ** Theorem *)

End restart.

(** ** A crash during a submission *)

#[local] Existing Instance demo_miden.
#[local] Existing Instance elements_iter.

(** Two crossing orders are matched and marked settling; the solver stops before the
    transaction ends and starts again. *)
Definition run_begun : Solver := begin_act 0 0 true run_ticked.
Definition run_restarted : Solver := solver_boot 0 demo_prices false None (λ _, 9) (sv_db run_begun).

Lemma restarted_steps : rtc life_step run_boot run_begun.
Proof.
  trans run_ticked; [|apply rtc_once, (life_work false), step_task, step_begin; done].
  apply (rtc_subrel (solver_step true) life_step); [intros ? ? ?; by eapply life_work|exact run_steps].
Qed.

