(* ===== verification/Config.v ===== *)
(** * Configuration (crates/solver/src/config.rs, the config types of pipeline.rs and start.rs)

    The fields of [solver.toml] with their defaults and validation, and what the parts of the
    solver get of them.  Reading TOML is the parser's; a parsed file is a record in which the
    fields with a default are optional. *)

From stdpp Require Import option.
From S2P Require Import Prelude.
From S2P Require Import Types.
From S2P Require Import Db.
From S2P Require Import Router.
From S2P Require Import Prices.
From S2P Require Import PriceApi.

(** ** The file *)

Record RpcConfig := mk_rpc { rpc_endpoint : string; rpc_timeout_ms : Z; rpc_prover_endpoint : option string }.

Record SolverAccountConfig := mk_account {
  sa_account_id : string;
  sa_keystore_path : string;
  sa_app_db_path : string;
  sa_executor_store_path : string;
  sa_ingest_store_path : string;
  sa_read_pool_size : Z;
}.

Record AssetPairConfig := mk_asset_pair {
  ap_name : string;
  ap_asset_x_faucet_id : string;
  ap_asset_x_external_symbol : option string;
  ap_asset_y_faucet_id : string;
  ap_asset_y_external_symbol : option string;
}.

Record EngineConfig := mk_engine_cfg {
  ec_pulse_interval_ms : Z;
  ec_fetch_interval_ms : Z;
  ec_price_interval_ms : Z;
  ec_triangular_enabled : bool;
  ec_admin_port : Z;
  ec_debug_mode : bool;
  ec_obs_port : Z;
  ec_readiness_freshness_secs : Z;
  ec_price_api_base_url : option string;
  ec_price_query_port : Z;
  ec_price_query_bind : string;
  ec_price_query_max_inflight : Z;
  ec_price_query_max_batch : Z;
  ec_price_query_timeout_ms : Z;
  ec_price_precision : string;
  ec_price_vs_currency : string;
  ec_price_staleness_secs : Z;
  ec_swap_proving_estimate_ms : Z;
  ec_swap_block_time_ms : Z;
  ec_swap_offmarket_tolerance_bps : Z;
  ec_router_enabled : bool;
  ec_router_bind : string;
  ec_router_port : Z;
  ec_router_max_connections : Z;
  ec_router_max_msg_bytes : Z;
  ec_router_quote_ttl_ms : Z;
  ec_router_inflight_ttl_ms : Z;
}.

Record SolverConfig := mk_solver_cfg {
  sc_rpc : RpcConfig;
  sc_solver : SolverAccountConfig;
  sc_pairs : list AssetPairConfig;
  sc_engine : EngineConfig;
}.

(** What the parser finds: [None] for a field the file leaves out. *)
Record RawEngine := mk_raw_engine {
  raw_pulse_interval_ms : Z;
  raw_fetch_interval_ms : Z;
  raw_price_interval_ms : Z;
  raw_triangular_enabled : option bool;
  raw_admin_port : option Z;
  raw_debug_mode : option bool;
  raw_obs_port : option Z;
  raw_readiness_freshness_secs : option Z;
  raw_price_api_base_url : option string;
  raw_price_query_port : option Z;
  raw_price_query_bind : option string;
  raw_price_query_max_inflight : option Z;
  raw_price_query_max_batch : option Z;
  raw_price_query_timeout_ms : option Z;
  raw_price_precision : option string;
  raw_price_vs_currency : option string;
  raw_price_staleness_secs : option Z;
  raw_swap_proving_estimate_ms : option Z;
  raw_swap_block_time_ms : option Z;
  raw_swap_offmarket_tolerance_bps : option Z;
  raw_router_enabled : option bool;
  raw_router_bind : option string;
  raw_router_port : option Z;
  raw_router_max_connections : option Z;
  raw_router_max_msg_bytes : option Z;
  raw_router_quote_ttl_ms : option Z;
  raw_router_inflight_ttl_ms : option Z;
}.

Record RawAccount := mk_raw_account {
  raw_account_id : string;
  raw_keystore_path : string;
  raw_app_db_path : string;
  raw_executor_store_path : string;
  raw_ingest_store_path : string;
  raw_read_pool_size : option Z;
}.

Record RawConfig := mk_raw {
  raw_rpc : RpcConfig;
  raw_solver : RawAccount;
  raw_pairs : list AssetPairConfig;
  raw_engine : RawEngine;
}.

(** ** Loading *)

(** The [default_*] functions. *)
Definition engine_of (r : RawEngine) : EngineConfig :=
  mk_engine_cfg
    (raw_pulse_interval_ms r)
    (raw_fetch_interval_ms r)
    (raw_price_interval_ms r)
    (default true (raw_triangular_enabled r))
    (default 3001 (raw_admin_port r))
    (default false (raw_debug_mode r))
    (default 9090 (raw_obs_port r))
    (default 60 (raw_readiness_freshness_secs r))
    (raw_price_api_base_url r)
    (default 8080 (raw_price_query_port r))
    (default "127.0.0.1"%string (raw_price_query_bind r))
    (default 128 (raw_price_query_max_inflight r))
    (default 50 (raw_price_query_max_batch r))
    (default 3000 (raw_price_query_timeout_ms r))
    (default "full"%string (raw_price_precision r))
    (default "usd"%string (raw_price_vs_currency r))
    (default 30 (raw_price_staleness_secs r))
    (default 2000 (raw_swap_proving_estimate_ms r))
    (default 6000 (raw_swap_block_time_ms r))
    (default 50 (raw_swap_offmarket_tolerance_bps r))
    (default false (raw_router_enabled r))
    (default "127.0.0.1"%string (raw_router_bind r))
    (default 8090 (raw_router_port r))
    (default 64 (raw_router_max_connections r))
    (default 16384 (raw_router_max_msg_bytes r))
    (default 20000 (raw_router_quote_ttl_ms r))
    (default 30000 (raw_router_inflight_ttl_ms r)).

Definition account_of (r : RawAccount) : SolverAccountConfig :=
  mk_account (raw_account_id r) (raw_keystore_path r) (raw_app_db_path r) (raw_executor_store_path r)
    (raw_ingest_store_path r) (default 4 (raw_read_pool_size r)).

Definition config_of (r : RawConfig) : SolverConfig :=
  mk_solver_cfg (raw_rpc r) (account_of (raw_solver r)) (raw_pairs r) (engine_of (raw_engine r)).

Definition validate (c : SolverConfig) : bool :=
  config_valid (ec_price_precision (sc_engine c)) (ec_price_vs_currency (sc_engine c)).

Inductive LoadError := ReadFailed | ParseFailed | Invalid.

(** [content] is the file, [parse] the TOML parser. *)
Definition load (parse : string → option RawConfig) (content : option string) : LoadError + SolverConfig :=
  match content with
  | None => inl ReadFailed
  | Some text =>
    match parse text with
    | None => inl ParseFailed
    | Some r => let c := config_of r in if validate c then inr c else inl Invalid
    end
  end.

(** ** What the parts get *)

Record PipelineConfig := mk_pipeline_cfg {
  pl_ingest_interval : Z;
  pl_price_interval : Z;
  pl_match_interval : Z;
  pl_initial_tokens : list (TokenId * option string);
  pl_admin_port : Z;
  pl_admin_token : option string;
  pl_triangular_enabled : bool;
}.

(** [PipelineConfig::new] on the data; intervals in milliseconds. *)
Definition pipeline_config (e : EngineConfig) (tokens : list (TokenId * option string)) (admin_token : option string) :
    PipelineConfig :=
  mk_pipeline_cfg (ec_fetch_interval_ms e) (ec_price_interval_ms e) (ec_pulse_interval_ms e) tokens (ec_admin_port e)
    admin_token (ec_triangular_enabled e).

(** The price-query API. *)
Definition price_api_config (e : EngineConfig) : PriceApiConfig :=
  mk_api_cfg (ec_price_query_bind e) (ec_price_query_port e) (ec_price_query_max_inflight e) (ec_price_query_max_batch e)
    (ec_price_query_timeout_ms e) (ec_price_vs_currency e) (ec_price_precision e) (ec_price_staleness_secs e)
    (ec_price_interval_ms e) (ec_pulse_interval_ms e) (ec_fetch_interval_ms e) (ec_swap_proving_estimate_ms e) (ec_swap_block_time_ms e)
    (ec_swap_offmarket_tolerance_bps e).

(** The tokens of [SOLVER_ROUTER_TOKENS]; [None] when it is not set. *)
Definition auth_tokens (var : option string) : list string :=
  filter (λ s, s ≠ ""%string)
    ((λ s, String.string_of_list_ascii (trim s)) <$> split_comma (String.list_ascii_of_string (default ""%string var)) []).

Definition router_config (e : EngineConfig) (var : option string) : RouterConfig :=
  mk_router_cfg (ec_router_bind e) (ec_router_port e) (ec_router_max_connections e) (ec_router_max_msg_bytes e)
    (ec_router_quote_ttl_ms e) (auth_tokens var).

(** The configured tokens; the first id that does not parse is the error. *)
Fixpoint initial_tokens (from_hex : string → option TokenId) (pairs : list AssetPairConfig) :
    string + list (TokenId * option string) :=
  match pairs with
  | [] => inr []
  | p :: rest =>
    match from_hex (ap_asset_x_faucet_id p) with
    | None => inl (ap_name p)
    | Some x =>
      match from_hex (ap_asset_y_faucet_id p) with
      | None => inl (ap_name p)
      | Some y =>
        match initial_tokens from_hex rest with
        | inl e => inl e
        | inr tokens => inr ((x, ap_asset_x_external_symbol p) :: (y, ap_asset_y_external_symbol p) :: tokens)
        end
      end
    end
  end.

(** ** Text lemmas *)

(** A token a list separated by commas can carry. *)
Definition clean (l : list Ascii.ascii) : Prop := l ≠ [] ∧ (comma ∉ l) ∧ trim l = l.

Lemma split_word l cur r : comma ∉ l → split_comma (l ++ (comma :: r)) cur = (reverse cur ++ l) :: (split_comma r []).
Proof.
  revert cur. induction l as [|c l IH]; intros cur; cbn [app split_comma]; [by rewrite decide_True, app_nil_r|].
  intros [Hc Hl]%not_elem_of_cons. rewrite decide_False by done. rewrite (IH (c :: cur) Hl), reverse_cons. by rewrite <-app_assoc.
Qed.

Lemma split_last l cur : comma ∉ l → split_comma l cur = [reverse cur ++ l].
Proof.
  revert cur. induction l as [|c l IH]; intros cur; cbn [split_comma]; [by rewrite app_nil_r|].
  intros [Hc Hl]%not_elem_of_cons. rewrite decide_False by done. rewrite (IH (c :: cur) Hl), reverse_cons. by rewrite <-app_assoc.
Qed.

(** Words joined by commas. *)
Fixpoint join_comma (ws : list (list Ascii.ascii)) : list Ascii.ascii :=
  match ws with
  | [] => []
  | [w] => w
  | w :: rest => w ++ comma :: join_comma rest
  end.

Lemma split_join ws : ws ≠ [] → Forall (λ w, comma ∉ w) ws → split_comma (join_comma ws) [] = ws.
Proof.
  intros Hne Hws. induction Hws as [|w ws Hw Hws IH]; [done|]. destruct ws as [|w' ws]; [apply split_last, Hw|].
  change (join_comma (w :: w' :: ws)) with (w ++ comma :: join_comma (w' :: ws)). rewrite split_word by done. by rewrite IH.
Qed.

Lemma of_to_string l : String.list_ascii_of_string (String.string_of_list_ascii l) = l.
Proof. apply String.list_ascii_of_string_of_list_ascii. Qed.

Lemma string_of_nil l : String.string_of_list_ascii l = ""%string ↔ l = [].
Proof. by destruct l. Qed.

(** Clean words listed in the variable are exactly the tokens. *)
Lemma auth_tokens_join ws :
  Forall clean ws → auth_tokens (Some (String.string_of_list_ascii (join_comma ws))) = String.string_of_list_ascii <$> ws.
Proof.
  intros Hws. destruct (decide (ws = [])) as [->|Hne]; [done|]. unfold auth_tokens. simpl. rewrite of_to_string, split_join; [|done|].
  - clear Hne. induction Hws as [|w ws (Hne & _ & Ht) _ IH]; [done|]. cbn [fmap list_fmap]. rewrite Ht, filter_cons, decide_True.
    + by rewrite IH.
    + by rewrite string_of_nil.
  - eapply Forall_impl; [exact Hws|]. by intros w (_ & ? & _).
Qed.

(** ** Theorems *)

(** The router admits exactly the configured clients: with the variable listing non-blank
    tokens separated by commas, a bearer is authorized if and only if its token is one of
    them; with the variable unset nobody is. *)
Theorem configured_tokens_admit e ws t :
  Forall clean ws →
  let var := String.string_of_list_ascii (join_comma ws) in
  (authorized (router_new (router_config e (Some var))) (Some t) = true ↔ String.list_ascii_of_string t ∈ ws) ∧
  ∀ header query, ws_handler (router_new (router_config e None)) header query = Unauthorized.
Proof.
  intros Hws var. split.
  - unfold authorized. cbn [router_new rs_cfg router_config rc_auth_tokens]. unfold var. rewrite auth_tokens_join by done.
    rewrite existsb_exists. split.
    + intros (a & Ha%list_elem_of_In & He%bool_decide_eq_true). apply list_elem_of_fmap in Ha as (w & -> & Hw).
      by rewrite <-He, of_to_string.
    + intros Ht. exists t. split; [|by apply bool_decide_eq_true]. apply list_elem_of_In, list_elem_of_fmap.
      exists (String.list_ascii_of_string t). by rewrite String.string_of_list_ascii_of_string.
  - intros header query. unfold ws_handler, authorized. by destruct (match bearer_from header with Some _ => _ | None => _ end).
Qed.

(** What [load] accepts is what runs: the precision of a loaded configuration parses, so the
    price API never falls back to its default, and the quote currency is not blank. *)
Theorem load_valid `{FL : Floats} `{!Miden} parse content c :
  load parse content = inr c →
  ∃ p, precision_parse (ec_price_precision (sc_engine c)) = Some p ∧ precision_ok p ∧
    trim (String.list_ascii_of_string (ec_price_vs_currency (sc_engine c))) ≠ [] ∧
    ∀ feed d ok swap stats, pa_default_precision (api_state (price_api_config (sc_engine c)) feed d ok swap stats) = p.
Proof.
  unfold load. destruct content as [text|]; [|done]. destruct (parse text) as [r|]; [|done].
  destruct (validate (config_of r)) eqn:Hv; [|done]. intros [= <-].
  apply andb_true_iff in Hv as [[p Hp]%bool_decide_eq_true Hc%negb_true_iff%bool_decide_eq_false].
  exists p. split_and!; [done| |done|intros; unfold api_state; cbn [pa_default_precision price_api_config pc_precision]; by rewrite Hp].
  revert Hp. unfold precision_parse. destruct (eq_ignore_ascii_case _ _); [by intros [= <-]|].
  destruct (parse_uint 255 _) as [n|] eqn:En; [|done]. simpl. destruct (Z.leb_spec n 18); [|done]. intros [= <-].
  apply parse_uint_range in En; simpl; lia.
Qed.

(** ** Instances *)

Definition demo_engine : EngineConfig :=
  engine_of (mk_raw_engine 200 100 60000 None None None None None None None None None None None None None None None None
    None (Some true) None None None None None None).

Lemma configured_tokens_admit_witness :
  auth_tokens (Some " alpha, ,beta"%string) = ["alpha"%string; "beta"%string] ∧
  (authorized (router_new (router_config demo_engine (Some "alpha,beta"%string))) (Some "beta"%string) = true ↔
    String.list_ascii_of_string "beta" ∈ [String.list_ascii_of_string "alpha"; String.list_ascii_of_string "beta"]).
Proof.
  split; [reflexivity|].
  apply (configured_tokens_admit demo_engine [String.list_ascii_of_string "alpha"; String.list_ascii_of_string "beta"]).
  repeat constructor; try discriminate; apply (bool_decide_unpack (comma ∉ _)); vm_compute; exact I.
Defined.
