(* ===== verification/Startup.v ===== *)
(** * Start-up and shutdown (start.rs, spawn_ingest_thread, spawn_executor_thread,
      spawn_price_api_thread, spawn_router_thread)

    [start] brings up the services and four threads, waits until each thread reports that it
    is ready, and takes everything down again when something stops.  A client thread runs two
    tasks and drains them when it ends; tasks and thread body interleave. *)

From stdpp Require Import option.
From S2P Require Import Prelude.
From S2P Require Import Config.

(** ** Threads and their readiness *)

Inductive Thread := IngestThread | ExecutorThread | PriceApiThread | RouterThread.

#[export] Instance Thread_eq_dec : EqDecision Thread.
Proof. solve_decision. Defined.

Inductive Stage := Runtime | BuildClient | BuildRpc | SpawnTasks | BindAddress | Bind.

(** What arrives on the readiness channel; [NoSignal] when its sender is dropped. *)
Inductive Ready := SignalOk | SignalErr (stage : Stage) | NoSignal.

(** [spawn_ingest_thread] up to the signal: without a runtime nothing is sent. *)
Definition ingest_ready (runtime build rpc tasks : bool) : Ready :=
  if negb runtime then NoSignal
  else if negb build then SignalErr BuildClient
  else if negb rpc then SignalErr BuildRpc
  else if negb tasks then SignalErr SpawnTasks
  else SignalOk.

(** [spawn_executor_thread] up to the signal. *)
Definition executor_ready (runtime build rpc : bool) : Ready :=
  if negb runtime then NoSignal
  else if negb build then SignalErr BuildClient
  else if negb rpc then SignalErr BuildRpc
  else SignalOk.

(** [spawn_price_api_thread] and [spawn_router_thread] up to the signal. *)
Definition server_ready (runtime address bind : bool) : Ready :=
  if negb runtime then SignalErr Runtime
  else if negb address then SignalErr BindAddress
  else if negb bind then SignalErr Bind
  else SignalOk.

(** ** [start] *)

Inductive StartError :=
  | InitDb
  | PriceClientFailed
  | BadPair (name : string)
  | PrepareDb
  | SpawnFailed (t : Thread)
  | NotReady (t : Thread) (stage : Stage)
  | Exited (t : Thread).

Inductive Event := Services | Spawned (t : Thread) | Running | Cancel | Joined (t : Thread).

Record StartEnv := mk_start_env {
  se_init_db : bool;
  se_price_client : bool;
  se_prepare_db : bool;
  se_spawn : Thread → bool;
  se_ready : Thread → Ready;
}.

(** The startup gate: the threads in the order they are awaited. *)
Fixpoint gate (ready : Thread → Ready) (ts : list Thread) : StartError + unit :=
  match ts with
  | [] => inr tt
  | t :: rest =>
    match ready t with
    | SignalOk => gate ready rest
    | SignalErr stage => inl (NotReady t stage)
    | NoSignal => inl (Exited t)
    end
  end.

(** Cancel, then join. *)
Definition tear_down (ts : list Thread) : list Event := Cancel :: (Joined <$> ts).

(** From the gate on.  A started solver runs until one of its services or threads stops or
    the token is cancelled. *)
Definition supervise (ready : Thread → Ready) (ts : list Thread) : (StartError + unit) * list Event :=
  match gate ready ts with
  | inl e => (inl e, tear_down ts)
  | inr _ => (inr tt, Running :: tear_down ts)
  end.

Definition client_threads : list Thread := [IngestThread; ExecutorThread; PriceApiThread].

(** The router is spawned last; when that fails the others are taken down. *)
Definition start_router (env : StartEnv) (enabled : bool) : (StartError + unit) * list Event :=
  if enabled then
    if se_spawn env RouterThread then
      let '(r, tr) := supervise (se_ready env) (client_threads ++ [RouterThread]) in (r, Spawned RouterThread :: tr)
    else (inl (SpawnFailed RouterThread), tear_down client_threads)
  else supervise (se_ready env) client_threads.

(** The three threads; a failure to spawn one returns at once. *)
Fixpoint start_threads (env : StartEnv) (enabled : bool) (ts : list Thread) : (StartError + unit) * list Event :=
  match ts with
  | [] => start_router env enabled
  | t :: rest =>
    if se_spawn env t then let '(r, tr) := start_threads env enabled rest in (r, Spawned t :: tr)
    else (inl (SpawnFailed t), [])
  end.

Definition start (from_hex : string → option TokenId) (env : StartEnv) (c : SolverConfig) : (StartError + unit) * list Event :=
  if negb (se_init_db env) then (inl InitDb, [])
  else if negb (se_price_client env) then (inl PriceClientFailed, [])
  else match initial_tokens from_hex (sc_pairs c) with
  | inl name => (inl (BadPair name), [])
  | inr _ =>
    if negb (se_prepare_db env) then (inl PrepareDb, [])
    else let '(r, tr) := start_threads env (ec_router_enabled (sc_engine c)) client_threads in (r, Services :: tr)
  end.

(** ** A client thread *)

(** A task between iterations, in one, finished, or dropped at an await point; [mid] tells
    whether an iteration was under way. *)
Inductive Task := Idle | Working | Done | Dropped (mid : bool).

(** The thread body: in its [select!], past the guard of a handle, awaiting it, at its end,
    or panicked because a handle was polled after completion. *)
Inductive Body := Selecting | Guard (i : bool) | Awaiting (i : bool) | Ended | Panicked.

#[export] Instance Body_eq_dec : EqDecision Body.
Proof. solve_decision. Defined.

(** The two tasks are told apart by a boolean.  [ct_polled] is whether a handle has yielded
    its result, [ct_abort] whether the tasks were aborted. *)
Record ClientThread := mk_client {
  ct_cancel : bool;
  ct_task : bool → Task;
  ct_polled : bool → bool;
  ct_abort : bool;
  ct_body : Body;
}.

Definition client_new : ClientThread := mk_client false (λ _, Idle) (λ _, false) false Selecting.

Definition set_at {A} (f : bool → A) (i : bool) (x : A) : bool → A := λ j, if Bool.eqb i j then x else f j.

Definition is_finished (s : ClientThread) (i : bool) : bool :=
  match ct_task s i with Done | Dropped _ => true | _ => false end.

Definition with_task (s : ClientThread) (i : bool) (t : Task) : ClientThread :=
  mk_client (ct_cancel s) (set_at (ct_task s) i t) (ct_polled s) (ct_abort s) (ct_body s).
Definition with_body (s : ClientThread) (b : Body) : ClientThread :=
  mk_client (ct_cancel s) (ct_task s) (ct_polled s) (ct_abort s) b.

Definition after (i : bool) : Body := if i then Ended else Guard true.

(** Polling a handle. *)
Definition poll_handle (s : ClientThread) (i : bool) (next : Body) : ClientThread :=
  if ct_polled s i then with_body s Panicked
  else mk_client (ct_cancel s) (ct_task s) (set_at (ct_polled s) i true) (ct_abort s) next.

(** The end of the [select!]: the token is cancelled and both tasks are aborted. *)
Definition leave_select (s : ClientThread) : ClientThread :=
  mk_client true (ct_task s) (ct_polled s) true (ct_body s).

Inductive ClientAct :=
  | CancelAll
  | BeginIteration (i : bool)
  | EndIteration (i : bool)
  | ExitTask (i : bool)
  | DropTask (i : bool)
  | SelectCancelled
  | SelectFinished (i : bool)
  | Drain.

(** [None] when the action is not possible. *)
Definition client_act (s : ClientThread) (a : ClientAct) : option ClientThread :=
  match a with
  | CancelAll => Some (mk_client true (ct_task s) (ct_polled s) (ct_abort s) (ct_body s))
  | BeginIteration i => match ct_task s i with Idle => Some (with_task s i Working) | _ => None end
  | EndIteration i => match ct_task s i with Working => Some (with_task s i Idle) | _ => None end
  | ExitTask i => match ct_task s i with Idle | Working => Some (with_task s i Done) | _ => None end
  | DropTask i =>
    if ct_abort s then
      match ct_task s i with
      | Idle => Some (with_task s i (Dropped false))
      | Working => Some (with_task s i (Dropped true))
      | _ => None
      end
    else None
  | SelectCancelled =>
    match ct_body s with Selecting => if ct_cancel s then Some (leave_select (with_body s (Guard false))) else None | _ => None end
  | SelectFinished i =>
    match ct_body s with
    | Selecting => if is_finished s i then Some (leave_select (poll_handle s i (Guard false))) else None
    | _ => None
    end
  | Drain =>
    match ct_body s with
    | Guard i => Some (with_body s (if is_finished s i then after i else Awaiting i))
    | Awaiting i => if is_finished s i then Some (poll_handle s i (after i)) else None
    | _ => None
    end
  end.

Definition client_step (s s' : ClientThread) : Prop := ∃ a, client_act s a = Some s'.

(** ** Start-up lemmas *)

Definition spawned_of (tr : list Event) : list Thread := omap (λ e, match e with Spawned t => Some t | _ => None end) tr.
Definition joined_of (tr : list Event) : list Thread := omap (λ e, match e with Joined t => Some t | _ => None end) tr.

Lemma spawned_app a b : spawned_of (a ++ b) = spawned_of a ++ spawned_of b.
Proof. apply omap_app. Qed.

Lemma joined_app a b : joined_of (a ++ b) = joined_of a ++ joined_of b.
Proof. apply omap_app. Qed.

Lemma joined_tear_down ts : joined_of (tear_down ts) = ts.
Proof. unfold joined_of, tear_down. simpl. induction ts; simpl; [done|]. by f_equal. Qed.

Lemma spawned_tear_down ts : spawned_of (tear_down ts) = [].
Proof. unfold spawned_of, tear_down. simpl. by induction ts. Qed.

(** The gate opens when every thread is ready, and reports the first that is not. *)
Lemma gate_spec ready ts :
  match gate ready ts with
  | inr _ => Forall (λ t, ready t = SignalOk) ts
  | inl e => ∃ pre t post, ts = pre ++ t :: post ∧ Forall (λ t, ready t = SignalOk) pre ∧
      match ready t with SignalOk => False | SignalErr stage => e = NotReady t stage | NoSignal => e = Exited t end
  end.
Proof.
  induction ts as [|t ts IH]; cbn [gate]; [constructor|]. destruct (ready t) as [|stage|] eqn:Et.
  - destruct (gate ready ts) as [e|]; [|by constructor]. destruct IH as (pre & x & post & -> & Hpre & Hx).
    exists (t :: pre), x, post. split_and!; [done|by constructor|done].
  - exists [], t, ts. by rewrite Et.
  - exists [], t, ts. by rewrite Et.
Qed.

(** A supervised run: what was spawned before is joined after the cancellation. *)
Definition taken_down (before : list Thread) (tr : list Event) : Prop :=
  ∃ up ts, tr = up ++ tear_down ts ∧ joined_of up = [] ∧ (Cancel ∉ up) ∧ ts = before ++ spawned_of up ∧ NoDup ts.

Lemma supervise_taken_down ready ts : NoDup ts → taken_down ts (supervise ready ts).2.
Proof.
  intros Hnd. unfold supervise. destruct (gate ready ts); [exists [], ts|exists [Running], ts]; simpl;
    rewrite ?app_nil_r; split_and!; try done; set_solver.
Qed.

Lemma taken_down_spawned before t tr :
  taken_down (before ++ [t]) tr → taken_down before (Spawned t :: tr).
Proof.
  intros (up & ts & -> & Hj & Hc & -> & Hnd). exists (Spawned t :: up), ((before ++ [t]) ++ spawned_of up).
  split_and!; [done|done|set_solver|by rewrite <-app_assoc|done].
Qed.

Lemma client_threads_nodup : NoDup (client_threads ++ [RouterThread]).
Proof. repeat constructor; set_solver. Qed.

Lemma router_taken_down env enabled : taken_down client_threads (start_router env enabled).2.
Proof.
  pose proof client_threads_nodup as Hnd. pose proof (proj1 (proj1 (NoDup_app _ _) Hnd)) as Hnd'. unfold start_router.
  destruct enabled; [destruct (se_spawn env RouterThread)|].
  - pose proof (supervise_taken_down (se_ready env) _ Hnd) as Ht. destruct (supervise _ _) as [r tr]. by apply taken_down_spawned.
  - exists [], client_threads. split_and!; try done; set_solver.
  - by apply supervise_taken_down.
Qed.

Lemma threads_taken_down env enabled before ts :
  before ++ ts = client_threads → Forall (λ t, se_spawn env t = true) ts →
  taken_down before (start_threads env enabled ts).2.
Proof.
  intros Hb Hs. revert before Hb. induction Hs as [|t ts Ht _ IH]; intros before Hb; cbn [start_threads].
  - rewrite app_nil_r in Hb. subst before. apply router_taken_down.
  - rewrite Ht. specialize (IH (before ++ [t])). rewrite <-app_assoc in IH. specialize (IH Hb).
    destruct (start_threads env enabled ts) as [r tr]. by apply taken_down_spawned.
Qed.

(** ** Client-thread invariant *)

Record client_inv (s : ClientThread) : Prop := {
  ci_polled : ∀ i, ct_polled s i = true → is_finished s i = true;
  ci_select : ct_body s = Selecting → ct_abort s = false ∧ ∀ i, ct_polled s i = false;
  ci_drain : ct_body s ≠ Selecting → ct_abort s = true ∧ ct_cancel s = true;
  ci_await : ∀ i, ct_body s = Awaiting i → ct_polled s i = false;
  ci_first : ct_body s = Guard true ∨ ct_body s = Awaiting true ∨ ct_body s = Ended → is_finished s false = true;
  ci_ended : ct_body s = Ended → is_finished s true = true;
  ci_panic : ct_body s ≠ Panicked;
}.

Lemma is_finished_with_task s i t j :
  is_finished (with_task s i t) j = if Bool.eqb i j then match t with Done | Dropped _ => true | _ => false end else is_finished s j.
Proof. unfold is_finished, with_task, set_at. simpl. by destruct (Bool.eqb i j). Qed.

(** A task that moves on while it is not finished. *)
Lemma task_inv s i t : is_finished s i = false → client_inv s → client_inv (with_task s i t).
Proof.
  intros Hi [Hp Hs Hd Ha Hf He Hn].
  assert (∀ j, is_finished s j = true → is_finished (with_task s i t) j = true) as Hmono.
  { intros j Hj. rewrite is_finished_with_task. destruct (Bool.eqb_spec i j) as [->|]; [congruence|done]. }
  split; simpl; auto.
Qed.

Lemma poll_unpolled s i b :
  ct_polled s i = false → poll_handle s i b = mk_client (ct_cancel s) (ct_task s) (set_at (ct_polled s) i true) (ct_abort s) b.
Proof. intros Hp. unfold poll_handle. by rewrite Hp. Qed.

Lemma set_polled s i j : set_at (ct_polled s) i true j = true → i = j ∨ ct_polled s j = true.
Proof. unfold set_at. destruct (Bool.eqb_spec i j); auto. Qed.

Lemma leave_inv s polled :
  client_inv s → ct_body s = Selecting → (∀ i, polled i = true → is_finished s i = true) →
  client_inv (mk_client true (ct_task s) polled true (Guard false)).
Proof. intros Hs Hb Hp. split; simpl; try done; by intros [|[|]]. Qed.

Lemma client_drain_inv s s' : client_inv s → client_act s Drain = Some s' → client_inv s'.
Proof.
  intros Hs. pose proof Hs as [Hp Hsel Hd Ha Hf He Hn]. cbn [client_act]. destruct (ct_body s) as [|i|i| |] eqn:Eb; try done.
  - intros [= <-]. destruct (Hd ltac:(done)) as [? ?]. destruct (is_finished s i) eqn:Ei.
    + destruct i; split; simpl; auto; try done; intros; by intuition congruence.
    + assert (ct_polled s i = false) as Hi by (destruct (ct_polled s i) eqn:E; [rewrite Hp in Ei; done|done]).
      split; simpl; auto; try done; [by intros j [= <-]|]. intros [?|[[= ->]|?]]; try done. apply Hf. by left.
  - destruct (is_finished s i) eqn:Ei; [|done]. rewrite poll_unpolled by auto. intros [= <-]. destruct (Hd ltac:(done)) as [? ?].
    destruct i; split; simpl; auto; try done; try (intros j [<-|?]%set_polled; [done|by apply (Hp j)]);
      intros _; first [exact Ei|apply Hf; by auto].
Qed.

Lemma client_step_inv s s' : client_step s s' → client_inv s → client_inv s'.
Proof.
  intros [a Ha] Hs. pose proof Hs as [Hp Hsel Hd Haw Hf He Hn]. destruct a as [|i|i|i|i| |i|]; [..|by eapply client_drain_inv]; cbn [client_act] in Ha.
  - injection Ha as <-. split; simpl; auto. intros Hb. by destruct (Hd Hb).
  - destruct (ct_task s i) eqn:Et; try done. injection Ha as <-. apply task_inv; [unfold is_finished; by rewrite Et|done].
  - destruct (ct_task s i) eqn:Et; try done. injection Ha as <-. apply task_inv; [unfold is_finished; by rewrite Et|done].
  - destruct (ct_task s i) eqn:Et; try done; injection Ha as <-; (apply task_inv; [unfold is_finished; by rewrite Et|done]).
  - destruct (ct_abort s); [|done].
    destruct (ct_task s i) eqn:Et; try done; injection Ha as <-; (apply task_inv; [unfold is_finished; by rewrite Et|done]).
  - destruct (ct_body s) eqn:Eb; try done. destruct (ct_cancel s); [|done]. injection Ha as <-. by apply (leave_inv s).
  - destruct (ct_body s) eqn:Eb; try done. destruct (is_finished s i) eqn:Ei; [|done]. injection Ha as <-.
    destruct (Hsel eq_refl) as [_ Hnp]. rewrite poll_unpolled by auto. apply (leave_inv s); [done|done|].
    intros j [<-|?]%set_polled; [done|auto].
Qed.

(** ** Reaching the end *)

Lemma finish_task s i :
  ct_abort s = true → ∃ s', rtc client_step s s' ∧ is_finished s' i = true ∧ ct_abort s' = true ∧ ct_body s' = ct_body s ∧
    (∀ j, is_finished s j = true → is_finished s' j = true).
Proof.
  intros Ha. destruct (is_finished s i) eqn:Ei; [exists s; by split_and!|].
  assert (∃ t, client_act s (DropTask i) = Some (with_task s i (Dropped t))) as [t Ht].
  { cbn [client_act]. rewrite Ha. unfold is_finished in Ei. destruct (ct_task s i); try done; by eexists. }
  exists (with_task s i (Dropped t)). split_and!; [apply rtc_once; by exists (DropTask i)| |done|done|].
  - by rewrite is_finished_with_task, eqb_reflx.
  - intros j Hj. rewrite is_finished_with_task. destruct (Bool.eqb_spec i j); [done|done].
Qed.

(** One step of the drain, once both tasks are finished. *)
Lemma drain_progress s :
  client_inv s → (∀ i, is_finished s i = true) → ct_body s ≠ Selecting → ct_body s ≠ Ended →
  ∃ s', client_act s Drain = Some s' ∧ (∀ i, is_finished s' i = true) ∧
    match ct_body s with Guard i | Awaiting i => ct_body s' = after i | _ => False end.
Proof.
  intros [_ _ _ Ha _ _ Hn] Hf Hs He. cbn [client_act]. destruct (ct_body s) as [|i|i| |] eqn:Eb; try done; rewrite Hf; eexists; (split; [done|]).
  - by split.
  - rewrite poll_unpolled by auto. by split.
Qed.

Lemma drains s : client_inv s → ct_body s ≠ Selecting → ∃ s', rtc client_step s s' ∧ ct_body s' = Ended.
Proof.
  intros Hs Hb. destruct (ci_drain s Hs Hb) as [Ha _].
  destruct (finish_task s false Ha) as (s1 & H1 & Hf1 & Ha1 & Hb1 & _).
  destruct (finish_task s1 true Ha1) as (s2 & H2 & Hf2 & _ & Hb2 & Hk2).
  assert (rtc client_step s s2) as H02 by by etrans. rewrite Hb1 in Hb2.
  assert (client_inv s2) as Hs2.
  { clear -Hs H02. induction H02 as [|x y z Hxy _ IH]; [done|]. by eapply IH, client_step_inv. }
  assert (∀ i, is_finished s2 i = true) as Hf by (intros []; auto). rewrite <-Hb2 in Hb.
  assert (∀ x i, client_inv x → (∀ j, is_finished x j = true) → ct_body x = Guard i ∨ ct_body x = Awaiting i →
    ∃ y, client_step x y ∧ client_inv y ∧ (∀ j, is_finished y j = true) ∧ ct_body y = after i) as Hgo.
  { intros x i Hx Hfx Hbx. destruct (drain_progress x Hx Hfx) as (y & Hy & Hfy & Hby); [by destruct Hbx as [-> | ->]..|].
    exists y. assert (client_step x y) by by exists Drain. split_and!; [done|by eapply client_step_inv|done|].
    by destruct Hbx as [E|E]; rewrite E in Hby. }
  assert (∀ x, client_inv x → (∀ j, is_finished x j = true) → ct_body x = Guard true ∨ ct_body x = Awaiting true →
    ∃ y, rtc client_step x y ∧ ct_body y = Ended) as Hlast.
  { intros x Hx Hfx Hbx. destruct (Hgo x true Hx Hfx Hbx) as (y & Hy & _ & _ & Hby). exists y. split; [by apply rtc_once|done]. }
  assert (∃ y, rtc client_step s2 y ∧ ct_body y = Ended) as (y & Hy & Hby); [|exists y; split; [by etrans|done]].
  destruct (ct_body s2) as [|[]|[]| |] eqn:Eb; [done|by auto| |by auto| |by exists s2|by destruct (ci_panic s2 Hs2)].
  all: destruct (Hgo s2 false Hs2 Hf) as (y & Hy & Hiy & Hfy & Hby); [by auto|].
  all: destruct (Hlast y Hiy Hfy) as (z & Hz & Hbz); [by left|]; exists z; split; [by eapply rtc_l|done].
Qed.

(** ** Theorems *)

Lemma cancel_before_join up ts pre t post :
  joined_of up = [] → up ++ tear_down ts = pre ++ Joined t :: post → Cancel ∈ pre.
Proof.
  revert pre. induction up as [|e up IH]; intros pre Hj; cbn [app].
  - destruct pre as [|x pre]; [done|]. intros [= <- _]. by left.
  - assert (joined_of up = []) as Hj' by (destruct e; done). destruct pre as [|x pre]; [intros [= -> _]; done|].
    intros [= <- He]. right. by eapply IH.
Qed.

Lemma taken_down_accounts tr :
  taken_down [] tr →
  (spawned_of tr = joined_of tr ∧ NoDup (joined_of tr)) ∧ ∀ pre t post, tr = pre ++ Joined t :: post → Cancel ∈ pre.
Proof.
  intros (up & ts & -> & Hj & _ & Hts & Hnd). simpl in Hts.
  assert (joined_of (up ++ tear_down ts) = ts) as -> by (by rewrite joined_app, Hj, joined_tear_down).
  assert (spawned_of (up ++ tear_down ts) = ts) as -> by (by rewrite spawned_app, spawned_tear_down, app_nil_r).
  split; [done|]. intros pre t post He. by eapply cancel_before_join.
Qed.

(** The threads of a configuration. *)
Definition all_threads (enabled : bool) : list Thread := client_threads ++ (if enabled then [RouterThread] else []).

Lemma supervise_ok ready ts : (supervise ready ts).1 = inr tt ↔ Forall (λ t, ready t = SignalOk) ts.
Proof.
  unfold supervise. pose proof (gate_spec ready ts) as Hg. destruct (gate ready ts) as [e|u]; simpl; [|done].
  split; [done|]. destruct Hg as (pre & t & post & -> & _ & Ht). intros [_ [He _]%Forall_cons]%Forall_app. by rewrite He in Ht.
Qed.

Lemma router_ok env enabled :
  (start_router env enabled).1 = inr tt ↔
  (enabled = true → se_spawn env RouterThread = true) ∧ Forall (λ t, se_ready env t = SignalOk) (all_threads enabled).
Proof.
  unfold start_router, all_threads. destruct enabled; [destruct (se_spawn env RouterThread)|].
  - pose proof (supervise_ok (se_ready env) (client_threads ++ [RouterThread])) as Hs. destruct (supervise _ _) as [r tr].
    simpl fst in *. rewrite Hs. tauto.
  - split; [done|]. intros [Hr _]. by specialize (Hr eq_refl).
  - rewrite supervise_ok, app_nil_r. naive_solver.
Qed.

Lemma threads_ok env enabled ts :
  Forall (λ t, se_spawn env t = true) ts → (start_threads env enabled ts).1 = (start_router env enabled).1.
Proof.
  induction 1 as [|t ts Ht _ IH]; cbn [start_threads]; [done|]. rewrite Ht. by destruct (start_threads env enabled ts).
Qed.

(** Start-up is supervised.  When the operating system can create the client threads,
    [start] leaves no thread behind: every thread it spawned is joined, once, and never
    before the cancellation that makes it end, whether a later step failed, a thread was not
    ready or the solver ran and stopped.  It succeeds exactly when every step does and every
    thread, the router's included when it is enabled, reports that it is ready. *)
Theorem start_supervised from_hex env c :
  Forall (λ t, se_spawn env t = true) client_threads →
  let out := start from_hex env c in
  let enabled := ec_router_enabled (sc_engine c) in
  ((spawned_of out.2 = joined_of out.2 ∧ NoDup (joined_of out.2)) ∧
   ∀ pre t post, out.2 = pre ++ Joined t :: post → Cancel ∈ pre) ∧
  (out.1 = inr tt ↔
    se_init_db env = true ∧ se_price_client env = true ∧ (∃ tokens, initial_tokens from_hex (sc_pairs c) = inr tokens) ∧
    se_prepare_db env = true ∧ (enabled = true → se_spawn env RouterThread = true) ∧
    Forall (λ t, se_ready env t = SignalOk) (all_threads enabled)).
Proof.
  intros Hs out enabled. unfold out, start.
  assert ((spawned_of [] = joined_of [] ∧ NoDup (joined_of [])) ∧ ∀ pre t post, [] = pre ++ Joined t :: post → Cancel ∈ pre) as Hnil.
  { split; [split; [done|constructor]|]. by intros [] ? ?. }
  destruct (se_init_db env); [|split; [exact Hnil|naive_solver]]. destruct (se_price_client env); [|split; [exact Hnil|naive_solver]].
  destruct (initial_tokens from_hex (sc_pairs c)) as [e|tokens]; [split; [exact Hnil|naive_solver]|].
  destruct (se_prepare_db env); [|split; [exact Hnil|naive_solver]]. fold enabled.
  pose proof (threads_taken_down env enabled [] client_threads eq_refl Hs) as Htd.
  pose proof (threads_ok env enabled client_threads Hs) as Hok. pose proof (router_ok env enabled) as Hr. rewrite <-Hok in Hr.
  destruct (start_threads env enabled client_threads) as [r tr]. cbn [fst snd negb] in *. split.
  - apply taken_down_accounts in Htd as [[He Hn] Hc]. split; [by split|]. intros [|x pre] t post; [done|].
    intros [= <- Hpost]. right. by eapply Hc.
  - rewrite Hr. naive_solver.
Qed.

(** A thread that cannot be created is the exception: the threads before it are neither
    cancelled nor joined when [start] returns. *)
Theorem executor_spawn_failure_orphans from_hex env c tokens :
  se_init_db env = true → se_price_client env = true → initial_tokens from_hex (sc_pairs c) = inr tokens →
  se_prepare_db env = true → se_spawn env IngestThread = true → se_spawn env ExecutorThread = false →
  start from_hex env c = (inl (SpawnFailed ExecutorThread), [Services; Spawned IngestThread]).
Proof. intros H1 H2 H3 H4 H5 H6. unfold start. rewrite H1, H2, H3, H4. simpl. by rewrite H5, H6. Qed.

Lemma client_run_inv s : rtc client_step client_new s → client_inv s.
Proof.
  intros Hrun. assert (client_inv client_new) as H0 by (split; simpl; try done; naive_solver). revert H0.
  induction Hrun as [|x y z Hxy _ IH]; [done|]. intros Hx. by eapply IH, client_step_inv.
Qed.

(** Client threads shut down cleanly.  In every interleaving of a client thread with its two
    tasks no handle is polled after its completion, a thread that ends has both tasks
    finished and the whole solver cancelled, and a thread that was cancelled or one of whose
    tasks finished, expectedly or not, can always go on to its end. *)
Theorem client_thread_drains s :
  rtc client_step client_new s →
  ct_body s ≠ Panicked ∧
  (ct_body s = Ended → ct_cancel s = true ∧ ∀ i, is_finished s i = true) ∧
  (ct_cancel s = true ∨ (∃ i, is_finished s i = true) → ∃ s', rtc client_step s s' ∧ ct_body s' = Ended).
Proof.
  intros Hrun. pose proof (client_run_inv s Hrun) as Hs. split_and!.
  - apply Hs.
  - intros He. split; [by apply ci_drain; [|rewrite He]|]. intros []; [by apply (ci_ended s Hs)|]. apply (ci_first s Hs). auto.
  - intros Hstop. destruct (decide (ct_body s = Selecting)) as [Hb|Hb]; [|by apply drains].
    assert (∃ s1, client_step s s1 ∧ ct_body s1 ≠ Selecting) as (s1 & H1 & Hb1).
    { destruct Hstop as [Hc|[i Hi]].
      - eexists. split; [exists SelectCancelled; cbn [client_act]; by rewrite Hb, Hc|done].
      - eexists. split; [exists (SelectFinished i); cbn [client_act]; by rewrite Hb, Hi|]. simpl.
        by rewrite poll_unpolled by by apply (ci_select s Hs Hb). }
    destruct (drains s1 (client_step_inv _ _ H1 Hs) Hb1) as (s' & Hs' & He). exists s'. split; [by eapply rtc_l|done].
Qed.

(** ** Runs *)

(** The actions of a run, in order. *)
Definition client_acts (s : ClientThread) (acts : list ClientAct) : option ClientThread :=
  foldl (λ o a, s ← o; client_act s a) (Some s) acts.

Lemma client_acts_rtc acts s s' : client_acts s acts = Some s' → rtc client_step s s'.
Proof.
  unfold client_acts. revert s. induction acts as [|a acts IH]; intros s; cbn [foldl mbind option_bind]; [by intros [= ->]|].
  destruct (client_act s a) as [s1|] eqn:Ha; [intros Hr; eapply rtc_l; [by exists a|by apply IH]|].
  intros Hr. exfalso. clear -Hr. induction acts; by simpl in *.
Qed.

(** A task that is in an iteration when the solver is cancelled. *)
Definition mid_iteration : list ClientAct := [BeginIteration false; CancelAll].
Definition shut_down : list ClientAct := [SelectCancelled; DropTask false; DropTask true; Drain; Drain].

Definition run_acts (acts : list ClientAct) : ClientThread := default client_new (client_acts client_new acts).

(** A shutdown does not wait for the iteration under way: the thread aborts the task, which is
    dropped at its next await point in the middle of the iteration. *)
Theorem shutdown_drops_iteration :
  rtc client_step client_new (run_acts (mid_iteration ++ shut_down)) ∧
  ct_body (run_acts (mid_iteration ++ shut_down)) = Ended ∧
  ct_task (run_acts (mid_iteration ++ shut_down)) false = Dropped true.
Proof. split_and!; [by apply (client_acts_rtc (mid_iteration ++ shut_down))|done|done]. Qed.

(** The ingest task exits by itself while the other one works. *)
Definition ingest_exit : list ClientAct := [BeginIteration true; ExitTask false].

Lemma client_thread_drains_witness :
  ct_body (run_acts ingest_exit) ≠ Panicked ∧ ∃ s', rtc client_step (run_acts ingest_exit) s' ∧ ct_body s' = Ended.
Proof.
  destruct (client_thread_drains (run_acts ingest_exit)) as (Hp & _ & Hd); [by apply (client_acts_rtc ingest_exit)|].
  split; [exact Hp|]. apply Hd. right. by exists false.
Defined.

Definition demo_config : SolverConfig :=
  mk_solver_cfg (mk_rpc "http://node" 1000 None) (mk_account "1" "keys" "app" "exec" "ingest" 4) [] demo_engine.

(** The executor's client cannot be built. *)
Definition failing_executor : StartEnv :=
  mk_start_env true true true (λ _, true)
    (λ t, match t with
          | IngestThread => ingest_ready true true true true
          | ExecutorThread => executor_ready true false true
          | _ => server_ready true true true
          end).

Lemma start_supervised_witness :
  start (λ _, None) failing_executor demo_config =
    (inl (NotReady ExecutorThread BuildClient),
     [Services; Spawned IngestThread; Spawned ExecutorThread; Spawned PriceApiThread; Spawned RouterThread; Cancel;
      Joined IngestThread; Joined ExecutorThread; Joined PriceApiThread; Joined RouterThread]) ∧
  NoDup (joined_of (start (λ _, None) failing_executor demo_config).2).
Proof.
  split; [reflexivity|]. apply (start_supervised (λ _, None) failing_executor demo_config). repeat constructor.
Defined.
