(* ===== verification/System.v ===== *)
(** * Solver and router together (crates/solver/src/pipeline.rs, router/server.rs)

    The solver with the router thread as its fourth task: the matcher reads the snapshot the
    router published last, routed notes wait in the bounded channel between them, and the
    router's own tasks interleave with everything else.  What the solver alone assumes of
    the quotes is here a consequence of the router's invariant. *)

From stdpp Require Import option.
From S2P Require Import Prelude.
From S2P Require Import Orders.
From S2P Require Import OrderBook.
From S2P Require Import BookInvariant.
From S2P Require Import BookQueries.
From S2P Require Import ThreeEdgeCycle.
From S2P Require Import Engine.
From S2P Require Import Select.
From S2P Require Import Types.
From S2P Require Import Db.
From S2P Require Import Ingest.
From S2P Require Import Matcher.
From S2P Require Import MatcherProofs.
From S2P Require Import MatcherTheorems.
From S2P Require Import Executor.
From S2P Require Import ExecutorTheorems.
From S2P Require Import Protocol.
From S2P Require Import Router.
From S2P Require Import RouterProofs.
From S2P Require Import RouterTheorems.
From S2P Require Import Solver.
From S2P Require Import SolverProofs.
From S2P Require Import SolverTheorems.

Section system.
Context `{!Miden}.
Context `{!Codec FungibleAsset, !Codec (option Z), !Codec Note, !Codec Z, !Codec string, !Codec (list PairSpec)}.
Context (describe : Bytes → string).

(** ** State and steps *)

(** [sm_route] are the batches in the channel from the matcher to the router. *)
Record System := mk_system {
  sm_solver : Solver;
  sm_router : RouterSys;
  sm_route : list (list RoutedNote);
}.

Definition system_boot `{HashIter} (n : N) (prices : gmap TokenId Z) (triangular : bool) (ttl : Z) (unix : OrderId → Z)
    (d : Db) (cfg : RouterConfig) : System :=
  mk_system (solver_boot n prices triangular (Some ttl) unix d) (sys_new cfg) [].

(** What a tick leaves in the channel: the batch, when there is one and the channel took it. *)
Definition route_of (out : TickOutput) : list (list RoutedNote) :=
  match to_routed out with [] => [] | items => [items] end.

(** There are fewer than 2^64 connections over the life of the router. *)
Inductive system_step : System → System → Prop :=
  | system_task u s s' r q : task_step u s s' → system_step (mk_system s r q) (mk_system s' r q)
  | system_tick (HI : HashIter) (CH : CycleHeap) fuel i j k out s r q :
      ti_consumed i = take j (sv_consumed s) → ti_orders i = take k (sv_orders s) → ti_exec_open i = true →
      ti_quotes i = rs_published (sy_router r) → Z.of_nat (size (db_orders (sv_db s))) < two32 →
      tick fuel (sv_matcher s) i = Some out →
      system_step (mk_system s r q) (mk_system (tick_act j k out s) r (q ++ route_of out))
  | system_router (HI : HashIter) a s r r' q :
      (∀ items, a ≠ Deliver items) → rs_next_dex (sy_router r) + 1 < two64 →
      sys_step (Nt := Note) describe r a = Some r' → system_step (mk_system s r q) (mk_system s r' q)
  | system_relay (HI : HashIter) items s r r' q :
      rs_next_dex (sy_router r) + 1 < two64 → sys_step (Nt := Note) describe r (Deliver items) = Some r' →
      system_step (mk_system s r (items :: q)) (mk_system s r' q).

(** ** What a DEX may be sent *)

(** The bytes of an order are those of the note with its id. *)
Definition canonical_note (id : OrderId) (raw : Bytes) : Prop := ∃ note, raw = note_write note ∧ note_id note = id.

(** A stored note that asks for the whole amount and that a quote of the DEX pays. *)
Definition genuine (d : Db) (dex : DexId) (note : Note) (fill : Z) : Prop :=
  ∃ p q, pswap_try_from note = Some p ∧ fill = pswap_requested_amount p ∧
    is_Some (db_orders d !! id_bytes (note_id note)) ∧ q_dex q = dex ∧
    q_pair q = (pswap_offered_token p, pswap_requested_token p) ∧
    pswap_requested_amount p * q_demand q <= q_supply q * pswap_offered_amount p.

Definition item_ok (d : Db) (item : RoutedNote) : Prop :=
  ∃ note, rn_bytes item = note_write note ∧ genuine d (rn_dex item) note (rn_fill item).

(** A frame of a connection: a reply of the server or a hand-over. *)
Definition frame_ok (d : Db) (dex : DexId) (f : Bytes) : Prop :=
  f = server_write (AuthOk : ServerMsg Note) ∨ (∃ code msg, f = server_write (ErrorMsg code msg : ServerMsg Note)) ∨
  ∃ note fill, f = handover_frame (note_write note) fill ∧ genuine d dex note fill.

Record system_inv (s : System) : Prop := {
  sy_solver : solver_inv (sm_solver s);
  sy_raw : raw_inv canonical_note (sm_solver s);
  sy_agree : agree_inv (sm_solver s);
  sy_sys : sys_inv (sm_router s);
  sy_items : Forall (Forall (item_ok (sv_db (sm_solver s)))) (sm_route s);
  sy_frames : ∀ dex c f, rs_conns (sy_router (sm_router s)) !! dex = Some c → f ∈ cn_out c →
    frame_ok (sv_db (sm_solver s)) dex f;
}.

(** ** Lemmas *)

(** Rows only appear. *)
Lemma genuine_later d d' dex note fill :
  (∀ k, is_Some (db_orders d !! k) → is_Some (db_orders d' !! k)) → genuine d dex note fill → genuine d' dex note fill.
Proof. intros Hk (p & q & ? & ? & ? & ?). exists p, q. split_and!; naive_solver. Qed.

Lemma task_rows u s s' k :
  task_step u s s' → is_Some (db_orders (sv_db s) !! k) → is_Some (db_orders (sv_db s') !! k).
Proof.
  intros [env s1 _ _|HI n solver conn s1 _|env s1 _|d s1 Hd _|os s1 _].
  - destruct (ingest_once_steps env (sv_db s1)) as (Hsteps & _ & _). by apply steps_keep.
  - apply begin_places.
  - apply finish_places.
  - simpl. by rewrite Hd.
  - done.
Qed.

Lemma published_wf r : sys_inv r → quotes_wf (rs_published (sy_router r)).
Proof.
  intros [Hr _] p qs Hqs. apply Forall_forall. intros q Hq. apply (ri_published _ Hr) in Hqs.
  apply (ql_quotes _ _ _ Hqs) in Hq. unfold quote_wf. lia.
Qed.

(** The frames of the connections under a step of the router. *)
Lemma alter_frames (F : DexId → Bytes → Prop) (conns : gmap DexId Conn) dex g :
  (∀ d c f, conns !! d = Some c → f ∈ cn_out c → F d f) →
  (∀ c f, conns !! dex = Some c → f ∈ cn_out (g c) → F dex f) →
  ∀ d c f, alter g dex conns !! d = Some c → f ∈ cn_out c → F d f.
Proof.
  intros Hall Hg d c f. destruct (decide (dex = d)) as [<-|].
  - rewrite lookup_alter_eq. intros (c0 & Hc & ->)%fmap_Some. by apply Hg.
  - rewrite lookup_alter_ne by done. apply Hall.
Qed.

Lemma send_frames (F : DexId → Bytes → Prop) (conns : gmap DexId Conn) dex frame :
  (∀ d c f, conns !! d = Some c → f ∈ cn_out c → F d f) → F dex frame →
  ∀ d c f, send_frame conns dex frame !! d = Some c → f ∈ cn_out c → F d f.
Proof.
  intros Hall Hf. apply alter_frames; [done|]. intros c f Hc. unfold conn_send. destruct (cn_open c); [|by apply Hall].
  simpl. intros [?| ->%list_elem_of_singleton]%elem_of_app; [by eapply Hall|done].
Qed.

Lemma send_items_frames (F : DexId → Bytes → Prop) items conns :
  (∀ d c f, conns !! d = Some c → f ∈ cn_out c → F d f) →
  Forall (λ i, F (rn_dex i) (handover_frame (rn_bytes i) (rn_fill i))) items →
  ∀ d c f, send_items items conns !! d = Some c → f ∈ cn_out c → F d f.
Proof.
  intros Hall Hi. revert conns Hall. induction Hi as [|i items Hi _ IH]; intros conns Hall; [done|].
  apply (IH (send_frame conns (rn_dex i) (handover_frame (rn_bytes i) (rn_fill i)))). by apply send_frames.
Qed.

Lemma router_frames `{HI : HashIter} (F : DexId → Bytes → Prop) r a r' :
  sys_step (Nt := Note) describe r a = Some r' →
  (∀ dex, F dex (server_write (AuthOk : ServerMsg Note))) →
  (∀ dex code msg, F dex (server_write (ErrorMsg code msg : ServerMsg Note))) →
  (∀ items, a = Deliver items → Forall (λ i, F (rn_dex i) (handover_frame (rn_bytes i) (rn_fill i))) items) →
  (∀ d c f, rs_conns (sy_router r) !! d = Some c → f ∈ cn_out c → F d f) →
  ∀ d c f, rs_conns (sy_router r') !! d = Some c → f ∈ cn_out c → F d f.
Proof.
  intros Hstep Hauth Herr Hdel Hall. destruct a as [h q| |dex bytes now|dex|items|task n|task|dex|dex]; simpl in Hstep.
  - destruct (ws_handler _ _ _); injection Hstep as <-; exact Hall.
  - destruct (sy_upgrading r); [done|]. injection Hstep as <-. unfold open_conn. simpl. intros d c f.
    intros [[<- <-]|[_ Hc]]%lookup_insert_Some; [intros ->%list_elem_of_singleton; apply Hauth|by apply Hall].
  - destruct (_ && _); [|done]. injection Hstep as <-. unfold frame_step.
    destruct (client_read bytes) as [[[o x v] ?]|]; [|by apply send_frames].
    destruct (accept_quote _ _ _ _ _ _) as [e|q] eqn:Ea; [|exact Hall].
    unfold accept_quote in Ea. destruct (_ || _); [|done]. injection Ea as <-. by apply send_frames.
  - destruct (_ && _); [|done]. injection Hstep as <-. simpl. intros d c f [_ Hc]%lookup_delete_Some. by apply Hall.
  - destruct (bool_decide _); [|done]. injection Hstep as <-. unfold deliver_step.
    destruct (consume_quotes items _) as [quotes [|]]; apply (send_items_frames F items _ Hall (Hdel items eq_refl)).
  - destruct (sy_busy r !! task) as [[|]|]; [done| |done]. injection Hstep as <-. exact Hall.
  - destruct (sy_busy r !! task) as [[|]|]; [|done..]. injection Hstep as <-. exact Hall.
  - injection Hstep as <-. apply alter_frames; [exact Hall|]. intros c f Hc Hf. apply (Hall dex c f Hc).
    simpl in Hf. destruct (cn_out c); [done|by right].
  - injection Hstep as <-. apply alter_frames; [exact Hall|]. by intros c f _ ?%elem_of_nil.
Qed.

(** What a tick routes is genuine. *)
Lemma routed_genuine `{HI : HashIter} `{CH : CycleHeap} fuel i j k out s r :
  note_roundtrip → sys_inv r → solver_inv s → raw_inv canonical_note s → agree_inv s →
  input_ok (sv_matcher s) i → to_stopped out = false → ti_consumed i = take j (sv_consumed s) →
  ti_orders i = take k (sv_orders s) →
  ti_quotes i = rs_published (sy_router r) → tick fuel (sv_matcher s) i = Some out →
  Forall (item_ok (sv_db s)) (to_routed out).
Proof.
  intros Hn Hr Hinv Hraw Hag Hin Hns Hc Ho Hq Ht.
  destruct (tick_raw_inv canonical_note fuel i j k out s (si_matcher _ Hinv) Hin Hns Ho Ht Hraw) as [Hcan _].
  destruct (tick_agree fuel i j k out s Hinv Hin Hns Ho Ht Hag) as [Hterms _].
  destruct (tick_result fuel _ i out (matcher_run_inv _ (si_matcher _ Hinv)) Hin Ht) as [_ Hgo].
  pose proof (ts_routed _ _ _ (Hgo Hns)) as Hok. apply Forall_forall. intros x Hx.
  destruct (ro_notes _ _ _ _ Hok x Hx) as (o & q & qs & (Hvis & _) & _ & Hfill & _ & Hbytes & Hqs & Hqin & Hdex & _ & Hcross).
  destruct (Hcan _ _ Hbytes) as (note & Hb & Hnid). exists note. split; [done|].
  destruct (Hterms _ _ _ Hbytes Hvis) as (note' & p & Hread & Hp & E1 & E2 & E3 & E4).
  rewrite Hb, Hn in Hread. injection Hread as <-. exists p, q. rewrite Hq in Hqs.
  pose proof (ri_published _ (si_router _ Hr) _ _ Hqs) as Hlist. destruct (ql_quotes _ _ _ Hlist q Hqin) as (Hpair & _).
  apply Z.leb_le in Hcross. rewrite Hnid, E1, E2, E3, E4. split_and!; try done.
  apply (si_stored _ Hinv). assert (rn_note_id x ∈ dom (orders (tk_book (entering (sv_matcher s) i)))) as Hd by (by eapply elem_of_dom_2).
  rewrite entering_dom, Ho in Hd. unfold places, book_ids. rewrite !elem_of_app, elem_of_elements.
  apply elem_of_union in Hd as [[Hd _]%elem_of_difference|Hd%elem_of_list_to_set]; [by right; left|left].
  rewrite <-(take_drop k (sv_orders s)), fmap_app. apply elem_of_app. by left.
Qed.

Lemma forwarded_canonical env d o : o ∈ out_orders (ingest_once env d) → canonical_note (io_note_id o) (io_raw o).
Proof.
  intros Ho. destruct (ie_sync env) as [sync|] eqn:Es.
  2: { unfold ingest_once in Ho. rewrite Es in Ho. by apply elem_of_nil in Ho. }
  destruct (forwarded_inv env sync d o Es Ho) as (_ & _ & _ & _ & Hp & _).
  apply list_elem_of_fmap in Hp as (x & -> & Hx). apply elem_of_prepare_notes in Hx as (i & note & _ & Hx).
  unfold prepare_note in Hx. destruct (negb _); [done|]. destruct (from_note note) as [po|]; [|done].
  injection Hx as <-. by exists note.
Qed.

(** The parts of the invariant that speak of the database, after a step that keeps the rows. *)
Lemma messages_later s s' r q :
  (∀ k, is_Some (db_orders (sv_db s) !! k) → is_Some (db_orders (sv_db s') !! k)) →
  Forall (Forall (item_ok (sv_db s))) q →
  (∀ dex c f, rs_conns (sy_router r) !! dex = Some c → f ∈ cn_out c → frame_ok (sv_db s) dex f) →
  Forall (Forall (item_ok (sv_db s'))) q ∧
  ∀ dex c f, rs_conns (sy_router r) !! dex = Some c → f ∈ cn_out c → frame_ok (sv_db s') dex f.
Proof.
  intros Hk Hq Hf. split.
  - eapply Forall_impl; [exact Hq|]. intros items Hi. eapply Forall_impl; [exact Hi|].
    intros x (note & Hb & Hg). exists note. split; [done|by eapply genuine_later].
  - intros dex c f Hc Hin. destruct (Hf dex c f Hc Hin) as [?|[?|(note & fill & ? & Hg)]]; [by left|by right; left|].
    right; right. exists note, fill. split; [done|by eapply genuine_later].
Qed.

Lemma system_step_inv s s' :
  id_roundtrip → pswap_amounts_u64 → note_roundtrip → asset_amounts_u64 →
  system_step s s' → system_inv s → system_inv s'.
Proof.
  intros Hid Hu Hn Ha Hstep [Hs Hraw Hag Hr Hi Hf].
  destruct Hstep as [u s s' r q Ht|HI CH fuel i j k out s r q Hc Ho Hopen Hq Hsz Ht|HI a s r r' q Hnd Hroom Hstep|HI items s r r' q Hroom Hstep];
    cbn [sm_solver sm_router sm_route] in *.
  - destruct (messages_later s s' r q (λ k, task_rows _ _ _ k Ht) Hi Hf). split; simpl; try done.
    + eapply step_inv; [done..|by apply step_task|done].
    + by eapply task_raw_inv; [intros env d; apply forwarded_canonical|..].
    + by eapply task_agree.
  - assert (quotes_wf (ti_quotes i)) as Hw by (rewrite Hq; by apply published_wf).
    destruct (tick_inv fuel i j k out s Hid Hs Hc Ho Hopen Hw Hsz Ht) as (Hin & Hns & Hs').
    pose proof (routed_genuine fuel i j k out s r Hn Hr Hs Hraw Hag Hin Hns Hc Ho Hq Ht) as Hg. split; simpl; try done.
    + by eapply tick_raw_inv; [apply Hs|..].
    + by eapply tick_agree.
    + apply Forall_app. split; [done|]. unfold route_of. destruct (to_routed out); constructor; [done|constructor].
  - destruct (sys_step_inv (Nt := Note) describe r a r' Ha Hr Hroom Hstep) as [Hr' _]. split; simpl; try done.
    eapply router_frames; [exact Hstep|by left|by right; left; eauto| |done]. intros items ->. by destruct (Hnd items).
  - destruct (sys_step_inv (Nt := Note) describe r (Deliver items) r' Ha Hr Hroom Hstep) as [Hr' _].
    apply Forall_cons in Hi as [Hi Hq]. split; simpl; try done.
    eapply router_frames; [exact Hstep|by left|by right; left; eauto| |done]. intros ? [= <-].
    eapply Forall_impl; [exact Hi|]. intros x (note & Hb & Hg). right; right. exists note, (rn_fill x). by rewrite Hb.
Qed.

(** ** Boot *)

(** The notes the solver stored: each under the key of its id, in its own encoding. *)
Definition notes_canonical (d : Db) : Prop :=
  ∀ k row, db_notes d !! k = Some row → ∃ note, nr_raw_data row = note_write note ∧ k = id_bytes (note_id note).

Lemma boot_canonical `{HashIter} n prices tri router unix d :
  id_roundtrip → boot_ok d → notes_canonical d → raw_inv canonical_note (solver_boot n prices tri router unix d).
Proof.
  intros Hid Hd Hcan. pose proof (reset_ok_rows d Hd) as Hd'. unfold solver_boot. set (d' := (reset_all_settling_to_active d).1) in *.
  assert (notes_canonical d') as Hcan' by exact Hcan. unfold load_active_orders_with_notes.
  destruct (collect_ok_some (λ p : OrderRow * Bytes, ingest_order_of p.1 p.2) (active_with_notes n d')) as (os & -> & H2).
  { intros [r raw] (k & note & Hr & _)%elem_of_active_with_notes. apply ingest_order_of_encoded; [done|]. by apply (Hd' k). }
  split; simpl; try done. apply hydrate_raw; [by intros ? ?|]. apply Forall_forall. intros o (m & Hm)%list_elem_of_lookup.
  destruct (Forall2_lookup_r _ _ _ _ _ H2 Hm) as ([r raw] & Hp & Ho).
  apply list_elem_of_lookup_2, elem_of_active_with_notes in Hp as (k & row & Hr & _ & Hn & <-).
  destruct (Hcan' k row Hn) as (note & Hraw & ->). destruct (Hd' _ r Hr) as (Hk & (i & a & b & Hi & Ha & Hb) & _).
  unfold ingest_order_of in Ho. simpl in Ho. rewrite Hi, Ha, Hb, !Hid in Ho. injection Ho as <-. simpl. exists note.
  split; [done|]. rewrite Hi in Hk. pose proof (Hid i) as Hx. rewrite Hk, Hid in Hx. congruence.
Qed.

Lemma system_boot_inv `{HashIter} n prices tri ttl unix d cfg :
  id_roundtrip → boot_ok d → notes_canonical d → Z.of_nat (size (db_orders d)) < two32 →
  system_inv (system_boot n prices tri ttl unix d cfg).
Proof.
  intros Hid Hd Hcan Hsz. split; simpl.
  - by apply boot_solver_inv.
  - by apply boot_canonical.
  - by apply boot_agree.
  - split; [apply router_new_inv|by intros ? ? ?].
  - constructor.
  - by intros dex c f Hc.
Qed.

Lemma system_run_inv `{HashIter} n prices tri ttl unix d cfg s :
  id_roundtrip → pswap_amounts_u64 → note_roundtrip → asset_amounts_u64 → boot_ok d → notes_canonical d →
  Z.of_nat (size (db_orders d)) < two32 → rtc system_step (system_boot n prices tri ttl unix d cfg) s → system_inv s.
Proof.
  intros Hid Hu Hn Ha Hd Hcan Hsz Hrun. pose proof (system_boot_inv n prices tri ttl unix d cfg Hid Hd Hcan Hsz) as Hboot.
  revert Hboot. induction Hrun as [|x y z Hxy _ IH]; [done|]. intros Hx. by eapply IH, system_step_inv.
Qed.

(** ** Theorems *)

(** The wire encodings cover what is sent: a note is written as the client library writes it,
    and amounts and texts can be encoded. *)
Definition wire_total : Prop :=
  (∀ note : Note, wire_ok note ∧ encode note = note_write note) ∧ (∀ x : Z, is_u64 x → wire_ok x) ∧ ∀ t : string, wire_ok t.


Lemma task_disturbed u s s' : task_step u s s' → task_step false s s'.
Proof. intros []; by constructor. Qed.

(** A step of the system is a step of the solver or changes nothing of it. *)
Lemma system_step_solver s s' :
  system_inv s → system_step s s' → rtc (solver_step false) (sm_solver s) (sm_solver s').
Proof.
  intros Hs Hstep. destruct Hstep as [u s s' r q Ht|HI CH fuel i j k out s r q Hc Ho Hopen Hq Hsz Ht| |]; [..|done|done].
  - by eapply rtc_once, step_task, task_disturbed.
  - apply rtc_once, (step_tick false HI CH fuel i j k out); try done. rewrite Hq. apply published_wf, Hs.
Qed.

(** C6. The system refines the solver: in every interleaving of ingest, ticks on the published
    quotes, submissions, connections, quotes, deliveries and closings, the solver's part of
    the state moves only as the solver alone may with some well-formed quotes.  What the
    solver assumes of its router is what the router guarantees, so whatever holds of every
    run of the solver holds with the router attached. *)
Theorem system_refines_solver `{HashIter} n prices tri ttl unix d cfg s :
  id_roundtrip → pswap_amounts_u64 → note_roundtrip → asset_amounts_u64 → boot_ok d → notes_canonical d →
  Z.of_nat (size (db_orders d)) < two32 → rtc system_step (system_boot n prices tri ttl unix d cfg) s →
  rtc (solver_step false) (solver_boot n prices tri (Some ttl) unix d) (sm_solver s) ∧
  router_inv (sy_router (sm_router s)) ∧ quotes_wf (rs_published (sy_router (sm_router s))).
Proof.
  intros Hid Hu Hn Ha Hd Hcan Hsz Hrun. split.
  - pose proof (system_boot_inv n prices tri ttl unix d cfg Hid Hd Hcan Hsz) as Hboot.
    change (solver_boot n prices tri (Some ttl) unix d) with (sm_solver (system_boot n prices tri ttl unix d cfg)).
    revert Hboot. induction Hrun as [|x y z Hxy _ IH]; [done|]. intros Hx.
    trans (sm_solver y); [by apply system_step_solver|]. by eapply IH, system_step_inv.
  - destruct (system_run_inv n prices tri ttl unix d cfg s Hid Hu Hn Ha Hd Hcan Hsz Hrun) as [_ _ _ Hr _ _].
    split; [apply Hr|by apply published_wf].
Qed.
End system.

(** ** A run *)

#[local] Existing Instance demo_miden.
#[local] Existing Instance elements_iter.
#[local] Existing Instance list_heap.
#[local] Existing Instance asset_codec.
#[local] Existing Instance option_codec.
#[local] Existing Instance note_codec.
#[local] Existing Instance z_codec.
#[local] Existing Instance string_codec.

Definition pairs_codec : Codec (list PairSpec) := @list_codec _ (@pair_spec_codec n_codec).
#[local] Existing Instance pairs_codec.

Abbreviation demo_step := (system_step (H := demo_miden) (λ _, EmptyString)).

(** A DEX connects and quotes, one order arrives, a tick routes it and the relay delivers. *)
Definition lone_note : list DemoNote := [mk_demo true 2 1 100 2 50 0].
Definition lone_env : IngestEnv := mk_env (Some (mk_sync 12 lone_note [])) true true (λ _, true) (λ _, true) (λ _, 0).

Definition after_acts (r : RouterSys) (acts : list RouterAct) : RouterSys :=
  match demo_run r acts with Some r' => r' | None => r end.
Definition quoted_router : RouterSys :=
  after_acts (sys_new (demo_cfg 10)) (demo_connect ++ [Frame 1 (demo_frame 500 500) 0; Build 1 0; Publish 1]).

Definition routed_boot : System := system_boot 0 demo_prices false 30000 (λ _, 7) db_empty (demo_cfg 10).
Definition routed_fed : Solver := ingest_act lone_env (sm_solver routed_boot).
Definition routed_input : TickInput :=
  mk_tick 1000 (λ _, 8) [] (take 1 (sv_orders routed_fed)) demo_prices true (rs_published (sy_router quoted_router)) Sent 0.
Definition routed_out : TickOutput :=
  match tick 10 (sv_matcher routed_fed) routed_input with
  | Some out => out
  | None => mk_tick_out (sv_matcher routed_fed) None [] None true
  end.
Definition routed_end : System :=
  mk_system (tick_act 0 1 routed_out routed_fed) (after_acts quoted_router [Deliver (to_routed routed_out)]) [].

Lemma router_acts_steps acts s r r' q :
  demo_run r acts = Some r' → Forall (λ a, ∀ items, a ≠ Deliver items) acts →
  rs_next_dex (sy_router r) + Z.of_nat (length acts) < two64 → sys_inv r →
  rtc demo_step (mk_system s r q) (mk_system s r' q).
Proof.
  intros Hrun Hacts. revert r Hrun. induction Hacts as [|a acts Ha _ IH]; intros r Hrun Hroom Hr; cbn [sys_run length] in *.
  { injection Hrun as <-. done. }
  destruct (sys_step (λ _, EmptyString) r a) as [r1|] eqn:E; [|done]. cbn [mbind option_bind] in Hrun.
  destruct (sys_step_inv (Nt := DemoNote) (λ _, EmptyString) r a r1 demo_assets_u64 Hr) as [H1 H2]; [lia|exact E|].
  eapply rtc_l; [apply (system_router _ elements_iter a); [done|lia|exact E]|]. apply IH; [done|lia|done].
Qed.

Lemma demo_wire_total : wire_total.
Proof. split_and!; [by intros note|done|done]. Qed.

Lemma new_router_inv : sys_inv (sys_new (demo_cfg 10)).
Proof. split; [apply router_new_inv|by intros ? ? ?]. Qed.

Lemma routed_steps : rtc demo_step routed_boot routed_end.
Proof.
  trans (mk_system (sm_solver routed_boot) quoted_router []).
  { eapply (router_acts_steps (demo_connect ++ [Frame 1 (demo_frame 500 500) 0; Build 1 0; Publish 1]));
      [vm_compute; reflexivity|repeat constructor; done|vm_compute; reflexivity|exact new_router_inv]. }
  eapply rtc_l.
  { apply (system_task _ true (sm_solver routed_boot) routed_fed), (step_ingest true lone_env); [|done].
    intros sync [= <-]. repeat constructor. set_solver. }
  eapply rtc_l.
  { apply (system_tick _ elements_iter list_heap 10 routed_input 0 1 routed_out); vm_compute; reflexivity. }
  apply rtc_once. assert ([] ++ route_of routed_out = [to_routed routed_out]) as -> by (vm_compute; reflexivity).
  apply (system_relay _ elements_iter); vm_compute; reflexivity.
Qed.

Lemma empty_ok : boot_ok db_empty ∧ notes_canonical db_empty.
Proof. split; by intros k r Hk. Qed.


Lemma system_refines_solver_witness :
  book_ids (sv_matcher (sm_solver routed_end)) = [2%N] ∧
  rtc (solver_step false) (solver_boot 0 demo_prices false (Some 30000) (λ _, 7) db_empty) (sm_solver routed_end).
Proof.
  destruct empty_ok as [Hd Hcan]. split; [vm_compute; reflexivity|].
  apply (system_refines_solver (λ _, EmptyString) 0 demo_prices false 30000 (λ _, 7) db_empty (demo_cfg 10) routed_end);
    [by intros i|exact demo_amounts|exact demo_note_roundtrip|exact demo_assets_u64|exact Hd|exact Hcan|by vm_compute|exact routed_steps].
Defined.
