(* ===== verification/Channels.v ===== *)
(** * Bounded channels (pipeline.rs: create_channels; the sends of ingest.rs, matcher.rs, executor.rs)

    In Solver.v an iteration of ingest, a tick and the end of a submission send all their messages
    at once, and the channels take any number of them.  Here the channels have the capacity the
    program gives them and a message is sent or received at a time: a task whose channel is full
    waits, with the rest of its messages in its hands, while the others go on.

    The theorems are in ChannelsTheorems.v: the bounded pipeline does nothing the solver of
    Solver.v may not do, and the matcher and the executor never wait for each other as long as
    fewer orders are stored than it takes to fill both channels. *)

From stdpp Require Import option.
From S2P Require Import Prelude.
From S2P Require Import Orders.
From S2P Require Import ThreeEdgeCycle.
From S2P Require Import Select.
From S2P Require Import Types.
From S2P Require Import Db.
From S2P Require Import Ingest.
From S2P Require Import Matcher.
From S2P Require Import MatcherProofs.
From S2P Require Import Executor.
From S2P Require Import Solver.

(** The capacity of the channels of orders, of consumed ids and of batches. *)
Definition PIPELINE_CHANNEL_BUF : Z := 5000.

(** A send that finds a slot; [None] is a send that has to wait. *)
Definition send {A} (cap : nat) (x : A) (channel : list A) : option (list A) :=
  if (length channel <? cap)%nat then Some (channel ++ [x]) else None.

Section channels.
Context `{!Miden}.

(** ** State *)

(** Where a tick is: between ticks, receiving the consumed ids, receiving the orders, or waiting
    to hand its batch to the executor. *)
Inductive TickPhase :=
  | Waiting
  | DrainingConsumed (ids : list OrderId)
  | DrainingOrders (ids : list OrderId) (os : list IngestOrder)
  | HandingOver (batch : ExecutionBatch).

(** The solver, whose three queues are now the channels, and what the tasks have in their hands:
    ingest the ids it still has to report, with the iteration they belong to, or the orders it
    still has to forward; the matcher what it received or matched; the executor the orders it
    still has to hand back.  While the matcher hands over a batch its state is already the one
    after the tick: nobody else reads it. *)
Record Bounded := mk_bounded {
  bd_core : Solver;
  bd_reporting : option (IngestEnv * list OrderId);
  bd_forward : list IngestOrder;
  bd_tick : TickPhase;
  bd_refeed : list IngestOrder;
}.

Definition bounded_boot (s : Solver) : Bounded := mk_bounded s None [] Waiting [].

Definition with_consumed (s : Solver) (ids : list OrderId) : Solver :=
  mk_solver (sv_db s) (sv_orders s) ids (sv_matcher s) (sv_batches s) (sv_running s) (sv_done s) (sv_reported s).
Definition with_batches (s : Solver) (bs : list ExecutionBatch) : Solver :=
  mk_solver (sv_db s) (sv_orders s) (sv_consumed s) (sv_matcher s) bs (sv_running s) (sv_done s) (sv_reported s).
Definition with_matcher (s : Solver) (m : MatcherState) : Solver :=
  mk_solver (sv_db s) (sv_orders s) (sv_consumed s) m (sv_batches s) (sv_running s) (sv_done s) (sv_reported s).

(** ** Ingest *)

(** The sync and the consumed notes, which are written before they are sent. *)
Definition sync_act (env : IngestEnv) (b : Bounded) : option Bounded :=
  let s := bd_core b in
  match bd_reporting b, bd_forward b with
  | None, [] =>
    match ie_sync env with
    | None => Some b
    | Some y =>
      match handle_consumed env (sv_db s) (sr_consumed_notes y) with
      | None => Some b
      | Some (d, ids) =>
        Some (mk_bounded (mk_solver d (sv_orders s) (sv_consumed s) (sv_matcher s) (sv_batches s) (sv_running s) (sv_done s) (sv_reported s ++ ids))
                (Some (env, ids)) [] (bd_tick b) (bd_refeed b))
      end
    end
  | _, _ => None
  end.

Definition report_act (cap : nat) (b : Bounded) : option Bounded :=
  match bd_reporting b with
  | Some (env, id :: ids) =>
    channel ← send cap id (sv_consumed (bd_core b));
    Some (mk_bounded (with_consumed (bd_core b) channel) (Some (env, ids)) (bd_forward b) (bd_tick b) (bd_refeed b))
  | _ => None
  end.

(** The second half of an iteration: the rows that are stored and the orders to forward. *)
Definition store_notes (env : IngestEnv) (d : Db) : Db * list IngestOrder :=
  match ie_sync env with
  | None => (d, [])
  | Some y =>
    let prepared := prepare_notes (ie_now env) (sr_new_notes y) in
    match prepared with
    | [] => (d, [])
    | _ =>
      if ie_insert_conn env then
        let '(d, inserted) := insert_notes_batch d (prepared.*1.*1) (prepared.*1.*2) (sr_block_num y) in
        (d, (forward_orders (ie_order_open env) 0 inserted (prepared.*2)).1)
      else (d, [])
    end
  end.

(** Once every id is reported. *)
Definition insert_act (b : Bounded) : option Bounded :=
  match bd_reporting b with
  | Some (env, []) =>
    let '(d, os) := store_notes env (sv_db (bd_core b)) in
    Some (mk_bounded (with_db (bd_core b) d) None os (bd_tick b) (bd_refeed b))
  | _ => None
  end.

Definition forward_act (cap : nat) (b : Bounded) : option Bounded :=
  match bd_forward b with
  | o :: os =>
    channel ← send cap o (sv_orders (bd_core b));
    Some (mk_bounded (with_orders (bd_core b) channel) (bd_reporting b) os (bd_tick b) (bd_refeed b))
  | [] => None
  end.

(** ** The matcher *)

(** The interval elapsed, or one [try_recv] of one of the two loops. *)
Definition drain_act (b : Bounded) : option Bounded :=
  let s := bd_core b in
  let next s phase := Some (mk_bounded s (bd_reporting b) (bd_forward b) phase (bd_refeed b)) in
  match bd_tick b with
  | Waiting => next s (DrainingConsumed [])
  | DrainingConsumed ids =>
    match sv_consumed s with
    | id :: rest => next (with_consumed s rest) (DrainingConsumed (ids ++ [id]))
    | [] => next s (DrainingOrders ids [])
    end
  | DrainingOrders ids os =>
    match sv_orders s with
    | o :: rest => next (with_orders s rest) (DrainingOrders ids (os ++ [o]))
    | [] => None
    end
  | HandingOver _ => None
  end.

(** The tick on what was received. *)
Definition received (i : TickInput) (ids : list OrderId) (os : list IngestOrder) : TickInput :=
  mk_tick (ti_millis i) (ti_unix i) ids os (ti_prices i) true (ti_quotes i) (ti_route i) (ti_occasion i).

(** Once no order is left in the channel: the matching, up to the send of its batch. *)
Definition match_act `{HI : HashIter} `{CH : CycleHeap} (fuel : nat) (i : TickInput) (b : Bounded) : option Bounded :=
  let s := bd_core b in
  match bd_tick b, sv_orders s with
  | DrainingOrders ids os, [] =>
    out ← tick fuel (sv_matcher s) (received i ids os);
    Some (mk_bounded (with_matcher s (to_state out)) (bd_reporting b) (bd_forward b)
            (match to_batch out with Some batch => HandingOver batch | None => Waiting end) (bd_refeed b))
  | _, _ => None
  end.

Definition hand_over_act (cap : nat) (b : Bounded) : option Bounded :=
  match bd_tick b with
  | HandingOver batch =>
    channel ← send cap batch (sv_batches (bd_core b));
    Some (mk_bounded (with_batches (bd_core b) channel) (bd_reporting b) (bd_forward b) Waiting (bd_refeed b))
  | _ => None
  end.

(** ** The executor *)

(** It receives when it has nothing to submit and nothing to hand back. *)
Definition receive_act `{HashIter} (n solver_id : N) (conn : bool) (b : Bounded) : option Bounded :=
  match sv_running (bd_core b), bd_refeed b, sv_batches (bd_core b) with
  | None, [], _ :: _ =>
    Some (mk_bounded (begin_act n solver_id conn (bd_core b)) (bd_reporting b) (bd_forward b) (bd_tick b) [])
  | _, _, _ => None
  end.

(** The outcome is written; the orders to hand back are still to be sent. *)
Definition outcome_act (env : ExecEnv) (b : Bounded) : option Bounded :=
  let s := bd_core b in
  match sv_running s with
  | Some (batch, notes) =>
    let out := exec_finish env (sv_db s) batch notes in
    Some (mk_bounded
            (mk_solver (eo_db out) (sv_orders s) (sv_consumed s) (sv_matcher s) (sv_batches s) None
               (sv_done s ++ closed_ids env batch notes) (sv_reported s))
            (bd_reporting b) (bd_forward b) (bd_tick b) (bd_refeed b ++ eo_refed out))
  | None => None
  end.

(** One send of [refeed_orders]. *)
Definition refeed_act (cap : nat) (b : Bounded) : option Bounded :=
  match bd_refeed b with
  | o :: os =>
    channel ← send cap o (sv_orders (bd_core b));
    Some (mk_bounded (with_orders (bd_core b) channel) (bd_reporting b) (bd_forward b) (bd_tick b) os)
  | [] => None
  end.

(** ** Steps *)

Inductive BoundedAct :=
  | Sync (env : IngestEnv)
  | Report
  | Insert
  | Forward
  | Drain
  | Match (HI : HashIter) (CH : CycleHeap) (fuel : nat) (i : TickInput)
  | HandOver
  | Receive (HI : HashIter) (n solver_id : N) (conn : bool)
  | Outcome (env : ExecEnv)
  | Refeed
  | Tokens (d : Db).

(** [None] when the task is elsewhere or has to wait. *)
Definition bounded_act (cap : nat) (a : BoundedAct) (b : Bounded) : option Bounded :=
  match a with
  | Sync env => sync_act env b
  | Report => report_act cap b
  | Insert => insert_act b
  | Forward => forward_act cap b
  | Drain => drain_act b
  | Match HI CH fuel i => match_act fuel i b
  | HandOver => hand_over_act cap b
  | Receive HI n solver_id conn => receive_act n solver_id conn b
  | Outcome env => outcome_act env b
  | Refeed => refeed_act cap b
  | Tokens d => Some (mk_bounded (with_db (bd_core b) d) (bd_reporting b) (bd_forward b) (bd_tick b) (bd_refeed b))
  end.

(** What the environment guarantees, as in Solver.v. *)
Definition sync_ok (undisturbed : bool) (env : IngestEnv) : Prop :=
  (∀ y, ie_sync env = Some y → NoDup (note_id <$> sr_new_notes y)) ∧ (undisturbed = true → ∀ i, ie_order_open env i = true).

Definition act_ok (undisturbed : bool) (a : BoundedAct) (s : Solver) : Prop :=
  match a with
  | Sync env => sync_ok undisturbed env
  | Match HI CH fuel i => quotes_wf (ti_quotes i) ∧ Z.of_nat (size (db_orders (sv_db s))) < two32
  | Receive HI n solver_id conn =>
    undisturbed = true → conn = true ∧ ∀ batch rest, sv_batches s = batch :: rest →
      ∃ c, prepare_batch_components n batch solver_id = inr c
  | Outcome env =>
    undisturbed = true → ee_final_conn env = true ∧ (∀ i, ee_order_open env i = true) ∧
      su_outcome (submit_with_rpc_backoff (ee_build_ok env) (ee_reply env) (ee_cancelled env)) ≠ Cancelled ∧
      ∀ notes, is_Some (check_consumed_notes (ee_heights env) notes)
  | Tokens d => db_orders d = db_orders (sv_db s) ∧ db_notes d = db_notes (sv_db s)
  | _ => True
  end.

Definition bounded_step (cap : nat) (undisturbed : bool) (b b' : Bounded) : Prop :=
  ∃ a, act_ok undisturbed a (bd_core b) ∧ bounded_act cap a b = Some b'.

(** ** The solver it implements *)

Definition drained_orders (t : TickPhase) : list IngestOrder := match t with DrainingOrders _ os => os | _ => [] end.
Definition drained_ids (t : TickPhase) : list OrderId :=
  match t with DrainingConsumed ids | DrainingOrders ids _ => ids | _ => [] end.
Definition handed_batch (t : TickPhase) : list ExecutionBatch := match t with HandingOver batch => [batch] | _ => [] end.
Definition unreported (r : option (IngestEnv * list OrderId)) : list OrderId := from_option snd [] r.

(** A message in the hands of a task counts as queued. *)
Definition solver_of (b : Bounded) : Solver :=
  let s := bd_core b in
  mk_solver (sv_db s)
    (drained_orders (bd_tick b) ++ sv_orders s ++ bd_forward b ++ bd_refeed b)
    (drained_ids (bd_tick b) ++ sv_consumed s ++ unreported (bd_reporting b))
    (sv_matcher s) (sv_batches s ++ handed_batch (bd_tick b)) (sv_running s) (sv_done s) (sv_reported s).

(** ** Waiting for each other *)

(** The matcher waits for a slot of the executor's channel, and the executor, whose submission is
    over, for one of the matcher's. *)
Definition deadlocked (cap : nat) (b : Bounded) : Prop :=
  handed_batch (bd_tick b) ≠ [] ∧ (cap <= length (sv_batches (bd_core b)))%nat ∧
  sv_running (bd_core b) = None ∧ bd_refeed b ≠ [] ∧ (cap <= length (sv_orders (bd_core b)))%nat.
End channels.
