(* ===== verification/ChannelsTheorems.v ===== *)
(** * Bounded channels: theorems

    The pipeline with bounded channels refines the solver of Solver.v, so everything shown there
    holds of it; its channels never exceed their capacity; and as long as fewer than
    [3 * capacity + 3] orders are stored (15 003 with the capacity of the program) whoever waits for
    a slot gets one from the other task.  The bound is tight: with as many orders the matcher and
    the executor can wait for each other, for ever ([full_channels_deadlock]). *)

From stdpp Require Import option relations.
From S2P Require Import Prelude.
From S2P Require Import Orders.
From S2P Require Import OrderBook.
From S2P Require Import ThreeEdgeCycle.
From S2P Require Import Engine.
From S2P Require Import Select.
From S2P Require Import Types.
From S2P Require Import Db.
From S2P Require Import Ingest.
From S2P Require Import Matcher.
From S2P Require Import MatcherProofs.
From S2P Require Import MatcherTheorems.
From S2P Require Import Clearing.
From S2P Require Import Executor.
From S2P Require Import ExecutorTheorems.
From S2P Require Import Solver.
From S2P Require Import SolverProofs.
From S2P Require Import SolverTheorems.
From S2P Require Import Channels.

Lemma send_Some {A} cap (x : A) ch ch' : send cap x ch = Some ch' ↔ (length ch < cap)%nat ∧ ch' = ch ++ [x].
Proof. unfold send. destruct (Nat.ltb_spec (length ch) cap); naive_solver lia. Qed.

Lemma rtc_same {A} (R : relation A) x y : x = y → rtc R x y.
Proof. by intros ->. Qed.

(** The branches of an action that was taken. *)
Ltac act_cases H :=
  simpl in H; unfold sync_act, report_act, insert_act, forward_act, drain_act, match_act, hand_over_act, receive_act, outcome_act, refeed_act in H;
  repeat (case_match; simplify_eq/=);
  repeat match goal with
    | Hs : mbind _ (send ?c ?x ?ch) = Some _ |- _ => let E := fresh "Hsend" in destruct (send c x ch) eqn:E; [|discriminate Hs]; apply send_Some in E as [? ->]
    | Hs : mbind _ (tick ?f ?m ?i) = Some _ |- _ => let E := fresh "Htick" in destruct (tick f m i) eqn:E; [|discriminate Hs]
    end; simplify_eq/=.

Section refinement.
Context `{!Miden}.

(** Taking a batch takes it off the queue and touches no other channel. *)
Lemma begin_queues `{HashIter} n solver_id conn s :
  sv_orders (begin_act n solver_id conn s) = sv_orders s ∧ sv_consumed (begin_act n solver_id conn s) = sv_consumed s ∧
  sv_batches (begin_act n solver_id conn s) = match sv_running s with Some _ => sv_batches s | None => tail (sv_batches s) end.
Proof.
  unfold begin_act. destruct (sv_running s); [done|]. destruct (sv_batches s) as [|batch rest] eqn:E; [by rewrite E|].
  destruct (filled_notes batch); [done|]. destruct (prepare_batch_components _ _ _) as [|[]]; [done|]. by destruct conn.
Qed.

(** ** The halves of an iteration *)

(** The environment of an iteration that only reports, and of one that only stores. *)
Definition with_sync (env : IngestEnv) (f : SyncResult → SyncResult) : IngestEnv :=
  mk_env (f <$> ie_sync env) (ie_consumed_conn env) (ie_insert_conn env) (ie_consumed_open env) (ie_order_open env) (ie_now env).
Definition reports_only (env : IngestEnv) : IngestEnv :=
  with_sync env (λ y, mk_sync (sr_block_num y) [] (sr_consumed_notes y)).
Definition stores_only (env : IngestEnv) : IngestEnv :=
  with_sync env (λ y, mk_sync (sr_block_num y) (sr_new_notes y) []).

Lemma reports_only_once env y d d' ids :
  ie_sync env = Some y → handle_consumed env d (sr_consumed_notes y) = Some (d', ids) →
  ingest_once (reports_only env) d = mk_out d' ids [] true.
Proof. intros Hy Hc. unfold ingest_once. simpl. rewrite Hy. simpl. change (handle_consumed (reports_only env)) with (handle_consumed env). by rewrite Hc. Qed.

Lemma stores_only_once env d :
  let out := ingest_once (stores_only env) d in
  out_db out = (store_notes env d).1 ∧ out_consumed out = [] ∧ out_orders out = (store_notes env d).2.
Proof.
  unfold ingest_once, store_notes. simpl. destruct (ie_sync env) as [y|]; [|done]. simpl.
  destruct (prepare_notes _ _) as [|x xs]; [done|]. destruct (ie_insert_conn env); [|done].
  destruct (insert_notes_batch _ _ _ _) as [d' inserted]. by destruct (forward_orders _ _ _ _).
Qed.

Lemma reports_ok u env : sync_ok u env → sync_ok u (reports_only env).
Proof. intros [_ Ho]. split; [|done]. intros y. simpl. destruct (ie_sync env); [|done]. intros [= <-]. by constructor. Qed.

Lemma stores_ok u env : sync_ok u env → sync_ok u (stores_only env).
Proof. intros [Hn Ho]. split; [|done]. intros y. simpl. destruct (ie_sync env); [|done]. intros [= <-]. exact (Hn _ eq_refl). Qed.

Lemma ingest_step u env s : sync_ok u env → solver_step u s (ingest_act env s).
Proof. intros []. by apply step_task, step_ingest. Qed.

(** ** Steps of the solver *)

(** The iteration under way is one the environment allows. *)
Definition reporting_ok (u : bool) (b : Bounded) : Prop :=
  ∀ env ids, bd_reporting b = Some (env, ids) → sync_ok u env ∧ bd_forward b = [].

Lemma interleaved u s s1 os :
  solver_step u s s1 → os ≡ₚ sv_orders s1 → rtc (solver_step u) s (with_orders s1 os).
Proof. intros H1 Hos. eapply rtc_l; [exact H1|]. by apply rtc_once, step_task, step_interleave. Qed.

Lemma sync_refines u env b b' :
  sync_ok u env → sync_act env b = Some b' → rtc (solver_step u) (solver_of b) (solver_of b').
Proof.
  intros Hok. unfold sync_act. destruct (bd_reporting b) eqn:Er; [done|]. destruct (bd_forward b) eqn:Ef; [|done].
  destruct (ie_sync env) as [y|] eqn:Ey; [|by intros [= ->]].
  destruct (handle_consumed _ _ _) as [[d ids]|] eqn:Ec; [|by intros [= ->]]. intros [= <-].
  eapply rtc_l; [apply (ingest_step u (reports_only env)); by apply reports_ok|]. apply rtc_same.
  unfold ingest_act. cbn [solver_of sv_db]. rewrite (reports_only_once env y _ d ids Ey Ec).
  unfold solver_of. simpl. rewrite Er, Ef. simpl. by rewrite !app_nil_r, !app_assoc.
Qed.

Lemma report_refines cap b b' : report_act cap b = Some b' → solver_of b' = solver_of b.
Proof.
  unfold report_act. destruct (bd_reporting b) as [[env [|id ids]]|] eqn:Er; [done| |done].
  destruct (send _ _ _) as [ch|] eqn:Es; [|done]. apply send_Some in Es as [_ ->]. intros [= <-].
  unfold solver_of. simpl. rewrite Er. simpl. by rewrite <-!app_assoc.
Qed.

Lemma insert_refines u b b' :
  reporting_ok u b → insert_act b = Some b' → rtc (solver_step u) (solver_of b) (solver_of b').
Proof.
  intros Hok. unfold insert_act. destruct (bd_reporting b) as [[env [|]]|] eqn:Er; [|done..]. destruct (Hok _ _ Er) as [Henv Ef].
  destruct (store_notes env _) as [d os] eqn:Es. intros [= <-].
  set (os' := drained_orders (bd_tick b) ++ sv_orders (bd_core b) ++ os ++ bd_refeed b).
  destruct (stores_only_once env (sv_db (bd_core b))) as (E1 & E2 & E3). rewrite Es in E1, E3. simpl in E1, E3.
  etrans; [apply (interleaved u _ (ingest_act (stores_only env) (solver_of b)) os')|apply rtc_same].
  - by apply ingest_step, stores_ok.
  - unfold os', ingest_act. cbn [sv_orders sv_db solver_of]. rewrite E3, Ef. simpl. perm_app.
  - unfold os', ingest_act, with_orders, solver_of. simpl. rewrite E1, E2, Er. simpl. by rewrite !app_nil_r.
Qed.

Lemma forward_refines cap b b' : forward_act cap b = Some b' → solver_of b' = solver_of b.
Proof.
  unfold forward_act. destruct (bd_forward b) as [|o os] eqn:Ef; [done|].
  destruct (send _ _ _) as [ch|] eqn:Es; [|done]. apply send_Some in Es as [_ ->]. intros [= <-].
  unfold solver_of. simpl. rewrite Ef. by rewrite <-!app_assoc.
Qed.

Lemma drain_refines b b' : drain_act b = Some b' → solver_of b' = solver_of b.
Proof.
  unfold drain_act. destruct (bd_tick b) as [|ids|ids os|] eqn:Et; [| | |done].
  - intros [= <-]. unfold solver_of. simpl. by rewrite Et.
  - destruct (sv_consumed (bd_core b)) as [|id rest] eqn:Ec; intros [= <-]; unfold solver_of; simpl; rewrite Et, Ec; simpl; [done|].
    by rewrite <-!app_assoc.
  - destruct (sv_orders (bd_core b)) as [|o rest] eqn:Eo; [done|]. intros [= <-]. unfold solver_of. simpl. rewrite Et, Eo. simpl.
    by rewrite <-!app_assoc.
Qed.

(** The tick of the solver that received what the matcher drained. *)
Lemma match_refines `{HI : HashIter} `{CH : CycleHeap} u fuel i b b' :
  quotes_wf (ti_quotes i) → Z.of_nat (size (db_orders (sv_db (bd_core b)))) < two32 → match_act fuel i b = Some b' →
  solver_step u (solver_of b) (solver_of b').
Proof.
  intros Hq Hsz. unfold match_act. destruct (bd_tick b) as [| |ids os|] eqn:Et; [done|done| |done].
  destruct (sv_orders (bd_core b)) as [|] eqn:Eo; [|done]. destruct (tick fuel _ _) as [out|] eqn:Ht; [|done]. intros [= <-].
  pose proof (step_tick u HI CH fuel (received i ids os) (length ids) (length os) out (solver_of b)) as Hstep.
  unfold solver_of in *. simpl in *. rewrite Et, Eo in *. simpl in *. rewrite !take_app_length in Hstep.
  specialize (Hstep eq_refl eq_refl eq_refl Hq Hsz Ht). unfold tick_act in Hstep. simpl in Hstep.
  rewrite !drop_app_length, app_nil_r in Hstep. by destruct (to_batch out); simpl; rewrite ?app_nil_r in *.
Qed.

Lemma hand_over_refines cap b b' : hand_over_act cap b = Some b' → solver_of b' = solver_of b.
Proof.
  unfold hand_over_act. destruct (bd_tick b) as [| | |batch] eqn:Et; [done..|].
  destruct (send _ _ _) as [ch|] eqn:Es; [|done]. apply send_Some in Es as [_ ->]. intros [= <-].
  unfold solver_of. simpl. rewrite Et. simpl. by rewrite app_nil_r.
Qed.

Lemma receive_refines `{HashIter} u n solver_id conn b b' :
  (u = true → conn = true ∧ ∀ batch rest, sv_batches (bd_core b) = batch :: rest →
    ∃ c, prepare_batch_components n batch solver_id = inr c) →
  receive_act n solver_id conn b = Some b' → solver_step u (solver_of b) (solver_of b').
Proof.
  intros Hu. unfold receive_act. destruct (sv_running (bd_core b)) eqn:Er; [done|]. destruct (bd_refeed b) eqn:Ef; [|done].
  destruct (sv_batches (bd_core b)) as [|batch rest] eqn:Eb; [done|]. intros [= <-].
  assert (solver_of (mk_bounded (begin_act n solver_id conn (bd_core b)) (bd_reporting b) (bd_forward b) (bd_tick b) []) =
    begin_act n solver_id conn (solver_of b)) as ->.
  { unfold begin_act. cbn [solver_of sv_running sv_batches]. rewrite Er, Eb. cbn [app]. unfold solver_of. rewrite Ef.
    destruct (filled_notes batch); [done|]. destruct (prepare_batch_components _ _ _) as [|[c notes]]; [done|]. by destruct conn. }
  apply step_task, step_begin. intros Ht. destruct (Hu Ht) as [-> Hp]. split; [done|]. intros b0 r0.
  cbn [solver_of sv_batches]. rewrite Eb. intros [= <- _]. by eapply Hp.
Qed.

Lemma outcome_refines u env b b' :
  act_ok u (Outcome env) (bd_core b) → outcome_act env b = Some b' → solver_step u (solver_of b) (solver_of b').
Proof.
  intros Hu. unfold outcome_act. destruct (sv_running (bd_core b)) as [[batch notes]|] eqn:Er; [|done]. intros [= <-].
  assert (∀ s, s = finish_act env (solver_of b) → solver_step u (solver_of b) s) as Hs.
  { intros s ->. by apply step_task, step_finish. }
  apply Hs. unfold finish_act. cbn [solver_of sv_running]. rewrite Er. unfold solver_of. simpl. by rewrite <-!app_assoc.
Qed.

Lemma refeed_refines u cap b b' :
  refeed_act cap b = Some b' → solver_step u (solver_of b) (solver_of b').
Proof.
  unfold refeed_act. destruct (bd_refeed b) as [|o os] eqn:Ef; [done|].
  destruct (send _ _ _) as [ch|] eqn:Es; [|done]. apply send_Some in Es as [_ ->]. intros [= <-].
  apply step_task, (step_interleave u _ (solver_of b)). unfold solver_of. simpl. rewrite Ef. change (o :: os) with ([o] ++ os). perm_app.
Qed.

Lemma bounded_act_refines u cap a b b' :
  reporting_ok u b → act_ok u a (bd_core b) → bounded_act cap a b = Some b' →
  rtc (solver_step u) (solver_of b) (solver_of b').
Proof.
  intros Hr Hok. destruct a as [env| | | | |HI CH fuel i| |HI n solver_id conn|env| |d]; simpl in Hok |- *; intros Hact.
  - by eapply sync_refines.
  - by rewrite (report_refines _ _ _ Hact).
  - by apply insert_refines.
  - by rewrite (forward_refines _ _ _ Hact).
  - by rewrite (drain_refines _ _ Hact).
  - destruct Hok. by eapply rtc_once, match_refines.
  - by rewrite (hand_over_refines _ _ _ Hact).
  - by eapply rtc_once, receive_refines.
  - by eapply rtc_once, outcome_refines.
  - by eapply rtc_once, refeed_refines.
  - injection Hact as <-. destruct Hok as [Ho Hn]. by apply rtc_once, step_task, (step_tokens u d (solver_of b)).
Qed.

Lemma reporting_ok_step u cap a b b' :
  reporting_ok u b → act_ok u a (bd_core b) → bounded_act cap a b = Some b' → reporting_ok u b'.
Proof.
  intros Hr Hok Hact env' ids'. destruct a; act_cases Hact; try by apply Hr.
  - intros [= <- <-]. by split.
  - intros [= <- <-]. split; [by eapply Hr|]. by eapply Hr.
  - done.
  - intros Hrep. destruct (Hr _ _ Hrep). congruence.
Qed.

(** ** Capacities *)

Definition within (cap : nat) (s : Solver) : Prop :=
  (length (sv_orders s) <= cap)%nat ∧ (length (sv_consumed s) <= cap)%nat ∧ (length (sv_batches s) <= cap)%nat.

Lemma within_step cap a b b' : bounded_act cap a b = Some b' → within cap (bd_core b) → within cap (bd_core b').
Proof.
  unfold within. intros Hact Hw. destruct a as [env| | | | |HI CH fuel i| |HI n solver_id conn|env| |d]; act_cases Hact; simpl in *;
    rewrite ?length_app; simpl; try lia;
    try match goal with |- context [begin_act ?n ?i ?c ?s] => destruct (begin_queues n i c s) as (-> & -> & ->) end;
    repeat match goal with E : _ (bd_core b) = _ |- _ => rewrite E in * end; simpl in *; lia.
Qed.

(** ** Who waits for whom *)

Definition couples (s : Solver) : Prop := Forall (λ b, (2 <= length (filled_notes b))%nat) (sv_batches s).

Lemma step_couples u s s' : id_roundtrip → solver_step u s s' → solver_inv s → couples s → couples s'.
Proof.
  unfold couples. intros Hid [s1 s2 Hstep|HI CH fuel i j k out s1 Hc Ho Hopen Hq Hsz Ht] Hinv Hcs.
  - apply Forall_forall. intros b Hb. rewrite Forall_forall in Hcs. by eapply Hcs, task_batches.
  - destruct (tick_inv fuel i j k out s1 Hid Hinv Hc Ho Hopen Hq Hsz Ht) as (Hin & _). simpl. apply Forall_app. split; [done|].
    destruct (to_batch out) as [eb|] eqn:Eb; simpl; [|done]. constructor; [|done]. by eapply tick_coupled; [apply Hinv|..].
Qed.

Lemma couples_length bs :
  Forall (λ b, (2 <= length (filled_notes b))%nat) bs → (2 * length bs <= length (mjoin (ids_of <$> bs)))%nat.
Proof.
  induction 1 as [|b bs Hb _ IH]; [done|]. change (mjoin (ids_of <$> b :: bs)) with (ids_of b ++ mjoin (ids_of <$> bs)).
  rewrite length_app. unfold ids_of at 1. rewrite length_fmap. simpl. lia.
Qed.

(** It takes many orders to fill both channels. *)
Lemma deadlock_orders cap b :
  id_roundtrip → solver_inv (solver_of b) → couples (solver_of b) → deadlocked cap b →
  (3 * cap + 3 <= size (db_orders (sv_db (bd_core b))))%nat.
Proof.
  intros Hid Hinv Hc (Hh & Hb & _ & Hr & Ho).
  pose proof (stored_length _ _ Hid (si_places _ Hinv) (si_stored _ Hinv)) as Hlen. etrans; [|exact Hlen].
  pose proof (couples_length _ Hc) as H2. unfold places, in_flight. rewrite !length_app. simpl in *.
  rewrite length_fmap, !length_app in *.
  destruct (handed_batch (bd_tick b)); [done|]. destruct (bd_refeed b); [done|]. simpl in *. lia.
Qed.

(** Nothing resolves it: the matcher's and the executor's part stay as they are. *)
Definition same_pipeline (b b' : Bounded) : Prop :=
  bd_tick b' = bd_tick b ∧ bd_refeed b' = bd_refeed b ∧ sv_matcher (bd_core b') = sv_matcher (bd_core b) ∧
  sv_orders (bd_core b') = sv_orders (bd_core b) ∧ sv_batches (bd_core b') = sv_batches (bd_core b) ∧
  sv_running (bd_core b') = sv_running (bd_core b) ∧ sv_done (bd_core b') = sv_done (bd_core b).

Lemma deadlock_act cap a b b' : deadlocked cap b → bounded_act cap a b = Some b' → same_pipeline b b'.
Proof.
  intros (Hh & Hb & Hr & Hf & Ho) Hact. destruct a as [env| | | | |HI CH fuel i| |HI n solver_id conn|env| |d]; act_cases Hact;
    repeat match goal with E : bd_tick b = _ |- _ => rewrite E in Hh end; try done; try lia.
Qed.

Lemma deadlock_permanent cap u b b' : rtc (bounded_step cap u) b b' → deadlocked cap b → deadlocked cap b' ∧ same_pipeline b b'.
Proof.
  induction 1 as [b|b b1 b2 (a & _ & Hact) _ IH]; intros Hd; [done|].
  pose proof (deadlock_act cap a b b1 Hd Hact) as (E1 & E2 & E3 & E4 & E5 & E6 & E7).
  assert (deadlocked cap b1) as Hd1 by (unfold deadlocked in *; congruence).
  destruct (IH Hd1) as (? & F1 & F2 & F3 & F4 & F5 & F6 & F7). split; [done|]. split_and!; congruence.
Qed.

(** ** Reachable states *)

Record bounded_inv (cap : nat) (b : Bounded) : Prop := {
  bv_within : within cap (bd_core b);
  bv_reporting : reporting_ok false b;
  bv_executor : sv_running (bd_core b) = None ∨ bd_refeed b = [];
  bv_solver : solver_inv (solver_of b);
  bv_couples : couples (solver_of b);
}.

Lemma executor_step cap a b b' :
  bounded_act cap a b = Some b' → sv_running (bd_core b) = None ∨ bd_refeed b = [] →
  sv_running (bd_core b') = None ∨ bd_refeed b' = [].
Proof.
  intros Hact Hx. destruct a as [env| | | | |HI CH fuel i| |HI n solver_id conn|env| |d]; act_cases Hact; try tauto; try naive_solver.
Qed.

Lemma bounded_inv_step cap a b b' :
  id_roundtrip → pswap_amounts_u64 → note_roundtrip → act_ok false a (bd_core b) → bounded_act cap a b = Some b' →
  bounded_inv cap b → bounded_inv cap b'.
Proof.
  intros Hid Hu Hn Hok Hact [Hw Hr Hx Hs Hc]. pose proof (bounded_act_refines false cap a b b' Hr Hok Hact) as Hsteps.
  assert (solver_inv (solver_of b') ∧ couples (solver_of b')) as [? ?].
  { clear -Hid Hu Hn Hsteps Hs Hc. revert Hs Hc. induction Hsteps as [|x y z Hxy _ IH]; [done|].
    intros Hs Hc. apply IH; [by eapply step_inv|by eapply step_couples]. }
  split; [by eapply within_step|by eapply reporting_ok_step|by eapply executor_step|done..].
Qed.

Lemma act_ok_disturbed u a s : act_ok u a s → act_ok false a s.
Proof. destruct a; simpl; try done. intros [? _]. by split. Qed.

Lemma boot_bounded `{HashIter} cap n prices tri router unix d :
  id_roundtrip → boot_ok d → Z.of_nat (size (db_orders d)) < two32 →
  bounded_inv cap (bounded_boot (solver_boot n prices tri router unix d)).
Proof.
  intros Hid Hd Hsz. destruct (boot_solver_inv n prices tri router unix d Hid Hd Hsz) as [Hinv _].
  split; [repeat split; simpl; lia|done|by left|exact Hinv|by constructor].
Qed.

Lemma reachable_inv `{HashIter} cap n prices tri router unix d u b :
  id_roundtrip → pswap_amounts_u64 → note_roundtrip → boot_ok d → Z.of_nat (size (db_orders d)) < two32 →
  rtc (bounded_step cap u) (bounded_boot (solver_boot n prices tri router unix d)) b → bounded_inv cap b.
Proof.
  intros Hid Hu Hn Hd Hsz Hrun. pose proof (boot_bounded cap n prices tri router unix d Hid Hd Hsz) as Hb. revert Hb.
  induction Hrun as [|x y z (a & Hok & Hact) _ IH]; [done|]. intros Hx. apply IH.
  by eapply bounded_inv_step; [..|apply (act_ok_disturbed u)| |].
Qed.

(** ** Steps of one task *)

Definition steps_by (P : BoundedAct → Prop) (cap : nat) : relation Bounded :=
  rtc (λ b b', ∃ a, P a ∧ act_ok false a (bd_core b) ∧ bounded_act cap a b = Some b').

Lemma steps_by_mono (P Q : BoundedAct → Prop) cap b b' : (∀ a, P a → Q a) → steps_by P cap b b' → steps_by Q cap b b'.
Proof. intros HPQ. apply rtc_subrel. intros ? ? (a & ? & ?). exists a. auto. Qed.

Lemma steps_by_inv cap P b b' :
  id_roundtrip → pswap_amounts_u64 → note_roundtrip → steps_by P cap b b' → bounded_inv cap b → bounded_inv cap b'.
Proof. intros Hid Hu Hn. induction 1 as [|b b1 b2 (a & _ & Hok & Hact) _ IH]; [done|]. intros Hb. by eapply IH, bounded_inv_step. Qed.

(** The matcher receives and hands over. *)
Definition matcher_acts (a : BoundedAct) : Prop := a = Drain ∨ a = HandOver.

(** The executor receives batches, and its submissions have the given outcome. *)
Definition executor_acts (HI : HashIter) (n solver_id : N) (conn : bool) (env : ExecEnv) (a : BoundedAct) : Prop :=
  a = Receive HI n solver_id conn ∨ a = Outcome env ∨ a = Refeed.

(** A slot of the order channel, by steps of the matcher alone. *)
Definition gets_slot (cap : nat) (b : Bounded) : Prop :=
  ∃ b', steps_by matcher_acts cap b b' ∧ bd_refeed b' = bd_refeed b ∧ bd_forward b' = bd_forward b ∧
    (length (sv_orders (bd_core b')) < cap)%nat.

Lemma gets_slot_step cap a b b1 :
  matcher_acts a → act_ok false a (bd_core b) → bounded_act cap a b = Some b1 →
  bd_refeed b1 = bd_refeed b → bd_forward b1 = bd_forward b → gets_slot cap b1 → gets_slot cap b.
Proof.
  intros Ha Hok Hact Hr Hf (b2 & Hs & Hr2 & Hf2 & Hl). exists b2. split_and!; [|congruence..|done].
  eapply rtc_l; [|exact Hs]. by exists a.
Qed.

Lemma draining_gets_slot cap ids os b :
  bd_tick b = DrainingOrders ids os → (length (sv_orders (bd_core b)) <= cap)%nat → (0 < cap)%nat → gets_slot cap b.
Proof.
  intros Ht Hle Hcap. destruct (sv_orders (bd_core b)) as [|o rest] eqn:Eo.
  - exists b. split_and!; [done..|]. by rewrite Eo.
  - eapply (gets_slot_step cap Drain); [by left|done|simpl; unfold drain_act; by rewrite Ht, Eo|done|done|].
    eexists. split_and!; [apply rtc_refl|done|done|]. simpl in *. lia.
Qed.

Lemma consumed_gets_slot cap cs ids b :
  bd_tick b = DrainingConsumed ids → sv_consumed (bd_core b) = cs →
  (length (sv_orders (bd_core b)) <= cap)%nat → (0 < cap)%nat → gets_slot cap b.
Proof.
  revert ids b. induction cs as [|c cs IH]; intros ids b Ht Ec Hle Hcap;
    (eapply (gets_slot_step cap Drain); [by left|done|simpl; unfold drain_act; by rewrite Ht, Ec|done|done|]).
  - by apply (draining_gets_slot cap ids []).
  - by apply (IH (ids ++ [c])).
Qed.

(** The matcher, when it can hand over its batch, soon receives an order. *)
Lemma matcher_receives cap b :
  (length (sv_orders (bd_core b)) <= cap)%nat → (0 < cap)%nat →
  handed_batch (bd_tick b) = [] ∨ (length (sv_batches (bd_core b)) < cap)%nat → gets_slot cap b.
Proof.
  assert (∀ b, bd_tick b = Waiting → (length (sv_orders (bd_core b)) <= cap)%nat → (0 < cap)%nat → gets_slot cap b) as Hwait.
  { intros b0 Ht Hle Hcap. eapply (gets_slot_step cap Drain); [by left|done|simpl; unfold drain_act; by rewrite Ht|done|done|].
    by apply (consumed_gets_slot cap (sv_consumed (bd_core b0)) []). }
  intros Hle Hcap Hm. destruct (bd_tick b) as [|ids|ids os|batch] eqn:Et;
    [by apply Hwait|by apply (consumed_gets_slot cap (sv_consumed (bd_core b)) ids)|by apply (draining_gets_slot cap ids os)|].
  destruct Hm as [Hm|Hm]; [done|].
  eapply (gets_slot_step cap HandOver); [by right|done|simpl; unfold hand_over_act, send; rewrite Et, (proj2 (Nat.ltb_lt _ _) Hm); done|done|done|].
  by apply Hwait.
Qed.

(** ** The executor takes a batch *)

Section executor.
Context (cap : nat) (HI : HashIter) (n solver_id : N) (conn : bool) (env : ExecEnv).

(** A slot of the executor's channel, by steps of the executor alone. *)
Definition takes_batch (b : Bounded) : Prop :=
  ∃ b', steps_by (executor_acts HI n solver_id conn env) cap b b' ∧ bd_tick b' = bd_tick b ∧ bd_forward b' = bd_forward b ∧
    (length (sv_batches (bd_core b')) < cap)%nat.

Lemma takes_batch_step a b b1 :
  executor_acts HI n solver_id conn env a → act_ok false a (bd_core b) → bounded_act cap a b = Some b1 →
  bd_tick b1 = bd_tick b → bd_forward b1 = bd_forward b → takes_batch b1 → takes_batch b.
Proof.
  intros Ha Hok Hact Hr Hf (b2 & Hs & Hr2 & Hf2 & Hl). exists b2. split_and!; [|congruence..|done].
  eapply rtc_l; [|exact Hs]. by exists a.
Qed.

Hypothesis Hid : id_roundtrip.
Hypothesis Hu : pswap_amounts_u64.
Hypothesis Hn : note_roundtrip.
Hypothesis Hcap : (0 < cap)%nat.

Lemma idle_takes_batch b : sv_running (bd_core b) = None → bd_refeed b = [] → within cap (bd_core b) → takes_batch b.
Proof.
  intros Hr Hf (_ & _ & Hb). destruct (sv_batches (bd_core b)) as [|batch rest] eqn:Eb.
  - exists b. split_and!; [apply rtc_refl|done|done|by rewrite Eb].
  - eapply (takes_batch_step (Receive HI n solver_id conn)); [by left|done|simpl; unfold receive_act; by rewrite Hr, Hf, Eb|done|done|].
    eexists. split_and!; [apply rtc_refl|done|done|]. simpl. destruct (begin_queues n solver_id conn (bd_core b)) as (_ & _ & ->).
    rewrite Hr, Eb. simpl in *. lia.
Qed.

Lemma refeeding_takes_batch os b :
  bd_refeed b = os → sv_running (bd_core b) = None → bounded_inv cap b →
  (size (db_orders (sv_db (bd_core b))) < 3 * cap + 3)%nat → handed_batch (bd_tick b) ≠ [] → takes_batch b.
Proof.
  revert b. induction os as [|o os IH]; intros b Hf Hr Hinv Hsz Hh; [apply idle_takes_batch; [done..|apply Hinv]|].
  destruct (decide (length (sv_batches (bd_core b)) < cap)%nat) as [Hb|Hb]; [exists b; by split_and!; [apply rtc_refl|..]|].
  destruct (decide (length (sv_orders (bd_core b)) < cap)%nat) as [Ho|Ho].
  - assert (∃ b1, bounded_act cap Refeed b = Some b1 ∧ bd_refeed b1 = os ∧ sv_running (bd_core b1) = None ∧
      sv_db (bd_core b1) = sv_db (bd_core b) ∧ bd_tick b1 = bd_tick b ∧ bd_forward b1 = bd_forward b) as (b1 & Hact & E1 & E2 & E3 & E4 & E5).
    { simpl. unfold refeed_act, send. rewrite Hf, (proj2 (Nat.ltb_lt _ _) Ho). simpl. by eexists. }
    eapply (takes_batch_step Refeed); [by right; right|done|exact Hact|done|done|]. apply IH; try done; [|by rewrite E3|by rewrite E4].
    by eapply bounded_inv_step; [..|exact Hact|].
  - assert (3 * cap + 3 <= size (db_orders (sv_db (bd_core b))))%nat as H3; [|lia]. apply deadlock_orders; [done|apply Hinv|apply Hinv|].
    split_and!; [done|lia|done|by rewrite Hf|lia].
Qed.

(** Whatever the outcome of its submission. *)
Lemma executor_takes_batch b :
  bounded_inv cap b → (size (db_orders (sv_db (bd_core b))) < 3 * cap + 3)%nat → handed_batch (bd_tick b) ≠ [] → takes_batch b.
Proof.
  intros Hinv Hsz Hh. destruct (sv_running (bd_core b)) as [[batch notes]|] eqn:Er; [|by apply (refeeding_takes_batch (bd_refeed b))].
  assert (∃ b1, bounded_act cap (Outcome env) b = Some b1 ∧ sv_running (bd_core b1) = None ∧
    sv_db (bd_core b1) = eo_db (exec_finish env (sv_db (bd_core b)) batch notes) ∧
    bd_tick b1 = bd_tick b ∧ bd_forward b1 = bd_forward b) as (b1 & Hact & E2 & E3 & E4 & E5).
  { simpl. unfold outcome_act. rewrite Er. by eexists. }
  eapply (takes_batch_step (Outcome env)); [by right; left|done|exact Hact|done|done|].
  apply (refeeding_takes_batch (bd_refeed b1)); [done|done|by eapply bounded_inv_step; [..|exact Hact|]| |by rewrite E4].
  rewrite E3. assert (dom (db_orders (eo_db (exec_finish env (sv_db (bd_core b)) batch notes))) = dom (db_orders (sv_db (bd_core b)))) as Hdom.
  { apply set_eq. intros k. rewrite !elem_of_dom, <-!not_eq_None_Some. by rewrite (relabelled_None _ _ k (finish_relabel env (sv_db (bd_core b)) batch notes)). }
  by rewrite <-(size_dom (db_orders (eo_db _))), Hdom, size_dom.
Qed.
End executor.

(** ** Theorems *)

(** C7. The bounded pipeline refines the solver.  However the tasks interleave, message by message,
    with channels of any capacity, the solver together with the messages in the hands of waiting
    tasks moves only as the solver with unbounded channels may, and no channel ever holds more than
    its capacity.  So whatever holds of every run of the solver holds of the bounded pipeline. *)
Theorem bounded_refines_solver `{HashIter} cap n prices tri router unix d u b :
  rtc (bounded_step cap u) (bounded_boot (solver_boot n prices tri router unix d)) b →
  rtc (solver_step u) (solver_boot n prices tri router unix d) (solver_of b) ∧ within cap (bd_core b).
Proof.
  set (s0 := solver_boot n prices tri router unix d). intros Hrun.
  assert (reporting_ok u (bounded_boot s0) ∧ within cap (bd_core (bounded_boot s0))) as [Hr Hw].
  { split; [done|]. repeat split; simpl; lia. }
  change s0 with (solver_of (bounded_boot s0)) at 1. generalize dependent (bounded_boot s0). intros b0 Hrun.
  induction Hrun as [b0|b0 b1 b2 (a & Hok & Hact) _ IH]; [done|]. intros Hr Hw.
  destruct IH as [IH1 IH2]; [by eapply reporting_ok_step|by eapply within_step|]. split; [|done].
  etrans; [by eapply bounded_act_refines|exact IH1].
Qed.

End refinement.

(** ** Runs *)

Section runs.
Context `{!Miden}.

(** What an environment allows in every state, and what has to be looked at. *)
Definition always_ok (u : bool) (a : BoundedAct) : Prop :=
  match a with
  | Sync env => sync_ok u env
  | Outcome env =>
    u = true → ee_final_conn env = true ∧ (∀ i, ee_order_open env i = true) ∧
      su_outcome (submit_with_rpc_backoff (ee_build_ok env) (ee_reply env) (ee_cancelled env)) ≠ Cancelled ∧
      ∀ notes, is_Some (check_consumed_notes (ee_heights env) notes)
  | Tokens _ => False
  | _ => True
  end.

Definition allowed (a : BoundedAct) (s : Solver) : bool :=
  match a with
  | Match HI CH fuel i => bool_decide (ti_quotes i = ∅) && (Z.of_nat (size (db_orders (sv_db s))) <? two32)
  | Receive HI n solver_id conn =>
    conn && match sv_batches s with
            | [] => true
            | batch :: _ => match prepare_batch_components n batch solver_id with inr _ => true | inl _ => false end
            end
  | _ => true
  end.

Lemma allowed_ok u a s : always_ok u a → allowed a s = true → act_ok u a s.
Proof.
  destruct a as [env| | | | |HI CH fuel i| |HI n solver_id conn|env| |d]; simpl; try done.
  - intros _ [Hq%bool_decide_eq_true Hs%Z.ltb_lt]%andb_true_iff. split; [|done]. rewrite Hq. intros p qs Hp. by rewrite lookup_empty in Hp.
  - intros _ [-> Hb]%andb_true_iff _. split; [done|]. intros batch rest E. rewrite E in Hb.
    destruct (prepare_batch_components _ _ _) as [|c]; [done|]. by exists c.
Qed.

Fixpoint run_acts (cap : nat) (acts : list BoundedAct) (b : Bounded) : option Bounded :=
  match acts with
  | [] => Some b
  | a :: acts => if allowed a (bd_core b) then bounded_act cap a b ≫= run_acts cap acts else None
  end.

Lemma run_acts_steps u cap acts b b' :
  Forall (always_ok u) acts → run_acts cap acts b = Some b' → rtc (bounded_step cap u) b b'.
Proof.
  intros Hok. revert b. induction Hok as [|a acts Ha _ IH]; intros b; cbn [run_acts]; [by intros [= ->]|].
  destruct (allowed a (bd_core b)) eqn:Eo; [|done]. destruct (bounded_act cap a b) as [b1|] eqn:Ea; [|done]. intros Hrun.
  eapply rtc_l; [|by apply IH]. exists a. split; [by apply allowed_ok|done].
Qed.
End runs.

#[local] Existing Instance demo_miden.
#[local] Existing Instance elements_iter.
#[local] Existing Instance list_heap.

(** A sync with two orders that cross. *)
Definition pair_env (id : N) : IngestEnv :=
  mk_env (Some (mk_sync 12 [mk_demo true id 1 100 2 40 0; mk_demo true (id + 1) 2 60 1 80 0] [])) true true (λ _, true) (λ _, true) (λ _, 0).

(** The two orders reach the matcher through a channel of one slot, and are matched. *)
Definition pair_acts (id : N) : list BoundedAct :=
  [Sync (pair_env id); Insert; Forward; Drain; Drain; Drain; Forward; Drain; Match elements_iter list_heap 10 (plain_tick [])].

(** Three pairs are matched while the submission of the first is under way; it then fails because
    the node is down. *)
Definition jam_acts : list BoundedAct :=
  pair_acts 2 ++ [HandOver; Receive elements_iter 0 0 true] ++ pair_acts 4 ++ [HandOver] ++ pair_acts 6 ++ [Outcome down_env].

Definition after_run (acts : list BoundedAct) : Bounded := default (bounded_boot run_boot) (run_acts 1 acts (bounded_boot run_boot)).
Definition jammed : Bounded := after_run (jam_acts ++ [Refeed]).

Lemma pair_env_ok u id : sync_ok u (pair_env id).
Proof. split; [|done]. intros y [= <-]. simpl. repeat constructor; rewrite ?list_elem_of_singleton; [|apply not_elem_of_nil]. cbv -[N.add]. lia. Qed.

Lemma pair_acts_ok u id : Forall (always_ok u) (pair_acts id).
Proof. repeat constructor; apply (pair_env_ok u id). Qed.

Lemma down_ok u : always_ok u (Outcome down_env).
Proof. intros _. split_and!; [done|done|vm_compute; done|]. intros [|x notes]; by eexists. Qed.

Lemma jam_acts_ok u : Forall (always_ok u) (jam_acts ++ [Refeed]).
Proof.
  pose proof (down_ok u). unfold jam_acts.
  repeat (apply Forall_app; split); try apply pair_acts_ok; repeat (apply Forall_cons; split); try apply Forall_nil; done.
Qed.

Lemma after_run_steps u acts :
  Forall (always_ok u) acts → match run_acts 1 acts (bounded_boot run_boot) with Some _ => true | None => false end = true →
  rtc (bounded_step 1 u) (bounded_boot run_boot) (after_run acts).
Proof.
  intros Hok. unfold after_run. destruct (run_acts _ _ _) as [b|] eqn:Hb; [|done]. intros _. by apply (run_acts_steps u 1 acts).
Qed.

Lemma jammed_steps u : rtc (bounded_step 1 u) (bounded_boot run_boot) jammed.
Proof. apply after_run_steps; [apply jam_acts_ok|vm_compute; reflexivity]. Qed.

(** At the bound the two can wait for each other.  With one slot in each channel, six orders and an
    undisturbed run in which only the node was down for a while, the matcher waits for the
    executor's channel and the executor, handing back what could not be submitted, for the
    matcher's; and this never changes again, whatever ingest does. *)
Theorem full_channels_deadlock :
  rtc (bounded_step 1 true) (bounded_boot run_boot) jammed ∧ size (db_orders (sv_db (bd_core jammed))) = 6%nat ∧
  deadlocked 1 jammed ∧ ∀ b, rtc (bounded_step 1 true) jammed b → deadlocked 1 b ∧ same_pipeline jammed b.
Proof.
  assert (deadlocked 1 jammed) as Hd by (split_and!; vm_compute; [done|lia|done|done|lia]).
  split_and!; [apply jammed_steps|vm_compute; reflexivity|done|]. intros b Hb. by eapply deadlock_permanent.
Qed.

Lemma bounded_refines_solver_witness :
  rtc (solver_step true) run_boot (solver_of jammed) ∧ within 1 (bd_core jammed) ∧
  ids_of <$> sv_batches (solver_of jammed) = [[4%N; 5%N]; [6%N; 7%N]].
Proof.
  destruct (bounded_refines_solver 1 0 demo_prices false None (λ _, 7) db_empty true jammed (jammed_steps true)) as [H1 H2].
  split_and!; [exact H1|exact H2|vm_compute; reflexivity].
Defined.

(** Two pairs: the first batch fills the channel, the matcher waits with the second. *)
Definition waiting_acts : list BoundedAct := pair_acts 2 ++ [HandOver] ++ pair_acts 4.

Lemma waiting_steps : rtc (bounded_step 1 true) (bounded_boot run_boot) (after_run waiting_acts).
Proof.
  apply after_run_steps; [|vm_compute; reflexivity]. unfold waiting_acts. repeat (apply Forall_app; split); try apply pair_acts_ok. by repeat constructor.
Qed.

