(* ===== verification/Process.v ===== *)
(** * The running process (crates/solver/src/start.rs, pipeline.rs [spawn_core_services])

    The main thread from the startup gate to its return, the services it runs, the client
    threads with their tasks and the server threads, all sharing one cancellation token, as
    one machine over every interleaving. *)

From stdpp Require Import option.
From S2P Require Import Prelude.
From S2P Require Import Config.
From S2P Require Import Startup.

(** ** State *)

(** The tasks of the main thread. *)
Inductive Service := MatcherService | PriceService | AdminService | ObsService.

#[export] Instance Service_eq_dec : EqDecision Service.
Proof. solve_decision. Defined.

(** A thread: before its readiness signal, ended with an error signal or none, a client thread
    with its tasks, a server that is serving or has stopped. *)
Inductive ThreadState :=
  | Starting
  | NotUp (r : Ready)
  | Client (c : ClientThread)
  | Serving
  | Stopped.

(** The main thread: waiting for the signals of these threads, in its [select!], joining these
    threads, or returned; the result is the error of the gate. *)
Inductive Main :=
  | Gating (ts : list Thread)
  | Watching
  | Joining (ts : list Thread) (result : StartError + unit)
  | Returned (result : StartError + unit).

(** [pr_cancel] is the token, [pr_exited] tells which services have ended. *)
Record Process := mk_process {
  pr_all : list Thread;
  pr_cancel : bool;
  pr_exited : Service → bool;
  pr_thread : Thread → ThreadState;
  pr_main : Main;
}.

Definition process_new (ts : list Thread) : Process := mk_process ts false (λ _, false) (λ _, Starting) (Gating ts).

Definition is_client (t : Thread) : bool := match t with IngestThread | ExecutorThread => true | _ => false end.

(** [JoinHandle::join] returns once the thread has ended, in a panic too. *)
Definition ended (x : ThreadState) : bool :=
  match x with
  | NotUp _ | Stopped => true
  | Client c => match ct_body c with Ended | Panicked => true | _ => false end
  | Starting | Serving => false
  end.

Definition with_main (s : Process) (m : Main) : Process :=
  mk_process (pr_all s) (pr_cancel s) (pr_exited s) (pr_thread s) m.
Definition cancelled (s : Process) : Process := mk_process (pr_all s) true (pr_exited s) (pr_thread s) (pr_main s).
Definition with_thread (s : Process) (t : Thread) (x : ThreadState) : Process :=
  mk_process (pr_all s) (pr_cancel s) (pr_exited s) (λ t', if decide (t' = t) then x else pr_thread s t') (pr_main s).
Definition with_exited (s : Process) (v : Service) : Process :=
  mk_process (pr_all s) (pr_cancel s) (λ v', if decide (v' = v) then true else pr_exited s v') (pr_thread s) (pr_main s).

(** ** Steps *)

(** A client thread acts on the shared token. *)
Definition sees (c : ClientThread) (cancel : bool) : ClientThread :=
  mk_client cancel (ct_task c) (ct_polled c) (ct_abort c) (ct_body c).

Definition client_turn (s : Process) (t : Thread) (a : ClientAct) : option Process :=
  match pr_thread s t with
  | Client c =>
    c' ← client_act (sees c (pr_cancel s)) a;
    Some (mk_process (pr_all s) (ct_cancel c') (pr_exited s) (λ t', if decide (t' = t) then Client c' else pr_thread s t') (pr_main s))
  | _ => None
  end.

(** What the main thread does next, if it can. *)
Definition main_turn (s : Process) : option Process :=
  match pr_main s with
  | Gating [] => Some (with_main s Watching)
  | Gating (t :: ts) =>
    match pr_thread s t with
    | Starting => None
    | NotUp (SignalErr stage) => Some (with_main (cancelled s) (Joining (pr_all s) (inl (NotReady t stage))))
    | NotUp _ => Some (with_main (cancelled s) (Joining (pr_all s) (inl (Exited t))))
    | _ => Some (with_main s (Gating ts))
    end
  | Watching =>
    if pr_cancel s || existsb (pr_exited s) [MatcherService; PriceService; AdminService; ObsService]
    then Some (with_main (cancelled s) (Joining (pr_all s) (inr tt)))
    else None
  | Joining [] r => Some (with_main s (Returned r))
  | Joining (t :: ts) r => if ended (pr_thread s t) then Some (with_main s (Joining ts r)) else None
  | Returned _ => None
  end.

Inductive ProcessAct :=
  | Interrupt
  | ServiceExit (v : Service)
  | AdminFailed
  | ThreadUp (t : Thread)
  | ThreadFails (t : Thread) (r : Ready)
  | ClientTurn (t : Thread) (a : ClientAct)
  | ServerFailed (t : Thread)
  | ServerStops (t : Thread)
  | MainTurn.

(** Ctrl-C cancels; a service ends; the admin server cancels when it cannot bind or fails; a
    thread comes up or not; a server ends by itself or because of the cancellation. *)
Definition process_act (s : Process) (a : ProcessAct) : option Process :=
  match a with
  | Interrupt => Some (cancelled s)
  | ServiceExit v => Some (with_exited s v)
  | AdminFailed => Some (with_exited (cancelled s) AdminService)
  | ThreadUp t =>
    match pr_thread s t with Starting => Some (with_thread s t (if is_client t then Client client_new else Serving)) | _ => None end
  | ThreadFails t r =>
    match pr_thread s t, r with
    | Starting, SignalOk => None
    | Starting, _ => Some (with_thread s t (NotUp r))
    | _, _ => None
    end
  | ClientTurn t a => client_turn s t a
  | ServerFailed t => match pr_thread s t with Serving => Some (with_thread s t Stopped) | _ => None end
  | ServerStops t => match pr_thread s t with Serving => if pr_cancel s then Some (with_thread s t Stopped) else None | _ => None end
  | MainTurn => main_turn s
  end.

Definition process_step (s s' : Process) : Prop := ∃ a, process_act s a = Some s'.

(** ** Invariant *)

Definition thread_ok (cancel : bool) (x : ThreadState) : Prop :=
  match x with
  | NotUp r => r ≠ SignalOk
  | Client c => client_inv c ∧ (ct_body c ≠ Selecting → cancel = true)
  | _ => True
  end.

(** The thread has signalled that it is ready. *)
Definition is_up (x : ThreadState) : bool := match x with Starting | NotUp _ => false | _ => true end.
Definition all_up (s : Process) : Prop := ∀ t, t ∈ pr_all s → is_up (pr_thread s t) = true.

(** A result is explained by the threads: success by all being up, an error by the thread it
    names. *)
Definition explains (s : Process) (r : StartError + unit) : Prop :=
  match r with
  | inr _ => all_up s
  | inl e => ∃ t r, t ∈ pr_all s ∧ pr_thread s t = NotUp r ∧ e = match r with SignalErr stage => NotReady t stage | _ => Exited t end
  end.

(** What the position of the main thread implies. *)
Definition main_ok (s : Process) : Prop :=
  match pr_main s with
  | Gating ts => ∃ pre, pr_all s = pre ++ ts ∧ ∀ t, t ∈ pre → is_up (pr_thread s t) = true
  | Watching => all_up s
  | Joining ts r => pr_cancel s = true ∧ explains s r ∧
      ∃ pre, pr_all s = pre ++ ts ∧ ∀ t, t ∈ pre → ended (pr_thread s t) = true
  | Returned r => pr_cancel s = true ∧ explains s r ∧ ∀ t, t ∈ pr_all s → ended (pr_thread s t) = true
  end.

Record process_inv (s : Process) : Prop := {
  pi_thread : ∀ t, thread_ok (pr_cancel s) (pr_thread s t);
  pi_main : main_ok s;
}.

(** A thread that is up or has ended stays so, and one that did not come up never does. *)
Definition evolves (x x' : ThreadState) : Prop :=
  (is_up x = true → is_up x' = true) ∧ (ended x = true → ended x' = true) ∧ ∀ r, x = NotUp r → x' = x.

Lemma evolve_inv s s' :
  pr_all s' = pr_all s → pr_main s' = pr_main s → (pr_cancel s = true → pr_cancel s' = true) →
  (∀ t, evolves (pr_thread s t) (pr_thread s' t)) → (∀ t, thread_ok (pr_cancel s') (pr_thread s' t)) →
  process_inv s → process_inv s'.
Proof.
  intros Ea Em Hc He Ht [_ Hm]. split; [done|].
  assert (∀ r, explains s r → explains s' r) as Hex.
  { intros [e|u]; simpl.
    - intros (t & r & Hin & Hr & ->). exists t, r. rewrite Ea. split_and!; [done| |done]. rewrite <-Hr. by eapply (He t).
    - intros Hup t. rewrite Ea. intros Hin. by apply He, Hup. }
  unfold main_ok, all_up in *. rewrite Ea, Em. destruct (pr_main s) as [ts| |ts r|r].
  - destruct Hm as (pre & Hp & Hup). exists pre. split; [done|]. intros t Hin. by apply He, Hup.
  - intros t Hin. by apply He, Hm.
  - destruct Hm as (? & Hup & pre & Hp & Hen). split_and!; [auto..|]. exists pre. split; [done|]. intros t Hin. by apply He, Hen.
  - destruct Hm as (? & Hup & Hen). split_and!; [auto..|]. intros t Hin. by apply He, Hen.
Qed.

Lemma thread_ok_cancel c x : thread_ok c x → thread_ok true x.
Proof. destruct x; naive_solver. Qed.

Lemma cancelled_inv s : process_inv s → process_inv (cancelled s).
Proof.
  intros Hs. apply (evolve_inv s); [done..| |done]. intros t. eapply thread_ok_cancel, (pi_thread _ Hs).
Qed.

Lemma exited_inv s v : process_inv s → process_inv (with_exited s v).
Proof. intros Hs. apply (evolve_inv s); [done..|apply Hs|done]. Qed.

Lemma with_thread_inv s t x :
  evolves (pr_thread s t) x → thread_ok (pr_cancel s) x → process_inv s → process_inv (with_thread s t x).
Proof.
  intros He Hx Hs. apply (evolve_inv s); [done..| | |done]; intros t'; simpl; case_decide; subst; try done. apply Hs.
Qed.

(** ** Client threads *)

Lemma client_new_inv : client_inv client_new.
Proof. split; simpl; try done; naive_solver. Qed.

Lemma sees_inv c cancel : client_inv c → (ct_body c ≠ Selecting → cancel = true) → client_inv (sees c cancel).
Proof. intros [H1 H2 H3 H4 H5 H6 H7] Hc. split; simpl; try done. intros Hb. destruct (H3 Hb). auto. Qed.

Lemma act_cancel c a c' : client_act c a = Some c' → ct_cancel c = true → ct_cancel c' = true.
Proof. destruct a; simpl; intros Ha Hc; unfold poll_handle in *; repeat (case_match; try done); by simplify_eq/=. Qed.

Lemma act_ended c a c' : client_act c a = Some c' → ct_body c = Ended → ct_body c' = Ended.
Proof. destruct a; simpl; intros Ha Hb; rewrite ?Hb in Ha; repeat (case_match; try done); by simplify_eq/=. Qed.

Lemma client_turn_inv s t a s' : client_turn s t a = Some s' → process_inv s → process_inv s'.
Proof.
  unfold client_turn. intros Ha Hs. pose proof (pi_thread _ Hs t) as Ht. destruct (pr_thread s t) as [| |c| |] eqn:Et; try done.
  destruct Ht as [Hc Hsel]. destruct (client_act (sees c (pr_cancel s)) a) as [c'|] eqn:Ec; [|done]. injection Ha as <-.
  assert (client_inv c') as Hc' by (eapply client_step_inv; [by exists a|by apply sees_inv]).
  assert (pr_cancel s = true → ct_cancel c' = true) as Hmono by (by apply (act_cancel _ _ _ Ec)).
  apply (evolve_inv s); [done..| | |done]; intros t'; simpl; case_decide; subst; try done.
  - rewrite Et. split; [done|]. split; [|done]. simpl. pose proof (ci_panic _ Hc) as Hp. destruct (ct_body c) eqn:Eb; try done. intros _.
    by rewrite (act_ended _ _ _ Ec Eb).
  - split; [done|]. intros Hb. by apply (ci_drain _ Hc').
  - pose proof (pi_thread _ Hs t') as Ht'. destruct (pr_thread s t') as [| |c''| |]; try done. destruct Ht'. split; [done|auto].
Qed.

(** ** The main thread *)

Lemma main_turn_inv s s' : main_turn s = Some s' → process_inv s → process_inv s'.
Proof.
  unfold main_turn. intros Ha Hs. pose proof (pi_main _ Hs) as Hm. unfold main_ok in Hm.
  assert (∀ r, explains s r → process_inv (with_main (cancelled s) (Joining (pr_all s) r))) as Hjoin.
  { intros r Hr. split; [apply (cancelled_inv s Hs)|]. split_and!; [done|done|]. exists []. split; [done|]. by intros t ?%elem_of_nil. }
  destruct (pr_main s) as [[|t ts]| |[|t ts] r|r].
  - injection Ha as <-. split; [apply Hs|]. destruct Hm as (pre & Hp & Hup). intros t Ht. apply Hup. simpl in Ht. rewrite Hp, app_nil_r in Ht. done.
  - destruct Hm as (pre & Hp & Hup).
    assert (is_up (pr_thread s t) = true → process_inv (with_main s (Gating ts))) as Hnext.
    { intros Hu. split; [apply Hs|]. exists (pre ++ [t]). split; [simpl; by rewrite Hp, <-app_assoc|].
      intros t' [?| ->%list_elem_of_singleton]%elem_of_app; [by apply Hup|done]. }
    pose proof (pi_thread _ Hs t) as Hr. destruct (pr_thread s t) as [|r|c| |] eqn:Et; [done| |by injection Ha as <-; apply Hnext..].
    assert (t ∈ pr_all s) as Hin by (rewrite Hp; set_solver). assert (explains s (inl (match r with SignalErr stage => NotReady t stage | _ => Exited t end))) as Hex by (by exists t, r).
    destruct r; injection Ha as <-; by apply Hjoin.
  - destruct (_ || _); [|done]. injection Ha as <-. by apply Hjoin.
  - injection Ha as <-. destruct Hm as (? & ? & pre & Hp & Hen). split; [apply Hs|]. split_and!; [done|done|]. simpl. rewrite Hp, app_nil_r. done.
  - destruct Hm as (? & ? & pre & Hp & Hen). destruct (ended (pr_thread s t)) eqn:E; [|done]. injection Ha as <-. split; [apply Hs|].
    split_and!; [done|done|]. exists (pre ++ [t]). split; [simpl; by rewrite Hp, <-app_assoc|].
    intros t' [?| ->%list_elem_of_singleton]%elem_of_app; [by apply Hen|done].
  - done.
Qed.

Lemma process_step_inv s s' : process_step s s' → process_inv s → process_inv s'.
Proof.
  intros [a Ha] Hs. destruct a as [|v| |t|t r|t a|t|t|]; cbn [process_act] in Ha.
  - injection Ha as <-. by apply cancelled_inv.
  - injection Ha as <-. by apply exited_inv.
  - injection Ha as <-. by apply exited_inv, cancelled_inv.
  - destruct (pr_thread s t) eqn:Et; try done. injection Ha as <-. apply with_thread_inv; [rewrite Et; done| |done].
    destruct (is_client t); [|done]. split; [apply client_new_inv|done].
  - destruct (pr_thread s t) eqn:Et; try done. destruct r; try done; injection Ha as <-; (apply with_thread_inv; [by rewrite Et|done|done]).
  - by eapply client_turn_inv.
  - destruct (pr_thread s t) eqn:Et; try done. injection Ha as <-. apply with_thread_inv; [by rewrite Et|done|done].
  - destruct (pr_thread s t) eqn:Et; try done. destruct (pr_cancel s); [|done]. injection Ha as <-. apply with_thread_inv; [by rewrite Et|done|done].
  - by eapply main_turn_inv.
Qed.

Lemma process_new_inv ts : process_inv (process_new ts).
Proof. split; [done|]. exists []. split; [done|]. by intros t ?%elem_of_nil. Qed.

Lemma process_run_inv ts s : rtc process_step (process_new ts) s → process_inv s.
Proof.
  intros Hrun. pose proof (process_new_inv ts) as Hs. revert Hs. induction Hrun as [|x y z Hxy _ IH]; [done|].
  intros Hx. by eapply IH, process_step_inv.
Qed.

(** ** Shutdown *)

(** Once the token is cancelled or a service has ended. *)
Definition stopping (s : Process) : Prop := pr_cancel s = true ∨ ∃ v, pr_exited s v = true.

(** The steps that take the process down: the main thread goes on, threads finish coming up,
    servers stop, tasks end and client threads leave their loops. *)
Definition shutdown_act (s : Process) (a : ProcessAct) : Prop :=
  match a with
  | MainTurn => True
  | ThreadUp t | ThreadFails t _ | ServerFailed t | ServerStops t => t ∈ pr_all s
  | ClientTurn t (ExitTask _ | DropTask _ | SelectCancelled | SelectFinished _ | Drain) => t ∈ pr_all s
  | _ => False
  end.

Definition shutdown_step (s s' : Process) : Prop := ∃ a, shutdown_act s a ∧ process_act s a = Some s'.

Definition task_rank (t : Task) : nat := match t with Idle | Working => 1 | Done | Dropped _ => 0 end.
Definition body_rank (b : Body) : nat :=
  match b with Selecting => 5 | Guard false => 4 | Awaiting false => 3 | Guard true => 2 | Awaiting true => 1 | Ended | Panicked => 0 end.
Definition client_rank (c : ClientThread) : nat := body_rank (ct_body c) + task_rank (ct_task c false) + task_rank (ct_task c true).
Definition thread_rank (x : ThreadState) : nat :=
  match x with Starting => 10 | Client c => client_rank c | Serving => 1 | NotUp _ | Stopped => 0 end.
Definition main_rank (s : Process) : nat :=
  match pr_main s with
  | Gating ts => 4 + length ts + length (pr_all s)
  | Watching => 3 + length (pr_all s)
  | Joining ts _ => 1 + length ts
  | Returned _ => 0
  end.
Definition process_rank (s : Process) : nat := main_rank s + sum_list_with (λ t, thread_rank (pr_thread s t)) (pr_all s).

Lemma client_rank_decreases c a c' :
  client_act c a = Some c' → match a with ExitTask _ | DropTask _ | SelectCancelled | SelectFinished _ | Drain => True | _ => False end →
  (client_rank c' < client_rank c)%nat.
Proof.
  unfold client_rank. destruct a as [|i|i|i|i| |i|]; simpl; intros Ha Hok; try done.
  - destruct (ct_task c i) eqn:E; try done; injection Ha as <-; simpl; unfold set_at; destruct i; simpl; rewrite E; simpl; lia.
  - destruct (ct_abort c); [|done]. destruct (ct_task c i) eqn:E; try done; injection Ha as <-; simpl; unfold set_at; destruct i; simpl; rewrite E; simpl; lia.
  - destruct (ct_body c); try done. destruct (ct_cancel c); [|done]. injection Ha as <-. simpl. lia.
  - destruct (ct_body c); try done. destruct (is_finished c i); [|done]. injection Ha as <-. unfold poll_handle. destruct (ct_polled c i); simpl; lia.
  - destruct (ct_body c) as [|i|i| |]; try done.
    + injection Ha as <-. destruct (is_finished c i), i; simpl; lia.
    + destruct (is_finished c i); [|done]. injection Ha as <-. unfold poll_handle. destruct (ct_polled c i), i; simpl; lia.
Qed.

Lemma sum_list_with_lt {A} (f g : A → nat) l x :
  (∀ y, (f y <= g y)%nat) → x ∈ l → (f x < g x)%nat → (sum_list_with f l < sum_list_with g l)%nat.
Proof.
  intros Hle Hx Hlt. assert (∀ l, (sum_list_with f l <= sum_list_with g l)%nat) as Hall.
  { intros k. induction k as [|y k IH]; simpl; [done|]. specialize (Hle y). lia. }
  induction l as [|y l IH]; simpl; [by apply elem_of_nil in Hx|]. pose proof (Hall l). pose proof (Hle y).
  apply elem_of_cons in Hx as [<-|Hx]; [|specialize (IH Hx)]; lia.
Qed.

(** A step of one thread that lowers its rank lowers the rank of the process. *)
Lemma thread_rank_decreases s s' t :
  pr_all s' = pr_all s → pr_main s' = pr_main s → t ∈ pr_all s → (thread_rank (pr_thread s' t) < thread_rank (pr_thread s t))%nat →
  (∀ t', t' ≠ t → pr_thread s' t' = pr_thread s t') → (process_rank s' < process_rank s)%nat.
Proof.
  intros Ea Em Hin Hlt Hother. unfold process_rank, main_rank. rewrite Ea, Em.
  assert (sum_list_with (λ t, thread_rank (pr_thread s' t)) (pr_all s) < sum_list_with (λ t, thread_rank (pr_thread s t)) (pr_all s))%nat; [|lia].
  apply (sum_list_with_lt _ _ _ t); [|done|done]. intros y. destruct (decide (y = t)) as [->|Hne]; [lia|]. by rewrite Hother.
Qed.

Lemma with_thread_rank s t x :
  t ∈ pr_all s → (thread_rank x < thread_rank (pr_thread s t))%nat → (process_rank (with_thread s t x) < process_rank s)%nat.
Proof.
  intros Hin Hlt. apply (thread_rank_decreases s _ t); try done; simpl.
  - by rewrite decide_True.
  - intros t' Hne. by rewrite decide_False.
Qed.

Lemma main_rank_decreases s s' : main_turn s = Some s' → (process_rank s' < process_rank s)%nat.
Proof.
  unfold main_turn, process_rank, main_rank. destruct (pr_main s) as [[|t ts]| |[|t ts] r|r]; try done.
  - intros [= <-]. simpl. lia.
  - destruct (pr_thread s t) as [|[]|c| |]; try done; intros [= <-]; simpl; lia.
  - destruct (_ || _); [|done]. intros [= <-]. simpl. lia.
  - intros [= <-]. simpl. lia.
  - destruct (ended _); [|done]. intros [= <-]. simpl. lia.
Qed.

Lemma shutdown_decreases s s' : shutdown_step s s' → (process_rank s' < process_rank s)%nat.
Proof.
  intros (a & Hok & Ha). destruct a as [|v| |t|t r|t a|t|t|]; cbn [process_act shutdown_act] in *; try done.
  - destruct (pr_thread s t) eqn:Et; try done. injection Ha as <-. apply with_thread_rank; [done|]. rewrite Et. destruct (is_client t); unfold thread_rank, client_rank; simpl; lia.
  - destruct (pr_thread s t) eqn:Et; try done. destruct r; try done; injection Ha as <-; (apply with_thread_rank; [done|]; rewrite Et; simpl; lia).
  - unfold client_turn in Ha. destruct (pr_thread s t) as [| |c| |] eqn:Et; try done.
    destruct (client_act (sees c (pr_cancel s)) a) as [c'|] eqn:Ec; [|done]. injection Ha as <-.
    apply (thread_rank_decreases s _ t); simpl; try done; [by destruct a| |intros t' Hne; by rewrite decide_False].
    rewrite decide_True, Et by done. simpl. change (client_rank c) with (client_rank (sees c (pr_cancel s))).
    eapply client_rank_decreases; [exact Ec|by destruct a].
  - destruct (pr_thread s t) eqn:Et; try done. injection Ha as <-. apply with_thread_rank; [done|]. rewrite Et. simpl. lia.
  - destruct (pr_thread s t) eqn:Et; try done. destruct (pr_cancel s); [|done]. injection Ha as <-. apply with_thread_rank; [done|]. rewrite Et. simpl. lia.
  - by apply main_rank_decreases.
Qed.

(** A cancelled client thread that has not ended can go on. *)
Lemma client_goes_on c :
  client_inv c → ct_cancel c = true → ct_body c ≠ Ended →
  ∃ a c', client_act c a = Some c' ∧ match a with ExitTask _ | DropTask _ | SelectCancelled | SelectFinished _ | Drain => True | _ => False end.
Proof.
  intros Hc Hk He. pose proof (ci_panic _ Hc) as Hp. destruct (ct_body c) as [|i|i| |] eqn:Eb; try done.
  - exists SelectCancelled. simpl. rewrite Eb, Hk. by eexists.
  - exists Drain. simpl. rewrite Eb. by eexists.
  - destruct (is_finished c i) eqn:Ei.
    + exists Drain. simpl. rewrite Eb, Ei. by eexists.
    + destruct (ci_drain _ Hc) as [Ha _]; [by rewrite Eb|]. exists (DropTask i). simpl. rewrite Ha. unfold is_finished in Ei.
      destruct (ct_task c i); try done; by eexists.
Qed.

(** A thread that has not ended can go on once the token is cancelled. *)
Lemma thread_goes_on s t :
  process_inv s → pr_cancel s = true → t ∈ pr_all s → ended (pr_thread s t) = false → ∃ s', shutdown_step s s'.
Proof.
  intros Hs Hc Hin He. pose proof (pi_thread _ Hs t) as Ht. destruct (pr_thread s t) as [|r|c| |] eqn:Et; try done.
  - eexists. exists (ThreadUp t). split; [done|]. cbn [process_act]. by rewrite Et.
  - destruct Ht as [Hi _]. assert (ct_body c ≠ Ended) as Hb by (intros Hb; simpl in He; by rewrite Hb in He).
    destruct (client_goes_on (sees c (pr_cancel s))) as (a & c' & Ha & Hok); [by apply sees_inv|done|done|].
    eexists. exists (ClientTurn t a). split; [by destruct a|]. cbn [process_act]. unfold client_turn. by rewrite Et, Ha.
  - eexists. exists (ServerStops t). split; [done|]. cbn [process_act]. by rewrite Et, Hc.
Qed.

Lemma shutdown_goes_on s : process_inv s → stopping s → (∃ r, pr_main s = Returned r) ∨ ∃ s', shutdown_step s s'.
Proof.
  intros Hs Hst. destruct (main_turn s) as [s'|] eqn:E; [right; exists s'; by exists MainTurn|].
  pose proof (pi_main _ Hs) as Hm. unfold main_turn in E. unfold main_ok in Hm. destruct (pr_main s) as [[|t ts]| |[|t ts] r|r] eqn:Em; try done.
  - destruct (pr_thread s t) as [|[]|c| |] eqn:Et; try done. destruct Hm as (pre & Hp & _). right. eexists. exists (ThreadUp t).
    split; [simpl; rewrite Hp; set_solver|]. cbn [process_act]. by rewrite Et.
  - destruct (pr_cancel s || _) eqn:Eb; [done|]. apply orb_false_iff in Eb as [Hc Hx]. destruct Hst as [?|[v Hv]]; [congruence|].
    destruct v; simpl in Hx; rewrite Hv in Hx; by rewrite ?orb_true_r in Hx.
  - destruct (ended (pr_thread s t)) eqn:Et; [done|]. destruct Hm as (Hc & _ & pre & Hp & _). right.
    apply (thread_goes_on s t); [done|done| |done]. rewrite Hp. set_solver.
  - left. by exists r.
Qed.

Lemma shutdown_process s s' : shutdown_step s s' → process_step s s'.
Proof. intros (a & _ & Ha). by exists a. Qed.

Lemma stopping_stays s s' : process_step s s' → stopping s → stopping s'.
Proof.
  intros [a Ha] Hs. destruct a as [|v| |t|t r|t a|t|t|]; cbn [process_act] in Ha.
  - injection Ha as <-. by left.
  - injection Ha as <-. destruct Hs as [?|[w Hw]]; [by left|right; exists w; simpl; by case_decide].
  - injection Ha as <-. by left.
  - destruct (pr_thread s t); try done. by injection Ha as <-.
  - destruct (pr_thread s t); try done. destruct r; try done; by injection Ha as <-.
  - unfold client_turn in Ha. destruct (pr_thread s t) as [| |c| |]; try done.
    destruct (client_act (sees c (pr_cancel s)) a) as [c'|] eqn:Ec; [|done]. injection Ha as <-. destruct Hs as [Hc|?]; [left|by right].
    by apply (act_cancel _ _ _ Ec).
  - destruct (pr_thread s t); try done. by injection Ha as <-.
  - destruct (pr_thread s t); try done. destruct (pr_cancel s); [|done]. by injection Ha as <-.
  - unfold main_turn in Ha. unfold stopping in *. repeat (case_match; try done); injection Ha as <-; simpl; naive_solver.
Qed.

(** ** Theorems *)


(** C19. Every shutdown completes.  Once the token is cancelled or any service has ended - the
    matcher, the price feed, the admin or the observability server - whatever the threads
    are doing, the steps that take the process down cannot go on for more than a fixed
    number, and when none is left the main thread has returned and every thread has ended:
    there is no deadlock between joining, draining and coming up. *)
Theorem shutdown_completes ts s n s' :
  rtc process_step (process_new ts) s → stopping s → nsteps shutdown_step n s s' →
  (n <= process_rank s)%nat ∧
  ((∀ s'', ¬ shutdown_step s' s'') → ∃ r, pr_main s' = Returned r ∧ ∀ t, t ∈ pr_all s' → ended (pr_thread s' t) = true).
Proof.
  intros Hrun Hst Hn. pose proof (process_run_inv ts s Hrun) as Hs. clear Hrun.
  induction Hn as [s|n s s1 s' Hstep _ IH].
  - split; [lia|]. intros Hend. destruct (shutdown_goes_on s Hs Hst) as [[r Hr]|[s'' Hs'']]; [|by destruct (Hend s'')].
    exists r. split; [done|]. pose proof (pi_main _ Hs) as Hm. unfold main_ok in Hm. rewrite Hr in Hm. apply Hm.
  - pose proof (shutdown_process _ _ Hstep) as Hp. destruct IH as [Hle Hend]; [by eapply stopping_stays|by eapply process_step_inv|].
    pose proof (shutdown_decreases _ _ Hstep). split; [lia|done].
Qed.

(** ** A run *)

Fixpoint process_acts (s : Process) (acts : list ProcessAct) : option Process :=
  match acts with [] => Some s | a :: acts => s' ← process_act s a; process_acts s' acts end.

Lemma process_acts_steps s acts s' : process_acts s acts = Some s' → rtc process_step s s'.
Proof.
  revert s. induction acts as [|a acts IH]; intros s; simpl; [by intros [= <-]|].
  destruct (process_act s a) as [s1|] eqn:E; [|done]. intros Hr. eapply rtc_l; [by exists a|by apply IH].
Qed.

(** The threads come up, the admin server fails and everything is taken down. *)
Definition up_acts : list ProcessAct :=
  [ThreadUp IngestThread; ThreadUp ExecutorThread; ThreadUp PriceApiThread; MainTurn; MainTurn; MainTurn; MainTurn;
   ClientTurn IngestThread (BeginIteration false); AdminFailed].
Definition client_down (t : Thread) : list ProcessAct :=
  [ClientTurn t SelectCancelled; ClientTurn t Drain; ClientTurn t (DropTask false); ClientTurn t Drain; ClientTurn t (DropTask true);
   ClientTurn t Drain].
Definition down_acts : list ProcessAct :=
  MainTurn :: client_down IngestThread ++ client_down ExecutorThread ++ [ServerStops PriceApiThread; MainTurn; MainTurn; MainTurn; MainTurn].

Definition demo_up : Process := default (process_new client_threads) (process_acts (process_new client_threads) up_acts).
Definition demo_down : Process := default (process_new client_threads) (process_acts demo_up down_acts).

Lemma demo_up_steps : rtc process_step (process_new client_threads) demo_up.
Proof.
  apply (process_acts_steps _ up_acts). unfold demo_up. destruct (process_acts _ up_acts) as [s|] eqn:E; [done|].
  vm_compute in E. discriminate E.
Qed.

Lemma demo_down_steps : rtc process_step (process_new client_threads) demo_down.
Proof.
  trans demo_up; [exact demo_up_steps|]. apply (process_acts_steps _ down_acts). unfold demo_down.
  destruct (process_acts demo_up down_acts) as [s|] eqn:E; [done|]. vm_compute in E. discriminate E.
Qed.


Lemma shutdown_completes_witness :
  process_rank demo_up = 21%nat ∧ pr_main demo_up = Watching ∧ (1 <= process_rank demo_up)%nat.
Proof.
  split; [vm_compute; reflexivity|]. split; [vm_compute; reflexivity|].
  assert (pr_cancel demo_up = true) as Hc by (vm_compute; reflexivity).
  destruct (main_turn demo_up) as [s|] eqn:E; [|vm_compute in E; discriminate E].
  apply (shutdown_completes client_threads demo_up 1 s demo_up_steps (or_introl Hc)).
  eapply nsteps_l; [exists MainTurn; split; [exact I|exact E]|apply nsteps_O].
Defined.
