(* ===== verification/ApiServer.v ===== *)
(** * The price server (crates/solver/src/price_api.rs: [build_app], [concurrency_guard])

    The HTTP side of the price API: routing, the cache header, the timeout and the limit on
    requests under way, as a machine in which requests arrive, finish, time out and are
    dropped in any order while the snapshots the handlers read change between them. *)

From stdpp Require Import option.
From S2P Require Import Prelude.
From S2P Require Import Types.
From S2P Require Import Prices.
From S2P Require Import PriceApi.

Section server.
Context `{FL : Floats} `{!Miden}.
Context (from_hex : string → option TokenId) (to_hex : TokenId → string).

(** ** Requests and responses *)

(** A request without a body: preflights are [OPTIONS] requests, which the outermost layer
    answers. *)
Inductive Method := GET | HEAD | OPTIONS | OtherMethod.
Record Request := mk_request { rq_method : Method; rq_path : list string; rq_query : gmap string string }.

Inductive Body :=
  | PriceBody (r : PriceResponse)
  | PricesBody (m : gmap string PriceResponse)
  | EtaBody (r : SwapEtaResponse)
  | ErrorBody (code : string)
  | NoBody.

(** [rp_cache] is the Cache-Control header. *)
Record Response := mk_response { rp_status : Z; rp_cache : option string; rp_body : Body }.

Definition of_error (e : ApiError) : Response := mk_response (error_response e).1 None (ErrorBody (error_response e).2).

(** ** Routing *)

(** The routes under [/v1]; the estimate brings its own cache header. *)
Definition route (st : PriceApiState) (now : Z) (r : Request) : Response :=
  let get (resp : Response) :=
    match rq_method r with GET => resp | HEAD => mk_response (rp_status resp) (rp_cache resp) NoBody | _ => mk_response 405 None NoBody end in
  match rq_path r with
  | [v; p] =>
    if negb (bool_decide (v = "v1"%string)) then mk_response 404 None NoBody
    else if decide (p = "prices"%string) then
      get (match get_prices from_hex to_hex st now (rq_query r) with
           | inl m => mk_response 200 None (PricesBody m)
           | inr e => of_error e
           end)
    else if decide (p = "swap-eta"%string) then
      get (match get_swap_eta from_hex to_hex st now (rq_query r) with
           | inl eta => mk_response 200 (Some "no-store"%string) (EtaBody eta)
           | inr e => of_error e
           end)
    else mk_response 404 None NoBody
  | [v; p; id] =>
    if bool_decide (v = "v1"%string) && bool_decide (p = "price"%string) then
      get (match get_price from_hex to_hex st now id (rq_query r) with
           | inl price => mk_response 200 None (PriceBody price)
           | inr e => of_error e
           end)
    else mk_response 404 None NoBody
  | _ => mk_response 404 None NoBody
  end.

(** ** Layers *)

(** The header of [build_app]. *)
Definition cache_value (cfg : PriceApiConfig) : string :=
  ("public, max-age=" ++ show_uint (Z.max 1 (pc_price_interval_ms cfg / 1000)))%string.

(** [SetResponseHeaderLayer::if_not_present] *)
Definition with_cache (cfg : PriceApiConfig) (r : Response) : Response :=
  mk_response (rp_status r) (Some (default (cache_value cfg) (rp_cache r))) (rp_body r).

Definition timed_out : Response := mk_response 408 None NoBody.
Definition overloaded : Response := mk_response 503 None (ErrorBody "overloaded").
Definition preflight : Response := mk_response 200 None NoBody.

(** [Semaphore::new(cfg.max_inflight.max(1))] *)
Definition permits (cfg : PriceApiConfig) : nat := Z.to_nat (Z.max 1 (pc_max_inflight cfg)).

(** The server: free permits, requests under way and responses sent, newest first. *)
Record Server := mk_server {
  sv_free : nat;
  sv_inflight : gmap N Request;
  sv_sent : list (N * Response);
}.

Definition server_new (cfg : PriceApiConfig) : Server := mk_server (permits cfg) ∅ [].

(** A request arrives under a new number, its handler runs over the state of that moment, it
    takes too long, or the client goes away. *)
Inductive ServerAct :=
  | Arrive (n : N) (r : Request)
  | Finish (n : N) (st : PriceApiState) (now : Z)
  | TimeOut (n : N)
  | Hangup (n : N).

Definition send (s : Server) (n : N) (r : Response) : Server := mk_server (sv_free s) (sv_inflight s) ((n, r) :: sv_sent s).

(** A permit is dropped with the future that holds it. *)
Definition release (s : Server) (n : N) : Server := mk_server (S (sv_free s)) (delete n (sv_inflight s)) (sv_sent s).

Definition server_act (cfg : PriceApiConfig) (s : Server) (a : ServerAct) : Server :=
  match a with
  | Arrive n r =>
    match rq_method r with
    | OPTIONS => send s n preflight
    | _ =>
      match sv_free s with
      | S k => mk_server k (<[n := r]> (sv_inflight s)) (sv_sent s)
      | O => send s n overloaded
      end
    end
  | Finish n st now =>
    match sv_inflight s !! n with
    | Some r => send (release s n) n (with_cache cfg (route st now r))
    | None => s
    end
  | TimeOut n => match sv_inflight s !! n with Some _ => send (release s n) n timed_out | None => s end
  | Hangup n => match sv_inflight s !! n with Some _ => release s n | None => s end
  end.

(** Numbers are not used twice. *)
Definition fresh (s : Server) (a : ServerAct) : Prop :=
  match a with Arrive n _ => sv_inflight s !! n = None ∧ n ∉ (sv_sent s).*1 | _ => True end.

Inductive server_run (cfg : PriceApiConfig) : Server → list ServerAct → Server → Prop :=
  | run_nil s : server_run cfg s [] s
  | run_cons s a acts s' : fresh s a → server_run cfg (server_act cfg s a) acts s' → server_run cfg s (a :: acts) s'.

(** ** Invariant *)

#[export] Instance method_eq : EqDecision Method.
Proof. solve_decision. Defined.

(** Where a response comes from. *)
Definition response_ok (cfg : PriceApiConfig) (acts : list ServerAct) (n : N) (resp : Response) : Prop :=
  (∃ r st now, Arrive n r ∈ acts ∧ rq_method r ≠ OPTIONS ∧ Finish n st now ∈ acts ∧ resp = with_cache cfg (route st now r)) ∨
  (∃ r, Arrive n r ∈ acts ∧ (if decide (rq_method r = OPTIONS) then resp = preflight else resp = overloaded ∨ (TimeOut n ∈ acts ∧ resp = timed_out))).

Record server_inv (cfg : PriceApiConfig) (acts : list ServerAct) (s : Server) : Prop := {
  si_permits : (sv_free s + size (sv_inflight s))%nat = permits cfg;
  si_arrived : ∀ n r, sv_inflight s !! n = Some r → Arrive n r ∈ acts ∧ rq_method r ≠ OPTIONS;
  si_once : NoDup (sv_sent s).*1;
  si_open : ∀ n r, sv_inflight s !! n = Some r → n ∉ (sv_sent s).*1;
  si_sent : ∀ n resp, (n, resp) ∈ sv_sent s → response_ok cfg acts n resp;
}.

Lemma response_later cfg acts a n resp : response_ok cfg acts n resp → response_ok cfg (acts ++ [a]) n resp.
Proof.
  intros [(r & st & now & Ha & Hm & Hf & ->)|(r & Ha & Hr)].
  - left. exists r, st, now. rewrite !elem_of_app. auto.
  - right. exists r. rewrite elem_of_app. split; [auto|]. case_decide; [done|]. rewrite elem_of_app. naive_solver.
Qed.

(** The parts of the invariant that only grow with the acts. *)
Lemma inv_later cfg acts a s : server_inv cfg acts s → server_inv cfg (acts ++ [a]) s.
Proof.
  intros [H1 H2 H3 H4 H5]. split; try done.
  - intros n r Hn. rewrite elem_of_app. naive_solver.
  - intros n resp Hr. by apply response_later, H5.
Qed.

Lemma send_inv cfg acts s n resp :
  server_inv cfg acts s → sv_inflight s !! n = None → (n ∉ (sv_sent s).*1) → response_ok cfg acts n resp →
  server_inv cfg acts (send s n resp).
Proof.
  intros [H1 H2 H3 H4 H5] Hn Hs Hr. split; simpl; try done.
  - by constructor.
  - intros m r Hm. rewrite not_elem_of_cons. split; [congruence|by eapply H4].
  - intros m x [[= -> ->]|?]%elem_of_cons; [done|by apply H5].
Qed.

Lemma release_inv cfg acts s n r :
  server_inv cfg acts s → sv_inflight s !! n = Some r → server_inv cfg acts (release s n).
Proof.
  intros [H1 H2 H3 H4 H5] Hn. split; simpl; try done.
  - rewrite map_size_delete_Some by eauto. assert (size (sv_inflight s) ≠ 0%nat) by (intros He%map_size_empty_iff; by rewrite He in Hn). lia.
  - intros m x [_ Hm]%lookup_delete_Some. by apply H2.
  - intros m x [_ Hm]%lookup_delete_Some. by eapply H4.
Qed.

Lemma act_inv cfg acts s a : server_inv cfg acts s → fresh s a → server_inv cfg (acts ++ [a]) (server_act cfg s a).
Proof.
  intros Hs Hf. pose proof (inv_later cfg acts a s Hs) as Hl. assert (a ∈ acts ++ [a]) as Ha by (rewrite elem_of_app, list_elem_of_singleton; auto).
  destruct a as [n r|n st now|n|n]; simpl in *.
  - destruct Hf as [Hn Hsent].
    assert (rq_method r ≠ OPTIONS → server_inv cfg (acts ++ [Arrive n r])
      (match sv_free s with S k => mk_server k (<[n := r]> (sv_inflight s)) (sv_sent s) | O => send s n overloaded end)) as Hother.
    { intros Hm. destruct (sv_free s) as [|k] eqn:E; [apply send_inv; try done; right; exists r; split; [done|]; rewrite decide_False by done; auto|].
      destruct Hl as [H1 H2 H3 H4 H5]. split; simpl; try done.
      - rewrite map_size_insert_None by done. lia.
      - intros m x [[<- <-]|[_ Hx]]%lookup_insert_Some; [done|by apply H2].
      - intros m x [[<- <-]|[_ Hx]]%lookup_insert_Some; [done|by eapply H4]. }
    destruct (rq_method r) eqn:Em; try (by apply Hother). apply send_inv; try done. right. exists r. by rewrite decide_True.
  - destruct (sv_inflight s !! n) as [r|] eqn:E; [|done]. destruct (si_arrived _ _ _ Hl n r E) as [Har Hm].
    apply send_inv; [by eapply release_inv|apply lookup_delete_eq|by eapply (si_open _ _ _ Hl)|]. left. exists r, st, now. done.
  - destruct (sv_inflight s !! n) as [r|] eqn:E; [|done]. destruct (si_arrived _ _ _ Hl n r E) as [Har Hm].
    apply send_inv; [by eapply release_inv|apply lookup_delete_eq|by eapply (si_open _ _ _ Hl)|]. right. exists r.
    rewrite decide_False by done. auto.
  - destruct (sv_inflight s !! n) as [r|] eqn:E; [|done]. by eapply release_inv.
Qed.

Lemma run_inv cfg pre s acts s' : server_inv cfg pre s → server_run cfg s acts s' → server_inv cfg (pre ++ acts) s'.
Proof.
  intros Hs Hrun. revert pre Hs. induction Hrun as [s|s a acts s' Hf _ IH]; intros pre Hs; [by rewrite app_nil_r|].
  specialize (IH (pre ++ [a]) (act_inv cfg pre s a Hs Hf)). by rewrite <-app_assoc in IH.
Qed.

Lemma new_inv cfg : server_inv cfg [] (server_new cfg).
Proof.
  split; simpl; try done.
  - constructor.
  - by intros n resp ?%elem_of_nil.
Qed.
End server.

(** ** Theorems *)

(** C36. The price server never runs more requests than its limit, and refuses one only at the
    limit.  However requests arrive, finish, time out and are dropped, at most the configured
    number (at least one) are under way and every permit is free or held by one of them; a
    request is answered at most once, with the answer of its handler over the state it saw, a
    timeout, or the overload error, and a new request is refused exactly when all permits are
    held; preflights are never refused. *)
Theorem price_server_capacity `{FL : Floats} `{!Miden} from_hex to_hex cfg acts s :
  server_run from_hex to_hex cfg (server_new cfg) acts s →
  (size (sv_inflight s) <= Z.to_nat (Z.max 1 (pc_max_inflight cfg)))%nat ∧ NoDup (sv_sent s).*1 ∧
  (∀ n resp, (n, resp) ∈ sv_sent s → response_ok from_hex to_hex cfg acts n resp) ∧
  (∀ n r, rq_method r = OPTIONS → server_act from_hex to_hex cfg s (Arrive n r) = send s n preflight) ∧
  (∀ n r, rq_method r ≠ OPTIONS →
    (server_act from_hex to_hex cfg s (Arrive n r) = send s n overloaded ↔ size (sv_inflight s) = permits cfg)).
Proof.
  intros Hrun. pose proof (run_inv from_hex to_hex cfg [] _ acts s (new_inv from_hex to_hex cfg) Hrun) as [H1 _ H3 _ H5].
  split_and!; [unfold permits in H1; lia|done|done|by intros n r Hr; simpl; rewrite Hr|].
  intros n r Hr. simpl. destruct (rq_method r); try done; (destruct (sv_free s) as [|k] eqn:E; [split; [lia|done]|]);
    (split; [intros Heq; injection Heq as Hk _ _; lia|lia]).
Qed.

(** The cache header: a successful estimate is never stored; every other response of the
    routes, refusals for stale or missing prices included, may be kept by a shared cache for
    the price interval, at least a second. *)
Theorem price_cache_policy `{FL : Floats} `{!Miden} from_hex to_hex cfg st now r :
  let resp := route from_hex to_hex st now r in
  rp_cache (with_cache cfg resp) =
    Some (match rp_body resp, rq_method r with
          | EtaBody _, _ => "no-store"%string
          | NoBody, HEAD => default (cache_value cfg) (rp_cache resp)
          | _, _ => cache_value cfg
          end).
Proof.
  intros resp. unfold with_cache. simpl. f_equal. unfold resp, route, of_error.
  repeat (case_match; simplify_eq/=; try done).
Qed.

(** Stale prices are refused with a response that caches may keep as if it were a price. *)
Theorem stale_refusal_cacheable `{FL : Floats} `{!Miden} from_hex to_hex cfg st now id q as_of :
  get_price from_hex to_hex st now id q = inr (Stale as_of) →
  with_cache cfg (route from_hex to_hex st now (mk_request GET ["v1"%string; "price"%string; id] q)) =
    mk_response 503 (Some (cache_value cfg)) (ErrorBody "stale").
Proof. intros He. unfold route. cbn [rq_path rq_method rq_query]. rewrite !bool_decide_true by done. simpl. by rewrite He. Qed.

(** ** A run *)

Definition price_request (id : string) : Request := mk_request GET ["v1"%string; "price"%string; id] ∅.
Definition demo_acts : list (@ServerAct demo_floats) :=
  [Arrive 1 (price_request ",");  Arrive 2 (price_request ",,"); Arrive 3 (price_request ","); TimeOut 2; Finish 1 demo_api_state 1010].
Definition demo_server (acts : list (@ServerAct demo_floats)) : Server :=
  foldl (@server_act demo_floats demo_miden unary_parse unary_hex demo_api_cfg) (server_new demo_api_cfg) acts.

Lemma demo_server_run :
  @server_run demo_floats demo_miden unary_parse unary_hex demo_api_cfg (server_new demo_api_cfg) demo_acts (demo_server demo_acts).
Proof.
  unfold demo_acts. apply run_cons; [split; [reflexivity|apply not_elem_of_nil]|].
  apply run_cons; [split; [reflexivity|apply not_elem_of_nil]|].
  apply run_cons; [split; [reflexivity|apply not_elem_of_nil]|].
  do 2 (apply run_cons; [exact I|]). apply run_nil.
Qed.

(** With two permits the third request is refused, and the others are answered. *)
Lemma price_server_capacity_witness :
  (λ p, (p.1, rp_status p.2)) <$> sv_sent (demo_server demo_acts) = [(1%N, 200); (2%N, 408); (3%N, 503)] ∧
  (size (sv_inflight (demo_server demo_acts)) <= 2)%nat ∧ NoDup (sv_sent (demo_server demo_acts)).*1.
Proof.
  split; [vm_compute; reflexivity|].
  destruct (price_server_capacity (FL := demo_floats) (H := demo_miden) unary_parse unary_hex demo_api_cfg demo_acts (demo_server demo_acts) demo_server_run)
    as (H1 & H2 & _).
  split; [exact H1|exact H2].
Defined.

Lemma stale_refusal_cacheable_witness :
  with_cache demo_api_cfg (@route demo_floats demo_miden unary_parse unary_hex demo_api_state 5000 (price_request ",")) =
    mk_response 503 (Some (cache_value demo_api_cfg)) (ErrorBody "stale").
Proof.
  apply (stale_refusal_cacheable (FL := demo_floats) (H := demo_miden) unary_parse unary_hex demo_api_cfg demo_api_state 5000 "," ∅ 1000).
  vm_compute. reflexivity.
Defined.
