(* ===== verification/MockPrice.v ===== *)
(** * The mock price service (crates/mock-price/src/main.rs)

    A stand-in for the public price service: a table of prices in memory, a file that is read
    again on every request and written on [/set], and the three endpoints.  Handlers run
    concurrently and lock the table only for a moment, so they are steps of a machine; the
    request the solver's price client makes is composed with the reply of the service.
    JSON and random drift are parameters. *)

From stdpp Require Import option.
From S2P Require Import Prelude.
From S2P Require Import Types.
From S2P Require Import Prices.
From S2P Require Import PriceApi.
From S2P Require Import Config.

(** ** Numbers and texts *)

(** Texts of the JSON library, what it makes of a price table and of a reply, and the parts of
    [f64] the service uses: finiteness, [str::parse] and the drift of a price by a random
    sample. *)
Class Json `{FL : Floats} := {
  JsonText : Type;
  text_empty : JsonText;
  table_text : gmap string F64 → JsonText;
  table_read : JsonText → option (gmap string F64);
  body_text : gmap string F64 → JsonText;
  body_read : JsonText → option (gmap string (gmap string F64));
  f_finite : F64 → bool;
  f_parse : string → option F64;
  f_drifted : Z → Z → F64 → F64;
}.

Section service.
Context `{FL : Floats} `{!Json}.

(** ** State *)

(** [ps_file]: whether a file is configured. *)
Record PriceState := mk_price_state {
  ps_prices : gmap string F64;
  ps_file : bool;
  ps_default_usd : option F64;
  ps_drift_bps : Z;
}.

Definition with_prices (st : PriceState) (m : gmap string F64) : PriceState :=
  mk_price_state m (ps_file st) (ps_default_usd st) (ps_drift_bps st).

(** The file: its text, [None] when it does not exist.  [readable] tells whether reading works. *)
Definition load_file (readable : bool) (text : JsonText) : option (gmap string F64) :=
  if readable then table_read text else None.

(** [save_file]: opening empties the file before it is written; both can fail. *)
Record Writing := mk_writing { wr_opens : bool; wr_writes : bool }.

Definition save_file (w : Writing) (disk : option JsonText) (m : gmap string F64) : option JsonText :=
  if wr_opens w then Some (if wr_writes w then table_text m else text_empty) else disk.

(** What [refresh] read, if it is to replace the table. *)
Definition refreshed (readable : bool) (st : PriceState) (disk : option JsonText) : option (gmap string F64) :=
  if ps_file st then disk ≫= load_file readable else None.

Definition refresh (readable : bool) (st : PriceState) (disk : option JsonText) : PriceState :=
  match refreshed readable st disk with Some m => with_prices st m | None => st end.

(** ** Start *)

(** [split_once('=')] *)
Fixpoint split_eq (l cur : list Ascii.ascii) : option (list Ascii.ascii * list Ascii.ascii) :=
  match l with
  | [] => None
  | c :: r => if decide (c = Ascii.ascii_of_N 61) then Some (reverse cur, r) else split_eq r (c :: cur)
  end.

(** One [--price] argument. *)
Definition price_arg (arg : string) : option (string * F64) :=
  '(id, usd) ← split_eq (String.list_ascii_of_string arg) [];
  x ← f_parse (String.string_of_list_ascii usd);
  Some (String.string_of_list_ascii id, x).

Fixpoint price_args (prices : gmap string F64) (args : list string) : option (gmap string F64) :=
  match args with
  | [] => Some prices
  | arg :: args => '(id, x) ← price_arg arg; price_args (<[id := x]> prices) args
  end.

(** [main] up to the server: the seed from the file and the arguments, persisted if a file is
    configured.  [None] is an error. *)
Definition mock_start (file : bool) (disk : option JsonText) (readable : bool) (w : Writing) (args : list string)
    (default_usd : option F64) (drift_bps : Z) : option (PriceState * option JsonText) :=
  seed ← match (if file then disk else None) with Some text => load_file readable text | None => Some ∅ end;
  prices ← price_args seed args;
  let st := mk_price_state prices file default_usd drift_bps in
  if file then if wr_opens w && wr_writes w then Some (st, save_file w disk prices) else None else Some (st, disk).

(** ** The handlers *)

(** The price of an id: listed or the default, drifted by the sample of its position. *)
Definition price_of (st : PriceState) (sample : nat → Z) (k : nat) (id : string) : option F64 :=
  base ← match ps_prices st !! id with Some x => Some x | None => ps_default_usd st end;
  Some (if 0 <? ps_drift_bps st then f_drifted (ps_drift_bps st) (sample k) base else base).

(** The loop of [simple_price] from position [k] on. *)
Fixpoint answer_ids (st : PriceState) (sample : nat → Z) (k : nat) (ids : list string) (out : gmap string F64) : gmap string F64 :=
  match ids with
  | [] => out
  | id :: ids =>
    answer_ids st sample (S k) ids (match price_of st sample k id with Some x => <[id := x]> out | None => out end)
  end.

(** [simple_price] once the table is refreshed; the ids are split and trimmed as in the price
    API. *)
Definition answer (st : PriceState) (sample : nat → Z) (q : gmap string string) : gmap string F64 :=
  answer_ids st sample 0 (batch_ids q) ∅.

Definition simple_price (readable : bool) (sample : nat → Z) (st : PriceState) (disk : option JsonText) (q : gmap string string) :
    PriceState * gmap string F64 :=
  let st := refresh readable st disk in (st, answer st sample q).

(** The arguments of [/set]. *)
Definition set_args (q : gmap string string) : option (string * F64) :=
  id ← q !! "id"%string; x ← q !! "usd"%string ≫= f_parse; Some (id, x).

(** [set_price]: the reply is the id, the price and the number of entries, or the usage. *)
Definition set_price (readable : bool) (w : Writing) (st : PriceState) (disk : option JsonText) (q : gmap string string) :
    PriceState * option JsonText * option (string * F64 * nat) :=
  match set_args q with
  | None => (st, disk, None)
  | Some (id, x) =>
    let st := refresh readable st disk in
    let snapshot := <[id := x]> (ps_prices st) in
    (with_prices st snapshot, if ps_file st then save_file w disk snapshot else disk, Some (id, x, size snapshot))
  end.

Definition list_prices (readable : bool) (st : PriceState) (disk : option JsonText) : PriceState * gmap string F64 :=
  let st := refresh readable st disk in (st, ps_prices st).

(** ** Concurrent handlers *)

(** A request and where its handler is: about to refresh, with a file it has read, about to do
    its work on the table, about to save, writing. *)
Inductive Request := Setting (id : string) (x : F64) | Reading.
Inductive HandlerPhase :=
  | AtRefresh
  | AtAssign (m : gmap string F64)
  | AtTable
  | AtSave (snapshot : gmap string F64)
  | AtWrite (snapshot : gmap string F64)
  | Answered.

Record Mock := mk_mock {
  mo_state : PriceState;
  mo_disk : option JsonText;
  mo_tasks : gmap N (Request * HandlerPhase);
}.

(** One step of a handler: an access to the file or to the table under its lock. *)
Definition handler_turn (readable : bool) (w : Writing) (st : PriceState) (disk : option JsonText) (r : Request) (p : HandlerPhase) :
    PriceState * option JsonText * HandlerPhase :=
  match p with
  | AtRefresh => (st, disk, match refreshed readable st disk with Some m => AtAssign m | None => AtTable end)
  | AtAssign m => (with_prices st m, disk, AtTable)
  | AtTable =>
    match r with
    | Reading => (st, disk, Answered)
    | Setting id x =>
      let snapshot := <[id := x]> (ps_prices st) in
      (with_prices st snapshot, disk, if ps_file st then AtSave snapshot else Answered)
    end
  | AtSave snapshot => if wr_opens w then (st, Some text_empty, AtWrite snapshot) else (st, disk, Answered)
  | AtWrite snapshot => (st, if wr_writes w then Some (table_text snapshot) else disk, Answered)
  | Answered => (st, disk, Answered)
  end.

(** A request arrives, a handler makes a step, somebody edits the file. *)
Inductive MockAct :=
  | ArriveSet (task : N) (q : gmap string string)
  | ArriveRead (task : N)
  | Turn (task : N) (readable : bool) (w : Writing)
  | Edit (text : option JsonText).

Definition arrive (s : Mock) (task : N) (r : Request) : Mock :=
  match mo_tasks s !! task with
  | None => mk_mock (mo_state s) (mo_disk s) (<[task := (r, AtRefresh)]> (mo_tasks s))
  | Some _ => s
  end.

Definition mock_act (s : Mock) (a : MockAct) : Mock :=
  match a with
  | ArriveSet task q => match set_args q with Some (id, x) => arrive s task (Setting id x) | None => s end
  | ArriveRead task => arrive s task Reading
  | Turn task readable w =>
    match mo_tasks s !! task with
    | Some (r, p) =>
      let '(st, disk, p) := handler_turn readable w (mo_state s) (mo_disk s) r p in
      mk_mock st disk (<[task := (r, p)]> (mo_tasks s))
    | None => s
    end
  | Edit text => mk_mock (mo_state s) text (mo_tasks s)
  end.

Definition mock_run (s : Mock) (acts : list MockAct) : Mock := foldl mock_act s acts.

(** ** The solver's request *)

(** The ids of [fetch_prices]: the symbols of the requested tokens joined by commas. *)
Definition ids_csv `{HashIter} (n : N) (requested : gmap TokenId string) : string :=
  String.string_of_list_ascii (join_comma (String.list_ascii_of_string <$> omap (requested !!.) (hash_iter n (dom requested)))).

Definition price_url (base csv vs_currency : string) : string :=
  (base ++ "?ids=" ++ csv ++ "&vs_currencies=" ++ vs_currency ++ "&precision=full")%string.

(** A poll of the solver that reaches the service: the request, the reply, its parsing.  What
    the query extractor makes of a request is [query_of]. *)
Definition served_poll `{HashIter} (query_of : string → gmap string string) (base vs_currency : string) (n : N)
    (readable : bool) (sample : nat → Z) (mock : PriceState) (disk : option JsonText)
    (feed : FeedState) (token_map : gmap TokenId string) (clock : option Z) : PriceState * FeedState :=
  let requested := requested_symbols token_map (hash_iter n (dom token_map)) in
  let q := query_of (price_url base (ids_csv n requested) vs_currency) in
  let '(mock, body) := simple_price readable sample mock disk q in
  let reply := match body_read (body_text body) with Some b => Prices b | None => BadBody end in
  (mock, poll n vs_currency feed token_map reply clock).

(** ** What the parts outside promise *)

(** JSON has no infinities and no undefined numbers: a finite table or reply reads back, one
    that is not finite is written as null and does not read. *)
Definition all_finite (m : gmap string F64) : Prop := ∀ id x, m !! id = Some x → f_finite x = true.

Definition json_finite : Prop := ∀ m : gmap string F64, all_finite m →
  table_read (table_text m) = Some m ∧ body_read (body_text m) = Some ((λ x, {["usd"%string := x]}) <$> m).
Definition json_nonfinite : Prop := ∀ (m : gmap string F64) id x, m !! id = Some x → f_finite x = false →
  table_read (table_text m) = None ∧ body_read (body_text m) = None.

(** The query of a request whose symbols need no escaping holds the ids as they were sent. *)
Definition plain_char (c : Ascii.ascii) : Prop :=
  let n := Ascii.N_of_ascii c in (48 ≤ n ≤ 57)%N ∨ (65 ≤ n ≤ 90)%N ∨ (97 ≤ n ≤ 122)%N ∨ n = 45%N ∨ n = 95%N.
#[export] Instance plain_char_dec c : Decision (plain_char c) := ltac:(unfold plain_char; solve_decision).
Definition plain (s : string) : Prop := s ≠ ""%string ∧ Forall plain_char (String.list_ascii_of_string s).

Definition query_plain (query_of : string → gmap string string) (base vs : string) : Prop :=
  ∀ csv, Forall (λ c, plain_char c ∨ c = comma) (String.list_ascii_of_string csv) →
    query_of (price_url base csv vs) !! "ids"%string = Some csv.

(** ** Lemmas: texts *)

Lemma plain_not_ws c : plain_char c → is_ws c = false.
Proof. unfold plain_char, is_ws. intros Hc. apply bool_decide_eq_false. lia. Qed.

Lemma plain_not_comma c : plain_char c → c ≠ comma.
Proof. intros Hc ->. unfold plain_char, comma in Hc. rewrite Ascii.N_ascii_embedding in Hc by lia. lia. Qed.

Lemma drop_ws_plain l : Forall plain_char l → drop_ws l = l.
Proof. intros []; simpl; [done|]. by rewrite plain_not_ws. Qed.

Lemma plain_clean s : plain s → clean (String.list_ascii_of_string s).
Proof.
  intros [Hne Hs]. split_and!.
  - by destruct s.
  - intros Hc. rewrite Forall_forall in Hs. by apply (plain_not_comma comma (Hs _ Hc)).
  - unfold trim. rewrite (drop_ws_plain _ Hs), drop_ws_plain; [apply reverse_involutive|by apply Forall_reverse].
Qed.

Lemma join_plain ws :
  Forall (λ w, Forall plain_char w) ws → Forall (λ c, plain_char c ∨ c = comma) (join_comma ws).
Proof.
  intros Hws. induction Hws as [|w ws Hw Hws IH]; [constructor|]. assert (Forall (λ c, plain_char c ∨ c = comma) w) as Hw'.
  { eapply Forall_impl; [exact Hw|]. by left. }
  destruct ws as [|w' ws]; [done|]. change (Forall (λ c, plain_char c ∨ c = comma) (w ++ comma :: join_comma (w' :: ws))).
  apply Forall_app. split; [done|]. constructor; [by right|done].
Qed.

(** Clean words joined by commas are the ids of the request. *)
Lemma batch_ids_join (q : gmap string string) ws :
  q !! "ids"%string = Some (String.string_of_list_ascii (join_comma ws)) → Forall clean ws →
  batch_ids q = String.string_of_list_ascii <$> ws.
Proof.
  intros Hq Hws. unfold batch_ids. rewrite Hq. simpl. rewrite of_to_string. destruct (decide (ws = [])) as [->|Hne]; [done|].
  rewrite split_join; [|done|by eapply Forall_impl; [exact Hws|]; intros w (_ & ? & _)]. f_equal. clear Hne Hq.
  induction Hws as [|w ws (Hne & _ & Ht) _ IH]; [done|]. cbn [fmap list_fmap]. by rewrite Ht, filter_cons, decide_True, IH.
Qed.

(** The service is asked for exactly the mapped symbols. *)
Lemma asked_ids `{HashIter} query_of base vs n (requested : gmap TokenId string) :
  query_plain query_of base vs → (∀ t s, requested !! t = Some s → plain s) →
  ∀ id, id ∈ batch_ids (query_of (price_url base (ids_csv n requested) vs)) ↔ ∃ t, requested !! t = Some id.
Proof.
  intros Hq Hp id. set (ss := omap (requested !!.) (hash_iter n (dom requested))).
  assert (∀ s, s ∈ ss ↔ ∃ t, requested !! t = Some s) as Hss.
  { intros s. unfold ss. rewrite list_elem_of_omap. split; [intros (t & _ & ?); eauto|]. intros [t Ht]. exists t.
    split; [|done]. rewrite hash_iter_perm, elem_of_elements. by eapply elem_of_dom_2. }
  rewrite (batch_ids_join _ (String.list_ascii_of_string <$> ss)).
  - rewrite list_elem_of_fmap. split.
    + intros (w & -> & (s & -> & Hs)%list_elem_of_fmap). rewrite String.string_of_list_ascii_of_string. by apply Hss.
    + intros Ht%Hss. exists (String.list_ascii_of_string id). rewrite String.string_of_list_ascii_of_string. split; [done|].
      by apply list_elem_of_fmap_2.
  - apply Hq. unfold ids_csv. rewrite of_to_string. apply join_plain, Forall_fmap, Forall_forall. intros s [t Ht]%Hss.
    apply (Hp t s Ht).
  - apply Forall_fmap, Forall_forall. intros s [t Ht]%Hss. apply plain_clean, (Hp t s Ht).
Qed.

(** ** Lemmas: replies *)

(** The price of an id without drift. *)
Definition listed (st : PriceState) (id : string) : option F64 :=
  match ps_prices st !! id with Some x => Some x | None => ps_default_usd st end.

Lemma answer_ids_lookup st sample k ids out id :
  ps_drift_bps st = 0 →
  answer_ids st sample k ids out !! id =
    if decide (id ∈ ids) then (match listed st id with Some x => Some x | None => out !! id end) else out !! id.
Proof.
  intros Hd. revert k out. induction ids as [|i ids IH]; intros k out; cbn [answer_ids].
  { rewrite decide_False by (by intros ?%elem_of_nil). done. }
  rewrite IH. unfold price_of. rewrite Hd. change (match ps_prices st !! i with Some x => Some x | None => ps_default_usd st end) with (listed st i).
  destruct (decide (id = i)) as [->|Hne].
  - rewrite (decide_True (P := i ∈ i :: ids)) by left. destruct (listed st i) as [x|]; simpl; [rewrite lookup_insert_eq|]; by case_decide.
  - assert (id ∈ i :: ids ↔ id ∈ ids) as He by (rewrite elem_of_cons; tauto).
    rewrite (decide_ext _ _ _ _ He). destruct (listed st i); simpl; [rewrite lookup_insert_ne by done|]; done.
Qed.

Lemma answer_lookup st sample q id x :
  ps_drift_bps st = 0 → answer st sample q !! id = Some x ↔ id ∈ batch_ids q ∧ listed st id = Some x.
Proof.
  intros Hd. unfold answer. rewrite answer_ids_lookup by done. case_decide; [|naive_solver].
  destruct (listed st id); naive_solver.
Qed.

Lemma refresh_fields readable st disk :
  ps_file (refresh readable st disk) = ps_file st ∧ ps_default_usd (refresh readable st disk) = ps_default_usd st ∧
  ps_drift_bps (refresh readable st disk) = ps_drift_bps st.
Proof. unfold refresh. by destruct (refreshed readable st disk). Qed.

(** ** Lemmas: a poll of the service *)

Lemma poll_cents `{HashIter} n vs feed token_map body clock :
  let feed' := poll n vs feed token_map (Prices body) clock in fs_cents feed' = to_cents (fs_precise feed').
Proof. unfold poll, poll_client, client_fetch, http_price_client, fetch_prices. simpl. by case_decide. Qed.

Section polled.
Context `{HashIter} (query_of : string → gmap string string) (base : string) (n : N).
Context (readable : bool) (sample : nat → Z) (mock : PriceState) (disk : option JsonText).
Context (token_map : gmap TokenId string).
Hypothesis Hquery : query_plain query_of base "usd".
Hypothesis Hplain : ∀ t s, token_map !! t = Some s → plain s.
Hypothesis Hstatic : ps_drift_bps mock = 0.

Definition asked : gmap string string :=
  query_of (price_url base (ids_csv n (requested_symbols token_map (hash_iter n (dom token_map)))) "usd").

Lemma answered_lookup id x :
  answer (refresh readable mock disk) sample asked !! id = Some x ↔
    (∃ t, token_map !! t = Some id) ∧ listed (refresh readable mock disk) id = Some x.
Proof.
  destruct (refresh_fields readable mock disk) as (_ & _ & Hd). rewrite answer_lookup by (by rewrite Hd).
  unfold asked. rewrite poll_requests. by rewrite (asked_ids query_of base "usd" n token_map Hquery Hplain).
Qed.

Lemma served_poll_priced feed now :
  json_finite →
  (∀ t s x, token_map !! t = Some s → listed (refresh readable mock disk) s = Some x → f_finite x = true) →
  let '(mock', feed') := served_poll query_of base "usd" n readable sample mock disk feed token_map (Some now) in
  mock' = refresh readable mock disk ∧ fs_updated feed' = now ∧ fs_cents feed' = to_cents (fs_precise feed') ∧
  ∀ t x, fs_precise feed' !! t = Some x ↔
    ∃ s, token_map !! t = Some s ∧ listed (refresh readable mock disk) s = Some x ∧ f_valid x = true.
Proof.
  intros Hj Hfin. unfold served_poll. simpl. split; [done|]. fold asked.
  destruct (Hj (answer (refresh readable mock disk) sample asked)) as [_ ->].
  { intros id x [[t Ht] Hl]%answered_lookup. by eapply Hfin. }
  destruct (poll_exact n "usd" feed token_map
    (Prices ((λ x, {["usd"%string := x]}) <$> answer (refresh readable mock disk) sample asked)) now) as [Hp Hu].
  split; [exact Hu|]. split; [apply poll_cents|]. intros t x. rewrite Hp. apply exist_proper. intros s.
  split; intros (Ht & Hs); (split; [done|]); revert Hs; unfold priced; rewrite lookup_fmap.
  - destruct (answer _ sample asked !! s) as [y|] eqn:E; simpl; [|done]. rewrite lookup_singleton_eq. simpl.
    destruct (f_valid y) eqn:Ev; [|done]. intros [= <-]. by apply answered_lookup in E as [_ ->].
  - intros [Hl Hv]. assert (answer (refresh readable mock disk) sample asked !! s = Some x) as -> by (apply answered_lookup; eauto).
    simpl. rewrite lookup_singleton_eq. simpl. by rewrite Hv.
Qed.

Lemma served_poll_stalled feed clock t s x :
  json_nonfinite → token_map !! t = Some s → listed (refresh readable mock disk) s = Some x → f_finite x = false →
  (served_poll query_of base "usd" n readable sample mock disk feed token_map clock).2 = feed.
Proof.
  intros Hj Ht Hl Hx. unfold served_poll. simpl. fold asked.
  destruct (Hj (answer (refresh readable mock disk) sample asked) s x) as [_ ->]; [apply answered_lookup; eauto|done|].
  unfold poll, poll_client, client_fetch, http_price_client, fetch_prices. simpl. rewrite poll_requests, decide_False; [done|]. intros ->. by rewrite lookup_empty in Ht.
Qed.
End polled.

(** ** Lemmas: handlers *)

(** A [/set] handler that is not interrupted is [set_price]. *)
Lemma set_uninterrupted s task q readable w :
  mo_tasks s !! task = None →
  let s' := mock_run s (ArriveSet task q :: replicate 5 (Turn task readable w)) in
  (mo_state s', mo_disk s') = (set_price readable w (mo_state s) (mo_disk s) q).1.
Proof.
  intros Hfree. destruct s as [st disk tasks]. cbn [mo_tasks mo_state mo_disk] in *. unfold mock_run, set_price.
  cbn [replicate foldl mock_act]. destruct (set_args q) as [[id x]|]; cbn [mock_act mo_tasks].
  2: { repeat (rewrite Hfree; cbn [mo_tasks]). done. }
  unfold arrive. cbn [mo_tasks mo_state mo_disk]. rewrite Hfree. cbn [mo_tasks mo_state mo_disk].
  rewrite lookup_insert_eq. cbn [handler_turn]. unfold refresh, save_file.
  destruct (refreshed readable st disk) as [m|]; repeat (cbn [mo_tasks mo_state mo_disk handler_turn with_prices ps_prices ps_file ps_default_usd ps_drift_bps fst];
    rewrite ?lookup_insert_eq); destruct (ps_file st); repeat (cbn [mo_tasks mo_state mo_disk handler_turn fst]; rewrite ?lookup_insert_eq);
    try done; destruct w as [[] []]; repeat (cbn [mo_tasks mo_state mo_disk handler_turn fst wr_opens wr_writes]; rewrite ?lookup_insert_eq); done.
Qed.

(** Where prices come from: every price in the table, the file and the handlers satisfies [P]. *)
Section provenance.
Context (P : string → F64 → Prop).

Definition text_vouched (text : JsonText) : Prop := ∀ m, table_read text = Some m → map_Forall P m.
Definition disk_vouched (disk : option JsonText) : Prop := ∀ text, disk = Some text → text_vouched text.
Definition phase_vouched (p : HandlerPhase) : Prop :=
  match p with AtAssign m | AtSave m | AtWrite m => map_Forall P m | _ => True end.
Definition request_vouched (r : Request) : Prop := match r with Setting id x => P id x | Reading => True end.

Record vouched (s : Mock) : Prop := {
  vo_table : map_Forall P (ps_prices (mo_state s));
  vo_disk : disk_vouched (mo_disk s);
  vo_tasks : map_Forall (λ _ t, request_vouched t.1 ∧ phase_vouched t.2) (mo_tasks s);
}.

Lemma written_vouched m : json_finite → json_nonfinite → map_Forall P m → text_vouched (table_text m).
Proof.
  intros Hf Hn Hm m'. destruct (decide (map_Forall (λ _ x, f_finite x = true) m)) as [Ha|Ha].
  - destruct (Hf m Ha) as [-> _]. by intros [= <-].
  - apply map_not_Forall in Ha as (id & x & Hx & Hi%not_true_is_false); [|apply _]. by destruct (Hn m id x Hx Hi) as [-> _].
Qed.

Lemma saved_vouched m : json_finite → json_nonfinite → map_Forall P m → disk_vouched (Some (table_text m)).
Proof. intros Hf Hn Hm text Ht. injection Ht as <-. by apply written_vouched. Qed.

(** What a request or an edit brings in. *)
Definition act_vouched (a : MockAct) : Prop :=
  match a with
  | ArriveSet _ q => ∀ id x, set_args q = Some (id, x) → P id x
  | Edit text => disk_vouched text
  | ArriveRead _ | Turn _ _ _ => True
  end.

Lemma handler_vouched readable w st disk r p :
  json_finite → json_nonfinite → table_read text_empty = None →
  map_Forall P (ps_prices st) → disk_vouched disk → request_vouched r → phase_vouched p →
  let '(st', disk', p') := handler_turn readable w st disk r p in
  map_Forall P (ps_prices st') ∧ disk_vouched disk' ∧ phase_vouched p'.
Proof.
  intros Hf Hn He Ht Hd Hr Hp. assert (disk_vouched (Some text_empty)) as Hempty by (intros ? [= <-] m; by rewrite He).
  destruct p as [|m| |m|m|]; simpl in *; try done.
  - split_and!; try done. unfold refreshed. destruct (ps_file st); [|done]. destruct disk as [text|]; [|done]. simpl.
    unfold load_file. destruct readable; [|done]. destruct (table_read text) as [m|] eqn:E; [|done]. by apply (Hd text eq_refl).
  - destruct r as [id x|]; [|done]. assert (map_Forall P (<[id := x]> (ps_prices st))) as Hi by (by apply map_Forall_insert_2).
    split_and!; [done..|]. by destruct (ps_file st).
  - by destruct (wr_opens w).
  - split_and!; try done. destruct (wr_writes w); [by apply saved_vouched|done].
Qed.

Lemma act_vouched_step s a :
  json_finite → json_nonfinite → table_read text_empty = None → act_vouched a → vouched s → vouched (mock_act s a).
Proof.
  intros Hf Hn He Ha [Ht Hd Hts]. assert (∀ task r, request_vouched r → vouched (arrive s task r)) as Harr.
  { intros task r Hr. unfold arrive. destruct (mo_tasks s !! task); [by split|]. split; simpl; [done..|].
    by apply map_Forall_insert_2. }
  destruct a as [task q|task|task readable w|text]; simpl in *.
  - destruct (set_args q) as [[id x]|]; [|by split]. apply Harr, (Ha id x eq_refl).
  - by apply Harr.
  - destruct (mo_tasks s !! task) as [[r p]|] eqn:E; [|by split]. destruct (Hts task _ E) as [Hr Hp]. simpl in *.
    pose proof (handler_vouched readable w (mo_state s) (mo_disk s) r p Hf Hn He Ht Hd Hr Hp) as Hturn.
    destruct (handler_turn _ _ _ _ _ _) as [[st disk] p'], Hturn as (? & ? & ?). split; simpl; [done..|].
    by apply map_Forall_insert_2.
  - by split.
Qed.

Lemma run_vouched s acts :
  json_finite → json_nonfinite → table_read text_empty = None → Forall act_vouched acts → vouched s → vouched (mock_run s acts).
Proof.
  intros Hf Hn He Ha. revert s. induction Ha as [|a acts Ha _ IH]; intros s Hs; [done|]. apply IH. by apply act_vouched_step.
Qed.
End provenance.

(** After a [/set] that was saved, the next refresh finds the table that was answered. *)
Lemma set_refreshed readable w mock disk q mock' disk' id x entries :
  set_price readable w mock disk q = (mock', disk', Some (id, x, entries)) →
  mock' = with_prices mock (<[id := x]> (ps_prices (refresh readable mock disk))) ∧
  disk' = if ps_file mock then save_file w disk (ps_prices mock') else disk.
Proof.
  unfold set_price. destruct (set_args q) as [[id0 x0]|]; [|done]. destruct (refresh_fields readable mock disk) as (Hf & Hd & Hb).
  unfold with_prices. rewrite Hf, Hd, Hb. intros [= <- <- <- <- _]. done.
Qed.
End service.

(** ** Theorems *)

Section theorems.
Context `{FL : Floats} `{JS : !Json} `{HI : HashIter}.
Context (query_of : string → gmap string string) (base : string) (token_map : gmap TokenId string).


(** A price that is not finite stalls the whole feed.  [/set] accepts the texts of an undefined
    or infinite number; from then on no poll changes any price the solver has as long as the
    symbol is mapped, and the file it was saved to cannot be loaded by the next start. *)
Theorem nonfinite_price_stalls_feed n sample readable readable' w mock disk q mock' disk' id x entries t feed clock :
  json_nonfinite → query_plain query_of base "usd" → (∀ t s, token_map !! t = Some s → plain s) → ps_drift_bps mock = 0 →
  set_price readable w mock disk q = (mock', disk', Some (id, x, entries)) →
  ps_file mock = false ∨ w = mk_writing true true → f_finite x = false → token_map !! t = Some id →
  (served_poll query_of base "usd" n readable' sample mock' disk' feed token_map clock).2 = feed ∧
  (ps_file mock = true → ∀ w' args d bps, mock_start true disk' readable' w' args d bps = None).
Proof.
  intros Hj Hq Hp Hd Hset Hsaved Hx Ht. destruct (set_refreshed _ _ _ _ _ _ _ _ _ _ Hset) as [Hm Hk].
  assert (ps_prices mock' !! id = Some x) as Hid by (rewrite Hm; apply lookup_insert_eq).
  assert (ps_file mock = true → disk' = Some (table_text (ps_prices mock'))) as Hdisk.
  { intros Hf. rewrite Hk, Hf. destruct Hsaved as [Hf'| ->]; [by rewrite Hf in Hf'|done]. }
  destruct (Hj (ps_prices mock') id x Hid Hx) as [Hread _].
  assert (refresh readable' mock' disk' = mock') as Hr.
  { unfold refresh, refreshed. assert (ps_file mock' = ps_file mock) as -> by (by rewrite Hm).
    destruct (ps_file mock) eqn:Ef; [|done]. rewrite (Hdisk eq_refl). simpl. unfold load_file. destruct readable'; [|done].
    by rewrite Hread. }
  split.
  - eapply served_poll_stalled; try done; [by rewrite Hm|]. rewrite Hr. unfold listed. by rewrite Hid.
  - intros Hf w' args d bps. unfold mock_start. rewrite (Hdisk Hf). simpl. unfold load_file. destruct readable'; [|done].
    by rewrite Hread.
Qed.

(** Every price that is served was given to the service: in every interleaving of handlers,
    edits of the file and failures to read or write it, a price in a reply was set, passed or
    edited in for that id, or is the default. *)
Theorem served_prices_given (P : string → F64 → Prop) s acts sample q id x :
  json_finite → json_nonfinite → table_read text_empty = None → vouched P s → Forall (act_vouched P) acts →
  let st := mo_state (mock_run s acts) in
  ps_drift_bps st = 0 → answer st sample q !! id = Some x → P id x ∨ ps_default_usd st = Some x.
Proof.
  intros Hf Hn He Hs Ha st Hd Hx. destruct (run_vouched P s acts Hf Hn He Ha Hs) as [Ht _ _]. fold st in Ht.
  apply answer_lookup in Hx as [_ Hx]; [|done]. unfold listed in Hx. destruct (ps_prices st !! id) as [y|] eqn:E; [|by right].
  injection Hx as <-. left. by apply (Ht id y).
Qed.
End theorems.

(** ** An instance *)

(** Prices are integers or undefined; a text is a table without undefined prices, or does not
    parse. *)
Definition mock_floats : Floats := {|
  F64 := option Z; f_valid := λ x, match x with Some v => 0 <=? v | None => false end;
  f_positive := λ x, match x with Some v => 0 <? v | None => false end;
  f_cents64 := λ x, 100 * default 0 x; f_cents128 := λ x, 100 * default 0 x; f_full := λ x, show_uint (default 0 x);
  f_fixed := λ x _, show_uint (default 0 x); f_quotient := λ x y, show_uint (default 0 x / default 0 y);
|}.
#[local] Existing Instance mock_floats.

Definition finite_table (m : gmap string (option Z)) : option (gmap string (option Z)) :=
  if decide (map_Forall (λ _ x, x ≠ None) m) then Some m else None.

Definition mock_json : Json := {|
  JsonText := option (gmap string (option Z)); text_empty := None; table_text := finite_table; table_read := λ t, t;
  body_text := finite_table; body_read := λ t, fmap (M := gmap string) (λ x : option Z, {["usd"%string := x]}) <$> t;
  f_finite := λ x, match x with Some _ => true | None => false end;
  f_parse := λ s, if decide (s = "NaN"%string) then Some None else Some <$> parse_uint (two64 - 1) s;
  f_drifted := λ _ _ x, x;
|}.
#[local] Existing Instance mock_json.
#[local] Existing Instance elements_iter.

Lemma mock_json_finite : json_finite.
Proof.
  intros m Hm. assert (finite_table m = Some m) as E.
  { unfold finite_table. rewrite decide_True; [done|]. intros id x Hx ->. specialize (Hm id None Hx). done. }
  simpl. by rewrite E.
Qed.

Lemma mock_json_nonfinite : json_nonfinite.
Proof.
  intros m id x Hx Hn. assert (finite_table m = None) as E.
  { unfold finite_table. rewrite decide_False; [done|]. intros Ha. specialize (Ha id x Hx). by destruct x. }
  simpl. by rewrite E.
Qed.

(** A query extractor for requests of the form [http://mock?ids=...&...]. *)
Definition amp : Ascii.ascii := Ascii.ascii_of_N 38.
Fixpoint up_to_amp (l : list Ascii.ascii) : list Ascii.ascii :=
  match l with [] => [] | c :: r => if decide (c = amp) then [] else c :: up_to_amp r end.
Definition mock_query (url : string) : gmap string string :=
  {["ids"%string := String.string_of_list_ascii (up_to_amp (drop 16 (String.list_ascii_of_string url)))]}.

Lemma list_of_append s t : String.list_ascii_of_string (s ++ t)%string = String.list_ascii_of_string s ++ String.list_ascii_of_string t.
Proof. induction s as [|c s IH]; simpl; [done|]. by rewrite IH. Qed.

Lemma up_to_amp_app l r : Forall (λ c, c ≠ amp) l → up_to_amp (l ++ amp :: r) = l.
Proof. intros Hl. induction Hl as [|c l Hc _ IH]; simpl; [done|]. by rewrite decide_False, IH. Qed.

Lemma plain_not_amp c : plain_char c ∨ c = comma → c ≠ amp.
Proof.
  intros [Hc|Hc] ->; [|done]. unfold plain_char, amp in Hc. rewrite Ascii.N_ascii_embedding in Hc by lia. lia.
Qed.

Lemma mock_query_plain : query_plain mock_query "http://mock" "usd".
Proof.
  intros csv Hcsv. unfold mock_query. rewrite lookup_singleton_eq. f_equal. unfold price_url. rewrite list_of_append.
  rewrite list_of_append, list_of_append. cbn [String.list_ascii_of_string app drop].
  trans (String.string_of_list_ascii (String.list_ascii_of_string csv)); [|apply String.string_of_list_ascii_of_string].
  f_equal. apply up_to_amp_app. eapply Forall_impl; [exact Hcsv|]. apply plain_not_amp.
Qed.

Definition mock_map : gmap TokenId string := {[1%N := "btc"%string; 2%N := "eth"%string]}.
Lemma mock_map_plain t s : mock_map !! t = Some s → plain s.
Proof.
  unfold mock_map. intros [[<- <-]|[_ [<- <-]%lookup_singleton_Some]]%lookup_insert_Some; (split; [done|]);
    apply (bool_decide_eq_true_1 (Forall _ _)); vm_compute; reflexivity.
Qed.

Definition mock_table : PriceState := mk_price_state {["eth"%string := Some 30]} true None 0.
Definition set_query (id usd : string) : gmap string string := {["id"%string := id; "usd"%string := usd]}.
Definition saved : Writing := mk_writing true true.
Definition after_set (usd : string) : PriceState * option JsonText :=
  (set_price true saved mock_table (Some (table_text (ps_prices mock_table))) (set_query "btc" usd)).1.

Lemma answered_set usd v n :
  (set_price true saved mock_table (Some (table_text (ps_prices mock_table))) (set_query "btc" usd)).2 = Some ("btc"%string, v, n) →
  set_price true saved mock_table (Some (table_text (ps_prices mock_table))) (set_query "btc" usd) =
    ((after_set usd).1, (after_set usd).2, Some ("btc"%string, v, n)).
Proof. unfold after_set. destruct (set_price _ _ _ _ _) as [[st disk] r]. simpl. by intros ->. Qed.


Lemma nonfinite_price_stalls_feed_witness :
  (served_poll mock_query "http://mock" "usd" 0 true (λ _, 0) (after_set "NaN").1 (after_set "NaN").2 feed_new mock_map (Some 5)).2 =
    feed_new ∧ mock_start true (after_set "NaN").2 true saved [] None 0 = None.
Proof.
  destruct (nonfinite_price_stalls_feed mock_query "http://mock" mock_map 0 (λ _, 0) true true saved mock_table
    (Some (table_text (ps_prices mock_table))) (set_query "btc" "NaN") (after_set "NaN").1 (after_set "NaN").2 "btc" None 2 1 feed_new (Some 5)
    mock_json_nonfinite mock_query_plain mock_map_plain eq_refl ltac:(apply answered_set; vm_compute; reflexivity) (or_intror eq_refl) eq_refl eq_refl)
    as [H1 H2].
  split; [exact H1|]. exact (H2 eq_refl saved [] None 0).
Defined.

Definition two_sets : list MockAct := [ArriveSet 1 (set_query "btc" "7"); ArriveSet 2 (set_query "sol" "9")].
Definition fresh_mock : Mock := mk_mock mock_table (Some (table_text (ps_prices mock_table))) ∅.

Definition real_price (id : string) (x : option Z) : Prop := x ≠ None.

Lemma served_prices_given_witness :
  answer (mo_state (mock_run fresh_mock (two_sets ++ replicate 5 (Turn 1 true saved)))) (λ _, 0) {["ids"%string := "btc"%string]} !! "btc"%string =
    Some (Some 7) ∧ (real_price "btc" (Some 7) ∨ ps_default_usd mock_table = Some (Some 7)).
Proof.
  split; [vm_compute; reflexivity|].
  apply (served_prices_given (FL := mock_floats) real_price fresh_mock (two_sets ++ replicate 5 (Turn 1 true saved)) (λ _, 0)
    {["ids"%string := "btc"%string]} "btc"%string (Some 7)).
  - exact mock_json_finite.
  - exact mock_json_nonfinite.
  - reflexivity.
  - split; cbn [fresh_mock mo_state mo_disk mo_tasks mock_table ps_prices]; [| |done].
    + intros i x [_ <-]%lookup_singleton_Some. by intros [=].
    + apply (saved_vouched (FL := mock_floats) real_price {["eth"%string := Some 30]}); [exact mock_json_finite|exact mock_json_nonfinite|].
      intros i x [_ <-]%lookup_singleton_Some. by intros [=].
  - repeat constructor; simpl; intros i x [= _ <-]; by intros [=].
  - reflexivity.
  - vm_compute. reflexivity.
Defined.

(** Two concurrent [/set] requests can lose a price: the second handler reads the file before
    the first saves it and replaces the table after the first has inserted its price.  Both
    are answered, and the price of the first is in neither the table nor the file. *)
Theorem concurrent_sets_lose_price :
  let s := mock_run fresh_mock (two_sets ++ [Turn 2 true saved] ++ replicate 5 (Turn 1 true saved) ++ replicate 4 (Turn 2 true saved)) in
  (∀ task, task = 1%N ∨ task = 2%N → snd <$> mo_tasks s !! task = Some Answered) ∧
  ps_prices (mo_state s) !! "btc"%string = None ∧ mo_disk s ≫= (λ t, table_read t) = Some (ps_prices (mo_state s)) ∧
  ps_prices (mo_state s) !! "sol"%string = Some (Some 9).
Proof. split; [intros task [->| ->]; vm_compute; reflexivity|]. vm_compute. done. Qed.
