(* ===== verification/MirrorDaemon.v ===== *)
(** * The mirror as a program (crates/mock-mirror/src: config.rs, mirror.rs, ops.rs, main.rs)

    Configuration, command line, subscription and the tick loop of the mock market maker, with
    every transaction submitted through the retries of Mirror and logged when it lands.  The
    client (sync, notes, balances), the chain and floating-point numbers are inputs. *)

From stdpp Require Import option.
From S2P Require Import Prelude.
From S2P Require Import Orders.
From S2P Require Import Types.
From S2P Require Import PriceApi.
From S2P Require Import Mirror.

(** ** Configuration *)

Record RpcCfg := mk_rpc_cfg {
  rq_endpoint : string;
  rq_timeout_ms : Z;
  rq_network : string;
  rq_prover_endpoint : option string;
  rq_prover_timeout_ms : Z;
}.

Inductive NetworkId := Devnet | Testnet | Mainnet.

Definition lowercase (s : string) : string :=
  String.string_of_list_ascii (to_lower <$> String.list_ascii_of_string s).

Definition network_id (c : RpcCfg) : option NetworkId :=
  let n := lowercase (rq_network c) in
  if decide (n = "devnet"%string) then Some Devnet
  else if decide (n = "testnet"%string) then Some Testnet
  else if decide (n = "mainnet"%string) then Some Mainnet
  else None.

(** [str::contains] *)
Fixpoint is_prefix (p l : list Ascii.ascii) : bool :=
  match p, l with
  | [], _ => true
  | c :: p, d :: l => bool_decide (c = d) && is_prefix p l
  | _, _ => false
  end.
Fixpoint contains (p l : list Ascii.ascii) : bool :=
  is_prefix p l || match l with [] => false | _ :: r => contains p r end.

Record PairCfg := mk_pair_cfg { pc_token_a_faucet_id : string; pc_token_b_faucet_id : string }.
Record InventoryCfg := mk_inventory { iv_faucet_id : string; iv_low_water : Z }.
Record MockAccountCfg := mk_account_cfg {
  ma_account_id : option string;
  ma_keystore_path : string;
  ma_store_path : string;
  ma_account_file : option string;
}.

(** [Prob] is the type of the fill probability, with the test of its range and the comparison
    with [k / 2^53], the value of the generator. *)
Class Probability := {
  Prob : Type;
  in_unit_range : Prob → bool;
  unit_below : Z → Prob → bool;
}.

Section daemon.
Context `{!Probability}.

Record SettingsCfg := mk_settings {
  se_solver_account_id : string;
  se_spread_bps : Z;
  se_partial_fill_probability : Prob;
  se_max_mirrors_per_tick : nat;
  se_sync_interval_ms : Z;
  se_seed : Z;
  se_allow_mainnet : bool;
}.

Record MockConfig := mk_mock_config {
  mc_rpc : RpcCfg;
  mc_mock : MockAccountCfg;
  mc_settings : SettingsCfg;
  mc_pairs : list PairCfg;
  mc_inventory : list InventoryCfg;
}.

(** [MockConfig::validate] *)
Definition mirror_valid (c : MockConfig) : bool :=
  let s := mc_settings c in
  match network_id (mc_rpc c) with
  | None => false
  | Some _ =>
    if (se_spread_bps s =? 0) || (10000 <=? se_spread_bps s) then false
    else if negb (in_unit_range (se_partial_fill_probability s)) then false
    else if negb (se_allow_mainnet s) && contains (String.list_ascii_of_string "mainnet") (String.list_ascii_of_string (lowercase (rq_endpoint (mc_rpc c))))
    then false
    else true
  end.

(** [MockConfig::load]: the content of the file, if it can be read, and the parser of TOML. *)
Definition mirror_load (parse : string → option MockConfig) (content : option string) : option MockConfig :=
  text ← content; c ← parse text; if mirror_valid c then Some c else None.

(** ** Command line *)

Inductive Command :=
  | CmdAddr (ids : list string)
  | CmdClaim (args : list string)
  | CmdPswap (args : list string)
  | CmdBalance (args : list string)
  | CmdProvision (path : string)
  | CmdRun (path : string).

Definition default_config : string := "mock.toml".

(** The arguments after the name of the program. *)
Definition command (args : list string) : Command :=
  match args with
  | [] => CmdRun default_config
  | a :: rest =>
    if decide (a = "addr"%string) then CmdAddr rest
    else if decide (a = "claim"%string) then CmdClaim rest
    else if decide (a = "pswap"%string) then CmdPswap rest
    else if decide (a = "balance"%string) then CmdBalance rest
    else if decide (a = "provision"%string) then CmdProvision (default default_config (head rest))
    else if decide (a = "run"%string) then CmdRun (default default_config (head rest))
    else CmdRun a
  end.

Inductive NoteType := Public | Private.

(** [run_pswap] up to the client: the arguments of an order. *)
Definition pswap_args (from_hex : string → option TokenId) (a : list string) :
    option (string * (TokenId * Z) * (TokenId * Z) * NoteType) :=
  config ← a !! 0%nat;
  offer_faucet ← a !! 1%nat ≫= from_hex;
  offer_amt ← a !! 2%nat ≫= parse_uint (two64 - 1);
  req_faucet ← a !! 3%nat ≫= from_hex;
  req_amt ← a !! 4%nat ≫= parse_uint (two64 - 1);
  payback ← match a !! 5%nat with
    | None => Some Public
    | Some t => if decide (t = "private"%string) then Some Private else if decide (t = "public"%string) then Some Public else None
    end;
  Some (config, (offer_faucet, offer_amt), (req_faucet, req_amt), payback).

(** [provision]: what is stored, in order, until something fails.  [ok] tells which step
    succeeds. *)
Inductive ProvisionStep := StepClient | StepAccount | StepKey | StepStore | StepExport | StepNetwork.

Fixpoint provision_steps (ok : ProvisionStep → bool) (steps : list ProvisionStep) : list ProvisionStep * bool :=
  match steps with
  | [] => ([], true)
  | x :: steps => if ok x then let '(done, r) := provision_steps ok steps in (x :: done, r) else ([], false)
  end.

Definition provision (ok : ProvisionStep → bool) (c : MockConfig) : list ProvisionStep * bool :=
  provision_steps ok
    ([StepClient; StepAccount; StepKey; StepStore] ++ match ma_account_file (mc_mock c) with Some _ => [StepExport] | None => [] end ++ [StepNetwork]).

(** [account_and_client], without the client: the account of a configuration file. *)
Definition configured_account (parse : string → option MockConfig) (from_hex : string → option N) (content : option string) : option N :=
  c ← mirror_load parse content; hex ← ma_account_id (mc_mock c); from_hex hex.

(** [balances]: the lines that are printed, and whether all could be. *)
Fixpoint balance_lines (balance : TokenId → option Z) (faucets : list TokenId) : list (TokenId * Z) * bool :=
  match faucets with
  | [] => ([], true)
  | f :: faucets =>
    match balance f with
    | Some b => let '(lines, ok) := balance_lines balance faucets in ((f, b) :: lines, ok)
    | None => ([], false)
    end
  end.

(** [run_balance]: [read] gives the content of a file; the faucets parse before the account is
    looked at, and the sync comes before the first line. *)
Definition run_balance (parse : string → option MockConfig) (from_hex : string → option N) (read : string → option string)
    (synced : bool) (balance : N → TokenId → option Z) (a : list string) : list (TokenId * Z) * bool :=
  match
    config ← head a; faucets ← mapM from_hex (tail a); account ← configured_account parse from_hex (read config); Some (account, faucets)
  with
  | Some (account, faucets) => if synced then balance_lines (balance account) faucets else ([], false)
  | None => ([], false)
  end.

(** [addr_convert]: what is printed for an id. *)
Inductive AddrLine :=
  | AddrHex (hex : string) (net : NetworkId)
  | AddrBech32 (dev test : string)
  | AddrInvalid.

Definition addr_line (from_bech32 : string → option (NetworkId * N)) (from_hex : string → option N) (to_hex : N → string)
    (encode_addr : NetworkId → N → string) (s : string) : AddrLine :=
  match from_bech32 s with
  | Some (net, id) => AddrHex (to_hex id) net
  | None =>
    match from_hex s with
    | Some id => AddrBech32 (encode_addr Devnet id) (encode_addr Testnet id)
    | None => AddrInvalid
    end
  end.

(** ** Subscription *)

(** [subscribe_pairs]: the tags added, and whether all could be; [subscribes] tells whether the
    tag of a direction can be built and added. *)
Fixpoint subscribe_pairs (from_hex : string → option TokenId) (subscribes : Pair → bool) (pairs : list PairCfg) : list Pair * bool :=
  match pairs with
  | [] => ([], true)
  | p :: rest =>
    match from_hex (pc_token_a_faucet_id p), from_hex (pc_token_b_faucet_id p) with
    | Some a, Some b =>
      if subscribes (a, b) then
        if subscribes (b, a) then let '(tags, ok) := subscribe_pairs from_hex subscribes rest in ((a, b) :: (b, a) :: tags, ok)
        else ([(a, b)], false)
      else ([], false)
    | _, _ => ([], false)
    end
  end.

(** ** Transactions *)

Section ticks.
Context `{!Miden}.

(** What is submitted: consuming a note, posting a counter, creating an order of one's own. *)
Inductive MirrorTx :=
  | Consume (note : Note)
  | Post (c : Counter)
  | Create (offered requested : TokenId * Z) (payback : NoteType).

(** The mirror between ticks: the generator, the nonce of the account and the transactions
    that landed, oldest first. *)
Record MirrorState := mk_mirror_state { ms_rng : Z; ms_nonce : Z; ms_landed : list MirrorTx }.

(** The circumstances of a submission. *)
Record Submission := mk_submission { su_unique : bool; su_readable : bool; su_env : nat → Attempt }.

Definition submit_tx (sub : Submission) (tx : MirrorTx) (st : MirrorState) : MirrorState * bool :=
  let t := submit_with_backoff (su_unique sub) (su_env sub) (su_readable sub) (ms_nonce st) in
  (mk_mirror_state (ms_rng st) (ms_nonce st + Z.of_nat (tr_landed t)) (ms_landed st ++ replicate (tr_landed t) tx), tr_ok t).

(** One after the other, whatever the outcome of each; the successes are counted. *)
Fixpoint submit_all (subs : nat → Submission) (k : nat) (txs : list MirrorTx) (st : MirrorState) : MirrorState * nat :=
  match txs with
  | [] => (st, 0%nat)
  | tx :: txs =>
    let '(st, ok) := submit_tx (subs k) tx st in
    let '(st, n) := submit_all subs (S k) txs st in
    (st, if ok then S n else n)
  end.

(** ** Claiming *)

(** The notes to claim: the committed ones that are no swap orders; [None] when a record is not
    a note. *)
Fixpoint claimable (records : list (option Note)) : option (list Note) :=
  match records with
  | [] => Some []
  | record :: records =>
    note ← record; rest ← claimable records; Some (if has_pswap_script note then rest else note :: rest)
  end.

(** [claim_incoming], from the result of the query. *)
Definition claim_incoming (committed : option (list (option Note))) (subs : nat → Submission) (st : MirrorState) : MirrorState * option nat :=
  match committed ≫= claimable with
  | None => (st, None)
  | Some notes => let '(st, n) := submit_all subs 0 (Consume <$> notes) st in (st, Some n)
  end.

(** [ops::claim]: the same after a sync. *)
Definition claim (synced : bool) (committed : option (list (option Note))) (subs : nat → Submission) (st : MirrorState) :
    MirrorState * option nat :=
  if synced then claim_incoming committed subs st else (st, None).

(** [ops::create_pswap]: one submission, without retries. *)
Definition create_pswap (e : Attempt) (offered requested : TokenId * Z) (payback : NoteType) (st : MirrorState) : MirrorState * bool :=
  if negb (at_builds e) then (st, false)
  else
    (if at_lands e then mk_mirror_state (ms_rng st) (ms_nonce st + 1) (ms_landed st ++ [Create offered requested payback]) else st,
     match at_reply e with SubmitOk => true | _ => false end).

(** ** The tick *)

Record TickEnv := mk_tick_env {
  tn_sync : option (list OrderId * list OrderId);
  tn_note : OrderId → option Note;
  tn_committed : option (list (option Note));
  tn_builds : Counter → bool;
  tn_subs : nat → Submission;
  tn_balance : TokenId → option Z;
}.

(** The inventory that runs low; [None] when an id does not parse or a balance cannot be read. *)
Fixpoint low_inventory (from_hex : string → option TokenId) (balance : TokenId → option Z) (items : list InventoryCfg) : option (list TokenId) :=
  match items with
  | [] => Some []
  | item :: items =>
    faucet ← from_hex (iv_faucet_id item);
    b ← balance faucet;
    rest ← low_inventory from_hex balance items;
    Some (if b <? iv_low_water item then faucet :: rest else rest)
  end.

Definition mirror_settings (c : MockConfig) (mock_id solver_id : N) : MirrorSettings :=
  mk_mirror mock_id solver_id (se_spread_bps (mc_settings c)) (se_max_mirrors_per_tick (mc_settings c)).

(** The coin of a generator state: its top 53 bits against the probability. *)
Definition partial_fill (c : MockConfig) (state : Z) : bool :=
  unit_below (Z.shiftr state 11) (se_partial_fill_probability (mc_settings c)).

Definition with_rng (st : MirrorState) (rng : Z) : MirrorState := mk_mirror_state rng (ms_nonce st) (ms_landed st).

(** What a tick did: claimed, posted, or failed. *)
Inductive TickResult :=
  | TickFailed
  | TickClaimed (n : option nat)
  | TickMirrored (posted : nat) (low : list TokenId).

Definition mirror_tick (from_hex : string → option TokenId) (c : MockConfig) (mock_id solver_id : N) (env : TickEnv) (st : MirrorState) :
    MirrorState * TickResult :=
  match tn_sync env with
  | None => (st, TickFailed)
  | Some ([], []) => let '(st, n) := claim_incoming (tn_committed env) (tn_subs env) st in (st, TickClaimed n)
  | Some (public, private) =>
    let '(counters, rng, ok) :=
      mirror_notes (tn_note env) (partial_fill c) (tn_builds env) (mirror_settings c mock_id solver_id) 0 (ms_rng st) (public ++ private) in
    let '(st, posted) := submit_all (tn_subs env) 0 (Post <$> counters) (with_rng st rng) in
    if negb ok then (st, TickFailed)
    else
      match low_inventory from_hex (tn_balance env) (mc_inventory c) with
      | None => (st, TickFailed)
      | Some low => (st, TickMirrored posted low)
      end
  end.

(** [run] until it is interrupted: the ids, the subscriptions, then a tick per interval; [None]
    when it does not get to the loop.  A failed tick is logged and the loop goes on. *)
Definition mirror_run (from_hex : string → option TokenId) (subscribes : Pair → bool) (c : MockConfig) (nonce : Z) (envs : list TickEnv) :
    option (list Pair * MirrorState) :=
  mock_hex ← ma_account_id (mc_mock c);
  mock_id ← from_hex mock_hex;
  solver_id ← from_hex (se_solver_account_id (mc_settings c));
  let '(tags, ok) := subscribe_pairs from_hex subscribes (mc_pairs c) in
  if ok then
    Some (tags, foldl (λ st env, (mirror_tick from_hex c mock_id solver_id env st).1)
                  (mk_mirror_state (se_seed (mc_settings c)) nonce []) envs)
  else None.

(** ** Lemmas *)

(** The network rejects a duplicate or the nonce can be read, and a success is not made up. *)
Definition guarded (sub : Submission) : Prop :=
  (su_unique sub = true ∨ (su_readable sub = true ∧ ∀ k, at_readable (su_env sub k) = true)) ∧
  ∀ k, at_reply (su_env sub k) = SubmitOk → at_lands (su_env sub k) = true.

Lemma submit_all_landed subs k txs st :
  (∀ i, guarded (subs i)) →
  let '(st', n) := submit_all subs k txs st in
  ∃ seg, seg `sublist_of` txs ∧ ms_landed st' = ms_landed st ++ seg ∧ ms_nonce st' = ms_nonce st + Z.of_nat (length seg) ∧
    (n <= length seg)%nat.
Proof.
  intros Hg. revert k st. induction txs as [|tx txs IH]; intros k st; cbn [submit_all].
  { exists []. rewrite app_nil_r. split_and!; [done..|simpl; lia|simpl; lia]. }
  destruct (Hg k) as [Hd Hh]. pose proof (submission_lands_once _ _ _ (ms_nonce st) Hd Hh) as (Hle & Hok & _).
  unfold submit_tx. set (t := submit_with_backoff _ _ _ _) in *.
  specialize (IH (S k) (mk_mirror_state (ms_rng st) (ms_nonce st + Z.of_nat (tr_landed t)) (ms_landed st ++ replicate (tr_landed t) tx))).
  destruct (submit_all subs (S k) txs _) as [st' n]. destruct IH as (seg & Hs & Hl & Hn & Hc). simpl in *.
  exists (replicate (tr_landed t) tx ++ seg). rewrite length_app, length_replicate, Hl, Hn, app_assoc. split_and!; [|done|lia|].
  - destruct (tr_landed t) as [|[|]]; [by apply sublist_cons|by apply sublist_skip|lia].
  - destruct (tr_ok t); [rewrite Hok by done|]; lia.
Qed.

Lemma claimable_spec records notes :
  claimable records = Some notes → Forall (λ note, has_pswap_script note = false ∧ Some note ∈ records) notes.
Proof.
  revert notes. induction records as [|record records IH]; intros notes; simpl; [by intros [= <-]|].
  destruct record as [note|]; [|done]. simpl. destruct (claimable records) as [rest|]; [|done]. simpl. intros [= <-].
  specialize (IH rest eq_refl).
  assert (Forall (λ n, has_pswap_script n = false ∧ Some n ∈ Some note :: records) rest) as Hrest.
  { eapply Forall_impl; [exact IH|]. intros n [? ?]. split; [done|by right]. }
  destruct (has_pswap_script note) eqn:E; [done|]. constructor; [|done]. split; [done|left].
Qed.

(** ** What a tick may land *)

(** Counters posted for the notes of a sync: at most the configured number, each answering
    another note, each landing at most once. *)
Definition posts_ok (cfg : MirrorSettings) (get_note : OrderId → option Note) (new : list OrderId) (seg : list MirrorTx) : Prop :=
  ∃ ids counters, ids `sublist_of` new ∧ seg `sublist_of` (Post <$> counters) ∧
    Forall2 (answers get_note cfg) ids counters ∧ (length counters <= mi_max_mirrors cfg)%nat.

(** Without new notes only committed notes that are no swap orders are consumed, each at most
    once; with new notes only counters are posted. *)
Definition segment_ok (cfg : MirrorSettings) (env : TickEnv) (seg : list MirrorTx) : Prop :=
  match tn_sync env with
  | None => seg = []
  | Some ([], []) =>
    ∃ records notes, (tn_committed env = Some records ∨ notes = []) ∧ seg `sublist_of` (Consume <$> notes) ∧
      Forall (λ note, has_pswap_script note = false ∧ Some note ∈ records) notes
  | Some (public, private) => posts_ok cfg (tn_note env) (public ++ private) seg
  end.

(** The state grew by these transactions. *)
Definition grew (st st' : MirrorState) (seg : list MirrorTx) : Prop :=
  ms_landed st' = ms_landed st ++ seg ∧ ms_nonce st' = ms_nonce st + Z.of_nat (length seg).

Lemma grew_nothing st : grew st st [].
Proof. split; [by rewrite app_nil_r|simpl; lia]. Qed.

Lemma posts_landed cfg coin builds get_note subs rng new st :
  (∀ i, guarded (subs i)) →
  let '(counters, rng, ok) := mirror_notes get_note coin builds cfg 0 rng new in
  ∃ seg, posts_ok cfg get_note new seg ∧ grew st (submit_all subs 0 (Post <$> counters) (with_rng st rng)).1 seg.
Proof.
  intros Hg. destruct (mirror_notes_answers get_note coin builds cfg 0 rng new) as (ids & Hids & Hans).
  pose proof (mirror_notes_cap get_note coin builds cfg 0 rng new) as Hcap.
  destruct (mirror_notes _ _ _ _ _ _ _) as [[counters rng'] ok]. simpl in Hans, Hcap.
  pose proof (submit_all_landed subs 0 (Post <$> counters) (with_rng st rng') Hg) as Hpost.
  destruct (submit_all _ _ _ _) as [st' n]. destruct Hpost as (seg & Hs & Hl & Hn & _). exists seg. split; [|done].
  exists ids, counters. split_and!; try done. lia.
Qed.

Lemma claims_landed committed subs st :
  (∀ i, guarded (subs i)) →
  ∃ records notes seg, (committed = Some records ∨ notes = []) ∧ seg `sublist_of` (Consume <$> notes) ∧
    Forall (λ note, has_pswap_script note = false ∧ Some note ∈ records) notes ∧ grew st (claim_incoming committed subs st).1 seg.
Proof.
  intros Hg. unfold claim_incoming. destruct (committed ≫= claimable) as [notes|] eqn:Ec.
  2: { exists [], [], []. split_and!; [by right|done|constructor|apply grew_nothing]. }
  pose proof (submit_all_landed subs 0 (Consume <$> notes) st Hg) as Hclaim.
  destruct (submit_all _ _ _ _) as [st' n]. destruct Hclaim as (seg & Hs & Hl & Hn & _).
  apply bind_Some in Ec as (records & -> & Hr). exists records, notes, seg. split_and!; [by left|done| |done].
  by apply claimable_spec.
Qed.

Lemma tick_landed from_hex c mock_id solver_id env st :
  (∀ i, guarded (tn_subs env i)) →
  ∃ seg, segment_ok (mirror_settings c mock_id solver_id) env seg ∧ grew st (mirror_tick from_hex c mock_id solver_id env st).1 seg.
Proof.
  intros Hg. unfold mirror_tick, segment_ok. destruct (tn_sync env) as [[public private]|]; [|exists []; split; [done|apply grew_nothing]].
  pose proof (posts_landed (mirror_settings c mock_id solver_id) (partial_fill c) (tn_builds env) (tn_note env) (tn_subs env) (ms_rng st)
    (public ++ private) st Hg) as Hpost.
  destruct public as [|p public], private as [|p' private];
    try (destruct (mirror_notes _ _ _ _ _ _ _) as [[counters rng] ok], Hpost as (seg & Hseg & Hst); exists seg; split; [exact Hseg|];
         destruct (submit_all _ _ _ _) as [st' n]; destruct ok; [|exact Hst]; simpl; destruct (low_inventory _ _ _); exact Hst).
  destruct (claims_landed (tn_committed env) (tn_subs env) st Hg) as (records & notes & seg & Hr & Hs & Hn & Hst).
  exists seg. split; [eauto|]. by destruct (claim_incoming _ _ _) as [st' n].
Qed.

Lemma ticks_landed from_hex c mock_id solver_id envs st :
  Forall (λ env, ∀ i, guarded (tn_subs env i)) envs →
  ∃ segs, Forall2 (segment_ok (mirror_settings c mock_id solver_id)) envs segs ∧
    grew st (foldl (λ st env, (mirror_tick from_hex c mock_id solver_id env st).1) st envs) (concat segs).
Proof.
  intros Hg. revert st. induction Hg as [|env envs Henv _ IH]; intros st; simpl; [exists []; split; [done|apply grew_nothing]|].
  destruct (tick_landed from_hex c mock_id solver_id env st Henv) as (seg & Hseg & Hl & Hn).
  destruct (IH (mirror_tick from_hex c mock_id solver_id env st).1) as (segs & Hsegs & Hl' & Hn').
  exists (seg :: segs). split; [by constructor|]. unfold grew. simpl. rewrite Hl', Hn', Hl, Hn, length_app, app_assoc. split; [done|lia].
Qed.

Lemma subscribe_pairs_all from_hex subscribes pairs tags :
  subscribe_pairs from_hex subscribes pairs = (tags, true) →
  Forall (λ p, ∃ a b, from_hex (pc_token_a_faucet_id p) = Some a ∧ from_hex (pc_token_b_faucet_id p) = Some b ∧ (a, b) ∈ tags ∧ (b, a) ∈ tags) pairs.
Proof.
  revert tags. induction pairs as [|p pairs IH]; intros tags; simpl; [constructor|].
  destruct (from_hex (pc_token_a_faucet_id p)) as [a|] eqn:Ea; [|done]. destruct (from_hex (pc_token_b_faucet_id p)) as [b|] eqn:Eb; [|done].
  destruct (subscribes (a, b)); [|done]. destruct (subscribes (b, a)); [|done].
  destruct (subscribe_pairs from_hex subscribes pairs) as [rest ok]. intros [= <- ->]. constructor.
  - exists a, b. split_and!; try done; set_solver.
  - eapply Forall_impl; [by apply IH|]. intros q (x & y & ? & ? & ? & ?). exists x, y. split_and!; try done; set_solver.
Qed.

(** The terms of a counter under a validated spread: it pays at most what the user asked for
    and asks for at most what the user offered less the spread. *)
Definition terms_ok (spread : Z) (c : Counter) : Prop :=
  0 < ct_offered c <= uo_requested_amount (ct_order c) ∧ 0 < ct_requested c < uo_offered_amount (ct_order c) ∧
  ct_requested c * 10000 <= uo_offered_amount (ct_order c) * (10000 - spread).

Lemma parse_pswap_u64 note o :
  pswap_amounts_u64 → parse_pswap note = Some o → is_u64 (uo_offered_amount o) ∧ is_u64 (uo_requested_amount o).
Proof.
  intros Hu. unfold parse_pswap. destruct (negb _); [done|]. destruct (pswap_try_from note) as [p|]; [|done]. simpl.
  destruct (_ || _); [done|]. intros [= <-]. apply Hu.
Qed.

Lemma answers_terms get_note cfg id c :
  pswap_amounts_u64 → 1 <= mi_spread_bps cfg < 10000 → answers get_note cfg id c → terms_ok (mi_spread_bps cfg) c.
Proof.
  intros Hu Hs (note & num & den & _ & Hp & _ & _ & Hfill & Hc). destruct (parse_pswap_u64 _ _ Hu Hp) as [Ho Hr].
  assert (0 <= num <= den ∧ 0 < den) as [Hn Hd] by (destruct Hfill; simplify_eq; lia).
  assert (0 <= mi_spread_bps cfg <= 10000) as Hs' by lia.
  destruct (favorable_counter_spec _ _ _ _ _ _ _ Ho Hr Hs' Hn Hd Hc) as (E & H1 & H2 & H3).
  destruct (mul_div_le _ num den Ho Hn Hd) as [_ Hlo]. destruct (mul_div_le _ num den Hr Hn Hd) as [_ Hlr].
  unfold terms_ok. set (x := uo_offered_amount (ct_order c) * num / den) in *.
  set (y := uo_requested_amount (ct_order c) * num / den) in *. split_and!; [lia..|].
  etrans; [exact H3|]. apply Z.mul_le_mono_nonneg_r; lia.
Qed.

Lemma load_spread parse content c :
  is_u64 (se_spread_bps (mc_settings c)) → mirror_load parse content = Some c → 1 <= se_spread_bps (mc_settings c) < 10000.
Proof.
  intros Hw. unfold mirror_load. destruct content as [text|]; [|done]. simpl. destruct (parse text) as [c'|]; [|done]. simpl.
  destruct (mirror_valid c') eqn:E; [|done]. intros [= ->]. unfold mirror_valid in E. destruct (network_id _); [|done].
  destruct (Z.eqb_spec (se_spread_bps (mc_settings c)) 0); [done|]. destruct (Z.leb_spec 10000 (se_spread_bps (mc_settings c))); [done|].
  destruct Hw. lia.
Qed.

Lemma posted_terms cfg env seg c :
  pswap_amounts_u64 → 1 <= mi_spread_bps cfg < 10000 → segment_ok cfg env seg → Post c ∈ seg → terms_ok (mi_spread_bps cfg) c.
Proof.
  intros Hu Hs Hseg Hc. unfold segment_ok in Hseg. destruct (tn_sync env) as [[public private]|]; [|subst seg; by apply elem_of_nil in Hc].
  assert (posts_ok cfg (tn_note env) (public ++ private) seg → terms_ok (mi_spread_bps cfg) c) as Hpost.
  { intros (ids & cs & _ & Hsub & HF & _). assert (c ∈ cs) as (k & Hk)%list_elem_of_lookup.
    { eapply elem_of_submseteq in Hc; [|by apply sublist_submseteq]. by apply list_elem_of_fmap in Hc as (? & [= ->] & ?). }
    destruct (Forall2_lookup_r _ _ _ _ _ HF Hk) as (id & _ & Ha). by eapply answers_terms. }
  destruct public, private; try by apply Hpost. destruct Hseg as (records & notes & _ & Hsub & _).
  eapply elem_of_submseteq in Hc; [|by apply sublist_submseteq]. by apply list_elem_of_fmap in Hc as (? & [=] & _).
Qed.
End ticks.
End daemon.

(** ** Theorems *)


(** An account is never stored without its key, and never exported before it is stored. *)
Theorem provision_key_first `{!Probability} ok c :
  let done := (provision ok c).1 in
  (StepStore ∈ done → ∃ pre post, done = pre ++ StepKey :: StepStore :: post) ∧ (StepExport ∈ done → StepStore ∈ done).
Proof.
  unfold provision. destruct (ma_account_file (mc_mock c)); cbn [app provision_steps];
    destruct (ok StepClient), (ok StepAccount), (ok StepKey), (ok StepStore), (ok StepExport), (ok StepNetwork); cbn [fst];
    (split; [intros ?; try (by exists [StepClient; StepAccount]; eexists)|intros ?]); set_solver.
Qed.

(** Converting an account id to an address and back gives the id: what is printed for a
    hexadecimal id that is no address is, for either network, an address of that network
    whose line is the id again. *)
Theorem addr_convert_roundtrip from_bech32 from_hex to_hex encode_addr id :
  (∀ i, from_hex (to_hex i) = Some i) → (∀ net i, from_bech32 (encode_addr net i) = Some (net, i)) → from_bech32 (to_hex id) = None →
  ∃ dev test, addr_line from_bech32 from_hex to_hex encode_addr (to_hex id) = AddrBech32 dev test ∧
    addr_line from_bech32 from_hex to_hex encode_addr dev = AddrHex (to_hex id) Devnet ∧
    addr_line from_bech32 from_hex to_hex encode_addr test = AddrHex (to_hex id) Testnet.
Proof.
  intros Hh Hb Hn. exists (encode_addr Devnet id), (encode_addr Testnet id). unfold addr_line. by rewrite Hn, Hh, !Hb.
Qed.

(** The generator of the coin never merges two states and its value is a number of 53 bits, so
    the coin of a seed is reproducible and the comparison exact. *)
Theorem next_unit_bijective a b :
  is_u64 a → is_u64 b →
  (next_unit a = next_unit b → a = b) ∧ is_u64 (next_unit a) ∧ 0 <= Z.shiftr (next_unit a) 11 < 9007199254740992.
Proof.
  intros Ha Hb. pose proof (wrap64_range (wrap64 (a * 6364136223846793005) + 1442695040888963407)) as Hr. split_and!; [|exact Hr|..].
  - unfold next_unit. intros Heq. assert (∀ x, is_u64 x → x =
      (wrap64 (wrap64 (x * 6364136223846793005) + 1442695040888963407) - 1442695040888963407) * 13877824140714322085 mod two64) as Hinv.
    { intros x Hx. unfold wrap64. rewrite <-Zmult_mod_idemp_l, Zminus_mod_idemp_l, Z.add_simpl_r, Z.mod_mod by done.
      rewrite Zmult_mod_idemp_l, <-Z.mul_assoc. rewrite <-Zmult_mod_idemp_r.
      change (6364136223846793005 * 13877824140714322085 mod two64) with 1. by rewrite Z.mul_1_r, Z.mod_small. }
    by rewrite (Hinv a Ha), (Hinv b Hb), Heq.
  - apply Z.shiftr_nonneg, Hr.
  - rewrite Z.shiftr_div_pow2 by done. apply Z.div_lt_upper_bound; [done|]. destruct Hr as [_ Hr]. exact Hr.
Qed.

(** ** A run *)

#[local] Existing Instance demo_miden.

(** Probabilities in units of 2^-53. *)
Definition demo_probability : Probability :=
  {| Prob := Z; in_unit_range := λ p, (0 <=? p) && (p <=? 9007199254740992); unit_below := λ k p, k <? p |}.
#[local] Existing Instance demo_probability.

Definition demo_hex (s : string) : option TokenId := Some (N.of_nat (String.length s)).
Definition demo_mirror : MockConfig :=
  mk_mock_config (mk_rpc_cfg "http://rpc.testnet" 1000 "Testnet" None 30000) (mk_account_cfg (Some "0123456789"%string) "k" "s" None)
    (mk_settings "01234567890" 30 0 5 1000 1 false) [mk_pair_cfg "1" "22"] [mk_inventory "1" 100].

(** The reply of every first attempt is lost; the second finds the nonce advanced. *)
Definition lost_reply : Submission := mk_submission false true (λ _, mk_attempt true true true SubmitTransient).
Definition user_note : Note := mk_demo true 7 1 1000 2 318 5.
Definition p2id_note : Note := mk_demo false 8 1 10 2 0 5.
Definition order_tick : TickEnv :=
  mk_tick_env (Some ([7%N], [])) (λ _, Some user_note) (Some []) (λ _, true) (λ _, lost_reply) (λ _, Some 50).
Definition idle_tick : TickEnv :=
  mk_tick_env (Some ([], [])) (λ _, None) (Some [Some user_note; Some p2id_note]) (λ _, true) (λ _, lost_reply) (λ _, Some 50).
Definition mirror_parse (s : string) : option MockConfig := Some demo_mirror.

Lemma demo_ticks_guarded : Forall (λ env, ∀ i, guarded (tn_subs env i)) [order_tick; idle_tick].
Proof. assert (guarded lost_reply) by (split; [by right|done]). by apply Forall_cons_2; [|apply Forall_singleton]. Qed.

Lemma demo_spread : is_u64 (se_spread_bps (mc_settings demo_mirror)).
Proof. vm_compute. split; [discriminate|reflexivity]. Qed.
Lemma demo_loaded : mirror_load mirror_parse (Some ""%string) = Some demo_mirror.
Proof. reflexivity. Qed.

Definition demo_run_out := mirror_run demo_hex (λ _, true) demo_mirror 4 [order_tick; idle_tick].
Definition demo_end : list Pair * MirrorState := default ([], mk_mirror_state 0 0 []) demo_run_out.

Lemma demo_ran : mirror_run demo_hex (λ _, true) demo_mirror 4 [order_tick; idle_tick] = Some (demo_end.1, demo_end.2).
Proof.
  assert (bool_decide (is_Some demo_run_out) = true) as H by (vm_compute; reflexivity). apply bool_decide_eq_true in H.
  unfold demo_end. fold demo_run_out. destruct demo_run_out as [[tags st]|]; [done|by destruct H].
Qed.

Definition posted (tx : MirrorTx) : option (Z * Z) := match tx with Post c => Some (ct_offered c, ct_requested c) | _ => None end.


Lemma next_unit_bijective_witness : is_u64 (next_unit 1).
Proof. apply (next_unit_bijective 1 2); vm_compute; (split; [discriminate|reflexivity]). Defined.
