(* ===== verification/Observability.v ===== *)
(** * Observability (crates/solver/src/obs.rs and the loop of [run_ingest])

    The health endpoints over the time of the last good ingest iteration, with the loop that
    records it. *)

From stdpp Require Import option.
From S2P Require Import Prelude.
From S2P Require Import Types.
From S2P Require Import Db.
From S2P Require Import Ingest.
From S2P Require Import PriceApi.

(** ** State *)

Record ObsState := mk_obs { ob_last_sync : Z; ob_freshness_secs : Z }.

(** [unix_now]: 0 when the clock is before the epoch, which is [None]. *)
Definition unix_now (clock : option Z) : Z := default 0 clock.

Definition obs_new (freshness_secs : Z) (clock : option Z) : ObsState := mk_obs (unix_now clock) freshness_secs.

(** The router: status and, for the readiness, the reason. *)
Inductive ObsReply := Healthy | Probe (r : Readiness) | NoRoute.

Definition obs_call (s : ObsState) (path : string) (db_ok : bool) (clock : option Z) : ObsReply :=
  if decide (path = "/health"%string) then Healthy
  else if decide (path = "/readyz"%string) then Probe (readyz db_ok (ob_freshness_secs s) (ob_last_sync s) (unix_now clock))
  else NoRoute.

Definition obs_status (r : ObsReply) : Z :=
  match r with Healthy | Probe Ready => 200 | Probe _ => 503 | NoRoute => 404 end.

(** ** The ingest loop *)

Section loop.
Context `{!Miden}.

(** One turn of [run_ingest]: the time is stored when the whole iteration succeeded. *)
Definition ingest_turn (st : Db * ObsState) (i : IngestEnv * option Z) : Db * ObsState :=
  let out := ingest_once i.1 st.1 in
  (out_db out, if out_ok out then mk_obs (unix_now i.2) (ob_freshness_secs st.2) else st.2).

Definition run_ingest (st : Db * ObsState) (turns : list (IngestEnv * option Z)) : Db * ObsState := foldl ingest_turn st turns.

(** The time of the last good iteration, or of the start. *)
Fixpoint last_good (d : Db) (start : Z) (turns : list (IngestEnv * option Z)) : Z :=
  match turns with
  | [] => start
  | i :: turns => last_good (out_db (ingest_once i.1 d)) (if out_ok (ingest_once i.1 d) then unix_now i.2 else start) turns
  end.

Lemma run_last_good d s turns :
  ob_last_sync (run_ingest (d, s) turns).2 = last_good d (ob_last_sync s) turns ∧
  ob_freshness_secs (run_ingest (d, s) turns).2 = ob_freshness_secs s.
Proof.
  revert d s. induction turns as [|i turns IH]; intros d s; [done|]. cbn [last_good].
  destruct (IH (out_db (ingest_once i.1 d)) (if out_ok (ingest_once i.1 d) then mk_obs (unix_now i.2) (ob_freshness_secs s) else s)) as [H1 H2].
  split; (etrans; [first [exact H1|exact H2]|]); by destruct (out_ok (ingest_once i.1 d)).
Qed.

Lemma last_good_range d start turns :
  0 <= start < 9223372036854775808 → Forall (λ i : IngestEnv * option Z, 0 <= unix_now i.2 < 9223372036854775808) turns →
  0 <= last_good d start turns < 9223372036854775808.
Proof.
  intros Hs Ht. revert d start Hs. induction Ht as [|i turns Hi _ IH]; intros d start Hs; cbn [last_good]; [done|].
  apply IH. by destruct (out_ok _).
Qed.

(** ** Theorems *)

(** The readiness probe follows the ingest loop: after a start and any iterations it answers
    200 exactly when the database can be reached and the last iteration that succeeded
    completely, or the start, is no older than the bound, as long as times and bound fit a
    signed 64-bit number; liveness does not depend on any of this. *)
Theorem readiness_follows_ingest d freshness start turns db_ok now :
  0 <= start < 9223372036854775808 → 0 <= now < 9223372036854775808 → 0 <= freshness < 9223372036854775808 →
  Forall (λ i : IngestEnv * option Z, 0 <= unix_now i.2 < 9223372036854775808) turns →
  let s := (run_ingest (d, obs_new freshness (Some start)) turns).2 in
  (obs_status (obs_call s "/readyz" db_ok (Some now)) = 200 ↔ db_ok = true ∧ now - last_good d start turns <= freshness) ∧
  obs_status (obs_call s "/health" db_ok (Some now)) = 200.
Proof.
  intros Hs Hn Hf Ht s. destruct (run_last_good d (obs_new freshness (Some start)) turns) as [Hl Hfr]. fold s in Hl, Hfr. simpl in Hl, Hfr.
  pose proof (last_good_range d start turns Hs Ht) as Hr. split; [|done]. unfold obs_call. cbn [unix_now default]. rewrite Hl, Hfr.
  cbn [decide]. unfold readyz. change (bool_decide _) with false. destruct db_ok; simpl; [|naive_solver].
  assert (as_i64 freshness = freshness) as -> by (unfold as_i64; destruct (Z.ltb_spec freshness 9223372036854775808); lia).
  unfold sat_sub_i64. destruct (Z.ltb_spec freshness (Z.max (-9223372036854775808) (Z.min 9223372036854775807 (now - last_good d start turns))));
    simpl; split; naive_solver lia.
Qed.

(** A sync alone is not recorded: when the notes of a successful sync cannot be stored, the time
    stays, although the comment on the state says that it is updated after each successful
    sync. *)
Theorem failed_insert_not_recorded d s env sync clock :
  ie_sync env = Some sync → sr_consumed_notes sync = [] → prepare_notes (ie_now env) (sr_new_notes sync) ≠ [] → ie_insert_conn env = false →
  (ingest_turn (d, s) (env, clock)).2 = s.
Proof.
  intros Es Ec Hp Hi. unfold ingest_turn, ingest_once. cbn [fst snd]. rewrite Es, Ec. unfold handle_consumed. simpl.
  destruct (prepare_notes _ _); [done|]. by rewrite Hi.
Qed.
End loop.

(** ** A run *)

(** An iteration that finds nothing, then one whose sync fails. *)
Definition quiet_turn : IngestEnv (H := demo_miden) := mk_env (Some (mk_sync 5 [] [])) true true (λ _, true) (λ _, true) (λ _, 0).
Definition failed_turn : IngestEnv (H := demo_miden) := mk_env None true true (λ _, true) (λ _, true) (λ _, 0).
Definition obs_turns := [(quiet_turn, Some 1030); (failed_turn, Some 1060)].

Lemma readiness_follows_ingest_witness :
  obs_status (obs_call (run_ingest (H := demo_miden) (db_empty, obs_new 60 (Some 1000)) obs_turns).2 "/readyz" true (Some 1090)) = 200 ∧
  obs_status (obs_call (run_ingest (H := demo_miden) (db_empty, obs_new 60 (Some 1000)) obs_turns).2 "/readyz" true (Some 1091)) ≠ 200.
Proof.
  assert (Forall (λ i : IngestEnv (H := demo_miden) * option Z, 0 <= unix_now i.2 < 9223372036854775808) obs_turns) as Ht
    by (repeat constructor; vm_compute; discriminate).
  assert (last_good (H := demo_miden) db_empty 1000 obs_turns = 1030) as Hl by (vm_compute; reflexivity).
  split.
  - destruct (readiness_follows_ingest (H := demo_miden) db_empty 60 1000 obs_turns true 1090) as [[_ Hx] _]; [lia|lia|lia|exact Ht|].
    apply Hx. rewrite Hl. split; [reflexivity|lia].
  - intros Hr. destruct (readiness_follows_ingest (H := demo_miden) db_empty 60 1000 obs_turns true 1091) as [[Hx _] _]; [lia|lia|lia|exact Ht|].
    destruct (Hx Hr) as [_ Hle]. rewrite Hl in Hle. lia.
Defined.

Definition unstored_sync : SyncResult (H := demo_miden) := @mk_sync demo_miden 5 [mk_demo true 2 1 100 2 50 0] [].
Definition unstored_turn : IngestEnv (H := demo_miden) :=
  mk_env (Some unstored_sync) true false (λ _, true) (λ _, true) (λ _, 0).

Lemma failed_insert_not_recorded_witness :
  ob_last_sync (ingest_turn (H := demo_miden) (db_empty, obs_new 60 (Some 1000)) (unstored_turn, Some 1030)).2 = 1000.
Proof.
  assert (prepare_notes (H := demo_miden) (ie_now unstored_turn) [mk_demo true 2 1 100 2 50 0] ≠ []) as Hp by (vm_compute; discriminate).
  pose proof (failed_insert_not_recorded (H := demo_miden) db_empty (obs_new 60 (Some 1000)) unstored_turn
    unstored_sync (Some 1030) eq_refl eq_refl Hp eq_refl) as E.
  exact (f_equal ob_last_sync E).
Defined.
