(* ===== verification/Binary.v ===== *)
(** * The binary (src/main.rs, src/client_factory.rs)

    What the command line, the environment and the configuration make of a run: the file that
    is loaded, the price endpoint, and how the two clients are built. *)

From stdpp Require Import option.
From S2P Require Import Prelude.
From S2P Require Import Types.
From S2P Require Import Prices.
From S2P Require Import PriceApi.
From S2P Require Import Config.

(** ** The command line *)

(** [cli]: the flag, the environment variable, the default. *)
Definition config_path (flag env_var : option string) : string :=
  match flag with
  | Some p => p
  | None => match env_var with Some p => p | None => "solver.toml"%string end
  end.

(** ** Clients *)

Record ProdClientFactory := mk_factory {
  cf_endpoint : string;
  cf_timeout_ms : Z;
  cf_debug : bool;
  cf_ingest_store_path : string;
  cf_executor_store_path : string;
  cf_keystore_path : string;
  cf_prover_endpoint : option string;
}.

Definition from_config (c : SolverConfig) : ProdClientFactory :=
  mk_factory (rpc_endpoint (sc_rpc c)) (rpc_timeout_ms (sc_rpc c)) (ec_debug_mode (sc_engine c)) (sa_ingest_store_path (sc_solver c))
    (sa_executor_store_path (sc_solver c)) (sa_keystore_path (sc_solver c)) (rpc_prover_endpoint (sc_rpc c)).

(** How a client is built: the node, its store, the keystore that signs for it and the prover
    it uses. *)
Record ClientSpec := mk_spec {
  cl_endpoint : string;
  cl_timeout_ms : Z;
  cl_store : string;
  cl_debug : bool;
  cl_keystore : option string;
  cl_prover : option string;
}.

(** [rpc]: [endpoint_ok] tells whether the text is an endpoint. *)
Definition factory_rpc (endpoint_ok : string → bool) (f : ProdClientFactory) : option (string * Z) :=
  if endpoint_ok (cf_endpoint f) then Some (cf_endpoint f, cf_timeout_ms f) else None.

(** [build_ingest]; [builds] tells whether the library can build a client. *)
Definition build_ingest (endpoint_ok : string → bool) (builds : ClientSpec → bool) (f : ProdClientFactory) : option ClientSpec :=
  '(endpoint, timeout) ← factory_rpc endpoint_ok f;
  let spec := mk_spec endpoint timeout (cf_ingest_store_path f) (cf_debug f) None None in
  if builds spec then Some spec else None.

(** [build_executor]: the keystore is opened first. *)
Definition build_executor (endpoint_ok : string → bool) (builds : ClientSpec → bool) (keystore_ok : string → bool) (f : ProdClientFactory) :
    option ClientSpec :=
  if negb (keystore_ok (cf_keystore_path f)) then None
  else
    '(endpoint, timeout) ← factory_rpc endpoint_ok f;
    let spec := mk_spec endpoint timeout (cf_executor_store_path f) (cf_debug f) (Some (cf_keystore_path f)) (cf_prover_endpoint f) in
    if builds spec then Some spec else None.

(** ** The run *)

(** What [run] hands to [start]. *)
Record RunPlan := mk_plan {
  rp_config : SolverConfig;
  rp_solver_id : TokenId;
  rp_factory : ProdClientFactory;
  rp_price_base : string;
  rp_vs_currency : string;
}.

Inductive RunError := LoadFailed (e : LoadError) | BadSolverId.

(** [run] up to [start]; [read] is the content of a file and [parse] the TOML parser. *)
Definition run_plan (parse : string → option RawConfig) (read : string → option string) (from_hex : string → option TokenId)
    (flag env_var : option string) : RunError + RunPlan :=
  match load parse (read (config_path flag env_var)) with
  | inl e => inl (LoadFailed e)
  | inr config =>
    match from_hex (sa_account_id (sc_solver config)) with
    | None => inl BadSolverId
    | Some solver_id =>
      inr (mk_plan config solver_id (from_config config) (default COINGECKO_BASE (ec_price_api_base_url (sc_engine config)))
             (ec_price_vs_currency (sc_engine config)))
    end
  end.

(** ** Theorems *)

(** The watching client cannot sign.  Whatever the configuration of a run, the client that
    reads the chain is built without a keystore and without a prover, against the same node
    as the one that settles, and with a store of its own when the configuration names two. *)
Theorem clients_separated parse read from_hex flag env_var plan endpoint_ok builds keystore_ok i e :
  run_plan parse read from_hex flag env_var = inr plan →
  build_ingest endpoint_ok builds (rp_factory plan) = Some i → build_executor endpoint_ok builds keystore_ok (rp_factory plan) = Some e →
  cl_keystore i = None ∧ cl_prover i = None ∧ cl_keystore e = Some (sa_keystore_path (sc_solver (rp_config plan))) ∧
  (cl_endpoint i, cl_timeout_ms i) = (cl_endpoint e, cl_timeout_ms e) ∧ cl_endpoint e = rpc_endpoint (sc_rpc (rp_config plan)) ∧
  (sa_ingest_store_path (sc_solver (rp_config plan)) ≠ sa_executor_store_path (sc_solver (rp_config plan)) → cl_store i ≠ cl_store e).
Proof.
  unfold run_plan. destruct (load _ _) as [?|c]; [done|]. destruct (from_hex _); [|done]. intros [= <-].
  unfold build_ingest, build_executor, factory_rpc. simpl. destruct (endpoint_ok _); simpl; [|done]. destruct (builds _); [|done]. intros [= <-].
  destruct (keystore_ok _); simpl; [|done]. destruct (builds _); [|done]. intros [= <-]. done.
Qed.

(** A run prices with a currency: the configuration that is handed on is valid, and the price
    endpoint is the configured one or the public service. *)
Theorem run_plan_valid parse read from_hex flag env_var plan :
  run_plan parse read from_hex flag env_var = inr plan →
  validate (rp_config plan) = true ∧ rp_vs_currency plan = ec_price_vs_currency (sc_engine (rp_config plan)) ∧
  trim (String.list_ascii_of_string (rp_vs_currency plan)) ≠ [] ∧
  from_hex (sa_account_id (sc_solver (rp_config plan))) = Some (rp_solver_id plan) ∧
  rp_price_base plan = match ec_price_api_base_url (sc_engine (rp_config plan)) with Some b => b | None => COINGECKO_BASE end.
Proof.
  unfold run_plan, load. destruct (read _) as [text|]; [|done]. destruct (parse text) as [r|]; [|done]. simpl.
  destruct (validate (config_of r)) eqn:Ev; [|done]. destruct (from_hex _) as [id|] eqn:Ei; [|done]. intros [= <-]. simpl. split_and!; try done.
  unfold validate, config_valid in Ev. apply andb_true_iff in Ev as [_ Ev%negb_true_iff%bool_decide_eq_false]. done.
Qed.
