(* ===== verification/Diagnostics.v ===== *)
(** * Diagnostics of a failed settlement (crates/solver/src/executor/executor.rs,
      [log_batch_consume_diagnostics])

    What the executor reports about each note of a batch whose transaction was rejected:
    whether the note is consumed on chain, and how it compares with the executor's own
    store.  Commitments and attachments of notes are parameters. *)

From stdpp Require Import option.
From S2P Require Import Prelude.
From S2P Require Import Types.

Section diagnostics.
Context `{!Miden}.
(** [details_commitment] and [attachments] of a note, as texts. *)
Context (note_details note_attachments : Note → string).

(** A record of the store: the id is known once the note is committed. *)
Record StoreRecord := mk_record { sr_note_id : option OrderId; sr_details : string; sr_attachments : string }.

Inductive StoreVerdict :=
  | Identical
  | AttachmentsMismatch
  | IdDrift (stored : option OrderId)
  | NotInStore.

Record NoteReport := mk_report {
  nr_id : OrderId;
  nr_consumed_onchain : bool;
  nr_pswap : option (TokenId * Z * TokenId * Z);
  nr_verdict : StoreVerdict;
}.

(** The terms that are printed, for a swap order. *)
Definition report_terms (note : Note) : option (TokenId * Z * TokenId * Z) :=
  (λ p, (pswap_offered_token p, pswap_offered_amount p, pswap_requested_token p, pswap_requested_amount p)) <$> pswap_try_from note.

(** The first record with the id of the note, or else the first with its details. *)
Definition store_verdict (by_id all : list StoreRecord) (note : Note) : StoreVerdict :=
  match list_find (λ r, sr_note_id r = Some (note_id note)) by_id with
  | Some (_, r) => if decide (sr_attachments r = note_attachments note) then Identical else AttachmentsMismatch
  | None =>
    match list_find (λ r, sr_details r = note_details note) all with
    | Some (_, r) => IdDrift (sr_note_id r)
    | None => NotInStore
    end
  end.

(** The queries: consumed ids, the records with the ids of the batch, all records; a query that
    fails counts as empty. *)
Definition batch_diagnostics (consumed : option (list OrderId)) (by_id all : option (list StoreRecord)) (notes : list Note) : list NoteReport :=
  (λ note, mk_report (note_id note) (bool_decide (note_id note ∈ default [] consumed)) (report_terms note)
             (store_verdict (default [] by_id) (default [] all) note)) <$> notes.

(** The records [NoteFilter::List] selects. *)
Definition records_of (notes : list Note) (store : list StoreRecord) : list StoreRecord :=
  filter (λ r, Exists (λ note, sr_note_id r = Some (note_id note)) notes) store.

Lemma elem_of_records_of notes store r note :
  note ∈ notes → sr_note_id r = Some (note_id note) → r ∈ records_of notes store ↔ r ∈ store.
Proof.
  intros Hn Hr. unfold records_of. rewrite list_elem_of_filter. split; [by intros [_ ?]|]. intros Hs. split; [|done].
  apply Exists_exists. eauto.
Qed.

(** ** Theorems *)

(** The report says what the store holds: a note is called identical or mismatched only if a
    record has its id, with the same or other attachments; drifted exactly when no record has
    its id but one has its details, and then under another id or none; and absent exactly
    when no record has either.  Every note of the batch is reported, in order. *)
Theorem diagnostics_exact store consumed notes k note report :
  notes !! k = Some note →
  batch_diagnostics (Some consumed) (Some (records_of notes store)) (Some store) notes !! k = Some report →
  nr_id report = note_id note ∧ (nr_consumed_onchain report = true ↔ note_id note ∈ consumed) ∧
  match nr_verdict report with
  | Identical => ∃ r, r ∈ store ∧ sr_note_id r = Some (note_id note) ∧ sr_attachments r = note_attachments note
  | AttachmentsMismatch => ∃ r, r ∈ store ∧ sr_note_id r = Some (note_id note) ∧ sr_attachments r ≠ note_attachments note
  | IdDrift stored => (∀ r, r ∈ store → sr_note_id r ≠ Some (note_id note)) ∧ stored ≠ Some (note_id note) ∧
      ∃ r, r ∈ store ∧ sr_note_id r = stored ∧ sr_details r = note_details note
  | NotInStore => ∀ r, r ∈ store → sr_note_id r ≠ Some (note_id note) ∧ sr_details r ≠ note_details note
  end.
Proof.
  intros Hk. unfold batch_diagnostics. rewrite list_lookup_fmap, Hk. intros [= <-]. cbn [default nr_id nr_consumed_onchain nr_verdict].
  split; [done|]. split; [by rewrite bool_decide_eq_true|]. apply list_elem_of_lookup_2 in Hk. unfold store_verdict.
  destruct (list_find (λ r, sr_note_id r = Some (note_id note)) _) as [[j r]|] eqn:Ei.
  - apply list_find_Some in Ei as (Hj%list_elem_of_lookup_2 & Hid & _). apply (elem_of_records_of notes store r note Hk Hid) in Hj.
    case_decide; by exists r.
  - apply list_find_None in Ei. assert (∀ r, r ∈ store → sr_note_id r ≠ Some (note_id note)) as Hno.
    { intros r Hr Hid. rewrite Forall_forall in Ei. apply (Ei r); [by apply (elem_of_records_of _ _ _ note)|done]. }
    destruct (list_find (λ r, sr_details r = note_details note) store) as [[j r]|] eqn:Ed.
    + apply list_find_Some in Ed as (Hj%list_elem_of_lookup_2 & Hd & _). split_and!; [done|by apply Hno|by exists r].
    + apply list_find_None in Ed. rewrite Forall_forall in Ed. auto.
Qed.
End diagnostics.

(** ** A report *)

Definition demo_details (n : DemoNote) : string := if dn_is_pswap n then "swap" else "pay".
Definition demo_note_7 : DemoNote := mk_demo true 7 1 100 2 50 0.
Definition drifted : StoreRecord := mk_record (Some 9%N) "swap" "".
Definition drift_report : NoteReport := mk_report 7 true (Some (1%N, 100, 2%N, 50)) (IdDrift (Some 9%N)).

(** The store has the note under another id. *)
Lemma diagnostics_exact_witness :
  ∃ r, r ∈ [drifted] ∧ sr_note_id r = Some 9%N ∧ sr_details r = demo_details demo_note_7.
Proof.
  apply (diagnostics_exact (H := demo_miden) demo_details (λ _, ""%string) [drifted] [7%N] [demo_note_7] 0 demo_note_7 drift_report);
    reflexivity.
Defined.
