(* ===== verification/E2e.v ===== *)
(** * The end-to-end driver (crates/e2e/src)

    The harness that provisions a solver on a test network, posts matchable orders and runs the
    solver against them.  It is a script over calls of the Miden client, of the file system and
    of the solver itself, one of whose loops ([wait_for_tx]) has no bound: the programs are
    interaction trees whose events are these calls, each of which may fail.  What a call does is
    the handler's, so a theorem holds for every behaviour of the network. *)

From stdpp Require Import option.
From ITree Require Import ITree ITreeFacts Events.State Events.StateFacts.
From S2P Require Import Prelude.
From S2P Require Import Types.
From S2P Require Import PriceApi.
From S2P Require Import Config.

(** ** Artifacts (artifacts.rs) *)

Definition E2E_DIR : string := "e2e".
Definition artifacts_path : string := E2E_DIR +:+ "/provisioned.json".
Definition solver_config_path : string := E2E_DIR +:+ "/solver.devnet.toml".
Definition solver_executor_store : string := E2E_DIR +:+ "/solver_executor.sqlite3".
Definition solver_ingest_store : string := E2E_DIR +:+ "/solver_ingest.sqlite3".
Definition solver_app_db : string := E2E_DIR +:+ "/solver_app.sqlite3".
Definition solver_keystore : string := E2E_DIR +:+ "/solver_keystore".
Definition operator_store : string := E2E_DIR +:+ "/operator.sqlite3".
Definition operator_keystore : string := E2E_DIR +:+ "/operator_keystore".

Record TokenInfo := mk_token_info {
  tf_faucet_id : string;
  tf_symbol : string;
  tf_decimals : Z;
  tf_external_symbol : string;
}.

Record Artifacts := mk_artifacts {
  af_rpc_endpoint : string;
  af_solver_account_id : string;
  af_token_a : TokenInfo;
  af_token_b : TokenInfo;
  af_solver_keystore_path : string;
  af_solver_executor_store_path : string;
  af_solver_ingest_store_path : string;
  af_solver_app_db_path : string;
  af_operator_store_path : string;
  af_operator_keystore_path : string;
}.

Definition newline : string := String.String (Ascii.ascii_of_N 10) String.EmptyString.
Definition quoted (s : string) : string :=
  let q := String.String (Ascii.ascii_of_N 34) String.EmptyString in q +:+ s +:+ q.

Definition unlines (ls : list string) : string := foldr (λ l acc, l +:+ newline +:+ acc) ""%string ls.

Definition render_solver_config (a : Artifacts) : string :=
  unlines [
    "# Generated by `e2e provision`. Runs the solver against devnet with the"%string;
    "# provisioned solver account + the TOK_A/TOK_B faucet pair."%string;
    "[rpc]"%string;
    "endpoint = " +:+ quoted (af_rpc_endpoint a);
    "timeout_ms = 10000"%string;
    ""%string;
    "[solver]"%string;
    "account_id = " +:+ quoted (af_solver_account_id a);
    "keystore_path = " +:+ quoted (af_solver_keystore_path a);
    "app_db_path = " +:+ quoted (af_solver_app_db_path a);
    "executor_store_path = " +:+ quoted (af_solver_executor_store_path a);
    "ingest_store_path = " +:+ quoted (af_solver_ingest_store_path a);
    "read_pool_size = 4"%string;
    ""%string;
    "[[pairs]]"%string;
    "name = " +:+ quoted (tf_symbol (af_token_a a) +:+ "-" +:+ tf_symbol (af_token_b a));
    "asset_x_faucet_id = " +:+ quoted (tf_faucet_id (af_token_a a));
    "asset_x_external_symbol = " +:+ quoted (tf_external_symbol (af_token_a a));
    "asset_y_faucet_id = " +:+ quoted (tf_faucet_id (af_token_b a));
    "asset_y_external_symbol = " +:+ quoted (tf_external_symbol (af_token_b a));
    ""%string;
    "[engine]"%string;
    "pulse_interval_ms = 5000"%string;
    "fetch_interval_ms = 3000"%string;
    "price_interval_ms = 5000"%string;
    "triangular_enabled = true"%string;
    "admin_port = 3001"%string;
    "obs_port = 9090"%string;
    "# Devnet test tokens aren't on public CoinGecko, so point the price client at"%string;
    "# the local mock service: run `cargo run -p mock-price` in another terminal first."%string;
    "price_api_base_url = " +:+ quoted "http://127.0.0.1:8089/api/v3/simple/price"
  ].

(** ** Calls *)

Section driver.
Context `{!Miden}.

(** Transaction requests, from what their builders are given. *)
Inductive Request :=
  | MintFungible (faucet : TokenId) (amount : Z) (target : N)
  | PswapCreate (creator : N) (offered requested : TokenId * Z)
  | ConsumeNotes (notes : list Note).

Inductive TxStatus := TxPending | TxCommitted | TxDiscarded.

(** The factory handed to the solver (run.rs): devnet with these stores. *)
Record E2eFactory := mk_e2e_factory { ef_ingest_store : string; ef_executor_store : string; ef_keystore : string }.

(** What the programs print. *)
Inductive Report :=
  | Provisioned (solver faucet_a faucet_b : N) (bal_a bal_b : Z)
  | SolverBalance (bal_a bal_b : Z)
  | Minted (amount : Z) (note : OrderId)
  | CreatedNotes (n : nat) (rounds : nat)
  | RunSummary (pre_a post_a delta_a pre_b post_b delta_b : Z).

(** A client is named by its store.  [None] is an error, except for sleeping and printing. *)
Variant clientE : Type → Type :=
  | OpenKeystore (keystore : string) : clientE (option unit)
  | BuildClient (store : string) : clientE (option unit)
  | SyncState (store : string) : clientE (option unit)
  | NewWallet (store : string) : clientE (option N)
  | NewFaucet (store symbol : string) (decimals max_supply : Z) : clientE (option N)
  | AddKey (keystore : string) (id : N) : clientE (option unit)
  | AddAccount (store : string) (id : N) : clientE (option unit)
  | BuildRequest (store : string) (request : Request) : clientE (option (list Note))
  | SubmitTx (store : string) (account : N) (request : Request) (outputs : list Note) : clientE (option N)
  | GetTransactions (store : string) (tx : N) : clientE (option (list TxStatus))
  | InputNotes (store : string) : clientE (option (list (option Note)))
  | GetBalance (store : string) (account : N) (faucet : TokenId) : clientE (option Z)
  | CreateDir (path : string) : clientE (option unit)
  | ReadFile (path : string) : clientE (option string)
  | WriteFile (path text : string) : clientE (option unit)
  | StartSolver (factory : E2eFactory) (prices : gmap TokenId Z) (solver : N) (config : SolverConfig) (secs : Z) :
      clientE (option unit)
  | Sleep (ms : Z) : clientE unit
  | PrintReport (r : Report) : clientE unit.

(** ** Programs *)

(** [Result] as an option: an error ends the program at the [?]. *)
Definition prog (A : Type) : Type := itree clientE (option A).

#[export] Instance prog_ret : MRet prog := λ A a, Ret (Some a).
#[export] Instance prog_bind : MBind prog :=
  λ A B k t, ITree.bind t (λ x, match x with Some a => k a | None => Ret None end).

Definition fail {A} : prog A := Ret None.
Definition call {A} (e : clientE (option A)) : prog A := ITree.trigger e.
Definition effect (e : clientE unit) : prog unit := ITree.bind (ITree.trigger e) (λ _, Ret (Some tt)).
Definition lift {A} (x : option A) : prog A := Ret x.
(** [.unwrap_or], [let _ =]: the result as a value. *)
Definition attempt {A} (t : prog A) : prog (option A) := ITree.bind t (λ x, Ret (Some x)).

(** The text formats: account and note ids in hexadecimal, JSON and TOML. *)
Class E2eText := {
  to_hex : N → string;
  from_hex : string → option N;
  note_hex : OrderId → string;
  artifacts_json : Artifacts → option string;
  artifacts_parse : string → option Artifacts;
  ids_json : list string → option string;
  config_parse : string → option RawConfig;
}.
Context `{!E2eText}.

(** *** devnet.rs *)

Definition DEVNET_RPC : string := "https://rpc.devnet.miden.io".

Definition build_client (store keystore : string) : prog unit :=
  _ ← call (OpenKeystore keystore); call (BuildClient store).

(** *** accounts.rs *)

Definition create_wallet (store keystore : string) : prog N :=
  id ← call (NewWallet store);
  _ ← call (AddKey keystore id);
  _ ← call (AddAccount store id);
  mret id.

Definition create_faucet (store keystore symbol : string) (decimals max_supply : Z) : prog N :=
  id ← call (NewFaucet store symbol decimals max_supply);
  _ ← call (AddKey keystore id);
  _ ← call (AddAccount store id);
  mret id.

(** [FungibleAsset::new] *)
Definition fungible_asset (faucet : TokenId) (amount : Z) : prog (TokenId * Z) :=
  if fungible_asset_ok faucet amount then mret (faucet, amount) else fail.

(** The note is the last expected output. *)
Definition mint (store : string) (faucet : TokenId) (target : N) (amount : Z) : prog (N * Note) :=
  _ ← fungible_asset faucet amount;
  let request := MintFungible faucet amount target in
  outputs ← call (BuildRequest store request);
  note ← lift (last outputs);
  tx ← call (SubmitTx store faucet request outputs);
  mret (tx, note).

(** The note is the first expected output. *)
Definition create_pswap (store : string) (creator : N) (offered requested : TokenId * Z) : prog (N * Note) :=
  let request := PswapCreate creator offered requested in
  outputs ← call (BuildRequest store request);
  note ← lift (head outputs);
  tx ← call (SubmitTx store creator request outputs);
  mret (tx, note).

Definition consume (store : string) (account : N) (notes : list Note) : prog N :=
  outputs ← call (BuildRequest store (ConsumeNotes notes));
  call (SubmitTx store account (ConsumeNotes notes) outputs).

Definition committed_input_notes (store : string) : prog (list Note) :=
  records ← call (InputNotes store); lift (mapM id records).

Definition balance (store : string) (account : N) (faucet : TokenId) : prog Z := call (GetBalance store account faucet).

(** One turn of [wait_for_tx]: [inl] goes round again. *)
Definition wait_turn (store : string) (tx : N) : prog (unit + unit) :=
  _ ← call (SyncState store);
  tracked ← call (GetTransactions store tx);
  status ← lift (last tracked);
  match status with
  | TxCommitted => mret (inr tt)
  | TxPending => _ ← effect (Sleep 500); mret (inl tt)
  | TxDiscarded => fail
  end.

(** The loop has no bound. *)
Definition wait_for_tx (store : string) (tx : N) : prog unit :=
  ITree.iter (λ _ : unit, ITree.bind (wait_turn store tx) (λ x,
    Ret match x with
        | None => inr None
        | Some (inl _) => inl tt
        | Some (inr _) => inr (Some tt)
        end)) tt.

(** *** Waiting for notes (the loop of [provision::wait_for_committed_notes] and of [fund]) *)

(** The notes of the first sync that shows enough of them, and [false] with those of the last one
    when the attempts run out. *)
Fixpoint poll_notes (store : string) (enough : list Note → bool) (attempts : nat) (seen : list Note) : prog (bool * list Note) :=
  match attempts with
  | O => mret (false, seen)
  | S attempts =>
    _ ← call (SyncState store);
    notes ← committed_input_notes store;
    if enough notes then mret (true, notes)
    else _ ← effect (Sleep 1500); poll_notes store enough attempts notes
  end.

Definition POLL_ATTEMPTS : nat := 40.

Definition wait_for_committed_notes (store : string) (n : nat) : prog (list Note) :=
  '(found, notes) ← poll_notes store (λ notes, (n <=? length notes)%nat) POLL_ATTEMPTS [];
  if found : bool then mret notes else fail.

(** *** ops.rs *)

Definition OFFER : Z := 10000000.
Definition REQUEST : Z := 9000000.

Definition load_artifacts (path : string) : prog Artifacts :=
  raw ← call (ReadFile path); lift (artifacts_parse raw).

Definition save_artifacts (a : Artifacts) (path : string) : prog unit :=
  json ← lift (artifacts_json a); call (WriteFile path json).

Definition write_solver_config (a : Artifacts) (path : string) : prog unit :=
  call (WriteFile path (render_solver_config a)).

Definition faucets (a : Artifacts) : option (TokenId * TokenId) :=
  x ← from_hex (tf_faucet_id (af_token_a a)); y ← from_hex (tf_faucet_id (af_token_b a)); Some (x, y).

Definition mint_and_wait (store : string) (faucet : TokenId) (target : N) (amount : Z) : prog Note :=
  '(tx, note) ← mint store faucet target amount; _ ← wait_for_tx store tx; mret note.

Definition consume_and_wait (store : string) (account : N) (notes : list Note) : prog unit :=
  tx ← consume store account notes; wait_for_tx store tx.

Definition pswap_and_wait (store : string) (creator : N) (offered requested : TokenId * Z) : prog Note :=
  '(tx, note) ← create_pswap store creator offered requested; _ ← wait_for_tx store tx; mret note.

Definition fund (amount : Z) : prog unit :=
  art ← load_artifacts artifacts_path;
  '(faucet_a, faucet_b) ← lift (faucets art);
  solver_id ← lift (from_hex (af_solver_account_id art));
  let solver_cli := af_solver_executor_store_path art in
  let op_cli := af_operator_store_path art in
  _ ← build_client solver_cli (af_solver_keystore_path art);
  _ ← build_client op_cli (af_operator_keystore_path art);
  _ ← call (SyncState op_cli);
  _ ← mint_and_wait op_cli faucet_a solver_id amount;
  _ ← mint_and_wait op_cli faucet_b solver_id amount;
  '(_, notes) ← poll_notes solver_cli (λ notes, negb (bool_decide (notes = []))) POLL_ATTEMPTS [];
  _ ← match notes with [] => mret tt | _ => consume_and_wait solver_cli solver_id notes end;
  bal_a ← attempt (balance solver_cli solver_id faucet_a);
  bal_b ← attempt (balance solver_cli solver_id faucet_b);
  effect (PrintReport (SolverBalance (default 0 bal_a) (default 0 bal_b))).

(** The faucet a name stands for. *)
Definition token_faucet (token : string) (faucet_a faucet_b : TokenId) : option TokenId :=
  let t := String.string_of_list_ascii (to_lower <$> String.list_ascii_of_string token) in
  if decide (t = "a"%string ∨ t = "mta"%string) then Some faucet_a
  else if decide (t = "b"%string ∨ t = "mtb"%string) then Some faucet_b
  else None.

Definition mint_to (to token : string) (amount : Z) : prog unit :=
  art ← load_artifacts artifacts_path;
  '(faucet_a, faucet_b) ← lift (faucets art);
  faucet ← lift (token_faucet token faucet_a faucet_b);
  target ← lift (from_hex to);
  let op_cli := af_operator_store_path art in
  _ ← build_client op_cli (af_operator_keystore_path art);
  _ ← call (SyncState op_cli);
  note ← mint_and_wait op_cli faucet target amount;
  effect (PrintReport (Minted amount (note_id note))).

(** One round of [load]: both users are funded, then both orders are posted. *)
Definition load_round (store : string) (faucet_a faucet_b : TokenId) (user1 user2 : N) : prog (Note * Note) :=
  n1 ← mint_and_wait store faucet_a user1 OFFER;
  _ ← consume_and_wait store user1 [n1];
  n2 ← mint_and_wait store faucet_b user2 OFFER;
  _ ← consume_and_wait store user2 [n2];
  offered1 ← fungible_asset faucet_a OFFER;
  requested1 ← fungible_asset faucet_b REQUEST;
  pn1 ← pswap_and_wait store user1 offered1 requested1;
  offered2 ← fungible_asset faucet_b OFFER;
  requested2 ← fungible_asset faucet_a REQUEST;
  pn2 ← pswap_and_wait store user2 offered2 requested2;
  mret (pn1, pn2).

(** The loop over the rounds; the result is what is pushed to [created]. *)
Fixpoint load_rounds (store : string) (faucet_a faucet_b : TokenId) (user1 user2 : N) (rounds : nat) (created : list string) : prog (list string) :=
  match rounds with
  | O => mret created
  | S rounds =>
    '(pn1, pn2) ← load_round store faucet_a faucet_b user1 user2;
    load_rounds store faucet_a faucet_b user1 user2 rounds (created ++ [note_hex (note_id pn1); note_hex (note_id pn2)])
  end.

Definition pending_path : string := E2E_DIR +:+ "/pending_pswaps.json".

(** [load] *)
Definition load_orders (rounds : nat) : prog unit :=
  art ← load_artifacts artifacts_path;
  '(faucet_a, faucet_b) ← lift (faucets art);
  let op_cli := af_operator_store_path art in
  let op_ks := af_operator_keystore_path art in
  _ ← build_client op_cli op_ks;
  _ ← call (SyncState op_cli);
  user1 ← create_wallet op_cli op_ks;
  user2 ← create_wallet op_cli op_ks;
  created ← load_rounds op_cli faucet_a faucet_b user1 user2 rounds [];
  json ← lift (ids_json created);
  _ ← call (WriteFile pending_path json);
  effect (PrintReport (CreatedNotes (length created) rounds)).

(** *** provision.rs *)

Definition DECIMALS : Z := 8.
Definition MAX_SUPPLY : Z := 1000000000000.
Definition SOLVER_BUFFER : Z := 100000000.

Definition provisioned (solver_id faucet_a faucet_b : N) : Artifacts :=
  mk_artifacts DEVNET_RPC (to_hex solver_id)
    (mk_token_info (to_hex faucet_a) "MTA" DECIMALS "tether")
    (mk_token_info (to_hex faucet_b) "MTB" DECIMALS "ethereum")
    solver_keystore solver_executor_store solver_ingest_store solver_app_db operator_store operator_keystore.

Definition provision_run : prog unit :=
  _ ← call (CreateDir E2E_DIR);
  _ ← build_client solver_executor_store solver_keystore;
  _ ← build_client operator_store operator_keystore;
  _ ← call (SyncState solver_executor_store);
  _ ← call (SyncState operator_store);
  solver_id ← create_wallet solver_executor_store solver_keystore;
  faucet_a ← create_faucet operator_store operator_keystore "MTA" DECIMALS MAX_SUPPLY;
  faucet_b ← create_faucet operator_store operator_keystore "MTB" DECIMALS MAX_SUPPLY;
  _ ← mint_and_wait operator_store faucet_a solver_id SOLVER_BUFFER;
  _ ← mint_and_wait operator_store faucet_b solver_id SOLVER_BUFFER;
  notes ← wait_for_committed_notes solver_executor_store 2;
  _ ← consume_and_wait solver_executor_store solver_id notes;
  bal_a ← attempt (balance solver_executor_store solver_id faucet_a);
  bal_b ← attempt (balance solver_executor_store solver_id faucet_b);
  let art := provisioned solver_id faucet_a faucet_b in
  _ ← save_artifacts art artifacts_path;
  _ ← write_solver_config art solver_config_path;
  effect (PrintReport (Provisioned solver_id faucet_a faucet_b (default 0 bal_a) (default 0 bal_b))).

(** *** run.rs *)

Definition PRICE_CENTS : Z := 100.

(** Best effort: zeros when the client cannot be built or a balance cannot be read. *)
Definition read_solver_balances (art : Artifacts) (solver_id : N) (token_a token_b : TokenId) : prog (Z * Z) :=
  let cli := af_solver_executor_store_path art in
  built ← attempt (build_client cli (af_solver_keystore_path art));
  match built with
  | Some _ =>
    _ ← attempt (call (SyncState cli));
    a ← attempt (balance cli solver_id token_a);
    b ← attempt (balance cli solver_id token_b);
    mret (default 0 a, default 0 b)
  | None => mret (0, 0)
  end.

Definition e2e_factory (art : Artifacts) : E2eFactory :=
  mk_e2e_factory (af_solver_ingest_store_path art) (af_solver_executor_store_path art) (af_solver_keystore_path art).

(** The fixed prices, token by token. *)
Definition fixed_prices (token_a token_b : TokenId) : gmap TokenId Z := <[token_b := PRICE_CENTS]> (<[token_a := PRICE_CENTS]> ∅).

Definition load_config (path : string) : prog SolverConfig :=
  content ← attempt (call (ReadFile path));
  lift (match load config_parse content with inr c => Some c | inl _ => None end).

(** [run] *)
Definition run_solver (secs : Z) : prog unit :=
  art ← load_artifacts artifacts_path;
  config ← load_config solver_config_path;
  solver_id ← lift (from_hex (af_solver_account_id art));
  token_a ← lift (from_hex (tf_faucet_id (af_token_a art)));
  token_b ← lift (from_hex (tf_faucet_id (af_token_b art)));
  '(pre_a, pre_b) ← read_solver_balances art solver_id token_a token_b;
  result ← attempt (call (StartSolver (e2e_factory art) (fixed_prices token_a token_b) solver_id config secs));
  '(post_a, post_b) ← read_solver_balances art solver_id token_a token_b;
  _ ← effect (PrintReport (RunSummary pre_a post_a (post_a - pre_a) pre_b post_b (post_b - pre_b)));
  lift result.

(** *** main.rs *)

Inductive E2eCommand :=
  | Provision
  | Fund (amount : option Z)
  | Mint (to token : string) (amount : Z)
  | Load (rounds : option nat)
  | Run (secs : option Z).

(** [main], with the defaults of the arguments. *)
Definition e2e_main (c : E2eCommand) : prog unit :=
  match c with
  | Provision => provision_run
  | Fund amount => fund (default 50000000 amount)
  | Mint to token amount => mint_to to token amount
  | Load rounds => load_orders (default 1%nat rounds)
  | Run secs => run_solver (default 240 secs)
  end.
End driver.
