(* ===== verification/E2eTheorems.v ===== *)
(** * The end-to-end driver: theorems

    [yields]: a program returns in a world whose calls are answered by a function.  With it,
    - [wait_for_tx_returns]: when waiting for a transaction ends, and how;
    - [load_posts_pairs]: on a network that works, [load] posts its pairs of orders;
    - what [run] reports, and what it does not check. *)

From stdpp Require Import option.
From ITree Require Import ITree ITreeFacts Events.State Events.StateFacts.
From Paco Require Import paco.
From S2P Require Import Prelude.
From S2P Require Import Types.
From S2P Require Import PriceApi.
From S2P Require Import Config.
From S2P Require Import E2e.

(** ** Running a program in a world *)

Section semantics.
Context `{!Miden} {W : Type} (step : ∀ T, clientE T → W → W * T).
Arguments step {T} _ _.

Definition answering : clientE ~> Monads.stateT W (itree void1) := λ T e w, Ret (step e w).

(** The program returns [r], in the world [w'] if it starts in [w]. *)
Definition yields {A} (t : prog A) (w w' : W) (r : option A) : Prop :=
  eutt eq (interp_state answering t w) (Ret (w', r)).

Lemma yields_lift {A} (r : option A) w : yields (lift r) w w r.
Proof. unfold yields, lift. rewrite interp_state_ret. reflexivity. Qed.

Lemma yields_ret {A} (a : A) w : yields (mret a) w w (Some a).
Proof. apply yields_lift. Qed.

Lemma yields_call {A} (e : clientE (option A)) w : yields (call e) w (step e w).1 (step e w).2.
Proof. unfold yields, call. rewrite interp_state_trigger. unfold answering. destruct (step e w). reflexivity. Qed.

Lemma yields_itree_bind {A B} (t : prog A) (k : option A → prog B) w w1 r1 w' r :
  yields t w w1 r1 → yields (k r1) w1 w' r → yields (ITree.bind t k : prog B) w w' r.
Proof. unfold yields. intros H1 H2. rewrite interp_state_bind, H1, Eqit.bind_ret_l. exact H2. Qed.

Lemma yields_bind {A B} (t : prog A) (k : A → prog B) w w1 a w' r :
  yields t w w1 (Some a) → yields (k a) w1 w' r → yields (t ≫= k) w w' r.
Proof. intros H1 H2. by eapply yields_itree_bind. Qed.

Lemma yields_bind_fail {A B} (t : prog A) (k : A → prog B) w w1 :
  yields t w w1 None → yields (t ≫= k) w w1 None.
Proof. intros Ht. eapply yields_itree_bind; [done|]. apply yields_lift. Qed.

Lemma yields_effect e w : yields (effect e) w (step e w).1 (Some tt).
Proof.
  unfold yields, effect. rewrite interp_state_bind, interp_state_trigger. unfold answering.
  destruct (step e w) as [w1 u]. rewrite Eqit.bind_ret_l. simpl. rewrite interp_state_ret. reflexivity.
Qed.

Lemma yields_attempt {A} (t : prog A) w w' r : yields t w w' r → yields (attempt t) w w' (Some r).
Proof. intros Ht. eapply yields_itree_bind; [done|]. apply yields_lift. Qed.

(** A program returns at most one result. *)
Lemma yields_det {A} (t : prog A) w w1 r1 w2 r2 : yields t w w1 r1 → yields t w w2 r2 → w1 = w2 ∧ r1 = r2.
Proof.
  unfold yields. intros H1 H2. rewrite H1 in H2. apply eutt_inv_Ret in H2. by simplify_eq.
Qed.

(** ** Waiting for a transaction *)

(** A turn of the loop as a function: the world after it and whether it was the last. *)
Definition turn_of (store : string) (tx : N) (w : W) : W * option (unit + unit) :=
  let '(w, synced) := step (SyncState store) w in
  match synced with
  | None => (w, None)
  | Some _ =>
    let '(w, tracked) := step (GetTransactions store tx) w in
    match tracked ≫= last with
    | None | Some TxDiscarded => (w, None)
    | Some TxCommitted => (w, Some (inr tt))
    | Some TxPending => ((step (Sleep 500) w).1, Some (inl tt))
    end
  end.

Lemma wait_turn_yields store tx w : yields (wait_turn store tx) w (turn_of store tx w).1 (turn_of store tx w).2.
Proof.
  unfold turn_of, wait_turn. pose proof (yields_call (SyncState store) w) as H1.
  destruct (step (SyncState store) w) as [w1 [u|]]; [|by eapply yields_bind_fail]. eapply yields_bind; [exact H1|]. simpl in *.
  pose proof (yields_call (GetTransactions store tx) w1) as H2.
  destruct (step (GetTransactions store tx) w1) as [w2 [l|]]; [|by eapply yields_bind_fail]. eapply yields_bind; [exact H2|]. simpl in *.
  destruct (last l) as [st|] eqn:El; [|eapply yields_bind_fail, yields_lift]. eapply yields_bind; [apply yields_lift|].
  destruct st; [|apply yields_ret|apply yields_lift].
  eapply yields_bind; [apply yields_effect|apply yields_ret].
Qed.

(** The world after [n] turns. *)
Fixpoint after_turns (store : string) (tx : N) (n : nat) (w : W) : W :=
  match n with O => w | S n => after_turns store tx n (turn_of store tx w).1 end.

Definition pending (store : string) (tx : N) (w : W) : Prop := (turn_of store tx w).2 = Some (inl tt).
#[export] Instance pending_dec store tx w : Decision (pending store tx w).
Proof. unfold pending. apply _. Defined.

Lemma wait_unfold store tx :
  eutt eq (wait_for_tx store tx)
    (ITree.bind (wait_turn store tx) (λ x, match x with
      | None => Ret None
      | Some (inl _) => wait_for_tx store tx
      | Some (inr _) => Ret (Some tt)
      end)).
Proof.
  unfold wait_for_tx at 1. rewrite unfold_iter, Eqit.bind_bind. apply eutt_eq_bind. intros [[[]|]|];
    rewrite Eqit.bind_ret_l; [rewrite tau_eutt|..]; reflexivity.
Qed.

Lemma yields_eutt {A} (t t' : prog A) w w' r : eutt eq t t' → yields t' w w' r → yields t w w' r.
Proof. unfold yields. intros E Hy. rewrite E. exact Hy. Qed.

(** A turn that is not the last can be skipped. *)
Lemma wait_skip store tx w w' r :
  pending store tx w → yields (wait_for_tx store tx) (turn_of store tx w).1 w' r → yields (wait_for_tx store tx) w w' r.
Proof.
  intros Hp Hy. eapply yields_eutt; [apply wait_unfold|]. eapply (yields_itree_bind (wait_turn store tx)); [apply wait_turn_yields|].
  unfold pending in Hp. by rewrite Hp.
Qed.

Lemma wait_last store tx w :
  ¬ pending store tx w →
  yields (wait_for_tx store tx) w (turn_of store tx w).1 (match (turn_of store tx w).2 with Some _ => Some tt | None => None end).
Proof.
  intros Hp. eapply yields_eutt; [apply wait_unfold|]. eapply (yields_itree_bind (wait_turn store tx)); [apply wait_turn_yields|].
  unfold pending in Hp. destruct (turn_of store tx w) as [w1 [[[]|[]]|]]; simpl in *; [done|apply yields_lift..].
Qed.

(** A loop that goes round for ever is the silent divergence. *)
Lemma iter_forever {I R} (f : I → I) (i : I) :
  eq_itree eq (ITree.iter (λ i, Ret (inl (f i))) i : itree void1 R) ITree.spin.
Proof.
  revert i. ginit. gcofix CIH. intros i. rewrite unfold_iter, Eqit.bind_ret_l.
  rewrite (itree_eta ITree.spin). simpl. gstep. constructor. gbase. apply CIH.
Qed.

Lemma after_turns_S store tx n w : after_turns store tx (S n) w = after_turns store tx n (turn_of store tx w).1.
Proof. done. Qed.

Lemma wait_forever store tx w :
  (∀ n, pending store tx (after_turns store tx n w)) → eutt eq (interp_state answering (wait_for_tx store tx) w) ITree.spin.
Proof.
  intros Hall. unfold wait_for_tx. rewrite (interp_state_iter' _ answering _ tt w : eq_itree eq _ _). unfold Basics.iter, MonadIter_stateT0, Basics.iter, MonadIter_itree. simpl.
  transitivity (ITree.iter (λ w : W, Ret (inl (turn_of store tx w).1)) w : itree void1 (W * option unit));
    [|by rewrite (iter_forever (λ w, (turn_of store tx w).1) w)].
  apply (eutt_iter' (λ (x : W * unit) w, x.1 = w ∧ ∀ n, pending store tx (after_turns store tx n w))); [|done].
  intros [w1 []] w2 [<- Hw]. simpl. rewrite interp_state_bind.
  pose proof (wait_turn_yields store tx w1) as Hy. unfold yields in Hy. rewrite Hy.
  pose proof (Hw 0%nat) as H0. unfold pending in H0. simpl in H0. rewrite H0, Eqit.bind_ret_l. simpl.
  rewrite interp_state_ret, Eqit.bind_ret_l. simpl. apply eqit_Ret. constructor. split; [done|].
  intros n. specialize (Hw (S n)). by rewrite after_turns_S in Hw.
Qed.

Lemma wait_ends store tx n w :
  (∀ k, (k < n)%nat → pending store tx (after_turns store tx k w)) → ¬ pending store tx (after_turns store tx n w) →
  let '(w', last) := turn_of store tx (after_turns store tx n w) in
  yields (wait_for_tx store tx) w w' (match last with Some _ => Some tt | None => None end).
Proof.
  revert w. induction n as [|n IH]; intros w Hbefore Hlast.
  - pose proof (wait_last store tx w Hlast) as Hy. simpl. by destruct (turn_of store tx w).
  - specialize (IH (turn_of store tx w).1). rewrite <-after_turns_S in IH.
    destruct (turn_of store tx (after_turns store tx (S n) w)) as [w' lst] eqn:Et. apply wait_skip; [apply (Hbefore 0%nat); lia|].
    apply IH; [|done]. intros k Hk. specialize (Hbefore (S k) ltac:(lia)). by rewrite after_turns_S in Hbefore.
Qed.
End semantics.

(** Waiting for a transaction ends exactly when the network decides.  The first poll that does
    not say pending ends the loop: a committed transaction with success; a failed sync or query, an
    unknown or a discarded transaction with an error.  While every poll says pending, the loop goes
    on for ever: there is no timeout, so the program has no result at all. *)
Theorem wait_for_tx_outcome `{!Miden} {W} (step : ∀ T, clientE T → W → W * T) store tx w :
  (∀ n, (∀ k, (k < n)%nat → pending step store tx (after_turns step store tx k w)) →
    ¬ pending step store tx (after_turns step store tx n w) →
    let '(w', last) := turn_of step store tx (after_turns step store tx n w) in
    yields step (wait_for_tx store tx) w w' (match last with Some _ => Some tt | None => None end)) ∧
  ((∀ n, pending step store tx (after_turns step store tx n w)) ↔ ∀ w' r, ¬ yields step (wait_for_tx store tx) w w' r).
Proof.
  split; [intros n; apply wait_ends|]. split.
  - intros Hall w' r Hy. apply (wait_forever step) in Hall. unfold yields in Hy. rewrite Hall in Hy. by apply eutt_spin_Ret_abs in Hy.
  - intros Hno n. induction n as [n IH] using lt_wf_ind. apply dec_stable. intros Hp.
    pose proof (wait_ends step store tx n w IH Hp) as Hy. destruct (turn_of _ _ _ _). by eapply Hno.
Qed.

(** ** A network that works *)

(** The transactions a program submits and the files it writes. *)
Section log.
Context `{!Miden}.

Record Posted := mk_posted { ps_account : N; ps_request : Request; ps_outputs : list Note }.

(** A call with its answer. *)
Record Called := mk_called { ca_answer : Type; ca_event : clientE ca_answer; ca_reply : ca_answer }.

Definition submission {T} (e : clientE T) : T → option Posted :=
  match e in clientE T return T → option Posted with
  | SubmitTx _ account request outputs => λ r, match r with Some _ => Some (mk_posted account request outputs) | None => None end
  | _ => λ _, None
  end.

Definition writing {T} (e : clientE T) : T → option (string * string) :=
  match e in clientE T return T → option (string * string) with
  | WriteFile path text => λ r, match r with Some _ => Some (path, text) | None => None end
  | _ => λ _, None
  end.

Definition submitted (log : list Called) : list Posted := omap (λ c, submission (ca_event c) (ca_reply c)) log.
Definition written (log : list Called) : list (string * string) := omap (λ c, writing (ca_event c) (ca_reply c)) log.

(** The world with the log of its calls. *)
Definition logging {W} (step : ∀ T, clientE T → W → W * T) (T : Type) (e : clientE T) (s : W * list Called) : (W * list Called) * T :=
  let '(w, r) := step T e s.1 in ((w, s.2 ++ [mk_called T e r]), r).

(** A PSWAP note with the given terms. *)
Definition pswap_for (offered requested : TokenId * Z) (note : Note) : Prop :=
  has_pswap_script note = true ∧ ∃ p, pswap_try_from note = Some p ∧
    pswap_offered_token p = offered.1 ∧ pswap_offered_amount p = offered.2 ∧
    pswap_requested_token p = requested.1 ∧ pswap_requested_amount p = requested.2.

Section works.
Context {W : Type} (step : ∀ T, clientE T → W → W * T) (good : W → Prop) (waits : W → N → option nat).
Arguments step {T} _ _.

(** Calls succeed; a request has the outputs it is built for; a submitted transaction is pending
    for some number of syncs, then committed. *)
Record works : Prop := {
  wk_good : ∀ T (e : clientE T) w, good w → good (step e w).1;
  wk_keystore : ∀ k w, good w → (step (OpenKeystore k) w).2 = Some tt;
  wk_client : ∀ s w, good w → (step (BuildClient s) w).2 = Some tt;
  wk_sync : ∀ s w, good w → (step (SyncState s) w).2 = Some tt;
  wk_wallet : ∀ s w, good w → is_Some (step (NewWallet s) w).2;
  wk_key : ∀ k id w, good w → (step (AddKey k id) w).2 = Some tt;
  wk_account : ∀ s id w, good w → (step (AddAccount s id) w).2 = Some tt;
  wk_mint : ∀ s f a t w, good w → ∃ outs n, (step (BuildRequest s (MintFungible f a t)) w).2 = Some outs ∧ last outs = Some n;
  wk_pswap : ∀ s c x y w, good w → is_u64 x.2 → is_u64 y.2 → ∃ outs n, (step (BuildRequest s (PswapCreate c x y)) w).2 = Some outs ∧
    head outs = Some n ∧ pswap_for x y n;
  wk_consume : ∀ s ns w, good w → is_Some (step (BuildRequest s (ConsumeNotes ns)) w).2;
  wk_submit : ∀ s a r o w, good w → ∃ tx, (step (SubmitTx s a r o) w).2 = Some tx ∧ is_Some (waits (step (SubmitTx s a r o) w).1 tx);
  wk_progress : ∀ s tx k w, good w → waits w tx = Some k → waits (step (SyncState s) w).1 tx = Some (Nat.pred k);
  wk_status : ∀ s tx k w, good w → waits w tx = Some k →
    (step (GetTransactions s tx) w).2 = Some [if decide (k = 0%nat) then TxCommitted else TxPending] ∧
    waits (step (GetTransactions s tx) w).1 tx = Some k;
  wk_sleep : ∀ ms tx w, good w → waits (step (Sleep ms) w).1 tx = waits w tx;
  wk_write : ∀ p t w, good w → (step (WriteFile p t) w).2 = Some tt;
}.

(** What a program does in a good world: it returns, with these submissions and writes. *)
Definition does {A} (Pre : W → Prop) (t : prog A) (P : A → W → list Posted → list (string * string) → Prop) : Prop :=
  ∀ w log, good w → Pre w → ∃ w' a new, yields (logging (@step)) t (w, log) (w', log ++ new) (Some a) ∧ good w' ∧
    P a w' (submitted new) (written new).

Lemma does_lift {A} (a : A) (Pre : W → Prop) (P : A → W → list Posted → list (string * string) → Prop) :
  (∀ w, Pre w → P a w [] []) → does Pre (lift (Some a)) P.
Proof. intros HP w log Hw Hpre. exists w, a, []. rewrite app_nil_r. split_and!; [apply yields_ret|auto..]. Qed.

Lemma does_bind {A B} (t : prog A) (k : A → prog B) Pre P Q :
  does Pre t P → (∀ a ps fs, does (λ w, P a w ps fs) (k a) (λ b w ps' fs', Q b w (ps ++ ps') (fs ++ fs'))) → does Pre (t ≫= k) Q.
Proof.
  intros Ht Hk w log Hw Hpre. destruct (Ht w log Hw Hpre) as (w1 & a & new & Hy & Hw1 & HP).
  destruct (Hk _ _ _ w1 (log ++ new) Hw1 HP) as (w2 & b & new' & Hy' & Hw2 & HQ).
  exists w2, b, (new ++ new'). rewrite app_assoc. split_and!; [by eapply yields_bind|done|].
  unfold submitted, written. by rewrite !omap_app.
Qed.

Lemma does_impl {A} (t : prog A) (Pre Pre' : W → Prop) (P Q : A → W → list Posted → list (string * string) → Prop) :
  does Pre t P → (∀ w, Pre' w → Pre w) → (∀ a w ps fs, P a w ps fs → Q a w ps fs) → does Pre' t Q.
Proof. intros Ht Hp HPQ w log Hw Hw'. destruct (Ht w log Hw (Hp w Hw')) as (w' & a & new & ? & ? & ?). exists w', a, new. eauto. Qed.

Hypothesis Hworks : works.

Lemma does_call {A} (e : clientE (option A)) (Pre : W → Prop) (P : A → W → list Posted → list (string * string) → Prop) :
  (∀ w, good w → Pre w → ∃ a, (step e w).2 = Some a ∧
    P a (step e w).1 (option_list (submission e (Some a))) (option_list (writing e (Some a)))) →
  does Pre (call e) P.
Proof.
  intros He w log Hw Hpre. destruct (He w Hw Hpre) as (a & Ha & HP).
  exists (step e w).1, a, [mk_called _ e (Some a)].
  pose proof (yields_call (logging (@step)) e (w, log)) as Hy. unfold logging in Hy at 2 3. simpl in Hy.
  pose proof (wk_good Hworks _ e w Hw) as Hg.
  destruct (step e w) as [w' r]. simpl in *. subst r. split_and!; [done..|].
  unfold submitted, written. simpl. by destruct (submission e (Some a)), (writing e (Some a)).
Qed.

Lemma does_effect (e : clientE unit) (Pre : W → Prop) (P : unit → W → list Posted → list (string * string) → Prop) :
  (∀ w, good w → Pre w → P tt (step e w).1 [] []) → (∀ r, submission e r = None) → (∀ r, writing e r = None) →
  does Pre (effect e) P.
Proof.
  intros He Hs Hf w log Hw Hpre. specialize (He w Hw Hpre).
  exists (step e w).1, tt, [mk_called _ e (step e w).2].
  pose proof (yields_effect (logging (@step)) e (w, log)) as Hy. unfold logging in Hy at 2. simpl in Hy.
  pose proof (wk_good Hworks _ e w Hw) as Hg. destruct (step e w) as [w' r]. simpl in *. split_and!; [done..|].
  unfold submitted, written. simpl. by rewrite Hs, Hf.
Qed.

Lemma working_turn store tx k w log :
  good w → waits w tx = Some k →
  ∃ w' new, turn_of (logging (@step)) store tx (w, log) = ((w', log ++ new), Some (if decide (Nat.pred k = 0%nat) then inr tt else inl tt)) ∧
    good w' ∧ waits w' tx = Some (Nat.pred k) ∧ submitted new = [] ∧ written new = [].
Proof.
  intros Hw Hk. unfold turn_of, logging at 1. simpl. pose proof (wk_sync Hworks store w Hw) as E1.
  pose proof (wk_good Hworks _ (SyncState store) w Hw) as G1. pose proof (wk_progress Hworks store tx k w Hw Hk) as K1.
  destruct (step (SyncState store) w) as [w1 r1]. simpl in *. subst r1. unfold logging at 1. simpl.
  destruct (wk_status Hworks store tx _ w1 G1 K1) as [E2 K2]. pose proof (wk_good Hworks _ (GetTransactions store tx) w1 G1) as G2.
  destruct (step (GetTransactions store tx) w1) as [w2 r2]. simpl in *. subst r2. simpl.
  destruct (decide (Nat.pred k = 0%nat)).
  - eexists w2, [_; _]. rewrite <-app_assoc. by split_and!.
  - unfold logging. simpl. pose proof (wk_good Hworks _ (Sleep 500) w2 G2) as G3. pose proof (wk_sleep Hworks 500 tx w2 G2) as K3.
    destruct (step (Sleep 500) w2) as [w3 r3]. simpl in *. eexists w3, [_; _; _]. rewrite <-!app_assoc. split_and!; try done. congruence.
Qed.

Definition nothing {A} : A → W → list Posted → list (string * string) → Prop := λ _ _ ps fs, ps = [] ∧ fs = [].

Lemma does_wait store tx : does (λ w, is_Some (waits w tx)) (wait_for_tx store tx) nothing.
Proof.
  intros w log Hw [k Hk]. revert w log Hw Hk. induction k as [k IH] using lt_wf_ind. intros w log Hw Hk.
  destruct (working_turn store tx k w log Hw Hk) as (w1 & new & Et & Hw1 & Hk1 & Hs & Hf).
  destruct (decide (Nat.pred k = 0%nat)) as [Hz|Hnz].
  - exists w1, tt, new. split_and!; [|done|by split].
    assert (¬ pending (logging (@step)) store tx (w, log)) as Hp by (unfold pending; by rewrite Et).
    pose proof (wait_last _ _ _ _ Hp) as Hy. by rewrite Et in Hy.
  - destruct (IH (Nat.pred k) ltac:(lia) w1 (log ++ new) Hw1 Hk1) as (w2 & a & new2 & Hy & Hw2 & Hs2 & Hf2).
    exists w2, a, (new ++ new2). rewrite app_assoc. split_and!; [|done|split].
    + apply wait_skip; [unfold pending; by rewrite Et|]. by rewrite Et.
    + unfold submitted in *. by rewrite omap_app, Hs.
    + unfold written in *. by rewrite omap_app, Hf.
Qed.

(** ** What the programs of the driver do *)

(** A step that only answers. *)
Definition answers {A} (P : A → Prop) : A → W → list Posted → list (string * string) → Prop :=
  λ a _ ps fs, P a ∧ ps = [] ∧ fs = [].

Lemma does_query {A} (e : clientE (option A)) (P : A → Prop) Pre :
  (∀ w, good w → ∃ a, (step e w).2 = Some a ∧ P a) → (∀ r, submission e r = None) → (∀ r, writing e r = None) →
  does Pre (call e) (answers P).
Proof. intros He Hs Hf. apply does_call. intros w Hw _. destruct (He w Hw) as (a & E & HP). exists a. by rewrite Hs, Hf. Qed.

Lemma does_seq {A B} (t : prog A) (k : A → prog B) P Pre Q :
  does Pre t (answers P) → (∀ a, P a → does (λ _, True) (k a) Q) → does Pre (t ≫= k) Q.
Proof.
  intros Ht Hk. eapply does_bind; [exact Ht|]. intros a ps fs w log Hw (HP & -> & ->). by apply Hk.
Qed.

(** One transaction, nothing written. *)
Definition posts {A} (post : A → Posted → Prop) : A → W → list Posted → list (string * string) → Prop :=
  λ a _ ps fs, fs = [] ∧ ∃ p, ps = [p] ∧ post a p.

(** Submitting, and waiting with what follows. *)
Lemma does_submit {B} store account request outs (k : N → prog B) Q :
  (∀ tx, does (λ w, is_Some (waits w tx)) (k tx) (λ b w ps fs, Q b w (mk_posted account request outs :: ps) fs)) →
  does (λ _, True) (call (SubmitTx store account request outs) ≫= k) Q.
Proof.
  intros Hk. apply (does_bind _ _ _ (λ tx w ps fs, is_Some (waits w tx) ∧ fs = [] ∧ ps = [mk_posted account request outs])).
  - apply does_call. intros w Hw _. destruct (wk_submit Hworks store account request outs w Hw) as (tx & E & Ht).
    exists tx. by split_and!.
  - intros tx ps fs w log Hw (Ht & -> & ->). by apply Hk.
Qed.

Lemma does_wait_then {A} store tx (a : A) Q :
  (∀ w, Q a w [] []) → does (λ w, is_Some (waits w tx)) (_ ← wait_for_tx store tx; mret a) Q.
Proof.
  intros HQ. eapply does_bind; [apply does_wait|]. intros u ps fs. apply does_lift. intros w [-> ->]. apply HQ.
Qed.

(** A submitted transaction that is being waited for. *)
Definition submits {A} (post : A → Posted → Prop) : (N * A) → W → list Posted → list (string * string) → Prop :=
  λ x w ps fs, is_Some (waits w x.1) ∧ fs = [] ∧ ∃ p, ps = [p] ∧ post x.2 p.

Lemma does_and_wait {A} store (t : prog (N * A)) post :
  does (λ _, True) t (submits post) →
  does (λ _, True) ('(tx, a) ← t; _ ← wait_for_tx store tx; mret a) (posts post).
Proof.
  intros Ht. eapply does_bind; [exact Ht|]. intros [tx a] ps fs w log Hw (Hk & -> & p & -> & Hp). simpl in *.
  apply (does_wait_then store tx a (λ b w ps' fs', posts post b w ([p] ++ ps') ([] ++ fs'))); [|done|done].
  intros w'. split; [done|]. eauto.
Qed.

Lemma does_submit_note {A} store account request outs (a : A) post :
  post a (mk_posted account request outs) →
  does (λ _, True) (tx ← call (SubmitTx store account request outs); mret (tx, a)) (submits post).
Proof. intros Hp. apply does_submit. intros tx. apply does_lift. intros w Hk. split_and!; [done..|]. eauto. Qed.

Definition minted (faucet : TokenId) (amount : Z) (target : N) (n : Note) (p : Posted) : Prop :=
  ps_account p = faucet ∧ ps_request p = MintFungible faucet amount target ∧ last (ps_outputs p) = Some n.

Definition ordered (creator : N) (offered requested : TokenId * Z) (n : Note) (p : Posted) : Prop :=
  ps_account p = creator ∧ ps_request p = PswapCreate creator offered requested ∧ head (ps_outputs p) = Some n ∧
  pswap_for offered requested n.

Definition consumed (account : N) (notes : list Note) (u : unit) (p : Posted) : Prop :=
  ps_account p = account ∧ ps_request p = ConsumeNotes notes.

Lemma does_asset faucet amount Pre :
  fungible_asset_ok faucet amount = true → does Pre (fungible_asset faucet amount) (answers (λ x, x = (faucet, amount))).
Proof. intros Hok. unfold fungible_asset. rewrite Hok. apply does_lift. by intros. Qed.

Lemma does_mint store faucet target amount :
  fungible_asset_ok faucet amount = true →
  does (λ _, True) (mint_and_wait store faucet target amount) (posts (minted faucet amount target)).
Proof.
  intros Hok. apply does_and_wait. unfold mint. eapply does_seq; [by apply does_asset|]. intros _ _.
  eapply (does_seq _ _ (λ outs, ∃ n, last outs = Some n)).
  { apply does_query; [|done..]. intros w Hw. destruct (wk_mint Hworks store faucet amount target w Hw) as (outs & n & -> & ?). eauto. }
  intros outs [n Hn]. rewrite Hn. eapply (does_seq _ _ (λ x, x = n)); [by apply does_lift|]. intros ? ->.
  by apply does_submit_note.
Qed.

Lemma does_pswap store creator offered requested :
  is_u64 offered.2 → is_u64 requested.2 →
  does (λ _, True) (pswap_and_wait store creator offered requested) (posts (ordered creator offered requested)).
Proof.
  intros Ho Hr. apply does_and_wait. unfold create_pswap.
  eapply (does_seq _ _ (λ outs, ∃ n, head outs = Some n ∧ pswap_for offered requested n)).
  { apply does_query; [|done..]. intros w Hw. destruct (wk_pswap Hworks store creator offered requested w Hw Ho Hr) as (outs & n & -> & ? & ?). eauto. }
  intros outs (n & Hn & Hp). rewrite Hn. eapply (does_seq _ _ (λ x, x = n)); [by apply does_lift|]. intros ? ->.
  by apply does_submit_note.
Qed.

Lemma does_consume store account notes :
  does (λ _, True) (consume_and_wait store account notes) (posts (consumed account notes)).
Proof.
  unfold consume_and_wait, consume.
  apply (does_bind _ _ _ (λ tx w ps fs, is_Some (waits w tx) ∧ fs = [] ∧ ∃ p, ps = [p] ∧ consumed account notes tt p)).
  - eapply (does_seq _ _ (λ _, True)).
    + apply does_query; [|done..]. intros w Hw. destruct (wk_consume Hworks store notes w Hw) as [outs ->]. eauto.
    + intros outs _. apply does_call. intros w Hw _. destruct (wk_submit Hworks store account (ConsumeNotes notes) outs w Hw) as (tx & E & Ht).
      exists tx. split_and!; [done..|]. by eexists.
  - intros tx ps fs w log Hw (Hk & -> & p & -> & Hp). destruct (does_wait store tx w log Hw Hk) as (w' & u & new & Hy & Hg & Hs & Hf).
    exists w', u, new. split_and!; [done..|]. rewrite Hs, Hf. split; [done|]. exists p. by destruct u.
Qed.

(** The six transactions of a round: both users get what they offer, then both orders are posted. *)
Definition round_posts (fa fb : TokenId) (u1 u2 : N) (x : Note * Note) (ps : list Posted) : Prop :=
  ∃ n1 n2 q1 q2 q3 q4 q5 q6, ps = [q1; q2; q3; q4; q5; q6] ∧
    minted fa OFFER u1 n1 q1 ∧ consumed u1 [n1] tt q2 ∧ minted fb OFFER u2 n2 q3 ∧ consumed u2 [n2] tt q4 ∧
    ordered u1 (fa, OFFER) (fb, REQUEST) x.1 q5 ∧ ordered u2 (fb, OFFER) (fa, REQUEST) x.2 q6.

(** The assets a round needs can be built. *)
Definition assets_ok (fa fb : TokenId) : Prop :=
  fungible_asset_ok fa OFFER = true ∧ fungible_asset_ok fb OFFER = true ∧
  fungible_asset_ok fa REQUEST = true ∧ fungible_asset_ok fb REQUEST = true.

(** One more transaction, then the rest. *)
Lemma does_post {A B} (t : prog A) (k : A → prog B) post Q :
  does (λ _, True) t (posts post) →
  (∀ a p, post a p → does (λ _, True) (k a) (λ b w ps fs, Q b w (p :: ps) fs)) → does (λ _, True) (t ≫= k) Q.
Proof.
  intros Ht Hk. eapply does_bind; [exact Ht|]. intros a ps fs w log Hw (-> & p & -> & Hp). by apply (Hk a p Hp w log Hw).
Qed.

Lemma does_round store fa fb u1 u2 :
  assets_ok fa fb →
  does (λ _, True) (load_round store fa fb u1 u2) (λ x _ ps fs, fs = [] ∧ round_posts fa fb u1 u2 x ps).
Proof.
  intros (Ha & Hb & Ha' & Hb'). unfold load_round.
  eapply does_post; [by apply does_mint|]. intros n1 q1 H1. eapply does_post; [apply does_consume|]. intros [] q2 H2.
  eapply does_post; [by apply does_mint|]. intros n2 q3 H3. eapply does_post; [apply does_consume|]. intros [] q4 H4.
  eapply does_seq; [by apply does_asset|]. intros ? ->. eapply does_seq; [by apply does_asset|]. intros ? ->.
  eapply does_post; [by apply does_pswap|]. intros pn1 q5 H5.
  eapply does_seq; [by apply does_asset|]. intros ? ->. eapply does_seq; [by apply does_asset|]. intros ? ->.
  eapply does_post; [by apply does_pswap|]. intros pn2 q6 H6.
  apply does_lift. intros w _. split; [done|]. exists n1, n2, q1, q2, q3, q4, q5, q6. by split_and!.
Qed.

(** The transactions of several rounds. *)
Inductive rounds_posts (fa fb : TokenId) (u1 u2 : N) : list (Note * Note) → list Posted → Prop :=
  | rounds_none : rounds_posts fa fb u1 u2 [] []
  | rounds_more x xs ps ps' :
      round_posts fa fb u1 u2 x ps → rounds_posts fa fb u1 u2 xs ps' → rounds_posts fa fb u1 u2 (x :: xs) (ps ++ ps').

Definition both (xs : list (Note * Note)) : list Note := xs ≫= λ x, [x.1; x.2].

Context `{!E2eText}.

Lemma does_rounds store fa fb u1 u2 rounds created :
  assets_ok fa fb →
  does (λ _, True) (load_rounds store fa fb u1 u2 rounds created)
    (λ out _ ps fs, fs = [] ∧ ∃ xs, length xs = rounds ∧ rounds_posts fa fb u1 u2 xs ps ∧
      out = created ++ ((λ n, note_hex (note_id n)) <$> both xs)).
Proof.
  intros Hok. revert created. induction rounds as [|rounds IH]; intros created; simpl.
  { apply does_lift. intros w _. split; [done|]. exists []. split_and!; [done|constructor|by rewrite app_nil_r]. }
  eapply does_bind; [by apply does_round|]. intros [n1 n2] ps fs w log Hw (-> & Hr).
  destruct (IH (created ++ [note_hex (note_id n1); note_hex (note_id n2)]) w log Hw I) as (w' & out & new & Hy & Hg & Hf & xs & Hlen & Hps & ->).
  eexists w', _, new. split_and!; [done|done|by rewrite Hf|]. exists ((n1, n2) :: xs). simpl. split_and!; [by rewrite Hlen|by constructor|].
  by rewrite <-app_assoc.
Qed.

Lemma does_wallet store keystore : does (λ _, True) (create_wallet store keystore) (answers (λ _, True)).
Proof.
  unfold create_wallet. eapply (does_seq _ _ (λ _, True)).
  { apply does_query; [|done..]. intros w Hw. destruct (wk_wallet Hworks store w Hw) as [id ->]. eauto. }
  intros id _. eapply (does_seq _ _ (λ _, True)); [apply does_query; [|done..]; intros w Hw; rewrite (wk_key Hworks) by done; eauto|].
  intros [] _. eapply (does_seq _ _ (λ _, True)); [apply does_query; [|done..]; intros w Hw; rewrite (wk_account Hworks) by done; eauto|].
  intros [] _. by apply does_lift.
Qed.

Lemma does_build store keystore : does (λ _, True) (build_client store keystore) (answers (λ _, True)).
Proof.
  unfold build_client. eapply (does_seq _ _ (λ _, True)); [apply does_query; [|done..]; intros w Hw; rewrite (wk_keystore Hworks) by done; eauto|].
  intros [] _. apply does_query; [|done..]. intros w Hw. rewrite (wk_client Hworks) by done. eauto.
Qed.

Lemma does_sync store : does (λ _, True) (call (SyncState store)) (answers (λ _, True)).
Proof. apply does_query; [|done..]. intros w Hw. rewrite (wk_sync Hworks) by done. eauto. Qed.

(** [load], once the artifacts are in place. *)
Lemma does_load rounds raw art fa fb :
  (∀ w, good w → (step (ReadFile artifacts_path) w).2 = Some raw) → artifacts_parse raw = Some art → faucets art = Some (fa, fb) →
  assets_ok fa fb → (∀ ids, is_Some (ids_json ids)) →
  does (λ _, True) (load_orders rounds)
    (λ _ _ ps fs, ∃ u1 u2 xs json, length xs = rounds ∧ rounds_posts fa fb u1 u2 xs ps ∧
      ids_json ((λ n, note_hex (note_id n)) <$> both xs) = Some json ∧ fs = [(pending_path, json)]).
Proof.
  intros Hraw Hart Hf Hok Hjson. unfold load_orders.
  eapply (does_seq _ _ (λ a, a = art)).
  { unfold load_artifacts. eapply (does_seq _ _ (λ x, x = raw)); [apply does_query; [|done..]; intros w Hw; rewrite Hraw by done; eauto|].
    intros ? ->. rewrite Hart. by apply does_lift. }
  intros ? ->. rewrite Hf. eapply (does_seq _ _ (λ x, x = (fa, fb))); [by apply does_lift|]. intros ? ->.
  eapply does_seq; [apply does_build|]. intros [] _. eapply does_seq; [apply does_sync|]. intros [] _.
  eapply does_seq; [apply does_wallet|]. intros u1 _. eapply does_seq; [apply does_wallet|]. intros u2 _.
  eapply does_bind; [by apply does_rounds|]. intros created ps fs w log Hw (-> & xs & Hlen & Hps & ->). simpl.
  destruct (Hjson ((λ n, note_hex (note_id n)) <$> both xs)) as [json Hj]. rewrite Hj.
  revert w log Hw. cut (does (λ _, True) (json ← lift (Some json); _ ← call (WriteFile pending_path json);
      effect (PrintReport (CreatedNotes (length ((λ n, note_hex (note_id n)) <$> both xs)) rounds)))
    (λ _ _ ps' fs', ps' = [] ∧ fs' = [(pending_path, json)])).
  { intros Hd w log Hw. destruct (Hd w log Hw I) as (w' & a & new & ? & ? & Hs & Hw'). exists w', a, new.
    split_and!; [done..|]. rewrite Hs, Hw', app_nil_r. exists u1, u2, xs, json. by split_and!. }
  eapply (does_seq _ _ (λ x, x = json)); [by apply does_lift|]. intros ? ->.
  apply (does_bind _ _ _ (λ _ _ ps fs, ps = [] ∧ fs = [(pending_path, json)])).
  { apply does_call. intros w Hw _. rewrite (wk_write Hworks) by done. by exists tt. }
  intros [] ps' fs'. apply does_effect; [|done..]. by intros w Hw [-> ->].
Qed.
End works.
End log.

(** The orders among the transactions. *)
Definition pswaps_posted `{!Miden} (ps : list Posted) : list Note :=
  omap (λ p, match ps_request p with PswapCreate _ _ _ => head (ps_outputs p) | _ => None end) ps.

(** Two orders of opposite directions, each offering more than the other requests. *)
Definition opposing `{!Miden} (fa fb : TokenId) (x : Note * Note) : Prop :=
  pswap_for (fa, OFFER) (fb, REQUEST) x.1 ∧ pswap_for (fb, OFFER) (fa, REQUEST) x.2.

Lemma rounds_pswaps `{!Miden} fa fb u1 u2 xs ps :
  rounds_posts fa fb u1 u2 xs ps → pswaps_posted ps = both xs ∧ Forall (opposing fa fb) xs.
Proof.
  unfold pswaps_posted. induction 1 as [|x xs ps ps' Hr _ [IH1 IH2]]; [done|].
  destruct Hr as (n1 & n2 & q1 & q2 & q3 & q4 & q5 & q6 & -> & (_ & E1 & _) & (_ & E2) & (_ & E3 & _) & (_ & E4) & (_ & E5 & H5 & P5) & (_ & E6 & H6 & P6)).
  rewrite omap_app, IH1. cbn [omap list_omap]. rewrite E1, E2, E3, E4, E5, E6, H5, H6. split; [done|]. by constructor.
Qed.

(** C39. [load] posts what it promises.  On a network whose calls succeed and whose transactions are
    committed after some number of syncs, and with the artifacts in place, [load] returns for every
    number of rounds: it submits, round by round, exactly the six transactions that fund the two users
    and post their orders, so that the orders on chain are [rounds] opposing pairs, each order offering
    more than the other requests; and it records exactly the ids of these orders. *)
Theorem load_posts_pairs `{!Miden} `{!E2eText} {W} (step : ∀ T, clientE T → W → W * T) good waits rounds raw art fa fb w :
  works step good waits → good w →
  (∀ w, good w → (step _ (ReadFile artifacts_path) w).2 = Some raw) → artifacts_parse raw = Some art → faucets art = Some (fa, fb) →
  assets_ok fa fb → (∀ ids, is_Some (ids_json ids)) →
  ∃ w' log u1 u2 xs json, yields (logging step) (load_orders rounds) (w, []) (w', log) (Some tt) ∧
    length xs = rounds ∧ rounds_posts fa fb u1 u2 xs (submitted log) ∧
    pswaps_posted (submitted log) = both xs ∧ Forall (opposing fa fb) xs ∧
    ids_json ((λ n, note_hex (note_id n)) <$> both xs) = Some json ∧ written log = [(pending_path, json)].
Proof.
  intros Hw Hg Hraw Hart Hf Hok Hjson.
  destruct (does_load step good waits Hw rounds raw art fa fb Hraw Hart Hf Hok Hjson w [] Hg I)
    as (w' & [] & log & Hy & _ & u1 & u2 & xs & json & Hlen & Hps & Hj & Hwr).
  destruct (rounds_pswaps fa fb u1 u2 xs _ Hps) as [Hn Ho].
  exists w', log, u1, u2, xs, json. by split_and!.
Qed.

(** ** What [run] reports *)

Section run.
Context `{!Miden} `{!E2eText} {W : Type} (step : ∀ T, clientE T → W → W * T).
Arguments step {T} _ _.

(** [read_solver_balances] as a function: it always returns. *)
Definition balances_of (store keystore : string) (solver : N) (ta tb : TokenId) (w : W) : W * (Z * Z) :=
  let '(w, opened) := step (OpenKeystore keystore) w in
  match opened with
  | None => (w, (0, 0))
  | Some _ =>
    let '(w, built) := step (BuildClient store) w in
    match built with
    | None => (w, (0, 0))
    | Some _ =>
      let w := (step (SyncState store) w).1 in
      let '(w, a) := step (GetBalance store solver ta) w in
      let '(w, b) := step (GetBalance store solver tb) w in
      (w, (default 0 a, default 0 b))
    end
  end.

Lemma build_yields store keystore w :
  yields (@step) (build_client store keystore) w
    (match (step (OpenKeystore keystore) w).2 with Some _ => (step (BuildClient store) (step (OpenKeystore keystore) w).1).1 | None => (step (OpenKeystore keystore) w).1 end)
    (match (step (OpenKeystore keystore) w).2 with Some _ => (step (BuildClient store) (step (OpenKeystore keystore) w).1).2 | None => None end).
Proof.
  unfold build_client. pose proof (yields_call (@step) (OpenKeystore keystore) w) as H1.
  destruct (step (OpenKeystore keystore) w) as [w1 [[]|]]; simpl in *; [|by eapply yields_bind_fail].
  eapply yields_bind; [exact H1|]. apply yields_call.
Qed.

Lemma balances_yield art solver ta tb w :
  let r := balances_of (af_solver_executor_store_path art) (af_solver_keystore_path art) solver ta tb w in
  yields (@step) (read_solver_balances art solver ta tb) w r.1 (Some r.2).
Proof.
  unfold read_solver_balances, balances_of.
  pose proof (yields_attempt (@step) _ _ _ _ (build_yields (af_solver_executor_store_path art) (af_solver_keystore_path art) w)) as Hb.
  destruct (step (OpenKeystore _) w) as [w1 [[]|]]; simpl in *; [|eapply yields_bind; [exact Hb|apply yields_ret]].
  destruct (step (BuildClient _) w1) as [w2 [[]|]]; simpl in *; [|eapply yields_bind; [exact Hb|apply yields_ret]].
  eapply yields_bind; [exact Hb|]. simpl. eapply yields_bind; [apply yields_attempt, yields_call|].
  set (w3 := (step (SyncState _) w2).1). eapply yields_bind; [apply yields_attempt, yields_call|].
  destruct (step (GetBalance _ solver ta) w3) as [w4 a]. simpl. eapply yields_bind; [apply yields_attempt, yields_call|].
  destruct (step (GetBalance _ solver tb) w4) as [w5 b]. simpl. apply yields_ret.
Qed.

(** The files [run] finds. *)
Record in_place (art : Artifacts) (config : SolverConfig) (solver ta tb : N) (w : W) : Prop := {
  ip_art : (step (ReadFile artifacts_path) w).2 ≫= artifacts_parse = Some art;
  ip_config : load config_parse (step (ReadFile solver_config_path) (step (ReadFile artifacts_path) w).1).2 = inr config;
  ip_solver : from_hex (af_solver_account_id art) = Some solver;
  ip_a : from_hex (tf_faucet_id (af_token_a art)) = Some ta;
  ip_b : from_hex (tf_faucet_id (af_token_b art)) = Some tb;
}.

Lemma run_yields art config solver ta tb secs w :
  in_place art config solver ta tb w →
  let w0 := (step (ReadFile solver_config_path) (step (ReadFile artifacts_path) w).1).1 in
  let balances := balances_of (af_solver_executor_store_path art) (af_solver_keystore_path art) solver ta tb in
  let '(w1, pre) := balances w0 in
  let '(w2, result) := step (StartSolver (e2e_factory art) (fixed_prices ta tb) solver config secs) w1 in
  let '(w3, post) := balances w2 in
  yields (@step) (run_solver secs) w
    (step (PrintReport (RunSummary pre.1 post.1 (post.1 - pre.1) pre.2 post.2 (post.2 - pre.2))) w3).1 result.
Proof.
  intros [Ha Hc Hs Hta Htb] w0 balances. unfold run_solver, load_artifacts, load_config.
  pose proof (yields_call (@step) (ReadFile artifacts_path) w) as H1. unfold w0. clear w0.
  destruct (step (ReadFile artifacts_path) w) as [wa [raw|]]; [|done]. simpl in *.
  pose proof (yields_call (@step) (ReadFile solver_config_path) wa) as H2.
  destruct (step (ReadFile solver_config_path) wa) as [wc text]. simpl in *.
  pose proof (balances_yield art solver ta tb wc) as B1. fold balances in B1. destruct (balances wc) as [w1 [pre_a pre_b]]. simpl in B1.
  pose proof (yields_call (@step) (StartSolver (e2e_factory art) (fixed_prices ta tb) solver config secs) w1) as H3.
  destruct (step (StartSolver _ _ _ _ _) w1) as [w2 result]. simpl in H3.
  pose proof (balances_yield art solver ta tb w2) as B2. fold balances in B2. destruct (balances w2) as [w3 [post_a post_b]]. simpl in B2.
  simpl. eapply yields_bind. { eapply yields_bind; [exact H1|]. rewrite Ha. apply yields_lift. }
  eapply yields_bind. { eapply yields_bind; [eapply yields_attempt, H2|]. rewrite Hc. apply yields_lift. }
  rewrite Hs, Hta, Htb. do 3 (eapply yields_bind; [apply yields_lift|]).
  eapply yields_bind; [exact B1|]. simpl. eapply yields_bind; [eapply yields_attempt, H3|].
  eapply yields_bind; [exact B2|]. simpl. eapply yields_bind; [apply yields_effect|]. apply yields_lift.
Qed.
End run.

(** The result of [run] is the result of the solver: whatever the balances before and after, and
    whether or not they can be read, they are only printed.  No run fails because nothing settled. *)
Theorem run_result_is_start `{!Miden} `{!E2eText} {W} (step : ∀ T, clientE T → W → W * T) art config solver ta tb secs w :
  in_place step art config solver ta tb w →
  ∃ w1 w', yields step (run_solver secs) w w' (step _ (StartSolver (e2e_factory art) (fixed_prices ta tb) solver config secs) w1).2.
Proof.
  intros Hp. pose proof (run_yields step art config solver ta tb secs w Hp) as Hy. simpl in Hy.
  destruct (balances_of step _ _ _ _ _ (step _ (ReadFile solver_config_path) _).1) as [w1 pre].
  exists w1. destruct (step _ (StartSolver _ _ _ _ _) w1) as [w2 result].
  destruct (balances_of step _ _ _ _ _ w2) as [w3 post]. by eexists.
Qed.

(** ** Instances *)

#[local] Existing Instance demo_miden.

Definition demo_art : Artifacts :=
  mk_artifacts DEVNET_RPC "sss" (mk_token_info "a" "MTA" 8 "tether") (mk_token_info "bb" "MTB" 8 "ethereum")
    solver_keystore solver_executor_store solver_ingest_store solver_app_db operator_store operator_keystore.

Definition demo_raw : RawConfig :=
  mk_raw (mk_rpc DEVNET_RPC 10000 None)
    (mk_raw_account "sss" solver_keystore solver_app_db solver_executor_store solver_ingest_store (Some 4))
    [mk_asset_pair "MTA-MTB" "a" (Some "tether"%string) "bb" (Some "ethereum"%string)]
    (mk_raw_engine 5000 3000 5000 (Some true) (Some 3001) None (Some 9090) None None None None None None None None None None None None
      None None None None None None None None).

(** Ids are written in unary; there is one artifacts file and one configuration. *)
Definition unary (n : N) : string := String.string_of_list_ascii (replicate (N.to_nat n) (Ascii.ascii_of_N 97)).
#[local] Instance demo_text : E2eText := {|
  to_hex := unary;
  from_hex := λ s, Some (N.of_nat (String.length s));
  note_hex := unary;
  artifacts_json := λ _, Some "{}"%string;
  artifacts_parse := λ _, Some demo_art;
  ids_json := λ ids, Some (String.concat "," ids);
  config_parse := λ _, Some demo_raw;
|}.

(** A network with a supply of fresh ids, on which a transaction takes three syncs. *)
Record DemoNet := mk_net { nt_next : N; nt_pending : gmap N nat }.

Definition fresh (w : DemoNet) : DemoNet := mk_net (nt_next w + 1) (nt_pending w).

Definition demo_outputs (id : N) (r : Request) : list DemoNote :=
  match r with
  | MintFungible f a t => [mk_demo false id f (Z.to_N a) 0 0 t]
  | PswapCreate c x y => [mk_demo true id x.1 (Z.to_N x.2) y.1 (Z.to_N y.2) c]
  | ConsumeNotes _ => []
  end.

Definition demo_net (T : Type) (e : clientE T) (w : DemoNet) : DemoNet * T :=
  match e in clientE T return DemoNet * T with
  | SyncState _ => (mk_net (nt_next w) (Nat.pred <$> nt_pending w), Some tt)
  | NewWallet _ | NewFaucet _ _ _ _ => (fresh w, Some (nt_next w))
  | BuildRequest _ r => (fresh w, Some (demo_outputs (nt_next w) r))
  | SubmitTx _ _ _ _ => (mk_net (nt_next w + 1) (<[nt_next w := 3%nat]> (nt_pending w)), Some (nt_next w))
  | GetTransactions _ tx =>
    (w, (λ k, [if decide (k = 0%nat) then TxCommitted else TxPending]) <$> nt_pending w !! tx)
  | InputNotes _ => (w, Some [])
  | GetBalance _ _ _ => (w, Some 70)
  | ReadFile _ => (w, Some "{}"%string)
  | OpenKeystore _ | BuildClient _ | AddKey _ _ | AddAccount _ _ | CreateDir _ | WriteFile _ _ | StartSolver _ _ _ _ _ => (w, Some tt)
  | Sleep _ | PrintReport _ => (w, tt)
  end.

Lemma demo_works : works demo_net (λ _, True) (λ w tx, nt_pending w !! tx).
Proof.
  split; try done; cbn [demo_net fst snd].
  - intros s f a t w _. by eexists _, _.
  - intros s c [x a] [y b] w _ Ha Hb. cbn [snd] in *. eexists _, _. split_and!; [done..|]. split; [done|].
    eexists. split_and!; [done|done| |done|]; simpl; unfold demo_offer, demo_request; simpl; rewrite Z2N.id by u64; by apply wrap64_small.
  - intros s a r o w _. eexists. split; [done|]. cbn [nt_pending]. rewrite lookup_insert_eq. by eexists.
  - intros s tx k w _ Hk. cbn [nt_pending]. by rewrite lookup_fmap, Hk.
  - intros s tx k w _ ->. done.
Qed.

Lemma load_posts_pairs_witness :
  ∃ w' log xs, yields (logging demo_net) (load_orders 2) (mk_net 10 ∅, []) (w', log) (Some tt) ∧ length xs = 2%nat ∧
    pswaps_posted (submitted log) = both xs ∧ Forall (opposing 1 2) xs.
Proof.
  destruct (load_posts_pairs demo_net (λ _, True) (λ w tx, nt_pending w !! tx) 2 "{}" demo_art 1 2 (mk_net 10 ∅)) as
    (w' & log & u1 & u2 & xs & json & Hy & Hlen & _ & Hn & Ho & _); [exact demo_works|done|done|reflexivity|reflexivity| |by eexists|].
  - split_and!; reflexivity.
  - exists w', log, xs. by split_and!.
Defined.

(** A network on which the first client cannot be built and the solver's balances are 70 throughout;
    what is printed is kept. *)
Record FlakyNet := mk_flaky { fk_up : bool; fk_printed : list Report }.

Definition flaky_net (T : Type) (e : clientE T) (w : FlakyNet) : FlakyNet * T :=
  match e in clientE T return FlakyNet * T with
  | BuildClient _ => (mk_flaky true (fk_printed w), if fk_up w then Some tt else None)
  | GetBalance _ _ _ => (w, Some 70)
  | ReadFile _ => (w, Some "{}"%string)
  | NewWallet _ | NewFaucet _ _ _ _ => (w, None)
  | BuildRequest _ _ => (w, None)
  | SubmitTx _ _ _ _ => (w, None)
  | GetTransactions _ _ => (w, None)
  | InputNotes _ => (w, None)
  | OpenKeystore _ | SyncState _ | AddKey _ _ | AddAccount _ _ | CreateDir _ | WriteFile _ _ | StartSolver _ _ _ _ _ => (w, Some tt)
  | Sleep _ => (w, tt)
  | PrintReport r => (mk_flaky (fk_up w) (fk_printed w ++ [r]), tt)
  end.

Lemma flaky_in_place printed : in_place flaky_net demo_art (config_of demo_raw) 3 1 2 (mk_flaky false printed).
Proof. by split. Qed.

(** A balance that cannot be read before the run counts as zero, so the summary shows a gain in both
    tokens, which it calls the proof of settlement, although no balance ever changed. *)
Theorem unreadable_balance_reads_as_gain :
  yields flaky_net (run_solver 240) (mk_flaky false []) (mk_flaky true [RunSummary 0 70 70 0 70 70]) (Some tt).
Proof. exact (run_yields flaky_net demo_art (config_of demo_raw) 3 1 2 240 _ (flaky_in_place [])). Qed.

Lemma run_result_is_start_witness : ∃ w', yields flaky_net (run_solver 240) (mk_flaky false []) w' (Some tt).
Proof.
  destruct (run_result_is_start flaky_net demo_art (config_of demo_raw) 3 1 2 240 (mk_flaky false []) (flaky_in_place [])) as (w1 & w' & Hy).
  by exists w'.
Defined.

(** The waiting loop of a transaction the network never decides does not return. *)
Definition stuck_net (T : Type) (e : clientE T) (w : unit) : unit * T :=
  match e in clientE T return unit * T with
  | SyncState _ => (tt, Some tt)
  | GetTransactions _ _ => (tt, Some [TxPending])
  | Sleep _ => (tt, tt)
  | PrintReport _ => (tt, tt)
  | OpenKeystore _ | BuildClient _ | AddKey _ _ | AddAccount _ _ | CreateDir _ | WriteFile _ _ | StartSolver _ _ _ _ _ => (tt, None)
  | NewWallet _ | NewFaucet _ _ _ _ => (tt, None)
  | BuildRequest _ _ => (tt, None)
  | SubmitTx _ _ _ _ => (tt, None)
  | InputNotes _ => (tt, None)
  | GetBalance _ _ _ => (tt, None)
  | ReadFile _ => (tt, None)
  end.

Lemma wait_for_tx_outcome_witness : ¬ ∃ r, yields stuck_net (wait_for_tx "store" 7) tt tt r.
Proof.
  intros [r Hr]. revert Hr. apply (wait_for_tx_outcome stuck_net "store" 7 tt). intros n. by induction n.
Defined.
