(* ===== verification/Scenario.v ===== *)
(** * The end-to-end scenario

    The components put together the way the end-to-end driver does: the orders it posts are found by
    an ingest iteration, drained by a tick of the matcher at the driver's fixed prices, and the batch
    is prepared by the executor.  [spread_captured] shows that nothing is left behind: every order is
    filled, and the solver's surplus is the spread of every pair, in both tokens. *)

From stdpp Require Import option.
From S2P Require Import Prelude.
From S2P Require Import E2e.
From S2P Require Import E2eTheorems.
From S2P Require Import Orders.
From S2P Require Import RateIndex.
From S2P Require Import PriceFeed.
From S2P Require Import OrderBook.
From S2P Require Import IndexInvariant.
From S2P Require Import BookInvariant.
From S2P Require Import BookQueries.
From S2P Require Import Fills.
From S2P Require Import DirectMatching.
From S2P Require Import ThreeEdgeCycle.
From S2P Require Import Engine.
From S2P Require Import BookTheorems.
From S2P Require Import Types.
From S2P Require Import Prices.
From S2P Require Import Db.
From S2P Require Import Ingest.
From S2P Require Import Matcher.
From S2P Require Import MatcherProofs.
From S2P Require Import MatcherTheorems.
From S2P Require Import Liveness.
From S2P Require Import Clearing.
From S2P Require Import Executor.
From S2P Require Import ExecutorTheorems.

(** ** From notes to orders *)

Section notes.
Context `{!Miden}.

Definition order_of_pair (fa fb : TokenId) (note : Note) : IngestOrder :=
  mk_ingest (note_id note) fa fb OFFER REQUEST (note_write note).

(** The orders of opposing pairs. *)
Definition orders_of (fa fb : TokenId) (xs : list (Note * Note)) : list IngestOrder :=
  xs ≫= λ x, [order_of_pair fa fb x.1; order_of_pair fb fa x.2].

Lemma prepare_pswap now fa fb note :
  pswap_for (fa, OFFER) (fb, REQUEST) note → snd <$> prepare_note now note = Some (order_of_pair fa fb note).
Proof.
  intros (Hs & p & Hp & E1 & E2 & E3 & E4). unfold prepare_note, from_note. rewrite Hs, Hp. simpl.
  rewrite E1, E2, E3, E4. done.
Qed.

Lemma prepare_pairs now fa fb xs :
  Forall (opposing fa fb) xs → (prepare_notes now (both xs)).*2 = orders_of fa fb xs.
Proof.
  intros Hxs. revert now. unfold prepare_notes, both, orders_of. induction Hxs as [|[n1 n2] xs [H1 H2] _ IH]; intros now; [done|].
  simpl in *.
  pose proof (prepare_pswap (now 0%nat) fa fb n1 H1) as E1. pose proof (prepare_pswap (now 1%nat) fb fa n2 H2) as E2.
  destruct (prepare_note (now 0%nat) n1) as [r1|]; [|done]. destruct (prepare_note (now 1%nat) n2) as [r2|]; [|done].
  simpl in *. injection E1 as ->. injection E2 as ->. do 2 f_equal. apply (IH (λ i, now (S (S i)))).
Qed.

Lemma orders_of_ids fa fb xs : io_note_id <$> orders_of fa fb xs = note_id <$> both xs.
Proof. unfold orders_of, both. induction xs as [|[n1 n2] xs IH]; [done|]. cbn in *. by rewrite IH. Qed.

Lemma elem_of_orders_of fa fb xs o :
  o ∈ orders_of fa fb xs ↔ ∃ x, x ∈ xs ∧ (o = order_of_pair fa fb x.1 ∨ o = order_of_pair fb fa x.2).
Proof.
  unfold orders_of. rewrite list_elem_of_bind. split; intros (x & H1 & H2); exists x; set_solver.
Qed.
End notes.

(** ** Draining fresh orders *)

Definition book_order (o : IngestOrder) : Order :=
  mk_order (io_note_id o) (io_offered_token o) (io_requested_token o) (io_offered_amount o) (io_requested_amount o) (io_requested_amount o).

(** Orders the book does not know enter it as they are. *)
Lemma take_all_fresh unix t os :
  NoDup (io_note_id <$> os) → (∀ o, o ∈ os → orders (tk_book t) !! io_note_id o = None) → parked (tk_book t) = ∅ →
  let t' := foldl (take_order unix) t os in
  parked (tk_book t') = ∅ ∧
  (∀ o, o ∈ os → orders (tk_book t') !! io_note_id o = Some (book_order o) ∧ tk_raw t' !! io_note_id o = Some (io_raw o)) ∧
  ∀ id, id ∉ io_note_id <$> os → orders (tk_book t') !! id = orders (tk_book t) !! id ∧ tk_raw t' !! id = tk_raw t !! id.
Proof.
  revert t. induction os as [|o os IH]; intros t Hnd Hnew Hpk; cbn [foldl]; [split_and!; set_solver|].
  simpl in Hnd. apply NoDup_cons in Hnd as [Hno Hnd].
  assert (tk_book (take_order unix t o) = add_user_order (tk_book t) (io_note_id o) (io_offered_token o) (io_requested_token o)
    (io_offered_amount o) (io_requested_amount o)) as Hbk by done.
  assert (orders (tk_book (take_order unix t o)) = <[io_note_id o := book_order o]> (orders (tk_book t)) ∧
    parked (tk_book (take_order unix t o)) = ∅) as [Ho Hp].
  { rewrite Hbk. unfold add_user_order. rewrite (Hnew o) by (by left). simpl. rewrite Hpk. split; [done|apply delete_empty]. }
  destruct (IH (take_order unix t o) Hnd) as (H1 & H2 & H3); [|done|].
  { intros o' Ho'. rewrite Ho, lookup_insert_ne; [apply Hnew; by right|]. intros E. apply Hno. rewrite E. by apply list_elem_of_fmap_2. }
  split_and!; [done| |].
  - intros o' [->|Ho']%elem_of_cons; [|by apply H2]. destruct (H3 _ Hno) as [-> ->]. rewrite Ho, lookup_insert_eq.
    split; [done|]. apply lookup_insert_eq.
  - intros id Hid. simpl in Hid. apply not_elem_of_cons in Hid as [Hne Hid]. destruct (H3 id Hid) as [-> ->].
    rewrite Ho, lookup_insert_ne by done. split; [done|]. apply lookup_insert_ne. done.
Qed.

(** ** The balanced book *)

Section balanced.
Context `{!Miden}.

Lemma NoDup_both xs :
  NoDup (note_id <$> both xs) → NoDup ((λ x, note_id x.1) <$> xs) ∧ NoDup ((λ x, note_id x.2) <$> xs).
Proof.
  unfold both. induction xs as [|[n1 n2] xs IH]; [by repeat constructor|]. cbn. intros [H1 [H2 H3]%NoDup_cons]%NoDup_cons.
  destruct (IH H3) as [IH1 IH2].
  assert (∀ x, x ∈ xs → note_id x.1 ∈ note_id <$> (xs ≫= λ x, [x.1; x.2]) ∧ note_id x.2 ∈ note_id <$> (xs ≫= λ x, [x.1; x.2])) as Hin.
  { intros x Hx. split; apply list_elem_of_fmap_2, list_elem_of_bind; exists x; set_solver. }
  split; constructor; try done; intros (x & E & [? ?]%Hin)%list_elem_of_fmap; simpl in *; [apply H1|apply H2]; rewrite E; set_solver.
Qed.

(** A book whose orders are those of opposing pairs, none of them parked. *)
Lemma pairs_clearable (b : Book) l fa fb xs :
  book_inv b l → fa ≠ fb → NoDup (note_id <$> both xs) → parked b = ∅ →
  (∀ id ord, orders b !! id = Some ord ↔ ∃ o, o ∈ orders_of fa fb xs ∧ id = io_note_id o ∧ ord = book_order o) →
  clearable (fa, fb) OFFER REQUEST b l ∧ l ≡ₚ note_id <$> both xs.
Proof.
  intros Hb Hne Hnd Hpk Hord. destruct (NoDup_both xs Hnd) as [Hn1 Hn2].
  assert (∀ id ord, visible b id ord ↔ ∃ x, x ∈ xs ∧
    ((id = note_id x.1 ∧ ord = book_order (order_of_pair fa fb x.1)) ∨ (id = note_id x.2 ∧ ord = book_order (order_of_pair fb fa x.2)))) as Hvis.
  { intros id ord. unfold visible. rewrite Hord, Hpk. setoid_rewrite elem_of_orders_of. split.
    - intros ((o & (x & Hx & Ho) & -> & ->) & _). exists x. split; [done|]. destruct Ho as [->| ->]; auto.
    - intros (x & Hx & [[-> ->]|[-> ->]]); (split_and!; [|done|done]);
        [exists (order_of_pair fa fb x.1)|exists (order_of_pair fb fa x.2)]; (split_and!; [|done|done]); exists x; auto. }
  assert (ranked b l (fa, fb) ≡ₚ (λ x, note_id x.1) <$> xs) as R1.
  { apply NoDup_Permutation; [by apply NoDup_ranked|done|]. intros id. rewrite (elem_of_ranked b l _ id Hb), list_elem_of_fmap.
    setoid_rewrite Hvis. split.
    - intros (o & (x & Hx & [[-> ->]|[-> ->]]) & Hp); [eauto|]. unfold pair_of in Hp. simpl in Hp. congruence.
    - intros (x & -> & Hx). eauto 10. }
  assert (ranked b l (fb, fa) ≡ₚ (λ x, note_id x.2) <$> xs) as R2.
  { apply NoDup_Permutation; [by apply NoDup_ranked|done|]. intros id. rewrite (elem_of_ranked b l _ id Hb), list_elem_of_fmap.
    setoid_rewrite Hvis. split.
    - intros (o & (x & Hx & [[-> ->]|[-> ->]]) & Hp); [unfold pair_of in Hp; simpl in Hp; congruence|eauto].
    - intros (x & -> & Hx). eauto 10. }
  split; [split; [done| |]|].
  - intros id ord (x & Hx & [[-> ->]|[-> ->]])%Hvis; split; simpl; auto.
  - unfold flip_pair. simpl. by rewrite R1, R2, !length_fmap.
  - apply NoDup_Permutation; [apply (ix_nodup _ _ _ _ _ _ (bi_index _ _ _ Hb))|done|]. intros id.
    rewrite (inv_live_iff b l id Hb). setoid_rewrite Hvis. rewrite list_elem_of_fmap. unfold both. setoid_rewrite list_elem_of_bind. split.
    + intros (ord & x & Hx & [[-> _]|[-> _]]); [exists x.1|exists x.2]; (split; [done|]); exists x; set_solver.
    + intros (n & -> & x & Hn & Hx). rewrite !elem_of_cons, elem_of_nil in Hn. destruct Hn as [->|[->|[]]]; eauto 10.
Qed.
End balanced.

(** ** The run *)

(** An undisturbed iteration of ingest finds the notes, and a tick of a matcher that holds no order and
    serves no DEX drains what it forwarded, while the executor is there. *)
Record handed_over `{!Miden} (env : IngestEnv) (d : Db) (m : MatcherState) (i : TickInput) (notes : list Note) : Prop := {
  ho_sync : ∃ s, ie_sync env = Some s ∧ sr_new_notes s = notes;
  ho_conns : ie_consumed_conn env = true ∧ ie_insert_conn env = true;
  ho_sends : (∀ k, ie_consumed_open env k = true) ∧ (∀ k, ie_order_open env k = true);
  ho_unknown : ∀ n, n ∈ notes → db_orders d !! id_bytes (note_id n) = None;
  ho_matcher : matcher_run m;
  ho_empty : orders (book (ms_engine m)) = ∅;
  ho_router : ms_router m = None;
  ho_drained : ti_orders i = out_orders (ingest_once env d);
  ho_consumed : ti_consumed i = [];
  ho_quotes : ti_quotes i = ∅;
  ho_executor : ti_exec_open i = true;
}.

Section run.
Context `{!Miden}.

Lemma handed_over_orders env d m i fa fb xs :
  Forall (opposing fa fb) xs → handed_over env d m i (both xs) → ti_orders i = orders_of fa fb xs.
Proof.
  intros Hxs [(s & Hs & Hn) [C1 C2] [S1 S2] Hu _ _ _ -> _ _ _].
  destruct (ingest_once_undisturbed env s d Hs C1 C2 S1 S2) as (_ & _ & -> & _). rewrite Hn, (prepare_pairs _ fa fb) by done.
  apply filter_all. intros o Ho. apply (list_elem_of_fmap_2 io_note_id) in Ho. rewrite orders_of_ids in Ho.
  apply list_elem_of_fmap in Ho as (n & -> & Hin). by apply Hu.
Qed.

Lemma handed_over_ok env d m i fa fb xs :
  Forall (opposing fa fb) xs → handed_over env d m i (both xs) → 2 * Z.of_nat (length xs) < two32 → input_ok m i.
Proof.
  intros Hxs Hh Hroom. pose proof (handed_over_orders _ _ _ _ _ _ _ Hxs Hh) as Ho. split.
  - rewrite Ho. apply Forall_forall. intros o (x & _ & [->| ->])%elem_of_orders_of; done.
  - unfold room, tracked_of. simpl. rewrite (ho_empty _ _ _ _ _ Hh), map_size_empty, Ho.
    assert (length (orders_of fa fb xs) = 2 * length xs)%nat as ->; [|lia].
    unfold orders_of. clear. induction xs as [|x xs IH]; [done|]. cbn in *. lia.
  - rewrite (ho_quotes _ _ _ _ _ Hh). intros p qs Hq. by rewrite lookup_empty in Hq.
Qed.

(** What the book holds when the matching begins: the posted orders, with their bytes. *)
Lemma handed_over_book env d m i fa fb xs :
  Forall (opposing fa fb) xs → NoDup (note_id <$> both xs) → handed_over env d m i (both xs) →
  let t := entering m i in
  parked (tk_book t) = ∅ ∧
  (∀ id ord, orders (tk_book t) !! id = Some ord ↔ ∃ o, o ∈ orders_of fa fb xs ∧ id = io_note_id o ∧ ord = book_order o) ∧
  ∀ o, o ∈ orders_of fa fb xs → tk_raw t !! io_note_id o = Some (io_raw o).
Proof.
  intros Hxs Hnd Hh t. pose proof (handed_over_orders _ _ _ _ _ _ _ Hxs Hh) as Ho.
  assert (parked (tk_book (tracked_of m)) = ∅) as Hpk.
  { destruct (tv_book _ _ _ (matcher_run_inv m (ho_matcher _ _ _ _ _ Hh))) as [l Hb]. apply map_empty. intros id.
    destruct (parked (tk_book (tracked_of m)) !! id) as [[dex at_]|] eqn:E; [|done].
    apply (bi_parked _ _ _ Hb) in E as [(o & Hid & _)%id_active_iff _]. simpl in Hid. by rewrite (ho_empty _ _ _ _ _ Hh) in Hid. }
  assert (t = foldl (take_order (ti_unix i)) (tracked_of m) (orders_of fa fb xs)) as Et.
  { unfold t, entering, drain. by rewrite (ho_router _ _ _ _ _ Hh), (ho_consumed _ _ _ _ _ Hh), Ho. }
  destruct (take_all_fresh (ti_unix i) (tracked_of m) (orders_of fa fb xs)) as (H1 & H2 & H3);
    [by rewrite orders_of_ids|intros o _; simpl; by rewrite (ho_empty _ _ _ _ _ Hh)|done|]. rewrite <-Et in H1, H2, H3.
  split_and!; [done| |intros o Hin; by apply H2]. intros id ord. split.
  - intros Hid. destruct (decide (id ∈ io_note_id <$> orders_of fa fb xs)) as [(o & -> & Hin)%list_elem_of_fmap|Hnot].
    + exists o. destruct (H2 o Hin) as [E _]. rewrite Hid in E. by injection E as ->.
    + destruct (H3 id Hnot) as [E _]. rewrite Hid in E. simpl in E. by rewrite (ho_empty _ _ _ _ _ Hh) in E.
  - intros (o & Hin & -> & ->). by apply H2.
Qed.

Lemma mock_prices_known `{FL : Floats} `{HI : HashIter} n of_cents st token_map clock fa fb :
  let prices := fs_cents (poll_client n (mock_client_new of_cents (fixed_prices fa fb)) st token_map clock) in
  is_Some (prices !! fa) ∧ is_Some (prices !! fb).
Proof.
  cbn. unfold to_cents, fixed_prices. rewrite !lookup_fmap, !fmap_is_Some, lookup_insert_eq.
  split; [|by eexists]. destruct (decide (fa = fb)) as [->|]; [rewrite lookup_insert_eq|rewrite lookup_insert_ne, lookup_insert_eq by done]; by eexists.
Qed.
End run.

(** What the notes and the libraries must allow: distinct notes, requests and surpluses that are
    admissible assets. *)
Record admissible `{!Miden} (fa fb : TokenId) (xs : list (Note * Note)) : Prop := {
  ad_ids : NoDup (note_id <$> both xs);
  ad_room : 2 * Z.of_nat (length xs) < two32;
  ad_requests : fungible_asset_ok fa REQUEST = true ∧ fungible_asset_ok fb REQUEST = true ∧ pswap_args_ok REQUEST = true;
  ad_surplus : fungible_asset_ok fa (Z.of_nat (length xs) * (OFFER - REQUEST)) = true ∧
    fungible_asset_ok fb (Z.of_nat (length xs) * (OFFER - REQUEST)) = true;
}.

Section captured.
Context `{!Miden} `{!PswapLaws} `{FL : Floats} `{HI : HashIter} `{CH : CycleHeap}.

(** The executor can fill every note of the batch. *)
Lemma batch_fillable env d m i fa fb xs notes :
  note_roundtrip → Forall (opposing fa fb) xs → admissible fa fb xs → handed_over env d m i (both xs) →
  batch_ok (entering m i) notes → (∀ f, f ∈ notes → fn_requested_filled f = REQUEST) →
  Forall (fillable (orders (tk_book (entering m i)))) notes.
Proof.
  intros Hrt Hxs [Hnd Hroom (Ra & Rb & Rp) _] Hh Hok Hfill. destruct (handed_over_book _ _ _ _ _ _ _ Hxs Hnd Hh) as (_ & Hord & Hraw).
  rewrite Forall_forall in Hxs. apply Forall_forall. intros f Hf.
  destruct (bo_notes _ _ Hok f Hf) as (ord & (Ho & _) & _ & Hr & _).
  apply Hord in Ho as Ho'. destruct Ho' as (o & Hin & Eid & ->). exists (book_order o).
  rewrite Eid, (Hraw o Hin) in Hr. injection Hr as Hr. rewrite (Hfill f Hf), <-Hr.
  apply elem_of_orders_of in Hin as (x & Hx & Ho'). destruct (Hxs x Hx) as [(_ & p1 & P1 & T1) (_ & p2 & P2 & T2)].
  destruct Ho' as [->| ->]; (split_and!; [done|done| |done|done|done|done]); [exists x.1, p1|exists x.2, p2]; simpl; rewrite Hrt; tauto.
Qed.

(** C12. The spread of the posted orders is captured.  When the opposing pairs posted by the driver are
    found by ingest and drained by a matcher at the driver's fixed prices, then, whatever the number of
    pairs, the iteration orders and the heap, the tick returns and sends exactly these orders to the
    executor, whose preparation succeeds, and whose surplus is, in both tokens, the spread of every pair
    and nothing else: the gain the driver's summary looks for. *)
Theorem spread_captured env d m i fa fb xs of_cents st token_map clock n k solver :
  note_roundtrip → fa ≠ fb → xs ≠ [] → Forall (opposing fa fb) xs → admissible fa fb xs → handed_over env d m i (both xs) →
  ti_prices i = fs_cents (poll_client n (mock_client_new of_cents (fixed_prices fa fb)) st token_map clock) →
  ∃ enough, ∀ fuel, (enough <= fuel)%nat → ∃ out eb c notes,
    tick fuel m i = Some out ∧ to_batch out = Some eb ∧
    fn_note_id <$> filled_notes eb ≡ₚ note_id <$> both xs ∧
    prepare_batch_components k eb solver = inr (c, notes) ∧
    ∀ tok v, (tok, v) ∈ bc_surplus_assets c ↔ (tok = fa ∨ tok = fb) ∧ v = Z.of_nat (length xs) * (OFFER - REQUEST).
Proof.
  intros Hrt Hne Hx0 Hxs Had Hh Hpr. pose proof Had as [Hnd Hroom _ [Sa Sb]].
  pose proof (handed_over_ok _ _ _ _ _ _ _ Hxs Hh Hroom) as Hin.
  destruct (handed_over_book _ _ _ _ _ _ _ Hxs Hnd Hh) as (Hpk & Hord & _).
  destruct (entering_inv m i (matcher_run_inv m (ho_matcher _ _ _ _ _ Hh)) Hin) as [He _]. destruct (tv_book _ _ _ He) as [l Hb].
  destruct (pairs_clearable (matching_book m i) l fa fb xs) as [Hc Hl]; [by apply set_feed_inv|done..|].
  assert (Z.of_nat (length l) = 2 * Z.of_nat (length xs)) as Hlen.
  { rewrite Hl, length_fmap. unfold both. clear. induction xs as [|x xs IH]; [done|]. cbn in *. lia. }
  destruct (mock_prices_known n of_cents st token_map clock fa fb) as [Pa Pb]. rewrite <-Hpr in Pa, Pb.
  destruct (balanced_book_clears m i (fa, fb) OFFER REQUEST l (ho_matcher _ _ _ _ _ Hh) Hin (ho_executor _ _ _ _ _ Hh)) as [enough Hn];
    [done|done|done|intros ->; destruct xs; simpl in Hlen; [done|lia]|done..|].
  exists enough. intros fuel Hfuel. destruct (Hn fuel Hfuel) as (out & eb & Ht & Heb & Hok & Hids & Hfill & Hflow & Hother).
  assert (∀ tok, batch_flow (orders (tk_book (entering m i))) (filled_notes eb) tok =
    (if decide (tok = fa ∨ tok = fb) then Z.of_nat (length xs) * (OFFER - REQUEST) else 0)) as Hflows.
  { intros tok. case_decide as Htok; [specialize (Hflow tok Htok); lia|]. apply Hother; simpl; tauto. }
  pose proof (batch_fillable _ _ _ _ _ _ _ _ Hrt Hxs Had Hh Hok Hfill) as Hf.
  pose proof (prepare_spec k solver _ eb Hf) as Hp.
  assert (0 < length xs)%nat by (destruct xs; simpl; [done|lia]).
  destruct (prepare_batch_components k eb solver) as [e|[c notes]] eqn:Ep.
  - destruct Hp as (tok & Hneg & _); [|rewrite Hflows in Hneg; case_decide; unfold OFFER, REQUEST in *; lia].
    intros tok. rewrite Hflows. case_decide as Htok; [|lia]. intros _. split; [unfold OFFER, REQUEST, two32, two64 in *; lia|].
    by destruct Htok as [->| ->].
  - destruct Hp as (_ & _ & _ & Hs).
    { intros tok. rewrite Hflows. case_decide as Htok; [|lia]. intros _. split; [unfold OFFER, REQUEST, two32, two64 in *; lia|].
      by destruct Htok as [->| ->]. }
    exists out, eb, c, notes. split_and!; [done|done|by etrans|done|]. intros tok v. rewrite Hs, Hflows.
    case_decide; [|lia]. unfold OFFER, REQUEST. split; [tauto|]. intros [_ ->]. split; [done|lia].
Qed.
End captured.

(** ** A concrete run *)

#[local] Existing Instance demo_miden.

(** Two pairs of orders. *)
Definition posted_pair (id : N) : DemoNote * DemoNote :=
  (mk_demo true id 1 10000000 2 9000000 50, mk_demo true (id + 1) 2 10000000 1 9000000 51).
Definition posted_pairs : list (DemoNote * DemoNote) := [posted_pair 11; posted_pair 13].

Lemma posted_opposing : Forall (opposing 1 2) posted_pairs.
Proof. repeat constructor; (eexists; split_and!; reflexivity). Qed.

Lemma posted_admissible : admissible 1 2 posted_pairs.
Proof. split; [apply (bool_decide_unpack (NoDup _)); vm_compute; exact I|done|by split_and!|by split]. Qed.

Definition scenario_env : IngestEnv :=
  mk_env (Some (mk_sync 12 (both posted_pairs) [])) true true (λ _, true) (λ _, true) (λ i, Z.of_nat i).
Definition scenario_start : MatcherState := matcher_start ∅ true None (λ _, 7) (Some []).

(** Prices as numbers of cents. *)
Definition cents_floats : Floats := {|
  F64 := Z; f_valid := λ x, 0 <=? x; f_positive := λ x, 0 <? x; f_cents64 := λ x, x; f_cents128 := λ x, x;
  f_full := λ _, ""%string; f_fixed := λ _ _, ""%string; f_quotient := λ _ _, ""%string;
|}.

Definition scenario_feed : @FeedState cents_floats :=
  @poll_client cents_floats elements_iter _ mock_price_client 0 (mock_client_new (λ c : Z, c : @F64 cents_floats) (fixed_prices 1 2)) feed_new ∅ None.

Definition scenario_input : TickInput :=
  mk_tick 1000 (λ _, 8) [] (out_orders (ingest_once scenario_env db_empty)) (@fs_cents cents_floats scenario_feed) true ∅ Sent 0.

Lemma scenario_handed_over : handed_over scenario_env db_empty scenario_start scenario_input (both posted_pairs).
Proof.
  split; try done; [by eexists|]. apply run_start; [constructor|done].
Qed.

Lemma spread_captured_witness :
  ∃ enough, ∀ fuel, (enough <= fuel)%nat → ∃ out eb c notes,
    @tick elements_iter list_heap fuel scenario_start scenario_input = Some out ∧ to_batch out = Some eb ∧
    fn_note_id <$> filled_notes eb ≡ₚ [11; 12; 13; 14]%N ∧
    @prepare_batch_components demo_miden elements_iter 0 eb 99 = inr (c, notes) ∧
    ∀ tok v, (tok, v) ∈ bc_surplus_assets c ↔ (tok = 1%N ∨ tok = 2%N) ∧ v = 2 * 1000000.
Proof.
  apply (@spread_captured demo_miden demo_laws cents_floats elements_iter list_heap scenario_env db_empty scenario_start scenario_input 1 2
    posted_pairs (λ c : Z, c : @F64 cents_floats) feed_new ∅ None 0 0 99 demo_note_roundtrip); [discriminate|discriminate|exact posted_opposing|exact posted_admissible
    |exact scenario_handed_over|reflexivity].
Defined.
